(* ===== verification/_CoqProject ===== *)
-Q . S2P
Prelude.v
SortedVec.v
Text.v
Resp.v
RespParser.v
RespProofs.v
ReadLoop.v
RespStable.v
StreamId.v
BTree.v
ConsumerGroups.v
ConsumerGroupProofs.v
ConsumerGroupSpec.v
Stream.v
StreamProofs.v
StreamSpec.v
Glob.v
PubSub.v
Connection.v
Blocking.v
BlockingSpec.v
SortedSet.v
SkipList.v
SkipListProofs.v
SkipListSpec.v
Value.v
SortedSetImpl.v
Keyspace.v
StringOps.v
ListOps.v
SetOps.v
ZSetOps.v
Scan.v
KeyspaceProofs.v
CollectionProofs.v
EngineSteps.v
EngineWatch.v
TypeSafety.v
ScanSpec.v
CellSpec.v
ListSpec.v
SetSpec.v
ZSetSpec.v
StringSpec.v
EngineExpiry.v
Command.v
CommandLogic.v
CollectionCommands.v
StringCommands.v
ZSetCommands.v
StreamCommands.v
GroupCommands.v
CommandSteps.v
CommandParser.v
Executor.v
ExecutorProofs.v
LuaEngine.v
LuaProofs.v
LuaRelay.v
Slowlog.v
AdminCommands.v
Config.v
F64Bits.v
Rdb.v
RdbCodec.v
RdbRecords.v
RdbRoundtrip.v
Replication.v
Info.v
ReplicaClient.v
Server.v
ServerLoop.v
Sample.v
ServerSteps.v
Startup.v
ServerProofs.v
ScriptAgrees.v
ScriptServer.v
ReplicaProofs.v
Transactions.v
