(* ===== verification/Prelude.v ===== *)
(** * Ferrous, modelled and verified

    Ferrous (src/) is a server for the Redis protocol, written in Rust.  This
    library has its core as executable definitions, file by file and function by
    function, and the theorems that say what the server promises.  Names are
    those of the code where Rocq allows it; a comment names the source where they
    differ.

    ** The program and how its parts interact

    One thread runs the loop of [Server] (src/network/server.rs): it wakes
    blocked clients, accepts connections, reads each connection into its parser,
    processes the frames, writes the answers and removes closed connections.  A
    frame is a command; [process_frame] decides by the state of its connection
    (authentication, transaction, pause, subscriptions) and
    [process_normal_command] by its name.  Handlers call the storage engine,
    which keeps 16 databases of 16 shards and returns replies or errors.  A
    command that writes goes to the append-only file, to the replicas and their
    backlog, and counts for automatic saves.  Scripts reach the engine through an
    executor of their own.  Background threads delete expired keys, write the
    RDB file, and follow a master.

    ** How it is modelled

    - State is a record per Rust structure and every operation a function from
      the state to the new state and its result; [outcome] has the values [Ok],
      [Err] and [Panic].  A lock is held for the whole body of the method that
      takes it, so a method is one step; what other threads may do in between is
      in the step relations (EngineSteps.v) and in the turns of the loop.
    - Integers are [Z] with the wrap-around, the check or the saturation of
      their Rust type written out ([u64_wrap], [in_i64], ...); bytes are
      [Byte.byte]; an [f64] is a [spec_float] of the Standard Library, a NaN
      included; maps and sets are [gmap] and [gset].
    - A command handler is written in the monad of Command.v: state, the world
      outside (clocks, random draws, failures of compare-and-swap), replies that
      return early, errors of the question mark, and panics.
    - Loops that are not structural have fuel.  The fuel and why it is enough
      is a lemma beside each: the parser takes one more than the bytes it is
      given ([parse_frame_total]), the glob loops (text + 1) * (pattern + 1)
      ([Glob]), the skip list the number of its nodes (SkipListSpec.v), the
      reader of files one more than its bytes (RdbRoundtrip.v), a script the
      fuel with which it ends (LuaProofs.v), the thread of a replica the events
      its sockets give (ReplicaProofs.v).

    ** What is a parameter

    Code that is not in the repository, or not determined by the language, is an
    interface with an instance for the examples (Sample.v): the order of hashed
    collections ([HashIter]), sizes of Rust structures ([Layout]), the shortest
    decimal text of a float ([F64Text]), letter case outside ASCII ([CaseMap]),
    random numbers ([Random]), the Lua interpreter of the crate mlua ([Mlua],
    with its documented laws [MluaSpec]), names of hosts ([Resolver]), the debug
    text of errors ([DebugText]), the id of the process ([Process]).  Sockets, files and clocks are inputs: what a
    read gives, what a write takes, what the clock says.

    ** The files, and what their theorems show

    Foundations.  Prelude.v (bytes, outcomes, machine integers, tactics),
    SortedVec.v (binary search), BTree.v (ordered maps), Text.v (decimal text,
    UTF-8), F64Bits.v (the bytes of numbers).

    Protocol (src/protocol, the reading half of src/network).  Resp.v is frames
    and serializer, RespParser.v the incremental parser.  RespProofs.v shows the
    parser total, bounded and inverse to the serializer; RespStable.v and
    ReadLoop.v that however the bytes are cut into reads, the frames are those
    that were sent, and that more bytes never change an answer.  Connection.v is
    a connection and its write buffer: what was sent followed by what is pending
    is what was written.

    Values (src/storage).  StreamId.v, Stream.v, ConsumerGroups.v with
    StreamProofs.v, StreamSpec.v, ConsumerGroupProofs.v and ConsumerGroupSpec.v:
    streams stay sorted with exact counters as long as the ids that XADD makes
    have a sequence number left, the indexes of the pending entries agree.  SkipList.v is the pointer structure, SkipListProofs.v and
    SkipListSpec.v show that it implements the interface SortedSet.v through its
    heap, SortedSetImpl.v states it for whole histories.  Value.v is the values
    and the accounting of memory.

    The engine (src/storage/engine.rs).  Keyspace.v is shards, expiry and WATCH;
    StringOps.v, ListOps.v, SetOps.v, ZSetOps.v and Scan.v the operations, Glob.v
    the matcher of KEYS and of channels.  KeyspaceProofs.v and CollectionProofs.v
    say what one operation may do to its shard; EngineSteps.v makes a step
    relation of it, whose invariants follow by induction: EngineWatch.v (WATCH
    sees every change except renaming away, flushing and consumer groups; no
    empty collections), TypeSafety.v
    (a key keeps its type), ScanSpec.v (a full SCAN finds every key that stays),
    EngineExpiry.v (the cleaner).  CellSpec.v, ListSpec.v, SetSpec.v, ZSetSpec.v
    and StringSpec.v show that the commands on one key refine those of a
    sequence, a finite set or map, a sorted list and a byte string.

    Commands (src/storage/commands).  Command.v and CommandLogic.v are the monad
    and its program logic; CollectionCommands.v, StringCommands.v,
    ZSetCommands.v, StreamCommands.v, GroupCommands.v and AdminCommands.v the
    handlers, Slowlog.v the slow log, Info.v the counters, the text of INFO and
    the line of MONITOR.  CommandSteps.v shows that every handler moves the store
    only by the steps of the engine.

    Scripts (executor.rs, lua_engine.rs, lua.rs).  CommandParser.v and Executor.v
    are the commands of scripts and ExecutorProofs.v their safety; LuaEngine.v is
    what surrounds the interpreter, LuaProofs.v that EVAL runs the calls of the
    script, in order, and nothing else, LuaRelay.v what a script that relays a
    call answers, ScriptAgrees.v that the two implementations of the list, set
    and hash commands agree, ScriptServer.v EVAL and EVALSHA.

    Persistence (rdb.rs, aof.rs, monitor.rs, src/config).  Rdb.v is the file
    format with writer and reader, RdbCodec.v, RdbRecords.v and RdbRoundtrip.v
    the round trip.  Config.v is the configuration: which files are accepted, what every
    field then is, and the error of the first bad line.  Startup.v is the start of a server from its configuration and
    its files: what SAVE wrote is there after a restart, and nothing of the
    append-only file is.

    Other subsystems.  PubSub.v (subscriptions and what PUBLISH delivers),
    Blocking.v and BlockingSpec.v (BLPOP, BRPOP: who is woken, in which order),
    Replication.v (backlog, roles, SYNC and PSYNC), ReplicaClient.v and
    ReplicaProofs.v (the thread of a replica: on a clock and draws of its own it
    comes to the data of its master, for eleven commands on the first database).

    The server (src/network/server.rs).  Server.v is its state and the dispatch,
    ServerLoop.v the loop.  ServerSteps.v lifts the steps of the store to any
    run of the server; ServerProofs.v is the gate of authentication, for
    everything but SYNC and PSYNC, which come before it, and what a failing
    command does to its batch and its connection; Transactions.v shows that MULTI, EXEC and
    WATCH run a queue in order with nothing in between.

    ** Not modelled

    The listener and the sockets themselves; running out of memory (a capacity
    beyond [isize::MAX] panics as in the code, an allocation that the system
    refuses does not occur); when data reaches the disk (a write is in the file
    at once); messages on the output of the server; the memory
    tracker and the debug helpers, which nothing of the server needs; the
    command-line client for Lua and the test program of a replica; and the
    tests. *)

From Stdlib Require Export ZArith Lia.
From Stdlib Require Import String Strings.Byte.
From stdpp Require Export base tactics numbers list gmap sorting.
From stdpp Require Import strings.
Export String.StringSyntax.
Export Byte.ByteSyntaxNotations.
Delimit Scope byte_scope with byte.

(** ** Bytes and byte strings *)

Abbreviation byte := Byte.byte.
Abbreviation bytes := (list Byte.byte).

#[global] Instance byte_eq_decision : EqDecision byte := Byte.byte_eq_dec.

#[global] Program Instance byte_countable : Countable byte :=
  inj_countable Byte.to_N Byte.of_N _.
Next Obligation. exact Byte.of_to_N. Qed.

(** A byte literal [B "..."] is the byte string of its ASCII characters,
    as a Rust [b"..."] literal. *)
Definition B (s : string) : bytes := String.list_byte_of_string s.
Arguments B s%_string.

(** The numeric value of a [u8]. *)
Definition u8 (b : byte) : Z := Z.of_N (Byte.to_N b).

(** [(n as u8)] for a value in range (total: out of range gives 0). *)
Definition byte_of (n : Z) : byte := default Byte.x00 (Byte.of_N (Z.to_N n)).

Definition beq (a b : byte) : bool := bool_decide (a = b).

Declare Scope ferrous_scope.
Delimit Scope ferrous_scope with F.
Open Scope ferrous_scope.

Infix "=b" := beq (at level 70, no associativity) : ferrous_scope.

(** Lexicographic order on byte strings: [Vec<u8> : Ord]. *)
Fixpoint bytes_cmp (x y : bytes) : comparison :=
  match x, y with
  | [], [] => Eq
  | [], _ :: _ => Lt
  | _ :: _, [] => Gt
  | a :: x', b :: y' =>
      match (u8 a ?= u8 b)%Z with
      | Eq => bytes_cmp x' y'
      | c => c
      end
  end.

(** ** Errors (src/error.rs) *)

Inductive command_error :=
  | CUnknownCommand (s : bytes)
  | CWrongNumberOfArgs (s : bytes)
  | CSyntaxError (s : bytes)
  | CWrongType
  | CIntegerOverflow
  | CNotInteger
  | CIndexOutOfRange
  | CNoSuchKey
  | CInvalidState (s : bytes)
  | CInvalidArgument (s : bytes)
  | CInvalidStreamId
  | CStreamIdTooSmall
  | CStreamEmpty
  | CConsumerGroupExists
  | CNoSuchConsumerGroup
  | CNoSuchConsumer
  | CStreamIdExists
  | CGeneric (s : bytes)
  | CEmptyCommand
  | CWrongNumberOfArguments (s : bytes)
  | CInvalidCommandFormat
  | CInvalidArgumentType
  | CInvalidUtf8
  | CInvalidIntegerValue
  | CInvalidFloatValue
  | CNotImplemented.

Inductive storage_error :=
  | OutOfMemory
  | KeyNotFound
  | WrongType
  | InvalidDatabase
  | WouldBlock.

Inductive script_error :=
  | ScriptNotFound
  | ScriptExecutionError (s : bytes)
  | ScriptCompilationError (s : bytes)
  | ScriptTimeout
  | ScriptKilled.

Inductive ferrous_error :=
  | EProtocol (msg : bytes)
  | ECommand (e : command_error)
  | EStorage (e : storage_error)
  | EIo (msg : bytes)
  | EConfig (msg : bytes)
  | EConnection (msg : bytes)
  | EScript (e : script_error)
  | ELua (msg : bytes)
  | EInternal (msg : bytes).

(** ** Outcomes: [Result<A, FerrousError>], or a Rust panic *)

Inductive outcome (A : Type) :=
  | Ok (a : A)
  | Err (e : ferrous_error)
  | Panic.
Arguments Ok {A} a.
Arguments Err {A} e.
Arguments Panic {A}.

Definition obind {A C} (m : outcome A) (f : A -> outcome C) : outcome C :=
  match m with
  | Ok a => f a
  | Err e => Err e
  | Panic => Panic
  end.

Notation "'let?' x := c 'in' k" := (obind c (fun x => k))
  (at level 10, x pattern, c at level 100, k at level 200) : ferrous_scope.

(** ** Machine integers *)

Definition u64_max : Z := 18446744073709551615.
Definition i64_max : Z := 9223372036854775807.
Definition i64_min : Z := -9223372036854775808.

Definition u64_wrap (z : Z) : Z := (z mod 18446744073709551616)%Z.

(** Two's complement wrap-around to [i64]. *)
Definition i64_wrap (z : Z) : Z :=
  ((z + 9223372036854775808) mod 18446744073709551616 - 9223372036854775808)%Z.

(** [Instant + Duration] panics when the result is not representable: an
    [Instant] has [i64] seconds. *)
Definition instant_max : Z := (i64_max * 1000000000 + 999999999)%Z.

Definition instant_add (now d : Z) : outcome Z :=
  if (now + d <=? instant_max)%Z then Ok (now + d)%Z else Panic.

(** [Vec::with_capacity(n)] panics when the allocation exceeds [isize::MAX]. *)
Definition with_capacity (n size : Z) : outcome unit :=
  if (n * size <=? i64_max)%Z then Ok tt else Panic.

Definition in_u64 (z : Z) : Prop := (0 <= z <= u64_max)%Z.
Definition in_i64 (z : Z) : Prop := (i64_min <= z <= i64_max)%Z.

#[global] Instance in_u64_dec z : Decision (in_u64 z).
Proof. unfold in_u64. apply _. Defined.
#[global] Instance in_i64_dec z : Decision (in_i64 z).
Proof. unfold in_i64. apply _. Defined.

Create HintDb ferrous.

(** ** Tactics *)

(** Invert an equation between outcomes built with [let?]. *)
Ltac outcome_inv :=
  repeat match goal with
  | H : Ok _ = Ok _ |- _ => injection H as H
  | H : Err _ = Err _ |- _ => injection H as H
  | H : Ok _ = Err _ |- _ => discriminate H
  | H : Err _ = Ok _ |- _ => discriminate H
  | H : Ok _ = Panic |- _ => discriminate H
  | H : Panic = Ok _ |- _ => discriminate H
  | H : Err _ = Panic |- _ => discriminate H
  | H : Panic = Err _ |- _ => discriminate H
  | H : obind ?c _ = _ |- _ =>
      let E := fresh "E" in
      destruct c eqn:E; simpl in H; [| first [discriminate H | idtac] ..]
  end; simplify_eq.

(** Case analysis on every boolean or decidable test of the goal. *)
Ltac case_tests := repeat (case_decide || case_match).

(** ** Generic lemmas *)

Lemma byte_eqb_refl a : beq a a = true.
Proof. by apply bool_decide_eq_true. Qed.

Lemma beq_true a b : beq a b = true <-> a = b.
Proof. apply bool_decide_eq_true. Qed.

Lemma beq_false a b : beq a b = false <-> a <> b.
Proof. apply bool_decide_eq_false. Qed.

Lemma u8_inj a b : u8 a = u8 b -> a = b.
Proof.
  unfold u8. intros H%N2Z.inj.
  pose proof (Byte.of_to_N a). pose proof (Byte.of_to_N b). congruence.
Qed.

Lemma u8_range a : (0 <= u8 a < 256)%Z.
Proof. unfold u8. pose proof (Byte.to_N_bounded a). lia. Qed.

Lemma u8_byte_of n : (0 <= n < 256)%Z -> u8 (byte_of n) = n.
Proof.
  intros Hn. unfold byte_of, u8.
  destruct (Byte.of_N (Z.to_N n)) as [b|] eqn:E; simpl.
  - apply Byte.to_of_N in E. lia.
  - apply Byte.of_N_None_iff in E. lia.
Qed.

Lemma byte_of_u8 b : byte_of (u8 b) = b.
Proof. apply u8_inj, u8_byte_of, u8_range. Qed.

Lemma bytes_cmp_eq x y : bytes_cmp x y = Eq <-> x = y.
Proof.
  revert y; induction x as [|a x IH]; intros [|b y]; simpl; try done.
  destruct (u8 a ?= u8 b)%Z eqn:E.
  - apply Z.compare_eq in E. apply u8_inj in E as ->. rewrite IH. naive_solver.
  - split; [done|]. intros [= -> ->]. by rewrite Z.compare_refl in E.
  - split; [done|]. intros [= -> ->]. by rewrite Z.compare_refl in E.
Qed.

Lemma bytes_cmp_refl x : bytes_cmp x x = Eq.
Proof. by apply bytes_cmp_eq. Qed.

Lemma bytes_cmp_antisym x y : bytes_cmp y x = CompOpp (bytes_cmp x y).
Proof.
  revert y; induction x as [|a x IH]; intros [|b y]; simpl; try done.
  rewrite Z.compare_antisym. destruct (u8 a ?= u8 b)%Z; simpl; auto.
Qed.

Lemma bytes_cmp_lt_trans x y z :
  bytes_cmp x y = Lt -> bytes_cmp y z = Lt -> bytes_cmp x z = Lt.
Proof.
  revert y z; induction x as [|a x IH]; intros [|b y] [|c z]; simpl; try done.
  destruct (u8 a ?= u8 b)%Z eqn:E1, (u8 b ?= u8 c)%Z eqn:E2; try done; intros H1 H2;
    rewrite ?Z.compare_eq_iff, ?Z.compare_lt_iff in *.
  - rewrite E1, E2, Z.compare_refl. eauto.
  - by rewrite (proj2 (Z.compare_lt_iff _ _)) by lia.
  - by rewrite (proj2 (Z.compare_lt_iff _ _)) by lia.
  - by rewrite (proj2 (Z.compare_lt_iff _ _)) by lia.
Qed.

Lemma u64_wrap_small z : in_u64 z -> u64_wrap z = z.
Proof. unfold in_u64, u64_max, u64_wrap. intros. apply Z.mod_small. lia. Qed.

Lemma u64_wrap_range z : in_u64 (u64_wrap z).
Proof.
  unfold in_u64, u64_max, u64_wrap.
  pose proof (Z.mod_pos_bound z 18446744073709551616). lia.
Qed.

Lemma i64_wrap_small z : in_i64 z -> i64_wrap z = z.
Proof.
  unfold in_i64, i64_min, i64_max, i64_wrap. intros. rewrite Z.mod_small; lia.
Qed.

Section list_lemmas.
Context {A : Type}.
Implicit Types l : list A.

Lemma filter_none (P : A -> Prop) `{!forall x, Decision (P x)} l :
  (forall x, x ∈ l -> ~ P x) -> filter P l = [].
Proof.
  induction l as [|a l IH]; intros Hn; [done|].
  rewrite filter_cons_False by (apply Hn; left). apply IH. intros; apply Hn; by right.
Qed.

Lemma filter_all (P : A -> Prop) `{!forall x, Decision (P x)} l :
  (forall x, x ∈ l -> P x) -> filter P l = l.
Proof.
  induction l as [|a l IH]; intros Hn; [done|].
  rewrite filter_cons_True by (apply Hn; left). f_equal. apply IH. intros; apply Hn; by right.
Qed.

Lemma filter_ext_in (P Q : A -> Prop) `{!forall x, Decision (P x)} `{!forall x, Decision (Q x)} l :
  (forall x, x ∈ l -> (P x <-> Q x)) -> filter P l = filter Q l.
Proof.
  induction l as [|a l IH]; intros Hn; [done|]. rewrite !filter_cons.
  assert (Ha : P a <-> Q a) by (apply Hn; left).
  rewrite IH by (intros; apply Hn; by right). by rewrite (decide_ext (P a) (Q a)).
Qed.
End list_lemmas.

#[export] Hint Resolve u64_wrap_range u8_range : ferrous.
