(* ===== verification/SortedVec.v ===== *)
(** * Sorted vectors: [slice::binary_search_by] and what it finds

    The streams of Ferrous keep their entries in a [Vec] sorted by id and find
    positions with [binary_search_by].  This file has the search (the loop of
    the Rust standard library, halving [size] and moving [base]) over a list
    with an integer key, and the lemmas that turn its answer into [take],
    [drop] and [filter] of a strictly sorted list. *)

From S2P Require Import Prelude.

Section sorted_vec.
Context {A : Type} (key : A -> Z).

(** [Ok(i)] or [Err(i)] of [binary_search_by(|e| e.key.cmp(x))]. *)
Inductive search := SFound (i : nat) | SMissing (i : nat).

Fixpoint bsearch_loop (fuel : nat) (l : list A) (x : Z) (base size : nat) : nat :=
  match fuel with
  | O => base
  | S f =>
      if Nat.leb size 1 then base
      else
        let half := Nat.div2 size in
        let mid := base + half in
        let base' :=
          match l !! mid with
          | Some e => if (x <? key e)%Z then base else mid
          | None => base
          end in
        bsearch_loop f l x base' (size - half)
  end.

Definition binary_search (l : list A) (x : Z) : search :=
  match l with
  | [] => SMissing 0
  | _ =>
      let base := bsearch_loop (length l) l x 0 (length l) in
      match l !! base with
      | Some e =>
          match (key e ?= x)%Z with
          | Eq => SFound base
          | Lt => SMissing (S base)
          | Gt => SMissing base
          end
      | None => SMissing base
      end
  end.

(** [unwrap_or_else(|idx| idx)] *)
Definition search_index (s : search) : nat :=
  match s with SFound i => i | SMissing i => i end.

Definition sorted (l : list A) : Prop := StronglySorted (fun a b => (key a < key b)%Z) l.

(** The reference answer: how many keys are below [x]. *)
Definition rank (l : list A) (x : Z) : nat :=
  length (filter (fun e => (key e < x)%Z) l).

Lemma sorted_nil : sorted [].
Proof. constructor. Qed.

Lemma sorted_lookup_lt l i j a c :
  sorted l -> l !! i = Some a -> l !! j = Some c -> i < j -> (key a < key c)%Z.
Proof.
  unfold sorted. intros Hs. revert i j. induction Hs as [|h t Hs IH Hall]; intros [|i] [|j] Ha Hc Hlt;
    simplify_eq/=; try lia.
  - rewrite Forall_lookup in Hall. eauto.
  - eapply (IH i j); eauto; lia.
Qed.

Lemma sorted_lookup_inj l i j a c :
  sorted l -> l !! i = Some a -> l !! j = Some c -> key a = key c -> i = j.
Proof.
  intros Hs Ha Hc Hk. destruct (lt_eq_lt_dec i j) as [[H|H]|H]; [|done|].
  - pose proof (sorted_lookup_lt _ _ _ _ _ Hs Ha Hc H). lia.
  - pose proof (sorted_lookup_lt _ _ _ _ _ Hs Hc Ha H). lia.
Qed.

Lemma sorted_app l1 l2 :
  sorted (l1 ++ l2) <->
  sorted l1 /\ sorted l2 /\ (forall a c, a ∈ l1 -> c ∈ l2 -> (key a < key c)%Z).
Proof.
  unfold sorted. induction l1 as [|a l1 IH]; simpl.
  - split; [intros H; repeat split; [constructor|done|]|naive_solver].
    intros a c Ha. by apply not_elem_of_nil in Ha.
  - split.
    + inversion 1 as [|? ? Hs Hall]; subst. apply IH in Hs as (H1 & H2 & H3).
      rewrite Forall_app in Hall. destruct Hall as [Ha1 Ha2]. rewrite Forall_forall in Ha2.
      repeat split; [by constructor|done|]. intros x y [->|Hx]%elem_of_cons Hy; eauto.
    + intros (H1 & H2 & H3). inversion H1; subst. constructor.
      * apply IH. repeat split; [done|done|]. intros; apply H3; [by right|done].
      * rewrite Forall_app. split; [done|]. rewrite Forall_forall. intros; apply H3; [by left|done].
Qed.

Lemma sorted_sublist l1 l2 : sublist l1 l2 -> sorted l2 -> sorted l1.
Proof.
  unfold sorted. induction 1 as [|x l1 l2 Hsub IH|x l1 l2 Hsub IH]; intros Hs; [constructor| |].
  - inversion Hs as [|? ? Hs' Hall]; subst. constructor; [auto|].
    rewrite Forall_forall in *. intros y Hy. apply Hall. eapply elem_of_sublist; eauto.
  - inversion Hs; subst. auto.
Qed.

Lemma sorted_filter (P : A -> Prop) `{!forall x, Decision (P x)} l :
  sorted l -> sorted (filter P l).
Proof. apply sorted_sublist, sublist_filter. Qed.

Lemma sorted_take n l : sorted l -> sorted (take n l).
Proof. apply sorted_sublist, sublist_take. Qed.

Lemma sorted_drop n l : sorted l -> sorted (drop n l).
Proof. apply sorted_sublist, sublist_drop. Qed.

Lemma sorted_NoDup l : sorted l -> NoDup (key <$> l).
Proof.
  unfold sorted. induction 1 as [|a l Hs IH Hall]; simpl; constructor; [|done].
  rewrite list_elem_of_fmap. intros (c & Hk & Hc). rewrite Forall_forall in Hall.
  specialize (Hall c Hc). simpl in Hall. lia.
Qed.

(** A sorted list splits at the keys below [x]. *)
Lemma sorted_split l x :
  sorted l ->
  filter (fun e => (key e < x)%Z) l = take (rank l x) l /\
  filter (fun e => (x <= key e)%Z) l = drop (rank l x) l.
Proof.
  unfold rank, sorted. induction 1 as [|a l Hs [IH1 IH2] Hall]; simpl; [done|].
  rewrite !filter_cons. destruct (decide (key a < x)%Z) as [Hl|Hl]; simpl.
  - rewrite decide_False by lia. split; [by f_equal|done].
  - rewrite decide_True by lia.
    assert (Hf : filter (fun e => (key e < x)%Z) l = []).
    { apply filter_none. rewrite Forall_forall in Hall. intros y Hy.
      specialize (Hall y Hy). simpl in Hall. lia. }
    rewrite Hf in *. simpl. split; [done|]. f_equal. by rewrite IH2.
Qed.

Lemma rank_le l x : rank l x <= length l.
Proof. apply length_filter. Qed.

Lemma rank_lookup l x i e :
  sorted l -> l !! i = Some e -> (i < rank l x <-> (key e < x)%Z).
Proof.
  intros Hs Hi. destruct (sorted_split l x Hs) as [H1 H2]. split.
  - intros Hlt. assert (e ∈ take (rank l x) l) as He.
    { apply list_elem_of_lookup. exists i. by rewrite lookup_take_lt. }
    rewrite <- H1 in He. by apply list_elem_of_filter in He as [? _].
  - intros Hk. destruct (decide (i < rank l x)) as [|Hn]; [done|exfalso].
    assert (e ∈ drop (rank l x) l) as He.
    { apply list_elem_of_lookup. exists (i - rank l x). rewrite lookup_drop, <- Hi. f_equal. lia. }
    rewrite <- H2 in He. apply list_elem_of_filter in He as [? _]. lia.
Qed.

(** Every index below [n] has key below [x], every later one is at or above it. *)
Lemma rank_char l x n :
  sorted l -> n <= length l ->
  (forall i e, l !! i = Some e -> (i < n <-> (key e < x)%Z)) -> rank l x = n.
Proof.
  intros Hs Hn Hc. destruct (lt_eq_lt_dec (rank l x) n) as [[H|H]|H]; [exfalso|done|exfalso].
  - destruct (lookup_lt_is_Some_2 l (rank l x)) as [e He]; [lia|].
    pose proof (rank_lookup _ x _ _ Hs He). rewrite <- (Hc _ _ He) in *. lia.
  - pose proof (rank_le l x). destruct (lookup_lt_is_Some_2 l n) as [e He]; [lia|].
    pose proof (rank_lookup _ x _ _ Hs He). rewrite <- (Hc _ _ He) in *. lia.
Qed.

Lemma bsearch_loop_spec fuel l x base size :
  sorted l -> 1 <= size -> size <= fuel -> base + size <= length l ->
  (forall i e, l !! i = Some e -> i < base -> (key e <= x)%Z) ->
  (forall e, base <> 0 -> l !! base = Some e -> (key e <= x)%Z) ->
  (forall i e, l !! i = Some e -> base + size <= i -> (x < key e)%Z) ->
  let r := bsearch_loop fuel l x base size in
  r < length l /\
  (forall i e, l !! i = Some e -> i < r -> (key e <= x)%Z) /\
  (forall e, r <> 0 -> l !! r = Some e -> (key e <= x)%Z) /\
  (forall i e, l !! i = Some e -> r < i -> (x < key e)%Z).
Proof.
  intros Hs. revert base size.
  induction fuel as [|fuel IH]; intros base size H1 Hf Hlen Hlo Hb Hhi; simpl; [lia|].
  destruct (Nat.leb_spec size 1).
  { repeat split; eauto; [lia|]. intros i e Hi Hlt. apply (Hhi i); [done|lia]. }
  pose proof (Nat.div2_odd size) as Hd. pose proof (Nat.lt_div2 size).
  assert (1 <= Nat.div2 size) by (destruct (Nat.odd size); simpl in Hd; lia).
  set (half := Nat.div2 size) in *.
  destruct (lookup_lt_is_Some_2 l (base + half)) as [e He]; [lia|]. rewrite He.
  destruct (Z.ltb_spec x (key e)).
  - apply IH; [lia|lia|lia|done|done|].
    intros i e' Hi Hle. destruct (decide (i = base + half)) as [->|]; [congruence|].
    pose proof (sorted_lookup_lt _ _ i _ _ Hs He Hi). lia.
  - apply IH; [lia|lia|lia| | |].
    + intros i e' Hi Hlt. pose proof (sorted_lookup_lt _ i _ _ _ Hs Hi He). lia.
    + intros e' _ He'. rewrite He in He'. injection He' as <-. lia.
    + intros i e' Hi Hle. apply (Hhi i); [done|lia].
Qed.

(** On a sorted vector the search answers exactly the reference rank. *)
Lemma binary_search_sorted l x :
  sorted l ->
  search_index (binary_search l x) = rank l x /\
  match binary_search l x with
  | SFound i => exists e, l !! i = Some e /\ key e = x
  | SMissing _ => forall e, e ∈ l -> key e <> x
  end.
Proof.
  intros Hs. destruct l as [|a l']; [split; [done|intros e He; by apply not_elem_of_nil in He]|].
  remember (a :: l') as l eqn:El.
  assert (Hlen : 1 <= length l) by (subst; simpl; lia).
  pose proof (bsearch_loop_spec (length l) l x 0 (length l) Hs) as Hspec.
  destruct Hspec as (Hr & Hlo & Hb & Hhi); [lia|lia|lia|intros; lia|done| |].
  { intros i e Hi ?. apply lookup_lt_Some in Hi. lia. }
  set (r := bsearch_loop (length l) l x 0 (length l)) in *.
  destruct (lookup_lt_is_Some_2 l r Hr) as [e He].
  assert (binary_search l x = match (key e ?= x)%Z with
    | Eq => SFound r | Lt => SMissing (S r) | Gt => SMissing r end) as ->.
  { unfold r, binary_search in *. subst l. by rewrite He. }
  assert (Hrank : forall n, n <= length l ->
    (forall i e, l !! i = Some e -> (i < n <-> (key e < x)%Z)) -> n = rank l x).
  { intros. symmetry. by apply rank_char. }
  destruct (Z.compare_spec (key e) x) as [Heq|Hlt|Hgt]; simpl.
  - split; [|eauto]. apply Hrank; [lia|]. intros i c Hc. split.
    + intros Hi. pose proof (sorted_lookup_lt _ _ _ _ _ Hs Hc He Hi). lia.
    + intros Hk. destruct (lt_eq_lt_dec i r) as [[Hg| ->]|Hg]; [done| |].
      { rewrite He in Hc; injection Hc as ->; lia. }
      pose proof (sorted_lookup_lt _ _ _ _ _ Hs He Hc Hg). lia.
  - split.
    + apply Hrank; [lia|]. intros i c Hc. split.
      * intros Hi. destruct (decide (i = r)) as [->|]; [congruence|].
        pose proof (sorted_lookup_lt _ i r _ _ Hs Hc He). lia.
      * intros Hk. destruct (decide (i < S r)); [done|]. specialize (Hhi i c Hc). lia.
    + intros c (i & Hc)%list_elem_of_lookup Hk.
      destruct (lt_eq_lt_dec i r) as [[Hg| ->]|Hg].
      * pose proof (sorted_lookup_lt _ i r _ _ Hs Hc He). lia.
      * rewrite He in Hc; injection Hc as ->; lia.
      * specialize (Hhi i c Hc Hg). lia.
  - assert (r = 0) as Hr0.
    { destruct (decide (r = 0)); [done|]. specialize (Hb e). naive_solver lia. }
    split.
    + apply Hrank; [lia|]. intros i c Hc. split; [lia|]. intros Hk.
      destruct (decide (i = r)) as [->|]; [rewrite He in Hc; injection Hc as ->; lia|].
      pose proof (sorted_lookup_lt _ r i _ _ Hs He Hc). lia.
    + intros c (i & Hc)%list_elem_of_lookup Hk.
      destruct (decide (i = r)) as [->|]; [rewrite He in Hc; injection Hc as ->; lia|].
      pose proof (sorted_lookup_lt _ r i _ _ Hs He Hc). lia.
Qed.
End sorted_vec.
