(* ===== verification/Text.v ===== *)
(** * Text: the parts of the Rust standard library the server uses on bytes

    Decimal display and parsing of integers ([to_string], [str::parse::<i64>],
    [parse::<usize>]), and UTF-8 decoding ([str::from_utf8],
    [String::from_utf8_lossy], [str::chars]).  They are executable; the round
    trip of display and parse is proved here and used by the protocol, the
    counters (INCRBY) and the stream ids. *)

From S2P Require Import Prelude.


Open Scope Z_scope.

(** ** Decimal display *)

Definition digit (d : Z) : byte := byte_of (48 + d).

(** Digits of [n >= 0], most significant first, in front of [acc]. *)
Fixpoint show_digits (fuel : nat) (n : Z) (acc : bytes) : bytes :=
  match fuel with
  | O => acc
  | S f =>
      let acc' := digit (n mod 10) :: acc in
      if n <? 10 then acc' else show_digits f (n / 10) acc'
  end.

(** [n.to_string()] for [u64]/[usize] and [i64]: 20 digits are enough. *)
Definition show_u64 (n : Z) : bytes := show_digits 20 n [].

Definition show_i64 (n : Z) : bytes :=
  if n <? 0 then "-"%byte :: show_digits 20 (- n) [] else show_digits 20 n [].

(** ** Decimal parsing ([from_str_radix 10]) *)

Definition is_digit (b : byte) : bool := (48 <=? u8 b) && (u8 b <=? 57).

(** The accumulation loop: every step is overflow checked against [lo], [hi];
    [sgn] is 1 for positive and -1 for negative numbers. *)
Fixpoint parse_digits (lo hi sgn acc : Z) (s : bytes) : option Z :=
  match s with
  | [] => Some acc
  | c :: s' =>
      if is_digit c then
        let acc' := acc * 10 + sgn * (u8 c - 48) in
        if (lo <=? acc') && (acc' <=? hi) then parse_digits lo hi sgn acc' s' else None
      else None
  end.

(** [s.parse::<i64>().ok()] *)
Definition parse_i64 (s : bytes) : option Z :=
  match s with
  | [] => None
  | c :: s' =>
      if c =b "+"%byte then
        match s' with [] => None | _ => parse_digits i64_min i64_max 1 0 s' end
      else if c =b "-"%byte then
        match s' with [] => None | _ => parse_digits i64_min i64_max (-1) 0 s' end
      else parse_digits i64_min i64_max 1 0 s
  end.

(** [s.parse::<usize>().ok()] and [parse::<u64>]: a leading [+] is accepted, a
    [-] is an invalid digit. *)
Definition parse_u64 (s : bytes) : option Z :=
  match s with
  | [] => None
  | c :: s' =>
      if c =b "+"%byte then
        match s' with [] => None | _ => parse_digits 0 u64_max 1 0 s' end
      else parse_digits 0 u64_max 1 0 s
  end.

(** ** UTF-8 *)

(** One decoding step: a character with the bytes it was read from, or the
    maximal invalid prefix the decoder skips. *)
Inductive uchunk :=
  | UChar (c : Z) (raw : bytes)
  | UBad (raw : bytes).

Definition in_range (lo hi : Z) (b : byte) : bool := (lo <=? u8 b) && (u8 b <=? hi).
Definition is_cont (b : byte) : bool := in_range 128 191 b.

(** The second byte a three or four byte lead admits. *)
Definition second_ok (lead b : byte) : bool :=
  if u8 lead =? 224 then in_range 160 191 b
  else if u8 lead =? 237 then in_range 128 159 b
  else if u8 lead =? 240 then in_range 144 191 b
  else if u8 lead =? 244 then in_range 128 143 b
  else is_cont b.

Definition low6 (b : byte) : Z := Z.land (u8 b) 63.

Definition utf8_step (b0 : byte) (t : bytes) : uchunk * bytes :=
  if u8 b0 <? 128 then (UChar (u8 b0) [b0], t)
  else if in_range 194 223 b0 then
    match t with
    | b1 :: t1 =>
        if is_cont b1
        then (UChar (Z.land (u8 b0) 31 * 64 + low6 b1) [b0; b1], t1)
        else (UBad [b0], t)
    | [] => (UBad [b0], t)
    end
  else if in_range 224 239 b0 then
    match t with
    | b1 :: t1 =>
        if second_ok b0 b1 then
          match t1 with
          | b2 :: t2 =>
              if is_cont b2
              then (UChar ((Z.land (u8 b0) 15 * 64 + low6 b1) * 64 + low6 b2) [b0; b1; b2], t2)
              else (UBad [b0; b1], t1)
          | [] => (UBad [b0; b1], t1)
          end
        else (UBad [b0], t)
    | [] => (UBad [b0], t)
    end
  else if in_range 240 244 b0 then
    match t with
    | b1 :: t1 =>
        if second_ok b0 b1 then
          match t1 with
          | b2 :: t2 =>
              if is_cont b2 then
                match t2 with
                | b3 :: t3 =>
                    if is_cont b3
                    then (UChar (((Z.land (u8 b0) 7 * 64 + low6 b1) * 64 + low6 b2) * 64 + low6 b3)
                            [b0; b1; b2; b3], t3)
                    else (UBad [b0; b1; b2], t2)
                | [] => (UBad [b0; b1; b2], t2)
                end
              else (UBad [b0; b1], t1)
          | [] => (UBad [b0; b1], t1)
          end
        else (UBad [b0], t)
    | [] => (UBad [b0], t)
    end
  else (UBad [b0], t).

Fixpoint utf8_chunks_fuel (fuel : nat) (s : bytes) : list uchunk :=
  match fuel, s with
  | O, _ => []
  | _, [] => []
  | S f, b :: t => let '(u, rest) := utf8_step b t in u :: utf8_chunks_fuel f rest
  end.

Definition utf8_chunks (s : bytes) : list uchunk := utf8_chunks_fuel (length s) s.

(** [str::from_utf8(s).is_ok()] *)
Definition utf8_valid (s : bytes) : bool :=
  forallb (fun u => match u with UChar _ _ => true | UBad _ => false end) (utf8_chunks s).

(** [String::from_utf8_lossy(s)], as bytes: U+FFFD for each invalid part. *)
Definition utf8_lossy (s : bytes) : bytes :=
  flat_map (fun u => match u with UChar _ raw => raw | UBad _ => [byte_of 239; byte_of 191; byte_of 189] end)
    (utf8_chunks s).

(** [String::from_utf8_lossy(s).chars()], as code points. *)
Definition utf8_chars (s : bytes) : list Z :=
  map (fun u => match u with UChar c _ => c | UBad _ => 65533 end) (utf8_chunks s).

(** ** Display then parse *)

Lemma u8_digit d : 0 <= d < 10 -> u8 (digit d) = 48 + d.
Proof. intros. unfold digit. apply u8_byte_of. lia. Qed.

Lemma is_digit_digit d : 0 <= d < 10 -> is_digit (digit d) = true.
Proof. intros. unfold is_digit. rewrite u8_digit by lia. lia. Qed.

Lemma show_digits_cons fuel n acc :
  0 <= n -> (0 < fuel)%nat ->
  exists d s, show_digits fuel n acc = d :: s /\ is_digit d = true.
Proof.
  revert n acc. induction fuel as [|f IH]; intros n acc Hn Hf; [lia|]. simpl.
  pose proof (Z.mod_pos_bound n 10). destruct (Z.ltb_spec n 10).
  - eexists _, _. split; [done|]. apply is_digit_digit. lia.
  - destruct f as [|f].
    + simpl. eexists _, _. split; [done|]. apply is_digit_digit. lia.
    + apply IH; [apply Z.div_pos; lia|lia].
Qed.

Lemma show_digits_Forall (P : byte -> Prop) fuel n acc :
  (forall d, is_digit d = true -> P d) -> 0 <= n -> Forall P acc ->
  Forall P (show_digits fuel n acc).
Proof.
  intros HP. revert n acc. induction fuel as [|f IH]; intros n acc Hn Hacc; simpl; [done|].
  assert (Hd : P (digit (n mod 10))).
  { apply HP, is_digit_digit. pose proof (Z.mod_pos_bound n 10). lia. }
  destruct (Z.ltb_spec n 10); [by constructor|]. apply IH; [apply Z.div_pos; lia|by constructor].
Qed.

(** Folding the digits of [n] (in sign [sgn]) gives [sgn * n]. *)
Lemma parse_show_digits lo hi sgn fuel n acc :
  (sgn = 1 \/ sgn = -1) -> lo <= 0 <= hi -> 0 <= n < 10 ^ Z.of_nat fuel -> (0 < fuel)%nat ->
  lo <= sgn * n <= hi ->
  parse_digits lo hi sgn 0 (show_digits fuel n acc) = parse_digits lo hi sgn (sgn * n) acc.
Proof.
  intros Hsgn Hz. revert n acc. induction fuel as [|f IH]; intros n acc Hn Hf Hr; [lia|].
  simpl. pose proof (Z.mod_pos_bound n 10). pose proof (Z.div_mod n 10).
  destruct (Z.ltb_spec n 10).
  - cbn [parse_digits]. rewrite is_digit_digit, u8_digit by lia.
    rewrite Z.mod_small by lia. simpl.
    replace (0 * 10 + sgn * (48 + n - 48)) with (sgn * n) by lia.
    destruct (Z.leb_spec lo (sgn * n)), (Z.leb_spec (sgn * n) hi); simpl; first [done|lia].
  - assert (0 <= n / 10) by (apply Z.div_pos; lia).
    rewrite Nat2Z.inj_succ, Z.pow_succ_r in Hn by lia.
    assert (n / 10 < 10 ^ Z.of_nat f) by (apply Z.div_lt_upper_bound; lia).
    destruct f as [|f]; [simpl in *; lia|].
    rewrite IH by (destruct Hsgn; subst; lia).
    cbn [parse_digits]. rewrite is_digit_digit, u8_digit by lia.
    replace (sgn * (n / 10) * 10 + sgn * (48 + n mod 10 - 48)) with (sgn * n) by nia.
    destruct (Z.leb_spec lo (sgn * n)), (Z.leb_spec (sgn * n) hi); simpl; first [done|lia].
Qed.

Lemma is_digit_not d (c : byte) : is_digit d = true -> is_digit c = false -> beq d c = false.
Proof. intros Hd Hc. apply beq_false. intros ->. congruence. Qed.

Ltac show_bound := replace (10 ^ Z.of_nat 20) with 100000000000000000000 by done; lia.

Lemma parse_show_u64 n : in_u64 n -> parse_u64 (show_u64 n) = Some n.
Proof.
  intros Hn. unfold in_u64, u64_max in Hn. unfold parse_u64, show_u64.
  destruct (show_digits_cons 20 n []) as (d & s & E & Hd); [lia|lia|]. rewrite E.
  rewrite (is_digit_not d) by done. rewrite <- E.
  rewrite parse_show_digits; unfold u64_max; [simpl; f_equal; lia|auto|lia|show_bound|lia|lia].
Qed.

Lemma parse_show_i64 n : in_i64 n -> parse_i64 (show_i64 n) = Some n.
Proof.
  intros Hn. unfold in_i64, i64_min, i64_max in Hn. unfold parse_i64, show_i64.
  destruct (Z.ltb_spec n 0).
  - destruct (show_digits_cons 20 (- n) []) as (d & s & E & Hd); [lia|lia|]. rewrite E.
    change ("-"%byte =b "+"%byte) with false. change ("-"%byte =b "-"%byte) with true.
    cbv beta iota. rewrite <- E. rewrite parse_show_digits; unfold i64_min, i64_max; [simpl; f_equal; lia|auto|lia|show_bound|lia|lia].
  - destruct (show_digits_cons 20 n []) as (d & s & E & Hd); [lia|lia|]. rewrite E.
    rewrite !(is_digit_not d) by done. rewrite <- E.
    rewrite parse_show_digits; unfold i64_min, i64_max; [simpl; f_equal; lia|auto|lia|show_bound|lia|lia].
Qed.

(** Parsed numbers are in range. *)
Lemma parse_digits_range lo hi sgn acc s n :
  lo <= acc <= hi -> parse_digits lo hi sgn acc s = Some n -> lo <= n <= hi.
Proof.
  revert acc. induction s as [|c s IH]; intros acc Ha; simpl; [intros [= <-]; done|].
  destruct (is_digit c); [|done]. destruct (_ && _) eqn:E; [|done]. apply IH. lia.
Qed.

Lemma parse_i64_range s n : parse_i64 s = Some n -> in_i64 n.
Proof.
  unfold parse_i64, in_i64, i64_min, i64_max. intros H. repeat case_match; simplify_eq;
    eapply parse_digits_range; [|eassumption| |eassumption| |eassumption]; lia.
Qed.

Lemma parse_u64_range s n : parse_u64 s = Some n -> in_u64 n.
Proof.
  unfold parse_u64, in_u64, u64_max. intros H. repeat case_match; simplify_eq;
    eapply parse_digits_range; [|eassumption| |eassumption]; lia.
Qed.

(** Displayed numbers consist of digits, after a possible minus sign. *)
Lemma show_u64_Forall (P : byte -> Prop) n :
  (forall d, is_digit d = true -> P d) -> 0 <= n -> Forall P (show_u64 n).
Proof. intros. by apply show_digits_Forall. Qed.

Lemma show_i64_Forall (P : byte -> Prop) n :
  (forall d, is_digit d = true -> P d) -> P "-"%byte -> Forall P (show_i64 n).
Proof.
  intros. unfold show_i64. destruct (Z.ltb_spec n 0); [constructor; [done|]|];
    apply show_digits_Forall; auto; lia.
Qed.

(** ** UTF-8 of ASCII text *)

Definition is_ascii (b : byte) : Prop := u8 b < 128.

Lemma utf8_chunks_ascii s :
  Forall is_ascii s -> utf8_chunks s = map (fun b => UChar (u8 b) [b]) s.
Proof.
  unfold utf8_chunks. induction 1 as [|b s Hb Hs IH]; simpl; [done|].
  unfold utf8_step. unfold is_ascii in Hb.
  destruct (Z.ltb_spec (u8 b) 128); [|lia]. by rewrite IH.
Qed.

Lemma utf8_valid_ascii s : Forall is_ascii s -> utf8_valid s = true.
Proof.
  intros H. unfold utf8_valid. rewrite utf8_chunks_ascii by done.
  clear H. induction s; simpl; auto.
Qed.

Lemma utf8_lossy_ascii s : Forall is_ascii s -> utf8_lossy s = s.
Proof.
  intros H. unfold utf8_lossy. rewrite utf8_chunks_ascii by done.
  clear H. induction s as [|b s IH]; simpl; [done|by rewrite IH].
Qed.

Lemma is_digit_ascii d : is_digit d = true -> is_ascii d.
Proof. unfold is_digit, is_ascii. lia. Qed.

Lemma show_u64_valid n : 0 <= n -> utf8_valid (show_u64 n) = true.
Proof. intros. apply utf8_valid_ascii, show_u64_Forall; [apply is_digit_ascii|done]. Qed.

Lemma show_i64_valid n : utf8_valid (show_i64 n) = true.
Proof. apply utf8_valid_ascii, show_i64_Forall; [apply is_digit_ascii|]. vm_compute. done. Qed.

#[export] Hint Resolve parse_show_u64 parse_show_i64 show_u64_valid show_i64_valid : ferrous.

(** ** UTF-8 of any text *)

Definition chunk_raw (u : uchunk) : bytes := match u with UChar _ raw | UBad raw => raw end.

Lemma utf8_step_raw b t : let '(u, rest) := utf8_step b t in chunk_raw u ++ rest = b :: t /\ chunk_raw u <> [].
Proof.
  unfold utf8_step. repeat (case_match; simplify_eq); simpl; done.
Qed.

Lemma utf8_chunks_raw fuel : forall s, (length s <= fuel)%nat -> flat_map chunk_raw (utf8_chunks_fuel fuel s) = s.
Proof.
  induction fuel as [|fuel IH]; intros [|b s] Hl; try done; [simpl in Hl; lia|]. cbn [utf8_chunks_fuel].
  pose proof (utf8_step_raw b s) as Hs. destruct (utf8_step b s) as [u rest]. destruct Hs as [E Hne].
  cbn [flat_map]. rewrite IH; [done|]. apply (f_equal length) in E. rewrite length_app in E.
  destruct (chunk_raw u); simpl in *; [done|lia].
Qed.

(** Text that is UTF-8 is read as it is. *)
Lemma utf8_lossy_valid s : utf8_valid s = true -> utf8_lossy s = s.
Proof.
  unfold utf8_valid, utf8_lossy, utf8_chunks. intros Hv. rewrite <- (utf8_chunks_raw (length s) s) at 3 by done.
  induction (utf8_chunks_fuel (length s) s) as [|[c raw|raw] l IH]; simpl in *; [done| |done]. by rewrite IH.
Qed.
