(* ===== verification/Resp.v ===== *)
(** * RESP frames and their serializer

    [RespFrame] of src/protocol/resp.rs with its constructors and predicates,
    and the writer of src/protocol/serializer.rs.  The serializer is a small
    state monad over the output buffer, because an error (a [NoResponse] frame,
    possibly nested) leaves what was already written in the buffer.

    The specification is [encode], the wire image of a frame; the theorems show
    that the serializer appends exactly [encode f] and fails exactly on frames
    that contain [NoResponse]. *)

From S2P Require Import Prelude Text.
From Stdlib Require Import SpecFloat.

Open Scope Z_scope.

(** An IEEE binary64 value: the standard library's [spec_float]. *)
Abbreviation f64 := spec_float.

(** Display and parsing of [f64] in the Rust standard library ([to_string] and
    [str::parse::<f64>]): the two functions, with what the protocol relies on,
    namely that display is ASCII without control bytes and that parsing
    recovers the displayed value. *)
Class F64Text := {
  f64_display : f64 -> bytes;
  f64_parse : bytes -> option f64;
  f64_display_ascii d : Forall (fun b => 32 <= u8 b < 128) (f64_display d);
  f64_parse_display d : f64_parse (f64_display d) = Some d;
}.

#[warnings="-register-all"]
Inductive RespFrame :=
  | SimpleString (s : bytes)
  | Error (s : bytes)
  | Integer (n : Z)
  | BulkString (o : option bytes)
  | Array (o : option (list RespFrame))
  | NoResponse
  | Null
  | Boolean (b : bool)
  | Double (d : f64)
  | MapFrame (ps : list (RespFrame * RespFrame))
  | SetFrame (l : list RespFrame).

(** Induction with the hypothesis on every element of a nested frame. *)
Section frame_ind.
Variable P : RespFrame -> Prop.
Hypothesis Hsimple : forall s, P (SimpleString s).
Hypothesis Herror : forall s, P (Error s).
Hypothesis Hint : forall n, P (Integer n).
Hypothesis Hbulk : forall o, P (BulkString o).
Hypothesis Hnull_array : P (Array None).
Hypothesis Harray : forall l, Forall P l -> P (Array (Some l)).
Hypothesis Hnoresp : P NoResponse.
Hypothesis Hnull : P Null.
Hypothesis Hbool : forall b, P (Boolean b).
Hypothesis Hdouble : forall d, P (Double d).
Hypothesis Hmap : forall ps, Forall (fun p => P p.1 /\ P p.2) ps -> P (MapFrame ps).
Hypothesis Hset : forall l, Forall P l -> P (SetFrame l).

Fixpoint frame_ind' (f : RespFrame) : P f :=
  let go := fix go (l : list RespFrame) : Forall P l :=
    match l with
    | [] => Forall_nil_2 P
    | x :: t => Forall_cons_2 P x t (frame_ind' x) (go t)
    end in
  match f with
  | SimpleString s => Hsimple s
  | Error s => Herror s
  | Integer n => Hint n
  | BulkString o => Hbulk o
  | Array None => Hnull_array
  | Array (Some l) => Harray l (go l)
  | NoResponse => Hnoresp
  | Null => Hnull
  | Boolean b => Hbool b
  | Double d => Hdouble d
  | MapFrame ps =>
      Hmap ps
        ((fix gop (l : list (RespFrame * RespFrame)) : Forall (fun p => P p.1 /\ P p.2) l :=
            match l with
            | [] => Forall_nil_2 _
            | (x, y) :: t =>
                Forall_cons_2 _ (x, y) t (conj (frame_ind' x) (frame_ind' y)) (gop t)
            end) ps)
  | SetFrame l => Hset l (go l)
  end.
End frame_ind.

(** ** Constructors and predicates of resp.rs *)

Definition ok : RespFrame := SimpleString (B "OK").
Definition simple_string (s : bytes) : RespFrame := SimpleString s.
Definition is_error (f : RespFrame) : bool := match f with Error _ => true | _ => false end.
Definition error (msg : bytes) : RespFrame := Error msg.
Definition null_bulk : RespFrame := BulkString None.
Definition null_array : RespFrame := Array None.
Definition no_response : RespFrame := NoResponse.
Definition from_bytes (s : bytes) : RespFrame := BulkString (Some s).
Definition from_string (s : bytes) : RespFrame := BulkString (Some s).
Definition bulk_string (s : bytes) : RespFrame := BulkString (Some s).
Definition array (l : list RespFrame) : RespFrame := Array (Some l).
Definition is_null (f : RespFrame) : bool :=
  match f with Null | BulkString None | Array None => true | _ => false end.
Definition as_string (f : RespFrame) : option bytes :=
  match f with
  | SimpleString s => Some (utf8_lossy s)
  | BulkString (Some s) => Some (utf8_lossy s)
  | _ => None
  end.
Definition as_bulk_string_lossy (f : RespFrame) : option bytes :=
  match f with BulkString (Some s) => Some (utf8_lossy s) | _ => None end.

Definition CRLF : bytes := [byte_of 13; byte_of 10].

(** [n.to_string()] of a [Vec]'s length. *)
Definition show_len {A} (l : list A) : bytes := show_u64 (Z.of_nat (length l)).

(** ** The serializer *)

(** A writer step: the buffer so far, the new buffer and the result. *)
Definition writer := bytes -> bytes * outcome unit.

Definition write_all (s : bytes) : writer := fun w => (w ++ s, Ok tt).

(** [a?; b] *)
Definition wseq (a b : writer) : writer := fun w =>
  match a w with
  | (w', Ok _) => b w'
  | (w', Err e) => (w', Err e)
  | (w', Panic) => (w', Panic)
  end.

Notation "a ;;; b" := (wseq a b) (at level 62, right associativity) : ferrous_scope.

Definition no_response_error : ferrous_error :=
  EProtocol (B "Cannot serialize NoResponse frame - this is an internal marker").

Section serializer.
Context `{F64Text}.

Fixpoint serialize_resp_frame (frame : RespFrame) : writer :=
  match frame with
  | SimpleString s => write_all (B "+") ;;; write_all s ;;; write_all CRLF
  | Error s => write_all (B "-") ;;; write_all s ;;; write_all CRLF
  | Integer n => write_all (B ":") ;;; write_all (show_i64 n) ;;; write_all CRLF
  | BulkString (Some s) =>
      write_all (B "$") ;;; write_all (show_len s) ;;; write_all CRLF ;;;
      write_all s ;;; write_all CRLF
  | BulkString None => write_all (B "$-1" ++ CRLF)
  | Array (Some frames) =>
      write_all (B "*") ;;; write_all (show_len frames) ;;; write_all CRLF ;;;
      (fix go (l : list RespFrame) : writer :=
         match l with
         | [] => write_all []
         | x :: t => serialize_resp_frame x ;;; go t
         end) frames
  | Array None => write_all (B "*-1" ++ CRLF)
  | NoResponse => fun w => (w, Err no_response_error)
  | Null => write_all (B "_" ++ CRLF)
  | Boolean b => if b then write_all (B "#t" ++ CRLF) else write_all (B "#f" ++ CRLF)
  | Double d => write_all (B ",") ;;; write_all (f64_display d) ;;; write_all CRLF
  | MapFrame pairs =>
      write_all (B "%") ;;; write_all (show_len pairs) ;;; write_all CRLF ;;;
      (fix go (l : list (RespFrame * RespFrame)) : writer :=
         match l with
         | [] => write_all []
         | (key, value) :: t => serialize_resp_frame key ;;; serialize_resp_frame value ;;; go t
         end) pairs
  | SetFrame elements =>
      write_all (B "~") ;;; write_all (show_len elements) ;;; write_all CRLF ;;;
      (fix go (l : list RespFrame) : writer :=
         match l with
         | [] => write_all []
         | x :: t => serialize_resp_frame x ;;; go t
         end) elements
  end.

Definition serialize_to_vec (frame : RespFrame) : outcome bytes :=
  match serialize_resp_frame frame [] with
  | (buf, Ok _) => Ok buf
  | (_, Err e) => Err e
  | (_, Panic) => Panic
  end.

(** *** RespSerializer: a reusable buffer *)

Record RespSerializer := { ser_buffer : bytes }.

Definition ser_new : RespSerializer := {| ser_buffer := [] |}.

Definition ser_add (s : RespSerializer) (frame : RespFrame) : RespSerializer * outcome unit :=
  let '(buf, r) := serialize_resp_frame frame (ser_buffer s) in ({| ser_buffer := buf |}, r).

Definition ser_take (s : RespSerializer) : RespSerializer * bytes := (ser_new, ser_buffer s).

Definition ser_clear (s : RespSerializer) : RespSerializer := ser_new.

(** ** Specification: the wire image *)

Fixpoint encode (frame : RespFrame) : bytes :=
  match frame with
  | SimpleString s => B "+" ++ s ++ CRLF
  | Error s => B "-" ++ s ++ CRLF
  | Integer n => B ":" ++ show_i64 n ++ CRLF
  | BulkString (Some s) => B "$" ++ show_len s ++ CRLF ++ s ++ CRLF
  | BulkString None => B "$-1" ++ CRLF
  | Array (Some l) => B "*" ++ show_len l ++ CRLF ++ concat (map encode l)
  | Array None => B "*-1" ++ CRLF
  | NoResponse => []
  | Null => B "_" ++ CRLF
  | Boolean b => (if b then B "#t" else B "#f") ++ CRLF
  | Double d => B "," ++ f64_display d ++ CRLF
  | MapFrame ps =>
      B "%" ++ show_len ps ++ CRLF ++ concat (map (fun p => encode p.1 ++ encode p.2) ps)
  | SetFrame l => B "~" ++ show_len l ++ CRLF ++ concat (map encode l)
  end.

(** The frame holds no internal marker, at any depth. *)
Fixpoint sendable (frame : RespFrame) : bool :=
  match frame with
  | NoResponse => false
  | Array (Some l) | SetFrame l => forallb sendable l
  | MapFrame ps => forallb (fun p => sendable p.1 && sendable p.2) ps
  | _ => true
  end.

(** What one serializer call does to the buffer. *)
Definition appends (a : writer) (s : bytes) : Prop := forall w, a w = (w ++ s, Ok tt).
Definition rejects (a : writer) : Prop :=
  forall w, exists s, a w = (w ++ s, Err no_response_error).

Lemma write_all_appends s : appends (write_all s) s.
Proof. done. Qed.

Lemma wseq_appends a b s t : appends a s -> appends b t -> appends (a ;;; b) (s ++ t).
Proof. intros Ha Hb w. unfold wseq. by rewrite Ha, Hb, <- app_assoc. Qed.

Lemma wseq_rejects_l a b : rejects a -> rejects (a ;;; b).
Proof. intros Ha w. unfold wseq. destruct (Ha w) as [s ->]. eauto. Qed.

Lemma wseq_rejects_r a b s : appends a s -> rejects b -> rejects (a ;;; b).
Proof.
  intros Ha Hb w. unfold wseq. rewrite Ha. destruct (Hb (w ++ s)) as [t ->].
  exists (s ++ t). by rewrite <- app_assoc.
Qed.

Lemma wseq_assoc a b c w : (a ;;; b ;;; c) w = ((a ;;; b) ;;; c) w.
Proof. unfold wseq. by destruct (a w) as [w' [[]|e|]]. Qed.

(** A loop over elements, each of which appends or rejects. *)
Lemma serialize_loop {A} (ser : A -> writer) (enc : A -> bytes) (good : A -> bool)
    (go : list A -> writer) (l : list A) :
  go [] = write_all [] -> (forall x t w, go (x :: t) w = (ser x ;;; go t) w) ->
  Forall (fun x => if good x then appends (ser x) (enc x) else rejects (ser x)) l ->
  if forallb good l then appends (go l) (concat (map enc l)) else rejects (go l).
Proof.
  intros Hnil Hcons. induction 1 as [|x t Hx Ht IH]; simpl; [by rewrite Hnil|].
  destruct (good x); simpl.
  - destruct (forallb good t).
    + intros w. rewrite Hcons. by apply wseq_appends.
    + intros w. rewrite Hcons. by eapply wseq_rejects_r.
  - intros w. rewrite Hcons. by apply wseq_rejects_l.
Qed.
End serializer.

(** Peels the fixed prefix a frame writes before its elements. *)
Ltac ser_prefix := repeat (apply wseq_appends; [apply write_all_appends|]).
Ltac ser_prefix_rej := repeat (eapply wseq_rejects_r; [apply write_all_appends|]).

Section serializer_theorems.
Context `{F64Text}.

Lemma serialize_pairs ps :
  Forall (fun p =>
    (if sendable p.1 then appends (serialize_resp_frame p.1) (encode p.1)
     else rejects (serialize_resp_frame p.1)) /\
    (if sendable p.2 then appends (serialize_resp_frame p.2) (encode p.2)
     else rejects (serialize_resp_frame p.2))) ps ->
  Forall (fun p =>
    if sendable p.1 && sendable p.2
    then appends (serialize_resp_frame p.1 ;;; serialize_resp_frame p.2) (encode p.1 ++ encode p.2)
    else rejects (serialize_resp_frame p.1 ;;; serialize_resp_frame p.2)) ps.
Proof.
  intros Hf. eapply Forall_impl; [exact Hf|]. intros [k v] [Hk Hv]. simpl in *.
  destruct (sendable k); simpl; [|by apply wseq_rejects_l].
  destruct (sendable v); [by apply wseq_appends|by eapply wseq_rejects_r].
Qed.

(** The serializer appends the wire image, or rejects, on every frame. *)
Lemma serialize_spec f :
  if sendable f then appends (serialize_resp_frame f) (encode f)
  else rejects (serialize_resp_frame f).
Proof.
  induction f as [s|s|n|[s|]| |l IH| | |[]|d|ps IH|l IH] using frame_ind';
    cbn [serialize_resp_frame encode sendable]; try (by ser_prefix); try done.
  - match goal with |- context [?g l] => match type of g with list _ -> writer =>
      pose proof (serialize_loop serialize_resp_frame encode sendable g l eq_refl
        (fun _ _ _ => eq_refl) IH) as Hl end end.
    destruct (forallb sendable l); [ser_prefix; exact Hl|ser_prefix_rej; exact Hl].
  - intros w. exists []. by rewrite app_nil_r.
  - match goal with |- context [?g ps] => match type of g with list _ -> writer =>
      pose proof (serialize_loop
        (fun p => serialize_resp_frame p.1 ;;; serialize_resp_frame p.2)
        (fun p => encode p.1 ++ encode p.2) (fun p => sendable p.1 && sendable p.2) g ps) as Hl
    end end.
    specialize (Hl eq_refl).
    destruct (forallb _ ps); [ser_prefix|ser_prefix_rej]; apply Hl;
      try (intros [k v] t w; apply wseq_assoc); by apply serialize_pairs.
  - match goal with |- context [?g l] => match type of g with list _ -> writer =>
      pose proof (serialize_loop serialize_resp_frame encode sendable g l eq_refl
        (fun _ _ _ => eq_refl) IH) as Hl end end.
    destruct (forallb sendable l); [ser_prefix; exact Hl|ser_prefix_rej; exact Hl].
Qed.
End serializer_theorems.

(** The serializer implements the wire format: it returns the wire image of a
    frame, and refuses exactly the frames that contain the internal
    [NoResponse] marker at some depth. *)
Lemma serialize_to_vec_spec `{F64Text} f :
  serialize_to_vec f = if sendable f then Ok (encode f) else Err no_response_error.
Proof.
  unfold serialize_to_vec. pose proof (serialize_spec f) as Hs.
  destruct (sendable f); [by rewrite Hs|by destruct (Hs []) as [s ->]].
Qed.

(** Adding frames to a serializer one after the other leaves the concatenated
    wire images in the buffer, which [take] returns before resetting. *)
Lemma ser_add_all `{F64Text} fs s :
  forallb sendable fs = true ->
  fold_left (fun s f => (ser_add s f).1) fs s =
    {| ser_buffer := ser_buffer s ++ concat (map encode fs) |}.
Proof.
  revert s. induction fs as [|f fs IH]; intros s; simpl.
  { intros _. rewrite app_nil_r. by destruct s. }
  intros [Hf Hfs]%andb_prop. rewrite IH by done. unfold ser_add.
  pose proof (serialize_spec f) as Hs. rewrite Hf in Hs. rewrite Hs. simpl.
  by rewrite <- app_assoc.
Qed.

(** ** A model of [F64Text]

    The interface is inhabited: here is a text for [f64] values (not the
    decimal text of Rust) with which the theorems that assume [F64Text] are
    evaluated on concrete inputs. *)
Module BitText.
Fixpoint show_pos (p : positive) : bytes :=
  match p with
  | xH => B "."
  | xO q => "0"%byte :: show_pos q
  | xI q => "1"%byte :: show_pos q
  end.

Fixpoint read_pos (s : bytes) : option (positive * bytes) :=
  match s with
  | [] => None
  | c :: t =>
      if c =b "." then Some (xH, t)
      else match read_pos t with
           | None => None
           | Some (p, r) => Some (if c =b "0" then xO p else xI p, r)
           end
  end.

Definition show_Z (z : Z) : bytes :=
  match z with
  | Z0 => B "z"
  | Zpos p => "+"%byte :: show_pos p
  | Zneg p => "-"%byte :: show_pos p
  end.

Definition read_Z (s : bytes) : option Z :=
  match s with
  | [] => None
  | c :: t =>
      if c =b "z" then Some 0
      else match read_pos t with
           | None => None
           | Some (p, _) => Some (if c =b "+" then Zpos p else Zneg p)
           end
  end.

Definition sign_byte (s : bool) : byte := if s then "-"%byte else "+"%byte.

Definition show_f64 (d : f64) : bytes :=
  match d with
  | S754_zero s => sign_byte s :: B "0"
  | S754_infinity s => sign_byte s :: B "i"
  | S754_nan => B "+n"
  | S754_finite s m e => sign_byte s :: "f"%byte :: show_pos m ++ show_Z e
  end.

Definition read_f64 (t : bytes) : option f64 :=
  match t with
  | s :: k :: r =>
      let neg := s =b "-" in
      if k =b "0" then Some (S754_zero neg)
      else if k =b "i" then Some (S754_infinity neg)
      else if k =b "n" then Some S754_nan
      else match read_pos r with
           | None => None
           | Some (m, r') => option_map (S754_finite neg m) (read_Z r')
           end
  | _ => None
  end.

Lemma read_show_pos p r : read_pos (show_pos p ++ r) = Some (p, r).
Proof. induction p as [p IH|p IH|]; simpl; [| |done]; by rewrite IH. Qed.

Lemma read_show_Z z : read_Z (show_Z z) = Some z.
Proof.
  destruct z as [|p|p]; [done| |]; simpl; rewrite <- (app_nil_r (show_pos p)), read_show_pos; done.
Qed.

Lemma show_pos_ascii p : Forall (fun b => 32 <= u8 b < 128) (show_pos p).
Proof. induction p; simpl; repeat constructor; cbn; try lia; done. Qed.

#[refine, export] Instance bit_text : F64Text := {| f64_display := show_f64; f64_parse := read_f64 |}.
Proof.
  - intros [[]|[]| |[] m e]; simpl; repeat (constructor; [done|]); try by constructor.
    all: apply Forall_app; split; [apply show_pos_ascii|].
    all: destruct e; simpl; repeat (constructor; [done|]); try apply show_pos_ascii; by constructor.
  - intros [[]|[]| |[] m e]; try done; simpl; rewrite read_show_pos; simpl; by rewrite read_show_Z.
Defined.
End BitText.
