(* ===== verification/RespParser.v ===== *)
(** * The incremental RESP parser

    [parse_frame] and its helpers of src/protocol/parser.rs, and [RespParser],
    the parser with a buffer that a connection feeds.  [usize] values read from
    the wire stay in [Z]; positions in the buffer are [nat].  The recursion on
    nested frames takes fuel; [parse_frame] gives one more than the number of
    bytes, which is always enough ([parse_frame_total]), because every nested
    frame starts at least two bytes later.  The element loops have fuel too:
    every element consumes at least one byte.

    Rust panics are outcomes: a slice [&data[n..]] beyond the end and
    [Vec::with_capacity] of more than [isize::MAX] bytes. *)

From S2P Require Import Prelude Text Resp.

Open Scope nat_scope.

(** [Result<Option<(A, usize)>>] *)
Abbreviation presult A := (outcome (option (A * nat))).

(** [for i in skip..data.len() - 1]: the first position of CR LF. *)
Fixpoint scan_crlf (i : nat) (rest : bytes) : option nat :=
  match rest with
  | [] => None
  | a :: t =>
      match t with
      | [] => None
      | b :: _ => if (a =b byte_of 13) && (b =b byte_of 10) then Some i else scan_crlf (S i) t
      end
  end.

Definition parse_line (data : bytes) (skip_prefix : nat) : option (bytes * nat) :=
  if length data <? skip_prefix + 2 then None
  else
    match scan_crlf skip_prefix (drop skip_prefix data) with
    | Some i => Some (take (i - skip_prefix) (drop skip_prefix data), i + 2)
    | None => None
    end.

Definition protocol {A} (msg : bytes) : outcome A := Err (EProtocol msg).

(** [&data[n..]] *)
Definition slice_from (data : bytes) (n : nat) : outcome bytes :=
  if n <=? length data then Ok (drop n data) else Panic.

(** [u8 as char], encoded in the error message. *)
Definition char_utf8 (b : byte) : bytes :=
  if (u8 b <? 128)%Z then [b]
  else [byte_of (192 + u8 b / 64); byte_of (128 + u8 b mod 64)].

Section parser.
Context `{F64Text}.
(** [size_of::<RespFrame>()] and [size_of::<(RespFrame, RespFrame)>()]. *)
Context (frame_size pair_size : Z).

Definition parse_simple_string (data : bytes) : presult RespFrame :=
  match parse_line data 1 with
  | Some (line, consumed) => Ok (Some (SimpleString line, consumed))
  | None => Ok None
  end.

Definition parse_error (data : bytes) : presult RespFrame :=
  match parse_line data 1 with
  | Some (line, consumed) => Ok (Some (Error line, consumed))
  | None => Ok None
  end.

Definition parse_integer (data : bytes) : presult RespFrame :=
  match parse_line data 1 with
  | Some (line, consumed) =>
      if utf8_valid line then
        match parse_i64 line with
        | Some n => Ok (Some (Integer n, consumed))
        | None => protocol (B "Invalid integer format")
        end
      else protocol (B "Invalid UTF-8 in integer")
  | None => Ok None
  end.

Definition parse_bulk_string (data : bytes) : presult RespFrame :=
  match parse_line data 1 with
  | None => Ok None
  | Some (len_line, header_consumed) =>
      if utf8_valid len_line then
        match parse_i64 len_line with
        | None => protocol (B "Invalid bulk string length")
        | Some len =>
            if (len =? -1)%Z then Ok (Some (BulkString None, header_consumed))
            else if (len <? 0)%Z then protocol (B "Invalid negative bulk string length")
            else if (Z.of_nat (length data) <? Z.of_nat header_consumed + len + 2)%Z then Ok None
            else
              let len := Z.to_nat len in
              match data !! (header_consumed + len), data !! (header_consumed + len + 1) with
              | Some r, Some n =>
                  if negb (r =b byte_of 13) || negb (n =b byte_of 10)
                  then protocol (B "Missing CRLF after bulk string")
                  else Ok (Some (BulkString (Some (take len (drop header_consumed data))),
                                 header_consumed + len + 2))
              | _, _ => Panic
              end
        end
      else protocol (B "Invalid UTF-8 in bulk length")
  end.

Definition parse_null (data : bytes) : presult RespFrame :=
  if length data <? 3 then Ok None
  else
    match data with
    | _ :: a :: b :: _ =>
        if (a =b byte_of 13) && (b =b byte_of 10) then Ok (Some (Null, 3))
        else protocol (B "Invalid null format")
    | _ => Panic
    end.

Definition parse_boolean (data : bytes) : presult RespFrame :=
  if length data <? 4 then Ok None
  else
    match data with
    | _ :: t :: a :: b :: _ =>
        if (a =b byte_of 13) && (b =b byte_of 10) then
          if t =b "t"%byte then Ok (Some (Boolean true, 4))
          else if t =b "f"%byte then Ok (Some (Boolean false, 4))
          else protocol (B "Invalid boolean format")
        else protocol (B "Invalid boolean format")
    | _ => Panic
    end.

Definition parse_double (data : bytes) : presult RespFrame :=
  match parse_line data 1 with
  | Some (line, consumed) =>
      if utf8_valid line then
        match f64_parse line with
        | Some n => Ok (Some (Double n, consumed))
        | None => protocol (B "Invalid double format")
        end
      else protocol (B "Invalid UTF-8 in double")
  | None => Ok None
  end.

(** The loop [for _ in 0..len] over nested frames; [None] is out of fuel. *)
Fixpoint parse_elems (pf : bytes -> option (presult RespFrame)) (lf : nat) (n : Z)
    (data : bytes) (elements : list RespFrame) (total_consumed : nat)
    : option (presult (list RespFrame)) :=
  if (n <=? 0)%Z then Some (Ok (Some (elements, total_consumed)))
  else
    match lf with
    | O => None
    | S lf' =>
        match slice_from data total_consumed with
        | Ok d =>
            match pf d with
            | None => None
            | Some (Ok (Some (frame, consumed))) =>
                parse_elems pf lf' (n - 1)%Z data (elements ++ [frame]) (total_consumed + consumed)
            | Some (Ok None) => Some (Ok None)
            | Some (Err e) => Some (Err e)
            | Some Panic => Some Panic
            end
        | Err e => Some (Err e)
        | Panic => Some Panic
        end
    end.

(** Pairs of a map: each turn reads a key and then a value, that is two
    element steps. *)
Fixpoint parse_pairs (pf : bytes -> option (presult RespFrame)) (lf : nat) (n : Z)
    (data : bytes) (pairs : list (RespFrame * RespFrame)) (total_consumed : nat)
    : option (presult (list (RespFrame * RespFrame))) :=
  if (n <=? 0)%Z then Some (Ok (Some (pairs, total_consumed)))
  else
    match lf with
    | O => None
    | S lf' =>
        match parse_elems pf 2 2 data [] total_consumed with
        | Some (Ok (Some ([key; value], total))) =>
            parse_pairs pf lf' (n - 1)%Z data (pairs ++ [(key, value)]) total
        | Some (Ok (Some _)) => Some Panic
        | Some (Ok None) => Some (Ok None)
        | Some (Err e) => Some (Err e)
        | Some Panic => Some Panic
        | None => None
        end
    end.

Definition wrap {A} (mk : A -> RespFrame) (r : option (presult A)) : option (presult RespFrame) :=
  match r with
  | None => None
  | Some (Ok (Some (x, n))) => Some (Ok (Some (mk x, n)))
  | Some (Ok None) => Some (Ok None)
  | Some (Err e) => Some (Err e)
  | Some Panic => Some Panic
  end.

Definition parse_array (pf : bytes -> option (presult RespFrame)) (data : bytes)
    : option (presult RespFrame) :=
  match parse_line data 1 with
  | None => Some (Ok None)
  | Some (len_line, header_consumed) =>
      if utf8_valid len_line then
        match parse_i64 len_line with
        | None => Some (protocol (B "Invalid array length"))
        | Some len =>
            if (len =? -1)%Z then Some (Ok (Some (Array None, header_consumed)))
            else if (len <? 0)%Z then Some (protocol (B "Invalid negative array length"))
            else
              match with_capacity len frame_size with
              | Ok _ =>
                  wrap (fun l => Array (Some l))
                    (parse_elems pf (S (length data)) len data [] header_consumed)
              | _ => Some Panic
              end
        end
      else Some (protocol (B "Invalid UTF-8 in array length"))
  end.

Definition parse_map (pf : bytes -> option (presult RespFrame)) (data : bytes)
    : option (presult RespFrame) :=
  match parse_line data 1 with
  | None => Some (Ok None)
  | Some (len_line, header_consumed) =>
      if utf8_valid len_line then
        match parse_u64 len_line with
        | None => Some (protocol (B "Invalid map length"))
        | Some len =>
            match with_capacity len pair_size with
            | Ok _ =>
                wrap MapFrame (parse_pairs pf (S (length data)) len data [] header_consumed)
            | _ => Some Panic
            end
        end
      else Some (protocol (B "Invalid UTF-8 in map length"))
  end.

Definition parse_set (pf : bytes -> option (presult RespFrame)) (data : bytes)
    : option (presult RespFrame) :=
  match parse_line data 1 with
  | None => Some (Ok None)
  | Some (len_line, header_consumed) =>
      if utf8_valid len_line then
        match parse_u64 len_line with
        | None => Some (protocol (B "Invalid set length"))
        | Some len =>
            match with_capacity len frame_size with
            | Ok _ =>
                wrap SetFrame (parse_elems pf (S (length data)) len data [] header_consumed)
            | _ => Some Panic
            end
        end
      else Some (protocol (B "Invalid UTF-8 in set length"))
  end.

Fixpoint parse_frame_fuel (fuel : nat) (data : bytes) : option (presult RespFrame) :=
  match fuel with
  | O => None
  | S fuel' =>
      match data with
      | [] => Some (Ok None)
      | c :: _ =>
          if c =b "+"%byte then Some (parse_simple_string data)
          else if c =b "-"%byte then Some (parse_error data)
          else if c =b ":"%byte then Some (parse_integer data)
          else if c =b "$"%byte then Some (parse_bulk_string data)
          else if c =b "*"%byte then parse_array (parse_frame_fuel fuel') data
          else if c =b "_"%byte then Some (parse_null data)
          else if c =b "#"%byte then Some (parse_boolean data)
          else if c =b ","%byte then Some (parse_double data)
          else if c =b "%"%byte then parse_map (parse_frame_fuel fuel') data
          else if c =b "~"%byte then parse_set (parse_frame_fuel fuel') data
          else Some (protocol (B "Invalid RESP type byte: " ++ char_utf8 c))
      end
  end.

(** [parse_frame], with enough fuel; see [parse_frame_total]. *)
Definition parse_frame (data : bytes) : presult RespFrame :=
  default Panic (parse_frame_fuel (S (length data)) data).

Definition parse_resp_frame (data : bytes) : presult RespFrame := parse_frame data.

(** ** RespParser *)

Record RespParser := { buffer : bytes; position : nat }.

Definition parser_new : RespParser := {| buffer := []; position := 0 |}.

Definition feed (p : RespParser) (data : bytes) : RespParser :=
  {| buffer := buffer p ++ data; position := position p |}.

(** [while position < len && ws(buffer[position]) { position += 1 }], on the
    bytes from [position] on: how many are skipped. *)
Fixpoint skip_count (ws : byte -> bool) (rest : bytes) : nat :=
  match rest with
  | [] => 0
  | c :: t => if ws c then S (skip_count ws t) else 0
  end.

Definition is_space (c : byte) : bool :=
  (c =b byte_of 32) || (c =b byte_of 13) || (c =b byte_of 10).
Definition is_lead (c : byte) : bool := is_space c || (c =b byte_of 9).
Definition is_newline (c : byte) : bool := (c =b byte_of 13) || (c =b byte_of 10).

Definition skip (ws : byte -> bool) (buf : bytes) (pos : nat) : nat :=
  pos + skip_count ws (drop pos buf).

Definition ping_frame : RespFrame := Array (Some [BulkString (Some (B "PING"))]).

(** [RespParser::parse] *)
Definition parse (p : RespParser) : RespParser * outcome (option RespFrame) :=
  let buf := buffer p in
  if length buf <=? position p then (p, Ok None)
  else
    let pos := skip is_lead buf (position p) in
    let p1 := {| buffer := buf; position := pos |} in
    if length buf <=? pos then (p1, Ok None)
    else if (pos + 4 <=? length buf) && bool_decide (take 4 (drop pos buf) = B "PING") then
      ({| buffer := buf; position := skip is_space buf (pos + 4) |}, Ok (Some ping_frame))
    else
      match parse_frame (drop pos buf) with
      | Ok (Some (frame, consumed)) =>
          let pos2 := skip is_newline buf (pos + consumed) in
          if length buf / 2 <? pos2
          then ({| buffer := drop pos2 buf; position := 0 |}, Ok (Some frame))
          else ({| buffer := buf; position := pos2 |}, Ok (Some frame))
      | Ok None => (p1, Ok None)
      | Err e => (p1, Err e)
      | Panic => (p1, Panic)
      end.

Definition parser_clear (p : RespParser) : RespParser := parser_new.

(** ** Reading a connection (server.rs, process_connection)

    After every read the server feeds the chunk and takes frames until the
    parser needs more data; a parse error is logged and ends the loop, leaving
    the parser as it is. *)
Inductive drain_end := NeedMore | ParseWarning (e : ferrous_error) | DrainPanic | DrainFuel.

Fixpoint drain (fuel : nat) (p : RespParser) (frames : list RespFrame)
    : RespParser * list RespFrame * drain_end :=
  match fuel with
  | O => (p, frames, DrainFuel)
  | S fuel' =>
      match parse p with
      | (p', Ok (Some frame)) => drain fuel' p' (frames ++ [frame])
      | (p', Ok None) => (p', frames, NeedMore)
      | (p', Err e) => (p', frames, ParseWarning e)
      | (p', Panic) => (p', frames, DrainPanic)
      end
  end.

(** One turn of the event loop that read [chunk]; a frame takes at least one
    byte of the buffer, so the loop has fuel for every frame in it. *)
Definition read_chunk (p : RespParser) (chunk : bytes)
    : RespParser * list RespFrame * drain_end :=
  let p1 := feed p chunk in drain (S (length (buffer p1))) p1 [].
End parser.
