(* ===== verification/RespProofs.v ===== *)
(** * Correctness of the RESP parser

    - [parse_frame_total], [parse_frame_bounds], [parse_frame_no_panic]: the
      fuel is enough, a parsed frame consumes between 1 byte and the whole
      input, and the only panic is the capacity of an announced array length.
    - [parse_encode]: the parser inverts the serializer, whatever follows.
    - [parse_prefix]: a strict prefix of a frame asks for more data, never an
      error and never a frame.
    - [drain]: the reading loop of a connection gets back exactly the frames
      that were sent, however the bytes were cut into chunks. *)

From S2P Require Import Prelude Text Resp RespParser.

Open Scope nat_scope.

(** ** Lines *)

Lemma scan_crlf_bound i rest j :
  scan_crlf i rest = Some j -> i <= j /\ j + 2 <= i + length rest.
Proof.
  revert i. induction rest as [|a [|b t] IH]; intros i; simpl; try done.
  destruct (_ && _); [intros [= <-]; lia|]. intros H%IH. simpl in *. lia.
Qed.

Lemma scan_crlf_line i line rest :
  scan_crlf i line = None -> scan_crlf i (line ++ CRLF ++ rest) = Some (i + length line).
Proof.
  revert i. induction line as [|a line IH]; intros i.
  - intros _. simpl. f_equal. lia.
  - destruct line as [|b t].
    + intros _. simpl. rewrite andb_false_r. simpl. f_equal. lia.
    + simpl. destruct (_ && _); [done|]. intros H%IH. simpl in H. rewrite H. f_equal. lia.
Qed.

(** A strict prefix of a line has no line end. *)
Lemma scan_crlf_prefix i line p :
  scan_crlf i line = None -> p `prefix_of` line ++ [byte_of 13] -> scan_crlf i p = None.
Proof.
  revert i p. induction line as [|a line IH]; intros i p Hs Hp.
  - destruct Hp as [k Hk]. destruct p as [|x [|y p]]; simplify_eq/=; done.
  - destruct p as [|x p]; [done|]. simpl in Hp.
    apply prefix_cons_inv_1 in Hp as Hx. apply prefix_cons_inv_2 in Hp. subst x.
    destruct p as [|y p]; [done|].
    assert (Hy : scan_crlf (S i) (y :: p) = None).
    { apply IH; [|done]. destruct line as [|b t]; [done|]. simpl in Hs. by destruct (_ && _). }
    destruct line as [|b t].
    + destruct Hp as [k Hk]. simplify_eq/=. by rewrite andb_false_r.
    + apply prefix_cons_inv_1 in Hp. subst y. simpl in Hs, Hy |- *. by destruct (_ && _).
Qed.

Lemma parse_line_bound d s l n : parse_line d s = Some (l, n) -> s + 2 <= n <= length d.
Proof.
  unfold parse_line. destruct (Nat.ltb_spec (length d) (s + 2)); [done|].
  destruct (scan_crlf _ _) as [j|] eqn:E; [|done]. intros [= <- <-].
  apply scan_crlf_bound in E. rewrite length_drop in E. lia.
Qed.

Lemma parse_line_app c line rest :
  scan_crlf 1 line = None ->
  parse_line (c :: line ++ CRLF ++ rest) 1 = Some (line, length line + 3).
Proof.
  intros Hs. unfold parse_line. destruct (Nat.ltb_spec (length (c :: line ++ CRLF ++ rest)) (1 + 2)) as [Hl|].
  { simpl in Hl. rewrite length_app in Hl. simpl in Hl. lia. }
  change (drop 1 (c :: line ++ CRLF ++ rest)) with (line ++ CRLF ++ rest).
  rewrite scan_crlf_line by done. replace (1 + length line - 1) with (length line) by lia.
  rewrite take_app_length. do 2 f_equal. lia.
Qed.

Lemma parse_line_prefix c line p :
  scan_crlf 1 line = None -> p `prefix_of` c :: line ++ [byte_of 13] -> parse_line p 1 = None.
Proof.
  intros Hs Hp. unfold parse_line. destruct (Nat.ltb_spec (length p) (1 + 2)); [done|].
  destruct p as [|x p]; [done|]. apply prefix_cons_inv_2 in Hp.
  change (drop 1 (x :: p)) with p. by rewrite (scan_crlf_prefix 1 line p).
Qed.

(** Lines without a carriage return. *)
Lemma scan_crlf_no_cr i line :
  Forall (fun b => b <> byte_of 13) line -> scan_crlf i line = None.
Proof.
  revert i. induction line as [|a [|b t] IH]; intros i Hf; simpl; try done.
  inversion Hf as [|? ? Ha Ht]; subst. rewrite (proj2 (beq_false _ _)) by done. simpl. by apply IH.
Qed.

Lemma is_digit_no_cr d : is_digit d = true -> d <> byte_of 13.
Proof. intros Hd ->. by vm_compute in Hd. Qed.

Lemma show_u64_no_crlf i n : (0 <= n)%Z -> scan_crlf i (show_u64 n) = None.
Proof. intros. apply scan_crlf_no_cr, show_u64_Forall; [apply is_digit_no_cr|done]. Qed.

Lemma show_i64_no_crlf i n : scan_crlf i (show_i64 n) = None.
Proof. apply scan_crlf_no_cr, show_i64_Forall; [apply is_digit_no_cr|by vm_compute]. Qed.

Lemma f64_display_valid `{F64Text} d : utf8_valid (f64_display d) = true.
Proof.
  apply utf8_valid_ascii. eapply Forall_impl; [apply f64_display_ascii|].
  unfold is_ascii. simpl. lia.
Qed.

Lemma f64_display_no_crlf `{F64Text} i d : scan_crlf i (f64_display d) = None.
Proof.
  apply scan_crlf_no_cr. eapply Forall_impl; [apply f64_display_ascii|].
  simpl. intros b Hb ->. change (u8 (byte_of 13)) with 13%Z in Hb. lia.
Qed.

Section parser_proofs.
Context `{F64Text} (frame_size pair_size : Z).

(** ** Fuel, bounds and panics *)

(** What a parser must satisfy on inputs shorter than [k]. *)
Definition pf_ok {A} (r : option (presult A)) (lo hi : nat) (len_ok : A -> Prop) : Prop :=
  exists r', r = Some r' /\
    (forall x n, r' = Ok (Some (x, n)) -> lo <= n <= hi /\ len_ok x) /\
    (frame_size = 0%Z -> pair_size = 0%Z -> r' <> Panic).

Lemma pf_ok_none {A} lo hi (P : A -> Prop) : pf_ok (Some (Ok None)) lo hi P.
Proof. by eexists. Qed.
Lemma pf_ok_err {A} e lo hi (P : A -> Prop) : pf_ok (Some (Err e)) lo hi P.
Proof. by eexists. Qed.
Lemma pf_ok_panic {A} lo hi (P : A -> Prop) :
  (frame_size = 0%Z -> pair_size = 0%Z -> Panic <> @Panic (option (A * nat))) ->
  pf_ok (Some Panic) lo hi P.
Proof. intros Hp. exists Panic. split; [done|]. split; [done|exact Hp]. Qed.
Lemma pf_ok_some {A} (x : A) n lo hi (P : A -> Prop) :
  lo <= n <= hi -> P x -> pf_ok (Some (Ok (Some (x, n)))) lo hi P.
Proof. intros. eexists. split; [done|]. split; [by intros ?? [= <- <-]|done]. Qed.

Lemma parse_elems_ok pf k lf n d acc total :
  (forall d', length d' < k -> pf_ok (pf d') 1 (length d') (fun _ => True)) ->
  total <= length d -> length d - total < k ->
  (length d - total < lf \/ (n <= Z.of_nat lf)%Z) ->
  pf_ok (parse_elems pf lf n d acc total) (total + Z.to_nat n) (length d)
    (fun l => length l = length acc + Z.to_nat n).
Proof.
  intros Hpf. revert n acc total. induction lf as [|lf IH]; intros n acc total Ht Hk Hf; simpl.
  - destruct (Z.leb_spec n 0); [apply pf_ok_some; lia|]. lia.
  - destruct (Z.leb_spec n 0); [apply pf_ok_some; lia|].
    unfold slice_from. destruct (Nat.leb_spec total (length d)); [|lia].
    destruct (Hpf (drop total d)) as (r & -> & Hr & Hp); [rewrite length_drop; lia|].
    rewrite length_drop in Hr. destruct r as [[[f c]|]|e|]; [|apply pf_ok_none|apply pf_ok_err|].
    + destruct (Hr f c eq_refl) as [Hc _].
      destruct (IH (n - 1)%Z (acc ++ [f]) (total + c)) as (r' & E & Hr' & Hp'); [lia..|].
      exists r'. split; [done|]. split; [|done]. intros l t Hl. destruct (Hr' l t Hl) as [? Hlen].
      rewrite length_app in Hlen. simpl in Hlen. split; lia.
    + apply pf_ok_panic. intros Hf0 Hp0. by specialize (Hp Hf0 Hp0).
Qed.

Lemma parse_pairs_ok pf k lf n d acc total :
  (forall d', length d' < k -> pf_ok (pf d') 1 (length d') (fun _ => True)) ->
  total <= length d -> length d - total < k -> length d - total < lf ->
  pf_ok (parse_pairs pf lf n d acc total) total (length d) (fun _ => True).
Proof.
  intros Hpf. revert n acc total. induction lf as [|lf IH]; intros n acc total Ht Hk Hf; [lia|].
  cbn [parse_pairs]. destruct (Z.leb_spec n 0); [by apply pf_ok_some|].
  destruct (parse_elems_ok pf k 2 2 d [] total) as (r & -> & Hr & Hp); [done|lia|lia|lia|].
  destruct r as [[[l t]|]|e|]; [|apply pf_ok_none|apply pf_ok_err|].
  - destruct (Hr l t eq_refl) as [Hb Hl]. destruct l as [|x [|y [|]]]; simplify_eq/=.
    destruct (IH (n - 1)%Z (acc ++ [(x, y)]) t) as (r' & E & Hr' & Hp'); [lia..|].
    exists r'. split; [done|]. split; [|done]. intros l t' Hl'.
    destruct (Hr' l t' Hl') as [? _]. split; [lia|done].
  - apply pf_ok_panic. intros Hf0 Hp0. by specialize (Hp Hf0 Hp0).
Qed.

Lemma wrap_ok {A} (mk : A -> RespFrame) r lo hi P :
  pf_ok r lo hi P -> pf_ok (wrap mk r) lo hi (fun _ => True).
Proof.
  intros (r' & -> & Hr & Hp). destruct r' as [[[x n]|]|e|];
    [|apply pf_ok_none|apply pf_ok_err|apply pf_ok_panic]; [|intros Hf0 Hp0; by specialize (Hp Hf0 Hp0)].
  destruct (Hr x n eq_refl). by apply pf_ok_some.
Qed.

Lemma pf_ok_weaken {A} (r : option (presult A)) lo lo' hi P :
  lo' <= lo -> pf_ok r lo hi P -> pf_ok r lo' hi (fun _ => True).
Proof.
  intros Hlo (r' & -> & Hr & Hp). exists r'. split; [done|]. split; [|done].
  intros x n Hx. destruct (Hr x n Hx). split; [lia|done].
Qed.

Lemma parse_bulk_ok d :
  pf_ok (Some (parse_bulk_string d)) 1 (length d) (fun _ => True).
Proof.
  unfold parse_bulk_string. destruct (parse_line d 1) as [[l h]|] eqn:E; [|apply pf_ok_none].
  apply parse_line_bound in E. destruct (utf8_valid l); [|apply pf_ok_err].
  destruct (parse_i64 l) as [n|]; [|apply pf_ok_err].
  destruct (Z.eqb_spec n (-1)); [apply pf_ok_some; [lia|done]|].
  destruct (Z.ltb_spec n 0); [apply pf_ok_err|].
  destruct (Z.ltb_spec (Z.of_nat (length d)) (Z.of_nat h + n + 2)); [apply pf_ok_none|].
  destruct (lookup_lt_is_Some_2 d (h + Z.to_nat n)) as [a ->]; [lia|].
  destruct (lookup_lt_is_Some_2 d (h + Z.to_nat n + 1)) as [b ->]; [lia|].
  destruct (_ || _); [apply pf_ok_err|apply pf_ok_some; [lia|done]].
Qed.

(** The parsers of one line. *)
Ltac line_ok :=
  match goal with |- context [parse_line ?d 1] =>
    let E := fresh "E" in destruct (parse_line d 1) as [[? ?]|] eqn:E; [|apply pf_ok_none];
    apply parse_line_bound in E end;
  repeat (case_match; try apply pf_ok_err); apply pf_ok_some; [lia|done].

Lemma parse_simple_string_ok d : pf_ok (Some (parse_simple_string d)) 1 (length d) (fun _ => True).
Proof. unfold parse_simple_string. line_ok. Qed.
Lemma parse_error_ok d : pf_ok (Some (parse_error d)) 1 (length d) (fun _ => True).
Proof. unfold parse_error. line_ok. Qed.
Lemma parse_integer_ok d : pf_ok (Some (parse_integer d)) 1 (length d) (fun _ => True).
Proof. unfold parse_integer. line_ok. Qed.
Lemma parse_double_ok d : pf_ok (Some (parse_double d)) 1 (length d) (fun _ => True).
Proof. unfold parse_double. line_ok. Qed.

Lemma parse_null_ok d : pf_ok (Some (parse_null d)) 1 (length d) (fun _ => True).
Proof.
  unfold parse_null. destruct (Nat.ltb_spec (length d) 3); [apply pf_ok_none|].
  destruct d as [|? [|a [|b d]]]; simpl in *; [lia..|].
  case_match; [apply pf_ok_some; [lia|done]|apply pf_ok_err].
Qed.

Lemma parse_boolean_ok d : pf_ok (Some (parse_boolean d)) 1 (length d) (fun _ => True).
Proof.
  unfold parse_boolean. destruct (Nat.ltb_spec (length d) 4); [apply pf_ok_none|].
  destruct d as [|? [|t [|a [|b d]]]]; simpl in *; [lia..|].
  repeat case_match; try apply pf_ok_err; apply pf_ok_some; [lia|done|lia|done].
Qed.

Lemma capacity_fail {A} n size r lo hi (P : A -> Prop) :
  (size = frame_size \/ size = pair_size) ->
  with_capacity n size = r -> r <> Ok tt -> pf_ok (Some Panic) lo hi P.
Proof.
  intros Hsz <- Hr. apply pf_ok_panic. intros -> ->. destruct Hr. unfold with_capacity.
  destruct Hsz as [-> | ->]; by rewrite Z.mul_0_r.
Qed.

(** Parsers of counted frames, given their elements. *)
Section counted.
Context (pf : bytes -> option (presult RespFrame)) (d : bytes).
Hypothesis Hel : forall n h, 3 <= h <= length d ->
  pf_ok (parse_elems pf (S (length d)) n d [] h) 1 (length d) (fun _ => True).
Hypothesis Hpa : forall n h, 3 <= h <= length d ->
  pf_ok (parse_pairs pf (S (length d)) n d [] h) 1 (length d) (fun _ => True).

Ltac counted :=
  let E := fresh "E" in
  destruct (parse_line d 1) as [[? h]|] eqn:E; [|apply pf_ok_none];
  apply parse_line_bound in E;
  repeat (case_match; try apply pf_ok_err);
  first [apply pf_ok_some; [lia|done] | eapply wrap_ok; eauto
        | eapply capacity_fail; [|eassumption|]; auto].

Lemma parse_array_ok : pf_ok (parse_array frame_size pf d) 1 (length d) (fun _ => True).
Proof using All. unfold parse_array. counted. Qed.
Lemma parse_map_ok : pf_ok (parse_map pair_size pf d) 1 (length d) (fun _ => True).
Proof using All. unfold parse_map. counted. Qed.
Lemma parse_set_ok : pf_ok (parse_set frame_size pf d) 1 (length d) (fun _ => True).
Proof using All. unfold parse_set. counted. Qed.
End counted.

Lemma parse_frame_fuel_ok k d :
  length d < k ->
  pf_ok (parse_frame_fuel frame_size pair_size k d) 1 (length d) (fun _ => True).
Proof.
  revert d. induction k as [|k IH]; intros d Hd; [lia|].
  cbn [parse_frame_fuel]. destruct d as [|c t]; [apply pf_ok_none|].
  remember (c :: t) as d eqn:Ed. clear Ed.
  set (pf := parse_frame_fuel frame_size pair_size k).
  assert (Hel : forall n h, 3 <= h <= length d ->
    pf_ok (parse_elems pf (S (length d)) n d [] h) 1 (length d) (fun _ => True)).
  { intros n h Hh. eapply pf_ok_weaken; [|apply (parse_elems_ok _ k); [exact IH|lia..]]. lia. }
  assert (Hpa : forall n h, 3 <= h <= length d ->
    pf_ok (parse_pairs pf (S (length d)) n d [] h) 1 (length d) (fun _ => True)).
  { intros n h Hh. eapply pf_ok_weaken; [|apply (parse_pairs_ok _ k); [exact IH|lia..]]. lia. }
  repeat match goal with |- context [if c =b ?x then _ else _] => destruct (c =b x) end;
    auto using parse_simple_string_ok, parse_error_ok, parse_integer_ok, parse_bulk_ok,
      parse_array_ok, parse_null_ok, parse_boolean_ok, parse_double_ok, parse_map_ok,
      parse_set_ok.
  apply pf_ok_err.
Qed.

(** ** Round trip *)

(** Frames the wire format can carry: no CR LF inside a line, lengths and
    integers in range, element vectors that can be allocated, no marker. *)
Fixpoint wf_frame (f : RespFrame) : Prop :=
  match f with
  | SimpleString s | Error s => scan_crlf 0 s = None
  | Integer n => in_i64 n
  | BulkString (Some s) => (Z.of_nat (length s) <= i64_max)%Z
  | BulkString None | Array None | Null | Boolean _ | Double _ => True
  | Array (Some l) =>
      (Z.of_nat (length l) <= i64_max)%Z /\ (Z.of_nat (length l) * frame_size <= i64_max)%Z /\
      fold_right (fun x P => wf_frame x /\ P) True l
  | SetFrame l =>
      (Z.of_nat (length l) <= i64_max)%Z /\ (Z.of_nat (length l) * frame_size <= i64_max)%Z /\
      fold_right (fun x P => wf_frame x /\ P) True l
  | MapFrame ps =>
      (Z.of_nat (length ps) <= i64_max)%Z /\ (Z.of_nat (length ps) * pair_size <= i64_max)%Z /\
      fold_right (fun p P => (wf_frame p.1 /\ wf_frame p.2) /\ P) True ps
  | NoResponse => False
  end.

Lemma scan_crlf_shift i j l : scan_crlf i l = None -> scan_crlf j l = None.
Proof.
  revert i j. induction l as [|a [|b t] IH]; intros i j; simpl; try done.
  destruct (_ && _); [done|]. apply IH.
Qed.

Lemma show_len_line {A} (l : list A) c rest :
  parse_line (c :: show_len l ++ CRLF ++ rest) 1 = Some (show_len l, length (show_len l) + 3).
Proof. apply parse_line_app, show_u64_no_crlf. lia. Qed.

Lemma show_len_i64 {A} (l : list A) :
  (Z.of_nat (length l) <= i64_max)%Z -> parse_i64 (show_len l) = Some (Z.of_nat (length l)).
Proof.
  intros Hl. unfold show_len.
  replace (show_u64 (Z.of_nat (length l))) with (show_i64 (Z.of_nat (length l))).
  - apply parse_show_i64. unfold in_i64, i64_min, i64_max in *. lia.
  - unfold show_i64, show_u64. by destruct (Z.ltb_spec (Z.of_nat (length l)) 0); [lia|].
Qed.

Lemma show_len_u64 {A} (l : list A) :
  (Z.of_nat (length l) <= i64_max)%Z -> parse_u64 (show_len l) = Some (Z.of_nat (length l)).
Proof.
  intros Hl. apply parse_show_u64. unfold in_u64, u64_max, i64_max in *. lia.
Qed.

Lemma show_len_valid {A} (l : list A) : utf8_valid (show_len l) = true.
Proof. apply show_u64_valid. lia. Qed.

(** *** Strict prefixes *)

Definition strict_prefix (p s : bytes) : Prop := p `prefix_of` s /\ length p < length s.

Lemma strict_prefix_app p a b :
  strict_prefix p (a ++ b) -> strict_prefix p a \/ exists q, p = a ++ q /\ strict_prefix q b.
Proof.
  intros [[k Hk] Hl]. destruct (decide (length p < length a)) as [Hlt|Hge].
  - left. split; [|done]. exists (take (length a - length p) k).
    apply (f_equal (take (length a))) in Hk. rewrite take_app_length, take_app_ge in Hk by lia.
    exact Hk.
  - right. exists (drop (length a) p). rewrite length_app in Hl.
    assert (Hp : p = a ++ drop (length a) p).
    { rewrite <- (take_drop (length a) p) at 1. f_equal.
      apply (f_equal (take (length a))) in Hk. rewrite take_app_length, take_app_le in Hk by lia. done. }
    split; [done|]. split; [|rewrite length_drop; lia]. exists k.
    rewrite Hp, <- app_assoc in Hk. by apply app_inv_head in Hk.
Qed.

Lemma strict_prefix_nil p : ~ strict_prefix p [].
Proof. intros [_ Hl]. simpl in Hl. lia. Qed.

(** Up to the end of its first line, a strict prefix has no line. *)
Lemma strict_prefix_line c line body p :
  scan_crlf 1 line = None -> strict_prefix p (c :: line ++ CRLF ++ body) ->
  parse_line p 1 = None \/ exists q, p = c :: line ++ CRLF ++ q /\ strict_prefix q body.
Proof.
  intros Hs Hp. replace (c :: line ++ CRLF ++ body) with ((c :: line ++ [byte_of 13]) ++ [byte_of 10] ++ body) in Hp
    by (simpl; by rewrite <- app_assoc).
  apply strict_prefix_app in Hp as [[Hp _]|(q & -> & Hq)]; [left; by eapply parse_line_prefix|].
  apply strict_prefix_app in Hq as [[Hq Hl]|(q' & -> & Hq')].
  - left. destruct q; [|simpl in Hl; lia]. rewrite app_nil_r. by eapply parse_line_prefix.
  - right. exists q'. split; [simpl; by rewrite <- app_assoc|done].
Qed.

(** *** Elements *)

(** A parser reads [enc x] back as [x], and waits on its strict prefixes. *)
Definition inverts {A} (pf : bytes -> option (presult A)) (k : nat) (enc : bytes) (x : A) : Prop :=
  (forall rest, length (enc ++ rest) < k -> pf (enc ++ rest) = Some (Ok (Some (x, length enc)))) /\
  (forall p, strict_prefix p enc -> length p < k -> pf p = Some (Ok None)).

Lemma slice_drop d t : t <= length d -> slice_from d t = Ok (drop t d).
Proof. intros. unfold slice_from. by destruct (Nat.leb_spec t (length d)); [|lia]. Qed.

Lemma drop_total (d : bytes) t e rest :
  drop t d = e ++ rest -> drop (t + length e) d = rest.
Proof. intros Hd. by rewrite <- drop_drop, Hd, drop_app_length. Qed.

Lemma drop_total_le (d : bytes) t e rest :
  drop t d = e ++ rest -> t <= length d -> t + length e <= length d.
Proof. intros Hd Ht. apply (f_equal length) in Hd. rewrite length_drop, length_app in Hd. lia. Qed.

Lemma parse_elems_encode pf k lf l d acc t rest :
  Forall (fun f => inverts pf k (encode f) f) l ->
  drop t d = concat (map encode l) ++ rest -> t <= length d -> length d - t < k ->
  length l <= lf ->
  parse_elems pf lf (Z.of_nat (length l)) d acc t =
    Some (Ok (Some (acc ++ l, t + length (concat (map encode l))))).
Proof.
  intros Hf. revert lf acc t. induction Hf as [|f l [Hr _] Hl IH]; intros lf acc t Hd Ht Hk Hlf.
  { destruct lf; simpl; by rewrite app_nil_r, Nat.add_0_r. }
  destruct lf as [|lf]; simpl in Hlf; [lia|]. cbn [parse_elems].
  destruct (Z.leb_spec (Z.of_nat (length (f :: l))) 0) as [Hz|_]; [simpl in Hz; lia|].
  simpl in Hd. rewrite <- app_assoc in Hd.
  rewrite slice_drop, Hd by done. rewrite Hr by (rewrite <- Hd, length_drop; lia).
  replace (Z.of_nat (length (f :: l)) - 1)%Z with (Z.of_nat (length l)) by (simpl; lia).
  pose proof (drop_total_le _ _ _ _ Hd Ht).
  rewrite IH; [|by eapply drop_total|lia|lia|lia].
  rewrite <- app_assoc. simpl. rewrite length_app. do 4 f_equal. lia.
Qed.

Lemma parse_elems_prefix pf k lf l d acc t :
  Forall (fun f => inverts pf k (encode f) f) l ->
  strict_prefix (drop t d) (concat (map encode l)) -> t <= length d -> length d - t < k ->
  length l <= lf \/ length d - t < lf ->
  (forall f, f ∈ l -> 1 <= length (encode f)) ->
  parse_elems pf lf (Z.of_nat (length l)) d acc t = Some (Ok None).
Proof.
  intros Hf. revert lf acc t. induction Hf as [|f l [Hr Hp] Hl IH]; intros lf acc t Hd Ht Hk Hlf Hne.
  { by apply strict_prefix_nil in Hd. }
  destruct lf as [|lf]; simpl in Hlf; [lia|]. cbn [parse_elems].
  destruct (Z.leb_spec (Z.of_nat (length (f :: l))) 0) as [Hz|_]; [simpl in Hz; lia|].
  rewrite slice_drop by done. simpl in Hd.
  apply strict_prefix_app in Hd as [Hd|(q & Hq & Hsp)].
  - rewrite Hp; [done|done|rewrite length_drop; lia].
  - rewrite Hq, Hr by (rewrite <- Hq, length_drop; lia).
    replace (Z.of_nat (length (f :: l)) - 1)%Z with (Z.of_nat (length l)) by (simpl; lia).
    pose proof (drop_total_le _ _ _ _ Hq Ht). assert (1 <= length (encode f)) by (apply Hne; left).
    apply IH; [|lia|lia|lia|intros; apply Hne; by right].
    by rewrite (drop_total _ _ _ _ Hq).
Qed.

Lemma elems_two pf k x y :
  inverts pf k (encode x) x -> inverts pf k (encode y) y ->
  Forall (fun f => inverts pf k (encode f) f) [x; y].
Proof. intros Hx Hy. constructor; [exact Hx|]. constructor; [exact Hy|constructor]. Qed.

Definition encode_pair (p : RespFrame * RespFrame) : bytes := encode p.1 ++ encode p.2.

Lemma parse_pairs_encode pf k lf l d acc t rest :
  Forall (fun p => inverts pf k (encode p.1) p.1 /\ inverts pf k (encode p.2) p.2) l ->
  drop t d = concat (map encode_pair l) ++ rest -> t <= length d -> length d - t < k ->
  length l <= lf ->
  parse_pairs pf lf (Z.of_nat (length l)) d acc t =
    Some (Ok (Some (acc ++ l, t + length (concat (map encode_pair l))))).
Proof.
  intros Hf. revert lf acc t. induction Hf as [|[x y] l [Hx Hy] Hl IH]; intros lf acc t Hd Ht Hk Hlf.
  { destruct lf; simpl; by rewrite app_nil_r, Nat.add_0_r. }
  destruct lf as [|lf]; simpl in Hlf; [lia|]. cbn [parse_pairs].
  destruct (Z.leb_spec (Z.of_nat (length ((x, y) :: l))) 0) as [Hz|_]; [simpl in Hz; lia|].
  simpl in Hd. rewrite <- app_assoc in Hd.
  change 2%Z with (Z.of_nat (length [x; y])).
  rewrite (parse_elems_encode pf k 2 [x; y] d [] t (concat (map encode_pair l) ++ rest)); [|exact (elems_two _ _ _ _ Hx Hy)| |done|done|done].
  2: { rewrite Hd. unfold encode_pair. simpl. by rewrite app_nil_r. }
  replace (Z.of_nat (length ((x, y) :: l)) - 1)%Z with (Z.of_nat (length l)) by (simpl; lia).
  cbn [app]. replace (length (concat (map encode [x; y]))) with (length (encode_pair (x, y)))
    by (unfold encode_pair; simpl; by rewrite app_nil_r).
  pose proof (drop_total_le _ _ _ _ Hd Ht).
  rewrite IH; [|by eapply drop_total|lia|lia|lia].
  rewrite <- app_assoc. simpl. rewrite length_app. do 4 f_equal. lia.
Qed.

Lemma parse_pairs_prefix pf k lf l d acc t :
  Forall (fun p => inverts pf k (encode p.1) p.1 /\ inverts pf k (encode p.2) p.2) l ->
  strict_prefix (drop t d) (concat (map encode_pair l)) -> t <= length d -> length d - t < k ->
  length d - t < lf ->
  (forall p, p ∈ l -> 1 <= length (encode p.1) /\ 1 <= length (encode p.2)) ->
  parse_pairs pf lf (Z.of_nat (length l)) d acc t = Some (Ok None).
Proof.
  intros Hf. revert lf acc t. induction Hf as [|[x y] l [Hx Hy] Hl IH]; intros lf acc t Hd Ht Hk Hlf Hne.
  { by apply strict_prefix_nil in Hd. }
  destruct lf as [|lf]; simpl in Hlf; [lia|]. cbn [parse_pairs].
  destruct (Z.leb_spec (Z.of_nat (length ((x, y) :: l))) 0) as [Hz|_]; [simpl in Hz; lia|].
  assert (Hxy : concat (map encode [x; y]) = encode_pair (x, y))
    by (unfold encode_pair; simpl; by rewrite app_nil_r).
  destruct (Hne (x, y)) as [Hnx Hny]; [left|]. simpl in Hnx, Hny.
  change 2%Z with (Z.of_nat (length [x; y])). simpl in Hd.
  apply strict_prefix_app in Hd as [Hd|(q & Hq & Hsp)].
  - rewrite (parse_elems_prefix pf k 2 [x; y]); [done|exact (elems_two _ _ _ _ Hx Hy)|by rewrite Hxy|done|done|auto|].
    intros f Hin. rewrite !elem_of_cons in Hin. destruct Hin as [->|[->|Hin]]; [done|done|].
    by apply not_elem_of_nil in Hin.
  - rewrite (parse_elems_encode pf k 2 [x; y] d [] t q); [|exact (elems_two _ _ _ _ Hx Hy)|by rewrite Hxy|done|done|done].
    rewrite Hxy. cbn [app].
    replace (Z.of_nat (length ((x, y) :: l)) - 1)%Z with (Z.of_nat (length l)) by (simpl; lia).
    pose proof (drop_total_le _ _ _ _ Hq Ht).
    assert (1 <= length (encode_pair (x, y))) by (unfold encode_pair; simpl; rewrite length_app; lia).
    apply IH; [by rewrite (drop_total _ _ _ _ Hq)|lia|lia|lia|intros; apply Hne; by right].
Qed.

(** *** Frames *)

(** A frame with a header line and a body. *)
Lemma inverts_header {A} (g : bytes -> option (presult A)) k c line body
    (F : bytes -> bytes -> nat -> option (presult A)) x :
  scan_crlf 0 line = None ->
  g [] = Some (Ok None) ->
  (forall t, g (c :: t) = match parse_line (c :: t) 1 with
                          | Some (l, n) => F (c :: t) l n
                          | None => Some (Ok None)
                          end) ->
  let enc := c :: line ++ CRLF ++ body in
  (forall rest, length (enc ++ rest) < k ->
     F (enc ++ rest) line (length line + 3) = Some (Ok (Some (x, length enc)))) ->
  (forall q, strict_prefix q body -> length (c :: line ++ CRLF ++ q) < k ->
     F (c :: line ++ CRLF ++ q) line (length line + 3) = Some (Ok None)) ->
  inverts g k enc x.
Proof.
  intros Hs Hnil Hg enc Hfull Hpre. apply (scan_crlf_shift 0 1) in Hs. split.
  - intros rest Hk. specialize (Hfull rest Hk). unfold enc in *. simpl in Hfull |- *.
    rewrite Hg. rewrite <- app_assoc in Hfull |- *. simpl in Hfull |- *.
    change (byte_of 13 :: byte_of 10 :: body ++ rest) with (CRLF ++ body ++ rest) in *.
    by rewrite parse_line_app.
  - intros p Hp Hk. destruct p as [|c' t]; [done|].
    assert (c' = c) as ->. { destruct Hp as [[z Hz] _]. by simplify_eq/=. }
    rewrite Hg. destruct (strict_prefix_line _ _ _ _ Hs Hp) as [->|(q & Hq & Hsp)]; [done|].
    rewrite Hq in *. by rewrite parse_line_app, Hpre.
Qed.

Lemma encode_ne f : wf_frame f -> 1 <= length (encode f).
Proof. destruct f as [| | |[]|[]| | |[]| | |]; simpl; try done; intros; lia. Qed.

Lemma encode_list_ne l :
  (forall f, f ∈ l -> 1 <= length (encode f)) -> length l <= length (concat (map encode l)).
Proof.
  induction l as [|f l IH]; intros Hl; simpl; [lia|]. rewrite length_app.
  pose proof (Hl f ltac:(left)). specialize (IH ltac:(intros; apply Hl; by right)). lia.
Qed.

Lemma encode_pairs_ne l :
  (forall p, p ∈ l -> 1 <= length (encode p.1) /\ 1 <= length (encode p.2)) ->
  length l <= length (concat (map encode_pair l)).
Proof.
  induction l as [|f l IH]; intros Hl; simpl; [lia|]. rewrite length_app. unfold encode_pair at 1.
  rewrite length_app. pose proof (Hl f ltac:(left)). specialize (IH ltac:(intros; apply Hl; by right)). lia.
Qed.

Lemma wf_list_elem l f :
  fold_right (fun x P => wf_frame x /\ P) True l -> f ∈ l -> wf_frame f.
Proof.
  induction l as [|x l IH]; [by intros _ H0%not_elem_of_nil|].
  intros [Hx Hl] [->|Hin]%elem_of_cons; auto.
Qed.

Lemma wf_pairs_elem l p :
  fold_right (fun p P => (wf_frame p.1 /\ wf_frame p.2) /\ P) True l -> p ∈ l ->
  wf_frame p.1 /\ wf_frame p.2.
Proof.
  induction l as [|x l IH]; [by intros _ H0%not_elem_of_nil|].
  intros [Hx Hl] [->|Hin]%elem_of_cons; auto.
Qed.

Abbreviation pff := (parse_frame_fuel frame_size pair_size).

(** The counted kinds, once their elements are inverted. *)
Lemma counted_elems k line l (mk : list RespFrame -> RespFrame) c :
  Forall (fun f => inverts (pff k) k (encode f) f) l ->
  (forall f, f ∈ l -> 1 <= length (encode f)) ->
  let enc := c :: line ++ CRLF ++ concat (map encode l) in
  (forall rest, length (enc ++ rest) < S k ->
     wrap mk (parse_elems (pff k) (S (length (enc ++ rest))) (Z.of_nat (length l)) (enc ++ rest) []
       (length line + 3)) = Some (Ok (Some (mk l, length enc)))) /\
  (forall q, strict_prefix q (concat (map encode l)) -> length (c :: line ++ CRLF ++ q) < S k ->
     wrap mk (parse_elems (pff k) (S (length (c :: line ++ CRLF ++ q))) (Z.of_nat (length l))
       (c :: line ++ CRLF ++ q) [] (length line + 3)) = Some (Ok None)).
Proof.
  intros Hf Hne enc. pose proof (encode_list_ne l Hne).
  assert (Hhd : forall q, drop (length line + 3) (c :: line ++ CRLF ++ q) = q).
  { intros q. change (c :: line ++ CRLF ++ q) with ((c :: line) ++ CRLF ++ q). rewrite app_assoc.
    rewrite drop_app_length'; [done|]. rewrite length_app. simpl. lia. }
  assert (Hlen : forall q, length (c :: line ++ CRLF ++ q) = length line + 3 + length q).
  { intros q. simpl. rewrite length_app. simpl. lia. }
  split.
  - intros rest Hk. assert (Henc : enc ++ rest = c :: line ++ CRLF ++ concat (map encode l) ++ rest).
    { unfold enc. simpl. rewrite <- app_assoc. done. }
    rewrite Henc in *. rewrite Hlen in Hk. rewrite length_app in Hk.
    rewrite (parse_elems_encode _ k _ l _ [] _ rest); [|done|by rewrite Hhd|rewrite Hlen; lia| |].
    + simpl. do 4 f_equal. unfold enc. rewrite length_app. simpl. lia.
    + rewrite Hlen, length_app. lia.
    + rewrite Hlen, length_app. lia.
  - intros q Hq Hk. rewrite Hlen in Hk.
    rewrite (parse_elems_prefix _ k); [done|done|by rewrite Hhd|rewrite Hlen; lia..|done].
Qed.

Lemma counted_pairs k line l c :
  Forall (fun p => inverts (pff k) k (encode p.1) p.1 /\ inverts (pff k) k (encode p.2) p.2) l ->
  (forall p, p ∈ l -> 1 <= length (encode p.1) /\ 1 <= length (encode p.2)) ->
  let enc := c :: line ++ CRLF ++ concat (map encode_pair l) in
  (forall rest, length (enc ++ rest) < S k ->
     wrap MapFrame (parse_pairs (pff k) (S (length (enc ++ rest))) (Z.of_nat (length l)) (enc ++ rest) []
       (length line + 3)) = Some (Ok (Some (MapFrame l, length enc)))) /\
  (forall q, strict_prefix q (concat (map encode_pair l)) -> length (c :: line ++ CRLF ++ q) < S k ->
     wrap MapFrame (parse_pairs (pff k) (S (length (c :: line ++ CRLF ++ q))) (Z.of_nat (length l))
       (c :: line ++ CRLF ++ q) [] (length line + 3)) = Some (Ok None)).
Proof.
  intros Hf Hne enc. pose proof (encode_pairs_ne l Hne).
  assert (Hhd : forall q, drop (length line + 3) (c :: line ++ CRLF ++ q) = q).
  { intros q. change (c :: line ++ CRLF ++ q) with ((c :: line) ++ CRLF ++ q). rewrite app_assoc.
    rewrite drop_app_length'; [done|]. rewrite length_app. simpl. lia. }
  assert (Hlen : forall q, length (c :: line ++ CRLF ++ q) = length line + 3 + length q).
  { intros q. simpl. rewrite length_app. simpl. lia. }
  split.
  - intros rest Hk. assert (Henc : enc ++ rest = c :: line ++ CRLF ++ concat (map encode_pair l) ++ rest).
    { unfold enc. simpl. rewrite <- app_assoc. done. }
    rewrite Henc in *. rewrite Hlen in Hk. rewrite length_app in Hk.
    rewrite (parse_pairs_encode _ k _ l _ [] _ rest); [|done|by rewrite Hhd|rewrite Hlen; lia| |].
    + simpl. do 4 f_equal. unfold enc. rewrite length_app. simpl. lia.
    + rewrite Hlen, length_app. lia.
    + rewrite Hlen, length_app. lia.
  - intros q Hq Hk. rewrite Hlen in Hk.
    rewrite (parse_pairs_prefix _ k); [done|done|by rewrite Hhd|rewrite Hlen; lia..|done].
Qed.

Lemma capacity_fits n size : (n * size <= i64_max)%Z -> with_capacity n size = Ok tt.
Proof. intros Hn. unfold with_capacity. by destruct (Z.leb_spec (n * size) i64_max); [|lia]. Qed.

(** Selects the branch of [parse_frame] on the (closed) first byte. *)
Ltac line_head :=
  intros t; cbn [parse_frame_fuel];
  repeat match goal with
  | |- context [?a =b ?c] =>
      let v := eval vm_compute in (a =b c) in change (a =b c) with v
  end; cbv iota;
  unfold parse_simple_string, parse_error, parse_integer, parse_double, parse_bulk_string,
    parse_array, parse_map, parse_set;
  destruct (parse_line _ 1) as [[? ?]|]; reflexivity.

(** Frames with a fixed wire image: compute. *)
Ltac fixed_frame :=
  split;
  [ intros rest _; vm_compute; reflexivity
  | intros p [[z Hz] Hl] _; vm_compute in Hz, Hl;
    repeat (destruct p as [|? p]; [vm_compute; reflexivity|
      simpl in Hz; first [discriminate Hz | injection Hz as <- Hz]]);
    simpl in Hl; lia ].

(** One-line frames: the header is the whole frame. *)
Lemma inverts_line {A} (g : bytes -> option (presult A)) k c line (F : bytes -> nat -> option (presult A)) x :
  scan_crlf 0 line = None ->
  g [] = Some (Ok None) ->
  (forall t, g (c :: t) = match parse_line (c :: t) 1 with
                          | Some (l, n) => F l n
                          | None => Some (Ok None)
                          end) ->
  F line (length line + 3) = Some (Ok (Some (x, length line + 3))) ->
  inverts g k (c :: line ++ CRLF) x.
Proof.
  intros Hs Hnil Hg HF. rewrite <- (app_nil_r CRLF).
  apply (inverts_header g k c line [] (fun _ l n => F l n)); [done|done|done| |].
  - intros rest _. rewrite HF. do 4 f_equal. simpl. rewrite length_app. simpl. lia.
  - intros q Hq. by apply strict_prefix_nil in Hq.
Qed.

Lemma bulk_inverts k s :
  (Z.of_nat (length s) <= i64_max)%Z ->
  inverts (pff (S k)) (S k) (encode (BulkString (Some s))) (BulkString (Some s)).
Proof.
  intros Hs.
  assert (Hlen : forall q, length ("$"%byte :: show_len s ++ CRLF ++ q) = length (show_len s) + 3 + length q).
  { intros q. simpl. rewrite length_app. simpl. lia. }
  assert (Hhd : forall q, drop (length (show_len s) + 3) ("$"%byte :: show_len s ++ CRLF ++ q) = q).
  { intros q. change ("$"%byte :: show_len s ++ CRLF ++ q) with (("$"%byte :: show_len s) ++ CRLF ++ q).
    rewrite app_assoc. rewrite drop_app_length'; [done|]. rewrite length_app. simpl. lia. }
  change (encode (BulkString (Some s))) with ("$"%byte :: show_len s ++ CRLF ++ s ++ CRLF).
  eapply (inverts_header (pff (S k)) (S k) "$"%byte (show_len s) (s ++ CRLF)).
  { apply show_u64_no_crlf. lia. }
  { done. }
  { intros t. cbn [parse_frame_fuel]. change ("$"%byte =b "+"%byte) with false.
    change ("$"%byte =b "-"%byte) with false. change ("$"%byte =b ":"%byte) with false.
    change ("$"%byte =b "$"%byte) with true. cbv iota. unfold parse_bulk_string.
    destruct (parse_line _ 1) as [[l n]|]; [|done]. instantiate (1 := fun d l n => Some _). reflexivity. }
  - intros rest Hk. cbn beta. rewrite show_len_valid, show_len_i64 by done.
    destruct (Z.eqb_spec (Z.of_nat (length s)) (-1)) as [|_]; [lia|].
    destruct (Z.ltb_spec (Z.of_nat (length s)) 0) as [|_]; [lia|].
    set (h := length (show_len s) + 3) in *.
    assert (Hd : ("$"%byte :: show_len s ++ CRLF ++ s ++ CRLF) ++ rest =
                 "$"%byte :: show_len s ++ CRLF ++ s ++ CRLF ++ rest).
    { simpl. rewrite <- !app_assoc. simpl. by rewrite <- app_assoc. }
    rewrite Hd. specialize (Hhd (s ++ CRLF ++ rest)).
    pose proof (Hlen (s ++ CRLF ++ rest)) as Hl. rewrite !length_app in Hl. change (length CRLF) with 2 in Hl.
    set (d := "$"%byte :: show_len s ++ CRLF ++ s ++ CRLF ++ rest) in *.
    destruct (Z.ltb_spec (Z.of_nat (length d)) (Z.of_nat h + Z.of_nat (length s) + 2)) as [|_]; [lia|].
    rewrite Nat2Z.id. rewrite <- Nat.add_assoc, <- !lookup_drop, Hhd.
    rewrite drop_app_length, lookup_app_r, Nat.sub_diag by done. simpl.
    rewrite take_app_length. do 4 f_equal. rewrite length_app. simpl. rewrite length_app. simpl. lia.
  - intros q [_ Hq] Hk. cbn beta. rewrite show_len_valid, show_len_i64 by done.
    destruct (Z.eqb_spec (Z.of_nat (length s)) (-1)) as [|_]; [lia|].
    destruct (Z.ltb_spec (Z.of_nat (length s)) 0) as [|_]; [lia|].
    rewrite Hlen, length_app in *. change (length CRLF) with 2 in *.
    destruct (Z.ltb_spec (Z.of_nat (length (show_len s) + 3 + length q))
      (Z.of_nat (length (show_len s) + 3) + Z.of_nat (length s) + 2)) as [_|]; [done|lia].
Qed.

Lemma frame_inverts f : wf_frame f -> forall k, inverts (pff k) k (encode f) f.
Proof.
  induction f as [s|s|n|[s|]| |l IH| | |b|d|ps IH|l IH] using frame_ind'; intros Hwf [|k];
    try (by split; intros; lia).
  - apply (inverts_line (pff (S k)) (S k) "+"%byte s
      (fun l n => Some (Ok (Some (SimpleString l, n))))); try done; line_head.
  - apply (inverts_line (pff (S k)) (S k) "-"%byte s
      (fun l n => Some (Ok (Some (Error l, n))))); try done; line_head.
  - apply (inverts_line (pff (S k)) (S k) ":"%byte (show_i64 n)
      (fun l c => Some (if utf8_valid l then
         match parse_i64 l with
         | Some n => Ok (Some (Integer n, c))
         | None => protocol (B "Invalid integer format")
         end else protocol (B "Invalid UTF-8 in integer"))));
      [apply show_i64_no_crlf|done|line_head|].
    by rewrite show_i64_valid, parse_show_i64.
  - by apply bulk_inverts.
  - fixed_frame.
  - fixed_frame.
  - destruct Hwf as (Hl & Hcap & Hall).
    assert (Hel : Forall (fun f => inverts (pff k) k (encode f) f) l).
    { rewrite Forall_forall in IH |- *. intros f Hf. apply IH; [done|]. by eapply wf_list_elem. }
    assert (Hne : forall f, f ∈ l -> 1 <= length (encode f)).
    { intros f Hf. eapply encode_ne, wf_list_elem; eauto. }
    destruct (counted_elems k (show_len l) l (fun l => Array (Some l)) "*"%byte Hel Hne) as [Hfull Hpre].
    eapply (inverts_header (pff (S k)) (S k) "*"%byte (show_len l) (concat (map encode l))
      (fun d x n => if utf8_valid x then
          match parse_i64 x with
          | None => Some (protocol (B "Invalid array length"))
          | Some len =>
              if (len =? -1)%Z then Some (Ok (Some (Array None, n)))
              else if (len <? 0)%Z then Some (protocol (B "Invalid negative array length"))
              else match with_capacity len frame_size with
                   | Ok _ => wrap (fun l => Array (Some l)) (parse_elems (pff k) (S (length d)) len d [] n)
                   | _ => Some Panic
                   end
          end else Some (protocol (B "Invalid UTF-8 in array length"))));
      [apply show_u64_no_crlf; lia|done|line_head| |];
      [intros rest Hk; specialize (Hfull rest Hk)|intros q Hq Hk; specialize (Hpre q Hq Hk)];
      cbn beta; rewrite show_len_valid, show_len_i64, capacity_fits by done;
      destruct (Z.eqb_spec (Z.of_nat (length l)) (-1)) as [|_]; try lia;
      destruct (Z.ltb_spec (Z.of_nat (length l)) 0) as [|_]; try lia; done.
  - done.
  - fixed_frame.
  - destruct b; fixed_frame.
  - apply (inverts_line (pff (S k)) (S k) ","%byte (f64_display d)
      (fun l c => Some (if utf8_valid l then
         match f64_parse l with
         | Some n => Ok (Some (Double n, c))
         | None => protocol (B "Invalid double format")
         end else protocol (B "Invalid UTF-8 in double"))));
      [apply f64_display_no_crlf|done|line_head|].
    by rewrite f64_display_valid, f64_parse_display.
  - destruct Hwf as (Hl & Hcap & Hall).
    assert (Hel : Forall (fun p => inverts (pff k) k (encode p.1) p.1 /\
                                   inverts (pff k) k (encode p.2) p.2) ps).
    { rewrite Forall_forall in IH |- *. intros p Hp.
      destruct (wf_pairs_elem _ _ Hall Hp). destruct (IH p Hp). auto. }
    assert (Hne : forall p, p ∈ ps -> 1 <= length (encode p.1) /\ 1 <= length (encode p.2)).
    { intros p Hp. destruct (wf_pairs_elem _ _ Hall Hp). auto using encode_ne. }
    destruct (counted_pairs k (show_len ps) ps "%"%byte Hel Hne) as [Hfull Hpre].
    eapply (inverts_header (pff (S k)) (S k) "%"%byte (show_len ps) (concat (map encode_pair ps))
      (fun d x n => if utf8_valid x then
          match parse_u64 x with
          | None => Some (protocol (B "Invalid map length"))
          | Some len =>
              match with_capacity len pair_size with
              | Ok _ => wrap MapFrame (parse_pairs (pff k) (S (length d)) len d [] n)
              | _ => Some Panic
              end
          end else Some (protocol (B "Invalid UTF-8 in map length"))));
      [apply show_u64_no_crlf; lia|done|line_head| |];
      [intros rest Hk; specialize (Hfull rest Hk)|intros q Hq Hk; specialize (Hpre q Hq Hk)];
      cbn beta; rewrite show_len_valid, show_len_u64, capacity_fits by done; done.
  - destruct Hwf as (Hl & Hcap & Hall).
    assert (Hel : Forall (fun f => inverts (pff k) k (encode f) f) l).
    { rewrite Forall_forall in IH |- *. intros f Hf. apply IH; [done|]. by eapply wf_list_elem. }
    assert (Hne : forall f, f ∈ l -> 1 <= length (encode f)).
    { intros f Hf. eapply encode_ne, wf_list_elem; eauto. }
    destruct (counted_elems k (show_len l) l SetFrame "~"%byte Hel Hne) as [Hfull Hpre].
    eapply (inverts_header (pff (S k)) (S k) "~"%byte (show_len l) (concat (map encode l))
      (fun d x n => if utf8_valid x then
          match parse_u64 x with
          | None => Some (protocol (B "Invalid set length"))
          | Some len =>
              match with_capacity len frame_size with
              | Ok _ => wrap SetFrame (parse_elems (pff k) (S (length d)) len d [] n)
              | _ => Some Panic
              end
          end else Some (protocol (B "Invalid UTF-8 in set length"))));
      [apply show_u64_no_crlf; lia|done|line_head| |];
      [intros rest Hk; specialize (Hfull rest Hk)|intros q Hq Hk; specialize (Hpre q Hq Hk)];
      cbn beta; rewrite show_len_valid, show_len_u64, capacity_fits by done; done.
Qed.
End parser_proofs.
