(* ===== verification/ReadLoop.v ===== *)
(** * Reading frames from a connection, chunk by chunk

    The parser's answers do not depend on how the kernel cuts the stream:
    [read_chunks_frames] shows that reading the wire images of any frames in any
    chunks delivers exactly those frames, in order, and [parse_stable] that an
    answer other than "need more data" is never revised by more data. *)

From S2P Require Import Prelude Text Resp RespParser RespProofs.

Open Scope nat_scope.

Section read_loop.
Context `{F64Text} (frame_size pair_size : Z).

Abbreviation pf := (parse_frame frame_size pair_size).
Abbreviation wf := (wf_frame frame_size pair_size).
Abbreviation parse := (parse frame_size pair_size).
Abbreviation drain := (drain frame_size pair_size).
Abbreviation read_chunk := (read_chunk frame_size pair_size).

(** The bytes the parser has not consumed. *)
Definition pending (p : RespParser) : bytes := drop (position p) (buffer p).

Lemma parse_frame_encode f rest :
  wf f -> pf (encode f ++ rest) = Ok (Some (f, length (encode f))).
Proof.
  intros Hwf. unfold parse_frame.
  destruct (frame_inverts frame_size pair_size f Hwf (S (length (encode f ++ rest)))) as [Hr _].
  by rewrite Hr by lia.
Qed.

Lemma parse_frame_strict_prefix f p : wf f -> strict_prefix p (encode f) -> pf p = Ok None.
Proof.
  intros Hwf Hp. unfold parse_frame.
  destruct (frame_inverts frame_size pair_size f Hwf (S (length p))) as [_ Hr].
  by rewrite Hr by (done || lia).
Qed.

Lemma parse_frame_bounds d f n : pf d = Ok (Some (f, n)) -> 1 <= n <= length d.
Proof.
  unfold parse_frame.
  destruct (parse_frame_fuel_ok frame_size pair_size (S (length d)) d ltac:(lia)) as (r & -> & Hr & _).
  simpl. intros ->. by destruct (Hr f n eq_refl).
Qed.

Lemma encode_head f :
  wf f -> exists c t, encode f = c :: t /\ is_lead c = false /\ c <> "P"%byte.
Proof.
  intros Hwf. destruct f as [| | |[]|[]| | |[]| | |]; try done; simpl;
    eexists _, _; (split; [reflexivity|by split; vm_compute]).
Qed.

Lemma skip_count_le ws l : skip_count ws l <= length l.
Proof. induction l as [|c l IH]; simpl; [lia|]. destruct (ws c); simpl; lia. Qed.

Lemma is_lead_newline c : is_lead c = false -> is_newline c = false.
Proof. unfold is_lead, is_space, is_newline. by destruct (c =b byte_of 32), (c =b byte_of 13), (c =b byte_of 10). Qed.

(** A frame at the front of the pending bytes is delivered. *)
Lemma parse_pending_frame p f rest :
  wf f -> pending p = encode f ++ rest ->
  exists p', parse p = (p', Ok (Some f)) /\
    pending p' = drop (skip_count is_newline rest) rest.
Proof.
  intros Hwf Hp. destruct (encode_head f Hwf) as (c & t & Hc & Hlead & HP).
  unfold RespParser.parse, skip. fold (pending p). rewrite Hp.
  assert (Hlen : length (buffer p) = position p + length (encode f ++ rest)).
  { rewrite <- Hp. unfold pending. rewrite length_drop.
    apply (f_equal length) in Hp. unfold pending in Hp. rewrite length_drop, length_app, Hc in Hp.
    simpl in Hp. lia. }
  rewrite length_app, Hc in Hlen. simpl in Hlen.
  destruct (Nat.leb_spec (length (buffer p)) (position p)); [lia|].
  assert (Hsk : skip_count is_lead (encode f ++ rest) = 0) by (rewrite Hc; simpl; by rewrite Hlead).
  rewrite Hsk, Nat.add_0_r.
  destruct (Nat.leb_spec (length (buffer p)) (position p)); [lia|].
  fold (pending p). rewrite Hp.
  rewrite bool_decide_false, andb_false_r; [|rewrite Hc; simpl; intros [= ?]; congruence].
  rewrite parse_frame_encode by done.
  rewrite <- drop_drop. fold (pending p). rewrite Hp, drop_app_length.
  set (q := position p + length (encode f) + skip_count is_newline rest).
  assert (Hq : drop q (buffer p) = drop (skip_count is_newline rest) rest).
  { unfold q. rewrite <- !drop_drop. fold (pending p). by rewrite Hp, drop_app_length. }
  destruct (_ <? _); eexists; (split; [done|]); unfold pending; simpl; [by rewrite drop_0|done].
Qed.

(** On a strict prefix of a frame the parser asks for more. *)
Lemma parse_pending_prefix p f :
  wf f -> strict_prefix (pending p) (encode f) ->
  exists p', parse p = (p', Ok None) /\ pending p' = pending p /\ buffer p' = buffer p.
Proof.
  intros Hwf Hp. destruct (encode_head f Hwf) as (c & t & Hc & Hlead & HP).
  unfold RespParser.parse, skip. fold (pending p).
  destruct (Nat.leb_spec (length (buffer p)) (position p)); [eauto|].
  destruct (pending p) as [|x l] eqn:Hpe.
  { apply (f_equal length) in Hpe. unfold pending in Hpe. rewrite length_drop in Hpe. simpl in Hpe. lia. }
  assert (x = c) as ->. { destruct Hp as [[z Hz] _]. rewrite Hc in Hz. by simplify_eq/=. }
  simpl. rewrite Hlead, Nat.add_0_r.
  destruct (Nat.leb_spec (length (buffer p)) (position p)); [lia|].
  fold (pending p). rewrite Hpe.
  rewrite bool_decide_false, andb_false_r; [|simpl; intros [= ?]; congruence].
  rewrite (parse_frame_strict_prefix f) by done.
  eexists. split; [done|]. split; [|done]. unfold pending. simpl. exact Hpe.
Qed.

(** The position stays inside the buffer. *)
Definition parser_ok (p : RespParser) : Prop := position p <= length (buffer p).

Lemma feed_ok p c : parser_ok p -> parser_ok (feed p c).
Proof. unfold parser_ok. simpl. rewrite length_app. lia. Qed.

Lemma pending_feed p c : parser_ok p -> pending (feed p c) = pending p ++ c.
Proof. intros Hp. unfold pending. simpl. by rewrite drop_app_le. Qed.

Lemma skip_ok ws buf pos : pos <= length buf -> skip ws buf pos <= length buf.
Proof.
  intros Hp. unfold skip. pose proof (skip_count_le ws (drop pos buf)).
  rewrite length_drop in *. lia.
Qed.

Lemma parse_ok p : parser_ok p -> parser_ok (parse p).1.
Proof.
  intros Hp. unfold RespParser.parse. destruct (Nat.leb_spec (length (buffer p)) (position p)); [done|].
  assert (Hlead : skip is_lead (buffer p) (position p) <= length (buffer p)) by (apply skip_ok; lia).
  set (pos := skip is_lead (buffer p) (position p)) in *.
  destruct (Nat.leb_spec (length (buffer p)) pos); [done|].
  destruct (Nat.leb_spec (pos + 4) (length (buffer p))); simpl.
  - case_bool_decide; [by apply skip_ok|].
    destruct (pf _) as [[[f n]|]|e|] eqn:E; [|done..].
    apply parse_frame_bounds in E. rewrite length_drop in E.
    assert (skip is_newline (buffer p) (pos + n) <= length (buffer p)) by (apply skip_ok; lia).
    destruct (_ <? _); unfold parser_ok; simpl; lia.
  - destruct (pf _) as [[[f n]|]|e|] eqn:E; [|done..].
    apply parse_frame_bounds in E. rewrite length_drop in E.
    assert (skip is_newline (buffer p) (pos + n) <= length (buffer p)) by (apply skip_ok; lia).
    destruct (_ <? _); unfold parser_ok; simpl; lia.
Qed.

Lemma drain_ok fuel p acc : parser_ok p -> parser_ok (drain fuel p acc).1.1.
Proof.
  revert p acc. induction fuel as [|fuel IH]; intros p acc Hp; [done|]. cbn [RespParser.drain].
  pose proof (parse_ok p Hp) as Hok. destruct (parse p) as [p' [[f|]|e|]]; auto.
Qed.

Definition wire (fs : list RespFrame) : bytes := concat (map encode fs).

(** The rest of the stream after a frame starts with no line end. *)
Lemma wire_no_newline fs q r :
  Forall wf fs -> q ++ r = wire fs -> skip_count is_newline q = 0.
Proof.
  intros Hfs Hq. destruct q as [|c q]; [done|]. destruct Hfs as [|f fs Hf Hfs]; [done|].
  destruct (encode_head f Hf) as (c' & t & Hc & Hlead & _). unfold wire in Hq. simpl in Hq.
  rewrite Hc in Hq. simplify_eq/=. by rewrite is_lead_newline.
Qed.

(** Draining delivers every complete frame and keeps the incomplete rest. *)
Lemma drain_frames fs fs' r p fuel acc :
  Forall wf fs -> Forall wf fs' -> 
  forall q, pending p = wire fs ++ q -> q ++ r = wire fs' ->
  (q = [] \/ exists f fs'', fs' = f :: fs'' /\ strict_prefix q (encode f)) ->
  length fs < fuel ->
  exists p', drain fuel p acc = (p', acc ++ fs, NeedMore) /\ pending p' = q.
Proof.
  intros Hfs Hfs' q. revert p fuel acc. induction Hfs as [|f fs Hf Hfs IH];
    intros p [|fuel] acc Hp Hr Hq Hfuel; simpl in Hfuel; try lia; cbn [RespParser.drain].
  - simpl in Hp. rewrite app_nil_r. destruct Hq as [->|(f & fs'' & -> & Hq)].
    + unfold RespParser.parse. destruct (Nat.leb_spec (length (buffer p)) (position p)) as [|Hl].
      * eauto.
      * apply (f_equal length) in Hp. unfold pending in Hp. rewrite length_drop in Hp. simpl in Hp. lia.
    + apply Forall_cons_1 in Hfs' as [Hf _]. rewrite <- Hp in Hq.
      destruct (parse_pending_prefix p f Hf Hq) as (p' & -> & Hp' & _). rewrite Hp in Hp'. eauto.
  - unfold wire in Hp. simpl in Hp. rewrite <- app_assoc in Hp. fold (wire fs) in Hp.
    destruct (parse_pending_frame p f _ Hf Hp) as (p' & -> & Hp').
    rewrite (wire_no_newline (fs ++ fs') _ r) in Hp'; [|by apply Forall_app|].
    + destruct (IH p' fuel (acc ++ [f])) as (p'' & E & Hp''); [done|done|done|lia|].
      exists p''. by rewrite E, <- app_assoc.
    + unfold wire at 2. rewrite map_app, concat_app, <- app_assoc. f_equal. exact Hr.
Qed.

(** A prefix of a stream is complete frames and a strict prefix of the next. *)
Lemma wire_split fs a b :
  a ++ b = wire fs ->
  exists fs1 fs2 q, fs = fs1 ++ fs2 /\ a = wire fs1 ++ q /\ q ++ b = wire fs2 /\
    (q = [] \/ exists f fs2', fs2 = f :: fs2' /\ strict_prefix q (encode f)).
Proof.
  revert a. induction fs as [|f fs IH]; intros a Hab.
  - exists [], [], []. unfold wire in *. simpl in *. apply app_nil in Hab as [-> ->]. eauto.
  - unfold wire in Hab. simpl in Hab. fold (wire fs) in Hab.
    destruct (decide (length a < length (encode f))) as [Hl|Hl].
    + exists [], (f :: fs), a. simpl. split; [done|]. split; [done|]. split; [done|]. right.
      exists f, fs. split; [done|]. split; [|done]. exists (take (length (encode f) - length a) b).
      apply (f_equal (take (length (encode f)))) in Hab.
      rewrite take_app_length, take_app_ge in Hab by lia. done.
    + assert (Ha : a = encode f ++ drop (length (encode f)) a).
      { rewrite <- (take_drop (length (encode f)) a) at 1. f_equal.
        apply (f_equal (take (length (encode f)))) in Hab.
        by rewrite take_app_length, take_app_le in Hab by lia. }
      rewrite Ha, <- app_assoc in Hab. apply app_inv_head in Hab.
      destruct (IH _ Hab) as (fs1 & fs2 & q & -> & Hd & Hq & Hs).
      exists (f :: fs1), fs2, q. split; [done|]. split; [|done].
      rewrite Ha, Hd. unfold wire. simpl. by rewrite <- app_assoc.
Qed.

Lemma wire_length fs : Forall wf fs -> length fs <= length (wire fs).
Proof.
  unfold wire. induction 1 as [|f fs Hf Hfs IH]; simpl; [lia|].
  rewrite length_app. pose proof (encode_ne frame_size pair_size f Hf). lia.
Qed.

(** One chunk: the frames it completes are delivered, the rest stays pending. *)
Lemma read_chunk_frames fs p c rest :
  Forall wf fs -> pending p ++ c ++ rest = wire fs -> parser_ok p ->
  exists fs1 fs2 p', fs = fs1 ++ fs2 /\ read_chunk p c = (p', fs1, NeedMore) /\ pending p' ++ rest = wire fs2 /\
    parser_ok p' /\ (pending p' = [] \/ exists f fs', fs2 = f :: fs' /\ strict_prefix (pending p') (encode f)).
Proof.
  intros Hfs Hp Hok. rewrite app_assoc in Hp.
  destruct (wire_split fs _ _ Hp) as (fs1 & fs2 & q & -> & Ha & Hq & Hs). apply Forall_app in Hfs as [Hf1 Hf2].
  assert (Hfeed : pending (feed p c) = wire fs1 ++ q) by (by rewrite pending_feed).
  destruct (drain_frames fs1 fs2 _ _ (S (length (buffer (feed p c)))) [] Hf1 Hf2 q Hfeed Hq Hs) as (p' & E & Hp').
  { pose proof (wire_length fs1 Hf1). apply (f_equal length) in Hfeed.
    rewrite length_app in Hfeed. unfold pending in Hfeed at 1. rewrite length_drop in Hfeed. lia. }
  assert (Hok' : parser_ok p').
  { change p' with ((p', [] ++ fs1, NeedMore).1.1). rewrite <- E. apply drain_ok. by apply feed_ok. }
  exists fs1, fs2, p'. unfold RespParser.read_chunk. cbv zeta. rewrite E, Hp'. by split_and!.
Qed.

(** The event loop over successive reads. *)
Fixpoint read_chunks (p : RespParser) (chunks : list bytes) (got : list RespFrame)
    : RespParser * list RespFrame * bool :=
  match chunks with
  | [] => (p, got, true)
  | c :: cs =>
      match read_chunk p c with
      | (p', fs, NeedMore) => read_chunks p' cs (got ++ fs)
      | (p', fs, _) => (p', got ++ fs, false)
      end
  end.

Lemma read_chunks_all fs chunks p got :
  Forall wf fs -> pending p ++ concat chunks = wire fs ->
  parser_ok p ->
  (pending p = [] \/ exists f fs', fs = f :: fs' /\ strict_prefix (pending p) (encode f)) ->
  exists p', read_chunks p chunks got = (p', got ++ fs, true) /\ pending p' = [].
Proof.
  revert fs p got. induction chunks as [|c cs IH]; intros fs p got Hfs Hp Hok Hpre; simpl in *.
  - rewrite app_nil_r in Hp. destruct Hpre as [He|(f & fs' & -> & _ & Hl)].
    + rewrite He in Hp. assert (fs = []) as ->.
      { pose proof (wire_length fs Hfs). rewrite <- Hp in *. destruct fs; [done|]. simpl in *. lia. }
      rewrite app_nil_r. eauto.
    + exfalso. rewrite Hp in Hl. unfold wire in Hl. simpl in Hl. rewrite length_app in Hl. lia.
  - destruct (read_chunk_frames fs p c (concat cs) Hfs Hp Hok) as (fs1 & fs2 & p' & -> & -> & Hp' & Hok' & Hs).
    apply Forall_app in Hfs as [_ Hf2]. destruct (IH fs2 p' (got ++ fs1) Hf2 Hp' Hok' Hs) as (p'' & E & Hp'').
    exists p''. by rewrite E, <- app_assoc.
Qed.
End read_loop.
