(* ===== verification/RespStable.v ===== *)
(** * More data never changes an answer

    Once [parse_frame] answers something else than "need more data" (a frame, a
    protocol error or a panic), it answers the same on every longer input.  With
    the read loop, which keeps the buffer after an error, this shows that a
    malformed frame blocks its connection for ever: [stuck_connection]. *)

From S2P Require Import Prelude Text Resp RespParser RespProofs ReadLoop.
From Stdlib Require Import SpecFloat.

Open Scope nat_scope.

Lemma scan_crlf_stable i d x j : scan_crlf i d = Some j -> scan_crlf i (d ++ x) = Some j.
Proof.
  revert i. induction d as [|a [|b t] IH]; intros i; simpl; try done.
  destruct (_ && _); [done|]. apply IH.
Qed.

Lemma parse_line_stable d x l n s : parse_line d s = Some (l, n) -> parse_line (d ++ x) s = Some (l, n).
Proof.
  unfold parse_line. rewrite length_app. destruct (Nat.ltb_spec (length d) (s + 2)); [done|].
  destruct (Nat.ltb_spec (length d + length x) (s + 2)); [lia|].
  rewrite drop_app_le by lia. destruct (scan_crlf s (drop s d)) as [j|] eqn:E; [|done].
  rewrite (scan_crlf_stable _ _ _ _ E). apply scan_crlf_bound in E. intros [= <- <-].
  rewrite take_app_le by lia. done.
Qed.

Section stable.
Context `{F64Text} (frame_size pair_size : Z).

Abbreviation pff := (parse_frame_fuel frame_size pair_size).

(** [g] answers on [d ++ x] as [f] does on [d]. *)
Definition keeps {A} (r r' : option (presult A)) : Prop :=
  forall v, r = Some v -> v <> Ok None -> r' = Some v.

Lemma keeps_refl {A} (r : option (presult A)) : keeps r r.
Proof. by intros v. Qed.
Lemma keeps_none {A} (r : option (presult A)) : keeps (Some (Ok None)) r.
Proof. intros v [= <-]. done. Qed.

Lemma keeps_wrap {A} (mk : A -> RespFrame) r r' : keeps r r' -> keeps (wrap mk r) (wrap mk r').
Proof.
  intros Hk v. destruct r as [[[[a n]|]|e|]|]; simpl; try done; intros [= <-] Hv; try done;
    by rewrite (Hk _ eq_refl).
Qed.

Lemma parse_elems_stable pf pf' k lf lf' n d x acc t :
  (forall d', length d' < k -> length (d' ++ x) <= length (d ++ x) - t ->
     keeps (pf d') (pf' (d' ++ x))) ->
  (forall d', length d' < k -> pf_ok frame_size pair_size (pf d') 1 (length d') (fun _ => True)) ->
  t <= length d -> length d - t < k -> lf <= lf' ->
  keeps (parse_elems pf lf n d acc t) (parse_elems pf' lf' n (d ++ x) acc t).
Proof.
  revert lf' n acc t. induction lf as [|lf IH]; intros lf' n acc t Hs Hb Ht Hk Hlf; cbn [parse_elems].
  { destruct (Z.leb_spec n 0); [|done].
    destruct lf'; cbn [parse_elems]; (destruct (Z.leb_spec n 0); [apply keeps_refl|lia]). }
  destruct lf' as [|lf']; [lia|]. cbn [parse_elems]. destruct (Z.leb_spec n 0); [apply keeps_refl|].
  rewrite !slice_drop by (rewrite ?length_app; lia). rewrite drop_app_le by done.
  assert (Hd : length (drop t d) < k) by (rewrite length_drop; lia).
  assert (Hsd := Hs (drop t d) Hd ltac:(rewrite !length_app, length_drop; lia)).
  destruct (Hb (drop t d) Hd) as (r & E & Hr & _). rewrite E in *.
  destruct r as [[[f c]|]|e|]; try (rewrite (Hsd _ eq_refl) by done; apply keeps_refl); [|apply keeps_none].
  rewrite (Hsd _ eq_refl) by done. destruct (Hr f c eq_refl) as [Hc _]. rewrite length_drop in Hc.
  apply IH; [|done|lia..]. intros d' Hd' Hl. apply Hs; [done|lia].
Qed.

Lemma parse_pairs_stable pf pf' k lf lf' n d x acc t :
  (forall d', length d' < k -> length (d' ++ x) <= length (d ++ x) - t ->
     keeps (pf d') (pf' (d' ++ x))) ->
  (forall d', length d' < k -> pf_ok frame_size pair_size (pf d') 1 (length d') (fun _ => True)) ->
  t <= length d -> length d - t < k -> length d - t < lf -> lf <= lf' ->
  keeps (parse_pairs pf lf n d acc t) (parse_pairs pf' lf' n (d ++ x) acc t).
Proof.
  revert lf' n acc t. induction lf as [|lf IH]; intros lf' n acc t Hs Hb Ht Hk Hf Hlf; [lia|].
  destruct lf' as [|lf']; [lia|]. cbn [parse_pairs]. destruct (Z.leb_spec n 0); [apply keeps_refl|].
  assert (He := parse_elems_stable pf pf' k 2 2 2 d x [] t Hs Hb Ht Hk ltac:(lia)).
  destruct (parse_elems_ok frame_size pair_size pf k 2 2 d [] t Hb Ht Hk) as (r & E & Hr & _); [lia|].
  rewrite E in *. destruct r as [[[l c]|]|e|]; try (rewrite (He _ eq_refl) by done; apply keeps_refl); [|apply keeps_none].
  rewrite (He _ eq_refl) by done. destruct (Hr l c eq_refl) as [Hc Hl].
  destruct l as [|a [|b [|]]]; try done. simpl in Hc.
  apply IH; [|done|lia..]. intros d' Hd' Hl'. apply Hs; [done|lia].
Qed.

Lemma parse_bulk_stable d x :
  keeps (Some (parse_bulk_string d)) (Some (parse_bulk_string (d ++ x))).
Proof.
  unfold parse_bulk_string. destruct (parse_line d 1) as [[l h]|] eqn:E; [|apply keeps_none].
  rewrite (parse_line_stable _ x _ _ _ E). apply parse_line_bound in E.
  destruct (utf8_valid l); [|apply keeps_refl]. destruct (parse_i64 l) as [n|]; [|apply keeps_refl].
  destruct (Z.eqb_spec n (-1)); [apply keeps_refl|]. destruct (Z.ltb_spec n 0); [apply keeps_refl|].
  destruct (Z.ltb_spec (Z.of_nat (length d)) (Z.of_nat h + n + 2)); [apply keeps_none|].
  rewrite length_app.
  destruct (Z.ltb_spec (Z.of_nat (length d + length x)) (Z.of_nat h + n + 2)); [lia|].
  rewrite !lookup_app_l by lia. rewrite drop_app_le, take_app_le by (rewrite ?length_drop; lia).
  apply keeps_refl.
Qed.

Lemma parse_null_stable d x : keeps (Some (parse_null d)) (Some (parse_null (d ++ x))).
Proof.
  unfold parse_null. destruct (Nat.ltb_spec (length d) 3); [apply keeps_none|].
  destruct d as [|? [|a [|b d]]]; simpl in *; try lia. apply keeps_refl.
Qed.

Lemma parse_boolean_stable d x : keeps (Some (parse_boolean d)) (Some (parse_boolean (d ++ x))).
Proof.
  unfold parse_boolean. destruct (Nat.ltb_spec (length d) 4); [apply keeps_none|].
  destruct d as [|? [|a [|b [|c d]]]]; simpl in *; try lia. apply keeps_refl.
Qed.

Ltac line_stable :=
  match goal with |- context [parse_line (?d ++ ?x) 1] =>
    let E := fresh "E" in destruct (parse_line d 1) as [[? ?]|] eqn:E; [|apply keeps_none];
    rewrite (parse_line_stable _ x _ _ _ E); apply keeps_refl end.

Ltac counted_stable :=
  match goal with |- context [parse_line (?d ++ ?x) 1] =>
    let E := fresh "E" in destruct (parse_line d 1) as [[? h]|] eqn:E; [|apply keeps_none];
    rewrite (parse_line_stable _ x _ _ _ E); apply parse_line_bound in E end;
  repeat (case_match; try apply keeps_refl); apply keeps_wrap.

Lemma parse_frame_fuel_stable k k' d x :
  length d < k -> length (d ++ x) < k' -> keeps (pff k d) (pff k' (d ++ x)).
Proof.
  revert k' d. induction k as [|k IH]; intros [|k'] d Hk Hk'; [lia..|].
  cbn [parse_frame_fuel]. destruct d as [|c t]; [apply keeps_none|].
  change ((c :: t) ++ x) with (c :: (t ++ x)). 
  change (c :: t ++ x) with ((c :: t) ++ x) in *. remember (c :: t) as d eqn:Ed.
  assert (Hb : forall d', length d' < k ->
    pf_ok frame_size pair_size (pff k d') 1 (length d') (fun _ => True)).
  { intros. by apply parse_frame_fuel_ok. }
  assert (Hel : forall n h, 3 <= h <= length d ->
    keeps (parse_elems (pff k) (S (length d)) n d [] h)
          (parse_elems (pff k') (S (length (d ++ x))) n (d ++ x) [] h)).
  { intros n h Hh. apply (parse_elems_stable _ _ k); [|done|lia|lia|rewrite length_app; lia].
    intros d' Hd' Hl. rewrite !length_app in *. apply IH; [done|rewrite length_app; lia]. }
  assert (Hpa : forall n h, 3 <= h <= length d ->
    keeps (parse_pairs (pff k) (S (length d)) n d [] h)
          (parse_pairs (pff k') (S (length (d ++ x))) n (d ++ x) [] h)).
  { intros n h Hh. apply (parse_pairs_stable _ _ k); [|done|lia|lia|lia|rewrite length_app; lia].
    intros d' Hd' Hl. rewrite !length_app in *. apply IH; [done|rewrite length_app; lia]. }
  replace (match d ++ x with [] => _ | _ => _ end) with
    (pff (S k') (d ++ x)) by reflexivity. subst d.
  cbn [parse_frame_fuel app]. change (c :: t ++ x) with ((c :: t) ++ x).
  repeat match goal with |- context [if c =b ?y then _ else _] => destruct (c =b y) end;
    auto using parse_bulk_stable, parse_null_stable, parse_boolean_stable, keeps_refl;
    unfold parse_simple_string, parse_error, parse_integer, parse_double, parse_array,
      parse_map, parse_set; try line_stable; counted_stable; apply Hel || apply Hpa; lia.
Qed.

Abbreviation parse := (parse frame_size pair_size).

Lemma parse_frame_stable d x v :
  parse_frame frame_size pair_size d = v -> v <> Ok None ->
  parse_frame frame_size pair_size (d ++ x) = v.
Proof.
  unfold parse_frame. intros Hd Hv.
  destruct (parse_frame_fuel_ok frame_size pair_size (S (length d)) d ltac:(lia)) as (r & E & _).
  rewrite E in Hd. simpl in Hd. subst r.
  by rewrite (parse_frame_fuel_stable (S (length d)) (S (length (d ++ x))) d x ltac:(lia) ltac:(lia) v E Hv).
Qed.

(** A parser stopped by an error: where it stands and why. *)
Lemma parse_err p p' e :
  parse p = (p', Err e) ->
  position p' < length (buffer p') /\
  parse_frame frame_size pair_size (pending p') = Err e /\
  (forall c t, pending p' = c :: t -> is_lead c = false).
Proof.
  unfold RespParser.parse. destruct (_ <=? _); [done|].
  set (pos := skip is_lead (buffer p) (position p)).
  destruct (Nat.leb_spec (length (buffer p)) pos); [done|].
  assert (Hlead : forall c t, drop pos (buffer p) = c :: t -> is_lead c = false).
  { unfold pos, skip. rewrite <- drop_drop. intros c t.
    induction (drop (position p) (buffer p)) as [|a l IH]; simpl; [done|].
    destruct (is_lead a) eqn:Ha; simpl; [exact IH|by intros [= <- _]]. }
  destruct (_ && _); [done|].
  destruct (parse_frame _ _ _) as [[[f n]|]|e'|] eqn:E; try (by intros [=]).
  { by destruct (_ <? _). }
  intros [= <- <-]. unfold pending. simpl. auto.
Qed.

(** Retrying after more data finds the same error in the same place. *)
Lemma parse_err_again p c e :
  position p < length (buffer p) -> parse_frame frame_size pair_size (pending p) = Err e ->
  (forall a t, pending p = a :: t -> is_lead a = false /\ a <> "P"%byte) ->
  parse (feed p c) = (feed p c, Err e).
Proof.
  intros Hpos He Hhd.
  assert (Hpe : pending (feed p c) = pending p ++ c) by (apply pending_feed; unfold parser_ok; lia).
  destruct (pending p) as [|a t] eqn:Ep.
  { apply (f_equal length) in Ep. unfold pending in Ep. rewrite length_drop in Ep. simpl in Ep. lia. }
  destruct (Hhd a t eq_refl) as [Hlead HP].
  unfold RespParser.parse, skip. fold (pending (feed p c)). rewrite Hpe.
  assert (Hlen : position (feed p c) < length (buffer (feed p c))) by (simpl; rewrite length_app; lia).
  destruct (Nat.leb_spec (length (buffer (feed p c))) (position (feed p c))); [lia|].
  simpl skip_count. rewrite Hlead, Nat.add_0_r.
  destruct (Nat.leb_spec (length (buffer (feed p c))) (position (feed p c))); [lia|].
  fold (pending (feed p c)). rewrite Hpe.
  rewrite bool_decide_false, andb_false_r; [|simpl; intros [= ?]; congruence].
  by rewrite (parse_frame_stable _ c _ He).
Qed.

(** The parser positions at which the connection is blocked. *)
Definition blocked_at (p : RespParser) (e : ferrous_error) : Prop :=
  position p < length (buffer p) /\ parse_frame frame_size pair_size (pending p) = Err e /\
  (forall a t, pending p = a :: t -> is_lead a = false /\ a <> "P"%byte).

Lemma blocked_feed p c e : blocked_at p e -> blocked_at (feed p c) e.
Proof.
  intros (Hpos & He & Hhd).
  assert (Hpe : pending (feed p c) = pending p ++ c) by (apply pending_feed; unfold parser_ok; lia).
  split; [simpl; rewrite length_app; lia|]. rewrite Hpe.
  split; [by apply parse_frame_stable|]. intros a t Ha.
  destruct (pending p) as [|a' t'] eqn:Ep.
  { apply (f_equal length) in Ep. unfold pending in Ep. rewrite length_drop in Ep. simpl in Ep. lia. }
  injection Ha as <- _. by eapply Hhd.
Qed.
End stable.

(** ** Properties *)

Section properties.
Context `{F64Text} (frame_size pair_size : Z).

(** C5. The parser inverts the serializer: what [serialize_to_vec] wrote for a
    well formed frame is read back as that frame, consuming exactly those
    bytes, whatever bytes follow. *)
Theorem resp_roundtrip f w rest :
  wf_frame frame_size pair_size f -> serialize_to_vec f = Ok w ->
  parse_frame frame_size pair_size (w ++ rest) = Ok (Some (f, length w)).
Proof.
  intros Hwf Hw. unfold serialize_to_vec in Hw. pose proof (serialize_spec f) as Hs.
  destruct (sendable f); [|by destruct (Hs []) as [s E]; rewrite E in Hw].
  rewrite Hs in Hw. injection Hw as <-. by apply parse_frame_encode.
Qed.

(** C4. However the bytes of a sequence of well formed frames are cut into
    chunks, the read loop of a connection delivers exactly those frames in
    order, without a warning, and leaves no byte behind. *)
Theorem read_chunks_frames fs chunks :
  Forall (wf_frame frame_size pair_size) fs ->
  concat chunks = concat (map encode fs) ->
  exists p', read_chunks frame_size pair_size parser_new chunks [] = (p', fs, true) /\ pending p' = [].
Proof.
  intros Hfs Hc. destruct (read_chunks_all frame_size pair_size fs chunks parser_new []) as (p' & E & Hp');
    eauto. unfold parser_ok. simpl. lia.
Qed.

(** C35. Parsing terminates on every input within the fuel [parse_frame] gives,
    consumes between one byte and the whole input when it returns a frame, so
    that no slice is out of range, and can panic only by the capacity of an
    announced element count. *)
Theorem parse_frame_safe d :
  (exists r, parse_frame_fuel frame_size pair_size (S (length d)) d = Some r /\
             parse_frame frame_size pair_size d = r) /\
  (forall f n, parse_frame frame_size pair_size d = Ok (Some (f, n)) -> 1 <= n <= length d) /\
  parse_frame 0 0 d <> Panic.
Proof.
  split_and!.
  - unfold parse_frame.
    destruct (parse_frame_fuel_ok frame_size pair_size (S (length d)) d) as (r & E & _); [lia|].
    rewrite E. eauto.
  - intros f n. apply parse_frame_bounds.
  - unfold parse_frame. destruct (parse_frame_fuel_ok 0 0 (S (length d)) d) as (r & E & _ & Hp); [lia|].
    rewrite E. by apply Hp.
Qed.

Lemma blocked_read p e c :
  blocked_at frame_size pair_size p e ->
  read_chunk frame_size pair_size p c = (feed p c, [], ParseWarning e).
Proof.
  intros (Hpos & He & Hhd). unfold read_chunk. cbn [drain].
  by rewrite (parse_err_again frame_size pair_size p c e).
Qed.

(** After a protocol error (on input that does not start as an inline PING)
    the connection is blocked for ever: the error leaves the parser where it
    is, so whatever chunks are read later, each read ends in the same error
    and delivers no frame. *)
Theorem stuck_connection p p' e chunks chunk :
  parse frame_size pair_size p = (p', Err e) ->
  head (pending p') <> Some "P"%byte ->
  let q := fold_left (fun q c => (read_chunk frame_size pair_size q c).1.1) chunks p' in
  read_chunk frame_size pair_size q chunk = (feed q chunk, [], ParseWarning e).
Proof.
  intros Hp HP. apply blocked_read. apply parse_err in Hp as (Hpos & He & Hlead).
  assert (Hb : blocked_at frame_size pair_size p' e).
  { split; [done|]. split; [done|]. intros a t Ha. split; [by eapply Hlead|].
    intros ->. by rewrite Ha in HP. }
  clear Hpos He Hlead HP. revert p' Hb. induction chunks as [|c cs IH]; intros p' Hb; simpl; [done|].
  apply IH. rewrite (blocked_read _ _ _ Hb). simpl. by apply blocked_feed.
Qed.

(** A header announcing more elements than a [Vec] can have makes the
    parser panic, before any element has arrived: the count goes from the wire
    into [Vec::with_capacity] unchecked. *)
Theorem announced_count_panics n rest :
  in_i64 n -> (i64_max < n * frame_size)%Z -> (0 <= frame_size)%Z ->
  parse_frame frame_size pair_size ("*"%byte :: show_i64 n ++ CRLF ++ rest) = Panic.
Proof.
  intros Hn Hbig Hfs. assert (Hpos : (0 < n)%Z) by (unfold in_i64, i64_min, i64_max in *; nia).
  unfold parse_frame. cbn [parse_frame_fuel]. unfold parse_array.
  rewrite parse_line_app by (apply show_i64_no_crlf; unfold in_i64, u64_max, i64_max, i64_min in *; lia).
  rewrite show_i64_valid, parse_show_i64 by done.
  destruct (Z.eqb_spec n (-1)); [lia|]. destruct (Z.ltb_spec n 0); [lia|].
  unfold with_capacity. by destruct (Z.leb_spec (n * frame_size) i64_max); [lia|].
Qed.
End properties.

(** ** The properties at concrete inputs

    With the text of [BitText] for [f64] values, a frame of 32 bytes and a pair
    of 64 bytes. *)

Definition sample_frame : RespFrame :=
  Array (Some [BulkString (Some (B "SET")); BulkString (Some (B "k")); Integer (-7); Double S754_nan;
               SetFrame [Null; Boolean true]; Array None]).

Lemma sample_frame_wf : wf_frame 32 64 sample_frame.
Proof. vm_compute. intuition discriminate. Qed.

Lemma resp_roundtrip_witness :
  parse_frame (H := BitText.bit_text) 32 64 (encode (H := BitText.bit_text) sample_frame ++ B "+OK") =
    Ok (Some (sample_frame, length (encode (H := BitText.bit_text) sample_frame))).
Proof.
  exact (resp_roundtrip (H := BitText.bit_text) 32 64 sample_frame
           (encode (H := BitText.bit_text) sample_frame) (B "+OK") sample_frame_wf eq_refl).
Defined.

Lemma read_chunks_frames_witness :
  let ws := encode (H := BitText.bit_text) sample_frame in
  exists p', read_chunks (H := BitText.bit_text) 32 64 parser_new
               [take 5 ws; take 30 (drop 5 ws); drop 35 ws ++ take 1 ws; drop 1 ws] [] =
             (p', [sample_frame; sample_frame], true) /\ pending p' = [].
Proof.
  exact (read_chunks_frames (H := BitText.bit_text) 32 64 [sample_frame; sample_frame] _
           (Forall_cons_2 _ _ _ sample_frame_wf (Forall_cons_2 _ _ _ sample_frame_wf (Forall_nil_2 _)))
           eq_refl).
Defined.

(** An array of two followed by the beginning of another frame, and a header
    that announces more than a [Vec] can have. *)
Lemma parse_frame_safe_witness :
  let d := B "*2" ++ CRLF ++ B ":17" ++ CRLF ++ B "_" ++ CRLF ++ B "*1" in
  let n := length (B "*2" ++ CRLF ++ B ":17" ++ CRLF ++ B "_" ++ CRLF) in
  let large := B "*1000000000000000000" ++ CRLF in
  parse_frame (H := BitText.bit_text) 32 64 d = Ok (Some (Array (Some [Integer 17; Null]), n)) /\ 1 <= n <= length d
  /\ parse_frame (H := BitText.bit_text) 32 64 large = Panic /\ parse_frame (H := BitText.bit_text) 0 0 large <> Panic.
Proof.
  intros d n large. assert (E : parse_frame (H := BitText.bit_text) 32 64 d = Ok (Some (Array (Some [Integer 17; Null]), n))) by (vm_compute; reflexivity).
  split; [exact E|]. split; [|split; [vm_compute; reflexivity|]].
  - exact (proj1 (proj2 (parse_frame_safe (H := BitText.bit_text) 32 64 d)) _ _ E).
  - exact (proj2 (proj2 (parse_frame_safe (H := BitText.bit_text) 32 64 large))).
Defined.

Lemma stuck_connection_witness :
  exists e, forall chunk,
    let p := {| buffer := B "?12" ++ CRLF; position := 0 |} in
    let q := feed (feed p (B "*1")) (B "+OK") in
    read_chunk (H := BitText.bit_text) 32 64 q chunk = (feed q chunk, [], ParseWarning e).
Proof.
  eexists. intros chunk p.
  refine (stuck_connection (H := BitText.bit_text) 32 64 p p _ [B "*1"; B "+OK"] chunk eq_refl _).
  discriminate.
Defined.

Lemma announced_count_panics_witness :
  parse_frame (H := BitText.bit_text) 32 64 (B "*1000000000000000000" ++ CRLF) = Panic.
Proof.
  apply (announced_count_panics (H := BitText.bit_text) 32 64 1000000000000000000 []);
    [split; discriminate|reflexivity|discriminate].
Defined.
