(* ===== verification/StreamId.v ===== *)
(** * Stream ids and entries (src/storage/stream.rs)

    A [StreamId] packs a millisecond time and a sequence number, both [u64],
    into a [u128].  This file has its constructors and accessors (with the
    shifts and masks of the source), its text form, the monotone generator
    [generate_next_atomic] and the thread-local clock cache it reads. *)

From S2P Require Import Prelude Text.

Open Scope Z_scope.

Record StreamId := mkStreamId { packed : Z }.

#[global] Instance stream_id_eq_dec : EqDecision StreamId.
Proof. solve_decision. Defined.
#[global] Instance stream_id_countable : Countable StreamId.
Proof. apply (inj_countable' packed mkStreamId). by intros []. Defined.

Record StreamEntry := { entry_id : StreamId; entry_fields : gmap bytes bytes }.

(** The key under which entries are sorted. *)
Definition entry_key (e : StreamEntry) : Z := packed (entry_id e).

Definition two64 : Z := 18446744073709551616.
Definition u128_max : Z := 340282366920938463463374607431768211455.

(** [((millis as u128) << 64) | (seq as u128)] *)
Definition sid (millis seq : Z) : StreamId := mkStreamId (Z.lor (Z.shiftl millis 64) seq).

(** [(self.packed >> 64) as u64] *)
Definition sid_millis (i : StreamId) : Z := u64_wrap (Z.shiftr (packed i) 64).

(** [self.packed as u64] *)
Definition sid_seq (i : StreamId) : Z := u64_wrap (packed i).

Definition sid_min : StreamId := mkStreamId 0.
Definition sid_max : StreamId := mkStreamId u128_max.

(** [Ord for StreamId]: the order of the packed values. *)
Definition sid_le (a b : StreamId) : bool := packed a <=? packed b.
Definition sid_lt (a b : StreamId) : bool := packed a <? packed b.

(** *** Text form *)

(** [parse_u64_fast]: wrapping arithmetic, no overflow check; the empty string
    is 0. *)
Fixpoint parse_u64_fast_from (result : Z) (s : bytes) : option Z :=
  match s with
  | [] => Some result
  | b :: t =>
      if (u8 b <? 48) || (57 <? u8 b) then None
      else parse_u64_fast_from (u64_wrap (u64_wrap (result * 10) + (u8 b - 48))) t
  end.

Definition parse_u64_fast (s : bytes) : option Z := parse_u64_fast_from 0 s.

(** [s.find('-')] and [split_at]: the parts around the first dash. *)
Fixpoint split_dash (s : bytes) : option (bytes * bytes) :=
  match s with
  | [] => None
  | c :: t =>
      if c =b "-"%byte then Some ([], t)
      else match split_dash t with Some (a, b) => Some (c :: a, b) | None => None end
  end.

Definition sid_from_string (s : bytes) : option StreamId :=
  match split_dash s with
  | Some (millis_str, seq_str) =>
      match parse_u64_fast millis_str with
      | None => None
      | Some ms =>
          match parse_u64_fast seq_str with
          | None => None
          | Some sq => Some (sid ms sq)
          end
      end
  | None => None
  end.

Definition sid_to_string (i : StreamId) : bytes := show_u64 (sid_millis i) ++ B "-" ++ show_u64 (sid_seq i).

(** *** The clock cache and the generator *)

(** [CACHED_TIME]: the cached milliseconds and the time they were read, here in
    nanoseconds since the epoch. *)
Record clock_cache := { cached_millis : Z; cached_at : Z }.

Definition clock_cache_new : clock_cache := {| cached_millis := 0; cached_at := 0 |}.

(** [get_cached_millis] at system time [now] (nanoseconds); a clock that went
    backwards counts as no time passed ([unwrap_or(Duration::ZERO)]). *)
Definition get_cached_millis (now : Z) (c : clock_cache) : Z * clock_cache :=
  if 0 <? Z.max 0 (now - cached_at c) / 1000000 then
    let ms := u64_wrap (now / 1000000) in
    (ms, {| cached_millis := ms; cached_at := now |})
  else (cached_millis c, c).

(** [generate_next_atomic] at clock [now_millis].  Every caller holds the
    stream's mutex, so the two counters change only here; [weak1] and [weak2]
    are the spurious failures [compare_exchange_weak] allows.  The result is
    the id and the new values of the two counters. *)
Definition generate_next_atomic (now_millis : Z) (weak1 weak2 : bool) (last_millis last_seq : Z)
    : StreamId * Z * Z :=
  let increment :=
    (sid last_millis (u64_wrap (last_seq + 1)), last_millis, u64_wrap (last_seq + 1)) in
  if last_millis <? now_millis then
    if negb weak1 then (sid now_millis 0, now_millis, 0)
    else (* Err(actual) with actual = last_millis *)
      if negb weak2 then (sid now_millis 0, now_millis, 0)
      else increment
  else increment.

(** ** Lemmas *)

Lemma sid_packed ms sq : 0 <= ms -> in_u64 sq -> packed (sid ms sq) = ms * two64 + sq.
Proof.
  unfold in_u64, u64_max, two64. intros Hms Hsq. simpl.
  rewrite Z.shiftl_mul_pow2 by lia. change (2 ^ 64) with 18446744073709551616.
  rewrite <- Z.add_lor_land.
  enough (Z.land (ms * 18446744073709551616) sq = 0) by lia.
  apply Z.bits_inj'. intros n Hn. rewrite Z.land_spec, Z.bits_0.
  change 18446744073709551616 with (2 ^ 64). destruct (Z.lt_ge_cases n 64).
  - rewrite Z.mul_pow2_bits_low by lia. done.
  - rewrite (Z.bits_above_log2 sq n); [by rewrite andb_false_r|lia|].
    destruct (Z.eq_dec sq 0) as [->|]; [simpl; lia|]. apply Z.log2_lt_pow2; [lia|].
    apply Z.lt_le_trans with (2 ^ 64); [simpl; lia|]. apply Z.pow_le_mono_r; lia.
Qed.

Lemma sid_millis_new ms sq : in_u64 ms -> in_u64 sq -> sid_millis (sid ms sq) = ms.
Proof.
  intros Hms Hsq. unfold sid_millis. rewrite sid_packed by (unfold in_u64 in *; lia || done).
  rewrite Z.shiftr_div_pow2 by lia. unfold two64, in_u64, u64_max in *.
  change (2 ^ 64) with 18446744073709551616. rewrite Z.div_add_l, Z.div_small, Z.add_0_r by lia.
  apply u64_wrap_small. unfold in_u64, u64_max. lia.
Qed.

Lemma sid_seq_new ms sq : in_u64 ms -> in_u64 sq -> sid_seq (sid ms sq) = sq.
Proof.
  intros Hms Hsq. unfold sid_seq. rewrite sid_packed by (unfold in_u64 in *; lia || done).
  unfold u64_wrap, two64, in_u64, u64_max in *. rewrite Z.add_comm, Z.mod_add by lia.
  apply Z.mod_small. lia.
Qed.

Lemma sid_eta i : 0 <= packed i <= u128_max -> sid (sid_millis i) (sid_seq i) = i.
Proof.
  intros Hi. destruct i as [p]. simpl in Hi. unfold u128_max in Hi.
  assert (Hm : sid_millis (mkStreamId p) = p / two64).
  { unfold sid_millis. simpl. rewrite Z.shiftr_div_pow2 by lia. change (2 ^ 64) with two64.
    apply u64_wrap_small. unfold in_u64, u64_max, two64. split; [apply Z.div_pos; lia|].
    apply Z.lt_succ_r, Z.div_lt_upper_bound; lia. }
  assert (Hs : sid_seq (mkStreamId p) = p mod two64) by done.
  assert (Hp : packed (sid (sid_millis (mkStreamId p)) (sid_seq (mkStreamId p))) = p).
  { rewrite sid_packed, Hm, Hs.
    - unfold two64. pose proof (Z.div_mod p 18446744073709551616). lia.
    - rewrite Hm. apply Z.div_pos; unfold two64; lia.
    - rewrite Hs. apply u64_wrap_range. }
  unfold sid in *. simpl in Hp. by rewrite Hp.
Qed.

(** The packed order is the lexicographic order of (millis, seq). *)
Lemma sid_lt_lex m1 s1 m2 s2 :
  in_u64 m1 -> in_u64 s1 -> in_u64 m2 -> in_u64 s2 ->
  packed (sid m1 s1) < packed (sid m2 s2) <-> m1 < m2 \/ (m1 = m2 /\ s1 < s2).
Proof.
  intros H1 H2 H3 H4. rewrite !sid_packed by (unfold in_u64 in *; lia || done).
  unfold two64, in_u64, u64_max in *. lia.
Qed.

Lemma u64_wrap_step r d : 0 <= d < 10 -> in_u64 (r * 10 + d) -> 0 <= r ->
  u64_wrap (u64_wrap (r * 10) + d) = r * 10 + d.
Proof.
  intros Hd Hr H0. unfold in_u64, u64_max in Hr.
  rewrite (u64_wrap_small (r * 10)) by (unfold in_u64, u64_max; lia).
  apply u64_wrap_small. unfold in_u64, u64_max. lia.
Qed.

(** Without overflow the fast parser agrees with the checked one. *)
Lemma parse_u64_fast_digits s acc n :
  0 <= acc -> parse_digits 0 u64_max 1 acc s = Some n -> parse_u64_fast_from acc s = Some n.
Proof.
  revert acc. induction s as [|c s IH]; intros acc Ha; simpl; [done|].
  unfold is_digit. destruct (Z.leb_spec 48 (u8 c)), (Z.leb_spec (u8 c) 57); simpl; try done.
  destruct (Z.ltb_spec (u8 c) 48), (Z.ltb_spec 57 (u8 c)); simpl; try lia.
  destruct (_ && _) eqn:E; [|done]. intros Hp.
  rewrite u64_wrap_step by (unfold in_u64; lia).
  replace (acc * 10 + (u8 c - 48)) with (acc * 10 + 1 * (u8 c - 48)) by lia.
  apply IH; [lia|done].
Qed.

Lemma parse_u64_fast_show n : in_u64 n -> parse_u64_fast (show_u64 n) = Some n.
Proof.
  intros Hn. apply parse_u64_fast_digits; [lia|]. pose proof (parse_show_u64 n Hn) as Hp.
  unfold parse_u64 in Hp. unfold show_u64 in *. unfold in_u64 in Hn.
  destruct (show_digits_cons 20 n []) as (d & s & E & Hd); [lia|lia|]. rewrite E in *.
  by rewrite (is_digit_not d) in Hp by done.
Qed.

Lemma split_dash_app a b :
  Forall (fun c => c <> "-"%byte) a -> split_dash (a ++ B "-" ++ b) = Some (a, b).
Proof.
  induction 1 as [|c a Hc Ha IH]; [done|]. cbn [split_dash app].
  by rewrite (proj2 (beq_false _ _) Hc), IH.
Qed.

Lemma show_u64_no_dash n : 0 <= n -> Forall (fun c => c <> "-"%byte) (show_u64 n).
Proof. intros. apply show_u64_Forall; [|done]. intros d Hd ->. by vm_compute in Hd. Qed.

Lemma sid_string_roundtrip i :
  0 <= packed i <= u128_max -> sid_from_string (sid_to_string i) = Some i.
Proof.
  intros Hi. unfold sid_from_string, sid_to_string.
  rewrite split_dash_app by (apply show_u64_no_dash; apply u64_wrap_range).
  rewrite !parse_u64_fast_show by apply u64_wrap_range. by rewrite sid_eta.
Qed.

(** *** The generator *)

(** The two counters hold the last id. *)
Lemma generate_next_spec now w1 w2 ms sq i ms' sq' :
  in_u64 now -> in_u64 ms -> in_u64 sq ->
  generate_next_atomic now w1 w2 ms sq = (i, ms', sq') ->
  in_u64 ms' /\ in_u64 sq' /\ i = sid ms' sq' /\
  (sq < u64_max \/ (ms < now /\ (w1 && w2) = false) -> packed (sid ms sq) < packed i).
Proof.
  intros Hn Hm Hs. unfold generate_next_atomic.
  assert (H0 : in_u64 0) by (unfold in_u64, u64_max; lia).
  assert (Hinc : sq < u64_max -> packed (sid ms sq) < packed (sid ms (u64_wrap (sq + 1)))).
  { intros Hlt. rewrite u64_wrap_small by (unfold in_u64 in *; lia).
    apply sid_lt_lex; [done|done|done|unfold in_u64 in *; lia|lia]. }
  pose proof (u64_wrap_range (sq + 1)).
  destruct (Z.ltb_spec ms now).
  - assert (packed (sid ms sq) < packed (sid now 0)) by (apply sid_lt_lex; [done..|lia]).
    destruct w1, w2; simpl; intros [= <- <- <-]; split_and!; auto; intros [?|[_ ?]]; auto; done.
  - intros [= <- <- <-]. split_and!; auto. intros [?|[? _]]; auto; lia.
Qed.
