(* ===== verification/BTree.v ===== *)
(** * Ordered maps keyed by stream ids

    [BTreeMap<StreamId, V>] of the consumer groups: a finite map whose
    iteration order is the order of the keys.  [btree_items] is that order;
    [range] and the first and last keys are defined from it. *)

From S2P Require Import Prelude SortedVec StreamId.

Open Scope Z_scope.

Section btree.
Context {V : Type}.
Implicit Types m : gmap StreamId V.

Definition item_le (x y : StreamId * V) : Prop := packed x.1 <= packed y.1.

#[local] Instance item_le_dec x y : Decision (item_le x y).
Proof. unfold item_le. apply _. Defined.

(** [m.iter()], in key order. *)
Definition btree_items m : list (StreamId * V) := merge_sort item_le (map_to_list m).

(** [m.values()] *)
Definition btree_values m : list V := (btree_items m).*2.

(** [m.keys().min().copied()] and [max()] *)
Definition btree_min m : option StreamId := head (btree_items m).*1.
Definition btree_max m : option StreamId := last (btree_items m).*1.

(** [m.range(lo..=hi)]: the standard library panics when [lo > hi]. *)
Definition btree_range m (lo hi : StreamId) : outcome (list V) :=
  if packed hi <? packed lo then Panic
  else Ok (filter (fun x => packed lo <= packed x.1 <= packed hi) (btree_items m)).*2.

(** [m.range((Excluded(after), Unbounded))] *)
Definition btree_after m (after : StreamId) : list V :=
  (filter (fun x => packed after < packed x.1) (btree_items m)).*2.

Lemma btree_items_perm m : btree_items m ≡ₚ map_to_list m.
Proof. apply merge_sort_Permutation. Qed.

Lemma elem_of_btree_items m k v : (k, v) ∈ btree_items m <-> m !! k = Some v.
Proof. by rewrite btree_items_perm, elem_of_map_to_list. Qed.

Lemma packed_inj a b : packed a = packed b -> a = b.
Proof. destruct a, b; simpl. by intros ->. Qed.

Lemma btree_items_sorted m : sorted (fun x => packed x.1) (btree_items m).
Proof.
  assert (Hs : StronglySorted item_le (btree_items m)).
  { apply StronglySorted_merge_sort; unfold item_le.
    - intros ? ? ?. lia.
    - intros ? ?. lia. }
  assert (Hn : NoDup (btree_items m).*1).
  { rewrite btree_items_perm. apply NoDup_fst_map_to_list. }
  unfold sorted. induction Hs as [|x l Hs IH Hall]; [constructor|].
  simpl in Hn. apply NoDup_cons in Hn as [Hx Hn]. constructor; [auto|].
  rewrite Forall_forall in *. intros y Hy. specialize (Hall y Hy). unfold item_le in Hall.
  enough (packed x.1 <> packed y.1) by lia. intros E%packed_inj. apply Hx. rewrite E.
  apply list_elem_of_fmap. eauto.
Qed.

Lemma btree_min_spec m k v :
  m !! k = Some v -> exists k0, btree_min m = Some k0 /\ is_Some (m !! k0) /\ packed k0 <= packed k.
Proof.
  intros Hk. apply elem_of_btree_items in Hk. pose proof (btree_items_sorted m) as Hs.
  unfold btree_min. destruct (btree_items m) as [|[k0 v0] l] eqn:E; [by apply not_elem_of_nil in Hk|].
  exists k0. split; [done|]. split.
  - exists v0. apply elem_of_btree_items. rewrite E. left.
  - apply elem_of_cons in Hk as [[= -> ->]|Hk]; [lia|]. inversion Hs as [|? ? _ Hall]; subst.
    rewrite Forall_forall in Hall. specialize (Hall _ Hk). simpl in Hall. lia.
Qed.

Lemma btree_max_spec m k v :
  m !! k = Some v -> exists k0, btree_max m = Some k0 /\ is_Some (m !! k0) /\ packed k <= packed k0.
Proof.
  intros Hk. apply elem_of_btree_items in Hk. pose proof (btree_items_sorted m) as Hs.
  unfold btree_max. destruct (btree_items m) as [|x l _] eqn:E using rev_ind; [by apply not_elem_of_nil in Hk|].
  destruct x as [k0 v0]. rewrite fmap_app. simpl. rewrite last_snoc. exists k0. split; [done|]. split.
  - exists v0. apply elem_of_btree_items. rewrite E. apply elem_of_app. right. left.
  - apply elem_of_app in Hk as [Hk|Hk].
    + apply sorted_app in Hs as (_ & _ & Hs). specialize (Hs _ (k0, v0) Hk ltac:(left)). simpl in Hs. lia.
    + apply list_elem_of_singleton in Hk as [= -> ->]. lia.
Qed.

Lemma btree_min_Some m k :
  btree_min m = Some k <-> is_Some (m !! k) /\ forall k', is_Some (m !! k') -> packed k <= packed k'.
Proof.
  split.
  - intros E. assert (Hk : is_Some (m !! k)).
    { unfold btree_min in E. destruct (btree_items m) as [|[k' v] l] eqn:E2; simplify_eq/=.
      exists v. apply elem_of_btree_items. rewrite E2. left. }
    split; [done|]. intros k' [v Hv]. destruct (btree_min_spec m k' v Hv) as (k0 & E0 & _ & Hle). congruence.
  - intros [[v Hv] Hall]. destruct (btree_min_spec m k v Hv) as (k0 & E0 & Hk0 & Hle).
    rewrite E0. f_equal. apply packed_inj. specialize (Hall _ Hk0). lia.
Qed.

Lemma btree_max_Some m k :
  btree_max m = Some k <-> is_Some (m !! k) /\ forall k', is_Some (m !! k') -> packed k' <= packed k.
Proof.
  split.
  - intros E. assert (Hk : is_Some (m !! k)).
    { unfold btree_max in E. apply last_Some_elem_of, list_elem_of_fmap in E as ([k' v] & -> & Hx).
      exists v. by apply elem_of_btree_items. }
    split; [done|]. intros k' [v Hv]. destruct (btree_max_spec m k' v Hv) as (k0 & E0 & _ & Hle). congruence.
  - intros [[v Hv] Hall]. destruct (btree_max_spec m k v Hv) as (k0 & E0 & Hk0 & Hle).
    rewrite E0. f_equal. apply packed_inj. specialize (Hall _ Hk0). lia.
Qed.

(** The bounds depend only on the keys. *)
Lemma btree_bounds_dom m m' : dom m = dom m' -> btree_min m = btree_min m' /\ btree_max m = btree_max m'.
Proof.
  intros Hd. assert (Hs : forall k, is_Some (m !! k) <-> is_Some (m' !! k)).
  { intros k. by rewrite <- !elem_of_dom, Hd. }
  split; apply option_eq; intros k; rewrite ?btree_min_Some, ?btree_max_Some, Hs; setoid_rewrite Hs; done.
Qed.

Lemma elem_of_btree_after m after v :
  v ∈ btree_after m after <-> exists k, m !! k = Some v /\ packed after < packed k.
Proof.
  unfold btree_after. rewrite list_elem_of_fmap. split.
  - intros ([k w] & -> & Hx). apply list_elem_of_filter in Hx as [Hlt Hx].
    exists k. split; [|done]. by apply elem_of_btree_items.
  - intros (k & Hk & Hlt). exists (k, v). split; [done|].
    apply list_elem_of_filter. split; [done|]. by apply elem_of_btree_items.
Qed.
End btree.
