(* ===== verification/ConsumerGroups.v ===== *)
(** * Consumer groups (src/storage/consumer_groups.rs)

    The pending entries list with its two indexes and its cached bounds, the
    consumer group that keeps counts beside it, and the manager of a stream's
    groups.  A [BTreeMap] is the ordered map of BTree.v, a [HashMap] a [gmap];
    the order in which a [HashMap] is listed is not modelled (those results are
    compared as sets of pairs).  Every method takes the group's locks in its
    own body and the server runs one command at a time, so a method is one
    function on the group.  [SystemTime] values are nanoseconds, and the times
    a method reads are arguments.  [usize] counts of entries in memory are
    [nat]; [delivery_count] is a [u32] with its wrap-around. *)

From S2P Require Import Prelude SortedVec StreamId BTree.

Open Scope Z_scope.

(** ** Data *)

Record Consumer := mkConsumer {
  consumer_name : bytes;
  pending_count : nat;
  last_seen : Z;
  idle_time : Z;
}.

Record PendingEntry := mkPending {
  pe_id : StreamId;
  pe_consumer : bytes;
  delivered_at : Z;
  delivery_count : Z;
  last_delivery : Z;
}.

Record PendingEntryList := mkPEL {
  entries_by_id : gmap StreamId PendingEntry;
  entries_by_consumer : gmap bytes (list StreamId);
  min_pending_id : option StreamId;
  max_pending_id : option StreamId;
}.

Record PendingInfo := {
  info_count : nat;
  info_min_id : option StreamId;
  info_max_id : option StreamId;
  info_consumers : gmap bytes nat;
}.

Record PendingEntryInfo := {
  pei_id : StreamId;
  pei_consumer : bytes;
  pei_idle_time : Z;
  pei_delivery_count : Z;
}.

Record ConsumerGroup := mkGroup {
  group_name : bytes;
  last_delivered_id : StreamId;
  group_stream_id : StreamId;
  pending : PendingEntryList;
  consumers : gmap bytes Consumer;
  created_at : Z;
  consumer_count : nat;
  total_pending : nat;
}.

Definition u32_wrap (z : Z) : Z := z mod 4294967296.

(** [now.duration_since(last).unwrap_or_default().as_millis() as u64] *)
Definition idle_ms (now last : Z) : Z := u64_wrap (Z.max 0 (now - last) / 1000000).

(** ** PendingEntryList *)

Definition pel_new : PendingEntryList := mkPEL ∅ ∅ None None.

Definition update_bounds (p : PendingEntryList) : PendingEntryList :=
  mkPEL (entries_by_id p) (entries_by_consumer p)
    (btree_min (entries_by_id p)) (btree_max (entries_by_id p)).

(** [map.entry(k).or_insert_with(Vec::new).push(x)] *)
Definition push_index (k : bytes) (x : StreamId) (m : gmap bytes (list StreamId)) :=
  <[k := default [] (m !! k) ++ [x]]> m.

(** Drop [x] from the list of [k], and the list when it became empty. *)
Definition drop_index (k : bytes) (x : StreamId) (m : gmap bytes (list StreamId)) :=
  match m !! k with
  | Some l =>
      let l' := filter (fun y => y <> x) l in
      if bool_decide (l' = []) then delete k m else <[k := l']> m
  | None => m
  end.

Definition add_entry (p : PendingEntryList) (e : PendingEntry) : PendingEntryList :=
  update_bounds
    (mkPEL (<[pe_id e := e]> (entries_by_id p))
       (push_index (pe_consumer e) (pe_id e) (entries_by_consumer p))
       (min_pending_id p) (max_pending_id p)).

Definition remove_entry (p : PendingEntryList) (i : StreamId) : PendingEntryList * option PendingEntry :=
  match entries_by_id p !! i with
  | Some e =>
      (update_bounds
         (mkPEL (delete i (entries_by_id p))
            (drop_index (pe_consumer e) i (entries_by_consumer p))
            (min_pending_id p) (max_pending_id p)),
       Some e)
  | None => (p, None)
  end.

Definition transfer_ownership (now : Z) (p : PendingEntryList) (i : StreamId) (new_consumer : bytes)
    : PendingEntryList :=
  match entries_by_id p !! i with
  | Some e =>
      let e' := mkPending (pe_id e) new_consumer (delivered_at e)
                  (u32_wrap (delivery_count e + 1)) now in
      mkPEL (<[i := e']> (entries_by_id p))
        (push_index new_consumer i (drop_index (pe_consumer e) i (entries_by_consumer p)))
        (min_pending_id p) (max_pending_id p)
  | None => p
  end.

Definition remove_consumer_entries (p : PendingEntryList) (consumer : bytes) : PendingEntryList * nat :=
  match entries_by_consumer p !! consumer with
  | Some ids =>
      (update_bounds
         (mkPEL (foldl (fun m i => delete i m) (entries_by_id p) ids)
            (delete consumer (entries_by_consumer p))
            (min_pending_id p) (max_pending_id p)),
       length ids)
  | None => (p, O)
  end.

(** With a consumer the bounds are not looked at; without one the range of the
    ordered map panics when they are crossed. *)
Definition pel_get_range (p : PendingEntryList) (start end_ : option StreamId) (count : nat)
    (consumer : option bytes) : outcome (list PendingEntry) :=
  let? entries :=
    match consumer with
    | Some c =>
        match entries_by_consumer p !! c with
        | Some ids => Ok (omap (fun i => entries_by_id p !! i) ids)
        | None => Ok []
        end
    | None => btree_range (entries_by_id p) (default sid_min start) (default sid_max end_)
    end in
  Ok (take count entries).

Definition get_entries_after (p : PendingEntryList) (after : StreamId) : list PendingEntry :=
  btree_after (entries_by_id p) after.

Definition pel_len (p : PendingEntryList) : nat := size (entries_by_id p).

(** ** ConsumerGroup *)

Definition group_new (now : Z) (name : bytes) (stream_id : StreamId) : ConsumerGroup :=
  mkGroup name (sid 0 0) stream_id pel_new ∅ now 0 0.

Definition set_pending (g : ConsumerGroup) (p : PendingEntryList) : ConsumerGroup :=
  mkGroup (group_name g) (last_delivered_id g) (group_stream_id g) p (consumers g)
    (created_at g) (consumer_count g) (total_pending g).

Definition set_consumers (g : ConsumerGroup) (m : gmap bytes Consumer) : ConsumerGroup :=
  mkGroup (group_name g) (last_delivered_id g) (group_stream_id g) (pending g) m
    (created_at g) (consumer_count g) (total_pending g).

Definition set_counts (g : ConsumerGroup) (consumer_count total : nat) : ConsumerGroup :=
  mkGroup (group_name g) (last_delivered_id g) (group_stream_id g) (pending g) (consumers g)
    (created_at g) consumer_count total.

Definition set_id (g : ConsumerGroup) (i : StreamId) : ConsumerGroup :=
  mkGroup (group_name g) i (group_stream_id g) (pending g) (consumers g)
    (created_at g) (consumer_count g) (total_pending g).

Definition get_last_id (g : ConsumerGroup) : StreamId := last_delivered_id g.

Definition create_consumer (now : Z) (g : ConsumerGroup) (name : bytes) : ConsumerGroup * bool :=
  match consumers g !! name with
  | Some c =>
      (set_consumers g (<[name := mkConsumer (consumer_name c) (pending_count c) now 0]> (consumers g)), false)
  | None =>
      let g1 := set_consumers g (<[name := mkConsumer name 0 now 0]> (consumers g)) in
      (set_counts g1 (S (consumer_count g)) (total_pending g), true)
  end.

Definition delete_consumer (g : ConsumerGroup) (name : bytes) : ConsumerGroup * nat :=
  match consumers g !! name with
  | Some _ =>
      let g1 := set_consumers g (delete name (consumers g)) in
      let '(p, removed) := remove_consumer_entries (pending g) name in
      (set_counts (set_pending g1 p) (consumer_count g - 1) (total_pending g - removed), removed)
  | None => (g, O)
  end.

(** The entry [add_pending] makes for a delivery at [now]. *)
Definition delivery (now : Z) (consumer : bytes) (e : StreamEntry) : PendingEntry :=
  mkPending (entry_id e) consumer now 1 now.

(** [add_pending], where [now] is read first and [now_c] by [create_consumer]. *)
Definition add_pending (now now_c : Z) (g : ConsumerGroup) (consumer : bytes)
    (entries : list StreamEntry) : ConsumerGroup * list StreamEntry :=
  let g1 := (create_consumer now_c g consumer).1 in
  let g2 := set_pending g1 (foldl (fun p e => add_entry p (delivery now consumer e)) (pending g1) entries) in
  let g3 :=
    match consumers g2 !! consumer with
    | Some c =>
        set_consumers g2
          (<[consumer := mkConsumer (consumer_name c) (pending_count c + length entries) now 0]> (consumers g2))
    | None => g2
    end in
  let g4 := set_counts g3 (consumer_count g3) (total_pending g3 + length entries) in
  let g5 :=
    match last entries with
    | Some e => if sid_lt (last_delivered_id g4) (entry_id e) then set_id g4 (entry_id e) else g4
    | None => g4
    end in
  (g5, entries).

(** Add [f] to the pending count of [name], when it is a consumer. *)
Definition bump (f : nat -> nat) (name : bytes) (m : gmap bytes Consumer) : gmap bytes Consumer :=
  match m !! name with
  | Some c => <[name := mkConsumer (consumer_name c) (f (pending_count c)) (last_seen c) (idle_time c)]> m
  | None => m
  end.

(** One turn of the loop of [acknowledge]. *)
Definition ack_one (g : ConsumerGroup) (i : StreamId) : ConsumerGroup * nat :=
  match remove_entry (pending g) i with
  | (p, Some e) =>
      (set_consumers (set_pending g p) (bump (fun n => (n - 1)%nat) (pe_consumer e) (consumers g)), 1%nat)
  | (_, None) => (g, O)
  end.

Definition acknowledge (g : ConsumerGroup) (ids : list StreamId) : ConsumerGroup * nat :=
  let '(g1, acked) :=
    foldl (fun '(g, n) i => let '(g', k) := ack_one g i in (g', (n + k)%nat)) (g, O) ids in
  (if (0 <? acked)%nat then set_counts g1 (consumer_count g1) (total_pending g1 - acked) else g1, acked).

(** One turn of the loop of [claim_messages]; [now] was read before the loop,
    [now_t] is read by [transfer_ownership]. *)
Definition claim_one (now now_t : Z) (new_consumer : bytes) (min_idle_ms : Z) (force : bool)
    (g : ConsumerGroup) (i : StreamId) : ConsumerGroup * bool :=
  match entries_by_id (pending g) !! i with
  | Some e =>
      if negb force && (idle_ms now (last_delivery e) <? min_idle_ms) then (g, false)
      else
        let cs1 := bump (fun n => (n - 1)%nat) (pe_consumer e) (consumers g) in
        let cs2 := bump S new_consumer cs1 in
        (set_pending (set_consumers g cs2) (transfer_ownership now_t (pending g) i new_consumer), true)
  | None => (g, false)
  end.

(** The loop, [clock n] being the time read by the [n]-th transfer. *)
Fixpoint claim_loop (now : Z) (clock : nat -> Z) (new_consumer : bytes) (min_idle_ms : Z) (force : bool)
    (g : ConsumerGroup) (ids : list StreamId) (claimed : list StreamId) : ConsumerGroup * list StreamId :=
  match ids with
  | [] => (g, claimed)
  | i :: ids' =>
      match claim_one now (clock (length claimed)) new_consumer min_idle_ms force g i with
      | (g', true) => claim_loop now clock new_consumer min_idle_ms force g' ids' (claimed ++ [i])
      | (g', false) => claim_loop now clock new_consumer min_idle_ms force g' ids' claimed
      end
  end.

Definition claim_messages (now now_c : Z) (clock : nat -> Z) (g : ConsumerGroup) (new_consumer : bytes)
    (min_idle_ms : Z) (ids : list StreamId) (force : bool) : ConsumerGroup * list StreamId :=
  claim_loop now clock new_consumer min_idle_ms force (create_consumer now_c g new_consumer).1 ids [].

Definition get_pending_info (g : ConsumerGroup) : PendingInfo :=
  {| info_count := pel_len (pending g);
     info_min_id := min_pending_id (pending g);
     info_max_id := max_pending_id (pending g);
     info_consumers := omap (fun c => if (0 <? pending_count c)%nat then Some (pending_count c) else None)
                         (consumers g) |}.

Definition get_pending_range (now : Z) (g : ConsumerGroup) (start end_ : option StreamId) (count : nat)
    (consumer : option bytes) : outcome (list PendingEntryInfo) :=
  let? entries := pel_get_range (pending g) start end_ count consumer in
  Ok (map (fun e => {| pei_id := pe_id e; pei_consumer := pe_consumer e;
                       pei_idle_time := idle_ms now (last_delivery e);
                       pei_delivery_count := delivery_count e |}) entries).

Definition auto_claim (now1 now2 now_c : Z) (clock : nat -> Z) (g : ConsumerGroup) (consumer : bytes)
    (min_idle_ms : Z) (start : StreamId) (count : nat) : ConsumerGroup * (list StreamId * StreamId) :=
  let idle_entries :=
    map pe_id
      (take count
        (filter (fun e => min_idle_ms <= idle_ms now1 (last_delivery e))
           (get_entries_after (pending g) start))) in
  let '(g', claimed) := claim_messages now2 now_c clock g consumer min_idle_ms idle_entries false in
  let next_start :=
    match last claimed with
    | Some l => sid (sid_millis l) (u64_wrap (sid_seq l + 1))
    | None => sid 0 0
    end in
  (g', (claimed, next_start)).

(** ** ConsumerGroupManager *)

Abbreviation ConsumerGroupManager := (gmap bytes ConsumerGroup).

Definition create_group (now : Z) (m : ConsumerGroupManager) (name : bytes) (start_id : StreamId)
    : ConsumerGroupManager * (bytes + unit) :=
  match m !! name with
  | Some _ => (m, inl (B "BUSYGROUP Consumer Group name already exists"))
  | None => (<[name := group_new now name start_id]> m, inr tt)
  end.

Definition destroy_group (m : ConsumerGroupManager) (name : bytes) : ConsumerGroupManager * bool :=
  (delete name m, bool_decide (is_Some (m !! name))).

Definition get_group (m : ConsumerGroupManager) (name : bytes) : option ConsumerGroup := m !! name.
Definition group_count (m : ConsumerGroupManager) : nat := size m.
