(* ===== verification/ConsumerGroupProofs.v ===== *)
(** * Correctness of the consumer groups

    [group_ok]: the two indexes of the pending list agree, its cached bounds
    are those of the ordered map, and every count kept beside it is the number
    it stands for.  Every operation preserves it, [add_pending] when the ids
    are not pending yet; the properties say what each operation does to the
    set of pending entries. *)

From S2P Require Import Prelude SortedVec StreamId BTree ConsumerGroups.

Open Scope nat_scope.

(** ** The index of entries by consumer *)

Definition owned_in (m : gmap bytes (list StreamId)) (c : bytes) : list StreamId := default [] (m !! c).
Definition index_ok (m : gmap bytes (list StreamId)) : Prop := forall c l, m !! c = Some l -> l <> [].

Lemma owned_push k x m c :
  owned_in (push_index k x m) c = if decide (c = k) then owned_in m c ++ [x] else owned_in m c.
Proof.
  unfold owned_in, push_index. destruct (decide (c = k)) as [->|Hc].
  - by rewrite lookup_insert_eq.
  - by rewrite lookup_insert_ne.
Qed.

Lemma push_index_ok k x m : index_ok m -> index_ok (push_index k x m).
Proof.
  intros Hm c l. unfold push_index. destruct (decide (k = c)) as [->|Hc].
  - rewrite lookup_insert_eq. intros [= <-] [_ ?]%app_eq_nil. done.
  - rewrite lookup_insert_ne by done. apply Hm.
Qed.

Lemma owned_drop k x m c :
  owned_in (drop_index k x m) c =
    if decide (c = k) then filter (fun y => y <> x) (owned_in m c) else owned_in m c.
Proof.
  unfold owned_in, drop_index. destruct (m !! k) as [l|] eqn:E.
  - case_bool_decide as Hl; destruct (decide (c = k)) as [->|Hc];
      rewrite ?lookup_delete_eq, ?lookup_insert_eq, ?lookup_delete_ne, ?lookup_insert_ne, ?E by done; done.
  - destruct (decide (c = k)) as [->|Hc]; [|done]. by rewrite E.
Qed.

Lemma drop_index_ok k x m : index_ok m -> index_ok (drop_index k x m).
Proof.
  intros Hm c l. unfold drop_index. destruct (m !! k) as [l'|] eqn:E; [|apply Hm].
  case_bool_decide as Hl; destruct (decide (k = c)) as [->|Hc];
    rewrite ?lookup_delete_eq, ?lookup_insert_eq, ?lookup_delete_ne, ?lookup_insert_ne by done;
    try apply Hm; [done|]. by intros [= <-].
Qed.

Lemma length_filter_ne (x : StreamId) l :
  NoDup l -> x ∈ l -> length (filter (fun y => y <> x) l) = length l - 1.
Proof.
  induction 1 as [|y l Hy Hn IH]; [by intros ?%not_elem_of_nil|]. intros Hx.
  destruct (decide (y = x)) as [->|Hyx].
  - rewrite filter_cons_False by naive_solver. rewrite filter_all; [simpl; lia|]. by intros z Hz ->.
  - rewrite filter_cons_True by done. apply elem_of_cons in Hx as [->|Hx]; [done|]. simpl.
    rewrite IH by done. destruct l; [by apply not_elem_of_nil in Hx|]. simpl. lia.
Qed.

Lemma lookup_foldl_delete {V} (ids : list StreamId) (m : gmap StreamId V) i :
  foldl (fun m i => delete i m) m ids !! i = if decide (i ∈ ids) then None else m !! i.
Proof.
  revert m. induction ids as [|j ids IH]; intros m.
  - destruct (decide _) as [[]%not_elem_of_nil|]; done.
  - cbn [foldl]. rewrite IH. destruct (decide (i ∈ ids)) as [Hi|Hi].
    + by rewrite decide_True by (by right).
    + destruct (decide (i = j)) as [->|Hij].
      * rewrite decide_True by left. by rewrite lookup_delete_eq.
      * rewrite decide_False by (rewrite elem_of_cons; naive_solver). by rewrite lookup_delete_ne.
Qed.

Lemma size_foldl_delete {V} (ids : list StreamId) (m : gmap StreamId V) :
  NoDup ids -> (forall i, i ∈ ids -> is_Some (m !! i)) ->
  size (foldl (fun m i => delete i m) m ids) = size m - length ids.
Proof.
  intros Hn. revert m. induction Hn as [|j ids Hj Hn IH]; intros m Hm; simpl; [lia|].
  rewrite IH.
  - destruct (Hm j) as [v Hv]; [left|]. rewrite map_size_delete_Some by eauto. lia.
  - intros i Hi. rewrite lookup_delete_ne by (by intros ->). apply Hm. by right.
Qed.

(** ** The pending entries list *)

Definition owned (p : PendingEntryList) : bytes -> list StreamId := owned_in (entries_by_consumer p).

Record pel_ok (p : PendingEntryList) : Prop := {
  ok_index : index_ok (entries_by_consumer p);
  ok_ids i e : entries_by_id p !! i = Some e -> pe_id e = i;
  ok_nodup c : NoDup (owned p c);
  ok_owned c i : i ∈ owned p c <-> exists e, entries_by_id p !! i = Some e /\ pe_consumer e = c;
  ok_min : min_pending_id p = btree_min (entries_by_id p);
  ok_max : max_pending_id p = btree_max (entries_by_id p);
}.

Lemma pel_new_ok : pel_ok pel_new.
Proof.
  split; try done.
  - constructor.
  - intros c i. split; [by intros ?%not_elem_of_nil|by intros (? & ? & _)].
Qed.

Lemma owned_other p i e c :
  pel_ok p -> entries_by_id p !! i = Some e -> c <> pe_consumer e ->
  filter (fun y => y <> i) (owned p c) = owned p c.
Proof.
  intros Hp He Hc. apply filter_all. intros x Hx ->.
  apply (ok_owned p Hp) in Hx as (e' & He' & <-). congruence.
Qed.

Lemma remove_entry_Some p i e :
  pel_ok p -> entries_by_id p !! i = Some e ->
  exists p', remove_entry p i = (p', Some e) /\ pel_ok p' /\
    entries_by_id p' = delete i (entries_by_id p) /\
    (forall c, owned p' c = filter (fun y => y <> i) (owned p c)).
Proof.
  intros Hp He. unfold remove_entry. rewrite He. eexists. split; [done|].
  match goal with |- pel_ok ?q /\ _ => set (p' := q) end.
  assert (Hown : forall c, owned p' c = filter (fun y => y <> i) (owned p c)).
  { intros c. unfold p', owned, update_bounds. simpl. rewrite owned_drop.
    destruct (decide _) as [->|Hc]; [done|]. symmetry. by apply (owned_other p i e). }
  split; [|done]. split; simpl; try done.
  - apply drop_index_ok, Hp.
  - intros j e' [_ He']%lookup_delete_Some. by apply Hp.
  - intros c. rewrite Hown. apply NoDup_filter, Hp.
  - intros c j. rewrite Hown, list_elem_of_filter, (ok_owned p Hp).
    split.
    + intros (Hj & e' & He' & Hc). exists e'. split; [|done]. by rewrite lookup_delete_ne.
    + intros (e' & [Hj He']%lookup_delete_Some & Hc). split; [done|]. eauto.
Qed.

(** Adding an id that is not pending yet. *)
Lemma add_entry_fresh p e :
  pel_ok p -> entries_by_id p !! pe_id e = None ->
  pel_ok (add_entry p e) /\
  (forall c, owned (add_entry p e) c =
     if decide (c = pe_consumer e) then owned p c ++ [pe_id e] else owned p c).
Proof.
  intros Hp He.
  assert (Hown : forall c, owned (add_entry p e) c =
     if decide (c = pe_consumer e) then owned p c ++ [pe_id e] else owned p c) by (intros; apply owned_push).
  assert (Hnot : forall c, pe_id e ∉ owned p c).
  { intros c (e' & He' & _)%(ok_owned p Hp). congruence. }
  split; [|done]. split; try done.
  - apply push_index_ok, Hp.
  - intros j e'. simpl. destruct (decide (pe_id e = j)) as [<-|Hj].
    + rewrite lookup_insert_eq. congruence.
    + rewrite lookup_insert_ne by done. apply Hp.
  - intros c. rewrite Hown. case_decide; [|apply Hp]. apply NoDup_app. split_and!; [apply Hp| |apply NoDup_singleton].
    intros x Hx ->%list_elem_of_singleton. by apply (Hnot c).
  - intros c j. rewrite Hown. simpl. destruct (decide (pe_id e = j)) as [<-|Hj].
    + rewrite lookup_insert_eq. case_decide as Hc.
      * split; [eauto|]. intros _. apply elem_of_app. right. apply list_elem_of_singleton. done.
      * split; [by intros ?%Hnot|]. intros (e' & [= <-] & <-). done.
    + rewrite lookup_insert_ne by done. rewrite <- (ok_owned p Hp).
      case_decide; [|done]. rewrite elem_of_app, list_elem_of_singleton. naive_solver.
Qed.

Lemma transfer_ok now p i e c :
  pel_ok p -> entries_by_id p !! i = Some e ->
  let p' := transfer_ownership now p i c in
  pel_ok p' /\
  entries_by_id p' =
    <[i := mkPending i c (delivered_at e) (u32_wrap (delivery_count e + 1)) now]> (entries_by_id p) /\
  (forall c', owned p' c' = filter (fun y => y <> i) (owned p c') ++ (if decide (c' = c) then [i] else [])).
Proof.
  intros Hp He. assert (Hi : pe_id e = i) by by apply Hp.
  unfold transfer_ownership. cbv zeta. rewrite He, Hi.
  match goal with |- pel_ok ?q /\ _ => set (p' := q) end.
  assert (Hown : forall c', owned p' c' =
    filter (fun y => y <> i) (owned p c') ++ (if decide (c' = c) then [i] else [])).
  { intros c'. unfold p', owned. simpl. rewrite owned_push, owned_drop. fold (owned p c').
    assert (E : (if decide (c' = pe_consumer e) then filter (fun y => y <> i) (owned p c') else owned p c') =
                filter (fun y => y <> i) (owned p c')).
    { destruct (decide _) as [->|Hc]; [done|]. symmetry. by apply (owned_other p i e). }
    rewrite E. destruct (decide (c' = c)); [done|]. by rewrite app_nil_r. }
  destruct (btree_bounds_dom (entries_by_id p) (entries_by_id p')) as [Hmin Hmax].
  { unfold p'. simpl. rewrite dom_insert_L. apply elem_of_dom_2 in He. set_solver. }
  split; [|done]. split; try done.
  - unfold p'. simpl. by apply push_index_ok, drop_index_ok, Hp.
  - intros j e'. unfold p'. simpl. rewrite lookup_insert_Some. intros [[<- <-]|[_ He']]; [done|by apply Hp].
  - intros c'. rewrite Hown. apply NoDup_app. split_and!; [apply NoDup_filter, Hp| |by case_decide; [apply NoDup_singleton|constructor]].
    intros x [Hx _]%list_elem_of_filter. case_decide; [|apply not_elem_of_nil]. by intros ?%list_elem_of_singleton.
  - intros c' j. rewrite Hown, elem_of_app, list_elem_of_filter, (ok_owned p Hp). unfold p'. simpl.
    destruct (decide (i = j)) as [<-|Hj].
    + rewrite lookup_insert_eq. split.
      * intros [[? _]|Hx]; [done|]. case_decide; [subst|by apply not_elem_of_nil in Hx]. eauto.
      * intros (e' & [= <-] & <-). right. rewrite decide_True by done. left.
    + rewrite lookup_insert_ne by done. split.
      * intros [[_ Hx]|Hx]; [done|]. case_decide; [|by apply not_elem_of_nil in Hx].
        by apply list_elem_of_singleton in Hx as ->.
      * intros Hx. left. done.
  - exact (eq_trans (ok_min p Hp) Hmin).
  - exact (eq_trans (ok_max p Hp) Hmax).
Qed.

Lemma remove_consumer_ok p c :
  pel_ok p ->
  let '(p', n) := remove_consumer_entries p c in
  pel_ok p' /\ n = length (owned p c) /\ size (entries_by_id p') = size (entries_by_id p) - n /\
  (forall i, entries_by_id p' !! i = (e ← entries_by_id p !! i; if decide (pe_consumer e = c) then None else Some e)) /\
  (forall c', owned p' c' = if decide (c' = c) then [] else owned p c').
Proof.
  intros Hp. unfold remove_consumer_entries.
  assert (Hlook : forall ids, (forall i, i ∈ ids <-> i ∈ owned p c) -> forall i,
    foldl (fun m i => delete i m) (entries_by_id p) ids !! i =
    (e ← entries_by_id p !! i; if decide (pe_consumer e = c) then None else Some e)).
  { intros ids Hids i. rewrite lookup_foldl_delete.
    destruct (entries_by_id p !! i) as [e|] eqn:He; simpl; [|by case_decide].
    assert (i ∈ ids <-> pe_consumer e = c) by (rewrite Hids, (ok_owned p Hp); naive_solver).
    repeat case_decide; tauto. }
  destruct (entries_by_consumer p !! c) as [ids|] eqn:E.
  - assert (Ho : owned p c = ids) by (unfold owned, owned_in; by rewrite E).
    assert (Hown : forall c', owned_in (delete c (entries_by_consumer p)) c' =
                              if decide (c' = c) then [] else owned p c').
    { intros c'. unfold owned, owned_in. case_decide as Hc; [subst; by rewrite lookup_delete_eq|].
      by rewrite lookup_delete_ne. }
    specialize (Hlook ids ltac:(by rewrite Ho)). split_and!; try done; [|by rewrite Ho|].
    + split; simpl; try done.
      * intros c' l [_ Hl]%lookup_delete_Some. by eapply Hp.
      * intros i e. rewrite Hlook. destruct (entries_by_id p !! i) eqn:He; simpl; [|done].
        case_decide; [done|]. intros [= <-]. by apply Hp.
      * intros c'. unfold owned. simpl. rewrite Hown. case_decide; [constructor|apply Hp].
      * intros c' i. unfold owned. simpl. rewrite Hown, Hlook. case_decide as Hc.
        -- subst. split; [by intros ?%not_elem_of_nil|]. intros (e & He & Hc).
           destruct (entries_by_id p !! i); simplify_eq/=. case_decide; naive_solver.
        -- rewrite (ok_owned p Hp). split.
           ++ intros (e & He & Hc'). exists e. rewrite He. simpl. by rewrite decide_False by congruence.
           ++ intros (e & He & Hc'). destruct (entries_by_id p !! i); simplify_eq/=. case_decide; naive_solver.
    + simpl. apply size_foldl_delete; rewrite <- Ho; [apply Hp|].
      intros i (e & He & _)%(ok_owned p Hp). eauto.
  - assert (Ho : owned p c = []) by (unfold owned, owned_in; by rewrite E).
    split_and!; [done|by rewrite Ho|lia| |].
    + intros i. apply (Hlook []). by rewrite Ho.
    + intros c'. by case_decide; subst.
Qed.

(** ** The group *)

(** Everything but [total_pending], which [acknowledge] updates last. *)
Record group_core (g : ConsumerGroup) : Prop := {
  g_pel : pel_ok (pending g);
  g_ccount : consumer_count g = size (consumers g);
  g_cons c x : consumers g !! c = Some x ->
    consumer_name x = c /\ pending_count x = length (owned (pending g) c);
  g_own c : owned (pending g) c <> [] -> is_Some (consumers g !! c);
}.

Definition total_ok (g : ConsumerGroup) : Prop := total_pending g = size (entries_by_id (pending g)).

Definition group_ok (g : ConsumerGroup) : Prop := group_core g /\ total_ok g.

Lemma g_owner g i e :
  group_core g -> entries_by_id (pending g) !! i = Some e -> is_Some (consumers g !! pe_consumer e).
Proof.
  intros Hg He. apply (g_own g Hg). intros Ho.
  assert (i ∈ owned (pending g) (pe_consumer e)) as Hi by (apply (ok_owned _ (g_pel g Hg)); eauto).
  rewrite Ho in Hi. by apply not_elem_of_nil in Hi.
Qed.

Lemma group_new_ok now n i : group_ok (group_new now n i).
Proof. split; [|done]. split; [apply pel_new_ok|done| |]; intros c; [by intros x ?|done]. Qed.

Lemma create_consumer_ok now g n :
  group_ok g -> let g' := (create_consumer now g n).1 in
  group_ok g' /\ pending g' = pending g /\ total_pending g' = total_pending g /\
  is_Some (consumers g' !! n) /\ last_delivered_id g' = last_delivered_id g.
Proof.
  intros [Hg Ht] g'. unfold g', create_consumer. destruct (consumers g !! n) as [x|] eqn:E; simpl;
    (split_and!; [|done|done|by rewrite lookup_insert_eq|done]); (split; [|done]); split; simpl.
  - apply Hg.
  - rewrite map_size_insert_Some by eauto. apply Hg.
  - intros c y. rewrite lookup_insert_Some. intros [[<- <-]|[_ Hy]]; [|by apply Hg]. by apply Hg in E.
  - intros c Hc%(g_own g Hg). destruct (decide (n = c)) as [->|]; [by rewrite lookup_insert_eq|by rewrite lookup_insert_ne].
  - apply Hg.
  - rewrite map_size_insert_None by done. f_equal. apply Hg.
  - intros c y. rewrite lookup_insert_Some. intros [[<- <-]|[_ Hy]]; [|by apply Hg]. simpl. split; [done|].
    destruct (owned (pending g) n) as [|i l] eqn:Ho; [done|]. exfalso.
    destruct (g_own g Hg n) as [z Hz]; [by rewrite Ho|]. congruence.
  - intros c Hc%(g_own g Hg). destruct (decide (n = c)) as [->|]; [by rewrite lookup_insert_eq|by rewrite lookup_insert_ne].
Qed.

Lemma set_id_ok g i : group_ok g -> group_ok (set_id g i).
Proof. intros [[Hp Hn Hc Ho] Ht]. exact (conj (Build_group_core (set_id g i) Hp Hn Hc Ho) Ht). Qed.

Lemma delete_consumer_ok g n :
  group_ok g -> let '(g', k) := delete_consumer g n in
  group_ok g' /\ k = length (owned (pending g) n) /\ consumers g' = delete n (consumers g) /\
  (forall i, entries_by_id (pending g') !! i =
     (e ← entries_by_id (pending g) !! i; if decide (pe_consumer e = n) then None else Some e)).
Proof.
  intros [Hg Ht]. unfold delete_consumer. destruct (consumers g !! n) as [x|] eqn:E.
  - pose proof (remove_consumer_ok (pending g) n (g_pel g Hg)) as Hr.
    destruct (remove_consumer_entries (pending g) n) as [p k]. destruct Hr as (Hp & -> & Hsz & Hl & Ho).
    split_and!; try done. split.
    + split; simpl; [done| | |].
      * rewrite map_size_delete_Some by eauto. rewrite (g_ccount g Hg). lia.
      * intros c y [Hc Hy]%lookup_delete_Some. rewrite Ho, decide_False by done. by apply Hg.
      * intros c. rewrite Ho. case_decide as Hc; [done|]. rewrite lookup_delete_ne by done. apply Hg.
    + unfold total_ok. simpl. rewrite Ht. lia.
  - assert (Ho : owned (pending g) n = []).
    { destruct (owned (pending g) n) eqn:Ho; [done|]. destruct (g_own g Hg n) as [z Hz]; [by rewrite Ho|]. congruence. }
    split_and!; [done|by rewrite Ho|by rewrite delete_id|].
    intros i. destruct (entries_by_id (pending g) !! i) as [e|] eqn:He; simpl; [|done].
    rewrite decide_False; [done|]. intros <-. destruct (g_owner g i e Hg He). congruence.
Qed.

Lemma bump_lookup f n m c :
  bump f n m !! c =
    (x ← m !! c; Some (if decide (c = n)
       then mkConsumer (consumer_name x) (f (pending_count x)) (last_seen x) (idle_time x) else x)).
Proof.
  unfold bump. destruct (decide (c = n)) as [->|Hc].
  - destruct (m !! n) as [x|] eqn:E; [by rewrite lookup_insert_eq|by rewrite E].
  - destruct (m !! n); rewrite ?lookup_insert_ne by done; by destruct (m !! c).
Qed.

Lemma bump_size f n m : size (bump f n m) = size m.
Proof. unfold bump. destruct (m !! n) eqn:E; [|done]. by rewrite map_size_insert_Some by eauto. Qed.

Lemma ack_one_ok g i :
  group_core g -> let '(g', k) := ack_one g i in
  group_core g' /\ entries_by_id (pending g') = delete i (entries_by_id (pending g)) /\
  k + size (entries_by_id (pending g')) = size (entries_by_id (pending g)) /\
  total_pending g' = total_pending g /\ last_delivered_id g' = last_delivered_id g.
Proof.
  intros Hg. unfold ack_one. destruct (entries_by_id (pending g) !! i) as [e|] eqn:He.
  - destruct (remove_entry_Some (pending g) i e (g_pel g Hg) He) as (p & -> & Hp & Hid & Ho).
    split_and!; try done.
    + split; simpl; [done| | |].
      * rewrite bump_size. apply Hg.
      * intros c x. rewrite bump_lookup. destruct (consumers g !! c) as [y|] eqn:Ey; [|done].
        destruct (g_cons g Hg c y Ey) as [Hn Hc]. simpl. rewrite Ho. case_decide as Hce; intros [= <-]; simpl.
        -- subst c. split; [done|]. rewrite Hc, length_filter_ne; [done|apply Hg|].
           apply (ok_owned _ (g_pel g Hg)). eauto.
        -- by rewrite (owned_other _ i e) by first [apply Hg|done].
      * intros c. rewrite Ho, bump_lookup. intros Hc.
        destruct (g_own g Hg c) as [y Hy]; [|rewrite Hy; simpl; eauto].
        intros E. by rewrite E in Hc.
    + simpl. rewrite Hid. rewrite map_size_delete_Some by eauto.
      assert (size (entries_by_id (pending g)) <> 0).
      { intros E%map_size_empty_iff. by rewrite E in He. } lia.
  - unfold remove_entry. rewrite He. by rewrite delete_id.
Qed.

Lemma acknowledge_ok g ids :
  group_ok g -> let '(g', n) := acknowledge g ids in
  group_ok g' /\
  entries_by_id (pending g') = foldl (fun m i => delete i m) (entries_by_id (pending g)) ids /\
  n + size (entries_by_id (pending g')) = size (entries_by_id (pending g)) /\
  last_delivered_id g' = last_delivered_id g.
Proof.
  intros [Hg Ht]. unfold acknowledge.
  assert (Hloop : forall m0 n0 g1, group_core g1 ->
    let '(g2, n) := foldl (fun '(g, n) i => let '(g', k) := ack_one g i in (g', n + k)) (g1, n0) m0 in
    group_core g2 /\ entries_by_id (pending g2) = foldl (fun m i => delete i m) (entries_by_id (pending g1)) m0 /\
    n + size (entries_by_id (pending g2)) = n0 + size (entries_by_id (pending g1)) /\
    total_pending g2 = total_pending g1 /\ last_delivered_id g2 = last_delivered_id g1).
  { induction m0 as [|i m0 IH]; intros n0 g1 H1; simpl; [done|].
    pose proof (ack_one_ok g1 i H1) as Ha. destruct (ack_one g1 i) as [g2 k].
    destruct Ha as (H2 & E2 & Hk & Ht2 & Hl2). specialize (IH (n0 + k) g2 H2).
    destruct (foldl _ _ _) as [g3 n]. destruct IH as (H3 & E3 & Hn & Ht3 & Hl3).
    rewrite E2 in E3. split_and!; [done..|lia|congruence|congruence]. }
  specialize (Hloop ids 0 g Hg). destruct (foldl _ (g, 0) ids) as [g1 n].
  destruct Hloop as (H1 & E1 & Hn & Ht1 & Hl1).
  destruct (Nat.ltb_spec 0 n) as [Hpos|Hz].
  - split_and!; [|done..]. split; [by destruct H1|]. unfold total_ok in *. simpl. lia.
  - split_and!; [|done..]. split; [done|]. unfold total_ok in *. lia.
Qed.

(** *** Claiming *)

(** [m'] is [m] where the entries of [ids], all present, went to [c]. *)
Definition moved_to (c : bytes) (ids : list StreamId) (m m' : gmap StreamId PendingEntry) : Prop :=
  dom m' = dom m /\
  (forall i, i ∉ ids -> m' !! i = m !! i) /\
  (forall i, i ∈ ids -> exists e', m' !! i = Some e' /\ pe_consumer e' = c).

Lemma moved_refl c m : moved_to c [] m m.
Proof. split_and!; [done|done|]. by intros i ?%not_elem_of_nil. Qed.

Lemma moved_snoc c ids i e m m1 m2 :
  moved_to c ids m m1 -> is_Some (m1 !! i) -> pe_consumer e = c -> m2 = <[i := e]> m1 ->
  moved_to c (ids ++ [i]) m m2.
Proof.
  intros (Hd & Hout & Hin) [e1 He1] Hc ->. split_and!.
  - rewrite dom_insert_L, <- Hd. apply elem_of_dom_2 in He1. set_solver.
  - intros j. rewrite elem_of_app, list_elem_of_singleton. intros Hj.
    rewrite lookup_insert_ne by naive_solver. apply Hout. naive_solver.
  - intros j. rewrite elem_of_app, list_elem_of_singleton. intros Hj.
    destruct (decide (i = j)) as [<-|Hij]; [rewrite lookup_insert_eq; eauto|].
    rewrite lookup_insert_ne by done. apply Hin. naive_solver.
Qed.

Lemma bump_bump_count m old new (l : bytes -> list StreamId) i c x :
  (forall c x, m !! c = Some x -> consumer_name x = c /\ pending_count x = length (l c)) ->
  (forall c, NoDup (l c)) -> i ∈ l old -> (forall c, i ∈ l c -> c = old) ->
  bump S new (bump (fun n => n - 1) old m) !! c = Some x ->
  consumer_name x = c /\
  pending_count x = length (filter (fun y => y <> i) (l c) ++ (if decide (c = new) then [i] else [])).
Proof.
  intros Hm Hn Hi Hold. rewrite !bump_lookup. destruct (m !! c) as [y|] eqn:E; [|done].
  destruct (Hm c y E) as [Hname Hcount]. simpl.
  assert (Hf : length (filter (fun y => y <> i) (l c)) = if decide (c = old) then pending_count y - 1 else pending_count y).
  { rewrite Hcount. case_decide as Hc; [rewrite Hc; by apply length_filter_ne|].
    rewrite filter_all; [done|]. intros z Hz ->. by apply Hc, Hold. }
  rewrite length_app, Hf. repeat case_decide; intros [= <-]; simpl; split; try done; lia.
Qed.

Lemma claim_one_ok now now_t c idle force g i :
  group_ok g -> is_Some (consumers g !! c) ->
  let '(g', ok) := claim_one now now_t c idle force g i in
  group_ok g' /\ is_Some (consumers g' !! c) /\
  last_delivered_id g' = last_delivered_id g /\
  if ok
  then exists e e', entries_by_id (pending g) !! i = Some e /\
         (force = true \/ (idle <= idle_ms now (last_delivery e))%Z) /\
         pe_consumer e' = c /\ entries_by_id (pending g') = <[i := e']> (entries_by_id (pending g))
  else g' = g.
Proof.
  intros [Hg Ht] Hc. unfold claim_one. destruct (entries_by_id (pending g) !! i) as [e|] eqn:He; [|done].
  destruct (_ && _) eqn:Hidle; [done|].
  destruct (transfer_ok now_t (pending g) i e c (g_pel g Hg) He) as (Hp & Hid & Ho).
  assert (Hi : i ∈ owned (pending g) (pe_consumer e)) by (apply (ok_owned _ (g_pel g Hg)); eauto).
  assert (Hall : forall c', is_Some (consumers g !! c') ->
    is_Some (bump S c (bump (fun n => n - 1) (pe_consumer e) (consumers g)) !! c')).
  { intros c' [x Hx]. rewrite !bump_lookup, Hx. simpl. eauto. }
  split_and!.
  - split.
    + split; simpl; [done| | |].
      * rewrite !bump_size. apply Hg.
      * intros c' x Hx. rewrite Ho. revert Hx. apply bump_bump_count; [apply Hg|apply Hg|done|].
        intros c1 (e1 & He1 & <-)%(ok_owned _ (g_pel g Hg)). congruence.
      * intros c' Hc'. apply Hall. destruct (decide (c' = c)) as [->|Hne]; [done|]. apply (g_own g Hg).
        intros E. apply Hc'. by rewrite Ho, E, decide_False.
    + unfold total_ok in *. simpl. rewrite Ht, Hid. symmetry. by rewrite map_size_insert_Some by eauto.
  - simpl. by apply Hall.
  - done.
  - exists e, (mkPending i c (delivered_at e) (u32_wrap (delivery_count e + 1)) now_t).
    split_and!; [done| |done|exact Hid].
    destruct force; [by left|]. right. simpl in Hidle. lia.
Qed.

Lemma claim_loop_ok now clock c idle force g0 g ids done_ids :
  group_ok g -> is_Some (consumers g !! c) ->
  moved_to c done_ids (entries_by_id (pending g0)) (entries_by_id (pending g)) ->
  let '(g', out) := claim_loop now clock c idle force g ids done_ids in
  group_ok g' /\ moved_to c out (entries_by_id (pending g0)) (entries_by_id (pending g')) /\
  last_delivered_id g' = last_delivered_id g /\
  exists l, out = done_ids ++ l /\ l `sublist_of` ids.
Proof.
  revert g done_ids. induction ids as [|i ids IH]; intros g ds Hg Hc Hm; simpl.
  { split_and!; try done. exists []. by rewrite app_nil_r. }
  pose proof (claim_one_ok now (clock (length ds)) c idle force g i Hg Hc) as H1.
  destruct (claim_one _ _ _ _ _ _ _) as [g' [|]]; destruct H1 as (Hg' & Hc' & Hl & H1).
  - destruct H1 as (e & e' & He & _ & Hown & Hid).
    specialize (IH g' (ds ++ [i]) Hg' Hc' (moved_snoc c ds i e' _ _ _ Hm (mk_is_Some _ _ He) Hown Hid)).
    destruct (claim_loop _ _ _ _ _ _ _ _) as [g2 out]. destruct IH as (? & ? & Hl2 & l & -> & Hsub).
    split_and!; [done|done|congruence|]. exists (i :: l). split; [by rewrite <- app_assoc|by apply sublist_skip].
  - subst g'. specialize (IH g ds Hg Hc Hm). destruct (claim_loop _ _ _ _ _ _ _ _) as [g2 out].
    destruct IH as (? & ? & ? & l & -> & Hsub). split_and!; try done. exists l. split; [done|by apply sublist_cons].
Qed.

Lemma claim_messages_ok now now_c clock g c idle ids force :
  group_ok g -> let '(g', out) := claim_messages now now_c clock g c idle ids force in
  group_ok g' /\ moved_to c out (entries_by_id (pending g)) (entries_by_id (pending g')) /\
  out `sublist_of` ids /\ last_delivered_id g' = last_delivered_id g.
Proof.
  intros Hg. unfold claim_messages. destruct (create_consumer_ok now_c g c Hg) as (H1 & Hp & _ & Hc & Hl).
  pose proof (claim_loop_ok now clock c idle force g (create_consumer now_c g c).1 ids [] H1 Hc) as H2.
  rewrite Hp in H2. specialize (H2 (moved_refl _ _)).
  destruct (claim_loop _ _ _ _ _ _ _ _) as [g' out]. destruct H2 as (? & ? & ? & l & -> & ?).
  split_and!; try done. congruence.
Qed.

(** *** Delivering *)

Lemma add_entries_fresh now c es p :
  pel_ok p -> NoDup (map entry_id es) -> (forall e, e ∈ es -> entries_by_id p !! entry_id e = None) ->
  let p' := foldl (fun p e => add_entry p (delivery now c e)) p es in
  pel_ok p' /\ size (entries_by_id p') = length es + size (entries_by_id p) /\
  (forall c', owned p' c' = owned p c' ++ (if decide (c' = c) then map entry_id es else [])) /\
  (forall i, entries_by_id p' !! i =
     if decide (i ∈ map entry_id es) then Some (mkPending i c now 1 now) else entries_by_id p !! i).
Proof.
  revert p. induction es as [|e es IH]; intros p Hp Hnd Hf; cbn [foldl map].
  - split_and!; [done|done| |].
    + intros c'. case_decide; by rewrite app_nil_r.
    + intros i. destruct (decide _) as [[]%not_elem_of_nil|]; done.
  - apply NoDup_cons in Hnd as [Hne Hnd].
    assert (He : entries_by_id p !! entry_id e = None) by (apply Hf; left).
    destruct (add_entry_fresh p (delivery now c e) Hp He) as [Hp1 Ho1].
    destruct (IH (add_entry p (delivery now c e)) Hp1 Hnd) as (Hp2 & Hsz & Ho2 & Hl2).
    { intros e' He'. simpl. rewrite lookup_insert_ne; [apply Hf; by right|].
      intros E. apply Hne. rewrite E. apply list_elem_of_fmap. eauto. }
    split_and!; [done| | |].
    + rewrite Hsz. simpl. rewrite map_size_insert_None by done. lia.
    + intros c'. rewrite Ho2, Ho1. simpl. case_decide; [by rewrite <- app_assoc|done].
    + intros i. rewrite Hl2. simpl. destruct (decide (i = entry_id e)) as [->|Hi].
      * rewrite decide_False by done. rewrite lookup_insert_eq. by rewrite decide_True by left.
      * rewrite lookup_insert_ne by done.
        destruct (decide (i ∈ map entry_id es)); [rewrite decide_True by (by right); done|].
        rewrite decide_False; [done|]. rewrite elem_of_cons. naive_solver.
Qed.

Lemma add_pending_core now now_c g c es :
  group_ok g -> NoDup (map entry_id es) ->
  (forall e, e ∈ es -> entries_by_id (pending g) !! entry_id e = None) ->
  let '(g', out) := add_pending now now_c g c es in
  group_ok g' /\ out = es /\
  (forall i, entries_by_id (pending g') !! i =
     if decide (i ∈ map entry_id es) then Some (mkPending i c now 1 now)
     else entries_by_id (pending g) !! i) /\
  last_delivered_id g' =
    match last es with
    | Some e => if sid_lt (last_delivered_id g) (entry_id e) then entry_id e else last_delivered_id g
    | None => last_delivered_id g
    end.
Proof.
  intros Hg Hnd Hf. unfold add_pending.
  destruct (create_consumer_ok now_c g c Hg) as ([H1 Ht1] & Hp & Ht & [x Hx] & Hl).
  set (g1 := (create_consumer now_c g c).1) in *. rewrite <- Hp in Hf.
  destruct (add_entries_fresh now c es (pending g1) (g_pel g1 H1) Hnd Hf) as (Hp2 & Hsz & Ho & Hlk).
  set (p2 := foldl _ _ _) in *. cbn [consumers set_pending]. rewrite Hx.
  match goal with |- context [set_counts ?a ?b ?d] => set (g4 := set_counts a b d) end.
  assert (H4 : group_ok g4).
  { split.
    - split; simpl; [done| | |].
      + rewrite map_size_insert_Some by eauto. apply H1.
      + intros c' y. rewrite Ho, length_app. rewrite lookup_insert_Some. intros [[<- <-]|[Hc' Hy]]; simpl.
        * rewrite decide_True by done. destruct (g_cons g1 H1 c x Hx) as [-> ->].
          split; [done|]. by rewrite length_map.
        * rewrite decide_False by done. simpl. rewrite Nat.add_0_r. by apply H1.
      + intros c'. rewrite Ho. intros Hne. destruct (decide (c' = c)) as [->|Hc'].
        * by rewrite lookup_insert_eq.
        * rewrite lookup_insert_ne by done. apply (g_own g1 H1). by rewrite app_nil_r in Hne.
    - unfold total_ok in *. simpl. rewrite Hsz, Ht1. lia. }
  assert (Hl4 : last_delivered_id g4 = last_delivered_id g) by done.
  rewrite <- Hp, Hl4 in *. destruct (last es) as [e|]; [destruct (sid_lt _ _)|]; split_and!;
    try done; by apply set_id_ok.
Qed.

Lemma auto_claim_ok now1 now2 now_c clock g c idle start count :
  group_ok g -> let '(g', (out, next)) := auto_claim now1 now2 now_c clock g c idle start count in
  group_ok g' /\ moved_to c out (entries_by_id (pending g)) (entries_by_id (pending g')) /\
  length out <= count /\ last_delivered_id g' = last_delivered_id g /\
  (forall i, i ∈ out -> (packed start < packed i)%Z) /\
  next = match last out with
         | Some l => sid (sid_millis l) (u64_wrap (sid_seq l + 1))
         | None => sid 0 0
         end.
Proof.
  intros Hg. unfold auto_claim.
  set (ids := map pe_id _).
  pose proof (claim_messages_ok now2 now_c clock g c idle ids false Hg) as Hc.
  destruct (claim_messages _ _ _ _ _ _ _ _) as [g' out]. destruct Hc as (Hg' & Hm & Hsub & Hl).
  split_and!; try done.
  - apply sublist_length in Hsub. unfold ids in Hsub. rewrite length_map, length_take in Hsub. lia.
  - intros i Hi. eapply elem_of_sublist in Hi; [|exact Hsub].
    apply list_elem_of_fmap in Hi as (e & -> & He). apply elem_of_take in He as (n & He & _).
    apply list_elem_of_lookup_2, list_elem_of_filter in He as [_ He].
    apply elem_of_btree_after in He as (k & Hk & Hlt).
    by rewrite (ok_ids _ (g_pel g (proj1 Hg)) _ _ Hk).
Qed.
