(* ===== verification/ConsumerGroupSpec.v ===== *)
(** * Properties of the consumer groups

    The life of a group as a step relation, its invariant by induction on the
    steps, and what acknowledging, claiming, auto-claiming and XPENDING answer;
    then the behaviours that differ from what the commands promise. *)

From S2P Require Import Prelude SortedVec StreamId BTree ConsumerGroups ConsumerGroupProofs.

Open Scope nat_scope.

(** One method call; [add_pending] delivers ids that are not pending. *)
Inductive group_step (g : ConsumerGroup) : ConsumerGroup -> Prop :=
  | step_create now n : group_step g (create_consumer now g n).1
  | step_delete n : group_step g (delete_consumer g n).1
  | step_deliver now now_c c es :
      NoDup (map entry_id es) ->
      (forall e, e ∈ es -> entries_by_id (pending g) !! entry_id e = None) ->
      group_step g (add_pending now now_c g c es).1
  | step_ack ids : group_step g (acknowledge g ids).1
  | step_claim now now_c clock c idle ids force :
      group_step g (claim_messages now now_c clock g c idle ids force).1
  | step_auto now1 now2 now_c clock c idle start count :
      group_step g (auto_claim now1 now2 now_c clock g c idle start count).1
  | step_set_id i : group_step g (set_id g i).

Lemma group_step_ok g g' : group_ok g -> group_step g g' -> group_ok g'.
Proof.
  intros Hg [now n|n|now now_c c es Hn Hf|ids|now now_c clock c idle ids force
            |now1 now2 now_c clock c idle start count|i].
  - by apply create_consumer_ok.
  - pose proof (delete_consumer_ok g n Hg). destruct (delete_consumer g n). tauto.
  - pose proof (add_pending_core now now_c g c es Hg Hn Hf). destruct (add_pending _ _ _ _ _). tauto.
  - pose proof (acknowledge_ok g ids Hg). destruct (acknowledge g ids). tauto.
  - pose proof (claim_messages_ok now now_c clock g c idle ids force Hg) as H.
    destruct (claim_messages _ _ _ _ _ _ _ _). tauto.
  - pose proof (auto_claim_ok now1 now2 now_c clock g c idle start count Hg) as H.
    destruct (auto_claim _ _ _ _ _ _ _ _ _) as [? [? ?]]. tauto.
  - by apply set_id_ok.
Qed.

(** Which ids a claim takes. *)
Definition claimable (now idle : Z) (force : bool) (m : gmap StreamId PendingEntry) (i : StreamId) : Prop :=
  exists e, m !! i = Some e /\ (force = true \/ (idle <= idle_ms now (last_delivery e))%Z).

#[global] Instance claimable_dec now idle force m i : Decision (claimable now idle force m i).
Proof.
  destruct (m !! i) as [e|] eqn:E.
  - destruct (decide (force = true \/ (idle <= idle_ms now (last_delivery e))%Z)) as [H|H].
    + left. by exists e.
    + right. intros (e' & He & H'). rewrite E in He. injection He as <-. by apply H.
  - right. intros (e' & He & _). by rewrite E in He.
Defined.

Lemma claim_one_claimable now now_t c idle force g i :
  (claim_one now now_t c idle force g i).2 = true <-> claimable now idle force (entries_by_id (pending g)) i.
Proof.
  unfold claim_one, claimable. destruct (entries_by_id (pending g) !! i) as [e|]; [|naive_solver].
  destruct force; simpl; [naive_solver|].
  destruct (Z.ltb_spec (idle_ms now (last_delivery e)) idle); simpl.
  - split; [done|]. intros (e' & [= <-] & [?|?]); [done|lia].
  - split; [|done]. intros _. exists e. auto.
Qed.

Lemma claim_loop_out now clock c idle force g0 g ids ds :
  group_ok g -> is_Some (consumers g !! c) -> NoDup ids ->
  (forall i, i ∈ ids -> entries_by_id (pending g) !! i = entries_by_id (pending g0) !! i) ->
  (claim_loop now clock c idle force g ids ds).2 =
    ds ++ filter (claimable now idle force (entries_by_id (pending g0))) ids.
Proof.
  revert g ds. induction ids as [|i ids IH]; intros g ds Hg Hc Hnd Hsame; simpl; [by rewrite app_nil_r|].
  apply NoDup_cons in Hnd as [Hi Hnd].
  pose proof (claim_one_ok now (clock (length ds)) c idle force g i Hg Hc) as H1.
  pose proof (claim_one_claimable now (clock (length ds)) c idle force g i) as H2.
  assert (Hcl : claimable now idle force (entries_by_id (pending g)) i <->
                claimable now idle force (entries_by_id (pending g0)) i).
  { unfold claimable. by rewrite (Hsame i ltac:(left)). }
  destruct (claim_one _ _ _ _ _ _ _) as [g' [|]]; destruct H1 as (Hg' & Hc' & _ & H1); simpl in H2.
  - apply proj1 in H2. specialize (H2 eq_refl). rewrite IH; try done.
    + rewrite filter_cons_True by tauto. by rewrite <- app_assoc.
    + intros j Hj. destruct H1 as (e & e' & _ & _ & _ & ->). rewrite lookup_insert_ne by (by intros ->).
      apply Hsame. by right.
  - subst g'. rewrite filter_cons_False by (rewrite <- Hcl, <- H2; done). apply IH; try done.
    intros j Hj. apply Hsame. by right.
Qed.

Lemma owned_size p c : pel_ok p ->
  length (owned p c) = size (filter (fun x => pe_consumer x.2 = c) (entries_by_id p)).
Proof.
  intros Hp. rewrite <- length_map_to_list, <- (length_fmap fst). apply Permutation_length.
  apply NoDup_Permutation; [apply Hp|apply NoDup_fst_map_to_list|].
  intros i. rewrite (ok_owned p Hp), list_elem_of_fmap. split.
  - intros (e & He & Hc). exists (i, e). split; [done|]. apply elem_of_map_to_list, map_lookup_filter_Some. done.
  - intros ([j e] & -> & Hx%elem_of_map_to_list). apply map_lookup_filter_Some in Hx as [? ?]. eauto.
Qed.

Lemma btree_values_filter {V} (m : gmap StreamId V) (P : StreamId * V -> Prop) (Q : V -> Prop)
    `{!forall x, Decision (P x)} `{!forall x, Decision (Q x)} :
  (forall i v, m !! i = Some v -> (P (i, v) <-> Q v)) ->
  (filter P (btree_items m)).*2 = filter Q (btree_values m).
Proof.
  intros HPQ. unfold btree_values.
  assert (Hall : forall x, x ∈ btree_items m -> (P x <-> Q x.2)).
  { intros [i v] Hx%elem_of_btree_items. by apply HPQ. }
  induction (btree_items m) as [|x l IH]; [done|]. rewrite !filter_cons, fmap_cons, filter_cons.
  assert (Hx : P x <-> Q x.2) by (apply Hall; left).
  rewrite (decide_ext (P x) (Q x.2)) by done.
  case_decide; [rewrite fmap_cons; f_equal|]; apply IH; intros; apply Hall; by right.
Qed.

Lemma NoDup_omap_id {A C} (f : C -> A) (g : A -> option C) l :
  (forall a c, g a = Some c -> f c = a) -> NoDup l -> NoDup (omap g l).
Proof.
  intros Hf. induction 1 as [|a l Ha Hn IH]; simpl; [constructor|].
  destruct (g a) as [c|] eqn:E; [|done]. constructor; [|done].
  intros (a' & Ha' & E')%list_elem_of_omap. apply Hf in E. apply Hf in E'. congruence.
Qed.

Lemma owned_values p c : pel_ok p ->
  omap (fun i => entries_by_id p !! i) (owned p c) ≡ₚ
  filter (fun x => pe_consumer x = c) (btree_values (entries_by_id p)).
Proof.
  intros Hp. assert (Hid : forall i e, entries_by_id p !! i = Some e -> pe_id e = i) by apply Hp.
  apply NoDup_Permutation.
  - apply NoDup_omap_id with (f := pe_id) ; [|apply Hp]. intros i e He. by apply Hid.
  - apply NoDup_filter. apply (NoDup_fmap_1 pe_id).
    assert (E : pe_id <$> btree_values (entries_by_id p) = (btree_items (entries_by_id p)).*1).
    { unfold btree_values. rewrite <- list_fmap_compose. apply list_fmap_ext.
      intros n [i v] Hx. apply list_elem_of_lookup_2, elem_of_btree_items in Hx. by apply Hid. }
    rewrite E, btree_items_perm. apply NoDup_fst_map_to_list.
  - intros v. rewrite list_elem_of_omap, list_elem_of_filter. unfold btree_values. rewrite list_elem_of_fmap. split.
    + intros (i & Hi & He). apply (ok_owned p Hp) in Hi as (e' & He' & Hc). simplify_eq.
      split; [done|]. exists (i, e'). split; [done|]. by apply elem_of_btree_items.
    + intros (Hc & [i e'] & -> & He%elem_of_btree_items). exists i. split; [|done].
      apply (ok_owned p Hp). eauto.
Qed.

(** ** Properties *)

(** C10. The invariant of a consumer group: from its creation on, after any
    sequence of method calls in which deliveries are of ids not pending, the two
    indexes of the pending list agree, its cached minimum and maximum are
    those of its ids, [total_pending] and [consumer_count] are the sizes they
    stand for, and every consumer's [pending_count] is the number of entries it
    owns. *)
Theorem group_invariant now n i g : rtc group_step (group_new now n i) g -> group_ok g.
Proof.
  intros Hr. assert (Hi : group_ok (group_new now n i)) by apply group_new_ok.
  induction Hr as [g|g1 g2 g3 Hs Hr IH]; [done|]. by eapply IH, group_step_ok.
Qed.

(** Acknowledging removes exactly the given ids from the pending entries and
    answers how many of them were pending, each counted once. *)
Theorem acknowledge_exact g ids :
  group_ok g -> let '(g', n) := acknowledge g ids in
  (forall i, entries_by_id (pending g') !! i = if decide (i ∈ ids) then None else entries_by_id (pending g) !! i) /\
  n + size (entries_by_id (pending g')) = size (entries_by_id (pending g)) /\ group_ok g'.
Proof.
  intros Hg. pose proof (acknowledge_ok g ids Hg) as H. destruct (acknowledge g ids) as [g' n].
  destruct H as (? & E & ? & _). split_and!; [|done..]. intros i. rewrite E. apply lookup_foldl_delete.
Qed.

(** Claiming distinct ids takes exactly those that are pending and, unless
    forced, idle for at least the given time; it gives them to the new consumer
    and leaves every other pending entry as it was. *)
Theorem claim_messages_exact now now_c clock g c idle ids force :
  group_ok g -> NoDup ids ->
  let '(g', out) := claim_messages now now_c clock g c idle ids force in
  out = filter (claimable now idle force (entries_by_id (pending g))) ids /\
  moved_to c out (entries_by_id (pending g)) (entries_by_id (pending g')) /\ group_ok g'.
Proof.
  intros Hg Hnd. pose proof (claim_messages_ok now now_c clock g c idle ids force Hg) as H.
  destruct (create_consumer_ok now_c g c Hg) as (H1 & Hp & _ & Hc & _).
  pose proof (claim_loop_out now clock c idle force g (create_consumer now_c g c).1 ids [] H1 Hc Hnd) as Ho.
  unfold claim_messages in *. destruct (claim_loop _ _ _ _ _ _ _ _) as [g' out].
  split; [|tauto]. apply Ho. by rewrite Hp.
Qed.

(** The summary of XPENDING is exact: the number of pending entries, their
    smallest and greatest id, and for each consumer that has any, how many of
    them are its own. *)
Theorem pending_info_exact g : group_ok g ->
  info_count (get_pending_info g) = size (entries_by_id (pending g)) /\
  info_min_id (get_pending_info g) = btree_min (entries_by_id (pending g)) /\
  info_max_id (get_pending_info g) = btree_max (entries_by_id (pending g)) /\
  (forall c, info_consumers (get_pending_info g) !! c =
    let n := size (filter (fun x => pe_consumer x.2 = c) (entries_by_id (pending g))) in
    if decide (0 < n) then Some n else None).
Proof.
  intros [Hg Ht]. split_and!; [done|apply Hg|apply Hg|]. intros c. cbv zeta.
  rewrite <- (owned_size (pending g) c (g_pel g Hg)). simpl. rewrite lookup_omap.
  destruct (consumers g !! c) as [x|] eqn:E; simpl.
  - destruct (g_cons g Hg c x E) as [_ ->]. destruct (Nat.ltb_spec 0 (length (owned (pending g) c)));
      case_decide; done || lia.
  - rewrite decide_False; [done|]. intros Hlt. destruct (g_own g Hg c) as [y Hy]; [|congruence].
    by destruct (owned (pending g) c); [simpl in Hlt; lia|].
Qed.

(** XAUTOCLAIM never takes the entry at its start id, however long it has
    been idle, because the scan is exclusive; yet the cursor it answers is the
    id right after the last claimed one, so the entry at the cursor is passed
    over by the next call. *)
Theorem auto_claim_skips_start now1 now2 now_c clock g c idle start count :
  group_ok g ->
  let '(g', (out, next)) := auto_claim now1 now2 now_c clock g c idle start count in
  (start ∉ out) /\ entries_by_id (pending g') !! start = entries_by_id (pending g) !! start /\
  (forall l, last out = Some l -> next = sid (sid_millis l) (u64_wrap (sid_seq l + 1))).
Proof.
  intros Hg. pose proof (auto_claim_ok now1 now2 now_c clock g c idle start count Hg) as H.
  destruct (auto_claim _ _ _ _ _ _ _ _ _) as [g' [out next]].
  destruct H as (_ & (_ & Hout & _) & _ & _ & Hlt & ->).
  assert (Hn : start ∉ out) by (intros Hi; specialize (Hlt _ Hi); lia).
  split_and!; [done|by apply Hout|]. intros l Hl. by rewrite Hl.
Qed.

(** The detail of XPENDING.  Without a consumer it lists the first [n] pending
    entries of the id range in id order, and panics when the range is crossed;
    with one it lists the first [n] entries of that consumer whatever the
    range is. *)
Theorem pending_range_detail now g s e n c :
  group_ok g ->
  let pick l := Ok (map (fun x => {| pei_id := pe_id x; pei_consumer := pe_consumer x;
                                     pei_idle_time := idle_ms now (last_delivery x);
                                     pei_delivery_count := delivery_count x |}) (take n l)) in
  get_pending_range now g (Some s) (Some e) n None =
    (if decide (packed s <= packed e)%Z
     then pick (filter (fun x => packed s <= packed (pe_id x) <= packed e)%Z
                  (btree_values (entries_by_id (pending g))))
     else Panic) /\
  (exists own, own ≡ₚ filter (fun x => pe_consumer x = c) (btree_values (entries_by_id (pending g))) /\
    get_pending_range now g (Some s) (Some e) n (Some c) = pick own).
Proof.
  intros Hg pick. split.
  - unfold get_pending_range, pel_get_range, btree_range. simpl.
    destruct (Z.ltb_spec (packed e) (packed s)); case_decide; try lia; [done|]. simpl. unfold pick.
    do 3 f_equal. apply btree_values_filter. intros i x Hx. by rewrite (ok_ids _ (g_pel g (proj1 Hg)) _ _ Hx).
  - exists (omap (fun i => entries_by_id (pending g) !! i) (owned (pending g) c)). split; [by apply owned_values, Hg|].
    unfold get_pending_range, pel_get_range, owned, owned_in.
    by destruct (entries_by_consumer (pending g) !! c).
Qed.

(** *** Concrete groups *)

Definition ms (n : Z) : Z := (n * 1000000)%Z.
Definition entry (i : StreamId) : StreamEntry := {| entry_id := i; entry_fields := ∅ |}.
Definition sample_group : ConsumerGroup :=
  (add_pending (ms 10) (ms 10) (group_new 0 (B "g") (sid 0 0)) (B "alice")
     [entry (sid 1 0); entry (sid 1 1); entry (sid 2 0)]).1.

Lemma sample_entries_fresh :
  NoDup (map entry_id [entry (sid 1 0); entry (sid 1 1); entry (sid 2 0)]).
Proof. by apply (bool_decide_unpack _). Qed.

Lemma sample_group_reachable : rtc group_step (group_new 0 (B "g") (sid 0 0)) sample_group.
Proof. apply rtc_once. constructor; [apply sample_entries_fresh|]. by intros e _. Qed.

Lemma sample_group_ok : group_ok sample_group.
Proof.
  eapply group_step_ok; [apply (group_new_ok 0 (B "g") (sid 0 0))|].
  constructor; [apply sample_entries_fresh|]. by intros e _.
Qed.

(** Delivering an id that is already pending (XREADGROUP with an explicit id)
    overwrites its entry but leaves it in the index and the count of the first
    consumer: after the only pending message is acknowledged, a consumer and
    the group still count one. *)
Theorem redelivery_breaks_counts :
  let g := group_new 0 (B "g") (sid 0 0) in
  let g1 := (add_pending (ms 1) (ms 1) g (B "alice") [entry (sid 1 0)]).1 in
  let g2 := (add_pending (ms 2) (ms 2) g1 (B "bob") [entry (sid 1 0)]).1 in
  let g3 := (acknowledge g2 [sid 1 0]).1 in
  entries_by_id (pending g3) = ∅ /\ total_pending g3 = 1 /\
  option_map pending_count (consumers g3 !! B "alice") = Some 1 /\
  entries_by_consumer (pending g3) !! B "alice" = Some [sid 1 0].
Proof. by vm_compute. Qed.

Lemma group_invariant_witness : total_pending sample_group = 3 /\ group_ok sample_group.
Proof. split; [reflexivity|]. exact (group_invariant 0 (B "g") (sid 0 0) _ sample_group_reachable). Defined.

Lemma acknowledge_exact_witness :
  let '(g', n) := acknowledge sample_group [sid 1 1; sid 9 9; sid 1 1] in n = 1 /\ group_ok g'.
Proof.
  pose proof (acknowledge_exact sample_group [sid 1 1; sid 9 9; sid 1 1] sample_group_ok) as H.
  assert (E : (acknowledge sample_group [sid 1 1; sid 9 9; sid 1 1]).2 = 1) by (vm_compute; reflexivity).
  destruct (acknowledge _ _) as [g' n]. exact (conj E (proj2 (proj2 H))).
Defined.

Lemma two_ids_distinct : NoDup [sid 2 0; sid 3 0].
Proof. by apply (bool_decide_unpack _). Qed.

Lemma claim_messages_exact_witness :
  let '(g', out) := claim_messages (ms 60) (ms 60) (fun _ => ms 60) sample_group (B "bob") 50 [sid 2 0; sid 3 0] false in
  out = [sid 2 0] /\ group_ok g'.
Proof.
  pose proof (claim_messages_exact (ms 60) (ms 60) (fun _ => ms 60) sample_group (B "bob") 50
                [sid 2 0; sid 3 0] false sample_group_ok two_ids_distinct) as H.
  assert (E : (claim_messages (ms 60) (ms 60) (fun _ => ms 60) sample_group (B "bob") 50
                [sid 2 0; sid 3 0] false).2 = [sid 2 0]) by (vm_compute; reflexivity).
  destruct (claim_messages _ _ _ _ _ _ _ _) as [g' out]. exact (conj E (proj2 (proj2 H))).
Defined.

Lemma pending_info_exact_witness :
  info_count (get_pending_info sample_group) = 3 /\ info_consumers (get_pending_info sample_group) !! B "alice" = Some 3.
Proof.
  destruct (pending_info_exact sample_group sample_group_ok) as (H1 & _ & _ & H2).
  split; [exact H1|]. rewrite H2. vm_compute. reflexivity.
Defined.

Lemma auto_claim_skips_start_witness :
  let '(g', (out, next)) := auto_claim (ms 60) (ms 60) (ms 60) (fun _ => ms 60) sample_group (B "bob") 0 (sid 1 1) 10 in
  out = [sid 2 0] /\ sid 1 1 ∉ out.
Proof.
  pose proof (auto_claim_skips_start (ms 60) (ms 60) (ms 60) (fun _ => ms 60) sample_group (B "bob") 0 (sid 1 1) 10
                sample_group_ok) as H.
  assert (E : (auto_claim (ms 60) (ms 60) (ms 60) (fun _ => ms 60) sample_group (B "bob") 0 (sid 1 1) 10).2.1 = [sid 2 0])
    by (vm_compute; reflexivity).
  destruct (auto_claim _ _ _ _ _ _ _ _ _) as [g' [out next]]. exact (conj E (proj1 H)).
Defined.

Lemma pending_range_detail_witness :
  get_pending_range 0 sample_group (Some (sid 5 0)) (Some (sid 1 0)) 10 None = Panic.
Proof. exact (proj1 (pending_range_detail 0 sample_group (sid 5 0) (sid 1 0) 10 (B "alice") sample_group_ok)). Defined.
