(* ===== verification/Stream.v ===== *)
(** * Streams (src/storage/stream.rs)

    [StreamData], a vector of entries sorted by id with the last id and a
    memory count, and [Stream], which keeps beside it the lock-free counters
    and the consumer groups.  A method takes the mutex for its whole body, so
    it is one function on the stream.  Counters are [u64] ([usize] on the
    target) with their wrap-around; the sizes of the Rust structures are
    parameters.  The fields of an entry are a [HashMap], here a [gmap]. *)

From S2P Require Import Prelude SortedVec StreamId BTree ConsumerGroups.

Open Scope Z_scope.

Record Stream := mkStream {
  entries : list StreamEntry;
  last_id : StreamId;
  data_memory_usage : Z;
  last_id_millis : Z;
  last_id_seq : Z;
  stream_length : Z;
  stream_memory_usage : Z;
  consumer_groups : ConsumerGroupManager;
}.

Section stream.
(** [size_of::<StreamEntry>()], [size_of::<StreamData>()], [size_of::<Stream>()] *)
Context (entry_size data_size stream_size : Z).

(** The sum of [k.len() + v.len() + 48] over the fields. *)
Definition fields_size (f : gmap bytes bytes) : Z :=
  foldr (fun kv acc => Z.of_nat (length kv.1) + Z.of_nat (length kv.2) + 48 + acc) 0 (map_to_list f).

Definition calculate_entry_size (e : StreamEntry) : Z := 16 + entry_size + fields_size (entry_fields e).

Definition entries_size (l : list StreamEntry) : Z :=
  foldr (fun e acc => calculate_entry_size e + acc) 0 l.

Definition stream_new : Stream :=
  mkStream [] (sid 0 0) data_size 0 0 0 stream_size ∅.

(** [fetch_add] and [fetch_sub] wrap around. *)
Definition with_entries (s : Stream) (l : list StreamEntry) (dlen dmem : Z) : Stream :=
  mkStream l (last_id s) (u64_wrap (data_memory_usage s + dmem)) (last_id_millis s) (last_id_seq s)
    (u64_wrap (stream_length s + dlen)) (u64_wrap (stream_memory_usage s + dmem)) (consumer_groups s).

Definition with_last (s : Stream) (i : StreamId) (ms sq : Z) : Stream :=
  mkStream (entries s) i (data_memory_usage s) ms sq (stream_length s) (stream_memory_usage s)
    (consumer_groups s).

Definition with_groups (s : Stream) (m : ConsumerGroupManager) : Stream :=
  mkStream (entries s) (last_id s) (data_memory_usage s) (last_id_millis s) (last_id_seq s)
    (stream_length s) (stream_memory_usage s) m.

(** [add_auto] on a thread with clock cache [c], at system time [now]. *)
Definition add_auto (now : Z) (weak1 weak2 : bool) (c : clock_cache) (s : Stream) (f : gmap bytes bytes)
    : Stream * clock_cache * StreamId :=
  let '(now_millis, c') := get_cached_millis now c in
  let '(i, ms, sq) := generate_next_atomic now_millis weak1 weak2 (last_id_millis s) (last_id_seq s) in
  let size := 16 + entry_size + fields_size f in
  let s1 := with_entries s (entries s ++ [{| entry_id := i; entry_fields := f |}]) 1 size in
  (with_last s1 i ms sq, c', i).

Definition err_smaller : bytes :=
  B "The ID specified in XADD is equal or smaller than the target stream top item".
Definition err_exists : bytes := B "The ID specified in XADD already exists".

Definition add_with_id (s : Stream) (i : StreamId) (f : gmap bytes bytes) : Stream * (bytes + unit) :=
  if sid_le i (last_id s) then (s, inl err_smaller)
  else
    match binary_search entry_key (entries s) (packed i) with
    | SFound _ => (s, inl err_exists)
    | SMissing _ =>
        let e := {| entry_id := i; entry_fields := f |} in
        let s1 := with_entries s (entries s ++ [e]) 1 (calculate_entry_size e) in
        (with_last s1 i (sid_millis i) (sid_seq i), inr tt)
    end.

(** The loop over indices: stop at [count] results, skip an index out of range. *)
Fixpoint collect (l : list StreamEntry) (count : option nat) (idxs : list nat) (acc : list StreamEntry)
    : list StreamEntry :=
  match idxs with
  | [] => acc
  | i :: idxs' =>
      if (match count with Some n => (n <=? length acc)%nat | None => false end) then acc
      else
        match l !! i with
        | Some e => collect l count idxs' (acc ++ [e])
        | None => collect l count idxs' acc
        end
  end.

(** [lo..=hi] *)
Definition inclusive (lo hi : nat) : list nat := seq lo (S hi - lo).

Definition range (s : Stream) (start end_ : StreamId) (count : option nat) (reverse : bool)
    : list StreamEntry :=
  let start_idx := search_index (binary_search entry_key (entries s) (packed start)) in
  let end_idx :=
    match binary_search entry_key (entries s) (packed end_) with
    | SFound i => i
    | SMissing i => if (0 <? i)%nat then (i - 1)%nat else O
    end in
  let idxs := inclusive start_idx (Nat.min end_idx (length (entries s) - 1)) in
  collect (entries s) count (if reverse then rev idxs else idxs) [].

Definition range_after (s : Stream) (after_id : StreamId) (count : option nat) : list StreamEntry :=
  let start_idx :=
    match binary_search entry_key (entries s) (packed after_id) with
    | SFound i => S i
    | SMissing i => i
    end in
  let max_count := default (length (entries s)) count in
  collect (entries s) (Some max_count) (seq start_idx (length (entries s) - start_idx)) [].

Definition stream_len (s : Stream) : Z := stream_length s.
Definition stream_is_empty (s : Stream) : bool := stream_len s =? 0.
Definition first_entry (s : Stream) : option StreamEntry := head (entries s).
Definition last_entry (s : Stream) : option StreamEntry := last (entries s).

Definition trim_by_count (s : Stream) (max_count : nat) : Stream * nat :=
  if (length (entries s) <=? max_count)%nat then (s, O)
  else
    let to_remove := (length (entries s) - max_count)%nat in
    let memory_to_free := entries_size (take to_remove (entries s)) in
    (with_entries s (drop to_remove (entries s)) (- Z.of_nat to_remove) (- memory_to_free), to_remove).

Definition trim_by_min_id (s : Stream) (min_id : StreamId) : Stream * nat :=
  let split_idx := search_index (binary_search entry_key (entries s) (packed min_id)) in
  match split_idx with
  | O => (s, O)
  | _ =>
      let memory_to_free := entries_size (take split_idx (entries s)) in
      (with_entries s (drop split_idx (entries s)) (- Z.of_nat split_idx) (- memory_to_free), split_idx)
  end.

(** [Vec::dedup] *)
Fixpoint dedup (l : list StreamId) : list StreamId :=
  match l with
  | x :: t =>
      match dedup t with
      | y :: t' => if decide (x = y) then y :: t' else x :: y :: t'
      | [] => [x]
      end
  | [] => []
  end.

Definition id_le (a b : StreamId) : Prop := packed a <= packed b.

#[local] Instance id_le_dec a b : Decision (id_le a b).
Proof. unfold id_le. apply _. Defined.

(** The loop of [delete], on the entries, the number deleted and the bytes freed. *)
Definition delete_loop (ids : list StreamId) (l : list StreamEntry) : list StreamEntry * nat * Z :=
  foldl (fun '(l, n, freed) i =>
    match binary_search entry_key l (packed i) with
    | SFound k =>
        match l !! k with
        | Some e => (delete k l, S n, freed + calculate_entry_size e)
        | None => (l, n, freed)
        end
    | SMissing _ => (l, n, freed)
    end) (l, O, 0) ids.

Definition stream_delete (s : Stream) (ids : list StreamId) : Stream * nat :=
  let sorted_ids := dedup (merge_sort id_le ids) in
  let '(l, deleted, freed) := delete_loop (rev sorted_ids) (entries s) in
  if (0 <? deleted)%nat then (with_entries s l (- Z.of_nat deleted) (- freed), deleted) else (s, deleted).

(** The entry found by binary search. *)
Definition find_entry (s : Stream) (i : StreamId) : option StreamEntry :=
  match binary_search entry_key (entries s) (packed i) with
  | SFound k => entries s !! k
  | SMissing _ => None
  end.

Definition get_entries (s : Stream) (ids : list StreamId) : list (option StreamEntry) :=
  map (find_entry s) ids.

Definition stream_clear (s : Stream) : Stream :=
  mkStream [] (sid 0 0) data_size 0 0 0 stream_size (consumer_groups s).

(** *** Consumer groups of a stream *)

Definition no_group (name : bytes) : bytes := B "NOGROUP No such consumer group " ++ name ++ B " for stream".

Definition create_consumer_group (now : Z) (s : Stream) (name : bytes) (start_id : StreamId)
    : Stream * (bytes + unit) :=
  let '(m, r) := create_group now (consumer_groups s) name start_id in (with_groups s m, r).

Definition destroy_consumer_group (s : Stream) (name : bytes) : Stream * bool :=
  let '(m, r) := destroy_group (consumer_groups s) name in (with_groups s m, r).

Definition get_consumer_group (s : Stream) (name : bytes) : option ConsumerGroup :=
  get_group (consumer_groups s) name.

Definition put_group (s : Stream) (name : bytes) (g : ConsumerGroup) : Stream :=
  with_groups s (<[name := g]> (consumer_groups s)).

Definition read_group (now now_c : Z) (s : Stream) (name consumer : bytes) (after_id : StreamId)
    (count : option nat) (noack : bool) : Stream * (bytes + list StreamEntry) :=
  match get_consumer_group s name with
  | None => (s, inl (no_group name))
  | Some g =>
      let es :=
        if decide (after_id = sid_max) then range_after s (get_last_id g) count
        else range_after s after_id count in
      if negb noack && negb (bool_decide (es = [])) then
        let '(g', pending_entries) := add_pending now now_c g consumer es in
        (put_group s name g', inr pending_entries)
      else (s, inr es)
  end.

Definition acknowledge_messages (s : Stream) (name : bytes) (ids : list StreamId)
    : Stream * (bytes + nat) :=
  match get_consumer_group s name with
  | None => (s, inl (no_group name))
  | Some g => let '(g', n) := acknowledge g ids in (put_group s name g', inr n)
  end.

Definition stream_claim_messages (now now_c : Z) (clock : nat -> Z) (s : Stream) (name consumer : bytes)
    (min_idle_ms : Z) (ids : list StreamId) (force : bool) : Stream * (bytes + list StreamEntry) :=
  match get_consumer_group s name with
  | None => (s, inl (no_group name))
  | Some g =>
      let '(g', claimed_ids) := claim_messages now now_c clock g consumer min_idle_ms ids force in
      (put_group s name g', inr (omap (find_entry s) claimed_ids))
  end.

Definition auto_claim_messages (now1 now2 now_c : Z) (clock : nat -> Z) (s : Stream) (name consumer : bytes)
    (min_idle_ms : Z) (start_id : StreamId) (count : nat)
    : Stream * (bytes + list StreamEntry * StreamId) :=
  match get_consumer_group s name with
  | None => (s, inl (no_group name))
  | Some g =>
      let '(g', (claimed_ids, next_start)) :=
        auto_claim now1 now2 now_c clock g consumer min_idle_ms start_id count in
      (put_group s name g', inr (omap (find_entry s) claimed_ids, next_start))
  end.
End stream.
