(* ===== verification/StreamProofs.v ===== *)
(** * Correctness of the streams

    [stream_ok]: the entries are strictly sorted by id, none is above the last
    id, the lock-free copies of the last id are that id, and the counters are
    the number of entries and their sizes.  Binary searches and index loops
    are turned into [filter], [take] and [drop] of the entries. *)

From S2P Require Import Prelude SortedVec StreamId BTree ConsumerGroups ConsumerGroupProofs Stream.

Open Scope Z_scope.

(** ** Wrapped counters *)

Lemma u64_wrap_add a b : u64_wrap (u64_wrap a + b) = u64_wrap (a + b).
Proof. unfold u64_wrap. by rewrite Zplus_mod_idemp_l. Qed.

(** ** Positions in a sorted vector *)

Section positions.
Context {A : Type} (key : A -> Z).
Implicit Types l : list A.

Lemma rank_take l n x : sorted key l -> rank key (take n l) x = Nat.min (rank key l x) n.
Proof.
  intros Hs. apply rank_char; [by apply sorted_take| |].
  - rewrite length_take. pose proof (rank_le key l x). lia.
  - intros i e. rewrite lookup_take_Some. intros [He Hi]. rewrite <- (rank_lookup key l x i e Hs He). lia.
Qed.

Lemma filter_between l a b :
  sorted key l ->
  filter (fun e => a <= key e <= b) l = drop (rank key l a) (take (rank key l (b + 1)) l).
Proof.
  intros Hs. rewrite (filter_ext_in _ (fun e => a <= key e /\ key e < b + 1)) by (intros; lia).
  rewrite <- list_filter_filter. rewrite (proj1 (sorted_split key l (b + 1) Hs)).
  rewrite (proj2 (sorted_split key _ a (sorted_take key _ l Hs))), rank_take by done.
  destruct (Nat.le_gt_cases (rank key l a) (rank key l (b + 1))).
  - by rewrite Nat.min_l.
  - rewrite Nat.min_r by lia. rewrite !drop_ge; rewrite ?length_take; auto; lia.
Qed.

(** The number of keys up to [x], from the answer of the search. *)
Lemma rank_succ_found l x i e :
  sorted key l -> l !! i = Some e -> key e = x -> rank key l (x + 1) = S i.
Proof.
  intros Hs He Hk. apply rank_char; [done|by apply lookup_lt_Some in He|].
  intros j c Hc. destruct (lt_eq_lt_dec j i) as [[Hj|<-]|Hj].
  - pose proof (sorted_lookup_lt key l j i c e Hs Hc He Hj). lia.
  - simplify_eq. lia.
  - pose proof (sorted_lookup_lt key l i j e c Hs He Hc Hj). lia.
Qed.

Lemma rank_succ_missing l x :
  (forall e, e ∈ l -> key e <> x) -> rank key l (x + 1) = rank key l x.
Proof.
  intros Hn. unfold rank. f_equal. apply filter_ext_in. intros e He. specialize (Hn e He). lia.
Qed.

Lemma search_after l x :
  sorted key l ->
  match binary_search key l x with SFound i => S i | SMissing i => i end = rank key l (x + 1).
Proof.
  intros Hs. destruct (binary_search_sorted key l x Hs) as [Hi Hb].
  destruct (binary_search key l x) as [i|i]; simpl in Hi.
  - destruct Hb as (e & He & Hk). by rewrite (rank_succ_found l x i e).
  - rewrite rank_succ_missing by done. done.
Qed.

Lemma delete_filter l k e :
  sorted key l -> l !! k = Some e -> delete k l = filter (fun c => key c <> key e) l.
Proof.
  intros Hs. revert k. induction Hs as [|a l Hs IH Hall]; intros k Hk; [done|].
  rewrite Forall_forall in Hall. destruct k as [|k]; simplify_eq/=.
  - rewrite filter_cons_False by naive_solver. symmetry. apply filter_all.
    intros c Hc. specialize (Hall c Hc). lia.
  - rewrite filter_cons_True.
    + f_equal. by apply IH.
    + apply list_elem_of_lookup_2 in Hk. specialize (Hall e Hk). lia.
Qed.

(** What follows an entry [e] of a sorted vector is above it. *)
Lemma filter_above_last l n e :
  sorted key l -> last (take n l) = Some e -> filter (fun c => key e < key c) l = drop n l.
Proof.
  intros Hs Hlast. rewrite (filter_ext_in _ (fun c => key e + 1 <= key c)) by (intros; lia).
  rewrite (proj2 (sorted_split key l (key e + 1) Hs)).
  apply last_Some in Hlast as [l' Hl'].
  assert (He : l !! length l' = Some e).
  { rewrite <- (take_drop n l), Hl'. rewrite lookup_app_l by (rewrite length_app; simpl; lia).
    by rewrite lookup_app_r, Nat.sub_diag by lia. }
  rewrite (rank_succ_found l (key e) (length l') e Hs He eq_refl).
  assert (Hlen : length (take n l) = S (length l')) by (rewrite Hl', length_app; simpl; lia).
  rewrite length_take in Hlen. destruct (Nat.le_gt_cases n (length l)); [f_equal; lia|].
  rewrite !drop_ge by lia. done.
Qed.

End positions.

(** ** The index loops *)

Definition limit {A} (count : option nat) (l : list A) : list A :=
  match count with Some n => take n l | None => l end.

Lemma collect_spec l count idxs acc :
  collect l count idxs acc =
    acc ++ limit (option_map (fun n => (n - length acc)%nat) count) (omap (fun i => l !! i) idxs).
Proof.
  revert acc. induction idxs as [|i idxs IH]; intros acc; simpl.
  - destruct count; simpl; by rewrite ?take_nil, app_nil_r.
  - destruct count as [n|]; simpl in *.
    + destruct (Nat.leb_spec n (length acc)) as [Hn|Hn].
      { replace (n - length acc)%nat with O by lia. by rewrite take_0, app_nil_r. }
      destruct (l !! i) as [e|]; [|apply IH].
      rewrite IH, length_app. simpl. replace (n - length acc)%nat with (S (n - (length acc + 1))) by lia.
      simpl. by rewrite <- app_assoc.
    + destruct (l !! i) as [e|]; [|apply IH]. rewrite IH. by rewrite <- app_assoc.
Qed.

Lemma collect_nil l count idxs : collect l count idxs [] = limit count (omap (fun i => l !! i) idxs).
Proof. rewrite collect_spec. destruct count; simpl; [by rewrite Nat.sub_0_r|done]. Qed.

Lemma omap_seq {A} (l : list A) i n : omap (fun j => l !! j) (seq i n) = take n (drop i l).
Proof.
  revert i. induction n as [|n IH]; intros i; simpl; [by rewrite take_0|].
  rewrite IH. destruct (l !! i) as [e|] eqn:E.
  - by rewrite (drop_S l e i E).
  - apply lookup_ge_None in E. by rewrite !drop_ge, !take_nil by lia.
Qed.

Lemma omap_rev {A C} (f : A -> option C) l : omap f (rev l) = rev (omap f l).
Proof.
  induction l as [|a l IH]; simpl; [done|]. rewrite omap_app, IH. simpl.
  by destruct (f a); simpl; rewrite ?app_nil_r.
Qed.

Lemma omap_inclusive {A} (l : list A) i k :
  omap (fun j => l !! j) (inclusive i (Nat.min k (length l - 1))) = drop i (take (S k) l).
Proof.
  unfold inclusive. rewrite omap_seq, take_drop_commute.
  destruct (Nat.le_gt_cases (length l) k).
  - rewrite (take_ge l (S k)) by lia. rewrite take_ge; [done|]. lia.
  - destruct (Nat.le_gt_cases i (S k)); [do 2 f_equal; lia|].
    rewrite !drop_ge by (rewrite length_take; lia). done.
Qed.

(** ** The invariant *)

Section stream_ok.
Context (entry_size data_size stream_size : Z).
Hypothesis Hdata : in_u64 data_size.
Hypothesis Hstream : in_u64 stream_size.

Abbreviation size_of := (calculate_entry_size entry_size).
Abbreviation total := (entries_size entry_size).

Record stream_ok (s : Stream) : Prop := {
  so_sorted : sorted entry_key (entries s);
  so_top e : e ∈ entries s -> entry_key e <= packed (last_id s);
  so_last : last_id s = sid (last_id_millis s) (last_id_seq s);
  so_millis : in_u64 (last_id_millis s);
  so_seq : in_u64 (last_id_seq s);
  so_length : stream_length s = u64_wrap (Z.of_nat (length (entries s)));
  so_dmem : data_memory_usage s = u64_wrap (data_size + total (entries s));
  so_smem : stream_memory_usage s = u64_wrap (stream_size + total (entries s));
}.

Lemma zero_u64 : in_u64 0.
Proof. unfold in_u64, u64_max. lia. Qed.

Lemma stream_new_ok : stream_ok (stream_new data_size stream_size).
Proof.
  split; simpl; try done; try apply zero_u64.
  - apply sorted_nil.
  - by intros e ?%not_elem_of_nil.
  - rewrite Z.add_0_r. symmetry. by apply u64_wrap_small.
  - rewrite Z.add_0_r. symmetry. by apply u64_wrap_small.
Qed.

Lemma stream_clear_ok s : stream_ok (stream_clear data_size stream_size s).
Proof. destruct stream_new_ok. by split. Qed.

Lemma total_app l1 l2 : total (l1 ++ l2) = total l1 + total l2.
Proof. unfold entries_size. induction l1 as [|e l1 IH]; simpl; lia. Qed.

Lemma total_split n l : total l = total (take n l) + total (drop n l).
Proof. rewrite <- total_app. by rewrite take_drop. Qed.

(** Appending an entry above the last id. *)
Lemma append_ok s e ms sq :
  stream_ok s -> in_u64 ms -> in_u64 sq -> entry_id e = sid ms sq -> packed (last_id s) < entry_key e ->
  stream_ok (with_last (with_entries s (entries s ++ [e]) 1 (size_of e)) (entry_id e) ms sq).
Proof.
  intros Hs Hms Hsq Hid Hlt. split; simpl; try done.
  - apply sorted_app. split_and!; [apply Hs|repeat constructor|].
    intros a c Ha ->%list_elem_of_singleton. pose proof (so_top s Hs a Ha). lia.
  - intros a [Ha| ->%list_elem_of_singleton]%elem_of_app; [|unfold entry_key; lia].
    pose proof (so_top s Hs a Ha). unfold entry_key in *. lia.
  - rewrite (so_length s Hs), u64_wrap_add, length_app. f_equal. simpl. lia.
  - rewrite (so_dmem s Hs), u64_wrap_add, total_app. f_equal. simpl. lia.
  - rewrite (so_smem s Hs), u64_wrap_add, total_app. f_equal. simpl. lia.
Qed.

(** Keeping a part of the entries. *)
Lemma shrink_ok s l :
  stream_ok s -> l `sublist_of` entries s ->
  stream_ok (with_entries s l (Z.of_nat (length l) - Z.of_nat (length (entries s))) (total l - total (entries s))).
Proof.
  intros Hs Hl. split; simpl; try apply Hs.
  - eapply sorted_sublist; [exact Hl|apply Hs].
  - intros e He. apply Hs. eapply elem_of_sublist; eauto.
  - rewrite (so_length s Hs), u64_wrap_add. f_equal. lia.
  - rewrite (so_dmem s Hs), u64_wrap_add. f_equal. lia.
  - rewrite (so_smem s Hs), u64_wrap_add. f_equal. lia.
Qed.

Lemma with_groups_ok s m : stream_ok s -> stream_ok (with_groups s m).
Proof. intros []. by split. Qed.

(** ** Adding *)

(** The ids that [add_auto] can still generate in order. *)
Definition seq_left (s : Stream) : Prop := last_id_seq s < u64_max.

Lemma cached_millis_u64 now c :
  in_u64 (cached_millis c) ->
  in_u64 (get_cached_millis now c).1 /\ in_u64 (cached_millis (get_cached_millis now c).2).
Proof.
  intros Hc. unfold get_cached_millis. destruct (_ <? _); [|done]. split; simpl; apply u64_wrap_range.
Qed.

Lemma add_auto_ok now w1 w2 c s f :
  stream_ok s -> in_u64 (cached_millis c) ->
  (seq_left s \/ (last_id_millis s < (get_cached_millis now c).1 /\ w1 && w2 = false)) ->
  let '(s', c', i) := add_auto entry_size now w1 w2 c s f in
  stream_ok s' /\ in_u64 (cached_millis c') /\ packed (last_id s) < packed i /\ last_id s' = i /\
  entries s' = entries s ++ [{| entry_id := i; entry_fields := f |}] /\ consumer_groups s' = consumer_groups s.
Proof.
  intros Hs Hc Hleft. unfold add_auto. destruct (cached_millis_u64 now c Hc) as [Hnow Hc'].
  destruct (get_cached_millis now c) as [ms c'] eqn:Ec. simpl in *.
  destruct (generate_next_atomic ms w1 w2 (last_id_millis s) (last_id_seq s)) as [[i ms'] sq'] eqn:Eg.
  destruct (generate_next_spec ms w1 w2 _ _ i ms' sq' Hnow (so_millis s Hs) (so_seq s Hs) Eg)
    as (Hms' & Hsq' & -> & Hlt).
  specialize (Hlt Hleft). rewrite <- (so_last s Hs) in Hlt. split_and!; try done.
  apply (append_ok s {| entry_id := sid ms' sq'; entry_fields := f |} ms' sq' Hs Hms' Hsq' eq_refl Hlt).
Qed.

(** The search of [add_with_id] never finds the id: it is above every entry. *)
Lemma add_with_id_eq s i f :
  stream_ok s ->
  add_with_id entry_size s i f =
    if sid_le i (last_id s) then (s, inl err_smaller)
    else
      let e := {| entry_id := i; entry_fields := f |} in
      (with_last (with_entries s (entries s ++ [e]) 1 (size_of e)) i (sid_millis i) (sid_seq i), inr tt).
Proof.
  intros Hs. unfold add_with_id, sid_le. destruct (Z.leb_spec (packed i) (packed (last_id s))) as [|Hlt]; [done|].
  destruct (binary_search_sorted entry_key (entries s) (packed i) (so_sorted s Hs)) as [_ Hb].
  destruct (binary_search _ _ _) as [k|k]; [|done]. exfalso. destruct Hb as (e & He & Hk).
  apply list_elem_of_lookup_2 in He. pose proof (so_top s Hs e He). lia.
Qed.

Lemma add_with_id_ok s i f :
  stream_ok s -> 0 <= packed i <= u128_max -> stream_ok (add_with_id entry_size s i f).1.
Proof.
  intros Hs Hi. rewrite add_with_id_eq by done. unfold sid_le.
  destruct (Z.leb_spec (packed i) (packed (last_id s))) as [|Hlt]; [done|].
  apply (append_ok s {| entry_id := i; entry_fields := f |}); try done; try apply u64_wrap_range.
  simpl. symmetry. by apply sid_eta.
Qed.

(** ** Reading *)

(** What [range] answers before the limit: the entries between the bounds,
    except that an end below the first entry counts as the first entry. *)
Definition range_hits (l : list StreamEntry) (start end_ : StreamId) : list StreamEntry :=
  match l with
  | e :: _ =>
      if (packed start <=? entry_key e) && (packed end_ <? entry_key e) then [e]
      else filter (fun e => packed start <= entry_key e <= packed end_) l
  | [] => []
  end.

Lemma rank_pos_head {A} (key : A -> Z) e l x :
  sorted key (e :: l) -> (rank key (e :: l) x = 0%nat <-> x <= key e).
Proof.
  intros Hs. pose proof (rank_lookup key (e :: l) x 0 e Hs eq_refl). lia.
Qed.

Lemma range_index_hits s start end_ :
  sorted entry_key (entries s) ->
  let end_idx :=
    match binary_search entry_key (entries s) (packed end_) with
    | SFound i => i
    | SMissing i => if (0 <? i)%nat then (i - 1)%nat else O
    end in
  drop (rank entry_key (entries s) (packed start)) (take (S end_idx) (entries s)) =
  range_hits (entries s) start end_.
Proof.
  intros Hs end_idx. set (r2 := rank entry_key (entries s) (packed end_ + 1)).
  assert (He : S end_idx = Nat.max r2 1).
  { unfold r2. rewrite <- (search_after entry_key _ (packed end_) Hs). unfold end_idx.
    destruct (binary_search _ _ _) as [i|i]; [lia|]. destruct (Nat.ltb_spec 0 i); lia. }
  rewrite He. destruct (entries s) as [|e l] eqn:El; [by rewrite take_nil, drop_nil|].
  pose proof (rank_pos_head entry_key e l (packed start) Hs) as H1.
  pose proof (rank_pos_head entry_key e l (packed end_ + 1) Hs) as H2. fold r2 in H2. simpl range_hits.
  destruct (Z.leb_spec (packed start) (entry_key e)) as [Hse|Hse],
    (Z.ltb_spec (packed end_) (entry_key e)) as [Hee|Hee]; simpl andb; cbv iota.
  - rewrite (proj2 H1), (proj2 H2) by lia. done.
  - rewrite filter_between by done. fold r2. do 2 f_equal. lia.
  - rewrite filter_between by done. fold r2. rewrite (proj2 H2) by lia. simpl.
    rewrite drop_nil. apply drop_ge. simpl. lia.
  - rewrite filter_between by done. fold r2. do 2 f_equal. lia.
Qed.

Lemma range_eq s start end_ count reverse :
  sorted entry_key (entries s) ->
  range s start end_ count reverse =
    limit count (let h := range_hits (entries s) start end_ in if reverse then rev h else h).
Proof.
  intros Hs. unfold range. rewrite collect_nil. f_equal.
  rewrite (proj1 (binary_search_sorted entry_key _ (packed start) Hs)).
  rewrite <- (range_index_hits s start end_ Hs). cbv zeta.
  destruct reverse; [rewrite omap_rev; f_equal|]; apply omap_inclusive.
Qed.

Lemma range_after_eq s i count :
  sorted entry_key (entries s) ->
  range_after s i count = limit count (filter (fun e => packed i < entry_key e) (entries s)).
Proof.
  intros Hs. unfold range_after. rewrite collect_nil, omap_seq, (search_after entry_key _ _ Hs).
  rewrite (filter_ext_in _ (fun e => packed i + 1 <= entry_key e)) by (intros; lia).
  rewrite (proj2 (sorted_split entry_key _ (packed i + 1) Hs)).
  rewrite (take_ge (drop _ _)) by (rewrite length_drop; lia). destruct count; simpl; [done|].
  apply take_ge. rewrite length_drop. lia.
Qed.

Lemma find_entry_Some s i e :
  sorted entry_key (entries s) -> (find_entry s i = Some e <-> e ∈ entries s /\ entry_id e = i).
Proof.
  intros Hs. unfold find_entry. destruct (binary_search_sorted entry_key _ (packed i) Hs) as [_ Hb].
  destruct (binary_search _ _ _) as [k|k].
  - destruct Hb as (e' & He' & Hk). rewrite He'. split.
    + intros [= <-]. split; [by eapply list_elem_of_lookup_2|by apply packed_inj].
    + intros [[j Hj]%list_elem_of_lookup <-]. f_equal.
      assert (j = k) as -> by exact (sorted_lookup_inj entry_key _ _ _ _ _ Hs Hj He' (eq_sym Hk)). congruence.
  - split; [done|]. intros [He <-]. by destruct (Hb e He).
Qed.
End stream_ok.

(** ** Removing *)

Section removing.
Context (entry_size data_size stream_size : Z).

Abbreviation size_of := (calculate_entry_size entry_size).
Abbreviation total := (entries_size entry_size).
Abbreviation ok := (stream_ok entry_size data_size stream_size).

Lemma drop_ok s n :
  ok s -> (n <= length (entries s))%nat ->
  ok (with_entries s (drop n (entries s)) (- Z.of_nat n) (- total (take n (entries s)))).
Proof.
  intros Hs Hn. pose proof (shrink_ok _ _ _ s (drop n (entries s)) Hs (sublist_drop _ _)) as H.
  rewrite length_drop in H. pose proof (total_split entry_size n (entries s)) as Ht.
  replace (Z.of_nat (length (entries s) - n) - Z.of_nat (length (entries s))) with (- Z.of_nat n) in H by lia.
  replace (total (drop n (entries s)) - total (entries s)) with (- total (take n (entries s))) in H by lia.
  exact H.
Qed.

Lemma trim_by_count_ok s n :
  ok s -> let '(s', k) := trim_by_count entry_size s n in
  ok s' /\ entries s' = drop (length (entries s) - n) (entries s) /\ k = (length (entries s) - n)%nat /\
  last_id s' = last_id s.
Proof.
  intros Hs. unfold trim_by_count. destruct (Nat.leb_spec (length (entries s)) n).
  - replace (length (entries s) - n)%nat with O by lia. done.
  - split_and!; try done. apply drop_ok; [done|lia].
Qed.

Lemma trim_by_min_id_ok s i :
  ok s -> let '(s', k) := trim_by_min_id entry_size s i in
  ok s' /\ entries s' = filter (fun e => packed i <= entry_key e) (entries s) /\
  k = length (filter (fun e => entry_key e < packed i) (entries s)) /\ last_id s' = last_id s.
Proof.
  intros Hs. unfold trim_by_min_id.
  rewrite (proj1 (binary_search_sorted entry_key _ (packed i) (so_sorted _ _ _ s Hs))).
  rewrite (proj2 (sorted_split entry_key _ (packed i) (so_sorted _ _ _ s Hs))).
  change (length (filter _ _)) with (rank entry_key (entries s) (packed i)).
  pose proof (rank_le entry_key (entries s) (packed i)) as Hr.
  destruct (rank entry_key (entries s) (packed i)) as [|n] eqn:E; [done|].
  split_and!; try done. by apply drop_ok.
Qed.

(** The loop of [delete]: what stays, how many went and how many bytes. *)
Lemma delete_loop_ok ids l :
  sorted entry_key l ->
  let '(l', n, freed) := delete_loop entry_size ids l in
  l' = filter (fun e => entry_id e ∉ ids) l /\
  (n + length l')%nat = length l /\ freed + total l' = total l.
Proof.
  unfold delete_loop.
  enough (Hloop : forall n0 f0 l, sorted entry_key l ->
    let '(l', n, freed) := foldl (fun '(l, n, freed) i =>
      match binary_search entry_key l (packed i) with
      | SFound k => match l !! k with
                    | Some e => (delete k l, S n, freed + size_of e)
                    | None => (l, n, freed) end
      | SMissing _ => (l, n, freed) end) (l, n0, f0) ids in
    l' = filter (fun e => entry_id e ∉ ids) l /\
    (n + length l')%nat = (n0 + length l)%nat /\ freed + total l' = f0 + total l).
  { intros Hs. specialize (Hloop O 0 l Hs). by destruct (foldl _ _ _) as [[l' n] freed]. }
  clear l. induction ids as [|i ids IH]; intros n0 f0 l Hs; cbn [foldl].
  { split_and!; [|done..]. symmetry. apply filter_all. by intros e _ ?%not_elem_of_nil. }
  assert (Hsplit : filter (fun e => entry_id e ∉ i :: ids) l =
                   filter (fun e => entry_id e ∉ ids) (filter (fun e => entry_key e <> packed i) l)).
  { rewrite list_filter_filter. apply filter_ext_in. intros e _. rewrite not_elem_of_cons. unfold entry_key.
    split; [intros [Hne Hn]; split; [done|by intros ?%packed_inj]|].
    intros [Hn Hne]; split; [intros E; apply Hne; by rewrite E|done]. }
  rewrite Hsplit. destruct (binary_search_sorted entry_key l (packed i) Hs) as [_ Hb].
  destruct (binary_search entry_key l (packed i)) as [k|k].
  - destruct Hb as (e & He & Hk). rewrite He. rewrite <- Hk, <- (delete_filter entry_key l k e Hs He).
    specialize (IH (S n0) (f0 + size_of e) (delete k l)). destruct (foldl _ _ _) as [[l' n] freed].
    destruct IH as (-> & Hn & Hf).
    { eapply sorted_sublist; [apply sublist_delete|exact Hs]. }
    apply lookup_lt_Some in He as Hlt. split_and!; [done| |].
    + rewrite Hn, length_delete by eauto. lia.
    + rewrite Hf. rewrite delete_take_drop, total_app, (total_split entry_size k l), (drop_S l e k He).
      unfold entries_size at 4. simpl. fold (total (drop (S k) l)). lia.
  - rewrite (filter_all (fun e => entry_key e <> packed i)) by done. by apply IH.
Qed.

Lemma elem_of_rev {A} (x : A) l : x ∈ rev l <-> x ∈ l.
Proof. rewrite rev_alt. apply elem_of_reverse. Qed.

Lemma sublist_length_eq {A} (l1 l2 : list A) : l1 `sublist_of` l2 -> (length l2 <= length l1)%nat -> l1 = l2.
Proof.
  induction 1 as [|x l1 l2 Hsub IH|x l1 l2 Hsub IH]; simpl; intros Hl; [done|f_equal; apply IH; lia|].
  apply sublist_length in Hsub. lia.
Qed.

Lemma elem_of_dedup x l : x ∈ dedup l <-> x ∈ l.
Proof.
  induction l as [|y l IH]; simpl; [done|]. rewrite elem_of_cons, <- IH.
  destruct (dedup l) as [|z t]; [by rewrite elem_of_cons|].
  case_decide; [subst|]; rewrite !elem_of_cons; tauto.
Qed.

Lemma stream_delete_ok s ids :
  ok s -> let '(s', n) := stream_delete entry_size s ids in
  ok s' /\ entries s' = filter (fun e => entry_id e ∉ ids) (entries s) /\
  (n + length (entries s') = length (entries s))%nat /\ last_id s' = last_id s.
Proof.
  intros Hs. unfold stream_delete. set (sorted_ids := dedup _).
  pose proof (delete_loop_ok (rev sorted_ids) (entries s) (so_sorted _ _ _ s Hs)) as H.
  destruct (delete_loop _ _ _) as [[l n] freed]. destruct H as (Hl & Hn & Hf).
  assert (Hids : filter (fun e => entry_id e ∉ rev sorted_ids) (entries s) =
                 filter (fun e => entry_id e ∉ ids) (entries s)).
  { apply filter_ext_in. intros e _. unfold sorted_ids.
    by rewrite elem_of_rev, elem_of_dedup, merge_sort_Permutation. }
  rewrite Hids in Hl. destruct (Nat.ltb_spec 0 n).
  - split_and!; try done. replace (- Z.of_nat n) with (Z.of_nat (length l) - Z.of_nat (length (entries s))) by lia.
    replace (- freed) with (total l - total (entries s)) by lia. apply shrink_ok; [done|].
    rewrite Hl. apply sublist_filter.
  - assert (n = O) as -> by lia. split_and!; try done. symmetry. rewrite <- Hl.
    apply sublist_length_eq; [rewrite Hl; apply sublist_filter|lia].
Qed.
End removing.
