(* ===== verification/StreamSpec.v ===== *)
(** * Properties of the streams

    The invariant over the life of a stream, the order of generated ids, what
    the range, trim and delete commands do to the sequence of entries, and
    the delivery of entries to a consumer group. *)

From S2P Require Import Prelude SortedVec StreamId BTree ConsumerGroups ConsumerGroupProofs Stream StreamProofs.

Open Scope Z_scope.

Section spec.
Context (entry_size data_size stream_size : Z).
Hypothesis Hdata : in_u64 data_size.
Hypothesis Hstream : in_u64 stream_size.

Abbreviation ok := (stream_ok entry_size data_size stream_size).

(** The operations of a stream. *)
Inductive stream_op :=
  | AddAuto (now : Z) (weak1 weak2 : bool) (c : clock_cache) (f : gmap bytes bytes)
  | AddWithId (i : StreamId) (f : gmap bytes bytes)
  | TrimByCount (n : nat)
  | TrimByMinId (i : StreamId)
  | Delete (ids : list StreamId)
  | Clear
  | SetGroups (m : gmap bytes ConsumerGroup).

Definition run_op (s : Stream) (op : stream_op) : Stream :=
  match op with
  | AddAuto now w1 w2 c f => (add_auto entry_size now w1 w2 c s f).1.1
  | AddWithId i f => (add_with_id entry_size s i f).1
  | TrimByCount n => (trim_by_count entry_size s n).1
  | TrimByMinId i => (trim_by_min_id entry_size s i).1
  | Delete ids => (stream_delete entry_size s ids).1
  | Clear => stream_clear data_size stream_size s
  | SetGroups m => with_groups s m
  end.

Definition run_ops (ops : list stream_op) : Stream := foldl run_op (stream_new data_size stream_size) ops.

(** The arguments have their types. *)
Definition stream_op_typed (op : stream_op) : Prop :=
  match op with
  | AddAuto _ _ _ c _ => in_u64 (cached_millis c)
  | AddWithId i _ => 0 <= packed i <= u128_max
  | _ => True
  end.

(** XADD with a generated id that had no sequence number left. *)
Definition runs_out (s : Stream) (op : stream_op) : Prop :=
  match op with
  | AddAuto now w1 w2 c f =>
      last_id_seq s = u64_max /\ (add_auto entry_size now w1 w2 c s f).2 = sid (last_id_millis s) 0
  | _ => False
  end.

Lemma run_op_ok s op : ok s -> stream_op_typed op -> ok (run_op s op) \/ runs_out s op.
Proof.
  intros Hs Ht. destruct op as [now w1 w2 c f|i f|n|i|ids| |m]; cbn [run_op stream_op_typed runs_out] in *.
  - destruct (decide (seq_left s \/ (last_id_millis s < (get_cached_millis now c).1 /\ w1 && w2 = false))) as [Hl|Hl].
    + left. pose proof (add_auto_ok _ _ _ now w1 w2 c s f Hs Ht Hl) as H. destruct (add_auto _ _ _ _ _ _ _) as [[? ?] ?]. tauto.
    + right. unfold seq_left in Hl. pose proof (so_seq _ _ _ s Hs) as [_ Hmax]. assert (last_id_seq s = u64_max) as E by lia.
      split; [done|]. unfold add_auto. destruct (get_cached_millis now c) as [ms c']. unfold generate_next_atomic. rewrite E. simpl in Hl.
      destruct (Z.ltb_spec (last_id_millis s) ms); [|done]. destruct w1, w2; try done; exfalso; tauto.
  - left. by apply add_with_id_ok.
  - left. pose proof (trim_by_count_ok _ _ _ s n Hs) as H. destruct (trim_by_count _ _ _). tauto.
  - left. pose proof (trim_by_min_id_ok _ _ _ s i Hs) as H. destruct (trim_by_min_id _ _ _). tauto.
  - left. pose proof (stream_delete_ok _ _ _ s ids Hs) as H. destruct (stream_delete _ _ _). tauto.
  - left. by apply stream_clear_ok.
  - left. by apply with_groups_ok.
Qed.

(** C9. The invariant of a stream.  After any sequence of additions, trims,
    deletions and clears the entries are strictly sorted by id and none is
    above the last id, the two lock-free counters hold that last id, and the
    length and memory counters are those of the entries; with one exception:
    an XADD with a generated id that came when the last sequence number was the
    largest of 64 bits, in the same millisecond, and was given the number 0.
    The invariant held up to the first such XADD. *)
Theorem stream_invariant ops :
  Forall stream_op_typed ops ->
  ok (run_ops ops)
  \/ exists before op after, ops = before ++ op :: after /\ ok (run_ops before) /\ runs_out (run_ops before) op.
Proof.
  induction ops as [|op ops IH] using rev_ind; intros Ht; [left; by apply stream_new_ok|].
  apply Forall_app in Ht as [Ht Hop%Forall_inv]. destruct (IH Ht) as [Hs|(before & op' & after & -> & Hs & Hr)].
  - unfold run_ops in *. rewrite foldl_app. destruct (run_op_ok _ op Hs Hop) as [Hok|Hr]; [by left|].
    right. by exists ops, op, [].
  - right. exists before, op', (after ++ [op]). by rewrite <- app_assoc.
Qed.

(** XADD with a generated id appends one entry at the end, whose id is above
    every id of the stream, and answers that id, which becomes the last id. *)
Theorem add_auto_appends now w1 w2 c s f :
  ok s -> in_u64 (cached_millis c) ->
  seq_left s \/ (last_id_millis s < (get_cached_millis now c).1 /\ w1 && w2 = false) ->
  let '(s', _, i) := add_auto entry_size now w1 w2 c s f in
  entries s' = entries s ++ [{| entry_id := i; entry_fields := f |}] /\ last_id s' = i /\
  (forall e, e ∈ entries s -> sid_lt (entry_id e) i = true) /\ ok s'.
Proof.
  intros Hs Hc Hl. pose proof (add_auto_ok _ _ _ now w1 w2 c s f Hs Hc Hl) as H.
  destruct (add_auto _ _ _ _ _ _ _) as [[s' c'] i]. destruct H as (Hs' & _ & Hlt & Hlast & He & _).
  split_and!; try done. intros e Hin. apply Z.ltb_lt. pose proof (so_top _ _ _ s Hs e Hin).
  unfold entry_key in *. lia.
Qed.

(** XADD with an explicit id fails exactly when the id is not above the last
    id, leaving the stream as it was; otherwise it appends the entry and the id
    becomes the last id.  The duplicate check after it is never reached. *)
Theorem add_with_id_exact s i f :
  ok s -> 0 <= packed i <= u128_max ->
  match add_with_id entry_size s i f with
  | (s', inl msg) => s' = s /\ msg = err_smaller /\ packed i <= packed (last_id s)
  | (s', inr _) =>
      packed (last_id s) < packed i /\ last_id s' = i /\ ok s' /\
      entries s' = entries s ++ [{| entry_id := i; entry_fields := f |}]
  end.
Proof.
  intros Hs Hi. pose proof (add_with_id_ok _ _ _ s i f Hs Hi) as Hok.
  rewrite (add_with_id_eq entry_size data_size stream_size s i f Hs) in *. unfold sid_le in *.
  destruct (Z.leb_spec (packed i) (packed (last_id s))); split_and!; done.
Qed.

(** XRANGE and XREVRANGE: the answer is the first [count] entries, in the
    asked direction, of those with an id between the bounds; the exception is
    an end below the first entry's id (with the start not above it), for which
    the first entry is answered instead of nothing. *)
Theorem range_exact s start end_ count reverse :
  ok s ->
  let between := filter (fun e => packed start <= entry_key e <= packed end_) (entries s) in
  let hits :=
    match head (entries s) with
    | Some e => if bool_decide (packed start <= entry_key e /\ packed end_ < entry_key e) then [e] else between
    | None => []
    end in
  range s start end_ count reverse = limit count (if reverse then rev hits else hits).
Proof.
  intros Hs between hits. rewrite range_eq by apply Hs. cbv zeta. unfold hits, range_hits.
  destruct (entries s) as [|e l] eqn:E; [done|]. change (head (e :: l)) with (Some e). cbv iota beta.
  destruct (Z.leb_spec (packed start) (entry_key e)), (Z.ltb_spec (packed end_) (entry_key e)); simpl andb; cbv iota;
    case_bool_decide; try lia; done.
Qed.

(** XREAD: [range_after] answers the first [count] entries above the given
    id, in order. *)
Theorem range_after_exact s i count :
  ok s -> range_after s i count = limit count (filter (fun e => sid_lt i (entry_id e) = true) (entries s)).
Proof.
  intros Hs. rewrite range_after_eq by apply Hs. f_equal. apply filter_ext_in. intros e _.
  unfold sid_lt, entry_key. by rewrite Z.ltb_lt.
Qed.

(** The removals: XTRIM MAXLEN keeps the last [n] entries, XTRIM MINID those
    from the id on, XDEL those whose id is not listed; each answers how many
    entries went, and neither moves the last id nor breaks the invariant. *)
Theorem removals_exact s n i ids :
  ok s ->
  (let '(s', k) := trim_by_count entry_size s n in
   entries s' = drop (length (entries s) - n) (entries s) /\ k = (length (entries s) - n)%nat /\
   last_id s' = last_id s /\ ok s') /\
  (let '(s', k) := trim_by_min_id entry_size s i in
   entries s' = filter (fun e => packed i <= entry_key e) (entries s) /\
   (k + length (entries s') = length (entries s))%nat /\ last_id s' = last_id s /\ ok s') /\
  (let '(s', k) := stream_delete entry_size s ids in
   entries s' = filter (fun e => entry_id e ∉ ids) (entries s) /\
   (k + length (entries s') = length (entries s))%nat /\ last_id s' = last_id s /\ ok s').
Proof.
  intros Hs. split_and!.
  - pose proof (trim_by_count_ok _ _ _ s n Hs) as H. destruct (trim_by_count _ _ _). tauto.
  - pose proof (trim_by_min_id_ok _ _ _ s i Hs) as H. destruct (trim_by_min_id _ _ _) as [s' k].
    destruct H as (? & E & -> & ?). split_and!; try done. rewrite E.
    destruct (sorted_split entry_key (entries s) (packed i) (so_sorted _ _ _ s Hs)) as [-> ->].
    rewrite length_take, length_drop. pose proof (rank_le entry_key (entries s) (packed i)). lia.
  - pose proof (stream_delete_ok _ _ _ s ids Hs) as H. destruct (stream_delete _ _ _). tauto.
Qed.

(** ** Reading through a group *)

(** No pending id is above the last delivered one. *)
Definition group_bounded (g : ConsumerGroup) : Prop :=
  forall i e, entries_by_id (pending g) !! i = Some e -> packed i <= packed (last_delivered_id g).

(** The entries of the stream that the group has not delivered yet. *)
Definition undelivered (s : Stream) (g : ConsumerGroup) : list StreamEntry :=
  filter (fun e => packed (last_delivered_id g) < entry_key e) (entries s).

Lemma read_new_step now now_c s name consumer g count :
  ok s -> get_consumer_group s name = Some g -> group_ok g -> group_bounded g ->
  exists s' g',
    read_group now now_c s name consumer sid_max count false =
      (s', inr (limit count (undelivered s g))) /\
    get_consumer_group s' name = Some g' /\ entries s' = entries s /\ ok s' /\
    group_ok g' /\ group_bounded g' /\
    undelivered s' g' = drop (length (limit count (undelivered s g))) (undelivered s g).
Proof.
  intros Hs Hg Hok Hb. unfold read_group. rewrite Hg, decide_True by done.
  rewrite range_after_eq by apply Hs. unfold get_last_id. fold (undelivered s g). set (es := limit count (undelivered s g)).
  assert (Htake : exists n, es = take n (undelivered s g)).
  { unfold es. destruct count as [n|]; [by exists n|]. exists (length (undelivered s g)). symmetry. by apply take_ge. }
  destruct Htake as [n Hn]. simpl negb. rewrite andb_true_l. case_bool_decide as Hes; simpl negb; cbv iota.
  - exists s, g. rewrite Hes. by split_and!.
  - assert (Hsub : es `sublist_of` undelivered s g) by (rewrite Hn; apply sublist_take).
    assert (Hsort : sorted entry_key (undelivered s g)) by apply sorted_filter, Hs.
    pose proof (add_pending_core now now_c g consumer es Hok) as Ha. destruct (add_pending _ _ _ _ _) as [g' out].
    destruct Ha as (Hg' & -> & Hl & Hlast).
    { apply (NoDup_fmap_1 packed). rewrite <- list_fmap_compose.
      exact (sorted_NoDup entry_key es (sorted_sublist entry_key _ _ Hsub Hsort)). }
    { intros e He. eapply elem_of_sublist in He; [|exact Hsub].
      apply list_elem_of_filter in He as [Hlt _]. apply eq_None_not_Some. intros [p Hp].
      specialize (Hb _ _ Hp). unfold entry_key in Hlt. lia. }
    destruct (last es) as [e|] eqn:Ee; [|by apply last_None in Ee].
    assert (He : e ∈ undelivered s g).
    { eapply elem_of_sublist; [|exact Hsub]. by apply last_Some_elem_of. }
    pose proof He as [Hlt _]%list_elem_of_filter. unfold sid_lt in Hlast.
    rewrite (proj2 (Z.ltb_lt _ (packed (entry_id e))) Hlt) in Hlast.
    exists (put_group s name g'), g'. split_and!; try done.
    + unfold get_consumer_group, put_group, get_group. simpl. by rewrite lookup_insert_eq.
    + by apply with_groups_ok.
    + intros i p. rewrite Hl, Hlast. case_decide as Hi.
      * intros _. apply list_elem_of_fmap in Hi as (e' & -> & He').
        apply last_Some in Ee as [es' Ees]. rewrite Ees in He', Hsub.
        pose proof (sorted_sublist entry_key _ _ Hsub Hsort) as (_ & _ & Hall)%sorted_app.
        apply elem_of_app in He' as [He'| ->%list_elem_of_singleton]; [|lia].
        specialize (Hall e' e He' ltac:(left)). unfold entry_key in Hall. lia.
      * intros Hp. specialize (Hb _ _ Hp). unfold entry_key in Hlt. lia.
    + unfold undelivered at 1. rewrite Hlast. change (entries (put_group s name g')) with (entries s).
      transitivity (filter (fun c => entry_key e < entry_key c) (undelivered s g)).
      * unfold undelivered. rewrite list_filter_filter. apply filter_ext_in. intros c _.
        unfold entry_key in *. lia.
      * rewrite Hn in Ee |- *. rewrite (filter_above_last entry_key _ n e Hsort Ee), length_take.
        destruct (Nat.le_gt_cases n (length (undelivered s g))); [f_equal; lia|]. rewrite !drop_ge by lia. done.
Qed.

(** Successive reads with the id [>], each by some consumer with some count. *)
Fixpoint read_all (s : Stream) (name : bytes) (reads : list (Z * bytes * option nat)) : Stream * list StreamEntry :=
  match reads with
  | [] => (s, [])
  | (now, consumer, count) :: reads' =>
      match read_group now now s name consumer sid_max count false with
      | (s', inr es) => let '(s'', es') := read_all s' name reads' in (s'', es ++ es')
      | (s', inl _) => (s', [])
      end
  end.

(** Delivery through a group is in order and without loss or repetition:
    whatever consumers read new messages and with whatever counts, the
    messages they get, put together, are a prefix of the entries that were above
    the group's last delivered id, and the rest is what is still undelivered. *)
Theorem group_delivery s name g reads :
  ok s -> get_consumer_group s name = Some g -> group_ok g -> group_bounded g ->
  let '(s', es) := read_all s name reads in
  exists g', get_consumer_group s' name = Some g' /\ group_ok g' /\ undelivered s g = es ++ undelivered s' g'.
Proof.
  revert s g. induction reads as [|[[now c] n] reads IH]; intros s g Hs Hg Hok Hb; simpl; [eauto|].
  destruct (read_new_step now now s name c g n Hs Hg Hok Hb)
    as (s1 & g1 & -> & Hg1 & He1 & Hs1 & Hok1 & Hb1 & Hu1).
  specialize (IH s1 g1 Hs1 Hg1 Hok1 Hb1). destruct (read_all s1 name reads) as [s2 es2].
  destruct IH as (g2 & Hg2 & Hok2 & Hu2). exists g2. split_and!; [done..|].
  rewrite <- app_assoc, <- Hu2, Hu1. destruct n as [n|]; simpl.
  - rewrite length_take. destruct (Nat.le_gt_cases n (length (undelivered s g))).
    + rewrite Nat.min_l by lia. by rewrite take_drop.
    + rewrite Nat.min_r, drop_ge, app_nil_r by lia. by rewrite take_ge by lia.
  - by rewrite drop_ge, app_nil_r.
Qed.

(** A read with NOACK does not move the group: it delivers the same entries
    again and again. *)
Theorem noack_repeats now now_c s name consumer count i :
  let '(s', r) := read_group now now_c s name consumer i count true in
  s' = s /\ forall now' now_c', read_group now' now_c' s' name consumer i count true = (s', r).
Proof.
  unfold read_group. destruct (get_consumer_group s name) as [g|] eqn:E; cbn; (split; [done|]); intros; by rewrite E.
Qed.
End spec.

(** ** Concrete streams *)

Definition no_fields : gmap bytes bytes := ∅.

(** A stream with the ids 1-0, 1-1 and 5-0. *)
Definition sample_stream : Stream :=
  (add_with_id 40 (add_with_id 40 (add_with_id 40 (stream_new 48 320) (sid 1 0) no_fields).1
    (sid 1 1) no_fields).1 (sid 5 0) no_fields).1.

Lemma size_48 : in_u64 48.
Proof. by apply (bool_decide_unpack _). Qed.
Lemma size_320 : in_u64 320.
Proof. by apply (bool_decide_unpack _). Qed.

Lemma sample_stream_ok : stream_ok 40 48 320 sample_stream.
Proof.
  repeat apply add_with_id_ok; try (split; discriminate). apply stream_new_ok; [apply size_48|apply size_320].
Qed.

Definition clock_7 : clock_cache := {| cached_millis := 7; cached_at := 7000000 |}.

Lemma clock_7_u64 : in_u64 (cached_millis clock_7).
Proof. by apply (bool_decide_unpack _). Qed.

(** With the sequence number of the last id at its maximum and the clock not
    past its millisecond, [add_auto] wraps the sequence number to 0: the new
    entry's id is below its predecessors' and the vector is no longer sorted,
    so the binary searches of the other commands miss entries. *)
Theorem seq_overflow_unsorts :
  let s := (add_with_id 40 (stream_new 48 320) (sid 9 u64_max) no_fields).1 in
  let '(s', _, i) := add_auto 40 7000000 false false clock_7 s no_fields in
  stream_ok 40 48 320 s /\ i = sid 9 0 /\ ~ sorted entry_key (entries s') /\
  find_entry s' (sid 9 u64_max) = None.
Proof.
  cbv zeta. destruct (add_auto _ _ _ _ _ _ _) as [[s' c'] i] eqn:E. vm_compute in E. injection E as <- <- <-.
  split_and!; try by vm_compute.
  - apply add_with_id_ok; [apply stream_new_ok; [apply size_48|apply size_320]|split; discriminate].
  - intros Hs. inversion Hs as [|? ? _ Hall]; subst. inversion Hall as [|? ? H _]; subst. by vm_compute in H.
Qed.

(** The text of an id is read back as that id; but the parser of ids has no
    overflow check and takes an empty part for 0, so texts that are no ids are
    read as ids too. *)
Theorem id_text i :
  0 <= packed i <= u128_max ->
  sid_from_string (sid_to_string i) = Some i /\
  sid_from_string (B "18446744073709551617-0") = Some (sid 1 0) /\ sid_from_string (B "-") = Some (sid 0 0).
Proof. intros Hi. split; [by apply sid_string_roundtrip|by vm_compute]. Qed.

(** Ids given, generated, refused, one deleted; and the largest sequence number
    followed by a generated one. *)
Lemma stream_invariant_witness :
  let run := run_ops 40 48 320 in
  let ops := [AddWithId (sid 1 0) no_fields; AddAuto 7000000 false false clock_7 no_fields; AddWithId (sid 1 1) no_fields;
              AddAuto 7000000 false true clock_7 no_fields; Delete [sid 1 0]] in
  let last := [AddWithId (sid 9 u64_max) no_fields; AddAuto 7000000 false false clock_7 no_fields] in
  map entry_id (entries (run ops)) = [sid 7 0; sid 7 1] /\ stream_ok 40 48 320 (run ops)
  /\ exists before op after, last = before ++ op :: after /\ stream_ok 40 48 320 (run before) /\ runs_out 40 (run before) op.
Proof.
  intros run ops last. split; [vm_compute; reflexivity|]. split.
  - destruct (stream_invariant 40 48 320 size_48 size_320 ops) as [Hok|(before & op & after & E & _ & Hr)]; [|exact Hok|].
    + repeat constructor; try apply clock_7_u64; split; discriminate.
    + exfalso. assert (Hb : before = take (length before) ops) by (by rewrite E, take_app_length).
      assert (Ho : ops !! length before = Some op) by (by rewrite E, list_lookup_middle).
      rewrite Hb in Hr. revert Ho Hr. generalize (length before) as n. clear. intros n Ho Hr.
      do 5 (destruct n as [|n]; [vm_compute in Ho; injection Ho as <-; first [exact Hr|destruct Hr as [Hr _]; vm_compute in Hr; discriminate Hr]|]). discriminate Ho.
  - destruct (stream_invariant 40 48 320 size_48 size_320 last) as [Hok|Hr]; [| |exact Hr].
    + repeat constructor; try apply clock_7_u64; split; discriminate.
    + exfalso. destruct Hok as [Hs _ _ _ _ _ _ _]. vm_compute in Hs. inversion Hs as [|? ? _ Hall]; subst. inversion Hall as [|? ? H _]; subst. by vm_compute in H.
Defined.

Lemma add_auto_appends_witness :
  let '(s', _, i) := add_auto 40 9000000 false false clock_7 sample_stream no_fields in
  i = sid 9 0 /\ entries s' = entries sample_stream ++ [{| entry_id := i; entry_fields := no_fields |}].
Proof.
  pose proof (add_auto_appends 40 48 320 9000000 false false clock_7 sample_stream no_fields
                sample_stream_ok clock_7_u64 (or_introl eq_refl)) as H.
  assert (E : (add_auto 40 9000000 false false clock_7 sample_stream no_fields).2 = sid 9 0) by (vm_compute; reflexivity).
  destruct (add_auto _ _ _ _ _ _ _) as [[s' c'] i]. exact (conj E (proj1 H)).
Defined.

Lemma id_4_range : 0 <= packed (sid 4 0) <= u128_max.
Proof. split; discriminate. Qed.

Lemma add_with_id_exact_witness :
  (add_with_id 40 sample_stream (sid 4 0) no_fields).2 = inl err_smaller.
Proof.
  pose proof (add_with_id_exact 40 48 320 sample_stream (sid 4 0) no_fields sample_stream_ok
                id_4_range) as H.
  assert (E : (add_with_id 40 sample_stream (sid 4 0) no_fields).1 = sample_stream) by (vm_compute; reflexivity).
  destruct (add_with_id _ _ _ _) as [s' [msg|[]]]; simpl in *.
  - destruct H as (_ & -> & _). reflexivity.
  - destruct H as (Hlt & _). vm_compute in Hlt. discriminate Hlt.
Defined.

Lemma range_exact_witness :
  range sample_stream (sid 0 0) (sid 0 5) None false = take 1 (entries sample_stream).
Proof. rewrite (range_exact 40 48 320 sample_stream _ _ _ _ sample_stream_ok). vm_compute. reflexivity. Defined.

Lemma range_after_exact_witness :
  range_after sample_stream (sid 1 0) (Some 1%nat) = take 1 (drop 1 (entries sample_stream)).
Proof. rewrite (range_after_exact 40 48 320 sample_stream _ _ sample_stream_ok). vm_compute. reflexivity. Defined.

Lemma removals_exact_witness :
  entries (stream_delete 40 sample_stream [sid 1 1; sid 1 1; sid 8 8]).1 =
    filter (fun e => entry_id e ∉ [sid 1 1; sid 1 1; sid 8 8]) (entries sample_stream).
Proof.
  pose proof (removals_exact 40 48 320 sample_stream 2 (sid 1 1) [sid 1 1; sid 1 1; sid 8 8] sample_stream_ok)
    as (_ & _ & H).
  destruct (stream_delete _ _ _) as [s' k]. exact (proj1 H).
Defined.

Definition sample_group_of_stream : ConsumerGroup := group_new 0 (B "g") (sid 0 0).

Lemma sample_bounded : group_bounded sample_group_of_stream.
Proof. intros i e H. discriminate H. Qed.

Lemma group_delivery_witness :
  let '(s', es) := read_all (put_group sample_stream (B "g") sample_group_of_stream) (B "g")
                     [(0, B "alice", Some 2%nat); (1, B "bob", None)] in
  length es = 3%nat /\
  exists g', get_consumer_group s' (B "g") = Some g' /\ group_ok g' /\
    undelivered sample_stream sample_group_of_stream = es ++ undelivered s' g'.
Proof.
  pose proof (group_delivery 40 48 320 (put_group sample_stream (B "g") sample_group_of_stream) (B "g")
    sample_group_of_stream [(0, B "alice", Some 2%nat); (1, B "bob", None)]
    (with_groups_ok 40 48 320 _ _ sample_stream_ok) eq_refl (group_new_ok 0 (B "g") (sid 0 0)) sample_bounded) as H.
  assert (E : length (read_all (put_group sample_stream (B "g") sample_group_of_stream) (B "g")
                [(0, B "alice", Some 2%nat); (1, B "bob", None)]).2 = 3%nat) by (vm_compute; reflexivity).
  destruct (read_all _ _ _) as [s' es]. exact (conj E H).
Defined.

Lemma id_text_witness : sid_from_string (sid_to_string (sid 1700000000000 3)) = Some (sid 1700000000000 3).
Proof. refine (proj1 (id_text (sid 1700000000000 3) _)). split; discriminate. Defined.
