(* ===== verification/Glob.v ===== *)
(** * Glob patterns

    The two matchers of the server, [pattern_matches] of src/pubsub.rs on bytes
    and [pattern_matches] of src/storage/engine.rs on characters, with classes.
    Both are the same loop over indices that remembers the last star and
    backtracks to it; they differ in the arms that match one character.  The
    loop takes fuel, [(text + 1) * (pattern + 1)], which is enough because the
    position of the remembered star never goes back.

    The theorem is that this loop with one backtrack point decides the
    declarative relation in which a star may stand for any text. *)

From S2P Require Import Prelude Text.

Open Scope nat_scope.

Section loop.
Context {A : Type} (is_star : A -> bool).
(** The arms of the [match] other than the star, on the pattern from [p_idx] on
    and the character: how far [p_idx] moves when they match. *)
Context (arm : list A -> A -> option nat).

(** The trailing [while]: all that is left is stars. *)
Fixpoint only_stars (pat : list A) : bool :=
  match pat with
  | [] => true
  | x :: t => is_star x && only_stars t
  end.

Fixpoint glob_loop (fuel : nat) (pattern text : list A) (p_idx c_idx : nat) (star_idx : option nat)
    (star_match_idx : nat) : option bool :=
  match fuel with
  | O => None
  | S fuel' =>
      match text !! c_idx with
      | None => Some (only_stars (drop p_idx pattern))
      | Some c =>
          let backtrack :=
            match star_idx with
            | Some star_pos =>
                glob_loop fuel' pattern text (S star_pos) (S star_match_idx) star_idx (S star_match_idx)
            | None => Some false
            end in
          match pattern !! p_idx with
          | None => backtrack
          | Some x =>
              if is_star x then glob_loop fuel' pattern text (S p_idx) c_idx (Some p_idx) c_idx
              else
                match arm (drop p_idx pattern) c with
                | Some k => glob_loop fuel' pattern text (p_idx + k) (S c_idx) star_idx star_match_idx
                | None => backtrack
                end
          end
      end
  end.

Definition glob_run (pattern text : list A) : option bool :=
  glob_loop ((length text + 1) * (length pattern + 1)) pattern text 0 0 None 0.

(** ** The relation *)

Inductive matches : list A -> list A -> Prop :=
  | m_nil : matches [] []
  | m_star s pat n text : is_star s = true -> n <= length text -> matches pat (drop n text) -> matches (s :: pat) text
  | m_one x pat c text k :
      is_star x = false -> arm (x :: pat) c = Some k -> matches (drop k (x :: pat)) text ->
      matches (x :: pat) (c :: text).

(** An arm consumes at least one character of the pattern, as many whatever
    the text is. *)
Class ArmOk := {
  arm_pos pat c k : arm pat c = Some k -> 1 <= k <= length pat;
  arm_fixed pat c c' k k' : arm pat c = Some k -> arm pat c' = Some k' -> k = k';
}.

Context `{!ArmOk}.

Lemma matches_nil pat : matches pat [] <-> only_stars pat = true.
Proof.
  induction pat as [|x pat IH]; simpl; [split; [done|intros _; constructor]|].
  rewrite andb_true_iff, <- IH. split.
  - inversion 1 as [|s p n t Hs Hn Hm|]; subst. by rewrite drop_nil in Hm.
  - intros [Hx Hm]. apply (m_star x pat 0); [done|simpl; lia|done].
Qed.

Lemma matches_star s pat text :
  is_star s = true -> (matches (s :: pat) text <-> exists n, n <= length text /\ matches pat (drop n text)).
Proof.
  intros Hs. split.
  - inversion 1; subst; [eauto|congruence].
  - intros (n & Hn & Hm). by apply (m_star s pat n).
Qed.

Lemma matches_cons x pat c text :
  is_star x = false ->
  (matches (x :: pat) (c :: text) <-> exists k, arm (x :: pat) c = Some k /\ matches (drop k (x :: pat)) text).
Proof.
  intros Hx. split.
  - inversion 1; subst; [congruence|eauto].
  - intros (k & Hk & Hm). by eapply m_one.
Qed.

Lemma matches_no_pat c text : ~ matches [] (c :: text).
Proof. inversion 1. Qed.

(** [reach n pat k]: the first [n] single characters of [pat] take [k] pattern
    characters, with no star among them. *)
Inductive reach (pat : list A) : nat -> nat -> Prop :=
  | reach_0 : reach pat 0 0
  | reach_S n k x c j :
      reach pat n k -> pat !! k = Some x -> is_star x = false -> arm (drop k pat) c = Some j ->
      reach pat (S n) (k + j).

(** If [pat] matches some text, its first [n] single characters are matched by
    the first [n] characters of the text. *)
Lemma reach_matches pat n k text :
  reach pat n k -> matches pat text -> n <= length text /\ matches (drop k pat) (drop n text).
Proof.
  intros Hr Hm. induction Hr as [|n k x c j Hr [Hn IH] Hx Hs Hc]; [split; [lia|done]|].
  rewrite (drop_S _ _ _ Hx) in IH. rewrite (drop_S _ _ _ Hx) in Hc.
  destruct (drop n text) as [|c' t] eqn:E.
  - apply matches_nil in IH. simpl in IH. by rewrite Hs in IH.
  - apply matches_cons in IH as (j' & Hj' & IH); [|done].
    assert (j = j') as <- by (eapply arm_fixed; eauto).
    assert (Hlen : length (drop n text) = S (length t)) by by rewrite E.
    rewrite length_drop in Hlen. split; [lia|].
    rewrite <- (drop_S _ _ _ Hx), drop_drop in IH.
    replace (drop (S n) text) with t; [exact IH|].
    replace (S n) with (n + 1) by lia. by rewrite <- drop_drop, E.
Qed.

(** ** The loop *)

(** What the remembered star still allows: a later start for its rest. *)
Definition star_alt (pattern text : list A) (star : option nat) (smi : nat) : Prop :=
  exists sp m, star = Some sp /\ smi < m <= length text /\ matches (drop (S sp) pattern) (drop m text).

Definition loop_inv (pattern text : list A) (p c : nat) (star : option nat) (smi : nat) : Prop :=
  p <= length pattern /\ c <= length text /\ smi <= c /\
  match star with
  | None => True
  | Some sp => exists n k, reach (drop (S sp) pattern) n k /\ p = S sp + k /\ c = smi + n
  end.

Definition measure (pattern text : list A) (p smi : nat) : nat :=
  (length text - smi) * (length pattern + 1) + (length pattern - p).

Lemma measure_star pattern text p c smi :
  p < length pattern -> smi <= c -> measure pattern text (S p) c < measure pattern text p smi.
Proof.
  intros Hp Hc. unfold measure.
  pose proof (Nat.mul_le_mono_r (length text - c) (length text - smi) (length pattern + 1) ltac:(lia)). lia.
Qed.

Lemma measure_back pattern text p p' smi :
  smi < length text -> measure pattern text p' (S smi) < measure pattern text p smi.
Proof.
  intros Hs. unfold measure. replace (length text - smi) with (S (length text - S smi)) by lia. simpl. lia.
Qed.

(** At a star the alternatives of the previous star are subsumed. *)
Lemma star_alt_subsumed pattern text p c star smi s :
  loop_inv pattern text p c star smi -> pattern !! p = Some s -> is_star s = true ->
  star_alt pattern text star smi -> matches (drop p pattern) (drop c text).
Proof.
  intros (Hp & Hc & Hsc & Hr) Hs Hstar (sp & m & -> & Hm & Hmatch).
  destruct Hr as (n & k & Hr & -> & ->).
  destruct (reach_matches _ _ _ _ Hr Hmatch) as [Hn Hm2]. rewrite !drop_drop in Hm2.
  rewrite length_drop in Hn. rewrite (drop_S _ _ _ Hs) in Hm2 |- *.
  apply (matches_star s _ _ Hstar) in Hm2 as (j & Hj & Hm2). apply (matches_star s _ _ Hstar).
  exists (m - smi + j). rewrite length_drop in *. split; [lia|]. rewrite drop_drop in *.
  by replace (smi + n + (m - smi + j)) with (m + n + j) by lia.
Qed.

(** At the end of the text no later start is left. *)
Lemma star_alt_end pattern text p star smi :
  loop_inv pattern text p (length text) star smi -> ~ star_alt pattern text star smi.
Proof.
  intros (_ & _ & _ & Hr) (sp & m & -> & Hm & Hmatch). destruct Hr as (n & k & Hr & _ & Hn).
  destruct (reach_matches _ _ _ _ Hr Hmatch) as [Hl _]. rewrite length_drop in Hl. lia.
Qed.

Lemma star_alt_back pattern text sp smi :
  smi < length text ->
  (star_alt pattern text (Some sp) smi <->
   matches (drop (S sp) pattern) (drop (S smi) text) \/ star_alt pattern text (Some sp) (S smi)).
Proof.
  intros Hs. split.
  - intros (sp' & m & [= <-] & Hm & Hmatch). destruct (decide (m = S smi)) as [->|Hne]; [by left|].
    right. exists sp, m. split_and!; [done|lia|lia|done].
  - intros [Hm|(sp' & m & [= <-] & Hm & Hmatch)]; [exists sp, (S smi)|exists sp, m]; split_and!; try done; lia.
Qed.

Definition decides (r : option bool) (P : Prop) : Prop := exists b, r = Some b /\ (b = true <-> P).

Lemma decides_iff r P Q : decides r P -> (P <-> Q) -> decides r Q.
Proof. intros (b & -> & Hb) HPQ. exists b. split; [done|]. by rewrite Hb. Qed.

Lemma glob_loop_ok fuel pattern text p c star smi :
  loop_inv pattern text p c star smi -> measure pattern text p smi < fuel ->
  decides (glob_loop fuel pattern text p c star smi)
    (matches (drop p pattern) (drop c text) \/ star_alt pattern text star smi).
Proof.
  revert p c star smi. induction fuel as [|fuel IH]; intros p c star smi Hinv Hf; [lia|].
  pose proof Hinv as (Hp & Hc & Hsc & Hr). cbn [glob_loop].
  destruct (text !! c) as [ch|] eqn:Et.
  2: { apply lookup_ge_None in Et. assert (c = length text) as -> by lia.
       eexists. split; [done|]. rewrite drop_all, <- matches_nil.
       pose proof (star_alt_end _ _ _ _ _ Hinv). tauto. }
  pose proof (lookup_lt_Some _ _ _ Et) as Hct.
  assert (Hback : ~ matches (drop p pattern) (drop c text) ->
    decides (match star with
             | Some sp => glob_loop fuel pattern text (S sp) (S smi) star (S smi)
             | None => Some false end)
      (matches (drop p pattern) (drop c text) \/ star_alt pattern text star smi)).
  { intros Hno. destruct star as [sp|].
    - destruct Hr as (n & k & Hr & -> & ->).
      eapply decides_iff; [apply (IH (S sp) (S smi) (Some sp) (S smi))|].
      + split_and!; try lia. exists 0, 0. split_and!; [constructor|lia..].
      + pose proof (measure_back pattern text (S sp + k) (S sp) smi). lia.
      + rewrite (star_alt_back pattern text sp smi) by lia. tauto.
    - exists false. split; [done|]. split; [done|]. intros [?|(sp & m & ? & _)]; done. }
  rewrite (drop_S _ _ _ Et) in Hback |- *.
  destruct (pattern !! p) as [x|] eqn:Ep.
  2: { apply lookup_ge_None in Ep. apply Hback. rewrite (drop_ge pattern) by lia. apply matches_no_pat. }
  pose proof (lookup_lt_Some _ _ _ Ep) as Hpp.
  destruct (is_star x) eqn:Ex.
  - eapply decides_iff; [apply (IH (S p) c (Some p) c)|].
    + split_and!; try lia. exists 0, 0. split_and!; [constructor|lia..].
    + pose proof (measure_star pattern text p c smi). lia.
    + pose proof (star_alt_subsumed _ _ _ _ _ _ _ Hinv Ep Ex) as Hsub.
      rewrite (drop_S _ _ _ Et), (drop_S _ _ _ Ep) in Hsub. rewrite (drop_S _ _ _ Ep).
      rewrite (matches_star x _ _ Ex) in *. split.
      * intros [Hm|(sp & m & [= <-] & Hm & Hmatch)]; left.
        { exists 0. split; [lia|]. by rewrite (drop_S _ _ _ Et) in Hm. }
        exists (m - c). rewrite <- (drop_S _ _ _ Et), length_drop, drop_drop. split; [lia|].
        by replace (c + (m - c)) with m by lia.
      * intros Hor. assert (exists n, n <= length (ch :: drop (S c) text) /\ matches (drop (S p) pattern) (drop n (ch :: drop (S c) text)))
          as (n & Hn & Hm) by (destruct Hor; auto).
        rewrite <- (drop_S _ _ _ Et), length_drop, drop_drop in *.
        destruct n as [|n]; [left; by rewrite Nat.add_0_r in Hm|]. right. exists p, (c + S n). split_and!; [done|lia|lia|done].
  - destruct (arm (drop p pattern) ch) as [k|] eqn:Ea.
    + pose proof (arm_pos _ _ _ Ea) as Hk. rewrite length_drop in Hk.
      eapply decides_iff; [apply (IH (p + k) (S c) star smi)|].
      * split_and!; try lia. destruct star as [sp|]; [|done]. destruct Hr as (n & j & Hr & -> & ->).
        exists (S n), (j + k). split_and!; [|lia|lia]. eapply reach_S; [done| |exact Ex|].
        { by rewrite lookup_drop. }
        { by rewrite drop_drop. }
      * unfold measure in *. lia.
      * rewrite (drop_S _ _ _ Ep) in *. rewrite (matches_cons x _ _ _ Ex), Ea.
        rewrite <- (drop_S _ _ _ Ep). setoid_rewrite drop_drop. naive_solver.
    + apply Hback. rewrite (drop_S _ _ _ Ep) in *. rewrite (matches_cons x _ _ _ Ex), Ea. by intros (k & ? & _).
Qed.

(** The loop decides the relation, and its fuel is enough. *)
Lemma glob_run_ok pattern text : decides (glob_run pattern text) (matches pattern text).
Proof.
  eapply decides_iff; [apply (glob_loop_ok _ pattern text 0 0 None 0)|].
  - split_and!; done || lia.
  - unfold measure. lia.
  - split; [intros [?|(sp & m & ? & _)]; done|by left].
Qed.
End loop.

(** ** Channel patterns (src/pubsub.rs) *)

Definition is_star_byte (x : byte) : bool := x =b "*".

Definition backslash : byte := byte_of 92.

Definition channel_arm (pat : bytes) (c : byte) : option nat :=
  match pat with
  | [] => None
  | x :: t =>
      if x =b "?" then Some 1
      else
        match t with
        | y :: _ =>
            if x =b backslash then if y =b c then Some 2 else None
            else if x =b c then Some 1 else None
        | [] => if x =b c then Some 1 else None
        end
  end.

Definition channel_pattern_matches (pattern channel : bytes) : bool :=
  default false (glob_run is_star_byte channel_arm pattern channel).

(** What a channel pattern means. *)
Inductive channel_glob : bytes -> bytes -> Prop :=
  | cg_nil : channel_glob [] []
  | cg_any p c t : channel_glob p t -> channel_glob ("?"%byte :: p) (c :: t)
  | cg_star_none p t : channel_glob p t -> channel_glob ("*"%byte :: p) t
  | cg_star_more p c t : channel_glob ("*"%byte :: p) t -> channel_glob ("*"%byte :: p) (c :: t)
  | cg_escape x p t : channel_glob p t -> channel_glob (backslash :: x :: p) (x :: t)
  | cg_char x p t :
      x <> "?"%byte -> x <> "*"%byte -> x <> backslash \/ p = [] -> channel_glob p t ->
      channel_glob (x :: p) (x :: t).

#[global] Instance channel_arm_ok : ArmOk channel_arm.
Proof.
  split.
  - intros [|x [|y t]] c k; simpl; repeat case_match; intros; simplify_eq; simpl; lia.
  - intros [|x [|y t]] c c' k k'; simpl; repeat case_match; intros; simplify_eq; done.
Qed.

Lemma star_glob p t : channel_glob ("*"%byte :: p) t <-> exists n, n <= length t /\ channel_glob p (drop n t).
Proof.
  split.
  - remember ("*"%byte :: p) as q eqn:Eq. induction 1; simplify_eq.
    + exists 0. simpl. split; [lia|done].
    + destruct IHchannel_glob as (n & Hn & Hm); [done|]. exists (S n). simpl. split; [lia|done].
  - intros (n & Hn & Hm). revert t Hn Hm. induction n as [|n IH]; intros t Hn Hm; [by constructor|].
    destruct t as [|c t]; simpl in *; [lia|]. apply cg_star_more, IH; [lia|done].
Qed.

Lemma channel_matches_glob pat t : matches is_star_byte channel_arm pat t <-> channel_glob pat t.
Proof.
  split.
  - induction 1 as [|s pat n t Hs Hn Hm IH|x pat c t k Hx Hk Hm IH]; [constructor| |].
    + apply beq_true in Hs as ->. apply star_glob. eauto.
    + apply beq_false in Hx. simpl in Hk. destruct (x =b "?") eqn:E1.
      { apply beq_true in E1 as ->. simplify_eq. by constructor. }
      apply beq_false in E1. destruct pat as [|y pat].
      * destruct (x =b c) eqn:E2; [|done]. apply beq_true in E2 as ->. simplify_eq. constructor; auto.
      * destruct (x =b backslash) eqn:E2.
        -- apply beq_true in E2 as ->. destruct (y =b c) eqn:E3; [|done]. apply beq_true in E3 as ->.
           simplify_eq. by constructor.
        -- apply beq_false in E2. destruct (x =b c) eqn:E3; [|done]. apply beq_true in E3 as ->.
           simplify_eq. constructor; auto.
  - induction 1 as [|p c t Hm IH|p t Hm IH|p c t Hm IH|x p t Hm IH|x p t H1 H2 H3 Hm IH].
    + constructor.
    + by eapply m_one.
    + apply (m_star _ _ _ _ 0); [done|lia|done].
    + apply matches_star in IH as (n & Hn & IH); [|done]. apply (m_star _ _ _ _ (S n)); [done|simpl; lia|done].
    + eapply m_one; [done|simpl; rewrite (byte_eqb_refl x); reflexivity|done].
    + eapply (m_one _ _ x p x t 1); [by apply beq_false| |done]. simpl.
      rewrite (proj2 (beq_false x "?") H1), (byte_eqb_refl x). destruct p as [|y p]; [done|].
      destruct H3 as [H3|]; [|done]. by rewrite (proj2 (beq_false x backslash) H3).
Qed.

Lemma channel_pattern_matches_glob pattern channel :
  channel_pattern_matches pattern channel = true <-> channel_glob pattern channel.
Proof.
  unfold channel_pattern_matches. destruct (glob_run_ok is_star_byte channel_arm pattern channel) as (b & -> & Hb).
  simpl. by rewrite Hb, channel_matches_glob.
Qed.

(** ** Key patterns (src/storage/engine.rs) *)

Definition is_star_char (x : Z) : bool := (x =? 42)%Z.

(** [chars[i]], for an index in range. *)
Definition char_at (l : list Z) (i : nat) : Z := default 0%Z (l !! i).

(** The loop over a class, from [i] on, up to the closing bracket. *)
Fixpoint class_loop (fuel : nat) (pat : list Z) (class_end i : nat) (c : Z) : bool :=
  match fuel with
  | O => false
  | S fuel' =>
      if i <? class_end then
        let at_ := char_at pat in
        if (i + 2 <? class_end) && (at_ (S i) =? 45)%Z then
          if (at_ i <=? c)%Z && (c <=? at_ (S (S i)))%Z then true else class_loop fuel' pat class_end (i + 3) c
        else if (c =? at_ i)%Z then true else class_loop fuel' pat class_end (i + 1) c
      else false
  end.

(** [iter().position(|&c| c == ']')] *)
Fixpoint position_of (x : Z) (l : list Z) : option nat :=
  match l with
  | [] => None
  | y :: t => if (y =? x)%Z then Some O else option_map S (position_of x t)
  end.

Definition key_arm (pat : list Z) (c : Z) : option nat :=
  match pat with
  | [] => None
  | x :: t =>
      if (x =? 63)%Z then Some 1
      else if (x =? 91)%Z then
        match position_of 93 pat with
        | Some class_end =>
            let negate := (1 <? class_end) && (char_at pat 1 =? 94)%Z in
            let start_idx := if negate then 2 else 1 in
            let matched := class_loop class_end pat class_end start_idx c in
            if negb (eqb matched negate) then Some (S class_end) else None
        | None => None
        end
      else
        match t with
        | y :: _ =>
            if (x =? 92)%Z then if (y =? c)%Z then Some 2 else None
            else if (x =? c)%Z then Some 1 else None
        | [] => if (x =? c)%Z then Some 1 else None
        end
  end.

(** [pattern_matches(pattern: &str, text: &str)] *)
Definition key_pattern_matches (pattern text : bytes) : bool :=
  default false (glob_run is_star_char key_arm (utf8_chars pattern) (utf8_chars text)).

(** The characters a class lists: single ones and ranges [a-b]. *)
Fixpoint in_class (body : list Z) (c : Z) : bool :=
  match body with
  | [] => false
  | a :: t =>
      match t with
      | b :: d :: rest =>
          if (b =? 45)%Z then ((a <=? c)%Z && (c <=? d)%Z) || in_class rest c
          else (c =? a)%Z || in_class t c
      | _ => (c =? a)%Z || in_class t c
      end
  end.

Definition class_accepts (body : list Z) (c : Z) : bool :=
  match body with
  | x :: rest => if (x =? 94)%Z then negb (in_class rest c) else in_class body c
  | [] => false
  end.

(** What a key pattern means; an opening bracket that is never closed matches
    nothing. *)
Inductive key_glob : list Z -> list Z -> Prop :=
  | kg_nil : key_glob [] []
  | kg_any p c t : key_glob p t -> key_glob (63%Z :: p) (c :: t)
  | kg_star_none p t : key_glob p t -> key_glob (42%Z :: p) t
  | kg_star_more p c t : key_glob (42%Z :: p) t -> key_glob (42%Z :: p) (c :: t)
  | kg_class body p c t :
      93%Z ∉ body -> class_accepts body c = true -> key_glob p t ->
      key_glob (91%Z :: body ++ 93%Z :: p) (c :: t)
  | kg_escape x p t : key_glob p t -> key_glob (92%Z :: x :: p) (x :: t)
  | kg_char x p t :
      x ∉ [63%Z; 42%Z; 91%Z] -> x <> 92%Z \/ p = [] -> key_glob p t -> key_glob (x :: p) (x :: t).

Lemma position_of_Some x l n :
  position_of x l = Some n <-> exists l1 l2, l = l1 ++ x :: l2 /\ (x ∉ l1) /\ n = length l1.
Proof.
  split.
  - revert n. induction l as [|y t IH]; intros n; simpl; [done|].
    destruct (Z.eqb_spec y x) as [->|Hne].
    + intros [= <-]. exists [], t. split_and!; [done|apply not_elem_of_nil|done].
    + destruct (position_of x t) as [m|]; simpl; intros [= <-].
      destruct (IH m eq_refl) as (l1 & l2 & -> & Hn & ->). exists (y :: l1), l2.
      split_and!; [done|by apply not_elem_of_cons|done].
  - intros (l1 & l2 & -> & Hn & ->). induction l1 as [|y l1 IH]; simpl; [by rewrite Z.eqb_refl|].
    apply not_elem_of_cons in Hn as [Hne Hn]. rewrite (proj2 (Z.eqb_neq y x)) by done. by rewrite IH.
Qed.

Lemma class_loop_eq fuel pat e i c :
  e <= length pat -> e - i <= fuel -> class_loop fuel pat e i c = in_class (take (e - i) (drop i pat)) c.
Proof.
  revert i. induction fuel as [|fuel IH]; intros i He Hf; cbn [class_loop].
  { replace (e - i) with 0 by lia. done. }
  destruct (Nat.ltb_spec i e) as [Hi|Hi]; [|by replace (e - i) with 0 by lia].
  assert (Hat : forall j, j < e -> exists x, pat !! j = Some x /\ drop j pat = x :: drop (S j) pat).
  { intros j Hj. destruct (lookup_lt_is_Some_2 pat j) as [x Hx]; [lia|]. exists x. by rewrite <- (drop_S _ _ _ Hx). }
  destruct (Hat i Hi) as (a & Ea & Da).
  assert (Hone : class_loop fuel pat e (i + 1) c = in_class (take (e - S i) (drop (S i) pat)) c).
  { rewrite IH by lia. do 2 f_equal; [lia|f_equal; lia]. }
  assert (Hsingle : forall b, b = ((c =? a)%Z || in_class (take (e - S i) (drop (S i) pat)) c) ->
     (if (c =? char_at pat i)%Z then true else class_loop fuel pat e (i + 1) c) = b).
  { intros b ->. unfold char_at. rewrite Ea, Hone. simpl. by destruct (c =? a)%Z. }
  rewrite Da. replace (e - i) with (S (e - S i)) by lia. cbn [take in_class].
  destruct (Nat.ltb_spec (i + 2) e) as [Hi2|Hi2].
  - destruct (Hat (S i) ltac:(lia)) as (b & Eb & Db). destruct (Hat (S (S i)) ltac:(lia)) as (d & Ed & Dd).
    rewrite Db, Dd. replace (e - S i) with (S (S (e - S (S (S i))))) by lia. cbn [take].
    assert (char_at pat (S i) = b) as -> by (unfold char_at; by rewrite Eb).
    assert (char_at pat (S (S i)) = d) as -> by (unfold char_at; by rewrite Ed).
    simpl andb.
    destruct (b =? 45)%Z.
    + assert (char_at pat i = a) as -> by (unfold char_at; by rewrite Ea). destruct (_ && _); [done|]. simpl. rewrite IH by lia.
      do 2 f_equal; [lia|f_equal; lia].
    + apply Hsingle. do 2 f_equal. rewrite Db, Dd. by replace (e - S i) with (S (S (e - S (S (S i))))) by lia.
  - simpl andb. cbv iota. apply Hsingle.
    destruct (take (e - S i) (drop (S i) pat)) as [|b [|d r]] eqn:E; try done.
    apply (f_equal length) in E. rewrite length_take, length_drop in E. simpl in E. lia.
Qed.

(** A class arm: what is between the brackets decides. *)
Lemma class_arm_iff t c k :
  key_arm (91%Z :: t) c = Some k <->
  exists body p, t = body ++ 93%Z :: p /\ (93%Z ∉ body) /\ class_accepts body c = true /\ k = S (S (length body)).
Proof.
  cbn [key_arm]. rewrite (proj2 (Z.eqb_neq 91%Z 63%Z)), Z.eqb_refl by done.
  destruct (position_of 93 (91%Z :: t)) as [e|] eqn:E.
  - apply position_of_Some in E as (l1 & l2 & El & Hn & ->). destruct l1 as [|x body]; [done|].
    injection El as <- ->. apply not_elem_of_cons in Hn as [_ Hn].
    assert (Hdec : forall b p, body ++ 93%Z :: l2 = b ++ 93%Z :: p -> 93%Z ∉ b -> b = body /\ p = l2).
    { intros b p Eq Hb. assert (H1 : position_of 93 (body ++ 93%Z :: l2) = Some (length body)) by (apply position_of_Some; eauto).
      assert (H2 : position_of 93 (b ++ 93%Z :: p) = Some (length b)) by (apply position_of_Some; eauto).
      rewrite Eq, H2 in H1. injection H1 as H1. apply app_inj_1 in Eq as [-> Eq]; [|done]. by injection Eq as ->. }
    simpl length. assert (Hbody : forall j, j <= length body ->
      (take (S (length body) - S j) (drop (S j) (91%Z :: body ++ 93%Z :: l2)) = drop j body)).
    { intros j Hj. simpl. rewrite drop_app_le by done. apply take_app_length'. by rewrite length_drop. }
    assert (Hacc : eqb (class_loop (S (length body)) (91%Z :: body ++ 93%Z :: l2) (S (length body))
        (if (1 <? S (length body)) && (char_at (91%Z :: body ++ 93%Z :: l2) 1 =? 94)%Z then 2 else 1) c)
        ((1 <? S (length body)) && (char_at (91%Z :: body ++ 93%Z :: l2) 1 =? 94)%Z)
      = negb (class_accepts body c)).
    { destruct body as [|x body]; [done|]. unfold char_at. cbn [app lookup list_lookup default class_accepts].
      change (1 <? S (length (x :: body))) with true. simpl andb.
      destruct (x =? 94)%Z; rewrite class_loop_eq by (simpl; rewrite ?length_app; simpl; lia).
      - replace (take _ _) with body by (symmetry; exact (Hbody 1 ltac:(simpl; lia))). by destruct (in_class body c).
      - replace (take _ _) with (x :: body) by (symmetry; exact (Hbody 0 ltac:(lia))).
        by destruct (in_class (x :: body) c). }
    rewrite Hacc, negb_involutive. split.
    + destruct (class_accepts body c) eqn:Ea; [|done]. intros [= <-]. by exists body, l2.
    + intros (b & p & Eq & Hb & Ha & ->). destruct (Hdec b p Eq Hb) as [-> ->]. by rewrite Ha.
  - split; [done|]. intros (body & p & -> & Hn & _).
    assert (position_of 93 (91%Z :: body ++ 93%Z :: p) = Some (S (length body))) as E2; [|congruence].
    apply position_of_Some. exists (91%Z :: body), p. split_and!; [done|by apply not_elem_of_cons|done].
Qed.

Lemma key_arm_class_fixed t c c' k k' :
  key_arm (91%Z :: t) c = Some k -> key_arm (91%Z :: t) c' = Some k' -> k = k'.
Proof.
  intros (b & p & -> & Hb & _ & ->)%class_arm_iff (b' & p' & E & Hb' & _ & ->)%class_arm_iff.
  assert (H1 : position_of 93 (b ++ 93%Z :: p) = Some (length b)) by (apply position_of_Some; eauto).
  assert (H2 : position_of 93 (b' ++ 93%Z :: p') = Some (length b')) by (apply position_of_Some; eauto).
  rewrite E, H2 in H1. congruence.
Qed.

(** The arms other than a class. *)
Lemma key_arm_plain x t c : x <> 91%Z ->
  key_arm (x :: t) c =
    if (x =? 63)%Z then Some 1
    else match t with
         | y :: _ => if (x =? 92)%Z then if (y =? c)%Z then Some 2 else None
                     else if (x =? c)%Z then Some 1 else None
         | [] => if (x =? c)%Z then Some 1 else None
         end.
Proof. intros Hx. cbn [key_arm]. by rewrite (proj2 (Z.eqb_neq x 91%Z) Hx). Qed.

#[global] Instance key_arm_ok : ArmOk key_arm.
Proof.
  split.
  - intros [|x t] c k; [done|]. destruct (Z.eq_dec x 91%Z) as [->|Hx].
    + intros (b & p & -> & _ & _ & ->)%class_arm_iff. simpl. rewrite length_app. simpl. lia.
    + rewrite key_arm_plain by done. destruct t; repeat case_match; intros; simplify_eq; simpl; lia.
  - intros [|x t] c c' k k'; [done|]. destruct (Z.eq_dec x 91%Z) as [->|Hx]; [apply key_arm_class_fixed|].
    rewrite !key_arm_plain by done. destruct t; repeat case_match; intros; simplify_eq; done.
Qed.

Lemma key_star_glob p t : key_glob (42%Z :: p) t <-> exists n, n <= length t /\ key_glob p (drop n t).
Proof.
  split.
  - remember (42%Z :: p) as q eqn:Eq. induction 1; simplify_eq.
    + exists 0. simpl. split; [lia|done].
    + destruct IHkey_glob as (n & Hn & Hm); [done|]. exists (S n). simpl. split; [lia|done].
    + exfalso. set_solver.
  - intros (n & Hn & Hm). revert t Hn Hm. induction n as [|n IH]; intros t Hn Hm; [by constructor|].
    destruct t as [|c t]; simpl in *; [lia|]. apply kg_star_more, IH; [lia|done].
Qed.

Lemma key_matches_glob_1 pat t : matches is_star_char key_arm pat t -> key_glob pat t.
Proof.
  induction 1 as [|s pat n t Hs Hn Hm IH|x pat c t k Hx Hk Hm IH]; [constructor| |].
  - apply Z.eqb_eq in Hs as ->. apply key_star_glob. eauto.
  - apply Z.eqb_neq in Hx. destruct (Z.eq_dec x 91%Z) as [->|H91].
    + apply class_arm_iff in Hk as (b & p & -> & Hb & Ha & ->).
      assert (E : drop (S (S (length b))) (91%Z :: b ++ 93%Z :: p) = p).
      { simpl. rewrite drop_app_ge by lia. by replace (S (length b) - length b) with 1 by lia. }
      rewrite E in IH. by constructor.
    + rewrite key_arm_plain in Hk by done. destruct (Z.eqb_spec x 63%Z) as [->|H63]; [simplify_eq; by constructor|].
      destruct pat as [|y pat].
      * destruct (Z.eqb_spec x c) as [->|]; simplify_eq. constructor; [set_solver|by right|done].
      * destruct (Z.eqb_spec x 92%Z) as [->|H92].
        -- destruct (Z.eqb_spec y c) as [->|]; simplify_eq. by constructor.
        -- destruct (Z.eqb_spec x c) as [->|]; simplify_eq. constructor; [set_solver|by left|done].
Qed.

Lemma key_matches_glob_2 pat t : key_glob pat t -> matches is_star_char key_arm pat t.
Proof.
  induction 1 as [|p c t Hm IH|p t Hm IH|p c t Hm IH|b p c t Hb Ha Hm IH|x p t Hm IH|x p t H1 H2 Hm IH].
  - constructor.
  - by eapply m_one.
  - apply (m_star _ _ _ _ 0); [done|lia|done].
  - apply matches_star in IH as (n & Hn & IH); [|done]. apply (m_star _ _ _ _ (S n)); [done|simpl; lia|done].
  - eapply m_one; [done|apply class_arm_iff; exists b, p; split_and!; done|].
    simpl. rewrite drop_app_ge by lia. by replace (S (length b) - length b) with 1 by lia.
  - eapply m_one; [done|rewrite key_arm_plain by done; simpl; rewrite Z.eqb_refl; reflexivity|done].
  - assert (x <> 63 /\ x <> 42 /\ x <> 91)%Z as (H63 & H42 & H91) by set_solver.
    eapply (m_one _ _ x p x t 1); [by apply Z.eqb_neq| |done].
    rewrite key_arm_plain, (proj2 (Z.eqb_neq x 63%Z)), Z.eqb_refl by done. destruct p as [|y p]; [done|].
    destruct H2 as [H2|]; [|done]. by rewrite (proj2 (Z.eqb_neq x 92%Z) H2).
Qed.

Lemma key_pattern_matches_glob pattern text :
  key_pattern_matches pattern text = true <-> key_glob (utf8_chars pattern) (utf8_chars text).
Proof.
  unfold key_pattern_matches.
  destruct (glob_run_ok is_star_char key_arm (utf8_chars pattern) (utf8_chars text)) as (b & -> & Hb).
  simpl. rewrite Hb. split; [apply key_matches_glob_1|apply key_matches_glob_2].
Qed.

(** ** Properties *)

(** The channel matcher of PSUBSCRIBE, a loop with a single backtrack point,
    terminates within its fuel and accepts exactly the channels that the
    declarative reading of the pattern accepts. *)
Theorem channel_pattern_exact pattern channel :
  is_Some (glob_run is_star_byte channel_arm pattern channel) /\
  (channel_pattern_matches pattern channel = true <-> channel_glob pattern channel).
Proof.
  split; [|apply channel_pattern_matches_glob].
  destruct (glob_run_ok is_star_byte channel_arm pattern channel) as (b & -> & _). eauto.
Qed.

(** C36. The key matcher of KEYS and SCAN, with character classes, their ranges and
    negation, terminates within its fuel and accepts exactly what the
    declarative reading of the pattern accepts. *)
Theorem key_pattern_exact pattern text :
  is_Some (glob_run is_star_char key_arm (utf8_chars pattern) (utf8_chars text)) /\
  (key_pattern_matches pattern text = true <-> key_glob (utf8_chars pattern) (utf8_chars text)).
Proof.
  split; [|apply key_pattern_matches_glob].
  destruct (glob_run_ok is_star_char key_arm (utf8_chars pattern) (utf8_chars text)) as (b & -> & _). eauto.
Qed.

Example channel_pattern_news : channel_pattern_matches (B "news.*.[a]?") (B "news.x.y.[a]b") = true.
Proof. reflexivity. Qed.

Example key_pattern_class : map (key_pattern_matches (B "h[^a-c]llo*")) [B "hello"; B "hbllo"; B "hello world"] =
  [true; false; true].
Proof. reflexivity. Qed.
