(* ===== verification/PubSub.v ===== *)
(** * Publish and subscribe (src/pubsub.rs)

    [PubSubManager]: who is subscribed to which channel and pattern, and for
    each connection what it is subscribed to.  Every method holds the locks it
    needs for its whole body ([publish] takes them one after the other, on a
    server that runs one command at a time), so a method is one function on the
    three maps.  The order in which a [HashSet] or [HashMap] is iterated is the
    interface [HashIter]: some order of its elements. *)

From S2P Require Import Prelude Text Resp Glob.

(** Iteration of hashed collections, in an order the code may not rely on. *)
Class HashIter := {
  set_iter {A} `{Countable A} : gset A -> list A;
  map_iter {K} `{Countable K} {V} : gmap K V -> list (K * V);
  set_iter_perm {A} `{Countable A} (X : gset A) : set_iter X ≡ₚ elements X;
  map_iter_perm {K} `{Countable K} {V} (m : gmap K V) : map_iter m ≡ₚ map_to_list m;
}.

(** The order of the finite maps themselves, with which examples are run. *)
Definition default_iter : HashIter :=
  {| set_iter A _ _ X := elements X; map_iter K _ _ V m := map_to_list m;
     set_iter_perm A _ _ X := reflexivity (elements X);
     map_iter_perm K _ _ V m := reflexivity (map_to_list m) |}.

Inductive Subscription :=
  | Channel (c : bytes)
  | Pattern (p : bytes).

Record SubscriberInfo := mkInfo {
  connection_id : Z;
  info_channels : gset bytes;
  info_patterns : gset bytes;
}.

Record SubResult := mkSub {
  subscription : Subscription;
  num_subscriptions : nat;
  is_new : bool;
}.

Record PubSubManager := mkPubSub {
  channels : gmap bytes (gset Z);
  patterns : gmap bytes (gset Z);
  connections : gmap Z SubscriberInfo;
}.

Definition pubsub_new : PubSubManager := mkPubSub ∅ ∅ ∅.

Definition info_new (c : Z) : SubscriberInfo := mkInfo c ∅ ∅.

Definition total_subs (i : SubscriberInfo) : nat := size (info_channels i) + size (info_patterns i).

(** [map.entry(k).or_insert_with(HashSet::new).insert(c)] *)
Definition add_sub (k : bytes) (c : Z) (m : gmap bytes (gset Z)) : gmap bytes (gset Z) :=
  <[k := {[c]} ∪ default ∅ (m !! k)]> m.

(** Remove [c] from the set of [k], and the set when it became empty. *)
Definition remove_sub (k : bytes) (c : Z) (m : gmap bytes (gset Z)) : gmap bytes (gset Z) :=
  match m !! k with
  | Some s => let s' := s ∖ {[c]} in if decide (s' = ∅) then delete k m else <[k := s']> m
  | None => m
  end.

(** One turn of the loop of [subscribe]. *)
Definition subscribe_one (c : Z) (st : SubscriberInfo * gmap bytes (gset Z) * list SubResult) (ch : bytes)
    : SubscriberInfo * gmap bytes (gset Z) * list SubResult :=
  let '(info, subs, results) := st in
  let '(info', subs', fresh) :=
    if decide (ch ∈ info_channels info) then (info, subs, false)
    else (mkInfo (connection_id info) ({[ch]} ∪ info_channels info) (info_patterns info), add_sub ch c subs, true) in
  (info', subs', results ++ [mkSub (Channel ch) (total_subs info') fresh]).

Definition subscribe (m : PubSubManager) (c : Z) (chans : list bytes) : PubSubManager * list SubResult :=
  let info := default (info_new c) (connections m !! c) in
  let '(info', subs, results) := foldl (subscribe_one c) (info, channels m, []) chans in
  (mkPubSub subs (patterns m) (<[c := info']> (connections m)), results).

Definition unsubscribe_one (c : Z) (st : SubscriberInfo * gmap bytes (gset Z) * list SubResult) (ch : bytes)
    : SubscriberInfo * gmap bytes (gset Z) * list SubResult :=
  let '(info, subs, results) := st in
  let was_subscribed := bool_decide (ch ∈ info_channels info) in
  let info' := mkInfo (connection_id info) (info_channels info ∖ {[ch]}) (info_patterns info) in
  let subs' := if was_subscribed then remove_sub ch c subs else subs in
  (info', subs', results ++ [mkSub (Channel ch) (total_subs info') false]).

(** [if channels.is_empty() && patterns.is_empty() { conn_subs.remove(..) }] *)
Definition put_info (c : Z) (info : SubscriberInfo) (m : gmap Z SubscriberInfo) : gmap Z SubscriberInfo :=
  if decide (info_channels info = ∅ /\ info_patterns info = ∅) then delete c m else <[c := info]> m.

Definition psubscribe_one (c : Z) (st : SubscriberInfo * gmap bytes (gset Z) * list SubResult) (p : bytes)
    : SubscriberInfo * gmap bytes (gset Z) * list SubResult :=
  let '(info, subs, results) := st in
  let fresh := bool_decide (p ∉ info_patterns info) in
  let info' := mkInfo (connection_id info) (info_channels info) ({[p]} ∪ info_patterns info) in
  let subs' := if fresh then add_sub p c subs else subs in
  (info', subs', results ++ [mkSub (Pattern p) (total_subs info') fresh]).

Definition psubscribe (m : PubSubManager) (c : Z) (pats : list bytes) : PubSubManager * list SubResult :=
  let info := default (info_new c) (connections m !! c) in
  let '(info', subs, results) := foldl (psubscribe_one c) (info, patterns m, []) pats in
  (mkPubSub (channels m) subs (<[c := info']> (connections m)), results).

Definition punsubscribe_one (c : Z) (st : SubscriberInfo * gmap bytes (gset Z) * list SubResult) (p : bytes)
    : SubscriberInfo * gmap bytes (gset Z) * list SubResult :=
  let '(info, subs, results) := st in
  let was_subscribed := bool_decide (p ∈ info_patterns info) in
  let info' := mkInfo (connection_id info) (info_channels info) (info_patterns info ∖ {[p]}) in
  let subs' := if was_subscribed then remove_sub p c subs else subs in
  (info', subs', results ++ [mkSub (Pattern p) (total_subs info') false]).

(** The two loops at the start of [unsubscribe_all], on one of the maps: the
    connection leaves every set, and the sets that became empty go. *)
Definition leave_all (c : Z) (m : gmap bytes (gset Z)) : gmap bytes (gset Z) :=
  omap (fun s => let s' := s ∖ {[c]} in if decide (s' = ∅) then None else Some s') m.

Definition unsubscribe_all (m : PubSubManager) (c : Z) : PubSubManager :=
  mkPubSub (leave_all c (channels m)) (leave_all c (patterns m)) (delete c (connections m)).

Definition get_subscription_info (m : PubSubManager) (c : Z) : option SubscriberInfo := connections m !! c.
Definition is_subscribed (m : PubSubManager) (c : Z) : bool := bool_decide (is_Some (connections m !! c)).
Definition channel_subscriber_count (m : PubSubManager) (ch : bytes) : nat := size (default ∅ (channels m !! ch)).

Section iteration.
Context `{HashIter}.

Definition unsubscribe (m : PubSubManager) (c : Z) (chans : option (list bytes)) : PubSubManager * list SubResult :=
  match connections m !! c with
  | None => (m, [])
  | Some info =>
      let channels_to_remove := match chans with Some l => l | None => set_iter (info_channels info) end in
      let '(info', subs, results) := foldl (unsubscribe_one c) (info, channels m, []) channels_to_remove in
      (mkPubSub subs (patterns m) (put_info c info' (connections m)), results)
  end.

Definition punsubscribe (m : PubSubManager) (c : Z) (pats : option (list bytes)) : PubSubManager * list SubResult :=
  match connections m !! c with
  | None => (m, [])
  | Some info =>
      let patterns_to_remove := match pats with Some l => l | None => set_iter (info_patterns info) end in
      let '(info', subs, results) := foldl (punsubscribe_one c) (info, patterns m, []) patterns_to_remove in
      (mkPubSub (channels m) subs (put_info c info' (connections m)), results)
  end.

(** [for &conn_id in subscribers { if seen.insert(conn_id) { receivers.push(..) } }] *)
Definition receive (tag : option bytes) (st : gset Z * list (Z * option bytes)) (conns : list Z)
    : gset Z * list (Z * option bytes) :=
  foldl (fun '(seen, out) c => if decide (c ∈ seen) then (seen, out) else ({[c]} ∪ seen, out ++ [(c, tag)])) st conns.

Definition publish (m : PubSubManager) (channel : bytes) : list (Z * option bytes) :=
  let direct :=
    match channels m !! channel with
    | Some s => receive None (∅, []) (set_iter s)
    | None => (∅, [])
    end in
  (foldl (fun st '(p, s) => if channel_pattern_matches p channel then receive (Some p) st (set_iter s) else st)
     direct (map_iter (patterns m))).2.
End iteration.

(** *** Message frames *)

Definition format_message (channel message : bytes) : RespFrame :=
  Array (Some [from_string (B "message"); from_bytes channel; from_bytes message]).
Definition format_pmessage (pattern channel message : bytes) : RespFrame :=
  Array (Some [from_string (B "pmessage"); from_bytes pattern; from_bytes channel; from_bytes message]).
Definition format_subscription (kind : bytes) (name : bytes) (num_subs : nat) : RespFrame :=
  Array (Some [from_string kind; from_bytes name; Integer (Z.of_nat num_subs)]).
Definition format_subscribe_response := format_subscription (B "subscribe").
Definition format_psubscribe_response := format_subscription (B "psubscribe").
Definition format_unsubscribe_response := format_subscription (B "unsubscribe").
Definition format_punsubscribe_response := format_subscription (B "punsubscribe").

(** ** The maps of subscribers *)

Definition in_subs (m : gmap bytes (gset Z)) (k : bytes) (c : Z) : Prop := c ∈ default ∅ (m !! k).
Definition no_empty (m : gmap bytes (gset Z)) : Prop := forall k s, m !! k = Some s -> s <> ∅.

Lemma in_subs_add k c m k' c' : in_subs (add_sub k c m) k' c' <-> (k' = k /\ c' = c) \/ in_subs m k' c'.
Proof.
  unfold in_subs, add_sub. destruct (decide (k = k')) as [->|Hk].
  - rewrite lookup_insert_eq. simpl. set_solver.
  - rewrite lookup_insert_ne by done. naive_solver.
Qed.

Lemma no_empty_add k c m : no_empty m -> no_empty (add_sub k c m).
Proof.
  intros Hm k' s. unfold add_sub. rewrite lookup_insert_Some. intros [[_ <-]|[_ Hs]]; [set_solver|by eapply Hm].
Qed.

Lemma in_subs_remove k c m k' c' :
  in_subs (remove_sub k c m) k' c' <-> in_subs m k' c' /\ ~ (k' = k /\ c' = c).
Proof.
  unfold in_subs, remove_sub. destruct (m !! k) as [s|] eqn:E.
  - cbv zeta. case_decide as Hs; destruct (decide (k = k')) as [<-|Hk];
      rewrite ?lookup_delete_eq, ?lookup_insert_eq, ?lookup_delete_ne, ?lookup_insert_ne by done;
      rewrite ?E; simpl; set_solver.
  - destruct (decide (k = k')) as [<-|Hk]; rewrite ?E; simpl; set_solver.
Qed.

Lemma no_empty_remove k c m : no_empty m -> no_empty (remove_sub k c m).
Proof.
  intros Hm k' s. unfold remove_sub. destruct (m !! k) as [s0|] eqn:E; [|apply Hm]. cbv zeta.
  case_decide; [intros [_ Hs]%lookup_delete_Some; by eapply Hm|].
  rewrite lookup_insert_Some. intros [[_ <-]|[_ Hs]]; [done|by eapply Hm].
Qed.

Lemma in_subs_leave c m k' c' : in_subs (leave_all c m) k' c' <-> in_subs m k' c' /\ c' <> c.
Proof.
  unfold in_subs, leave_all. rewrite lookup_omap. destruct (m !! k') as [s|]; simpl; [|set_solver].
  case_decide; simpl; set_solver.
Qed.

Lemma no_empty_leave c m : no_empty (leave_all c m).
Proof.
  intros k s. unfold leave_all. rewrite lookup_omap. destruct (m !! k); simpl; [|done].
  case_decide; [done|]. by intros [= <-].
Qed.

(** ** The loops *)

Section loops.
(** The side of the subscriptions a command works on, and the other one. *)
Context (proj other : SubscriberInfo -> gset bytes) (mk : bytes -> Subscription) (c : Z).

Abbreviation state := (SubscriberInfo * gmap bytes (gset Z) * list SubResult)%type.

Record loop_ok (st st' : state) (names : list bytes) (final : gset bytes) : Prop := {
  l_empty : no_empty st'.1.2;
  l_self k : k ∈ proj st'.1.1 <-> in_subs st'.1.2 k c;
  l_others k c' : c' <> c -> (in_subs st'.1.2 k c' <-> in_subs st.1.2 k c');
  l_id : connection_id st'.1.1 = connection_id st.1.1;
  l_other : other st'.1.1 = other st.1.1;
  l_names : map subscription st'.2 = map subscription st.2 ++ map mk names;
  l_final : proj st'.1.1 = final;
}.

Definition coherent (st : state) : Prop := no_empty st.1.2 /\ forall k, k ∈ proj st.1.1 <-> in_subs st.1.2 k c.

Lemma loop_fold (step : state -> bytes -> state) (F : gset bytes -> bytes -> gset bytes) names st :
  (forall st k, coherent st -> loop_ok st (step st k) [k] (F (proj st.1.1) k)) ->
  coherent st -> loop_ok st (foldl step st names) names (foldl F (proj st.1.1) names).
Proof.
  intros Hstep. revert st. induction names as [|k names IH]; intros st Hst; simpl.
  { destruct Hst. split; try done. by rewrite app_nil_r. }
  destruct (Hstep st k Hst) as [He Hs Ho Hid Hot Hn Hf].
  destruct (IH (step st k)) as [He' Hs' Ho' Hid' Hot' Hn' Hf']; [by split|].
  split; try done; [|congruence|congruence| |by rewrite Hf', Hf].
  - intros k' c' Hc. rewrite Ho' by done. by apply Ho.
  - rewrite Hn', Hn. simpl. by rewrite <- app_assoc.
Qed.
End loops.

Definition chan_side := loop_ok info_channels info_patterns Channel.
Definition pat_side := loop_ok info_patterns info_channels Pattern.

Lemma subscribe_step c st k :
  coherent info_channels c st -> chan_side c st (subscribe_one c st k) [k] ({[k]} ∪ info_channels st.1.1).
Proof.
  destruct st as [[info subs] res]. intros [He Hs]. simpl in *. unfold subscribe_one.
  destruct (decide (k ∈ info_channels info)) as [Hk|Hk]; split; simpl; try done.
  - by rewrite map_app.
  - set_solver.
  - by apply no_empty_add.
  - intros k'. rewrite in_subs_add, <- Hs. set_solver.
  - intros k' c' Hc. rewrite in_subs_add. naive_solver.
  - by rewrite map_app.
Qed.

Lemma unsubscribe_step c st k :
  coherent info_channels c st -> chan_side c st (unsubscribe_one c st k) [k] (info_channels st.1.1 ∖ {[k]}).
Proof.
  destruct st as [[info subs] res]. intros [He Hs]. simpl in *. unfold unsubscribe_one.
  case_bool_decide as Hk; split; simpl; try done; try by rewrite map_app.
  - by apply no_empty_remove.
  - intros k'. rewrite in_subs_remove, <- Hs. set_solver.
  - intros k' c' Hc. rewrite in_subs_remove. naive_solver.
  - intros k'. rewrite <- Hs. set_solver.
Qed.

Lemma psubscribe_step c st k :
  coherent info_patterns c st -> pat_side c st (psubscribe_one c st k) [k] ({[k]} ∪ info_patterns st.1.1).
Proof.
  destruct st as [[info subs] res]. intros [He Hs]. simpl in *. unfold psubscribe_one.
  case_bool_decide as Hk; split; simpl; try done; try by rewrite map_app.
  - by apply no_empty_add.
  - intros k'. rewrite in_subs_add, <- Hs. set_solver.
  - intros k' c' Hc. rewrite in_subs_add. naive_solver.
  - intros k'. rewrite <- Hs. set_solver.
Qed.

Lemma punsubscribe_step c st k :
  coherent info_patterns c st -> pat_side c st (punsubscribe_one c st k) [k] (info_patterns st.1.1 ∖ {[k]}).
Proof.
  destruct st as [[info subs] res]. intros [He Hs]. simpl in *. unfold punsubscribe_one.
  case_bool_decide as Hk; split; simpl; try done; try by rewrite map_app.
  - by apply no_empty_remove.
  - intros k'. rewrite in_subs_remove, <- Hs. set_solver.
  - intros k' c' Hc. rewrite in_subs_remove. naive_solver.
  - intros k'. rewrite <- Hs. set_solver.
Qed.

Lemma foldl_add (names : list bytes) (X : gset bytes) : foldl (fun X k => {[k]} ∪ X) X names = X ∪ list_to_set names.
Proof. revert X. induction names as [|k names IH]; intros X; simpl; [set_solver|]. rewrite IH. set_solver. Qed.

Lemma foldl_remove (names : list bytes) (X : gset bytes) : foldl (fun X k => X ∖ {[k]}) X names = X ∖ list_to_set names.
Proof. revert X. induction names as [|k names IH]; intros X; simpl; [set_solver|]. rewrite IH. set_solver. Qed.

(** ** The invariant *)

(** What connection [c] is subscribed to, by its own record. *)
Definition channels_of (m : PubSubManager) (c : Z) : gset bytes :=
  match connections m !! c with Some i => info_channels i | None => ∅ end.
Definition patterns_of (m : PubSubManager) (c : Z) : gset bytes :=
  match connections m !! c with Some i => info_patterns i | None => ∅ end.

(** The three maps agree, and none keeps an empty set. *)
Record pubsub_ok (m : PubSubManager) : Prop := {
  po_channels : no_empty (channels m);
  po_patterns : no_empty (patterns m);
  po_chan k c : k ∈ channels_of m c <-> in_subs (channels m) k c;
  po_pat k c : k ∈ patterns_of m c <-> in_subs (patterns m) k c;
  po_info c i : connections m !! c = Some i ->
    connection_id i = c /\ ~ (info_channels i = ∅ /\ info_patterns i = ∅);
}.

Lemma pubsub_new_ok : pubsub_ok pubsub_new.
Proof. split; try done; intros k c; unfold channels_of, patterns_of, in_subs; simpl; set_solver. Qed.

Lemma lookup_put_info c i m c' :
  put_info c i m !! c' =
    if decide (c' = c) then (if decide (info_channels i = ∅ /\ info_patterns i = ∅) then None else Some i)
    else m !! c'.
Proof.
  unfold put_info. destruct (decide (c' = c)) as [->|Hc]; case_decide;
    rewrite ?lookup_delete_eq, ?lookup_insert_eq, ?lookup_delete_ne, ?lookup_insert_ne by done; done.
Qed.

(** The manager after a loop over channels, whether or not the connection's
    record is dropped when it became empty. *)
Lemma chan_loop_ok m c info st' names final conns' :
  pubsub_ok m -> info_patterns info = patterns_of m c -> connection_id info = c ->
  chan_side c (info, channels m, []) st' names final ->
  (forall c', conns' !! c' =
     if decide (c' = c) then (if decide (final = ∅ /\ patterns_of m c = ∅) then None else Some st'.1.1)
     else connections m !! c') ->
  let m' := mkPubSub st'.1.2 (patterns m) conns' in
  pubsub_ok m' /\ channels_of m' c = final /\ patterns_of m' c = patterns_of m c /\
  (forall c', c' <> c -> connections m' !! c' = connections m !! c') /\
  map subscription st'.2 = map Channel names.
Proof.
  intros Hm Hp Hid [He Hs Ho Hi Hot Hn Hf] Hc m'. simpl in *. subst final.
  assert (Hself : channels_of m' c = info_channels st'.1.1 /\ patterns_of m' c = patterns_of m c).
  { unfold channels_of, patterns_of at 1. unfold m'. simpl. rewrite Hc, decide_True by done.
    case_decide as E; [naive_solver|]. by rewrite Hot. }
  assert (Hoth : forall c', c' <> c -> connections m' !! c' = connections m !! c').
  { intros c' Hne. unfold m'. simpl. by rewrite Hc, decide_False by done. }
  split_and!; [|apply Hself|apply Hself|exact Hoth|exact Hn]. split; [exact He|apply Hm| | |].
  - intros k c'. destruct (decide (c' = c)) as [->|Hne]; [by rewrite (proj1 Hself)|].
    simpl. rewrite (Ho k c' Hne), <- (po_chan m Hm). unfold channels_of. by rewrite Hoth.
  - intros k c'. simpl. rewrite <- (po_pat m Hm). destruct (decide (c' = c)) as [->|Hne]; [by rewrite (proj2 Hself)|].
    unfold patterns_of. by rewrite Hoth.
  - intros c' i. destruct (decide (c' = c)) as [->|Hne]; [|rewrite Hoth by done; apply Hm].
    unfold m'. simpl. rewrite Hc, decide_True by done. case_decide as E; [done|]. intros [= <-].
    rewrite Hot, Hp. split; [congruence|done].
Qed.

Lemma pat_loop_ok m c info st' names final conns' :
  pubsub_ok m -> info_channels info = channels_of m c -> connection_id info = c ->
  pat_side c (info, patterns m, []) st' names final ->
  (forall c', conns' !! c' =
     if decide (c' = c) then (if decide (channels_of m c = ∅ /\ final = ∅) then None else Some st'.1.1)
     else connections m !! c') ->
  let m' := mkPubSub (channels m) st'.1.2 conns' in
  pubsub_ok m' /\ patterns_of m' c = final /\ channels_of m' c = channels_of m c /\
  (forall c', c' <> c -> connections m' !! c' = connections m !! c') /\
  map subscription st'.2 = map Pattern names.
Proof.
  intros Hm Hp Hid [He Hs Ho Hi Hot Hn Hf] Hc m'. simpl in *. subst final.
  assert (Hself : patterns_of m' c = info_patterns st'.1.1 /\ channels_of m' c = channels_of m c).
  { unfold patterns_of, channels_of at 1. unfold m'. simpl. rewrite Hc, decide_True by done.
    case_decide as E; [naive_solver|]. by rewrite Hot. }
  assert (Hoth : forall c', c' <> c -> connections m' !! c' = connections m !! c').
  { intros c' Hne. unfold m'. simpl. by rewrite Hc, decide_False by done. }
  split_and!; [|apply Hself|apply Hself|exact Hoth|exact Hn]. split; [apply Hm|exact He| | |].
  - intros k c'. simpl. rewrite <- (po_chan m Hm). destruct (decide (c' = c)) as [->|Hne]; [by rewrite (proj2 Hself)|].
    unfold channels_of. by rewrite Hoth.
  - intros k c'. destruct (decide (c' = c)) as [->|Hne]; [by rewrite (proj1 Hself)|].
    simpl. rewrite (Ho k c' Hne), <- (po_pat m Hm). unfold patterns_of. by rewrite Hoth.
  - intros c' i. destruct (decide (c' = c)) as [->|Hne]; [|rewrite Hoth by done; apply Hm].
    unfold m'. simpl. rewrite Hc, decide_True by done. case_decide as E; [done|]. intros [= <-].
    rewrite Hot, Hp. split; [congruence|naive_solver].
Qed.

(** The record a command starts from. *)
Lemma default_info m c :
  pubsub_ok m -> let i := default (info_new c) (connections m !! c) in
  info_channels i = channels_of m c /\ info_patterns i = patterns_of m c /\ connection_id i = c.
Proof.
  intros Hm. unfold channels_of, patterns_of. destruct (connections m !! c) as [i|] eqn:E; simpl; [|done].
  by destruct (po_info m Hm c i E) as [-> _].
Qed.

Lemma subscribe_ok m c l :
  pubsub_ok m -> l <> [] -> let '(m', r) := subscribe m c l in
  pubsub_ok m' /\ channels_of m' c = channels_of m c ∪ list_to_set l /\ patterns_of m' c = patterns_of m c /\
  (forall c', c' <> c -> connections m' !! c' = connections m !! c') /\ map subscription r = map Channel l.
Proof.
  intros Hm Hl. unfold subscribe. destruct (default_info m c Hm) as (Hc & Hp & Hid).
  set (i := default _ _) in *.
  pose proof (loop_fold info_channels info_patterns Channel c (subscribe_one c) (fun X k => {[k]} ∪ X) l
                (i, channels m, []) (subscribe_step c)) as H.
  destruct (foldl _ _ l) as [[info' subs] r]. rewrite foldl_add in H. simpl in H. rewrite Hc in H.
  apply (chan_loop_ok m c i (info', subs, r) l _ _ Hm Hp Hid).
  - apply H. split; simpl; [apply Hm|]. intros k. rewrite Hc. apply Hm.
  - intros c'. destruct (decide (c' = c)) as [->|Hne]; [|by rewrite lookup_insert_ne].
    rewrite lookup_insert_eq, decide_False; [done|]. intros [E _]. destruct l as [|x l]; [done|]. set_solver.
Qed.

Lemma psubscribe_ok m c l :
  pubsub_ok m -> l <> [] -> let '(m', r) := psubscribe m c l in
  pubsub_ok m' /\ patterns_of m' c = patterns_of m c ∪ list_to_set l /\ channels_of m' c = channels_of m c /\
  (forall c', c' <> c -> connections m' !! c' = connections m !! c') /\ map subscription r = map Pattern l.
Proof.
  intros Hm Hl. unfold psubscribe. destruct (default_info m c Hm) as (Hc & Hp & Hid).
  set (i := default _ _) in *.
  pose proof (loop_fold info_patterns info_channels Pattern c (psubscribe_one c) (fun X k => {[k]} ∪ X) l
                (i, patterns m, []) (psubscribe_step c)) as H.
  destruct (foldl _ _ l) as [[info' subs] r]. rewrite foldl_add in H. simpl in H. rewrite Hp in H.
  apply (pat_loop_ok m c i (info', subs, r) l _ _ Hm Hc Hid).
  - apply H. split; simpl; [apply Hm|]. intros k. rewrite Hp. apply Hm.
  - intros c'. destruct (decide (c' = c)) as [->|Hne]; [|by rewrite lookup_insert_ne].
    rewrite lookup_insert_eq, decide_False; [done|]. intros [_ E]. destruct l as [|x l]; [done|]. set_solver.
Qed.

Lemma unsubscribe_all_ok m c :
  pubsub_ok m -> pubsub_ok (unsubscribe_all m c) /\ connections (unsubscribe_all m c) !! c = None /\
  (forall c', c' <> c -> connections (unsubscribe_all m c) !! c' = connections m !! c').
Proof.
  intros Hm. assert (Hoth : forall c', c' <> c -> connections (unsubscribe_all m c) !! c' = connections m !! c').
  { intros c' Hne. simpl. by rewrite lookup_delete_ne. }
  assert (Hself : connections (unsubscribe_all m c) !! c = None) by apply lookup_delete_eq.
  split_and!; [|done|done]. split; try apply no_empty_leave.
  - intros k c'. simpl. rewrite in_subs_leave, <- (po_chan m Hm). unfold channels_of.
    destruct (decide (c' = c)) as [->|Hne]; [rewrite Hself; set_solver|]. rewrite Hoth by done. naive_solver.
  - intros k c'. simpl. rewrite in_subs_leave, <- (po_pat m Hm). unfold patterns_of.
    destruct (decide (c' = c)) as [->|Hne]; [rewrite Hself; set_solver|]. rewrite Hoth by done. naive_solver.
  - intros c' i. destruct (decide (c' = c)) as [->|Hne]; [by rewrite Hself|]. rewrite Hoth by done. apply Hm.
Qed.

Section iteration_ok.
Context `{HashIter}.

Lemma elem_of_set_iter {A} `{Countable A} (X : gset A) x : x ∈ set_iter X <-> x ∈ X.
Proof. by rewrite set_iter_perm, elem_of_elements. Qed.

Lemma list_to_set_iter (X : gset bytes) : list_to_set (set_iter X) = X.
Proof. apply set_eq. intros x. by rewrite elem_of_list_to_set, elem_of_set_iter. Qed.

(** What [unsubscribe] and [punsubscribe] are asked to leave. *)
Definition to_leave (own : gset bytes) (l : option (list bytes)) : gset bytes :=
  match l with Some l => list_to_set l | None => own end.

Lemma unsubscribe_ok m c l :
  pubsub_ok m -> let '(m', r) := unsubscribe m c l in
  pubsub_ok m' /\ channels_of m' c = channels_of m c ∖ to_leave (channels_of m c) l /\
  patterns_of m' c = patterns_of m c /\ (forall c', c' <> c -> connections m' !! c' = connections m !! c').
Proof.
  intros Hm. unfold unsubscribe. destruct (default_info m c Hm) as (Hc & Hp & Hid).
  destruct (connections m !! c) as [i|] eqn:E; simpl in Hc, Hp, Hid.
  2: { split_and!; try done. rewrite <- Hc. simpl. set_solver. }
  set (names := match l with Some l => l | None => _ end).
  assert (Hnames : list_to_set names = to_leave (channels_of m c) l).
  { unfold names. destruct l as [l|]; simpl; [done|]. by rewrite list_to_set_iter, Hc. }
  pose proof (loop_fold info_channels info_patterns Channel c (unsubscribe_one c) (fun X k => X ∖ {[k]}) names
                (i, channels m, []) (unsubscribe_step c)) as Hl.
  destruct (foldl _ _ names) as [[info' subs] r]. rewrite foldl_remove in Hl. simpl in Hl. rewrite Hc, Hnames in Hl.
  assert (Hok : chan_side c (i, channels m, []) (info', subs, r) names (channels_of m c ∖ to_leave (channels_of m c) l)).
  { apply Hl. split; simpl; [apply Hm|]. intros k. rewrite Hc. apply Hm. }
  destruct (chan_loop_ok m c i _ names _ (put_info c info' (connections m)) Hm Hp Hid Hok) as (H1 & H2 & H3 & H4 & _);
    [|by split_and!].
  destruct Hok as [_ _ _ _ Hot _ Hf]. simpl in *.
  intros c'. rewrite lookup_put_info. case_decide; [|done]. by rewrite <- Hf, <- Hp, <- Hot.
Qed.

Lemma punsubscribe_ok m c l :
  pubsub_ok m -> let '(m', r) := punsubscribe m c l in
  pubsub_ok m' /\ patterns_of m' c = patterns_of m c ∖ to_leave (patterns_of m c) l /\
  channels_of m' c = channels_of m c /\ (forall c', c' <> c -> connections m' !! c' = connections m !! c').
Proof.
  intros Hm. unfold punsubscribe. destruct (default_info m c Hm) as (Hc & Hp & Hid).
  destruct (connections m !! c) as [i|] eqn:E; simpl in Hc, Hp, Hid.
  2: { split_and!; try done. rewrite <- Hp. simpl. set_solver. }
  set (names := match l with Some l => l | None => _ end).
  assert (Hnames : list_to_set names = to_leave (patterns_of m c) l).
  { unfold names. destruct l as [l|]; simpl; [done|]. by rewrite list_to_set_iter, Hp. }
  pose proof (loop_fold info_patterns info_channels Pattern c (punsubscribe_one c) (fun X k => X ∖ {[k]}) names
                (i, patterns m, []) (punsubscribe_step c)) as Hl.
  destruct (foldl _ _ names) as [[info' subs] r]. rewrite foldl_remove in Hl. simpl in Hl. rewrite Hp, Hnames in Hl.
  assert (Hok : pat_side c (i, patterns m, []) (info', subs, r) names (patterns_of m c ∖ to_leave (patterns_of m c) l)).
  { apply Hl. split; simpl; [apply Hm|]. intros k. rewrite Hp. apply Hm. }
  destruct (pat_loop_ok m c i _ names _ (put_info c info' (connections m)) Hm Hc Hid Hok) as (H1 & H2 & H3 & H4 & _);
    [|by split_and!].
  destruct Hok as [_ _ _ _ Hot _ Hf]. simpl in *.
  intros c'. rewrite lookup_put_info. case_decide; [|done]. by rewrite <- Hf, <- Hc, <- Hot.
Qed.

(** ** Publishing *)

Lemma receive_spec tag conns seen out :
  NoDup out.*1 -> (forall c, c ∈ seen <-> c ∈ out.*1) ->
  let '(seen', out') := receive tag (seen, out) conns in
  NoDup out'.*1 /\ (forall c, c ∈ seen' <-> c ∈ out'.*1) /\
  (forall c t, (c, t) ∈ out' <-> (c, t) ∈ out \/ (t = tag /\ c ∈ conns /\ c ∉ out.*1)).
Proof.
  unfold receive. revert seen out. induction conns as [|c conns IH]; intros seen out Hnd Hseen; cbn [foldl].
  { split_and!; [done|done|]. intros c t. rewrite elem_of_nil. tauto. }
  case_decide as Hc.
  - specialize (IH seen out Hnd Hseen). destruct (foldl _ _ _) as [seen' out']. destruct IH as (H1 & H2 & H3).
    split_and!; [done|done|]. intros c' t. rewrite H3, elem_of_cons. rewrite Hseen in Hc. naive_solver.
  - assert (Hout : (out ++ [(c, tag)]).*1 = out.*1 ++ [c]) by by rewrite fmap_app.
    specialize (IH ({[c]} ∪ seen) (out ++ [(c, tag)])). rewrite Hout in IH. destruct (foldl _ _ _) as [seen' out'].
    destruct IH as (H1 & H2 & H3).
    { apply NoDup_app. split_and!; [done| |apply NoDup_singleton]. intros x Hx ->%list_elem_of_singleton.
      by rewrite Hseen in Hc. }
    { intros c'. rewrite elem_of_union, elem_of_singleton, elem_of_app, list_elem_of_singleton, Hseen. tauto. }
    split_and!; [done|done|]. intros c' t. rewrite H3, !elem_of_app, !list_elem_of_singleton, elem_of_cons.
    rewrite Hseen in Hc. split.
    + intros [[?|[= -> ->]]|(-> & ? & ?)]; [by left|right; naive_solver|right; naive_solver].
    + intros [?|(-> & [->|?] & Hn)]; [by left; left|by left; right|].
      destruct (decide (c' = c)) as [->|]; [by left; right|]. right. naive_solver.
Qed.

(** The publish loop over the patterns. *)
Lemma publish_loop (pats : list (bytes * gset Z)) ch st :
  NoDup st.2.*1 -> (forall c, c ∈ st.1 <-> c ∈ st.2.*1) ->
  let out := (foldl (fun st '(p, s) => if channel_pattern_matches p ch then receive (Some p) st (set_iter s) else st)
                st pats).2 in
  NoDup out.*1 /\
  (forall c t, (c, t) ∈ st.2 -> (c, t) ∈ out) /\
  (forall c t, (c, t) ∈ out -> (c, t) ∈ st.2 \/ (c ∉ st.2.*1) /\
     exists p s, t = Some p /\ (p, s) ∈ pats /\ channel_pattern_matches p ch = true /\ c ∈ s) /\
  (forall c p s, (p, s) ∈ pats -> channel_pattern_matches p ch = true -> c ∈ s -> c ∈ out.*1).
Proof.
  revert st. induction pats as [|[p s] pats IH]; intros [seen out] Hnd Hseen; cbn [foldl].
  { cbv zeta. split_and!; [done|done|by left|]. by intros c p s ?%not_elem_of_nil. }
  assert (Hw : forall (out0 : list (Z * option bytes)) c, c ∈ out0.*1 <-> exists t, (c, t) ∈ out0).
  { intros out0 c. rewrite list_elem_of_fmap. split; [intros ([c' t] & -> & ?); eauto|intros [t ?]; by exists (c, t)]. }
  destruct (channel_pattern_matches p ch) eqn:Ep.
  - pose proof (receive_spec (Some p) (set_iter s) seen out Hnd Hseen) as Hr.
    destruct (receive _ _ _) as [seen1 out1]. destruct Hr as (Hn1 & Hs1 & He1).
    destruct (IH (seen1, out1) Hn1 Hs1) as (Hn2 & Hk2 & Hb2 & Hf2). cbn [fst snd] in *. split_and!.
    + done.
    + intros c t Hc. apply Hk2, He1. by left.
    + intros c t [Hc|[Hc (p' & s' & -> & Hin & Hm & Hcs)]]%Hb2.
      * apply He1 in Hc as [Hc|(-> & Hc & Hn)]; [by left|]. right. split; [done|]. exists p, s.
        split_and!; [done|left|done|by apply elem_of_set_iter].
      * right. split. { rewrite !Hw in *. intros [t Ht]. apply Hc. exists t. apply He1. by left. }
        exists p', s'. split_and!; [done|by right|done|done].
    + intros c p' s' [[= -> ->]|Hin]%elem_of_cons Hm Hc; [|by eapply Hf2].
      apply Hw. destruct (decide (c ∈ out.*1)) as [Ho|Ho].
      * apply Hw in Ho as [t Ht]. exists t. apply Hk2, He1. by left.
      * exists (Some p). apply Hk2, He1. right. split_and!; [done|by apply elem_of_set_iter|done].
  - destruct (IH (seen, out) Hnd Hseen) as (Hn2 & Hk2 & Hb2 & Hf2). cbn [fst snd] in *. split_and!; [done|done| |].
    + intros c t [Hc|[Hc (p' & s' & ? & ? & ?)]]%Hb2; [by left|right]. split; [done|]. exists p', s'. naive_solver (by right).
    + intros c p' s' [[= -> ->]|Hin]%elem_of_cons Hm Hc; [congruence|by eapply Hf2].
Qed.
End iteration_ok.

(** ** Properties *)

Section properties.
Context `{HashIter}.

(** One command; the server refuses SUBSCRIBE and PSUBSCRIBE without a name. *)
Inductive pubsub_step (m : PubSubManager) : PubSubManager -> Prop :=
  | step_subscribe c l : l <> [] -> pubsub_step m (subscribe m c l).1
  | step_psubscribe c l : l <> [] -> pubsub_step m (psubscribe m c l).1
  | step_unsubscribe c l : pubsub_step m (unsubscribe m c l).1
  | step_punsubscribe c l : pubsub_step m (punsubscribe m c l).1
  | step_disconnect c : pubsub_step m (unsubscribe_all m c).

Lemma pubsub_step_ok m m' : pubsub_ok m -> pubsub_step m m' -> pubsub_ok m'.
Proof.
  intros Hm [c l Hl|c l Hl|c l|c l|c].
  - pose proof (subscribe_ok m c l Hm Hl). destruct (subscribe m c l). tauto.
  - pose proof (psubscribe_ok m c l Hm Hl). destruct (psubscribe m c l). tauto.
  - pose proof (unsubscribe_ok m c l Hm). destruct (unsubscribe m c l). tauto.
  - pose proof (punsubscribe_ok m c l Hm). destruct (punsubscribe m c l). tauto.
  - by apply unsubscribe_all_ok.
Qed.

(** The three maps of the manager agree after any sequence of commands: a
    connection is listed under a channel or a pattern exactly when its own
    record has it, no empty set of subscribers and no empty record is kept. *)
Theorem pubsub_invariant m : rtc pubsub_step pubsub_new m -> pubsub_ok m.
Proof.
  intros Hr. assert (Hi : pubsub_ok pubsub_new) by apply pubsub_new_ok.
  induction Hr as [m|m1 m2 m3 Hs Hr IH]; [done|]. by eapply IH, pubsub_step_ok.
Qed.

(** What the commands do to a connection's subscriptions: SUBSCRIBE and
    PSUBSCRIBE add the names and confirm each of them in order, UNSUBSCRIBE
    and PUNSUBSCRIBE take away the names or, without names, all of that kind;
    the other kind and the other connections stay as they are. *)
Theorem subscriptions_exact m c l lo :
  pubsub_ok m -> l <> [] ->
  (let '(m', r) := subscribe m c l in
   channels_of m' c = channels_of m c ∪ list_to_set l /\ patterns_of m' c = patterns_of m c /\
   (forall c', c' <> c -> connections m' !! c' = connections m !! c') /\ map subscription r = map Channel l) /\
  (let '(m', r) := psubscribe m c l in
   patterns_of m' c = patterns_of m c ∪ list_to_set l /\ channels_of m' c = channels_of m c /\
   (forall c', c' <> c -> connections m' !! c' = connections m !! c') /\ map subscription r = map Pattern l) /\
  (let '(m', r) := unsubscribe m c lo in
   channels_of m' c = channels_of m c ∖ to_leave (channels_of m c) lo /\ patterns_of m' c = patterns_of m c /\
   (forall c', c' <> c -> connections m' !! c' = connections m !! c')) /\
  (let '(m', r) := punsubscribe m c lo in
   patterns_of m' c = patterns_of m c ∖ to_leave (patterns_of m c) lo /\ channels_of m' c = channels_of m c /\
   (forall c', c' <> c -> connections m' !! c' = connections m !! c')).
Proof.
  intros Hm Hl. split_and!.
  - pose proof (subscribe_ok m c l Hm Hl). destruct (subscribe m c l). tauto.
  - pose proof (psubscribe_ok m c l Hm Hl). destruct (psubscribe m c l). tauto.
  - pose proof (unsubscribe_ok m c lo Hm). destruct (unsubscribe m c lo). tauto.
  - pose proof (punsubscribe_ok m c lo Hm). destruct (punsubscribe m c lo). tauto.
Qed.

(** C30. PUBLISH delivers to each connection that is subscribed to the channel or
    to a pattern accepting it, and to no other, exactly one message: a plain one
    when it is subscribed to the channel itself, else one for one of its
    matching patterns. *)
Theorem publish_exact m ch :
  pubsub_ok m -> let out := publish m ch in
  NoDup out.*1 /\
  (forall c, c ∈ out.*1 <-> ch ∈ channels_of m c \/ exists p, p ∈ patterns_of m c /\ channel_glob p ch) /\
  (forall c, (c, None) ∈ out <-> ch ∈ channels_of m c) /\
  (forall c p, (c, Some p) ∈ out -> p ∈ patterns_of m c /\ channel_glob p ch /\ ch ∉ channels_of m c).
Proof.
  intros Hm out. set (direct := match channels m !! ch with Some s => receive None (∅, []) (set_iter s) | None => (∅, []) end).
  assert (Hd : NoDup direct.2.*1 /\ (forall c, c ∈ direct.1 <-> c ∈ direct.2.*1) /\
               (forall c t, (c, t) ∈ direct.2 <-> t = None /\ ch ∈ channels_of m c)).
  { unfold direct. setoid_rewrite (po_chan m Hm). unfold in_subs. destruct (channels m !! ch) as [s|]; simpl.
    - pose proof (receive_spec None (set_iter s) ∅ [] ltac:(constructor)) as Hr.
      destruct (receive _ _ _) as [seen out1]. simpl. destruct Hr as (H1 & H2 & H3); [set_solver|].
      split_and!; [done|done|]. intros c t. rewrite H3, elem_of_set_iter. simpl. set_solver.
    - split_and!; [constructor|set_solver|]. intros c t. set_solver. }
  destruct Hd as (Hn & Hs & He).
  destruct (publish_loop (map_iter (patterns m)) ch direct Hn Hs) as (H1 & H2 & H3 & H4).
  fold direct in out. change (foldl _ direct _).2 with out in *.
  assert (Hpat : forall p s, (p, s) ∈ map_iter (patterns m) <-> patterns m !! p = Some s).
  { intros p s. by rewrite map_iter_perm, elem_of_map_to_list. }
  assert (Hin : forall c p, p ∈ patterns_of m c <-> exists s, patterns m !! p = Some s /\ c ∈ s).
  { intros c p. rewrite (po_pat m Hm). unfold in_subs. destruct (patterns m !! p) as [s|]; simpl; [naive_solver|].
    split; [set_solver|]. by intros (s & ? & _). }
  assert (Hsome : forall c p, (c, Some p) ∈ out -> p ∈ patterns_of m c /\ channel_glob p ch /\ ch ∉ channels_of m c).
  { intros c p [Hc|[Hc (p' & s & [= <-] & Hps & Hm' & Hcs)]]%H3; [by apply He in Hc as [? _]|].
    apply channel_pattern_matches_glob in Hm'. apply Hpat in Hps. split_and!; [apply Hin; eauto|done|].
    intros Hch. apply Hc, list_elem_of_fmap. exists (c, None). split; [done|]. by apply He. }
  assert (Hnone : forall c, (c, None) ∈ out <-> ch ∈ channels_of m c).
  { intros c. split; [|intros Hc; by apply H2, He]. intros [Hc|[_ (p & s & ? & _)]]%H3; [by apply He in Hc as [_ Hc]|done]. }
  split_and!; [done| |done|done]. intros c. rewrite list_elem_of_fmap. split.
  - intros ([c' [p|]] & -> & Hc); simpl; [right|by left; apply Hnone]. exists p. apply Hsome in Hc. tauto.
  - intros [Hc%Hnone|(p & Hp & Hg)]; [by exists (c, None)|]. apply Hin in Hp as (s & Hs' & Hcs).
    apply list_elem_of_fmap. apply channel_pattern_matches_glob in Hg. eapply H4; [by apply Hpat|done|done].
Qed.
End properties.

(** *** A concrete manager *)

Definition sample_pubsub : PubSubManager :=
  (psubscribe (subscribe (subscribe pubsub_new 1 [B "news"]).1 2 [B "news"; B "art"]).1 1 [B "n*"]).1.

Lemma sample_reachable : rtc (pubsub_step (H := default_iter)) pubsub_new sample_pubsub.
Proof.
  eapply rtc_l; [|eapply rtc_l; [|apply rtc_once]];
    [apply (step_subscribe _ 1)|apply (step_subscribe _ 2)|apply (step_psubscribe _ 1)]; discriminate.
Qed.

Lemma sample_pubsub_ok : pubsub_ok sample_pubsub.
Proof.
  pose proof sample_reachable as Hr. assert (Hi : pubsub_ok pubsub_new) by apply pubsub_new_ok.
  induction Hr; [done|]. by eapply IHHr, pubsub_step_ok.
Qed.

Lemma pubsub_invariant_witness : is_subscribed sample_pubsub 2 = true /\ pubsub_ok sample_pubsub.
Proof. split; [reflexivity|]. exact (pubsub_invariant (H := default_iter) _ sample_reachable). Defined.

Lemma subscriptions_exact_witness :
  let '(m', r) := subscribe sample_pubsub 3 [B "art"; B "art"] in
  map num_subscriptions r = [1; 1] /\ map is_new r = [true; false] /\
  channels_of m' 3 = channels_of sample_pubsub 3 ∪ list_to_set [B "art"; B "art"].
Proof.
  assert (Hl : [B "art"; B "art"] <> []) by discriminate.
  pose proof (subscriptions_exact (H := default_iter) sample_pubsub 3 [B "art"; B "art"] None sample_pubsub_ok Hl) as [H _].
  assert (E1 : map num_subscriptions (subscribe sample_pubsub 3 [B "art"; B "art"]).2 = [1; 1]) by (vm_compute; reflexivity).
  assert (E2 : map is_new (subscribe sample_pubsub 3 [B "art"; B "art"]).2 = [true; false]) by (vm_compute; reflexivity).
  destruct (subscribe _ _ _) as [m' r]. exact (conj E1 (conj E2 (proj1 H))).
Defined.

(** Connection 1 is subscribed to the channel and to a matching pattern and gets
    one message. *)
Lemma publish_exact_witness :
  publish (H := default_iter) sample_pubsub (B "news") = [(2, None); (1, None)]%Z /\
  NoDup (publish (H := default_iter) sample_pubsub (B "news")).*1.
Proof.
  split; [vm_compute; reflexivity|].
  exact (proj1 (publish_exact (H := default_iter) sample_pubsub (B "news") sample_pubsub_ok)).
Defined.
