(* ===== verification/Connection.v ===== *)
(** * Client connections (src/network/connection.rs)

    The state of a connection that the server keeps between events: its state
    machine, its parser, the write buffer with the offset of a partial write,
    the selected database and the transaction state of
    src/storage/commands/transactions.rs.  The socket is not modelled; what its
    [write] answers is a list of results, one for each call.  Time stamps are
    nanoseconds. *)

From S2P Require Import Prelude Text Resp RespParser.

Open Scope Z_scope.

Inductive BlockingOp :=
  | BLPop
  | BRPop
  | XReadBlock (keys : list (Z * bytes * bytes)).

Record BlockedState := {
  bs_keys : list (Z * bytes);
  bs_deadline : option Z;
  bs_op : BlockingOp;
}.

Inductive ConnectionState :=
  | Connected
  | Authenticated
  | Blocked (b : BlockedState)
  | Closing.

Record TransactionState := mkTx {
  in_transaction : bool;
  queued_commands : list (list RespFrame);
  watched_keys : gmap bytes Z;
  aborted : bool;
}.

Definition tx_default : TransactionState := mkTx false [] ∅ false.

Record Connection := mkConn {
  conn_state : ConnectionState;
  conn_parser : RespParser;
  write_buffer : bytes;
  write_offset : nat;
  last_activity : Z;
  db_index : Z;
  transaction_state : TransactionState;
  is_monitoring : bool;
  client_name : option bytes;
  conn_addr : bytes;
  created : Z;
}.

(** [addr] is the text of the peer's address. *)
Definition conn_new (addr : bytes) (now : Z) : Connection :=
  mkConn Connected parser_new [] 0 now 0 tx_default false None addr now.

Definition set_state (s : ConnectionState) (c : Connection) : Connection :=
  mkConn s (conn_parser c) (write_buffer c) (write_offset c) (last_activity c) (db_index c)
    (transaction_state c) (is_monitoring c) (client_name c) (conn_addr c) (created c).

Definition set_parser (p : RespParser) (now : Z) (c : Connection) : Connection :=
  mkConn (conn_state c) p (write_buffer c) (write_offset c) now (db_index c)
    (transaction_state c) (is_monitoring c) (client_name c) (conn_addr c) (created c).

Definition set_write (b : bytes) (off : nat) (now : Z) (c : Connection) : Connection :=
  mkConn (conn_state c) (conn_parser c) b off now (db_index c)
    (transaction_state c) (is_monitoring c) (client_name c) (conn_addr c) (created c).

Definition set_tx (t : TransactionState) (c : Connection) : Connection :=
  mkConn (conn_state c) (conn_parser c) (write_buffer c) (write_offset c) (last_activity c) (db_index c)
    t (is_monitoring c) (client_name c) (conn_addr c) (created c).

(** What [TcpStream::read] and [write] can answer. *)
Inductive io_error := IoWouldBlock | IoInterrupted | IoBroken | IoOther.
Inductive io_result (A : Type) := IoOk (a : A) | IoErr (e : io_error).
Arguments IoOk {A} a.
Arguments IoErr {A} e.

Definition io_err (e : io_error) : ferrous_error :=
  EIo (match e with
       | IoWouldBlock => B "would block"
       | IoInterrupted => B "interrupted"
       | IoBroken => B "broken pipe"
       | IoOther => B "other"
       end).

Definition conn_read (now : Z) (r : io_result bytes) (c : Connection) : Connection * outcome bool :=
  match r with
  | IoOk [] => (set_state Closing c, Err (EConnection (B "Connection closed by peer")))
  | IoOk data => (set_parser (feed (conn_parser c) data) now c, Ok true)
  | IoErr IoWouldBlock => (c, Ok false)
  | IoErr e => (c, Err (io_err e))
  end.

Section send.
Context `{F64Text}.

Definition send_frame (c : Connection) (frame : RespFrame) : Connection * outcome unit :=
  let '(b, r) := serialize_resp_frame frame (write_buffer c) in
  (set_write b (write_offset c) (last_activity c) c, r).
End send.

Definition send_raw (c : Connection) (data : bytes) : Connection :=
  set_write (write_buffer c ++ data) (write_offset c) (last_activity c) c.

Definition has_pending_writes (c : Connection) : bool := (write_offset c <? length (write_buffer c))%nat.

Definition MAX_ATTEMPTS : nat := 5.

Definition clear_written (c : Connection) : Connection :=
  if (length (write_buffer c) <=? write_offset c)%nat then set_write [] 0 (last_activity c) c else c.

Definition conn_error (msg : bytes) : outcome unit := Err (EConnection msg).

(** The loop of [flush]: [ws] are the answers of the socket from here on, and
    the bytes it took are collected in [sent].  Running out of answers stands
    for a [write] call that does not return. *)
Fixpoint flush_loop (now : Z) (ws : list (io_result nat)) (attempts : nat) (c : Connection) (sent : bytes)
    : option (Connection * bytes * outcome unit) :=
  if (write_offset c <? length (write_buffer c))%nat && (attempts <? MAX_ATTEMPTS)%nat then
    match ws with
    | [] => None
    | IoOk O :: _ => Some (c, sent, conn_error (B "Cannot write to connection"))
    | IoOk n :: ws' =>
        flush_loop now ws' attempts (set_write (write_buffer c) (write_offset c + n) now c)
          (sent ++ take n (drop (write_offset c) (write_buffer c)))
    | IoErr IoWouldBlock :: ws' =>
        if (S attempts <? MAX_ATTEMPTS)%nat then flush_loop now ws' (S attempts) c sent
        else Some (c, sent, conn_error (B "Write would block after max attempts"))
    | IoErr IoInterrupted :: ws' => flush_loop now ws' (S attempts) c sent
    | IoErr IoBroken :: _ => Some (c, sent, Err (io_err IoBroken))
    | IoErr IoOther :: ws' =>
        if (S attempts <? MAX_ATTEMPTS)%nat then flush_loop now ws' (S attempts) c sent
        else Some (c, sent, Err (io_err IoOther))
    end
  else Some (clear_written c, sent, Ok tt).

Definition flush (now : Z) (ws : list (io_result nat)) (c : Connection) : option (Connection * bytes * outcome unit) :=
  if (length (write_buffer c) <=? write_offset c)%nat then Some (set_write [] 0 (last_activity c) c, [], Ok tt)
  else flush_loop now ws 0 c [].

Definition is_closing (c : Connection) : bool := match conn_state c with Closing => true | _ => false end.

(** ** The write side *)

(** The bytes still to be written. *)
Definition unsent (c : Connection) : bytes := drop (write_offset c) (write_buffer c).

(** A socket takes at most what it is offered. *)
Fixpoint honest (ws : list (io_result nat)) (room : nat) : Prop :=
  match ws with
  | [] => True
  | IoOk n :: ws' => (n <= room)%nat /\ honest ws' (room - n)
  | IoErr _ :: ws' => honest ws' room
  end.

Lemma unsent_clear c : unsent (clear_written c) = unsent c.
Proof.
  unfold clear_written, unsent. destruct (Nat.leb_spec (length (write_buffer c)) (write_offset c)); [|done].
  simpl. by rewrite drop_ge.
Qed.

Definition offset_ok (c : Connection) : Prop := (write_offset c <= length (write_buffer c))%nat.

Lemma offset_clear c : offset_ok c -> offset_ok (clear_written c).
Proof. unfold clear_written, offset_ok. destruct (_ <=? _)%nat; [simpl; lia|done]. Qed.

Lemma flush_loop_sent now ws attempts c sent c' sent' r :
  honest ws (length (unsent c)) -> flush_loop now ws attempts c sent = Some (c', sent', r) -> offset_ok c ->
  sent' ++ unsent c' = sent ++ unsent c /\ offset_ok c'.
Proof.
  revert attempts c sent. induction ws as [|w ws IH]; intros attempts c sent Hw; cbn [flush_loop].
  - destruct (_ && _); [done|]. intros [= <- <- _] Hc. by rewrite unsent_clear; auto using offset_clear.
  - destruct (_ && _) eqn:Hpend; [|intros [= <- <- _] Hc; by rewrite unsent_clear; auto using offset_clear].
    destruct w as [[|n]|[]]; simpl in Hw.
    + by intros [= <- <- _].
    + destruct Hw as [Hn Hw]. set (c1 := set_write _ _ _ _). intros E Hc.
      assert (Hu : unsent c = take (S n) (unsent c) ++ unsent c1).
      { unfold unsent, c1. cbn [write_offset write_buffer set_write]. rewrite <- drop_drop. by rewrite take_drop. }
      apply IH in E as [E Hc'].
      * split; [|done]. rewrite E, <- app_assoc. f_equal. symmetry. exact Hu.
      * rewrite Hu, length_app, length_take in Hw. replace (Nat.min (S n) (length (unsent c)) + length (unsent c1) - S n)%nat
          with (length (unsent c1)) in Hw by lia. done.
      * unfold offset_ok, c1, unsent in *. simpl. rewrite length_drop in Hn. lia.
    + destruct (S attempts <? MAX_ATTEMPTS)%nat; [by apply IH|by intros [= <- <- _]].
    + by apply IH.
    + by intros [= <- <- _].
    + destruct (S attempts <? MAX_ATTEMPTS)%nat; [by apply IH|by intros [= <- <- _]].
Qed.

Lemma flush_sent now ws c c' sent r :
  honest ws (length (unsent c)) -> offset_ok c -> flush now ws c = Some (c', sent, r) ->
  sent ++ unsent c' = unsent c /\ offset_ok c'.
Proof.
  intros Hw Hc. unfold flush. destruct (Nat.leb_spec (length (write_buffer c)) (write_offset c)).
  - intros [= <- <- _]. unfold unsent, offset_ok. simpl. split; [by rewrite drop_ge|lia].
  - intros E. by apply flush_loop_sent in E as [E Hc'].
Qed.

Section write_side.
Context `{F64Text}.

(** The life of the write side: the connection, the frames the server sent on
    it, and the bytes that reached the socket. *)
Inductive write_run : Connection -> list RespFrame -> bytes -> Prop :=
  | run_start addr now : write_run (conn_new addr now) [] []
  | run_frame c fs sent f :
      write_run c fs sent -> sendable f = true -> write_run (send_frame c f).1 (fs ++ [f]) sent
  | run_flush c fs sent now ws c' s r :
      write_run c fs sent -> honest ws (length (unsent c)) -> flush now ws c = Some (c', s, r) ->
      write_run c' fs (sent ++ s).

Lemma send_frame_sendable c f : sendable f = true -> offset_ok c ->
  unsent (send_frame c f).1 = unsent c ++ encode f /\ offset_ok (send_frame c f).1.
Proof.
  intros Hf Hc. unfold send_frame. pose proof (serialize_spec f) as Hs. rewrite Hf in Hs. rewrite Hs.
  unfold unsent, offset_ok in *. simpl. rewrite length_app. split; [by apply drop_app_le|lia].
Qed.

(** C31. The write side neither loses, repeats nor reorders bytes: at any point,
    after partial writes, interruptions and write errors in any order, what
    reached the socket followed by what is still pending is the concatenation
    of the wire images of the frames sent, in order. *)
Theorem write_side_exact c fs sent :
  write_run c fs sent -> sent ++ unsent c = concat (map encode fs).
Proof.
  intros Hr. enough (sent ++ unsent c = concat (map encode fs) /\ offset_ok c) by tauto.
  induction Hr as [now|c fs sent f Hr [IH Hc] Hf|c fs sent now ws c' s r Hr [IH Hc] Hw E].
  - split; [done|unfold offset_ok; simpl; lia].
  - destruct (send_frame_sendable c f Hf Hc) as [-> Hc']. split; [|done].
    rewrite app_assoc, IH, map_app, concat_app. simpl. by rewrite app_nil_r.
  - destruct (flush_sent now ws c c' s r Hw Hc E) as [E' Hc']. split; [|done]. by rewrite <- app_assoc, E'.
Qed.

(** A frame that contains the internal [NoResponse] marker below the top (the
    answer of an EXEC with a blocking pop in it) is refused only after part of
    it went into the write buffer: the array header stays there without its
    element, and the client reads every later answer as an element of it. *)
Theorem nested_marker_corrupts c :
  send_frame c (Array (Some [NoResponse])) =
    (set_write (write_buffer c ++ B "*1" ++ CRLF) (write_offset c) (last_activity c) c, Err no_response_error).
Proof. unfold send_frame. simpl. unfold wseq, write_all. by rewrite <- !app_assoc. Qed.
End write_side.

Definition sample_conn : Connection := (send_frame (H := BitText.bit_text) (conn_new (B "127.0.0.1:6000") 0) (simple_string (B "PONG"))).1.

Lemma sample_honest : honest [IoErr IoWouldBlock; IoOk 3%nat; IoErr IoBroken] (length (unsent sample_conn)).
Proof. replace (length (unsent sample_conn)) with 7%nat by reflexivity. simpl. lia. Qed.

Lemma write_side_exact_witness :
  match flush 5 [IoErr IoWouldBlock; IoOk 3%nat; IoErr IoBroken] sample_conn with
  | Some (c', s, r) => s = B "+PO" /\ s ++ unsent c' = B "+PONG" ++ CRLF
  | None => False
  end.
Proof.
  destruct (flush 5 [IoErr IoWouldBlock; IoOk 3%nat; IoErr IoBroken] sample_conn) as [[[c' s] r]|] eqn:E.
  - assert (Hr : write_run (H := BitText.bit_text) c' [simple_string (B "PONG")] ([] ++ s)).
    { eapply (run_flush sample_conn); [|exact sample_honest|exact E].
      exact (run_frame (conn_new (B "127.0.0.1:6000") 0) [] [] (simple_string (B "PONG")) (run_start (B "127.0.0.1:6000") 0) eq_refl). }
    pose proof (write_side_exact (H := BitText.bit_text) _ _ _ Hr) as Hw.
    assert (Es : s = B "+PO") by (vm_compute in E; injection E as _ <- _; reflexivity).
    exact (conj Es Hw).
  - vm_compute in E. discriminate E.
Defined.
