(* ===== verification/Blocking.v ===== *)
(** * Blocking list operations (src/network/blocking.rs)

    The registry of the clients waiting on each key of a database, the manager
    with one registry per database and the queue of wake-ups, and the part of
    the server that blocks a client and serves it (handle_blpop, wake_client,
    process_wakeups and process_blocked_timeouts of src/network/server.rs).

    The server pops the lists through the interface [ListStore], which the
    storage engine implements.  Times are nanoseconds of the monotonic clock.
    A method holds the registry's lock for its whole body and [SegQueue] is a
    first-in first-out queue, so methods are functions on the manager. *)

From S2P Require Import Prelude Text Resp PubSub RespParser Connection.

Open Scope Z_scope.

Record BlockedClient := mkClient {
  bc_conn : Z;
  blocked_at : Z;
  bc_deadline : option Z;
  bc_op : BlockingOp;
}.

Record WakeupRequest := mkWakeup {
  wr_conn : Z;
  wr_db : nat;
  wr_key : bytes;
  wr_op : BlockingOp;
}.

Record BlockingRegistry := mkRegistry {
  blocked_on_key : gmap bytes (list BlockedClient);
  blocked_keys : gset bytes;
}.

Definition registry_new : BlockingRegistry := mkRegistry ∅ ∅.

Definition register_one (client : BlockedClient) (r : BlockingRegistry) (key : bytes) : BlockingRegistry :=
  mkRegistry (<[key := default [] (blocked_on_key r !! key) ++ [client]]> (blocked_on_key r))
    ({[key]} ∪ blocked_keys r).

Definition register_blocked_client (r : BlockingRegistry) (client : BlockedClient) (keys : list (nat * bytes))
    : BlockingRegistry :=
  foldl (fun r k => register_one client r k.2) r keys.

(** Filter every queue; the keys whose queue became empty go from both maps. *)
Definition retain_all (keep : BlockedClient -> bool) (r : BlockingRegistry) : BlockingRegistry :=
  let emptied := filter (fun k => forallb (fun c => negb (keep c)) (default [] (blocked_on_key r !! k)))
                   (dom (blocked_on_key r)) in
  mkRegistry (omap (fun q => let q' := filter keep q in if decide (q' = []) then None else Some q') (blocked_on_key r))
    (blocked_keys r ∖ emptied).

Definition registry_unregister (r : BlockingRegistry) (conn_id : Z) : BlockingRegistry :=
  retain_all (fun c => negb (bc_conn c =? conn_id)) r.

Definition registry_has_blocked (r : BlockingRegistry) (key : bytes) : bool := bool_decide (key ∈ blocked_keys r).

Definition pop_first_waiter (r : BlockingRegistry) (key : bytes) : BlockingRegistry * option BlockedClient :=
  match blocked_on_key r !! key with
  | Some (c :: q) =>
      (match q with
       | [] => mkRegistry (delete key (blocked_on_key r)) (blocked_keys r ∖ {[key]})
       | _ => mkRegistry (<[key := q]> (blocked_on_key r)) (blocked_keys r)
       end, Some c)
  | Some [] => (mkRegistry (delete key (blocked_on_key r)) (blocked_keys r ∖ {[key]}), None)
  | None => (r, None)
  end.

Definition is_expired (now : Z) (c : BlockedClient) : bool :=
  match bc_deadline c with Some d => d <=? now | None => false end.

Record BlockingManager := mkManager {
  registries : list BlockingRegistry;
  wake_queue : list WakeupRequest;
  shutdown_flag : bool;
}.

Definition manager_new (num_databases : nat) : BlockingManager :=
  mkManager (replicate num_databases registry_new) [] false.

Definition set_registry (m : BlockingManager) (db : nat) (r : BlockingRegistry) : BlockingManager :=
  mkManager (<[db := r]> (registries m)) (wake_queue m) (shutdown_flag m).

Definition register_blocked (now : Z) (m : BlockingManager) (db : nat) (conn_id : Z) (keys : list bytes)
    (op : BlockingOp) (deadline : option Z) : BlockingManager * outcome unit :=
  match registries m !! db with
  | None => (m, Err (EStorage InvalidDatabase))
  | Some r =>
      (set_registry m db (register_blocked_client r (mkClient conn_id now deadline op) (map (pair db) keys)), Ok tt)
  end.

Definition unregister_client (m : BlockingManager) (db : nat) (conn_id : Z) : BlockingManager :=
  match registries m !! db with
  | None => m
  | Some r => set_registry m db (registry_unregister r conn_id)
  end.

Definition has_blocked_clients (m : BlockingManager) (db : nat) (key : bytes) : bool :=
  match registries m !! db with
  | None => false
  | Some r => registry_has_blocked r key
  end.

Definition notify_key_ready (m : BlockingManager) (db : nat) (key : bytes) : BlockingManager :=
  match registries m !! db with
  | None => m
  | Some r =>
      match pop_first_waiter r key with
      | (r', None) => set_registry m db r'
      | (r', Some c) =>
          mkManager (<[db := r']> (registries m)) (wake_queue m ++ [mkWakeup (bc_conn c) db key (bc_op c)])
            (shutdown_flag m)
      end
  end.

(** Drain up to 32 requests. *)
Definition process_wakeups (m : BlockingManager) : BlockingManager * list WakeupRequest :=
  (mkManager (registries m) (drop 32 (wake_queue m)) (shutdown_flag m), take 32 (wake_queue m)).

Definition has_pending_wakeups (m : BlockingManager) : bool :=
  match wake_queue m with [] => false | _ => true end.

Definition manager_shutdown (m : BlockingManager) : BlockingManager :=
  mkManager (registries m) (wake_queue m) true.

Section timeouts.
Context `{HashIter}.

(** [get_expired_clients]: the expired ones of every queue, each queue from its
    end, the queues in some order. *)
Definition get_expired_clients (now : Z) (r : BlockingRegistry) : BlockingRegistry * list Z :=
  (retain_all (fun c => negb (is_expired now c)) r,
   concat (map (fun kq => map bc_conn (rev (filter (is_expired now) kq.2))) (map_iter (blocked_on_key r)))).

Definition process_timeouts (now : Z) (m : BlockingManager) : BlockingManager * list Z :=
  let rs := map (get_expired_clients now) (registries m) in
  (mkManager (map fst rs) (wake_queue m) (shutdown_flag m), concat (map snd rs)).
End timeouts.

(** ** The server's side *)

(** What the server uses of the storage engine. *)
Class ListStore (S : Type) := {
  store_lpop : S -> nat -> bytes -> S * outcome (option bytes);
  store_rpop : S -> nat -> bytes -> S * outcome (option bytes);
}.

Section server.
Context `{F64Text} {S : Type} `{ListStore S} `{HashIter}.

Record server := mkServer {
  store : S;
  blocking : BlockingManager;
  conns : gmap Z Connection;
}.

(** [with_connection] on a connection that may be gone. *)
Definition update_conn (conn_id : Z) (f : Connection -> Connection) (s : server) : server :=
  mkServer (store s) (blocking s) (alter f conn_id (conns s)).

(** The closure of [wake_client]: only a blocked connection gets the value;
    when sending fails the state stays. *)
Definition deliver (key value : bytes) (c : Connection) : Connection :=
  match conn_state c with
  | Blocked _ =>
      match send_frame c (Array (Some [from_bytes key; from_bytes value])) with
      | (c', Ok _) => set_state Authenticated c'
      | (c', _) => c'
      end
  | _ => c
  end.

Definition wake_client (s : server) (w : WakeupRequest) : server * outcome unit :=
  let popped :=
    match wr_op w with
    | BLPop => Some (store_lpop (store s) (wr_db w) (wr_key w))
    | BRPop => Some (store_rpop (store s) (wr_db w) (wr_key w))
    | XReadBlock _ => None
    end in
  match popped with
  | None => (s, Ok tt)
  | Some (st, Err e) => (mkServer st (blocking s) (conns s), Err e)
  | Some (st, Panic) => (mkServer st (blocking s) (conns s), Panic)
  | Some (st, Ok None) => (mkServer st (blocking s) (conns s), Ok tt)
  | Some (st, Ok (Some v)) =>
      (update_conn (wr_conn w) (deliver (wr_key w) v) (mkServer st (blocking s) (conns s)), Ok tt)
  end.

(** [self.wake_client(wakeup)?] for each request: an error ends the loop, and
    with it the server's run loop. *)
Fixpoint wake_all (s : server) (ws : list WakeupRequest) : server * outcome unit :=
  match ws with
  | [] => (s, Ok tt)
  | w :: ws' =>
      match wake_client s w with
      | (s', Ok _) => wake_all s' ws'
      | (s', r) => (s', r)
      end
  end.

Definition server_process_wakeups (s : server) : server * outcome bool :=
  let '(m, ws) := process_wakeups (blocking s) in
  let s1 := mkServer (store s) m (conns s) in
  match ws with
  | [] => (s1, Ok false)
  | _ => match wake_all s1 ws with
         | (s2, Ok _) => (s2, Ok true)
         | (s2, Err e) => (s2, Err e)
         | (s2, Panic) => (s2, Panic)
         end
  end.

Definition expire_conn (c : Connection) : Connection :=
  match conn_state c with
  | Blocked _ =>
      match send_frame c null_array with
      | (c', Ok _) => set_state Authenticated c'
      | (c', _) => c'
      end
  | _ => c
  end.

Definition process_blocked_timeouts (now : Z) (s : server) : server * bool :=
  let '(m, expired) := process_timeouts now (blocking s) in
  match expired with
  | [] => (mkServer (store s) m (conns s), false)
  | _ => (foldl (fun s i => update_conn i expire_conn s) (mkServer (store s) m (conns s)) expired, true)
  end.

Definition is_connection_blocked (s : server) (conn_id : Z) : bool :=
  match conns s !! conn_id with
  | Some c => match conn_state c with Blocked _ => true | _ => false end
  | None => false
  end.

(** The pushes notify one waiter of the key. *)
Definition notify_push (s : server) (db : nat) (key : bytes) : server :=
  if has_blocked_clients (blocking s) db key
  then mkServer (store s) (notify_key_ready (blocking s) db key) (conns s)
  else s.

(** The fast path of BLPOP and BRPOP: the first key with an element. *)
Fixpoint pop_first_ready (pop : S -> nat -> bytes -> S * outcome (option bytes)) (st : S) (db : nat)
    (keys : list bytes) : S * outcome (option (bytes * bytes)) :=
  match keys with
  | [] => (st, Ok None)
  | k :: keys' =>
      match pop st db k with
      | (st', Ok (Some v)) => (st', Ok (Some (k, v)))
      | (st', Ok None) => pop_first_ready pop st' db keys'
      | (st', Err e) => (st', Err e)
      | (st', Panic) => (st', Panic)
      end
  end.

(** What follows the parsing of the arguments in [handle_blpop] and
    [handle_brpop]; [timeout] is [None] for 0, which blocks for ever; a
    deadline out of range panics. *)
Definition block_on (now : Z) (op : BlockingOp) (s : server) (db : nat) (conn_id : Z) (keys : list bytes)
    (timeout : option Z) : server * outcome RespFrame :=
  let pop := match op with BRPop => store_rpop | _ => store_lpop end in
  match pop_first_ready pop (store s) db keys with
  | (st, Ok (Some (k, v))) => (mkServer st (blocking s) (conns s), Ok (Array (Some [from_bytes k; from_bytes v])))
  | (st, Err e) => (mkServer st (blocking s) (conns s), Err e)
  | (st, Panic) => (mkServer st (blocking s) (conns s), Panic)
  | (st, Ok None) =>
      match (match timeout with
             | Some t => let? d := instant_add now t in Ok (Some d)
             | None => Ok None
             end) with
      | Ok deadline =>
          match register_blocked now (blocking s) db conn_id keys op deadline with
          | (m, Ok _) =>
              let b := {| bs_keys := map (pair (Z.of_nat db)) keys; bs_deadline := deadline; bs_op := op |} in
              (update_conn conn_id (set_state (Blocked b)) (mkServer st m (conns s)), Ok NoResponse)
          | (m, Err e) => (mkServer st m (conns s), Err e)
          | (m, Panic) => (mkServer st m (conns s), Panic)
          end
      | Err e => (mkServer st (blocking s) (conns s), Err e)
      | Panic => (mkServer st (blocking s) (conns s), Panic)
      end
  end.
End server.
