(* ===== verification/BlockingSpec.v ===== *)
(** * Properties of the blocking subsystem

    The registry's two maps agree; pushes wake the waiters of a key in the order
    of their arrival; time-outs take exactly the expired ones; and what serving
    a wake-up does in every case. *)

From S2P Require Import Prelude Text Resp PubSub RespParser Connection Blocking.

Open Scope nat_scope.

(** The lookup set is the keys with a queue, and no queue is empty. *)
Definition registry_ok (r : BlockingRegistry) : Prop :=
  blocked_keys r = dom (blocked_on_key r) /\ forall k q, blocked_on_key r !! k = Some q -> q <> [].

Definition manager_ok (m : BlockingManager) : Prop := Forall registry_ok (registries m).

(** The waiters of a key, in order. *)
Definition queue_of (r : BlockingRegistry) (key : bytes) : list BlockedClient := default [] (blocked_on_key r !! key).

Definition waiters (m : BlockingManager) (db : nat) (key : bytes) : list BlockedClient :=
  match registries m !! db with Some r => queue_of r key | None => [] end.

Lemma registry_new_ok : registry_ok registry_new.
Proof. by split. Qed.

Lemma register_one_ok c r k : registry_ok r -> registry_ok (register_one c r k).
Proof.
  intros [Hk Hq]. split; simpl.
  - rewrite dom_insert_L. by rewrite Hk.
  - intros k' q. rewrite lookup_insert_Some. intros [[_ <-]|[_ Hl]]; [by destruct (default _ _)|by eapply Hq].
Qed.

Lemma register_ok c r keys : registry_ok r -> registry_ok (register_blocked_client r c keys).
Proof.
  unfold register_blocked_client. revert r. induction keys as [|k keys IH]; intros r Hr; simpl; [done|].
  by apply IH, register_one_ok.
Qed.

Lemma forallb_filter_nil {A} (keep : A -> bool) (l : list A) :
  forallb (fun c => negb (keep c)) l = true <-> filter keep l = [].
Proof.
  induction l as [|a l IH]; simpl; [done|]. rewrite filter_cons.
  destruct (keep a); simpl; [by split|exact IH].
Qed.

Lemma retain_all_queue keep r k : queue_of (retain_all keep r) k = filter keep (queue_of r k).
Proof.
  unfold queue_of, retain_all. simpl. rewrite lookup_omap. destruct (blocked_on_key r !! k) as [q|]; simpl; [|done].
  by case_decide as E.
Qed.

Lemma retain_all_ok keep r : registry_ok r -> registry_ok (retain_all keep r).
Proof.
  intros [Hk Hq]. split.
  - unfold retain_all. simpl. rewrite Hk. apply set_eq. intros k.
    rewrite elem_of_difference, elem_of_filter, !elem_of_dom, lookup_omap.
    destruct (blocked_on_key r !! k) as [q|]; simpl.
    + assert (Hf : Is_true (forallb (fun c => negb (keep c)) q) <-> filter keep q = []).
      { rewrite Is_true_true. apply forallb_filter_nil. }
      rewrite Hf. case_decide; split; intros Hx; naive_solver.
    + split; [intros [[? ?] _]; done|intros [? ?]; done].
  - intros k q. unfold retain_all. simpl. rewrite lookup_omap.
    destruct (blocked_on_key r !! k); simpl; [|done]. case_decide; [done|]. by intros [= <-].
Qed.

(** Popping takes the head of the queue. *)
Lemma pop_first_ok r key : registry_ok r ->
  let '(r', c) := pop_first_waiter r key in
  registry_ok r' /\ c = head (queue_of r key) /\ queue_of r' key = tail (queue_of r key) /\
  (forall k, k <> key -> queue_of r' k = queue_of r k).
Proof.
  intros [Hk Hq]. unfold pop_first_waiter, queue_of. destruct (blocked_on_key r !! key) as [[|c q]|] eqn:E.
  - by destruct (Hq _ _ E).
  - destruct q as [|c' q]; (split; [split; simpl|]); simpl.
    + rewrite dom_delete_L. by rewrite Hk.
    + intros k q' [_ Hl]%lookup_delete_Some. by eapply Hq.
    + split_and!; [done|by rewrite lookup_delete_eq|]. intros k Hne. by rewrite lookup_delete_ne.
    + rewrite dom_insert_L, Hk. apply elem_of_dom_2 in E. set_solver.
    + intros k q'. rewrite lookup_insert_Some. intros [[_ <-]|[_ Hl]]; [done|by eapply Hq].
    + split_and!; [done|by rewrite lookup_insert_eq|]. intros k Hne. by rewrite lookup_insert_ne.
  - split_and!; [done|done|by rewrite E|done].
Qed.

Lemma set_registry_ok m db r : manager_ok m -> registry_ok r -> manager_ok (set_registry m db r).
Proof.
  unfold manager_ok, set_registry. simpl. intros Hm Hr. destruct (decide (db < length (registries m))).
  - by apply Forall_insert.
  - by rewrite list_insert_ge by lia.
Qed.

Lemma waiters_set m db r db' key :
  db < length (registries m) ->
  waiters (set_registry m db r) db' key = if decide (db' = db) then queue_of r key else waiters m db' key.
Proof.
  intros Hdb. unfold waiters, set_registry. simpl. case_decide; subst; [by rewrite list_lookup_insert_eq|].
  by rewrite list_lookup_insert_ne.
Qed.

Lemma registry_at m db r : manager_ok m -> registries m !! db = Some r -> registry_ok r.
Proof. intros Hm. by apply Forall_lookup_1. Qed.

(** One notification: the first waiter of the key, if any, goes to the end of
    the wake-up queue; every other queue stays. *)
Lemma notify_ok m db key :
  manager_ok m ->
  let m' := notify_key_ready m db key in
  manager_ok m' /\
  (wake_queue m' = wake_queue m ++
     match waiters m db key with [] => [] | c :: _ => [mkWakeup (bc_conn c) db key (bc_op c)] end) /\
  (forall db' k, waiters m' db' k = if decide (db' = db /\ k = key) then tail (waiters m db key) else waiters m db' k).
Proof.
  intros Hm m'. unfold m', notify_key_ready, waiters at 1 3. destruct (registries m !! db) as [r|] eqn:E.
  2: { split_and!; [done|by rewrite app_nil_r|]. intros db' k. case_decide as H; [|done]. destruct H as [-> ->].
       unfold waiters. by rewrite E. }
  pose proof (pop_first_ok r key (registry_at m db r Hm E)) as Hp.
  destruct (pop_first_waiter r key) as [r' c]. destruct Hp as (Hr & Hc & Ht & Ho).
  assert (Hw : forall db' k, waiters (set_registry m db r') db' k =
                 if decide (db' = db /\ k = key) then tail (queue_of r key) else waiters m db' k).
  { intros db' k. rewrite waiters_set by by eapply lookup_lt_Some. case_decide as Hdb; [subst db'|].
    - case_decide as Hk; [by destruct Hk as [_ ->]|]. rewrite Ho by naive_solver. unfold waiters. by rewrite E.
    - rewrite decide_False; [done|naive_solver]. }
  destruct (queue_of r key) as [|c0 q]; simpl in Hc; subst c.
  - split_and!; [by apply set_registry_ok|by rewrite app_nil_r|exact Hw].
  - split_and!; [by apply (set_registry_ok m db r')|done|exact Hw].
Qed.

Section timeouts.
Context `{HashIter}.

Lemma expired_listed now r i :
  i ∈ (get_expired_clients now r).2 <->
  exists k c, c ∈ queue_of r k /\ bc_conn c = i /\ is_expired now c = true.
Proof.
  unfold get_expired_clients. simpl. rewrite list_elem_of_In, in_concat. split.
  - intros (l & Hl & Hi). apply in_map_iff in Hl as ([k q] & <- & Hkq).
    apply list_elem_of_In in Hkq. rewrite map_iter_perm, elem_of_map_to_list in Hkq.
    apply in_map_iff in Hi as (c & <- & Hc). apply list_elem_of_In in Hc. simpl in Hc.
    rewrite rev_alt in Hc. apply elem_of_reverse, list_elem_of_filter in Hc as [He Hc].
    exists k, c. unfold queue_of. rewrite Hkq. split_and!; [done|done|by apply Is_true_true].
  - intros (k & c & Hc & <- & He). unfold queue_of in Hc.
    destruct (blocked_on_key r !! k) as [q|] eqn:E; [|by apply not_elem_of_nil in Hc]. simpl in Hc.
    eexists. split.
    + apply in_map_iff. exists (k, q). split; [done|]. apply list_elem_of_In.
      by rewrite map_iter_perm, elem_of_map_to_list.
    + apply in_map, list_elem_of_In. simpl. rewrite rev_alt. apply elem_of_reverse, list_elem_of_filter.
      split; [by apply Is_true_true|done].
Qed.

Lemma process_timeouts_ok now m :
  manager_ok m -> let '(m', expired) := process_timeouts now m in
  manager_ok m' /\ wake_queue m' = wake_queue m /\
  (forall db k, waiters m' db k = filter (fun c => is_expired now c = false) (waiters m db k)) /\
  (forall i, i ∈ expired <-> exists db k c, c ∈ waiters m db k /\ bc_conn c = i /\ is_expired now c = true).
Proof.
  intros Hm. unfold process_timeouts. split_and!; [|done| |].
  - unfold manager_ok. simpl. rewrite map_map. apply Forall_fmap. eapply Forall_impl; [exact Hm|].
    intros r Hr. by apply retain_all_ok.
  - intros db k. unfold waiters. simpl. rewrite map_map.
    change (map ?f ?l) with (f <$> l). rewrite list_lookup_fmap. destruct (registries m !! db) as [r|]; simpl; [|done].
    rewrite retain_all_queue. apply list_filter_iff. intros c. destruct (is_expired now c); simpl; naive_solver.
  - intros i. rewrite map_map, list_elem_of_In, in_concat. unfold waiters. split.
    + intros (l & Hl & Hi). apply in_map_iff in Hl as (r & <- & Hr).
      apply list_elem_of_In in Hi. apply expired_listed in Hi as (k & c & Hc & Hi & He).
      apply list_elem_of_In, list_elem_of_lookup in Hr as [db Hdb]. exists db, k, c. by rewrite Hdb.
    + intros (db & k & c & Hc & Hi & He). destruct (registries m !! db) as [r|] eqn:E; [|by apply not_elem_of_nil in Hc].
      eexists. split; [apply in_map_iff; exists r; split; [done|]|].
      * apply list_elem_of_In. by eapply list_elem_of_lookup_2.
      * apply list_elem_of_In, expired_listed. eauto.
Qed.
End timeouts.

(** ** Properties *)

Section properties.
Context `{F64Text} {S : Type} `{ListStore S} `{HashIter}.

(** One operation on the manager. *)
Inductive manager_step (m : BlockingManager) : BlockingManager -> Prop :=
  | step_register now db c keys op d : manager_step m (register_blocked now m db c keys op d).1
  | step_unregister db c : manager_step m (unregister_client m db c)
  | step_notify db key : manager_step m (notify_key_ready m db key)
  | step_wakeups : manager_step m (process_wakeups m).1
  | step_timeouts now : manager_step m (process_timeouts now m).1
  | step_shutdown : manager_step m (manager_shutdown m).

Lemma manager_step_ok m m' : manager_ok m -> manager_step m m' -> manager_ok m'.
Proof.
  intros Hm [now db c keys op d|db c|db key| |now|]; try done.
  - unfold register_blocked. destruct (registries m !! db) as [r|] eqn:E; [|done].
    apply set_registry_ok; [done|]. by eapply register_ok, registry_at.
  - unfold unregister_client. destruct (registries m !! db) as [r|] eqn:E; [|done].
    apply set_registry_ok; [done|]. by eapply retain_all_ok, registry_at.
  - by apply notify_ok.
  - pose proof (process_timeouts_ok now m Hm). destruct (process_timeouts now m). tauto.
Qed.

(** C28. In every registry the set of blocked keys is exactly the keys that have a
    queue of waiters, and no queue is empty, after any sequence of
    registrations, disconnections, notifications, wake-ups and time-outs: the
    fast check before a notification is never wrong. *)
Theorem blocking_invariant n m db key :
  rtc manager_step (manager_new n) m ->
  manager_ok m /\ (has_blocked_clients m db key = true <-> waiters m db key <> []).
Proof.
  intros Hr. assert (Hm : manager_ok m).
  { assert (Hi : manager_ok (manager_new n)) by (apply Forall_replicate, registry_new_ok).
    induction Hr as [m|m1 m2 m3 Hs Hr IH]; [done|]. by eapply IH, manager_step_ok. }
  split; [done|]. unfold has_blocked_clients, waiters. destruct (registries m !! db) as [r|] eqn:E; [|done].
  destruct (registry_at m db r Hm E) as [Hk Hq]. unfold registry_has_blocked, queue_of.
  rewrite bool_decide_eq_true, Hk, elem_of_dom. destruct (blocked_on_key r !! key) as [q|] eqn:Eq; simpl.
  - specialize (Hq _ _ Eq). naive_solver.
  - split; [intros [? ?]; done|done].
Qed.

(** The request made for a waiter. *)
Definition request (db : nat) (key : bytes) (c : BlockedClient) : WakeupRequest :=
  mkWakeup (bc_conn c) db key (bc_op c).

(** C29. Pushes to a key wake its waiters first come, first served: [n]
    notifications put the first [n] waiters, in the order of their arrival, at
    the end of the wake-up queue, leave the others waiting in order, and touch
    no other key. *)
Theorem notify_fifo n m db key :
  manager_ok m ->
  let m' := Nat.iter n (fun m => notify_key_ready m db key) m in
  wake_queue m' = wake_queue m ++ map (request db key) (take n (waiters m db key)) /\
  waiters m' db key = drop n (waiters m db key) /\
  (forall db' k, (db', k) <> (db, key) -> waiters m' db' k = waiters m db' k) /\ manager_ok m'.
Proof.
  intros Hm. induction n as [|n IH]; simpl.
  { split_and!; [by rewrite app_nil_r|done|done|done]. }
  destruct IH as (Hq & Hw & Ho & Hok). set (m1 := Nat.iter n _ m) in *.
  destruct (notify_ok m1 db key Hok) as (Hok' & Hq' & Hw'). split_and!; [| | |done].
  - rewrite Hq', Hq, Hw, <- app_assoc. f_equal. generalize (waiters m db key). intros q.
    revert n m1 Hq Hw Ho Hok Hok' Hq' Hw'. clear. intros n _ _ _ _ _ _ _ _. revert q.
    induction n as [|n IH]; intros [|c q]; simpl; try done. by rewrite IH.
  - rewrite Hw', decide_True, Hw by done. generalize (waiters m db key) as q. clear. intros q. revert q.
    induction n as [|n IH]; intros [|c q]; simpl; try done.
  - intros db' k Hne. rewrite Hw', decide_False by (intros [-> ->]; done). by apply Ho.
Qed.

(** Time-outs: exactly the clients whose deadline has passed are answered and
    leave every queue they wait in; the others keep waiting in order. *)
Theorem timeouts_exact now m :
  manager_ok m -> let '(m', expired) := process_timeouts now m in
  (forall i, i ∈ expired <-> exists db k c, c ∈ waiters m db k /\ bc_conn c = i /\ is_expired now c = true) /\
  (forall db k, waiters m' db k = filter (fun c => is_expired now c = false) (waiters m db k)) /\ manager_ok m'.
Proof.
  intros Hm. pose proof (process_timeouts_ok now m Hm) as Ht. destruct (process_timeouts now m). tauto.
Qed.

(** Serving a wake-up pops the key's list first.  Only when that gives a value
    and the connection is blocked is the value sent and the connection
    unblocked; a value popped for a connection that is no longer blocked, or
    gone, reaches nobody, and an error of the pop (the key now holds another
    type) is returned to the run loop of the server. *)
Theorem wake_client_exact (s : server (S := S)) db key i st r :
  store_lpop (store s) db key = (st, r) ->
  let '(s', out) := wake_client s (mkWakeup i db key BLPop) in
  store s' = st /\ blocking s' = blocking s /\
  match r with
  | Ok (Some v) =>
      out = Ok tt /\
      match conns s !! i with
      | Some c =>
          match conn_state c with
          | Blocked _ =>
              exists c', conns s' = <[i := c']> (conns s) /\ conn_state c' = Authenticated /\
                write_buffer c' = write_buffer c ++ encode (Array (Some [from_bytes key; from_bytes v]))
          | _ => conns s' = conns s
          end
      | None => conns s' = conns s
      end
  | Ok None => out = Ok tt /\ conns s' = conns s
  | Err e => out = Err e /\ conns s' = conns s
  | Panic => out = Panic /\ conns s' = conns s
  end.
Proof.
  intros E. unfold wake_client. simpl. rewrite E. destruct r as [[v|]|e|]; try done. simpl.
  split_and!; [done|done|done|]. destruct (conns s !! i) as [c|] eqn:Ec; [|by rewrite alter_id_None || (apply map_eq; intros j; destruct (decide (j = i)) as [->|Hj]; [rewrite lookup_alter_eq, Ec|rewrite lookup_alter_ne])].
  assert (Ha : forall c', deliver key v c = c' -> alter (deliver key v) i (conns s) = <[i := c']> (conns s)).
  { intros c' <-. apply map_eq. intros j. destruct (decide (j = i)) as [->|Hj].
    - by rewrite lookup_alter_eq, lookup_insert_eq, Ec.
    - by rewrite lookup_alter_ne, lookup_insert_ne. }
  destruct (conn_state c) eqn:Es.
  1,2,4: rewrite (Ha c) by (unfold deliver; by rewrite Es); by apply insert_id.
  pose proof (serialize_spec (Array (Some [from_bytes key; from_bytes v]))) as Hs.
  change (sendable _) with true in Hs. cbv iota in Hs.
  eexists. split; [by apply Ha|]. unfold deliver, send_frame. rewrite Es, Hs. done.
Qed.
End properties.

(** *** Concrete managers *)

Definition sample_manager : BlockingManager :=
  (register_blocked 5 (register_blocked 3 (manager_new 2) 0 7 [B "k"; B "j"] BLPop (Some 100%Z)).1 0 8 [B "k"] BRPop None).1.

Lemma sample_manager_reachable : rtc (manager_step (H1 := default_iter)) (manager_new 2) sample_manager.
Proof.
  eapply rtc_l; [|apply rtc_once]; [apply (step_register _ 3 0 7)|apply (step_register _ 5 0 8)].
Qed.

Lemma sample_manager_ok : manager_ok sample_manager.
Proof.
  eapply manager_step_ok; [|apply (step_register (H1 := default_iter) _ 5 0 8)].
  eapply manager_step_ok; [|apply (step_register (H1 := default_iter) _ 3 0 7)].
  apply Forall_replicate, registry_new_ok.
Qed.

Lemma blocking_invariant_witness :
  has_blocked_clients sample_manager 0 (B "j") = true /\ waiters sample_manager 0 (B "j") <> [].
Proof.
  split; [vm_compute; reflexivity|].
  apply (proj2 (blocking_invariant (H1 := default_iter) 2 _ 0 (B "j") sample_manager_reachable)).
  vm_compute. reflexivity.
Defined.

Lemma notify_fifo_witness :
  map wr_conn (wake_queue (Nat.iter 2 (fun m => notify_key_ready m 0 (B "k")) sample_manager)) = [7; 8]%Z.
Proof.
  rewrite (proj1 (notify_fifo 2 sample_manager 0 (B "k") sample_manager_ok)). vm_compute. reflexivity.
Defined.

Lemma timeouts_exact_witness :
  let '(m', expired) := process_timeouts (H := default_iter) 100 sample_manager in
  expired = [7; 7]%Z /\ manager_ok m'.
Proof.
  pose proof (timeouts_exact (H1 := default_iter) 100 sample_manager sample_manager_ok) as H.
  assert (E : (process_timeouts (H := default_iter) 100 sample_manager).2 = [7; 7]%Z) by (vm_compute; reflexivity).
  destruct (process_timeouts _ _) as [m' expired]. exact (conj E (proj2 (proj2 H))).
Defined.
