(* ===== verification/SortedSet.v ===== *)
(** * The sorted set as the storage engine sees it

    The operations of [SkipList<Vec<u8>, f64>] that the engine calls, as an
    interface: the engine's definitions and theorems are stated over any
    implementation, and src/storage/skiplist.rs is one (SkipList.v).  The laws
    relate a sorted set to the list of its members in order of score and, for
    equal scores, of bytes. *)

From S2P Require Import Prelude Resp.
From Stdlib Require Import Floats.SpecFloat.

Open Scope Z_scope.

(** ** The order of scores *)

(** [f64::partial_cmp] *)
Definition partial_cmp (x y : f64) : option comparison := SFcompare x y.

(** [x < y], [x <= y] and [x == y] of [f64]: false with a NaN. *)
Definition f_lt (x y : f64) : bool := match partial_cmp x y with Some Lt => true | _ => false end.
Definition f_le (x y : f64) : bool := match partial_cmp x y with Some Gt | None => false | _ => true end.
Definition f_eq (x y : f64) : bool := match partial_cmp x y with Some Eq => true | _ => false end.

Definition is_nan (v : f64) : bool := match partial_cmp v v with None => true | _ => false end.

(** The order of [compare_nodes]: by score, a NaN above every number, then by member. *)
Definition compare_nodes (v1 : f64) (k1 : bytes) (v2 : f64) (k2 : bytes) : comparison :=
  match partial_cmp v1 v2 with
  | Some Eq => bytes_cmp k1 k2
  | Some c => c
  | None => if is_nan v1 && is_nan v2 then bytes_cmp k1 k2 else if is_nan v1 then Gt else Lt
  end.

(** ** The interface *)

(** [zs_insert] takes the level the random generator draws; the methods of the
    skip list dereference raw pointers, so each may go wrong ([Panic]). *)
Class SortedSet (ZS : Type) := {
  zs_new : ZS;
  zs_insert : nat -> ZS -> bytes -> f64 -> outcome (ZS * option f64);
  zs_remove : ZS -> bytes -> outcome (ZS * option f64);
  zs_get_score : ZS -> bytes -> option f64;
  zs_get_rank : ZS -> bytes -> outcome (option nat);
  zs_range_by_rank : ZS -> Z -> Z -> outcome (list (bytes * f64));
  zs_range_by_score : ZS -> f64 -> f64 -> outcome (list (bytes * f64));
  zs_len : ZS -> Z;
  zs_memory_usage : ZS -> Z;
}.

(** ** The order is total

    A score as a triple of integers in lexicographic order: the class (negative
    infinity, negative, zero, positive, positive infinity, NaN), then the
    exponent and the mantissa with the sign of the class. *)
Definition score_rank (v : f64) : Z * Z * Z :=
  match v with
  | S754_infinity true => (-2, 0, 0)
  | S754_finite true m e => (-1, - e, Z.neg m)
  | S754_zero _ => (0, 0, 0)
  | S754_finite false m e => (1, e, Z.pos m)
  | S754_infinity false => (2, 0, 0)
  | S754_nan => (3, 0, 0)
  end.

Definition cmp3 (x y : Z * Z * Z) : comparison :=
  match x.1.1 ?= y.1.1 with
  | Eq => match x.1.2 ?= y.1.2 with Eq => x.2 ?= y.2 | c => c end
  | c => c
  end.

Definition item_cmp (x y : bytes * f64) : comparison :=
  match cmp3 (score_rank x.2) (score_rank y.2) with Eq => bytes_cmp x.1 y.1 | c => c end.

Definition item_lt (x y : bytes * f64) : Prop := item_cmp x y = Lt.

#[global] Instance item_lt_dec x y : Decision (item_lt x y).
Proof. unfold item_lt. apply _. Defined.

(** ** The abstract sorted set: its items in order *)

Definition lookup_score (k : bytes) (l : list (bytes * f64)) : option f64 :=
  match filter (fun x => x.1 = k) l with x :: _ => Some x.2 | [] => None end.

Definition without_member (k : bytes) (l : list (bytes * f64)) : list (bytes * f64) :=
  filter (fun x => x.1 <> k) l.

Definition insert_item (x : bytes * f64) (l : list (bytes * f64)) : list (bytes * f64) :=
  filter (fun y => item_lt y x) l ++ x :: filter (fun y => ~ item_lt y x) l.

(** The items with ranks [lo] to [hi], both included. *)
Definition rank_slice (lo hi : Z) (l : list (bytes * f64)) : list (bytes * f64) :=
  take (Z.to_nat (hi + 1 - lo)) (drop (Z.to_nat lo) l).

Record sorted_items (l : list (bytes * f64)) : Prop := {
  si_sorted : StronglySorted item_lt l;
  si_members : NoDup l.*1;
  si_numbers : Forall (fun x => is_nan x.2 = false) l;
}.

(** What an implementation promises, for scores that are numbers. *)
Class SortedSetSpec (ZS : Type) `{SortedSet ZS} := {
  zs_rep : ZS -> list (bytes * f64) -> Prop;
  zs_rep_items z l : zs_rep z l -> sorted_items l;
  zs_new_rep : zs_rep zs_new [];
  zs_insert_rep z l lvl m v :
    zs_rep z l -> (lvl < 32)%nat -> is_nan v = false -> Z.of_nat (length l) < u64_max ->
    exists z', zs_insert lvl z m v = Ok (z', lookup_score m l)
            /\ zs_rep z' (insert_item (m, v) (without_member m l));
  zs_remove_rep z l m :
    zs_rep z l -> exists z', zs_remove z m = Ok (z', lookup_score m l) /\ zs_rep z' (without_member m l);
  zs_remove_absent z m z' : zs_remove z m = Ok (z', None) -> z' = z;
  zs_get_score_rep z l m : zs_rep z l -> zs_get_score z m = lookup_score m l;
  zs_get_rank_rep z l m :
    zs_rep z l ->
    zs_get_rank z m = Ok (match lookup_score m l with
                          | Some v => Some (length (filter (fun y => item_lt y (m, v)) l))
                          | None => None
                          end);
  zs_range_by_rank_rep z l lo hi :
    zs_rep z l -> 0 <= lo -> zs_range_by_rank z lo hi = Ok (rank_slice lo hi l);
  zs_range_by_score_rep z l lo hi :
    zs_rep z l ->
    zs_range_by_score z lo hi = Ok (filter (fun x => f_lt x.2 lo = false /\ f_le x.2 hi = true) l);
  zs_len_rep z l : zs_rep z l -> zs_len z = Z.of_nat (length l);
}.

(** ** Lemmas on the order *)

Lemma partial_cmp_rank x y :
  is_nan x = false -> is_nan y = false -> partial_cmp x y = Some (cmp3 (score_rank x) (score_rank y)).
Proof.
  destruct x as [?|[]| |[] m e], y as [?|[]| |[] m' e']; try done; intros _ _;
    unfold partial_cmp, cmp3, SFcompare; cbn -[Z.compare]; try done.
  rewrite Z.compare_opp, (Z.compare_antisym e e'). change (Z.neg m ?= Z.neg m') with (CompOpp (m ?= m')%positive).
  by destruct (e ?= e').
Qed.

Lemma compare_nodes_item v1 k1 v2 k2 : compare_nodes v1 k1 v2 k2 = item_cmp (k1, v1) (k2, v2).
Proof.
  unfold compare_nodes, item_cmp; cbn [fst snd]. destruct (is_nan v1) eqn:E1, (is_nan v2) eqn:E2.
  - by destruct v1 as [?|[]| |[] m e], v2 as [?|[]| |[] m' e'];
      unfold is_nan, partial_cmp, SFcompare in *; cbn in *; rewrite ?Z.compare_refl, ?Pos.compare_refl in *.
  - destruct v1 as [?|[]| |[] m e]; unfold is_nan, partial_cmp, SFcompare in E1; cbn in E1;
      rewrite ?Z.compare_refl, ?Pos.compare_cont_refl in E1; try done.
    by destruct v2 as [?|[]| |[] m' e'].
  - destruct v2 as [?|[]| |[] m e]; unfold is_nan, partial_cmp, SFcompare in E2; cbn in E2;
      rewrite ?Z.compare_refl, ?Pos.compare_cont_refl in E2; try done.
    by destruct v1 as [?|[]| |[] m' e'].
  - rewrite partial_cmp_rank by done. by destruct (cmp3 _ _).
Qed.

Lemma cmp3_eq x y : cmp3 x y = Eq <-> x = y.
Proof.
  destruct x as [[a b] c], y as [[a' b'] c']. unfold cmp3; cbn.
  destruct (Z.compare_spec a a'), (Z.compare_spec b b'), (Z.compare_spec c c'); naive_solver lia.
Qed.

Lemma cmp3_antisym x y : cmp3 y x = CompOpp (cmp3 x y).
Proof.
  destruct x as [[a b] c], y as [[a' b'] c']. unfold cmp3; cbn.
  rewrite (Z.compare_antisym a a'), (Z.compare_antisym b b'), (Z.compare_antisym c c').
  by destruct (a ?= a'), (b ?= b').
Qed.

Lemma cmp3_lt x y :
  cmp3 x y = Lt <-> x.1.1 < y.1.1 \/ (x.1.1 = y.1.1 /\ (x.1.2 < y.1.2 \/ (x.1.2 = y.1.2 /\ x.2 < y.2))).
Proof.
  unfold cmp3. destruct (Z.compare_spec x.1.1 y.1.1), (Z.compare_spec x.1.2 y.1.2), (Z.compare_spec x.2 y.2);
    split; intros; try done; try discriminate; lia.
Qed.

Lemma item_cmp_antisym x y : item_cmp y x = CompOpp (item_cmp x y).
Proof.
  unfold item_cmp. rewrite cmp3_antisym. destruct (cmp3 _ _); simpl; auto using bytes_cmp_antisym.
Qed.

Lemma item_cmp_eq x y : item_cmp x y = Eq -> x.1 = y.1.
Proof. unfold item_cmp. destruct (cmp3 _ _); try done. apply bytes_cmp_eq. Qed.

#[global] Instance item_lt_trans : Transitive item_lt.
Proof.
  intros x y z. unfold item_lt, item_cmp.
  destruct (cmp3 (score_rank x.2) (score_rank y.2)) eqn:E1, (cmp3 (score_rank y.2) (score_rank z.2)) eqn:E2; try done;
    intros H1 H2; rewrite ?cmp3_eq in *.
  - rewrite E1, E2, (proj2 (cmp3_eq _ _) eq_refl). eauto using bytes_cmp_lt_trans.
  - rewrite E1, E2. done.
  - rewrite <- E2, E1. done.
  - rewrite cmp3_lt in E1, E2. rewrite (proj2 (cmp3_lt _ _)); [done|]. lia.
Qed.

Lemma item_lt_irrefl x : ~ item_lt x x.
Proof. unfold item_lt, item_cmp. rewrite (proj2 (cmp3_eq _ _) eq_refl), bytes_cmp_refl. done. Qed.

(** A score below a bound stays below it with a smaller item. *)
Lemma item_lt_f_lt x y b :
  is_nan x.2 = false -> is_nan y.2 = false -> item_lt x y -> f_lt y.2 b = true -> f_lt x.2 b = true.
Proof.
  unfold item_lt, item_cmp, f_lt. intros Hx Hy Hlt. destruct (is_nan b) eqn:Hb.
  - destruct b as [?|[]| |[] m e]; unfold is_nan, partial_cmp, SFcompare in Hb; cbn in Hb;
      rewrite ?Z.compare_refl, ?Pos.compare_cont_refl in Hb; try done. by destruct y.2 as [?|[]| |[] m' e'].
  - rewrite !partial_cmp_rank by done. destruct (cmp3 (score_rank y.2) _) eqn:E2; try done. intros _.
    destruct (cmp3 (score_rank x.2) (score_rank y.2)) eqn:E1; try done.
    + apply cmp3_eq in E1. by rewrite E1, E2.
    + rewrite cmp3_lt in E1, E2. rewrite (proj2 (cmp3_lt _ _)); [done|]. lia.
Qed.

Lemma item_lt_f_le x y b :
  is_nan x.2 = false -> is_nan y.2 = false -> item_lt x y -> f_le y.2 b = true -> f_le x.2 b = true.
Proof.
  unfold item_lt, item_cmp, f_le. intros Hx Hy Hlt. destruct (is_nan b) eqn:Hb.
  - destruct b as [?|[]| |[] m e]; unfold is_nan, partial_cmp, SFcompare in Hb; cbn in Hb;
      rewrite ?Z.compare_refl, ?Pos.compare_cont_refl in Hb; try done. by destruct y.2 as [?|[]| |[] m' e'].
  - rewrite !partial_cmp_rank by done. intros Hle.
    destruct (cmp3 (score_rank x.2) (score_rank y.2)) eqn:E1; try done.
    + apply cmp3_eq in E1. by rewrite E1.
    + destruct (cmp3 (score_rank y.2) (score_rank b)) eqn:E2; try done.
      * apply cmp3_eq in E2. by rewrite <- E2, E1.
      * rewrite cmp3_lt in E1, E2. rewrite (proj2 (cmp3_lt _ _)); [done|]. lia.
Qed.

Lemma f_eq_refl x : is_nan x = false -> f_eq x x = true.
Proof. intros. unfold f_eq. rewrite partial_cmp_rank by done. by rewrite (proj2 (cmp3_eq _ _) eq_refl). Qed.
