(* ===== verification/SkipList.v ===== *)
(** * The skip list (src/storage/skiplist.rs)

    The nodes live in a heap of raw pointers; [forward] is the vector of a
    node's pointers, one per level it is on.  Following a pointer to a freed
    node, or an index out of range, is [Panic] here, and so is a loop that runs
    longer than there are nodes: SkipListSpec.v shows that none of these
    happens.  Keys are byte strings and values [f64] scores, the only
    instance the server uses.  The lock of the list is held by each method.

    [remove_node_by_score] drops the node only if its score equals the indexed
    one by [f64] equality, so a node with a NaN score is never removed. *)

From S2P Require Import Prelude Resp SortedSet.
From Stdlib Require Import Floats.SpecFloat.

Open Scope Z_scope.

Definition MAX_LEVEL : nat := 32.

Abbreviation loc := positive.

Record SkipListNode := mkNode {
  n_key : bytes;
  n_value : f64;
  forward : list (option loc);
}.

Abbreviation node_heap := (gmap loc SkipListNode).

(** [SkipListInner] with the heap its pointers refer to. *)
Record SkipList := mkSkipList {
  heap : node_heap;
  head_node : loc;
  level : nat;
  sl_length : Z;
  sl_memory_usage : Z;
  key_index : gmap bytes f64;
}.

(** [p->forward[i]] *)
Definition get_forward (h : node_heap) (p : loc) (i : nat) : outcome (option loc) :=
  match h !! p with
  | Some n => match forward n !! i with Some o => Ok o | None => Panic end
  | None => Panic
  end.

Definition set_forward (h : node_heap) (p : loc) (i : nat) (o : option loc) : outcome node_heap :=
  match h !! p with
  | Some n =>
      match forward n !! i with
      | Some _ => Ok (<[p := mkNode (n_key n) (n_value n) (<[i := o]> (forward n))]> h)
      | None => Panic
      end
  | None => Panic
  end.

Definition deref (h : node_heap) (p : loc) : outcome SkipListNode :=
  match h !! p with Some n => Ok n | None => Panic end.

(** [while let Some(next) = current->forward[i]]: advance while the next node
    comes [before]. *)
Fixpoint walk (fuel : nat) (h : node_heap) (before : SkipListNode -> bool) (i : nat) (current : loc) : outcome loc :=
  match fuel with
  | O => Panic
  | S fuel' =>
      let? next := get_forward h current i in
      match next with
      | None => Ok current
      | Some p =>
          let? n := deref h p in
          if before n then walk fuel' h before i p else Ok current
      end
  end.

(** [for i in (0..=level).rev()]: the node reached on the lowest level and the
    [update] vector. *)
Fixpoint descend (fuel : nat) (h : node_heap) (before : SkipListNode -> bool) (i : nat) (current : loc)
    (update : list (option loc)) : outcome (loc * list (option loc)) :=
  let? c := walk fuel h before i current in
  let update' := <[i := Some c]> update in
  match i with
  | O => Ok (c, update')
  | S i' => descend fuel h before i' c update'
  end.

Section skiplist.
(** [size_of::<SkipListNode<Vec<u8>, f64>>()] *)
Context (size_node : Z).

Definition base_memory : Z := size_node + Z.of_nat MAX_LEVEL * 8.

Definition sl_new : SkipList :=
  mkSkipList {[1%positive := mkNode [] (S754_zero false) (replicate MAX_LEVEL None)]} 1 0 0 base_memory ∅.

Definition calculate_node_size (levels : nat) : Z := size_node + Z.of_nat levels * 8.

(** Enough for a walk over every node. *)
Definition node_fuel (sl : SkipList) : nat := S (size (heap sl)).

Definition update_at (update : list (option loc)) (i : nat) : outcome loc :=
  match update !! i with Some (Some p) => Ok p | _ => Panic end.

(** [for i in 0..=new_level] of [insert_new_node] *)
Fixpoint splice (h : node_heap) (new_node : loc) (update : list (option loc)) (levels : list nat) : outcome node_heap :=
  match levels with
  | [] => Ok h
  | i :: levels' =>
      let? p := update_at update i in
      let? o := get_forward h p i in
      let? h1 := set_forward h new_node i o in
      let? h2 := set_forward h1 p i (Some new_node) in
      splice h2 new_node update levels'
  end.

Definition insert_new_node (new_level : nat) (sl : SkipList) (key : bytes) (v : f64) : outcome SkipList :=
  let before n := match compare_nodes (n_value n) (n_key n) v key with Lt => true | _ => false end in
  let? r := descend (node_fuel sl) (heap sl) before (level sl) (head_node sl) (replicate MAX_LEVEL None) in
  let update := r.2 in
  let update :=
    if (level sl <? new_level)%nat
    then foldl (fun u i => <[i := Some (head_node sl)]> u) update (seq (S (level sl)) (new_level - level sl))
    else update in
  let new_node := fresh (dom (heap sl)) in
  let h1 := <[new_node := mkNode key v (replicate (S new_level) None)]> (heap sl) in
  let? h2 := splice h1 new_node update (seq 0 (S new_level)) in
  Ok (mkSkipList h2 (head_node sl) (Nat.max (level sl) new_level) (u64_wrap (sl_length sl + 1))
        (u64_wrap (sl_memory_usage sl + calculate_node_size (S new_level))) (key_index sl)).

(** [for i in 0..=level] of [remove_node_by_score] *)
Fixpoint unlink (h : node_heap) (target : loc) (update : list (option loc)) (levels : list nat) : outcome node_heap :=
  match levels with
  | [] => Ok h
  | i :: levels' =>
      let? p := update_at update i in
      let? next := get_forward h p i in
      match next with
      | Some q =>
          if decide (q = target) then
            let? o := get_forward h target i in
            let? h1 := set_forward h p i o in
            unlink h1 target update levels'
          else Ok h
      | None => unlink h target update levels'
      end
  end.

(** [while inner.level > 0 && head.forward[inner.level].is_none()] *)
Fixpoint lower_level (h : node_heap) (head : loc) (lvl : nat) : outcome nat :=
  match lvl with
  | O => Ok O
  | S lvl' =>
      let? o := get_forward h head lvl in
      match o with
      | None => lower_level h head lvl'
      | Some _ => Ok lvl
      end
  end.

Definition remove_node_by_score (sl : SkipList) (key : bytes) (score : f64) : outcome SkipList :=
  let before n := match compare_nodes (n_value n) (n_key n) score key with Lt => true | _ => false end in
  let? r := descend (node_fuel sl) (heap sl) before (level sl) (head_node sl) (replicate MAX_LEVEL None) in
  let? o := get_forward (heap sl) r.1 0 in
  match o with
  | None => Ok sl
  | Some target =>
      let? t := deref (heap sl) target in
      if bool_decide (n_key t = key) && f_eq (n_value t) score then
        let? h1 := unlink (heap sl) target r.2 (seq 0 (S (level sl))) in
        let? lvl := lower_level h1 (head_node sl) (level sl) in
        Ok (mkSkipList (delete target h1) (head_node sl) lvl (u64_wrap (sl_length sl - 1))
              (u64_wrap (sl_memory_usage sl - calculate_node_size (length (forward t)))) (key_index sl))
      else Ok sl
  end.

Definition with_index (sl : SkipList) (m : gmap bytes f64) : SkipList :=
  mkSkipList (heap sl) (head_node sl) (level sl) (sl_length sl) (sl_memory_usage sl) m.

(** [insert], with the level [random_level] draws. *)
Definition sl_insert (new_level : nat) (sl : SkipList) (key : bytes) (v : f64) : outcome (SkipList * option f64) :=
  match key_index sl !! key with
  | Some old_value =>
      let? sl1 := remove_node_by_score sl key old_value in
      let? sl2 := insert_new_node new_level (with_index sl1 (<[key := v]> (key_index sl1))) key v in
      Ok (sl2, Some old_value)
  | None =>
      let? sl1 := insert_new_node new_level (with_index sl (<[key := v]> (key_index sl))) key v in
      Ok (sl1, None)
  end.

Definition sl_remove (sl : SkipList) (key : bytes) : outcome (SkipList * option f64) :=
  match key_index sl !! key with
  | None => Ok (sl, None)
  | Some score =>
      let? sl1 := remove_node_by_score (with_index sl (delete key (key_index sl))) key score in
      Ok (sl1, Some score)
  end.
End skiplist.

Definition sl_get_score (sl : SkipList) (key : bytes) : option f64 := key_index sl !! key.

(** The loop of [get_rank] *)
Fixpoint rank_loop (fuel : nat) (h : node_heap) (score : f64) (key : bytes) (rank : nat) (current : loc)
    : outcome (option nat) :=
  match fuel with
  | O => Panic
  | S fuel' =>
      let? next := get_forward h current 0 in
      match next with
      | None => Ok None
      | Some p =>
          let? n := deref h p in
          match compare_nodes (n_value n) (n_key n) score key with
          | Lt => rank_loop fuel' h score key (S rank) p
          | Eq => Ok (Some rank)
          | Gt => Ok None
          end
      end
  end.

Definition sl_get_rank (sl : SkipList) (key : bytes) : outcome (option nat) :=
  match key_index sl !! key with
  | None => Ok None
  | Some score => rank_loop (node_fuel sl) (heap sl) score key 0 (head_node sl)
  end.

(** [while rank < start_rank]: skip, or stop at the end. *)
Fixpoint skip_ranks (n : nat) (h : node_heap) (current : loc) : outcome loc :=
  match n with
  | O => Ok current
  | S n' =>
      let? next := get_forward h current 0 in
      match next with
      | Some p => skip_ranks n' h p
      | None => Ok current
      end
  end.

(** Collect [n] nodes, or until the end. *)
Fixpoint collect_ranks (n : nat) (h : node_heap) (current : loc) : outcome (list (bytes * f64)) :=
  match n with
  | O => Ok []
  | S n' =>
      let? next := get_forward h current 0 in
      match next with
      | Some p =>
          let? nd := deref h p in
          let? items := collect_ranks n' h p in
          Ok ((n_key nd, n_value nd) :: items)
      | None => Ok []
      end
  end.

Definition sl_range_by_rank (sl : SkipList) (start_rank end_rank : Z) : outcome (list (bytes * f64)) :=
  if sl_length sl <=? start_rank then Ok []
  else
    let? current := skip_ranks (Z.to_nat start_rank) (heap sl) (head_node sl) in
    collect_ranks (Z.to_nat (Z.min (end_rank + 1) (sl_length sl) - start_rank)) (heap sl) current.

Definition sl_get_by_rank (sl : SkipList) (rank : Z) : outcome (option (bytes * f64)) :=
  if sl_length sl <=? rank then Ok None
  else
    let? current := skip_ranks (Z.to_nat rank) (heap sl) (head_node sl) in
    let? next := get_forward (heap sl) current 0 in
    match next with
    | Some p => let? nd := deref (heap sl) p in Ok (Some (n_key nd, n_value nd))
    | None => Ok None
    end.

(** Collect from node [p] on while the score is at most [max_score]. *)
Fixpoint collect_scores (fuel : nat) (h : node_heap) (max_score : f64) (p : loc) : outcome (list (bytes * f64)) :=
  match fuel with
  | O => Panic
  | S fuel' =>
      let? n := deref h p in
      if f_le (n_value n) max_score then
        let? next := get_forward h p 0 in
        match next with
        | Some q => let? items := collect_scores fuel' h max_score q in Ok ((n_key n, n_value n) :: items)
        | None => Ok [(n_key n, n_value n)]
        end
      else Ok []
  end.

Definition sl_range_by_score (sl : SkipList) (min_score max_score : f64) : outcome (list (bytes * f64)) :=
  let before n := f_lt (n_value n) min_score in
  let? r := descend (node_fuel sl) (heap sl) before (level sl) (head_node sl) (replicate MAX_LEVEL None) in
  let? next := get_forward (heap sl) r.1 0 in
  match next with
  | Some p => collect_scores (node_fuel sl) (heap sl) max_score p
  | None => Ok []
  end.

Definition sl_get_all_items (sl : SkipList) : outcome (list (bytes * f64)) :=
  collect_ranks (node_fuel sl) (heap sl) (head_node sl).

(** The loop of [clear] frees the nodes one by one from the front. *)
Fixpoint free_all (fuel : nat) (h : node_heap) (head : loc) : outcome node_heap :=
  match fuel with
  | O => Panic
  | S fuel' =>
      let? next := get_forward h head 0 in
      match next with
      | None => Ok h
      | Some p =>
          let? o := get_forward h p 0 in
          let? h1 := set_forward h head 0 o in
          free_all fuel' (delete p h1) head
      end
  end.

Definition sl_clear (size_node : Z) (sl : SkipList) : outcome SkipList :=
  let? h1 := free_all (node_fuel sl) (heap sl) (head_node sl) in
  let? n := deref h1 (head_node sl) in
  if (length (forward n) <? MAX_LEVEL)%nat then Panic
  else
    Ok (mkSkipList (<[head_node sl := mkNode (n_key n) (n_value n)
                        (replicate MAX_LEVEL None ++ drop MAX_LEVEL (forward n))]> h1)
          (head_node sl) 0 0 (base_memory size_node) ∅).

(** [random_level] from the draws: [true] is a draw below [PROBABILITY]. *)
Fixpoint random_level_from (draws : list bool) (lvl : nat) : nat :=
  match draws with
  | true :: draws' => if (lvl <? MAX_LEVEL - 1)%nat then random_level_from draws' (S lvl) else lvl
  | _ => lvl
  end.

Definition random_level (draws : list bool) : nat := random_level_from draws 0.
