(* ===== verification/SkipListProofs.v ===== *)
(** * The shape of the skip list's heap

    [link_all] builds the heap a list of towers stands for: on each level a
    tower points to the next one that reaches the level.  The lemmas follow a
    walk and a descent through such a heap, and show that setting one pointer
    on one level ([relink]) is inserting or removing a tower on that level. *)

From S2P Require Import Prelude Resp SortedSet SkipList.
From Stdlib Require Import Floats.SpecFloat.

Open Scope nat_scope.

Record tower := mkTower {
  t_loc : loc;
  t_item : bytes * f64;
  t_height : nat;
}.

(** The first tower of [P] on level [i], or what comes after [P]. *)
Fixpoint first_or (i : nat) (P : list tower) (k : nat -> option loc) : option loc :=
  match P with
  | [] => k i
  | t :: P' => if i <? t_height t then Some (t_loc t) else first_or i P' k
  end.

Definition no_next (_ : nat) : option loc := None.

Definition links (P : list tower) (k : nat -> option loc) (n : nat) : list (option loc) :=
  map (fun i => first_or i P k) (seq 0 n).

Definition tower_node (t : tower) (P : list tower) (k : nat -> option loc) : SkipListNode :=
  mkNode (t_item t).1 (t_item t).2 (links P k (t_height t)).

Fixpoint link_all (P : list tower) (k : nat -> option loc) (h : node_heap) : node_heap :=
  match P with
  | [] => h
  | t :: P' => <[t_loc t := tower_node t P' k]> (link_all P' k h)
  end.

(** The last tower of [P] on level [i]. *)
Fixpoint last_opt (i : nat) (P : list tower) : option loc :=
  match P with
  | [] => None
  | t :: P' =>
      match last_opt i P' with
      | Some p => Some p
      | None => if i <? t_height t then Some (t_loc t) else None
      end
  end.

Definition locs (P : list tower) : list loc := map t_loc P.

(** ** Reading the heap *)

Lemma first_or_app i P N k : first_or i (P ++ N) k = first_or i P (fun j => first_or j N k).
Proof. induction P as [|t P IH]; [done|]. simpl. by rewrite IH. Qed.

Lemma first_or_ext i P k k' : k i = k' i -> first_or i P k = first_or i P k'.
Proof. intros E. induction P as [|t P IH]; [done|]. simpl. by rewrite IH. Qed.

Lemma first_or_low i P k : Forall (fun t => t_height t <= i) P -> first_or i P k = k i.
Proof.
  induction 1 as [|t P Ht HP IH]; [done|]. simpl. by destruct (Nat.ltb_spec i (t_height t)); [lia|].
Qed.

Lemma last_opt_app i P N :
  last_opt i (P ++ N) = match last_opt i N with Some p => Some p | None => last_opt i P end.
Proof. induction P as [|t P IH]; simpl; [by destruct (last_opt i N)|]. rewrite IH. by destruct (last_opt i N). Qed.

Lemma last_opt_low i P : Forall (fun t => t_height t <= i) P -> last_opt i P = None.
Proof.
  induction 1 as [|t P Ht HP IH]; [done|]. simpl. rewrite IH. by destruct (Nat.ltb_spec i (t_height t)); [lia|].
Qed.

Lemma last_opt_none i P : last_opt i P = None -> Forall (fun t => t_height t <= i) P.
Proof.
  induction P as [|t P IH]; [done|]. simpl. destruct (last_opt i P); [done|].
  destruct (Nat.ltb_spec i (t_height t)); [done|]. auto.
Qed.

Lemma last_opt_some i P p :
  last_opt i P = Some p ->
  exists A c B, P = A ++ c :: B /\ t_loc c = p /\ i < t_height c /\ Forall (fun t => t_height t <= i) B.
Proof.
  revert p. induction P as [|t P IH]; [done|]. intros p. simpl. destruct (last_opt i P) as [q|] eqn:E.
  - intros [= <-]. destruct (IH q eq_refl) as (A & c & Bs & -> & ? & ? & ?). by exists (t :: A), c, Bs.
  - destruct (Nat.ltb_spec i (t_height t)); [|done]. intros [= <-].
    exists [], t, P. auto using last_opt_none.
Qed.

Lemma last_opt_in i P p : last_opt i P = Some p -> p ∈ locs P.
Proof.
  intros (A & c & Bs & -> & <- & _ & _)%last_opt_some. unfold locs. rewrite map_app. set_solver.
Qed.

Lemma first_or_last i P k k' p : last_opt i P = Some p -> first_or i P k = first_or i P k'.
Proof.
  induction P as [|t P IH]; [done|]. simpl. destruct (last_opt i P) eqn:E.
  - intros [= <-]. by rewrite IH.
  - by destruct (Nat.ltb_spec i (t_height t)).
Qed.

Lemma links_lookup P k n i : i < n -> links P k n !! i = Some (first_or i P k).
Proof. intros. unfold links. rewrite list_lookup_fmap, lookup_seq_lt by done. done. Qed.

Lemma tower_node_ext t P P' k k' :
  (forall i, i < t_height t -> first_or i P k = first_or i P' k') -> tower_node t P k = tower_node t P' k'.
Proof.
  intros E. unfold tower_node. f_equal. unfold links. apply map_ext_in. intros i Hi%in_seq. apply E. lia.
Qed.

Lemma link_all_app P N k h :
  link_all (P ++ N) k h = link_all P (fun i => first_or i N k) (link_all N k h).
Proof.
  induction P as [|t P IH]; [done|]. simpl. rewrite IH. f_equal.
  apply tower_node_ext. intros. apply first_or_app.
Qed.

Lemma link_all_ext P k k' h n :
  Forall (fun t => t_height t <= n) P -> (forall i, i < n -> k i = k' i) -> link_all P k h = link_all P k' h.
Proof.
  intros Hh E. induction Hh as [|t P Ht HP IH]; [done|]. simpl. rewrite IH. f_equal.
  apply tower_node_ext. intros. apply first_or_ext, E. lia.
Qed.

Lemma link_all_pointwise P k k' h : (forall i, k i = k' i) -> link_all P k h = link_all P k' h.
Proof.
  intros E. apply link_all_ext with (list_max (map t_height P)); [|auto].
  apply Forall_forall. intros u Hu. pose proof (proj1 (list_max_le (map t_height P) _) (le_n _)) as Hmax.
  rewrite List.Forall_forall in Hmax. apply Hmax. by apply in_map, list_elem_of_In.
Qed.

Lemma link_all_insert P k h x n : x ∉ locs P -> link_all P k (<[x := n]> h) = <[x := n]> (link_all P k h).
Proof.
  induction P as [|t P IH]; [done|]. simpl. intros [Hne Hx]%not_elem_of_cons.
  rewrite IH by done. by rewrite insert_insert_ne.
Qed.

Lemma link_all_delete P k h x : x ∉ locs P -> delete x (link_all P k h) = link_all P k (delete x h).
Proof.
  induction P as [|t P IH]; [done|]. simpl. intros [Hne Hx]%not_elem_of_cons.
  by rewrite delete_insert_ne, IH.
Qed.

Lemma lookup_link_out P k h x : x ∉ locs P -> link_all P k h !! x = h !! x.
Proof.
  induction P as [|t P IH]; [done|]. simpl. intros [Hne Hx]%not_elem_of_cons. by rewrite lookup_insert_ne, IH.
Qed.

Lemma lookup_link A c Bs k h :
  NoDup (locs (A ++ c :: Bs)) -> link_all (A ++ c :: Bs) k h !! t_loc c = Some (tower_node c Bs k).
Proof.
  induction A as [|a A IH]; simpl; intros Hnd.
  - by rewrite lookup_insert_eq.
  - apply NoDup_cons in Hnd as [Ha Hnd]. rewrite lookup_insert_ne; [auto|].
    intros E. apply Ha. rewrite E. unfold locs. rewrite map_app. set_solver.
Qed.

Lemma dom_link_all P k h : dom (link_all P k h) = list_to_set (locs P) ∪ dom h.
Proof. induction P as [|t P IH]; simpl; [set_solver|]. rewrite dom_insert_L, IH. set_solver. Qed.

Lemma size_link_all P k : NoDup (locs P) -> size (link_all P k ∅) = length P.
Proof.
  induction P as [|t P IH]; [done|]. simpl. intros [Ht Hnd]%NoDup_cons.
  rewrite map_size_insert_None; [by rewrite IH|]. rewrite lookup_link_out by done. done.
Qed.

Lemma get_forward_link A c Bs k h i :
  NoDup (locs (A ++ c :: Bs)) -> i < t_height c ->
  get_forward (link_all (A ++ c :: Bs) k h) (t_loc c) i = Ok (first_or i Bs k).
Proof.
  intros Hnd Hi. unfold get_forward. rewrite lookup_link by done. simpl. by rewrite links_lookup.
Qed.

Lemma deref_link A c Bs k h :
  NoDup (locs (A ++ c :: Bs)) -> deref (link_all (A ++ c :: Bs) k h) (t_loc c) = Ok (tower_node c Bs k).
Proof. intros. unfold deref. by rewrite lookup_link. Qed.

(** ** Walking *)

Section walking.
Context (bef : bytes * f64 -> bool).

Definition node_bef (n : SkipListNode) : bool := bef (n_key n, n_value n).

Definition towers_before (P : list tower) : Prop := Forall (fun t => bef (t_item t) = true) P.
Definition towers_after (P : list tower) : Prop := Forall (fun t => bef (t_item t) = false) P.

Lemma first_or_some i P p :
  first_or i P no_next = Some p -> exists A t Bs, P = A ++ t :: Bs /\ t_loc t = p.
Proof.
  induction P as [|t P IH]; [done|]. simpl. destruct (_ <? _).
  - intros [= <-]. by exists [], t, P.
  - intros (A & u & Bs & -> & <-)%IH. by exists (t :: A), u, Bs.
Qed.

Lemma node_bef_tower t P k : node_bef (tower_node t P k) = bef (t_item t).
Proof. unfold node_bef, tower_node; simpl. by destruct (t_item t). Qed.

Lemma walk_spec i B1 N : forall fuel A c Sk,
  NoDup (locs (A ++ c :: Sk ++ B1 ++ N)) -> i < t_height c -> Forall (fun t => t_height t <= i) Sk ->
  towers_before B1 -> towers_after N -> length B1 < fuel ->
  walk fuel (link_all (A ++ c :: Sk ++ B1 ++ N) no_next ∅) node_bef i (t_loc c)
  = Ok (default (t_loc c) (last_opt i B1)).
Proof.
  induction B1 as [|b B1 IH]; intros [|fuel] A c Sk Hnd Hi HSk HB HN Hf; try (simpl in Hf; lia).
  - cbn [walk]. rewrite get_forward_link by done. cbn [obind].
    rewrite first_or_app, first_or_low by done. simpl.
    destruct (first_or i N no_next) as [p|] eqn:E; [|done].
    apply first_or_some in E as (A' & t & Bs & -> & <-).
    revert Hnd. cbn [app]. replace (A ++ c :: Sk ++ A' ++ t :: Bs) with ((A ++ c :: Sk ++ A') ++ t :: Bs)
      by (by rewrite <- !(assoc_L (++)), <- app_comm_cons, <- !(assoc_L (++))).
    intros Hnd. rewrite deref_link by done. cbn [obind]. rewrite node_bef_tower.
    apply Forall_app in HN as [_ HN]. apply Forall_cons in HN as [-> _]. done.
  - apply Forall_cons in HB as [Hb HB]. simpl in Hf. cbn [app] in *. destruct (Nat.ltb_spec i (t_height b)) as [Hlt|Hge].
    + cbn [walk]. rewrite get_forward_link by done. cbn [obind].
      rewrite first_or_app, first_or_low by done. simpl. rewrite (proj2 (Nat.ltb_lt _ _) Hlt).
      revert Hnd. replace (A ++ c :: Sk ++ b :: B1 ++ N) with ((A ++ c :: Sk) ++ b :: [] ++ B1 ++ N)
        by (by rewrite <- !(assoc_L (++)), <- app_comm_cons). intros Hnd.
      rewrite deref_link by done. cbn [obind]. rewrite node_bef_tower, Hb.
      rewrite IH by (auto; lia). simpl. by destruct (last_opt i B1).
    + cbn [last_opt]. replace (match last_opt i B1 with Some p => Some p | None => if i <? t_height b then Some (t_loc b) else None end)
        with (last_opt i B1) by (destruct (last_opt i B1), (Nat.ltb_spec i (t_height b)); done || lia).
      revert Hnd. replace (A ++ c :: Sk ++ b :: B1 ++ N) with (A ++ c :: (Sk ++ [b]) ++ B1 ++ N)
        by (by rewrite <- !(assoc_L (++))). intros Hnd.
      apply IH; auto; [|lia]. apply Forall_app; auto.
Qed.

(** A descent from the head [t0] over [P], the towers before, and [N]. *)
Lemma descend_spec t0 P N fuel : forall i A c Bs update,
  NoDup (locs (t0 :: P ++ N)) -> towers_before P -> towers_after N -> length P < fuel ->
  t0 :: P = A ++ c :: Bs -> i < t_height c -> i < length update ->
  exists p update',
    descend fuel (link_all (t0 :: P ++ N) no_next ∅) node_bef i (t_loc c) update = Ok (p, update')
    /\ last_opt 0 (t0 :: P) = Some p
    /\ (forall j, j <= i -> update' !! j = Some (last_opt j (t0 :: P)) /\ is_Some (last_opt j (t0 :: P)))
    /\ (forall j, i < j -> update' !! j = update !! j)
    /\ length update' = length update.
Proof.
  induction i as [|i IH]; intros A c Bs update Hnd HP HN Hf HA Hi Hu.
  all: assert (Hsplit : t0 :: P ++ N = A ++ c :: [] ++ Bs ++ N)
    by (rewrite app_comm_cons, HA, <- (assoc_L (++)); done).
  all: assert (HB : towers_before Bs)
    by (destruct A as [|a A]; injection HA as -> ->; [done|]; apply Forall_app in HP as [_ HP]; by inversion HP).
  all: assert (Hlen : length Bs < fuel)
    by (apply (f_equal length) in HA; rewrite length_app in HA; simpl in HA; lia).
  all: match goal with |- context [descend _ _ _ ?l _ _] =>
         set (p := default (t_loc c) (last_opt l Bs));
         assert (Hp : last_opt l (t0 :: P) = Some p)
           by (rewrite HA, last_opt_app; simpl; unfold p; destruct (last_opt l Bs); [done|];
               by rewrite (proj2 (Nat.ltb_lt _ _) Hi));
         assert (Hw : walk fuel (link_all (t0 :: P ++ N) no_next ∅) node_bef l (t_loc c) = Ok p)
           by (rewrite Hsplit in Hnd |- *; by apply walk_spec)
       end.
  all: cbn [descend]; rewrite Hw; cbn [obind].
  - exists p, (<[0 := Some p]> update). split_and!; auto; [| |by rewrite length_insert].
    + intros j Hj. assert (j = 0) as -> by lia. rewrite list_lookup_insert_eq by lia. by rewrite Hp.
    + intros j Hj. by rewrite list_lookup_insert_ne by lia.
  - destruct (last_opt_some _ _ _ Hp) as (A' & c' & Bs' & HA' & Hc & Hi' & _).
    destruct (IH A' c' Bs' (<[S i := Some p]> update)) as (q & u & Hd & Hq & Hall & Hout & Hl); auto; [lia|rewrite length_insert; lia|].
    rewrite Hc in Hd. rewrite length_insert in Hl. exists q, u. split_and!; auto.
    + intros j Hj. destruct (decide (j = S i)) as [->|]; [|apply Hall; lia].
      rewrite Hout, list_lookup_insert_eq by lia. by rewrite Hp.
    + intros j Hj. by rewrite Hout, list_lookup_insert_ne by lia.
Qed.
End walking.

(** ** Changing one pointer *)

Lemma set_forward_insert h a n p i o h' :
  p <> a -> set_forward h p i o = Ok h' -> set_forward (<[a := n]> h) p i o = Ok (<[a := n]> h').
Proof.
  unfold set_forward. intros Hne. rewrite lookup_insert_ne by done.
  destruct (h !! p) as [m|]; [|done]. destruct (forward m !! i); [|done].
  intros [= <-]. by rewrite insert_insert_ne.
Qed.

Lemma set_forward_base P k h p i o h' :
  p ∉ locs P -> set_forward h p i o = Ok h' -> set_forward (link_all P k h) p i o = Ok (link_all P k h').
Proof.
  induction P as [|t P IH]; [done|]. simpl. intros [Hne Hp]%not_elem_of_cons Hs.
  apply set_forward_insert; auto.
Qed.

Lemma get_forward_last P k h p i :
  NoDup (locs P) -> last_opt i P = Some p -> get_forward (link_all P k h) p i = Ok (k i).
Proof.
  intros Hnd (A & c & Bs & -> & <- & Hi & HB)%last_opt_some.
  rewrite get_forward_link by done. by rewrite first_or_low.
Qed.

Lemma links_set P k k' n m :
  m < n -> Forall (fun t => t_height t <= m) P -> (forall i, i <> m -> k' i = k i) ->
  <[m := k' m]> (links P k n) = links P k' n.
Proof.
  intros Hm HP E. apply list_eq. intros i. destruct (decide (i = m)) as [->|Hne].
  - rewrite list_lookup_insert_eq by (unfold links; rewrite length_map, length_seq; done).
    rewrite links_lookup by done. by rewrite first_or_low.
  - rewrite list_lookup_insert_ne by done. destruct (decide (i < n)) as [Hi|Hi].
    + rewrite !links_lookup by done. f_equal. apply first_or_ext. by rewrite E.
    + rewrite !lookup_ge_None_2; [done|unfold links; rewrite length_map, length_seq; lia..].
Qed.

(** Level [m] of what comes after [P] is the pointer of the last tower of [P]
    on that level. *)
Lemma relink P k k' h m p :
  NoDup (locs P) -> last_opt m P = Some p -> (forall i, i <> m -> k' i = k i) ->
  set_forward (link_all P k h) p m (k' m) = Ok (link_all P k' h).
Proof.
  intros Hnd Hl E. revert p Hl. induction P as [|t P IH]; [done|]. intros p. simpl.
  apply NoDup_cons in Hnd as [Ht Hnd]. destruct (last_opt m P) as [q|] eqn:Hq.
  - intros [= <-]. pose proof (last_opt_in _ _ _ Hq) as Hin.
    assert (tower_node t P k' = tower_node t P k) as ->.
    { apply tower_node_ext. intros i _. destruct (decide (i = m)) as [->|].
      - eapply first_or_last; eauto.
      - apply first_or_ext. auto. }
    apply set_forward_insert; [set_solver|]. auto.
  - destruct (Nat.ltb_spec m (t_height t)) as [Hm|]; [|done]. intros [= <-].
    pose proof (last_opt_none _ _ Hq) as Hlow. unfold set_forward. rewrite lookup_insert_eq. simpl.
    rewrite links_lookup by done. rewrite links_set by done. rewrite insert_insert_eq.
    rewrite (link_all_ext P k k' h m) by (auto; intros; symmetry; apply E; lia). done.
Qed.

(** ** Splicing a tower in *)

Section splice.
Context (P N : list tower) (x : loc) (key : bytes) (v : f64) (H : nat) (hN : node_heap).
Context (nodup : NoDup (locs P)) (x_new : x ∉ locs P).

(** Levels below [m] done. *)
Definition splice_next (m : nat) (i : nat) : option loc := if i <? m then Some x else first_or i N no_next.
Definition splice_node (m : nat) : SkipListNode := mkNode key v (links N no_next m ++ replicate (H - m) None).

Lemma splice_node_step m :
  m < H ->
  set_forward (<[x := splice_node m]> hN) x m (first_or m N no_next)
  = Ok (<[x := splice_node (S m)]> hN).
Proof.
  intros Hm. unfold set_forward. rewrite lookup_insert_eq.
  assert (Hl : length (links N no_next m) = m) by (unfold links; by rewrite length_map, length_seq).
  unfold splice_node; cbn [forward n_key n_value].
  rewrite lookup_app_r by lia. rewrite Hl, Nat.sub_diag.
  replace (H - m) with (S (H - S m)) by lia. cbn [replicate lookup list_lookup].
  rewrite insert_insert_eq. repeat f_equal. rewrite insert_app_r_alt by lia. rewrite Hl, Nat.sub_diag.
  cbn [list_insert insert]. unfold links. rewrite seq_S, map_app, <- (assoc_L (++)). done.
Qed.

Lemma splice_spec update n : forall m,
  m + n = H -> (forall j, m <= j < H -> exists p, update !! j = Some (Some p) /\ last_opt j P = Some p) ->
  splice (link_all P (splice_next m) (<[x := splice_node m]> hN)) x update (seq m n)
  = Ok (link_all P (splice_next H) (<[x := splice_node H]> hN)).
Proof.
  induction n as [|n IH]; intros m Hm Hu; [by replace m with H by lia|].
  destruct (Hu m) as (p & Hup & Hp); [lia|]. cbn [seq splice]. unfold update_at. rewrite Hup. cbn [obind].
  rewrite (get_forward_last _ _ _ p) by done. cbn [obind].
  assert (Hk : splice_next m m = first_or m N no_next) by (unfold splice_next; by rewrite Nat.ltb_irrefl).
  rewrite Hk. rewrite (set_forward_base _ _ _ _ _ _ _ x_new (splice_node_step m ltac:(lia))). cbn [obind].
  replace (Some x) with (splice_next (S m) m)
    by (unfold splice_next; by rewrite (proj2 (Nat.ltb_lt m (S m)) ltac:(lia))).
  rewrite relink with (k' := splice_next (S m)); [|done..|].
  - cbn [obind]. apply IH; [lia|]. intros. apply Hu. lia.
  - intros i Hi. unfold splice_next. destruct (Nat.ltb_spec i (S m)), (Nat.ltb_spec i m); try done; lia.
Qed.
End splice.

(** The heap after the loop is that of the towers with the new one between. *)
Lemma splice_result P N x it n :
  link_all P (splice_next N x n) (<[x := splice_node N it.1 it.2 n n]> (link_all N no_next ∅))
  = link_all (P ++ mkTower x it n :: N) no_next ∅.
Proof.
  rewrite link_all_app. simpl. unfold splice_node, tower_node. rewrite Nat.sub_diag, app_nil_r.
  by apply link_all_pointwise.
Qed.

(** ** Unlinking a tower *)

Section unlink.
Context (P N : list tower) (t : tower) (hb : node_heap).
Context (nodup : NoDup (locs (P ++ t :: N))).

(** Levels below [m] done; the tower itself stays in the heap. *)
Definition unlink_next (m : nat) (i : nat) : option loc :=
  if (m <=? i) && (i <? t_height t) then Some (t_loc t) else first_or i N no_next.

Lemma unlink_parts : NoDup (locs P) /\ (t_loc t ∉ locs P) /\ (t_loc t ∉ locs N).
Proof using nodup.
  revert nodup. unfold locs. rewrite map_app. simpl. intros (HP & Hd & HN)%NoDup_app.
  apply NoDup_cons in HN as [? _]. split_and!; auto. intros Hin. apply (Hd _ Hin). left.
Qed.

Lemma first_or_not_target i : first_or i N no_next <> Some (t_loc t).
Proof using nodup.
  destruct unlink_parts as (_ & _ & HN). intros (A & u & Bs & -> & E)%first_or_some. apply HN.
  rewrite <- E. unfold locs. rewrite map_app. set_solver.
Qed.

Lemma unlink_spec update n : forall m,
  hb !! t_loc t = Some (tower_node t N no_next) -> t_height t <= m + n ->
  (forall j, m <= j < m + n -> exists p, update !! j = Some (Some p) /\ last_opt j P = Some p) ->
  unlink (link_all P (unlink_next m) hb) (t_loc t) update (seq m n)
  = Ok (link_all P (unlink_next (t_height t)) hb).
Proof using nodup.
  destruct unlink_parts as (HP & Ht & HN).
  assert (Hdone : forall m, t_height t <= m -> forall i, unlink_next m i = first_or i N no_next).
  { intros m Hm i. unfold unlink_next.
    by destruct (Nat.leb_spec m i), (Nat.ltb_spec i (t_height t)); [lia|..]. }
  induction n as [|n IH]; intros m Hb Hle Hu.
  - simpl. f_equal. apply link_all_pointwise. intros i. rewrite !Hdone by lia. done.
  - destruct (Hu m) as (p & Hup & Hp); [lia|]. cbn [seq unlink]. unfold update_at. rewrite Hup. cbn [obind].
    rewrite (get_forward_last _ _ _ p) by done. cbn [obind].
    destruct (decide (t_height t <= m)) as [Hge|Hlt].
    + pose proof (first_or_not_target m) as Hno. rewrite Hdone by done.
      assert (Hfin : Ok (link_all P (unlink_next m) hb) = Ok (link_all P (unlink_next (t_height t)) hb)).
      { f_equal. apply link_all_pointwise. intros i. by rewrite !Hdone by lia. }
      destruct (first_or m N no_next) as [q|]; [by rewrite decide_False by congruence|].
      rewrite (link_all_pointwise _ (unlink_next m) (unlink_next (S m))) by (intros i; by rewrite !Hdone by lia).
      apply IH; [done|lia|]. intros. apply Hu. lia.
    + assert (Hm : m < t_height t) by lia.
      assert (Hk : unlink_next m m = Some (t_loc t))
        by (unfold unlink_next; by rewrite Nat.leb_refl, (proj2 (Nat.ltb_lt _ _) Hm)).
      rewrite Hk, decide_True by done.
      assert (Hg : get_forward (link_all P (unlink_next m) hb) (t_loc t) m = Ok (first_or m N no_next)).
      { unfold get_forward. rewrite lookup_link_out, Hb by done. simpl. by rewrite links_lookup. }
      rewrite Hg. cbn [obind].
      assert (Hk' : first_or m N no_next = unlink_next (S m) m).
      { unfold unlink_next. by destruct (Nat.leb_spec (S m) m); [lia|]. }
      rewrite Hk', relink; [|done..|].
      * cbn [obind]. apply IH; [done|lia|]. intros. apply Hu. lia.
      * intros i Hi. unfold unlink_next. destruct (Nat.leb_spec (S m) i), (Nat.leb_spec m i); try done; lia.
Qed.

(** The heap after the loop and the release of the node. *)
Lemma unlink_result :
  hb = link_all (t :: N) no_next ∅ ->
  delete (t_loc t) (link_all P (unlink_next (t_height t)) hb) = link_all (P ++ N) no_next ∅.
Proof using nodup.
  intros ->. destruct unlink_parts as (HP & Ht & HN). rewrite link_all_delete by done. simpl.
  rewrite delete_insert_id by (by rewrite lookup_link_out). rewrite link_all_app.
  apply link_all_pointwise. intros i. unfold unlink_next.
  destruct (Nat.leb_spec (t_height t) i), (Nat.ltb_spec i (t_height t)); try done; lia.
Qed.
End unlink.
