(* ===== verification/SkipListSpec.v ===== *)
(** * The skip list implements the sorted set

    A skip list represents a list of items when its heap is the one its towers
    stand for, the towers are in order, and the index, the length and the
    memory count agree with them.  Every method keeps this and does to the
    items what SortedSet.v says, without following a bad pointer. *)

From S2P Require Import Prelude Resp SortedSet SkipList SkipListProofs.
From Stdlib Require Import Floats.SpecFloat.

Open Scope nat_scope.

Abbreviation items := (map t_item).

Definition head_tower (sl : SkipList) : tower := mkTower (head_node sl) ([], S754_zero false) MAX_LEVEL.

Section spec.
Context (size_node : Z).

Definition towers_memory (T : list tower) : Z :=
  foldr (fun t acc => (calculate_node_size size_node (t_height t) + acc)%Z) (base_memory size_node) T.

(** The nodes are right; the index is stated apart, since it is updated first. *)
Record nodes_ok (sl : SkipList) (T : list tower) : Prop := {
  no_heap : heap sl = link_all (head_tower sl :: T) no_next ∅;
  no_locs : NoDup (locs (head_tower sl :: T));
  no_heights : Forall (fun t => 0 < t_height t <= S (level sl)) T;
  no_level : level sl < MAX_LEVEL;
  no_sorted : StronglySorted item_lt (items T);
  no_numbers : Forall (fun x => is_nan x.2 = false) (items T);
  no_length : sl_length sl = Z.of_nat (length T);
  no_bound : (Z.of_nat (length T) <= u64_max)%Z;
  no_memory : u64_wrap (sl_memory_usage sl) = u64_wrap (towers_memory T);
}.

Definition index_ok (m : gmap bytes f64) (l : list (bytes * f64)) : Prop :=
  NoDup l.*1 /\ forall k, m !! k = lookup_score k l.

Definition sl_rep (sl : SkipList) (l : list (bytes * f64)) : Prop :=
  exists T, nodes_ok sl T /\ items T = l /\ index_ok (key_index sl) l.

(** ** Lists of items *)

Lemma lookup_score_in k v l : NoDup l.*1 -> lookup_score k l = Some v <-> (k, v) ∈ l.
Proof.
  intros Hnd. unfold lookup_score. induction l as [|[k' v'] l IH]; [by split; [|intros ?%elem_of_nil]|].
  apply NoDup_cons in Hnd as [Hk Hnd]. rewrite filter_cons, elem_of_cons. cbn [fst]. case_decide as E.
  - subst k'. cbn. split; [intros [= ->]; by left|]. intros [[= ->]|Hin]; [done|].
    destruct Hk. apply list_elem_of_fmap. by exists (k, v).
  - rewrite (IH Hnd). naive_solver.
Qed.

Lemma lookup_score_none k l : lookup_score k l = None <-> k ∉ l.*1.
Proof.
  unfold lookup_score. induction l as [|[k' v'] l IH]; [by split; [intros _ ?%elem_of_nil|]|].
  rewrite filter_cons. cbn. rewrite not_elem_of_cons. case_decide; naive_solver.
Qed.

Lemma without_absent k l : k ∉ l.*1 -> without_member k l = l.
Proof.
  intros Hk. apply filter_all. intros x Hx E. apply Hk. rewrite <- E. apply list_elem_of_fmap. by exists x.
Qed.

Lemma sorted_item_facts (P N : list (bytes * f64)) x :
  StronglySorted item_lt (P ++ x :: N) ->
  Forall (fun y => item_lt y x) P /\ Forall (fun y => item_lt x y) N /\ StronglySorted item_lt (P ++ N).
Proof.
  induction P as [|p P IH]; simpl; intros Hs; inversion Hs as [|? ? Hs' Hall]; subst; [auto|].
  apply Forall_app in Hall as [HP HxN]. apply Forall_cons in HxN as [Hx HN].
  destruct (IH Hs') as (? & ? & ?). split_and!; auto. constructor; [done|]. by apply Forall_app.
Qed.

Lemma filter_split (Q : bytes * f64 -> Prop) `{!forall x, Decision (Q x)} P N :
  Forall Q P -> Forall (fun x => ~ Q x) N ->
  filter Q (P ++ N) = P /\ filter (fun x => ~ Q x) (P ++ N) = N.
Proof.
  intros HP HN. rewrite Forall_forall in HP, HN. rewrite !filter_app.
  rewrite (filter_all Q P), (filter_none Q N), (filter_none _ P), (filter_all _ N), app_nil_r by naive_solver. done.
Qed.

(** Towers below a bound come first. *)
Lemma towers_split (bef : bytes * f64 -> bool) T :
  StronglySorted item_lt (items T) ->
  (forall x y, x ∈ items T -> y ∈ items T -> item_lt x y -> bef y = true -> bef x = true) ->
  exists P N, T = P ++ N /\ towers_before bef P /\ towers_after bef N.
Proof.
  unfold towers_before, towers_after. induction T as [|t T IH]; intros Hs Hd.
  { exists [], []. auto. }
  simpl in Hs. inversion Hs as [|? ? Hs' Hall]; subst. destruct (bef (t_item t)) eqn:Ht.
  - destruct IH as (P & N & -> & HP & HN); [done| |exists (t :: P), N; auto].
    intros x y Hx Hy. apply Hd; by right.
  - exists [], (t :: T). split_and!; auto. constructor; [done|]. apply Forall_forall. intros u Hu.
    destruct (bef (t_item u)) eqn:E; [|done]. rewrite (Hd (t_item t) (t_item u)) in Ht; [done|by left| | |done].
    + right. by apply list_elem_of_fmap_2.
    + rewrite Forall_forall in Hall. apply Hall. by apply list_elem_of_fmap_2.
Qed.

Definition below (x : bytes * f64) (it : bytes * f64) : bool :=
  match compare_nodes it.2 it.1 x.2 x.1 with Lt => true | _ => false end.

Lemma below_true x it : below x it = true <-> item_lt it x.
Proof. unfold below, item_lt. rewrite compare_nodes_item. destruct it, x. simpl. by destruct (item_cmp _ _). Qed.

Lemma below_false x it : below x it = false <-> ~ item_lt it x.
Proof. rewrite <- below_true. by destruct (below x it). Qed.

Lemma before_items x P : towers_before (below x) P <-> Forall (fun y => item_lt y x) (items P).
Proof. unfold towers_before. rewrite List.Forall_map. apply Forall_iff. intros. apply below_true. Qed.

Lemma after_items x P : towers_after (below x) P <-> Forall (fun y => ~ item_lt y x) (items P).
Proof. unfold towers_after. rewrite List.Forall_map. apply Forall_iff. intros. apply below_false. Qed.

(** ** Numbers *)

Lemma towers_memory_app P t N :
  towers_memory (P ++ t :: N) = (calculate_node_size size_node (t_height t) + towers_memory (P ++ N))%Z.
Proof. induction P as [|p P IH]; [done|]. simpl. rewrite IH. lia. Qed.

Lemma wrap_add a b : u64_wrap (u64_wrap a + b) = u64_wrap (a + b).
Proof. unfold u64_wrap. by rewrite Zplus_mod_idemp_l. Qed.

Lemma u64_wrap_idemp a : u64_wrap (u64_wrap a) = u64_wrap a.
Proof. unfold u64_wrap. by rewrite Zmod_mod. Qed.

Lemma node_fuel_enough sl T : nodes_ok sl T -> length T < node_fuel sl.
Proof.
  intros [Hh Hl]. unfold node_fuel. rewrite Hh, size_link_all by done. simpl. lia.
Qed.

(** ** The descent of the methods *)

Lemma descend_nodes sl T bef P N :
  nodes_ok sl T -> T = P ++ N -> towers_before bef P -> towers_after bef N ->
  exists p update,
    descend (node_fuel sl) (heap sl) (node_bef bef) (level sl) (head_node sl) (replicate MAX_LEVEL None) = Ok (p, update)
    /\ last_opt 0 (head_tower sl :: P) = Some p
    /\ (forall j, j < MAX_LEVEL -> j <= level sl -> exists q, update !! j = Some (Some q) /\ last_opt j (head_tower sl :: P) = Some q)
    /\ length update = MAX_LEVEL.
Proof.
  intros Hok -> HP HN. pose proof (node_fuel_enough _ _ Hok) as Hf. destruct Hok as [Hh Hl Hhs Hlv]. rewrite Hh.
  destruct (descend_spec bef (head_tower sl) P N (node_fuel sl) (level sl) [] (head_tower sl) P (replicate MAX_LEVEL None))
    as (p & u & Hd & Hp & Hall & _ & Hlen); auto.
  { rewrite length_app in Hf. lia. }
  exists p, u. split_and!; auto. intros j _ Hj. destruct (Hall j Hj) as [-> [q ->]]. by exists q.
Qed.

Lemma last_opt_head sl T j :
  nodes_ok sl T -> forall P N, T = P ++ N -> level sl < j < MAX_LEVEL -> last_opt j (head_tower sl :: P) = Some (head_node sl).
Proof.
  intros [Hh Hl Hhs Hlv] P N -> Hj. simpl. rewrite last_opt_low.
  - by rewrite (proj2 (Nat.ltb_lt _ _)) by lia.
  - apply Forall_app in Hhs as [Hhs _]. eapply Forall_impl; [exact Hhs|]. simpl. lia.
Qed.

(** The entries above the old level point to the head. *)
Lemma raise_update (p : loc) n : forall a (u : list (option loc)) j,
  a + n <= length u ->
  foldl (fun u i => <[i := Some p]> u) u (seq a n) !! j = (if decide (a <= j < a + n) then Some (Some p) else u !! j).
Proof.
  induction n as [|n IH]; intros a u j Hlen; simpl.
  - by rewrite decide_False by lia.
  - rewrite IH by (rewrite length_insert; lia). destruct (decide (S a <= j < S a + n)) as [Hin|Hout].
    + by rewrite decide_True by lia.
    + destruct (decide (j = a)) as [->|Hne].
      * rewrite list_lookup_insert_eq by lia. by rewrite decide_True by lia.
      * rewrite list_lookup_insert_ne by done. by rewrite decide_False by lia.
Qed.

Lemma insert_items x P N :
  Forall (fun y => item_lt y x) P -> Forall (fun y => ~ item_lt y x) N -> insert_item x (P ++ N) = P ++ x :: N.
Proof. intros HP HN. unfold insert_item. by destruct (filter_split (fun y => item_lt y x) P N HP HN) as [-> ->]. Qed.

Lemma sorted_insert (P N : list (bytes * f64)) x :
  StronglySorted item_lt (P ++ N) -> Forall (fun y => item_lt y x) P -> Forall (fun y => item_lt x y) N ->
  StronglySorted item_lt (P ++ x :: N).
Proof.
  induction P as [|p P IH]; simpl; intros Hs HP HN; [by constructor|].
  inversion Hs as [|? ? Hs' Hall]; subst. inversion HP; subst. constructor; [auto|].
  apply Forall_app in Hall as [? ?]. apply Forall_app. auto.
Qed.

Lemma before_lt T x :
  StronglySorted item_lt (items T) ->
  forall y z, y ∈ items T -> z ∈ items T -> item_lt y z -> below x z = true -> below x y = true.
Proof. intros _ y z _ _ Hyz Hz. apply below_true in Hz. apply below_true. exact (item_lt_trans _ _ _ Hyz Hz). Qed.

Lemma item_lt_total x y : ~ item_lt y x -> y.1 <> x.1 -> item_lt x y.
Proof.
  unfold item_lt. rewrite (item_cmp_antisym y x). intros Hn Hk. destruct (item_cmp y x) eqn:E; try done.
  by apply item_cmp_eq in E.
Qed.

Lemma after_greater x N :
  x.1 ∉ N.*1 -> Forall (fun y => ~ item_lt y x) N -> Forall (fun y => item_lt x y) N.
Proof.
  intros Hx. rewrite !Forall_forall. intros Hn y Hy. apply item_lt_total; [auto|].
  intros E. apply Hx. rewrite <- E. by apply list_elem_of_fmap_2.
Qed.

Lemma nodes_ok_insert sl P N x it lvl m :
  nodes_ok sl (P ++ N) -> x ∉ locs (head_tower sl :: P ++ N) -> lvl < MAX_LEVEL -> is_nan it.2 = false ->
  Forall (fun y => item_lt y it) (items P) -> Forall (fun y => item_lt it y) (items N) ->
  (Z.of_nat (length (P ++ N)) < u64_max)%Z ->
  nodes_ok (mkSkipList (link_all (head_tower sl :: P ++ mkTower x it (S lvl) :: N) no_next ∅) (head_node sl)
              (Nat.max (level sl) lvl) (u64_wrap (sl_length sl + 1))
              (u64_wrap (sl_memory_usage sl + calculate_node_size size_node (S lvl))) m)
    (P ++ mkTower x it (S lvl) :: N).
Proof.
  intros [Hh Hl Hhs Hlv Hs Hn Hlen _ Hm] Hx Hlvl Hv HP HN Hb. unfold locs in *. simpl in Hl, Hx.
  rewrite map_app in Hl, Hx, Hs, Hn. apply not_elem_of_cons in Hx as [Hxh Hx].
  apply NoDup_cons in Hl as [Hhd (HlP & Hd & HlN)%NoDup_app]. apply not_elem_of_app in Hx as [HxP HxN].
  apply Forall_app in Hn as [HnP HnN].
  split; simpl; [done|..].
  - unfold locs. simpl. rewrite map_app. simpl. apply NoDup_cons. split; [set_solver|].
    apply NoDup_app. split_and!; [done|set_solver|]. by apply NoDup_cons.
  - apply Forall_app in Hhs as [H1 H2]. apply Forall_app. split; [|constructor]; [|simpl; lia|];
      (eapply Forall_impl; [eassumption|]); simpl; lia.
  - lia.
  - rewrite map_app. by apply sorted_insert.
  - rewrite map_app. apply Forall_app. split; [done|]. by constructor.
  - rewrite length_app in *. simpl. rewrite u64_wrap_small; [lia|]. unfold in_u64. lia.
  - rewrite length_app in *. simpl. lia.
  - rewrite towers_memory_app, u64_wrap_idemp. simpl.
    rewrite <- (wrap_add (sl_memory_usage sl)), Hm, wrap_add. f_equal. lia.
Qed.

Lemma insert_new_node_spec sl T lvl key v :
  nodes_ok sl T -> lvl < MAX_LEVEL -> is_nan v = false -> key ∉ (items T).*1 ->
  (Z.of_nat (length T) < u64_max)%Z ->
  exists sl' T', insert_new_node size_node lvl sl key v = Ok sl' /\ nodes_ok sl' T'
    /\ items T' = insert_item (key, v) (items T) /\ key_index sl' = key_index sl.
Proof.
  intros Hok Hlvl Hv Hkey Hbound.
  destruct (towers_split (below (key, v)) T) as (P & N & HT & HP & HN);
    [apply Hok|apply before_lt, Hok|].
  destruct (descend_nodes _ _ _ _ _ Hok HT HP HN) as (p & u & Hd & _ & Hu & Hlen).
  set (x := fresh (dom (heap sl))). set (t := mkTower x (key, v) (S lvl)).
  assert (Hx : x ∉ locs (head_tower sl :: T)).
  { pose proof (is_fresh (dom (heap sl))) as Hx.
    fold x in Hx. intros Hin. apply Hx. rewrite (no_heap _ _ Hok), dom_link_all. 
    apply elem_of_union_l, elem_of_list_to_set, Hin. }
  assert (Hnd : NoDup (locs (head_tower sl :: P))).
  { pose proof (no_locs _ _ Hok) as Hl. rewrite HT in Hl. unfold locs in Hl |- *. rewrite app_comm_cons, map_app in Hl.
    by apply NoDup_app in Hl as [? _]. }
  assert (HxP : x ∉ locs (head_tower sl :: P)).
  { intros Hin. apply Hx. rewrite HT. unfold locs in *. rewrite app_comm_cons, map_app. set_solver. }
  set (u' := if level sl <? lvl then foldl (fun u i => <[i := Some (head_node sl)]> u) u (seq (S (level sl)) (lvl - level sl)) else u).
  assert (Hu' : forall j, 0 <= j < S lvl -> exists q, u' !! j = Some (Some q) /\ last_opt j (head_tower sl :: P) = Some q).
  { intros j [_ Hj]. unfold u', MAX_LEVEL in *. destruct (Nat.ltb_spec (level sl) lvl) as [Hr|Hr]; [|apply Hu; lia].
    rewrite raise_update by lia. case_decide; [|apply Hu; lia].
    eexists; split; [done|]. eapply last_opt_head; [done..|unfold MAX_LEVEL; lia]. }
  assert (Hsp : splice (<[x := mkNode key v (replicate (S lvl) None)]> (heap sl)) x u' (seq 0 (S lvl))
                = Ok (link_all (head_tower sl :: P ++ t :: N) no_next ∅)).
  { rewrite (no_heap _ _ Hok), HT, app_comm_cons, link_all_app, <- link_all_insert by done.
    rewrite (splice_spec (head_tower sl :: P) N x key v (S lvl) (link_all N no_next ∅) Hnd HxP u' (S lvl) 0 eq_refl Hu').
    f_equal. exact (splice_result (head_tower sl :: P) N x (key, v) (S lvl)). }
  eexists _, (P ++ t :: N). split; [|split; [|split]].
  - unfold insert_new_node. change (fun n => match compare_nodes (n_value n) (n_key n) v key with Lt => true | _ => false end)
      with (node_bef (below (key, v))). rewrite Hd. cbn [obind snd]. fold u'. fold x. rewrite Hsp. cbn [obind]. reflexivity.
  - subst T. apply before_items in HP. apply after_items in HN. rewrite map_app, fmap_app, not_elem_of_app in Hkey.
    destruct Hkey as [_ HkN]. apply nodes_ok_insert; auto. by apply after_greater.
  - subst T. rewrite !map_app. symmetry. apply insert_items; [by apply before_items|by apply after_items].
  - done.
Qed.

(** ** Removing *)

Lemma first_or_height P k i : Forall (fun t => 0 < t_height t) P ->
  first_or i P k = None -> Forall (fun t => t_height t <= i) P.
Proof.
  induction 1 as [|t P Ht HP IH]; [done|]. simpl. destruct (Nat.ltb_spec i (t_height t)); [done|]. auto.
Qed.

Lemma lower_level_spec hd P k h lvl :
  NoDup (locs (hd :: P)) -> Forall (fun t => 0 < t_height t <= S lvl) P -> lvl < t_height hd ->
  (forall i, k i = None) ->
  exists l', lower_level (link_all (hd :: P) k h) (t_loc hd) lvl = Ok l' /\ l' <= lvl
    /\ Forall (fun t => 0 < t_height t <= S l') P.
Proof.
  intros Hnd HP Hlvl Hk. induction lvl as [|lvl IH]; [by exists 0|].
  cbn [lower_level]. change (hd :: P) with ([] ++ hd :: P). rewrite get_forward_link by done. cbn [obind].
  destruct (first_or (S lvl) P k) eqn:E; [by exists (S lvl)|].
  apply first_or_height in E; [|eapply Forall_impl; [exact HP|]; simpl; lia].
  destruct IH as (l' & Hl & Hle & HP').
  - rewrite Forall_forall in HP, E. apply Forall_forall. intros u Hu. specialize (HP u Hu). specialize (E u Hu). lia.
  - lia.
  - exists l'. split_and!; auto.
Qed.

Lemma lower_level_ext h h' hd lvl :
  (forall i, i <= lvl -> get_forward h hd i = get_forward h' hd i) -> lower_level h hd lvl = lower_level h' hd lvl.
Proof.
  induction lvl as [|lvl IH]; [done|]. intros E. cbn [lower_level]. rewrite E by done.
  destruct (get_forward h' hd (S lvl)) as [[q|]| |]; try done. cbn [obind]. apply IH. auto.
Qed.

Lemma nodes_ok_remove sl P t N l' m :
  nodes_ok sl (P ++ t :: N) -> l' <= level sl -> Forall (fun u => 0 < t_height u <= S l') (P ++ N) ->
  nodes_ok (mkSkipList (link_all (head_tower sl :: P ++ N) no_next ∅) (head_node sl) l'
              (u64_wrap (sl_length sl - 1)) (u64_wrap (sl_memory_usage sl - calculate_node_size size_node (t_height t))) m)
    (P ++ N).
Proof.
  intros [Hh Hl Hhs Hlv Hs Hn Hlen Hb Hm] Hle HPN. unfold locs in *. simpl in Hl.
  rewrite map_app in Hl, Hs, Hn. simpl in Hl, Hs, Hn. rewrite length_app in Hlen, Hb. simpl in Hlen, Hb.
  apply NoDup_cons in Hl as [Hhd (HlP & Hd & HlN)%NoDup_app]. apply NoDup_cons in HlN as [_ HlN].
  apply sorted_item_facts in Hs as (_ & _ & Hs). apply Forall_app in Hn as [HnP HnN]. inversion HnN; subst.
  split; simpl; rewrite ?map_app; try done.
  - unfold locs. simpl. rewrite map_app. apply NoDup_cons. split; [set_solver|].
    apply NoDup_app. split_and!; [done|set_solver|done].
  - lia.
  - apply Forall_app. auto.
  - rewrite length_app, u64_wrap_small; [lia|]. unfold in_u64. lia.
  - rewrite length_app. lia.
  - rewrite u64_wrap_idemp, <- Z.add_opp_r, <- wrap_add, Hm, wrap_add, towers_memory_app. f_equal. lia.
Qed.

Lemma unlinked_level sl P t N hb :
  NoDup (locs ((head_tower sl :: P) ++ t :: N)) -> level sl < MAX_LEVEL -> 0 < t_height t ->
  Forall (fun t => 0 < t_height t <= S (level sl)) (P ++ N) ->
  exists l', lower_level (link_all (head_tower sl :: P) (unlink_next N t (t_height t)) hb) (head_node sl) (level sl) = Ok l'
    /\ l' <= level sl /\ Forall (fun t => 0 < t_height t <= S l') (P ++ N).
Proof.
  intros Hnd Hlv Ht Hhs.
  assert (Hnd' : NoDup (locs (head_tower sl :: P ++ N))).
  { unfold locs in *. rewrite app_comm_cons, map_app in *. simpl in Hnd |- *.
    apply NoDup_cons in Hnd as [H1 (H2 & H3 & H4)%NoDup_app]. apply NoDup_cons in H4 as [_ H4].
    apply NoDup_cons. split; [set_solver|]. apply NoDup_app. split_and!; [done|set_solver|done]. }
  assert (HndP : NoDup (locs (head_tower sl :: P))) by (unfold locs in *; rewrite map_app in Hnd; by apply NoDup_app in Hnd as [? _]).
  destruct (lower_level_spec (head_tower sl) (P ++ N) no_next ∅ (level sl)) as (l' & Hl & Hle & HF); auto.
  exists l'. split_and!; auto. rewrite <- Hl. apply lower_level_ext. intros i Hi.
  change (head_node sl) with (t_loc (head_tower sl)).
  rewrite (get_forward_link [] (head_tower sl) P), (get_forward_link [] (head_tower sl) (P ++ N)) by (done || simpl; lia).
  rewrite first_or_app. f_equal. apply first_or_ext. unfold unlink_next.
  by destruct (Nat.leb_spec (t_height t) i), (Nat.ltb_spec i (t_height t)); [lia|..].
Qed.

Lemma remove_node_spec sl P t N :
  nodes_ok sl (P ++ t :: N) ->
  exists sl', remove_node_by_score size_node sl (t_item t).1 (t_item t).2 = Ok sl'
    /\ nodes_ok sl' (P ++ N) /\ key_index sl' = key_index sl.
Proof.
  intros Hok. pose proof (no_sorted _ _ Hok) as Hs. rewrite map_app in Hs. simpl in Hs.
  apply sorted_item_facts in Hs as (HP & HN & _).
  assert (HPb : towers_before (below (t_item t)) P) by by apply before_items.
  assert (HNa : towers_after (below (t_item t)) (t :: N)).
  { apply after_items. constructor; [apply item_lt_irrefl|]. eapply Forall_impl; [exact HN|]. simpl.
    intros y Hy Hy'. exact (item_lt_irrefl _ (item_lt_trans _ _ _ Hy Hy')). }
  destruct (descend_nodes _ _ _ _ _ Hok eq_refl HPb HNa) as (p & u & Hd & Hp & Hu & Hlen).
  set (hb := link_all (t :: N) no_next ∅).
  assert (Hheap : heap sl = link_all (head_tower sl :: P) (unlink_next N t 0) hb).
  { rewrite (no_heap _ _ Hok), app_comm_cons, link_all_app. by apply link_all_pointwise. }
  assert (Hnd : NoDup (locs ((head_tower sl :: P) ++ t :: N))) by apply Hok.
  assert (Hht : 0 < t_height t <= S (level sl)).
  { pose proof (no_heights _ _ Hok) as Hhs. apply Forall_app in Hhs as [_ Hhs]. by inversion Hhs. }
  assert (Hhb : hb !! t_loc t = Some (tower_node t N no_next)) by (unfold hb; simpl; apply lookup_insert_eq).
  assert (Hul : unlink (heap sl) (t_loc t) u (seq 0 (S (level sl)))
                = Ok (link_all (head_tower sl :: P) (unlink_next N t (t_height t)) hb)).
  { rewrite Hheap. apply unlink_spec; auto; [lia|]. intros j Hj. pose proof (no_level _ _ Hok). apply Hu; lia. }
  assert (Hlow : exists l', lower_level (link_all (head_tower sl :: P) (unlink_next N t (t_height t)) hb) (head_node sl) (level sl) = Ok l'
            /\ l' <= level sl /\ Forall (fun t => 0 < t_height t <= S l') (P ++ N)).
  { apply unlinked_level; [done|apply Hok|lia|].
    pose proof (no_heights _ _ Hok) as Hhs. apply Forall_app in Hhs as [H1 H2]. apply Forall_app.
    by inversion H2. }
  destruct Hlow as (l' & Hlow & Hle & Hhs').
  eexists. split; [|split; [apply (nodes_ok_remove _ _ _ _ l' (key_index sl) Hok Hle Hhs')|done]].
  unfold remove_node_by_score.
  change (fun n => match compare_nodes (n_value n) (n_key n) (t_item t).2 (t_item t).1 with Lt => true | _ => false end)
    with (node_bef (below (t_item t))). rewrite Hd. cbn [obind fst snd].
  assert (Hg : get_forward (heap sl) p 0 = Ok (Some (t_loc t))).
  { rewrite Hheap, (get_forward_last _ _ _ p).
    - unfold unlink_next. by rewrite (proj2 (Nat.ltb_lt _ _)) by lia.
    - unfold locs in *. rewrite map_app in Hnd. by apply NoDup_app in Hnd as [? _].
    - done. }
  assert (Hdr : deref (heap sl) (t_loc t) = Ok (tower_node t N no_next)).
  { rewrite (no_heap _ _ Hok). change (head_tower sl :: P ++ t :: N) with ((head_tower sl :: P) ++ t :: N).
    by rewrite deref_link. }
  rewrite Hg. cbn [obind]. rewrite Hdr. cbn [obind tower_node n_key n_value].
  rewrite bool_decide_true by done.
  assert (is_nan (t_item t).2 = false) as Hnan.
  { pose proof (no_numbers _ _ Hok) as Hn. rewrite map_app in Hn. apply Forall_app in Hn as [_ Hn]. by inversion Hn. }
  rewrite f_eq_refl by done. cbn [andb]. rewrite Hul. cbn [obind]. rewrite Hlow. cbn [obind].
  rewrite (unlink_result (head_tower sl :: P) N t hb Hnd eq_refl).
  unfold tower_node, links; cbn [forward]. by rewrite length_map, length_seq.
Qed.

(** ** The methods that change the list *)

Lemma sl_new_rep : sl_rep (sl_new size_node) [].
Proof.
  exists []. split_and!; [|done|].
  - split; simpl; auto; try done.
    + apply NoDup_singleton.
    + unfold MAX_LEVEL. lia.
    + constructor.
  - split; [constructor|done].
Qed.

Lemma nodup_without k (l : list (bytes * f64)) : NoDup l.*1 -> NoDup (without_member k l).*1.
Proof.
  unfold without_member. induction l as [|x l IH]; [constructor|].
  intros [Hx Hnd]%NoDup_cons. rewrite filter_cons. case_decide; [|auto].
  simpl. apply NoDup_cons. split; [|auto]. intros (y & E & [_ Hy]%list_elem_of_filter)%list_elem_of_fmap.
  apply Hx. rewrite E. by apply list_elem_of_fmap_2.
Qed.

Lemma index_ok_insert m l k v :
  index_ok m l -> index_ok (<[k := v]> m) (insert_item (k, v) (without_member k l)).
Proof.
  intros [Hnd Hm]. assert (Hp : insert_item (k, v) (without_member k l) ≡ₚ (k, v) :: without_member k l).
  { unfold insert_item. rewrite <- Permutation_middle. f_equiv.
    generalize (without_member k l) as l0. intros l0. induction l0 as [|y l0 IH]; [done|].
    rewrite !filter_cons. destruct (decide (item_lt y (k, v))).
    - rewrite decide_False by tauto. simpl. by rewrite IH.
    - rewrite decide_True by done. by rewrite <- Permutation_middle, IH. }
  assert (Hnd' : NoDup (insert_item (k, v) (without_member k l)).*1).
  { rewrite Hp. simpl. apply NoDup_cons. split.
    - intros (x & -> & [Hx _]%list_elem_of_filter)%list_elem_of_fmap. done.
    - by apply nodup_without. }
  split; [done|]. intros k'. apply option_eq. intros v'. rewrite lookup_score_in, Hp by done.
  rewrite elem_of_cons. unfold without_member. rewrite list_elem_of_filter. cbn [fst].
  destruct (decide (k' = k)) as [->|Hne].
  - rewrite lookup_insert_eq. naive_solver.
  - rewrite lookup_insert_ne, Hm, lookup_score_in by done. naive_solver.
Qed.

Lemma index_ok_delete m l k : index_ok m l -> index_ok (delete k m) (without_member k l).
Proof.
  intros [Hnd Hm].
  assert (Hnd' : NoDup (without_member k l).*1) by by apply nodup_without.
  split; [done|]. intros k'. apply option_eq. intros v'. rewrite lookup_score_in by done.
  unfold without_member. rewrite list_elem_of_filter. cbn [fst]. destruct (decide (k' = k)) as [->|Hne].
  - rewrite lookup_delete_eq. naive_solver.
  - rewrite lookup_delete_ne, Hm, lookup_score_in by done. naive_solver.
Qed.

Lemma nodes_ok_index sl T m : nodes_ok sl T -> nodes_ok (with_index sl m) T.
Proof. intros [? ? ? ? ? ? ? ? ?]. by split. Qed.

(** Removing the node of a member. *)
Lemma remove_member_spec sl T k v :
  nodes_ok sl T -> NoDup (items T).*1 -> lookup_score k (items T) = Some v ->
  exists sl' T', remove_node_by_score size_node sl k v = Ok sl' /\ nodes_ok sl' T' /\ key_index sl' = key_index sl
    /\ items T' = without_member k (items T).
Proof.
  intros Hok Hnd Hin. apply lookup_score_in in Hin; [|done].
  apply list_elem_of_fmap in Hin as (t & Ht & (P & N & ->)%list_elem_of_split).
  destruct (remove_node_spec sl P t N Hok) as (sl' & Hr & Hok' & Hi). rewrite <- Ht in Hr.
  exists sl', (P ++ N). split_and!; auto. rewrite !map_app. rewrite !map_app in Hnd. cbn [map] in Hnd |- *. rewrite <- Ht in Hnd |- *.
  cbn in Hnd. apply NoDup_app in Hnd as (H1 & H2 & H3). apply NoDup_cons in H3 as [H3 _].
  unfold without_member. rewrite filter_app, filter_cons. rewrite decide_False by (simpl; tauto).
  rewrite !filter_all; [done| |]; intros x Hx E; [apply H3|apply (H2 k); [|by left]];
    rewrite <- E; by apply list_elem_of_fmap_2.
Qed.

Lemma sl_remove_rep sl l k :
  sl_rep sl l ->
  exists sl', sl_remove size_node sl k = Ok (sl', lookup_score k l) /\ sl_rep sl' (without_member k l).
Proof.
  intros (T & Hok & <- & Hidx). unfold sl_remove. rewrite (proj2 Hidx).
  destruct (lookup_score k (items T)) as [v|] eqn:E.
  - destruct (remove_member_spec (with_index sl (delete k (key_index sl))) T k v) as (sl' & T' & Hr & Hok' & Hi & Hit);
      [by apply nodes_ok_index|apply Hidx|done|].
    rewrite Hr. cbn [obind]. exists sl'. split; [done|]. exists T'. rewrite Hit, Hi. split_and!; auto.
    by apply index_ok_delete.
  - exists sl. split; [done|]. rewrite without_absent by by apply lookup_score_none. by exists T.
Qed.

Lemma sl_insert_rep sl l lvl k v :
  sl_rep sl l -> lvl < MAX_LEVEL -> is_nan v = false -> (Z.of_nat (length l) < u64_max)%Z ->
  exists sl', sl_insert size_node lvl sl k v = Ok (sl', lookup_score k l)
    /\ sl_rep sl' (insert_item (k, v) (without_member k l)).
Proof.
  intros (T & Hok & <- & Hidx) Hlvl Hv Hb. unfold sl_insert. rewrite (proj2 Hidx). rewrite length_map in Hb.
  pose proof (index_ok_insert _ _ k v Hidx) as Hidx'.
  assert (Hstep : forall sl0 T0, nodes_ok sl0 T0 -> items T0 = without_member k (items T) -> key_index sl0 = key_index sl ->
            length T0 <= length T ->
            exists sl', insert_new_node size_node lvl (with_index sl0 (<[k := v]> (key_index sl0))) k v = Ok sl'
              /\ sl_rep sl' (insert_item (k, v) (without_member k (items T)))).
  { intros sl0 T0 Hok0 Hit Hi Hlen.
    destruct (insert_new_node_spec (with_index sl0 (<[k := v]> (key_index sl0))) T0 lvl k v)
      as (sl' & T' & Hr & Hok' & Hit' & Hi'); auto using nodes_ok_index; [|lia|].
    - rewrite Hit. intros (x & -> & [Hx _]%list_elem_of_filter)%list_elem_of_fmap. done.
    - exists sl'. split; [done|]. exists T'. rewrite Hit', Hit, Hi'. split_and!; auto. simpl. by rewrite Hi. }
  destruct (lookup_score k (items T)) as [old|] eqn:E.
  - destruct (remove_member_spec sl T k old) as (sl1 & T1 & Hr & Hok1 & Hi1 & Hit1); [done|apply Hidx|done|].
    rewrite Hr. cbn [obind]. destruct (Hstep sl1 T1) as (sl' & -> & Hrep); auto; [|by exists sl'].
    rewrite <- (length_map t_item T1), Hit1, <- (length_map t_item T). apply length_filter.
  - destruct (Hstep sl T) as (sl' & -> & Hrep); auto; [|by exists sl'].
    symmetry. apply without_absent. by apply lookup_score_none.
Qed.

(** ** The methods that read *)

Section level_zero.
Context (h : node_heap) (T0 : list tower).
Context (h_eq : h = link_all T0 no_next ∅) (nodup : NoDup (locs T0)) (tall : Forall (fun t => 0 < t_height t) T0).

(** On level 0 a tower points to the next one. *)
Lemma next_tower A c R : T0 = A ++ c :: R -> get_forward h (t_loc c) 0 = Ok (head (locs R)).
Proof using h_eq nodup tall.
  intros E. rewrite h_eq. rewrite E in nodup, tall |- *. apply Forall_app in tall as [_ Ht].
  inversion Ht as [|? ? Hc HR]; subst. rewrite get_forward_link by done.
  destruct HR as [|r R Hr HR]; [done|]. simpl. by rewrite (proj2 (Nat.ltb_lt _ _) Hr).
Qed.

Lemma deref_tower A c R : T0 = A ++ c :: R -> deref h (t_loc c) = Ok (tower_node c R no_next).
Proof using h_eq nodup. intros E. rewrite h_eq. rewrite E in nodup |- *. by apply deref_link. Qed.

Lemma rank_loop_spec score key N t P : forall fuel A c rank,
  T0 = A ++ c :: P ++ t :: N -> t_item t = (key, score) -> Forall (fun y => item_lt y (key, score)) (items P) ->
  length P < fuel -> rank_loop fuel h score key rank (t_loc c) = Ok (Some (rank + length P)).
Proof using h_eq nodup tall.
  induction P as [|p P IH]; intros [|fuel] A c rank E Ht HP Hf; simpl in Hf; try lia; cbn [rank_loop];
    rewrite (next_tower A c _ E); cbn [obind app map head locs list_fmap].
  - rewrite (deref_tower (A ++ [c]) t N) by (by rewrite <- (assoc_L (++))). cbn [obind tower_node n_key n_value].
    rewrite Ht, compare_nodes_item. cbn [fst snd]. unfold item_cmp.
    rewrite (proj2 (cmp3_eq _ _) eq_refl), bytes_cmp_refl. by rewrite Nat.add_0_r.
  - rewrite (deref_tower (A ++ [c]) p (P ++ t :: N)) by (by rewrite <- (assoc_L (++))).
    cbn [obind tower_node n_key n_value]. apply Forall_cons in HP as [Hp HP].
    rewrite compare_nodes_item. replace ((t_item p).1, (t_item p).2) with (t_item p) by by destruct (t_item p).
    rewrite Hp. rewrite (IH fuel (A ++ [c]) p (S rank)); [|by rewrite <- (assoc_L (++))|done|done|lia].
    f_equal; f_equal. simpl. lia.
Qed.

Lemma skip_ranks_spec n : forall A c R,
  T0 = A ++ c :: R -> n <= length R ->
  exists A' c' R', T0 = A' ++ c' :: R' /\ R' = drop n R /\ skip_ranks n h (t_loc c) = Ok (t_loc c').
Proof using h_eq nodup tall.
  induction n as [|n IH]; intros A c R E Hn; [by exists A, c, R|].
  destruct R as [|r R]; simpl in Hn; [lia|]. cbn [skip_ranks]. rewrite (next_tower A c _ E). cbn [obind map head locs].
  apply (IH (A ++ [c])); [by rewrite <- (assoc_L (++))|lia].
Qed.

Lemma collect_ranks_spec n : forall A c R,
  T0 = A ++ c :: R -> collect_ranks n h (t_loc c) = Ok (take n (items R)).
Proof using h_eq nodup tall.
  induction n as [|n IH]; intros A c R E; [done|]. cbn [collect_ranks]. rewrite (next_tower A c _ E).
  destruct R as [|r R]; [done|]. cbn [obind map head locs].
  rewrite (deref_tower (A ++ [c]) r R) by (by rewrite <- (assoc_L (++))).
  rewrite (IH (A ++ [c]) r R) by (by rewrite <- (assoc_L (++))). cbn [obind tower_node n_key n_value].
  simpl. by destruct (t_item r).
Qed.

Lemma collect_scores_spec hi N2 N1 : forall fuel A c,
  T0 = A ++ c :: N1 ++ N2 -> Forall (fun t => f_le (t_item t).2 hi = true) (c :: N1) ->
  Forall (fun t => f_le (t_item t).2 hi = false) N2 -> length N1 + 1 < fuel ->
  collect_scores fuel h hi (t_loc c) = Ok (items (c :: N1)).
Proof using h_eq nodup tall.
  induction N1 as [|d N1 IH]; intros [|fuel] A c E H1 H2 Hf; simpl in Hf; try lia; cbn [collect_scores];
    apply Forall_cons in H1 as [Hc H1];
    rewrite (deref_tower A c _ E); cbn [obind tower_node n_key n_value]; rewrite Hc, (next_tower A c _ E); cbn [obind].
  - destruct N2 as [|d N2]; cbn [app head locs map].
    + by destruct (t_item c).
    + destruct fuel as [|fuel]; [lia|]. cbn [collect_scores].
      rewrite (deref_tower (A ++ [c]) d N2) by (by rewrite <- (assoc_L (++))). cbn [obind tower_node n_key n_value].
      apply Forall_cons in H2 as [-> _]. cbn [obind]. by destruct (t_item c).
  - cbn [app head locs map]. rewrite (IH fuel (A ++ [c]) d); [|by rewrite <- (assoc_L (++))|done..|lia].
    cbn [obind map]. by destruct (t_item c).
Qed.
End level_zero.

Section reading.
Context (sl : SkipList) (T : list tower) (ok : nodes_ok sl T).

Lemma all_tall : Forall (fun t => 0 < t_height t) (head_tower sl :: T).
Proof using ok.
  constructor; [simpl; unfold MAX_LEVEL; lia|]. eapply Forall_impl; [apply ok|]. simpl. lia.
Qed.

Lemma sl_range_by_rank_spec lo hi :
  (0 <= lo)%Z -> sl_range_by_rank sl lo hi = Ok (rank_slice lo hi (items T)).
Proof using ok.
  intros Hlo. unfold sl_range_by_rank, rank_slice. rewrite (no_length _ _ ok).
  destruct (Z.leb_spec (Z.of_nat (length T)) lo) as [Hge|Hlt].
  { rewrite drop_ge by (rewrite length_map; lia). by rewrite take_nil. }
  destruct (skip_ranks_spec (heap sl) (head_tower sl :: T) (no_heap _ _ ok) (no_locs _ _ ok) all_tall
              (Z.to_nat lo) [] (head_tower sl) T eq_refl) as (A & c & R & HT & HR & Hs); [lia|].
  change (head_node sl) with (t_loc (head_tower sl)). rewrite Hs. cbn [obind].
  rewrite (collect_ranks_spec _ _ (no_heap _ _ ok) (no_locs _ _ ok) all_tall _ _ _ _ HT). f_equal.
  rewrite HR, <- skipn_map.
  rewrite <- (firstn_all (skipn (Z.to_nat lo) (items T))) at 2. rewrite take_take. f_equal.
  rewrite length_skipn, length_map. lia.
Qed.

Lemma sl_get_by_rank_spec rank : (0 <= rank)%Z -> sl_get_by_rank sl rank = Ok (items T !! Z.to_nat rank).
Proof using ok.
  intros Hlo. unfold sl_get_by_rank. rewrite (no_length _ _ ok).
  destruct (Z.leb_spec (Z.of_nat (length T)) rank) as [Hge|Hlt].
  { rewrite lookup_ge_None_2 by (rewrite length_map; lia). done. }
  destruct (skip_ranks_spec (heap sl) (head_tower sl :: T) (no_heap _ _ ok) (no_locs _ _ ok) all_tall
              (Z.to_nat rank) [] (head_tower sl) T eq_refl) as (A & c & R & HT & HR & Hs); [lia|].
  change (head_node sl) with (t_loc (head_tower sl)). rewrite Hs. cbn [obind].
  rewrite (next_tower _ _ (no_heap _ _ ok) (no_locs _ _ ok) all_tall _ _ _ HT). cbn [obind].
  rewrite list_lookup_fmap, <- (Nat.add_0_r (Z.to_nat rank)), <- lookup_drop, <- HR.
  destruct R as [|r R]; [done|]. cbn [map head locs].
  rewrite (deref_tower _ _ (no_heap _ _ ok) (no_locs _ _ ok) (A ++ [c]) r R) by (by rewrite <- (assoc_L (++))).
  cbn. by destruct (t_item r).
Qed.

Lemma sl_get_all_items_spec : sl_get_all_items sl = Ok (items T).
Proof using ok.
  unfold sl_get_all_items. change (head_node sl) with (t_loc (head_tower sl)).
  rewrite (collect_ranks_spec _ _ (no_heap _ _ ok) (no_locs _ _ ok) all_tall _ [] (head_tower sl) T eq_refl).
  rewrite take_ge; [done|]. rewrite length_map. pose proof (node_fuel_enough _ _ ok). lia.
Qed.

Lemma sl_get_rank_spec k :
  index_ok (key_index sl) (items T) ->
  sl_get_rank sl k = Ok (match lookup_score k (items T) with
                         | Some v => Some (length (filter (fun y => item_lt y (k, v)) (items T)))
                         | None => None
                         end).
Proof using ok.
  intros [Hnd Hidx]. unfold sl_get_rank. rewrite Hidx.
  destruct (lookup_score k (items T)) as [v|] eqn:E; [|done]. apply lookup_score_in in E; [|done].
  apply list_elem_of_fmap in E as (t & Ht & (P & N & HT)%list_elem_of_split).
  pose proof (no_sorted _ _ ok) as Hs. rewrite HT, map_app in Hs. simpl in Hs. rewrite <- Ht in Hs.
  apply sorted_item_facts in Hs as (HP & HN & _).
  change (head_node sl) with (t_loc (head_tower sl)).
  rewrite (rank_loop_spec _ _ (no_heap _ _ ok) (no_locs _ _ ok) all_tall v k N t P _ [] (head_tower sl));
    [|by rewrite HT|done|done|pose proof (node_fuel_enough _ _ ok) as Hf; rewrite HT, length_app in Hf; simpl in Hf; lia].
  do 3 f_equal. rewrite HT, map_app. cbn [map]. rewrite <- Ht.
  assert (Hge : Forall (fun y => ~ item_lt y (k, v)) ((k, v) :: items N)).
  { constructor; [apply item_lt_irrefl|]. eapply Forall_impl; [exact HN|]. simpl. intros y Hy Hy'.
    exact (item_lt_irrefl _ (item_lt_trans _ _ _ Hy Hy')). }
  rewrite (proj1 (filter_split (fun y => item_lt y (k, v)) (items P) ((k, v) :: items N) HP Hge)).
  by rewrite length_map.
Qed.

(** Where a descent stops: right before the towers that come after. *)
Lemma descent_end P N p :
  T = P ++ N -> last_opt 0 (head_tower sl :: P) = Some p ->
  exists A c, head_tower sl :: T = A ++ c :: N /\ t_loc c = p.
Proof using ok.
  intros HT (A & c & Bs & HA & <- & _ & Hlow)%last_opt_some. exists A, c. split; [|done].
  rewrite HT, app_comm_cons, HA, <- (assoc_L (++)). destruct Bs as [|b Bs]; [done|]. exfalso.
  apply Forall_cons in Hlow as [Hb _].
  pose proof all_tall as Hall. rewrite HT, app_comm_cons, HA in Hall. apply Forall_app in Hall as [Hall _].
  apply Forall_app in Hall as [_ Hall]. inversion Hall as [|? ? _ Hall']. inversion Hall'; subst. lia.
Qed.

(** The items within two bounds, from the split at each. *)
Lemma score_filter lo hi P N1 N2 :
  towers_before (fun it => f_lt it.2 lo) P -> towers_after (fun it => f_lt it.2 lo) (N1 ++ N2) ->
  towers_before (fun it => f_le it.2 hi) N1 -> towers_after (fun it => f_le it.2 hi) N2 ->
  filter (fun x => f_lt x.2 lo = false /\ f_le x.2 hi = true) (items (P ++ N1 ++ N2)) = items N1.
Proof.
  unfold towers_before, towers_after. rewrite !Forall_forall. intros HP HN H1 H2. rewrite !map_app, !filter_app.
  rewrite (filter_none _ (items P)), (filter_all _ (items N1)), (filter_none _ (items N2)), app_nil_r; [done|..];
    intros x (t & -> & Ht)%list_elem_of_fmap.
  - intros [_ Hle]. by rewrite (H2 t Ht) in Hle.
  - split; [apply HN, elem_of_app; by left|by apply H1].
  - intros [Hle _]. by rewrite (HP t Ht) in Hle.
Qed.

Lemma numbers_in y : y ∈ items T -> is_nan y.2 = false.
Proof using ok. pose proof (no_numbers _ _ ok) as Hn. rewrite Forall_forall in Hn. apply Hn. Qed.

Lemma sl_range_by_score_spec lo hi :
  sl_range_by_score sl lo hi = Ok (filter (fun x => f_lt x.2 lo = false /\ f_le x.2 hi = true) (items T)).
Proof using ok.
  destruct (towers_split (fun it => f_lt it.2 lo) T (no_sorted _ _ ok)) as (P & N & HT & HP & HN).
  { intros x y Hx Hy. apply item_lt_f_lt; by apply numbers_in. }
  assert (HsN : StronglySorted item_lt (items N)).
  { pose proof (no_sorted _ _ ok) as Hs. rewrite HT, map_app in Hs. clear -Hs.
    induction (items P) as [|x l IH]; [done|]. simpl in Hs. inversion Hs; auto. }
  destruct (towers_split (fun it => f_le it.2 hi) N HsN) as (N1 & N2 & HN' & H1 & H2).
  { intros x y Hx Hy. apply item_lt_f_le; apply numbers_in; rewrite HT, map_app; apply elem_of_app; auto. }
  destruct (descend_nodes _ _ _ _ _ ok HT HP HN) as (p & u & Hd & Hp & _ & _).
  unfold sl_range_by_score. change (fun n => f_lt (n_value n) lo) with (node_bef (fun it => f_lt it.2 lo)).
  rewrite Hd. cbn [obind fst].
  destruct (descent_end P N p HT Hp) as (A & c & HTc & <-).
  rewrite (next_tower _ _ (no_heap _ _ ok) (no_locs _ _ ok) all_tall _ _ _ HTc). cbn [obind].
  subst N. rewrite HT, score_filter by done.
  destruct N1 as [|d N1]; cbn [app] in HTc |- *.
  - destruct N2 as [|d N2]; [done|]. cbn [map head locs]. unfold node_fuel. cbn [collect_scores].
    rewrite (deref_tower _ _ (no_heap _ _ ok) (no_locs _ _ ok) (A ++ [c]) d N2) by (by rewrite <- (assoc_L (++))).
    cbn [obind tower_node n_value]. apply Forall_cons in H2 as [-> _]. done.
  - cbn [map head locs]. apply (collect_scores_spec _ _ (no_heap _ _ ok) (no_locs _ _ ok) all_tall hi N2 N1 _ (A ++ [c]) d);
      [by rewrite <- (assoc_L (++))|done|done|].
    pose proof (node_fuel_enough _ _ ok) as Hf. rewrite HT, !length_app in Hf. simpl in Hf. lia.
Qed.
End reading.

(** ** [clear] *)

Lemma free_all_spec hd nd_key nd_value R : forall fuel f,
  NoDup (hd :: locs R) -> Forall (fun t => 0 < t_height t) R -> f !! 0 = Some (head (locs R)) -> length R < fuel ->
  exists f', free_all fuel (<[hd := mkNode nd_key nd_value f]> (link_all R no_next ∅)) hd
             = Ok (<[hd := mkNode nd_key nd_value f']> ∅) /\ length f' = length f.
Proof.
  induction R as [|r R IH]; intros [|fuel] f Hnd Hall Hf Hlen; simpl in Hlen; try lia; cbn [free_all];
    unfold get_forward at 1; rewrite lookup_insert_eq; cbn [forward]; rewrite Hf; cbn [obind map head locs].
  - by exists f.
  - simpl in Hnd. apply NoDup_cons in Hnd as [Hhd Hnd]. apply not_elem_of_cons in Hhd as [Hne Hhd].
    inversion Hall as [|? ? Hr Hall']; subst.
    assert (Hg : get_forward (<[hd := mkNode nd_key nd_value f]> (link_all (r :: R) no_next ∅)) (t_loc r) 0
                 = Ok (head (locs R))).
    { unfold get_forward. rewrite lookup_insert_ne by done. simpl. rewrite lookup_insert_eq. simpl.
      rewrite links_lookup by done. destruct Hall' as [|q R' Hq]; [done|]. simpl. by rewrite (proj2 (Nat.ltb_lt _ _) Hq). }
    rewrite Hg. cbn [obind].
    unfold set_forward. rewrite lookup_insert_eq. cbn [forward]. rewrite Hf. cbn [obind n_key n_value].
    rewrite insert_insert_eq, delete_insert_ne by done. cbn [link_all]. apply NoDup_cons in Hnd as [HrR Hnd].
    rewrite delete_insert_id by (by rewrite lookup_link_out).
    destruct (IH fuel (<[0 := head (locs R)]> f)) as (f' & Hfree & Hl'); [by apply NoDup_cons|done| |lia|].
    + apply list_lookup_insert_eq. by apply lookup_lt_Some in Hf.
    + exists f'. rewrite Hfree. split; [done|]. by rewrite Hl', length_insert.
Qed.

Lemma sl_clear_rep sl l : sl_rep sl l -> exists sl', sl_clear size_node sl = Ok sl' /\ sl_rep sl' [].
Proof.
  intros (T & Hok & <- & _). unfold sl_clear. pose proof (node_fuel_enough _ _ Hok) as Hf.
  pose proof (all_tall _ _ Hok) as Hall. inversion Hall as [|? ? _ HallT]; subst.
  pose proof (next_tower _ _ (no_heap _ _ Hok) (no_locs _ _ Hok) Hall [] (head_tower sl) T eq_refl) as Hnext.
  destruct (free_all_spec (head_node sl) [] (S754_zero false) T (node_fuel sl) (links T no_next MAX_LEVEL))
    as (f' & Hfree & Hlen); [apply Hok|done| |done|].
  - revert Hnext. unfold get_forward. rewrite (no_heap _ _ Hok). simpl. rewrite lookup_insert_eq. simpl. congruence.
  - replace (heap sl) with (<[head_node sl := mkNode [] (S754_zero false) (links T no_next MAX_LEVEL)]> (link_all T no_next ∅))
      by (by rewrite (no_heap _ _ Hok)).
    rewrite Hfree. cbn [obind]. unfold deref. rewrite lookup_insert_eq. cbn [obind forward].
    assert (Hl : length f' = MAX_LEVEL) by (by rewrite Hlen; unfold links; rewrite length_map, length_seq).
    rewrite Hl, Nat.ltb_irrefl. eexists. split; [done|]. exists []. split; [|split; [done|split; [constructor|done]]].
    rewrite drop_ge by lia. rewrite insert_insert_eq, app_nil_r. split; simpl; auto; try done.
    + apply NoDup_singleton.
    + unfold MAX_LEVEL. lia.
    + constructor.
Qed.
End spec.
