(* ===== verification/Value.v ===== *)
(** * Values and memory accounting (src/storage/value.rs, src/storage/memory.rs)

    The values of the store with their metadata, and the memory manager.
    Instants are nanoseconds of the monotonic clock; the sizes of Rust's
    structures are an interface ([Layout]).  A sorted set is any
    implementation of SortedSet.v, a set a [gset] and a hash a [gmap]. *)

From S2P Require Import Prelude Text StreamId Stream SortedSet.

Open Scope Z_scope.

(** [size_of] of the Rust types the accounting mentions. *)
Class Layout := {
  size_vec : Z;
  size_deque : Z;
  size_hash_set : Z;
  size_hash_map : Z;
  size_entry : Z;
  size_stream_data : Z;
  size_stream : Z;
  size_node : Z;
  size_value : Z;
  size_stored : Z;
  size_skip_list : Z;
}.

Inductive Value {ZS : Type} :=
  | VString (b : bytes)
  | VList (l : list bytes)
  | VSet (s : gset bytes)
  | VHash (h : gmap bytes bytes)
  | VSortedSet (z : ZS)
  | VStream (s : Stream).
Arguments Value : clear implicits.

Inductive ValueType := TString | TList | TSet | THash | TSortedSet | TStream.

Inductive StringEncoding := Raw | Int | Embstr.

Record ValueMetadata := mkMeta {
  expires_at : option Z;
  created_at : Z;
  last_accessed : Z;
  encoding : StringEncoding;
}.

Record StoredValue (ZS : Type) := mkStored {
  value : Value ZS;
  metadata : ValueMetadata;
}.
Arguments mkStored {ZS} value metadata.
Arguments value {ZS}.
Arguments metadata {ZS}.

Definition meta_new (now : Z) : ValueMetadata := mkMeta None now now Raw.

Definition meta_with_expiration (now expires_in : Z) : outcome ValueMetadata :=
  let? t := instant_add now expires_in in Ok (mkMeta (Some t) now now Raw).

(** [is_expired] reads the clock only when there is an expiry. *)
Definition meta_expired (now : Z) (m : ValueMetadata) : bool :=
  match expires_at m with Some t => t <? now | None => false end.

Definition set_expiration (now expires_in : Z) (m : ValueMetadata) : outcome ValueMetadata :=
  let? t := instant_add now expires_in in Ok (mkMeta (Some t) (created_at m) (last_accessed m) (encoding m)).

Definition clear_expiration (m : ValueMetadata) : ValueMetadata :=
  mkMeta None (created_at m) (last_accessed m) (encoding m).

Section value.
Context {ZS : Type} `{SortedSet ZS} `{Layout}.

Definition value_type (v : Value ZS) : ValueType :=
  match v with
  | VString _ => TString
  | VList _ => TList
  | VSet _ => TSet
  | VHash _ => THash
  | VSortedSet _ => TSortedSet
  | VStream _ => TStream
  end.

Definition value_integer (n : Z) : Value ZS := VString (show_i64 n).

Definition as_integer (v : Value ZS) : option Z :=
  match v with
  | VString b => if utf8_valid b then parse_i64 b else None
  | _ => None
  end.

Definition empty_sorted_set : Value ZS := VSortedSet zs_new.

Definition empty_stream : Value ZS := VStream (stream_new size_stream_data size_stream).

Definition stored_new (now : Z) (v : Value ZS) : StoredValue ZS := mkStored v (meta_new now).

Definition stored_with_expiration (now : Z) (v : Value ZS) (expires_in : Z) : outcome (StoredValue ZS) :=
  let? m := meta_with_expiration now expires_in in Ok (mkStored v m).

Definition stored_expired (now : Z) (sv : StoredValue ZS) : bool := meta_expired now (metadata sv).

(** ** Sizes *)

(** [MemoryManager::calculate_size] *)
Definition calculate_size (b : bytes) : Z := Z.of_nat (length b) + size_vec.

Definition sum_sizes (l : list bytes) : Z := foldr (fun b acc => calculate_size b + acc) 0 l.

Definition calculate_value_size (key : bytes) (v : Value ZS) : Z :=
  let value_size :=
    match v with
    | VString b => calculate_size b
    | VList l => sum_sizes l + size_deque
    | VSet s => sum_sizes (elements s) + size_hash_set
    | VHash h => sum_sizes (map_to_list h).*1 + sum_sizes (map_to_list h).*2 + size_hash_map
    | VSortedSet z => zs_memory_usage z
    | VStream s => stream_memory_usage s
    end in
  u64_wrap (calculate_size key + value_size).

Definition calculate_member_size (member : bytes) : Z := calculate_size member + 8 + 32.
End value.

(** ** The memory manager *)

Inductive EvictionPolicy :=
  | NoEviction | AllKeysLru | VolatileLru | AllKeysRandom | VolatileRandom | VolatileTtl.

Record MemoryManager := mkMemory {
  used_memory : Z;
  max_memory : Z;
  policy : EvictionPolicy;
}.

Definition unlimited : MemoryManager := mkMemory 0 0 NoEviction.

(** The usage grows also when the answer is that the limit is passed. *)
Definition add_memory (mm : MemoryManager) (n : Z) : MemoryManager * bool :=
  let new_usage := Z.min u64_max (used_memory mm + n) in
  (mkMemory (u64_wrap (used_memory mm + n)) (max_memory mm) (policy mm),
   negb ((0 <? max_memory mm) && (max_memory mm <? new_usage))).

Definition remove_memory (mm : MemoryManager) (n : Z) : MemoryManager :=
  mkMemory (u64_wrap (used_memory mm - n)) (max_memory mm) (policy mm).

(** Sizes with which examples are run. *)
Definition example_layout : Layout := {|
  size_vec := 24; size_deque := 32; size_hash_set := 48; size_hash_map := 48;
  size_entry := 64; size_stream_data := 64; size_stream := 128; size_node := 56;
  size_value := 56; size_stored := 120; size_skip_list := 96;
|}.
