(* ===== verification/SortedSetImpl.v ===== *)
(** * The skip list as the engine's sorted set

    The instance of the interface of SortedSet.v, and the theorems on whole
    histories of a skip list. *)

From S2P Require Import Prelude Resp SortedSet Value SkipList SkipListProofs SkipListSpec.
From Stdlib Require Import Floats.SpecFloat.

Open Scope Z_scope.

#[export] Instance skip_list_set `{Layout} : SortedSet SkipList := {|
  zs_new := sl_new size_node;
  zs_insert := sl_insert size_node;
  zs_remove := sl_remove size_node;
  zs_get_score := sl_get_score;
  zs_get_rank := sl_get_rank;
  zs_range_by_rank := sl_range_by_rank;
  zs_range_by_score := sl_range_by_score;
  zs_len := sl_length;
  zs_memory_usage := sl_memory_usage;
|}.

Lemma sl_rep_items size_node sl l : sl_rep size_node sl l -> sorted_items l.
Proof. intros (T & Hok & <- & Hidx & _). split; [apply Hok|done|apply Hok]. Qed.

#[refine, export] Instance skip_list_spec `{Layout} : SortedSetSpec SkipList := {| zs_rep := sl_rep size_node |}.
Proof.
  - intros z l. apply sl_rep_items.
  - apply sl_new_rep.
  - intros z l lvl m v Hrep Hl Hv Hb. by apply sl_insert_rep.
  - intros z l m Hrep. by apply sl_remove_rep.
  - intros z m z'. simpl. unfold sl_remove. destruct (key_index z !! m); [|by intros [= ->]].
    destruct (remove_node_by_score _ _ _ _); by simpl.
  - intros z l m (T & _ & <- & _ & Hidx). apply Hidx.
  - intros z l m (T & Hok & <- & Hidx). by eapply sl_get_rank_spec.
  - intros z l lo hi (T & Hok & <- & Hidx) Hlo. by eapply sl_range_by_rank_spec.
  - intros z l lo hi (T & Hok & <- & Hidx). by eapply sl_range_by_score_spec.
  - intros z l (T & Hok & <- & _). simpl. by rewrite (no_length _ _ _ Hok), length_map.
Defined.

(** ** Histories *)

Inductive sl_op :=
  | SlInsert (draws : list bool) (m : bytes) (v : f64)
  | SlRemove (m : bytes)
  | SlClear.

Definition run_op (n : Z) (o : sl_op) (sl : SkipList) : outcome (SkipList * option f64) :=
  match o with
  | SlInsert draws m v => sl_insert n (random_level draws) sl m v
  | SlRemove m => sl_remove n sl m
  | SlClear => let? sl' := sl_clear n sl in Ok (sl', None)
  end.

Fixpoint run_ops (n : Z) (ops : list sl_op) (sl : SkipList) : outcome (SkipList * list (option f64)) :=
  match ops with
  | [] => Ok (sl, [])
  | o :: ops' =>
      let? r := run_op n o sl in
      let? rest := run_ops n ops' r.1 in
      Ok (rest.1, r.2 :: rest.2)
  end.

Definition model_op (o : sl_op) (l : list (bytes * f64)) : list (bytes * f64) * option f64 :=
  match o with
  | SlInsert _ m v => (insert_item (m, v) (without_member m l), lookup_score m l)
  | SlRemove m => (without_member m l, lookup_score m l)
  | SlClear => ([], None)
  end.

Fixpoint model_ops (ops : list sl_op) (l : list (bytes * f64)) : list (bytes * f64) * list (option f64) :=
  match ops with
  | [] => (l, [])
  | o :: ops' => let r := model_op o l in let rest := model_ops ops' r.1 in (rest.1, r.2 :: rest.2)
  end.

Definition number_op (o : sl_op) : Prop :=
  match o with SlInsert _ _ v => is_nan v = false | _ => True end.

#[global] Instance number_op_dec o : Decision (number_op o).
Proof. destruct o; simpl; apply _. Defined.

Lemma random_level_bound draws : (random_level draws < MAX_LEVEL)%nat.
Proof.
  unfold random_level. assert (Hl : (0 < MAX_LEVEL)%nat) by (unfold MAX_LEVEL; lia). revert Hl.
  generalize 0%nat as lvl. induction draws as [|[] draws IH]; intros lvl Hl; cbn [random_level_from]; try done.
  destruct (Nat.ltb_spec lvl (MAX_LEVEL - 1)); [apply IH; lia|done].
Qed.

Lemma length_insert_item x l : length (insert_item x l) = S (length l).
Proof.
  unfold insert_item. rewrite length_app. simpl. rewrite Nat.add_succ_r. f_equal.
  induction l as [|y l IH]; [done|]. rewrite !filter_cons. repeat case_decide; simpl; try tauto; lia.
Qed.

Lemma model_op_length o l : (length (model_op o l).1 <= S (length l))%nat.
Proof.
  destruct o as [draws m v|m|]; simpl; [|etrans; [apply length_filter|lia]|lia].
  rewrite length_insert_item. pose proof (length_filter (fun x : bytes * f64 => x.1 <> m) l). unfold without_member. lia.
Qed.

Lemma run_ops_rep n ops : forall sl l,
  sl_rep n sl l -> Forall number_op ops -> Z.of_nat (length l + length ops) <= u64_max ->
  exists sl', run_ops n ops sl = Ok (sl', (model_ops ops l).2) /\ sl_rep n sl' (model_ops ops l).1.
Proof.
  induction ops as [|o ops IH]; intros sl l Hrep Hops Hb; [by exists sl|]. simpl in Hb.
  apply Forall_cons in Hops as [Ho Hops].
  assert (Hstep : exists sl1, run_op n o sl = Ok (sl1, (model_op o l).2) /\ sl_rep n sl1 (model_op o l).1).
  { destruct o as [draws m v|m|]; simpl.
    - apply sl_insert_rep; [done|apply random_level_bound|done|lia].
    - by apply sl_remove_rep.
    - destruct (sl_clear_rep n sl l Hrep) as (sl1 & -> & Hrep1). by exists sl1. }
  destruct Hstep as (sl1 & Hrun & Hrep1). pose proof (model_op_length o l).
  destruct (IH sl1 _ Hrep1 Hops) as (sl2 & Hrun2 & Hrep2); [lia|].
  exists sl2. simpl. rewrite Hrun. cbn [obind fst snd]. rewrite Hrun2. done.
Qed.

(** C6. A skip list driven by any history of insertions (of numbers, with any
    outcome of the random draws), removals and clears never follows a bad
    pointer, answers as the abstract sorted set does, and afterwards every query
    is the one on the abstract items, which are strictly ordered by score and
    member, without a member twice. *)
Theorem skip_list_refines (n : Z) (ops : list sl_op)
    (Hops : Forall number_op ops) (Hbound : Z.of_nat (length ops) <= u64_max) :
  let l := (model_ops ops []).1 in
  exists sl, run_ops n ops (sl_new n) = Ok (sl, (model_ops ops []).2)
    /\ sorted_items l
    /\ sl_get_all_items sl = Ok l
    /\ sl_length sl = Z.of_nat (length l)
    /\ (forall m, sl_get_score sl m = lookup_score m l)
    /\ (forall m, sl_get_rank sl m = Ok (match lookup_score m l with
                                         | Some v => Some (length (filter (fun y => item_lt y (m, v)) l))
                                         | None => None
                                         end))
    /\ (forall r, 0 <= r -> sl_get_by_rank sl r = Ok (l !! Z.to_nat r))
    /\ (forall lo hi, 0 <= lo -> sl_range_by_rank sl lo hi = Ok (rank_slice lo hi l))
    /\ (forall lo hi, sl_range_by_score sl lo hi = Ok (filter (fun x => f_lt x.2 lo = false /\ f_le x.2 hi = true) l)).
Proof.
  intros l. destruct (run_ops_rep n ops (sl_new n) [] (sl_new_rep n) Hops Hbound) as (sl & Hrun & Hrep).
  fold l in Hrep. exists sl. pose proof (sl_rep_items _ _ _ Hrep) as Hs. destruct Hrep as (T & Hok & <- & Hidx).
  split_and!; auto.
  - by apply (sl_get_all_items_spec n).
  - by rewrite (no_length _ _ _ Hok), length_map.
  - apply Hidx.
  - intros. by apply (sl_get_rank_spec n).
  - intros. by apply (sl_get_by_rank_spec n).
  - intros. by apply (sl_range_by_rank_spec n).
  - intros. by apply (sl_range_by_score_spec n).
Qed.

(** A history with an update and a removal: the queries on what it leaves. *)
Lemma skip_list_refines_witness :
  let ops := [SlInsert [true] (B "a") (S754_finite false 2 0); SlInsert [] (B "b") (S754_finite false 1 0);
              SlInsert [true; true] (B "a") (S754_zero true); SlInsert [] (B "c") (S754_infinity false); SlRemove (B "b")] in
  Forall number_op ops
  /\ exists sl, run_ops 64 ops (sl_new 64) = Ok (sl, [None; None; Some (S754_finite false 2 0); None; Some (S754_finite false 1 0)])
     /\ sl_get_all_items sl = Ok [(B "a", S754_zero true); (B "c", S754_infinity false)].
Proof.
  intros ops. assert (Hops : Forall number_op ops) by (repeat constructor). split; [exact Hops|].
  assert (Hb : Z.of_nat (length ops) <= u64_max) by (vm_compute; discriminate).
  destruct (skip_list_refines 64 ops Hops Hb) as (sl & Hrun & _ & Hall & _). exists sl. split; [exact Hrun|exact Hall].
Defined.

(** A score that is not a number breaks the sorted set: once a member with a
    NaN score is removed, the index no longer knows it, but its node stays, is
    counted by the length and is returned by the queries, for ever. *)
Theorem nan_score_leaves_a_ghost (n : Z) (m : bytes) :
  exists sl, run_ops n [SlInsert [] m S754_nan; SlRemove m; SlRemove m] (sl_new n) = Ok (sl, [None; Some S754_nan; None])
    /\ sl_get_score sl m = None
    /\ sl_length sl = 1
    /\ sl_get_all_items sl = Ok [(m, S754_nan)]
    /\ sl_range_by_rank sl 0 0 = Ok [(m, S754_nan)].
Proof.
  set (h := <[1%positive := mkNode [] (S754_zero false) (Some 2%positive :: replicate 31 None)]>
              ({[2%positive := mkNode m S754_nan [None]]} : node_heap)).
  set (sl1 := mkSkipList h 1 0 1 (u64_wrap (base_memory n + calculate_node_size n 1))).
  assert (Hrem : forall i, remove_node_by_score n (sl1 i) m S754_nan = Ok (sl1 i)).
  { intros i. unfold remove_node_by_score. change (node_fuel (sl1 i)) with 3%nat. cbn [sl1 heap level head_node descend walk].
    assert (get_forward h 1 0 = Ok (Some 2%positive)) as Hg by done. rewrite Hg. cbn [obind].
    assert (deref h 2 = Ok (mkNode m S754_nan [None])) as Hr by done. rewrite Hr. cbn [obind n_key n_value].
    change (compare_nodes S754_nan m S754_nan m) with (bytes_cmp m m). rewrite bytes_cmp_refl. cbn [obind fst].
    rewrite Hg. cbn [obind]. rewrite Hr. cbn [obind n_key n_value]. by rewrite andb_false_r. }
  exists (sl1 ∅). split_and!; try reflexivity.
  cbn [run_ops run_op]. assert (Hins : sl_insert n (random_level []) (sl_new n) m S754_nan = Ok (sl1 {[m := S754_nan]}, None)) by done.
  rewrite Hins. cbn [obind fst snd]. unfold sl_remove.
  change (key_index (sl1 {[m := S754_nan]})) with ({[m := S754_nan]} : gmap bytes f64). rewrite lookup_singleton_eq.
  change (with_index (sl1 {[m := S754_nan]}) (delete m {[m := S754_nan]})) with (sl1 (delete m {[m := S754_nan]})).
  rewrite Hrem. cbn [obind fst snd]. rewrite delete_singleton_eq. done.
Qed.
