(* ===== verification/Keyspace.v ===== *)
(** * The sharded keyspace (src/storage/engine.rs)

    Databases of sixteen shards; a shard holds the values of its keys, an index
    of the keys that expire and the counters behind WATCH.  An operation on a
    key locks the key's shard for its whole body, so it is a function on the
    memory manager and that shard ([shard_op]), and [with_shard] runs it on the
    engine.  [now] parameters are the readings of the clock, one for each
    reading of the code.

    The operations of the keyspace itself and of WATCH are here; those of each
    type of value are in StringOps.v, ListOps.v, SetOps.v, HashOps.v, ZSetOps.v
    and StreamOps.v. *)

From S2P Require Import Prelude Text StreamId Stream SortedSet Value PubSub Glob.

Open Scope Z_scope.

Record ShardWatchTracker := mkTracker {
  active_watchers : Z;
  key_counters : gmap bytes Z;
  global_counter : Z;
}.

Definition tracker_new : ShardWatchTracker := mkTracker 0 ∅ 0.

Definition get_key_counter (t : ShardWatchTracker) (key : bytes) : Z := default 0 (key_counters t !! key).

Definition tracker_register (t : ShardWatchTracker) (key : bytes) : ShardWatchTracker * Z :=
  (mkTracker (u64_wrap (active_watchers t + 1)) (key_counters t) (global_counter t), get_key_counter t key).

Definition tracker_unregister (t : ShardWatchTracker) : ShardWatchTracker :=
  mkTracker (u64_wrap (active_watchers t - 1)) (key_counters t) (global_counter t).

Definition mark_key_modified (t : ShardWatchTracker) (key : bytes) : ShardWatchTracker :=
  if active_watchers t =? 0 then t
  else
    let new_counter := u64_wrap (global_counter t + 1) in
    mkTracker (active_watchers t) (<[key := new_counter]> (key_counters t)) new_counter.

Section keyspace.
Context {ZS : Type} `{SortedSet ZS} `{Layout}.

Record DatabaseShard := mkShard {
  data : gmap bytes (StoredValue ZS);
  expiring_keys : gmap bytes Z;
  watch_tracker : ShardWatchTracker;
}.

Definition shard_new : DatabaseShard := mkShard ∅ ∅ tracker_new.

(** The steps an operation takes on a locked shard. *)
Definition mark_modified (key : bytes) (sh : DatabaseShard) : DatabaseShard :=
  mkShard (data sh) (expiring_keys sh) (mark_key_modified (watch_tracker sh) key).

Definition data_insert (key : bytes) (sv : StoredValue ZS) (sh : DatabaseShard) : DatabaseShard :=
  mkShard (<[key := sv]> (data sh)) (expiring_keys sh) (watch_tracker sh).

Definition data_remove (key : bytes) (sh : DatabaseShard) : DatabaseShard :=
  mkShard (delete key (data sh)) (expiring_keys sh) (watch_tracker sh).

Definition expiring_insert (key : bytes) (t : Z) (sh : DatabaseShard) : DatabaseShard :=
  mkShard (data sh) (<[key := t]> (expiring_keys sh)) (watch_tracker sh).

Definition expiring_remove (key : bytes) (sh : DatabaseShard) : DatabaseShard :=
  mkShard (data sh) (delete key (expiring_keys sh)) (watch_tracker sh).

(** [stored_value.value = v] through [get_mut] *)
Definition store_back (key : bytes) (sv : StoredValue ZS) (v : Value ZS) (sh : DatabaseShard) : DatabaseShard :=
  data_insert key (mkStored v (metadata sv)) sh.

Definition get_modification_counter_shard (sh : DatabaseShard) : Z := global_counter (watch_tracker sh).

(** ** The engine *)

Definition SHARDS_PER_DATABASE : nat := 16.

Abbreviation Database := (list DatabaseShard).

Record StorageEngine := mkEngine {
  databases : list Database;
  memory_manager : MemoryManager;
}.

Definition database_new : Database := replicate SHARDS_PER_DATABASE shard_new.

Definition with_config (num_databases : nat) (mm : MemoryManager) : StorageEngine :=
  mkEngine (replicate num_databases database_new) mm.

Definition engine_new : StorageEngine := with_config 16 unlimited.

(** FNV-1a *)
Definition FNV_OFFSET : Z := 0xcbf29ce484222325.
Definition FNV_PRIME : Z := 0x100000001b3.

Definition fnv1a (key : bytes) : Z :=
  foldl (fun hash b => u64_wrap (Z.lxor hash (u8 b) * FNV_PRIME)) FNV_OFFSET key.

Definition get_shard_index (key : bytes) : nat := Z.to_nat (fnv1a key mod Z.of_nat SHARDS_PER_DATABASE).

Definition shard_op (A : Type) : Type := MemoryManager -> DatabaseShard -> MemoryManager * DatabaseShard * outcome A.

(** [get_shard] and the lock, then the body. *)
Definition with_shard {A} (e : StorageEngine) (db : nat) (key : bytes) (f : shard_op A) : StorageEngine * outcome A :=
  match databases e !! db with
  | None => (e, Err (EStorage InvalidDatabase))
  | Some d =>
      match d !! get_shard_index key with
      | None => (e, Panic)
      | Some sh =>
          let '(mm', sh', r) := f (memory_manager e) sh in
          (mkEngine (<[db := <[get_shard_index key := sh']> d]> (databases e)) mm', r)
      end
  end.

(** ** Writing a value *)

Definition insert_new_value {A} (key : bytes) (now : Z) (v : Value ZS) (r : A) : shard_op A := fun mm sh =>
  (mm, mark_modified key (data_insert key (stored_new now v) sh), Ok r).

(** The same where the operation accounts for the memory. *)
Definition insert_accounted {A} (key : bytes) (now size : Z) (v : Value ZS) (r : A) : shard_op A := fun mm sh =>
  let '(mm', fits) := add_memory mm size in
  if fits then insert_new_value key now v r mm' sh
  else (mm', sh, Err (EStorage OutOfMemory)).

Definition set_value_shard (now : Z) (key : bytes) (v : Value ZS) (expires_in : option Z) : shard_op unit := fun mm sh =>
  let '(mm', fits) := add_memory mm (calculate_value_size key v) in
  if fits then
    match (match expires_in with
           | Some d => stored_with_expiration now v d
           | None => Ok (stored_new now v)
           end) with
    | Ok sv =>
        let sh1 := match expires_at (metadata sv) with Some t => expiring_insert key t sh | None => sh end in
        (mm', data_insert key sv (mark_modified key sh1), Ok tt)
    | Err err => (mm', sh, Err err)
    | Panic => (mm', sh, Panic)
    end
  else (mm', sh, Err (EStorage OutOfMemory)).

Definition set_value (now : Z) (e : StorageEngine) (db : nat) (key : bytes) (v : Value ZS) (expires_in : option Z)
    : StorageEngine * outcome unit :=
  with_shard e db key (set_value_shard now key v expires_in).

Definition set_string (now : Z) (e : StorageEngine) (db : nat) (key v : bytes) : StorageEngine * outcome unit :=
  set_value now e db key (VString v) None.

Definition set_string_ex (now : Z) (e : StorageEngine) (db : nat) (key v : bytes) (expires_in : Z)
    : StorageEngine * outcome unit :=
  set_value now e db key (VString v) (Some expires_in).

(** A key that is present and not expired, for the NX forms. *)
Definition live (now : Z) (key : bytes) (sh : DatabaseShard) : bool :=
  match data sh !! key with Some sv => negb (stored_expired now sv) | None => false end.

Definition set_string_nx (now : Z) (e : StorageEngine) (db : nat) (key v : bytes) : StorageEngine * outcome bool :=
  with_shard e db key (fun mm sh =>
    if live now key sh then (mm, sh, Ok false)
    else insert_accounted key now (calculate_value_size key (VString v)) (VString v) true mm sh).

(** The clock is read for the test, for the metadata and for the index. *)
Definition set_string_nx_ex (now now_meta now_index : Z) (e : StorageEngine) (db : nat) (key v : bytes) (expires_in : Z)
    : StorageEngine * outcome bool :=
  with_shard e db key (fun mm sh =>
    if live now key sh then (mm, sh, Ok false)
    else
      let '(mm', fits) := add_memory mm (calculate_value_size key (VString v)) in
      if fits then
        match stored_with_expiration now_meta (VString v) expires_in, instant_add now_index expires_in with
        | Ok sv, Ok t => (mm', mark_modified key (data_insert key sv (expiring_insert key t sh)), Ok true)
        | _, _ => (mm', sh, Panic)
        end
      else (mm', sh, Err (EStorage OutOfMemory))).

(** [get_mut(key)], then a [match] on the type of the value: [some] on a value
    of the type, an error on another one, [none] without the key. *)
Definition typed_op {X A} (view : Value ZS -> option X) (key : bytes) (some : StoredValue ZS -> X -> shard_op A)
    (none : shard_op A) : shard_op A := fun mm sh =>
  match data sh !! key with
  | Some sv =>
      match view (value sv) with
      | Some x => some sv x mm sh
      | None => (mm, sh, Err (EStorage WrongType))
      end
  | None => none mm sh
  end.

Definition as_string (v : Value ZS) : option bytes := match v with VString b => Some b | _ => None end.
Definition as_list (v : Value ZS) : option (list bytes) := match v with VList l => Some l | _ => None end.
Definition as_set (v : Value ZS) : option (gset bytes) := match v with VSet s => Some s | _ => None end.
Definition as_hash (v : Value ZS) : option (gmap bytes bytes) := match v with VHash h => Some h | _ => None end.
Definition as_sorted_set (v : Value ZS) : option ZS := match v with VSortedSet z => Some z | _ => None end.
Definition as_stream (v : Value ZS) : option Stream := match v with VStream s => Some s | _ => None end.

(** An answer without a change. *)
Definition answer {A} (r : A) : shard_op A := fun mm sh => (mm, sh, Ok r).
Definition refuse {A} (err : ferrous_error) : shard_op A := fun mm sh => (mm, sh, Err err).

(** ** Reading *)

Inductive GetResult :=
  | Found (v : Value ZS)
  | NotFound
  | GetWrongType
  | Expired.

Definition engine_get (now : Z) (e : StorageEngine) (db : nat) (key : bytes) : StorageEngine * outcome GetResult :=
  with_shard e db key (fun mm sh =>
    match data sh !! key with
    | Some sv =>
        if stored_expired now sv then
          (mm, expiring_remove key (data_remove key (mark_modified key sh)), Ok Expired)
        else (mm, sh, Ok (Found (value sv)))
    | None => (mm, sh, Ok NotFound)
    end).

Definition get_string (now : Z) (e : StorageEngine) (db : nat) (key : bytes) : StorageEngine * outcome (option bytes) :=
  let '(e', r) := engine_get now e db key in
  (e', let? g := r in
       match g with
       | Found (VString b) => Ok (Some b)
       | Found _ => Err (EStorage WrongType)
       | NotFound | Expired => Ok None
       | GetWrongType => Err (EStorage WrongType)
       end).

Definition key_exists (now : Z) (e : StorageEngine) (db : nat) (key : bytes) : StorageEngine * outcome bool :=
  with_shard e db key (fun mm sh => (mm, sh, Ok (live now key sh))).

Definition type_name (v : Value ZS) : bytes :=
  match v with
  | VString _ => B "string"
  | VList _ => B "list"
  | VSet _ => B "set"
  | VHash _ => B "hash"
  | VSortedSet _ => B "zset"
  | VStream _ => B "stream"
  end.

Definition key_type (e : StorageEngine) (db : nat) (key : bytes) : StorageEngine * outcome bytes :=
  with_shard e db key (fun mm sh =>
    (mm, sh, Ok (match data sh !! key with Some sv => type_name (value sv) | None => B "none" end))).

(** ** Removing and expiring *)

Definition delete_key (e : StorageEngine) (db : nat) (key : bytes) : StorageEngine * outcome bool :=
  with_shard e db key (fun mm sh =>
    match data sh !! key with
    | Some sv =>
        (remove_memory mm (calculate_value_size key (value sv)),
         expiring_remove key (mark_modified key (data_remove key sh)), Ok true)
    | None => (mm, sh, Ok false)
    end).

(** [now_meta] and [now_index]: the metadata and the index read the clock separately. *)
Definition expire (now_meta now_index : Z) (e : StorageEngine) (db : nat) (key : bytes) (expires_in : Z)
    : StorageEngine * outcome bool :=
  with_shard e db key (fun mm sh =>
    match data sh !! key with
    | Some sv =>
        match set_expiration now_meta expires_in (metadata sv) with
        | Ok m =>
            let sh1 := data_insert key (mkStored (value sv) m) sh in
            match instant_add now_index expires_in with
            | Ok t => (mm, expiring_insert key t sh1, Ok true)
            | _ => (mm, sh1, Panic)
            end
        | _ => (mm, sh, Panic)
        end
    | None => (mm, sh, Ok false)
    end).

Definition pexpire (now_meta now_index : Z) (e : StorageEngine) (db : nat) (key : bytes) (millis : Z)
    : StorageEngine * outcome bool :=
  expire now_meta now_index e db key (millis * 1000000).

Definition ttl (now : Z) (e : StorageEngine) (db : nat) (key : bytes) : StorageEngine * outcome (option Z) :=
  with_shard e db key (fun mm sh =>
    (mm, sh, Ok (match data sh !! key with
                 | Some sv =>
                     match expires_at (metadata sv) with
                     | Some t => Some (if now <? t then t - now else 0)
                     | None => None
                     end
                 | None => None
                 end))).

(** [ttl], and [exists] at a later reading of the clock. *)
Definition pttl (now now_exists : Z) (e : StorageEngine) (db : nat) (key : bytes) : StorageEngine * outcome Z :=
  match ttl now e db key with
  | (e1, Ok (Some d)) => (e1, Ok (i64_wrap (d / 1000000)))
  | (e1, Ok None) =>
      let '(e2, r) := key_exists now_exists e1 db key in
      (e2, let? b := r in Ok (if b then -1 else -2))
  | (e1, Err err) => (e1, Err err)
  | (e1, Panic) => (e1, Panic)
  end.

Definition persist (e : StorageEngine) (db : nat) (key : bytes) : StorageEngine * outcome bool :=
  with_shard e db key (fun mm sh =>
    match data sh !! key with
    | Some sv =>
        match expires_at (metadata sv) with
        | Some _ =>
            (mm, expiring_remove key (data_insert key (mkStored (value sv) (clear_expiration (metadata sv))) sh), Ok true)
        | None => (mm, sh, Ok false)
        end
    | None => (mm, sh, Ok false)
    end).

(** Two keys of one shard, or of two shards locked together. *)
Definition rename (e : StorageEngine) (db : nat) (old_key new_key : bytes) : StorageEngine * outcome unit :=
  match databases e !! db with
  | None => (e, Err (EStorage InvalidDatabase))
  | Some d =>
      let i := get_shard_index old_key in
      let j := get_shard_index new_key in
      let put (d' : Database) := mkEngine (<[db := d']> (databases e)) (memory_manager e) in
      match d !! i, d !! j with
      | Some a, Some b =>
          match data a !! old_key with
          | Some sv =>
              (put (if decide (i = j)
                    then <[i := mark_modified new_key (data_insert new_key sv (data_remove old_key a))]> d
                    else <[j := mark_modified new_key (data_insert new_key sv b)]> (<[i := data_remove old_key a]> d)),
               Ok tt)
          | None => (e, Err (ECommand CNoSuchKey))
          end
      | _, _ => (e, Panic)
      end
  end.

(** The sum is a [usize]. *)
Definition flush_db (e : StorageEngine) (db : nat) : StorageEngine * outcome unit :=
  match databases e !! db with
  | None => (e, Err (EStorage InvalidDatabase))
  | Some d =>
      let total := foldr (fun sh acc =>
        foldr (fun kv acc => calculate_value_size kv.1 (value kv.2) + acc) acc (map_to_list (data sh))) 0 d in
      (mkEngine (<[db := map (fun sh => mkShard ∅ ∅ (watch_tracker sh)) d]> (databases e))
         (remove_memory (memory_manager e) total), Ok tt)
  end.

(** ** WATCH *)

Definition register_watch (e : StorageEngine) (db : nat) (key : bytes) : StorageEngine * outcome Z :=
  with_shard e db key (fun mm sh =>
    let '(t, baseline) := tracker_register (watch_tracker sh) key in
    (mm, mkShard (data sh) (expiring_keys sh) t, Ok baseline)).

Definition unregister_watch (e : StorageEngine) (db : nat) (key : bytes) : StorageEngine * outcome unit :=
  with_shard e db key (fun mm sh =>
    (mm, mkShard (data sh) (expiring_keys sh) (tracker_unregister (watch_tracker sh)), Ok tt)).

Definition get_modification_counter (e : StorageEngine) (db : nat) (key : bytes) : StorageEngine * outcome Z :=
  with_shard e db key (fun mm sh => (mm, sh, Ok (get_modification_counter_shard sh))).

Definition was_modified_since (now : Z) (e : StorageEngine) (db : nat) (key : bytes) (baseline : Z)
    : StorageEngine * outcome bool :=
  with_shard e db key (fun mm sh =>
    (mm, sh, Ok (if baseline <? get_key_counter (watch_tracker sh) key then true
                 else match data sh !! key with
                      | Some sv => stored_expired now sv
                      | None => false
                      end))).

(** ** The expiration thread *)

(** Under the read lock: the keys the index says have expired. *)
Definition cleanup_collect `{HashIter} (now : Z) (sh : DatabaseShard) : list bytes :=
  (filter (fun kt => kt.2 <= now) (map_iter (expiring_keys sh))).*1.

(** Under the write lock, taken again later. *)
Definition cleanup_one (st : MemoryManager * DatabaseShard) (key : bytes) : MemoryManager * DatabaseShard :=
  let '(mm, sh) := st in
  match data sh !! key with
  | Some sv =>
      (remove_memory mm (calculate_value_size key (value sv)),
       mark_modified key (expiring_remove key (data_remove key sh)))
  | None => (mm, sh)
  end.

Definition cleanup_remove (expired : list bytes) (mm : MemoryManager) (sh : DatabaseShard)
    : MemoryManager * DatabaseShard :=
  foldl cleanup_one (mm, sh) expired.

Fixpoint cleanup_shards `{HashIter} (now : Z) (mm : MemoryManager) (d : Database) : MemoryManager * Database :=
  match d with
  | [] => (mm, [])
  | sh :: d' =>
      let '(mm1, sh') := cleanup_remove (cleanup_collect now sh) mm sh in
      let '(mm2, d'') := cleanup_shards now mm1 d' in
      (mm2, sh' :: d'')
  end.

(** One turn of the loop when no other thread runs between the two locks;
    [nows] are the readings of the clock, one for each database. *)
Fixpoint cleanup_databases `{HashIter} (nows : list Z) (mm : MemoryManager) (dbs : list Database)
    : MemoryManager * list Database :=
  match dbs, nows with
  | d :: dbs', now :: nows' =>
      let '(mm1, d') := cleanup_shards now mm d in
      let '(mm2, dbs'') := cleanup_databases nows' mm1 dbs' in
      (mm2, d' :: dbs'')
  | _, _ => (mm, dbs)
  end.

Definition cleanup_pass `{HashIter} (nows : list Z) (e : StorageEngine) : StorageEngine :=
  let '(mm, dbs) := cleanup_databases nows (memory_manager e) (databases e) in mkEngine dbs mm.

(** ** All the keys *)

Definition get_all_keys `{HashIter} (e : StorageEngine) (db : nat) : outcome (list bytes) :=
  match databases e !! db with
  | None => Err (EStorage InvalidDatabase)
  | Some d => Ok (concat (map (fun sh => (map_iter (data sh)).*1) d))
  end.

Definition keys_matching `{HashIter} (e : StorageEngine) (db : nat) (pattern : bytes) : outcome (list bytes) :=
  match databases e !! db with
  | None => Err (EStorage InvalidDatabase)
  | Some d =>
      Ok (concat (map (fun sh => filter (fun k => key_pattern_matches (utf8_lossy pattern) (utf8_lossy k))
                                   (map_iter (data sh)).*1) d))
  end.
End keyspace.
Arguments DatabaseShard : clear implicits.
Arguments shard_op : clear implicits.
Arguments StorageEngine : clear implicits.
