(* ===== verification/StringOps.v ===== *)
(** * Strings (the string operations of src/storage/engine.rs) *)

From S2P Require Import Prelude Text SortedSet Value Keyspace.

Open Scope Z_scope.

Section strings.
Context {ZS : Type} `{SortedSet ZS} `{Layout}.

Abbreviation engine := (StorageEngine ZS).

Definition err_overflow : bytes := B "increment or decrement would overflow".

(** A value that is not a string is not an integer either. *)
Definition incr_by (now : Z) (e : engine) (db : nat) (key : bytes) (increment : Z) : engine * outcome Z :=
  with_shard e db key (fun mm sh =>
    match data sh !! key with
    | Some sv =>
        match as_integer (value sv) with
        | Some current =>
            if decide (in_i64 (current + increment)) then
              let new_val := current + increment in
              (mm, mark_modified key (store_back key sv (value_integer new_val) sh), Ok new_val)
            else (mm, sh, Err (ECommand (CGeneric err_overflow)))
        | None => (mm, sh, Err (ECommand CNotInteger))
        end
    | None =>
        insert_accounted key now (calculate_value_size (ZS:=ZS) key (value_integer increment)) (value_integer increment)
          increment mm sh
    end).

Definition incr (now : Z) (e : engine) (db : nat) (key : bytes) : engine * outcome Z := incr_by now e db key 1.

Definition append (now : Z) (e : engine) (db : nat) (key v : bytes) : engine * outcome Z :=
  with_shard e db key (typed_op as_string key
    (fun sv b mm sh =>
      let b' := b ++ v in
      (mm, mark_modified key (store_back key sv (VString b') sh), Ok (Z.of_nat (length b'))))
    (insert_new_value key now (VString v) (Z.of_nat (length v)))).

Definition strlen (e : engine) (db : nat) (key : bytes) : engine * outcome Z :=
  with_shard e db key (typed_op as_string key (fun _ b => answer (Z.of_nat (length b))) (answer 0)).

(** [bytes[start..=end]] *)
Definition slice_inclusive (b : bytes) (start last : Z) : outcome bytes :=
  if (last =? u64_max) || (Z.of_nat (length b) <? last + 1) then Panic
  else Ok (take (Z.to_nat (last + 1 - start)) (drop (Z.to_nat start) b)).

(** [start] and [end] are [isize]; the [as usize] conversions wrap around. *)
Definition getrange_body (b : bytes) (start end_ : Z) : outcome bytes :=
  let len := Z.of_nat (length b) in
  let start := if start <? 0 then Z.max 0 (len + start) else start in
  let last := if end_ <? 0 then u64_wrap (Z.max (-1) (len + end_)) else Z.min end_ (u64_wrap (len - 1)) in
  if (last <? start) || (len <=? start) then Ok []
  else slice_inclusive b start last.

Definition getrange (e : engine) (db : nat) (key : bytes) (start end_ : Z) : engine * outcome bytes :=
  with_shard e db key (typed_op as_string key (fun _ b mm sh => (mm, sh, getrange_body b start end_)) (answer [])).

(** A vector of more than [isize::MAX] bytes panics, and so does a slice out of range. *)
Definition setrange_body (b : bytes) (offset : Z) (v : bytes) : outcome bytes :=
  let required_len := u64_wrap (offset + Z.of_nat (length v)) in
  if (i64_max <? required_len) || (required_len <? offset) then Panic
  else
    let b1 := b ++ replicate (Z.to_nat (required_len - Z.of_nat (length b))) Byte.x00 in
    Ok (take (Z.to_nat offset) b1 ++ v ++ drop (Z.to_nat required_len) b1).

Definition setrange (now : Z) (e : engine) (db : nat) (key : bytes) (offset : Z) (v : bytes) : engine * outcome Z :=
  with_shard e db key (typed_op as_string key
    (fun sv b mm sh =>
      match setrange_body b offset v with
      | Ok b' => (mm, mark_modified key (store_back key sv (VString b') sh), Ok (Z.of_nat (length b')))
      | _ => (mm, sh, Panic)
      end)
    (fun mm sh =>
      match setrange_body [] offset v with
      | Ok b' => insert_new_value key now (VString b') (Z.of_nat (length b')) mm sh
      | _ => (mm, sh, Panic)
      end)).
End strings.
