(* ===== verification/ListOps.v ===== *)
(** * Lists (the list operations of src/storage/engine.rs)

    A [VecDeque] is the list of its elements; indices are [isize] values. *)

From S2P Require Import Prelude SortedSet Value Keyspace Blocking.

Open Scope Z_scope.

Section lists.
Context {ZS : Type} `{SortedSet ZS} `{Layout}.

Abbreviation engine := (StorageEngine ZS).

Definition push_front_all (l elements : list bytes) : list bytes := foldl (fun l x => x :: l) l elements.
Definition push_back_all (l elements : list bytes) : list bytes := foldl (fun l x => l ++ [x]) l elements.

Definition push (add : list bytes -> list bytes -> list bytes) (now : Z) (e : engine) (db : nat) (key : bytes)
    (elements : list bytes) : engine * outcome Z :=
  with_shard e db key (typed_op as_list key
    (fun sv l mm sh =>
      let l' := add l elements in
      (mm, mark_modified key (store_back key sv (VList l') sh), Ok (Z.of_nat (length l'))))
    (let l' := add [] elements in insert_new_value key now (VList l') (Z.of_nat (length l')))).

Definition lpush := push push_front_all.
Definition rpush := push push_back_all.

Definition remove_if_empty (key : bytes) (l : list bytes) (sh : DatabaseShard ZS) : DatabaseShard ZS :=
  match l with [] => data_remove key sh | _ => sh end.

(** [pop_front] and [pop_back] *)
Definition pop_front (l : list bytes) : option bytes * list bytes :=
  match l with [] => (None, []) | x :: l' => (Some x, l') end.
Definition pop_back (l : list bytes) : option bytes * list bytes :=
  match last l with None => (None, []) | Some x => (Some x, take (length l - 1) l) end.

Definition pop (take_one : list bytes -> option bytes * list bytes) (e : engine) (db : nat) (key : bytes)
    : engine * outcome (option bytes) :=
  with_shard e db key (typed_op as_list key
    (fun sv l mm sh =>
      let '(element, l') := take_one l in
      let sh1 := store_back key sv (VList l') sh in
      let sh2 := match element with Some _ => mark_modified key sh1 | None => sh1 end in
      (mm, remove_if_empty key l' sh2, Ok element))
    (answer None)).

Definition lpop := pop pop_front.
Definition rpop := pop pop_back.

Definition llen (e : engine) (db : nat) (key : bytes) : engine * outcome Z :=
  with_shard e db key (typed_op as_list key (fun _ l => answer (Z.of_nat (length l))) (answer 0)).

(** A negative index counts from the end, from 0 when it is before the start. *)
Definition clamp_index (len i : Z) : Z := if i <? 0 then Z.max 0 (len + i) else i.

Fixpoint range_loop (start stop i : Z) (l : list bytes) : list bytes :=
  match l with
  | [] => []
  | x :: l' =>
      let rest := if stop <? i then [] else range_loop start stop (i + 1) l' in
      if (start <=? i) && (i <=? stop) then x :: rest else rest
  end.

Definition lrange (e : engine) (db : nat) (key : bytes) (start stop : Z) : engine * outcome (list bytes) :=
  with_shard e db key (typed_op as_list key
    (fun _ l =>
      let len := Z.of_nat (length l) in
      answer (range_loop (clamp_index len start) (clamp_index len stop) 0 l))
    (answer [])).

(** The position of an index, when it is one of the list. *)
Definition resolve_index (len index : Z) : option nat :=
  let idx := if index <? 0 then len + index else index in
  if (0 <=? idx) && (idx <? len) then Some (Z.to_nat idx) else None.

Definition lindex (e : engine) (db : nat) (key : bytes) (index : Z) : engine * outcome (option bytes) :=
  with_shard e db key (typed_op as_list key
    (fun _ l => answer (match resolve_index (Z.of_nat (length l)) index with Some i => l !! i | None => None end))
    (answer None)).

Definition lset (e : engine) (db : nat) (key : bytes) (index : Z) (v : bytes) : engine * outcome unit :=
  with_shard e db key (typed_op as_list key
    (fun sv l mm sh =>
      match resolve_index (Z.of_nat (length l)) index with
      | Some i => (mm, mark_modified key (store_back key sv (VList (<[i := v]> l)) sh), Ok tt)
      | None => (mm, sh, Err (ECommand CIndexOutOfRange))
      end)
    (refuse (ECommand CNoSuchKey))).

Fixpoint trim_loop (start stop i : Z) (l : list bytes) : list bytes :=
  match l with
  | [] => []
  | x :: l' =>
      let rest := trim_loop start stop (i + 1) l' in
      if (start <=? i) && (i <=? stop) then x :: rest else rest
  end.

Definition ltrim (e : engine) (db : nat) (key : bytes) (start stop : Z) : engine * outcome unit :=
  with_shard e db key (typed_op as_list key
    (fun sv l mm sh =>
      let len := Z.of_nat (length l) in
      let l' := trim_loop (clamp_index len start) (clamp_index len stop) 0 l in
      (mm, remove_if_empty key l' (mark_modified key (store_back key sv (VList l') sh)), Ok tt))
    (answer tt)).

(** The loops of [lrem]: the elements that stay and how many went. *)
Fixpoint rem_loop (element : bytes) (to_remove : Z) (l : list bytes) : list bytes * Z :=
  match l with
  | [] => ([], 0)
  | x :: l' =>
      if bool_decide (x = element) && (0 <? to_remove)
      then let '(kept, n) := rem_loop element (to_remove - 1) l' in (kept, n + 1)
      else let '(kept, n) := rem_loop element to_remove l' in (x :: kept, n)
  end.

Definition rem_elements (count : Z) (element : bytes) (l : list bytes) : list bytes * Z :=
  if count =? 0 then (filter (fun x => x <> element) l, Z.of_nat (length (filter (fun x => x = element) l)))
  else if 0 <? count then rem_loop element count l
  else let '(kept, n) := rem_loop element (u64_wrap (- count)) (rev l) in (rev kept, n).

Definition lrem (e : engine) (db : nat) (key : bytes) (count : Z) (element : bytes) : engine * outcome Z :=
  with_shard e db key (typed_op as_list key
    (fun sv l mm sh =>
      let '(l', removed) := rem_elements count element l in
      let sh1 := store_back key sv (VList l') sh in
      let sh2 := if 0 <? removed then mark_modified key sh1 else sh1 in
      (mm, remove_if_empty key l' sh2, Ok removed))
    (answer 0)).

(** The engine serves the blocking operations. *)
#[export] Instance engine_list_store : ListStore engine := {| store_lpop := lpop; store_rpop := rpop |}.
End lists.
