(* ===== verification/SetOps.v ===== *)
(** * Sets and hashes (the set and hash operations of src/storage/engine.rs)

    The order in which a hashed collection is listed comes from [HashIter]; the
    permutations the random generator draws are arguments. *)

From S2P Require Import Prelude Text SortedSet Value PubSub Keyspace.

Open Scope Z_scope.

Section sets.
Context {ZS : Type} `{SortedSet ZS} `{Layout} `{HashIter}.

Abbreviation engine := (StorageEngine ZS).

(** Insert the members in turn, counting those that were not there. *)
Definition insert_members (s : gset bytes) (members : list bytes) : gset bytes * Z :=
  foldl (fun acc m => if decide (m ∈ acc.1) then acc else ({[m]} ∪ acc.1, acc.2 + 1)) (s, 0) members.

Definition remove_members (s : gset bytes) (members : list bytes) : gset bytes * Z :=
  foldl (fun acc m => if decide (m ∈ acc.1) then (acc.1 ∖ {[m]}, acc.2 + 1) else acc) (s, 0) members.

Definition sadd (now : Z) (e : engine) (db : nat) (key : bytes) (members : list bytes) : engine * outcome Z :=
  with_shard e db key (typed_op as_set key
    (fun sv s mm sh =>
      let '(s', added) := insert_members s members in
      let sh1 := store_back key sv (VSet s') sh in
      (mm, if 0 <? added then mark_modified key sh1 else sh1, Ok added))
    (let '(s', added) := insert_members ∅ members in insert_new_value key now (VSet s') added)).

Definition srem (e : engine) (db : nat) (key : bytes) (members : list bytes) : engine * outcome Z :=
  with_shard e db key (typed_op as_set key
    (fun sv s mm sh =>
      let '(s', removed) := remove_members s members in
      let sh1 := store_back key sv (VSet s') sh in
      (mm, if decide (s' = ∅) then data_remove key (mark_modified key sh1)
           else if 0 <? removed then mark_modified key sh1 else sh1, Ok removed))
    (answer 0)).

Definition smembers (e : engine) (db : nat) (key : bytes) : engine * outcome (list bytes) :=
  with_shard e db key (typed_op as_set key (fun _ s => answer (set_iter s)) (answer [])).

Definition sismember (e : engine) (db : nat) (key member : bytes) : engine * outcome bool :=
  with_shard e db key (typed_op as_set key (fun _ s => answer (bool_decide (member ∈ s))) (answer false)).

Definition scard (e : engine) (db : nat) (key : bytes) : engine * outcome Z :=
  with_shard e db key (typed_op as_set key (fun _ s => answer (Z.of_nat (size s))) (answer 0)).

(** The set at a key, the lock of its shard held while it is read. *)
Definition read_set (e : engine) (db : nat) (key : bytes) : outcome (option (gset bytes)) :=
  (with_shard e db key (typed_op as_set key (fun _ s => answer (Some s)) (answer None))).2.

Fixpoint union_loop (e : engine) (db : nat) (keys : list bytes) (result : gset bytes) : outcome (gset bytes) :=
  match keys with
  | [] => Ok result
  | k :: keys' =>
      let? s := read_set e db k in
      union_loop e db keys' (match s with Some s => s ∪ result | None => result end)
  end.

Definition sunion (e : engine) (db : nat) (keys : list bytes) : outcome (list bytes) :=
  match keys with
  | [] => Ok []
  | _ => let? r := union_loop e db keys ∅ in Ok (set_iter r)
  end.

(** [None]: a key without a value ends the intersection. *)
Fixpoint inter_loop (e : engine) (db : nat) (keys : list bytes) (result : gset bytes) : outcome (option (gset bytes)) :=
  match keys with
  | [] => Ok (Some result)
  | k :: keys' =>
      let? s := read_set e db k in
      match s with
      | Some s => inter_loop e db keys' (filter (fun m => m ∈ s) result)
      | None => Ok None
      end
  end.

Definition sinter (e : engine) (db : nat) (keys : list bytes) : outcome (list bytes) :=
  match keys with
  | [] => Ok []
  | k :: keys' =>
      let? s := read_set e db k in
      match s with
      | None => Ok []
      | Some s =>
          let? r := inter_loop e db keys' s in
          Ok (match r with Some r => set_iter r | None => [] end)
      end
  end.

Fixpoint diff_loop (e : engine) (db : nat) (keys : list bytes) (result : gset bytes) : outcome (gset bytes) :=
  match keys with
  | [] => Ok result
  | k :: keys' =>
      let? s := read_set e db k in
      diff_loop e db keys' (match s with Some s => result ∖ s | None => result end)
  end.

Definition sdiff (e : engine) (db : nat) (keys : list bytes) : outcome (list bytes) :=
  match keys with
  | [] => Ok []
  | k :: keys' =>
      let? s := read_set e db k in
      match s with
      | None => Ok []
      | Some s => let? r := diff_loop e db keys' s in Ok (set_iter r)
      end
  end.

(** [shuffle] is a permutation of the members and [choose] an index for each
    of the draws with replacement; [(-count) as usize] wraps around, and room
    for that many members is asked for first. *)
Definition srandmember (shuffle : list bytes -> list bytes) (choose : nat -> nat) (e : engine) (db : nat) (key : bytes)
    (count : Z) : engine * outcome (list bytes) :=
  with_shard e db key (typed_op as_set key
    (fun _ s =>
      let members := set_iter s in
      match members with
      | [] => answer []
      | _ =>
          if 0 <=? count then answer (take (Z.to_nat (Z.min count (Z.of_nat (length members)))) (shuffle members))
          else fun mm sh =>
            let n := u64_wrap (- count) in
            (mm, sh, let? _ := with_capacity n size_vec in
                     Ok (omap (fun i => members !! (choose i mod length members)%nat) (seq 0 (Z.to_nat n))))
      end)
    (answer [])).

Definition spop (shuffle : list bytes -> list bytes) (e : engine) (db : nat) (key : bytes) (count : nat)
    : engine * outcome (list bytes) :=
  with_shard e db key (typed_op as_set key
    (fun sv s mm sh =>
      match set_iter s with
      | [] => (mm, sh, Ok [])
      | members =>
          let result := take (Nat.min count (length members)) (shuffle members) in
          let s' := foldl (fun s m => s ∖ {[m]}) s result in
          let sh1 := store_back key sv (VSet s') sh in
          let sh2 := match result with [] => sh1 | _ => mark_modified key sh1 end in
          (mm, if decide (s' = ∅) then data_remove key sh2 else sh2, Ok result)
      end)
    (answer [])).

(** ** Hashes *)

Definition insert_fields (h : gmap bytes bytes) (fvs : list (bytes * bytes)) : gmap bytes bytes * Z :=
  foldl (fun acc fv =>
    (<[fv.1 := fv.2]> acc.1, match acc.1 !! fv.1 with None => acc.2 + 1 | Some _ => acc.2 end)) (h, 0) fvs.

(** On a new key the answer is the number of pairs given. *)
Definition hset (now : Z) (e : engine) (db : nat) (key : bytes) (fvs : list (bytes * bytes)) : engine * outcome Z :=
  with_shard e db key (typed_op as_hash key
    (fun sv h mm sh =>
      let '(h', added) := insert_fields h fvs in
      (mm, mark_modified key (store_back key sv (VHash h') sh), Ok added))
    (insert_new_value key now (VHash (insert_fields ∅ fvs).1) (Z.of_nat (length fvs)))).

Definition hget (e : engine) (db : nat) (key field : bytes) : engine * outcome (option bytes) :=
  with_shard e db key (typed_op as_hash key (fun _ h => answer (h !! field)) (answer None)).

Definition hmget (e : engine) (db : nat) (key : bytes) (fields : list bytes) : engine * outcome (list (option bytes)) :=
  with_shard e db key (typed_op as_hash key (fun _ h => answer (map (fun f => h !! f) fields))
    (answer (replicate (length fields) None))).

Definition hgetall (e : engine) (db : nat) (key : bytes) : engine * outcome (list (bytes * bytes)) :=
  with_shard e db key (typed_op as_hash key (fun _ h => answer (map_iter h)) (answer [])).

Definition hkeys (e : engine) (db : nat) (key : bytes) : engine * outcome (list bytes) :=
  with_shard e db key (typed_op as_hash key (fun _ h => answer (map_iter h).*1) (answer [])).

Definition hvals (e : engine) (db : nat) (key : bytes) : engine * outcome (list bytes) :=
  with_shard e db key (typed_op as_hash key (fun _ h => answer (map_iter h).*2) (answer [])).

Definition hlen (e : engine) (db : nat) (key : bytes) : engine * outcome Z :=
  with_shard e db key (typed_op as_hash key (fun _ h => answer (Z.of_nat (size h))) (answer 0)).

Definition hexists (e : engine) (db : nat) (key field : bytes) : engine * outcome bool :=
  with_shard e db key (typed_op as_hash key (fun _ h => answer (bool_decide (is_Some (h !! field)))) (answer false)).

Definition remove_fields (h : gmap bytes bytes) (fields : list bytes) : gmap bytes bytes * Z :=
  foldl (fun acc f => (delete f acc.1, match acc.1 !! f with Some _ => acc.2 + 1 | None => acc.2 end)) (h, 0) fields.

(** The key is marked as modified also when no field was there. *)
Definition hdel (e : engine) (db : nat) (key : bytes) (fields : list bytes) : engine * outcome Z :=
  with_shard e db key (typed_op as_hash key
    (fun sv h mm sh =>
      let '(h', deleted) := remove_fields h fields in
      let sh1 := store_back key sv (VHash h') sh in
      let sh2 := if decide (h' = ∅) then data_remove key sh1 else sh1 in
      (mm, mark_modified key sh2, Ok deleted))
    (answer 0)).

(** [current + increment] wraps around in a release build. *)
Definition hincrby (now : Z) (e : engine) (db : nat) (key field : bytes) (increment : Z) : engine * outcome Z :=
  with_shard e db key (typed_op as_hash key
    (fun sv h mm sh =>
      let new_val :=
        match h !! field with
        | Some current_bytes =>
            match parse_i64 (utf8_lossy current_bytes) with
            | Some current => Ok (i64_wrap (current + increment))
            | None => Err (ECommand CNotInteger)
            end
        | None => Ok increment
        end in
      match new_val with
      | Ok v => (mm, mark_modified key (store_back key sv (VHash (<[field := show_i64 v]> h)) sh), Ok v)
      | Err err => (mm, sh, Err err)
      | Panic => (mm, sh, Panic)
      end)
    (insert_new_value key now (VHash {[field := show_i64 increment]}) increment)).
End sets.
