(* ===== verification/ZSetOps.v ===== *)
(** * Sorted sets and streams (the sorted set and stream operations of
    src/storage/engine.rs)

    Sorted sets are reached through their interface.  The levels the skip list
    draws are arguments of the operations that insert. *)

From S2P Require Import Prelude Resp SortedSet Value StreamId ConsumerGroups Stream Keyspace.
From Stdlib Require Import Floats.SpecFloat.

Open Scope Z_scope.

(** [f64] addition *)
Definition f_add (x y : f64) : f64 := SFadd 53 1024 x y.

Section zsets.
Context {ZS : Type} `{SortedSet ZS} `{Layout}.

Abbreviation engine := (StorageEngine ZS).

(** A new sorted set with one member. *)
Definition create_sorted_set {A} (lvl : nat) (now : Z) (key member : bytes) (score : f64) (r : A) : shard_op ZS A :=
  fun mm sh =>
  match zs_insert lvl zs_new member score with
  | Ok (z, _) =>
      insert_accounted key now (u64_wrap (calculate_value_size key empty_sorted_set + calculate_member_size member))
        (VSortedSet z) r mm sh
  | Err err => (mm, sh, Err err)
  | Panic => (mm, sh, Panic)
  end.

(** Insert into the sorted set of the key. *)
Definition insert_member {A} (lvl : nat) (key : bytes) (sv : StoredValue ZS) (z : ZS) (member : bytes) (score : f64)
    (r : option f64 -> A) : shard_op ZS A := fun mm sh =>
  match zs_insert lvl z member score with
  | Ok (z', old_score) => (mm, mark_modified key (store_back key sv (VSortedSet z') sh), Ok (r old_score))
  | Err err => (mm, sh, Err err)
  | Panic => (mm, sh, Panic)
  end.

Definition zadd (lvl : nat) (now : Z) (e : engine) (db : nat) (key member : bytes) (score : f64) : engine * outcome bool :=
  with_shard e db key (typed_op as_sorted_set key
    (fun sv z => insert_member lvl key sv z member score (fun old => bool_decide (old = None)))
    (create_sorted_set lvl now key member score true)).

Definition zincrby (lvl : nat) (now : Z) (e : engine) (db : nat) (key member : bytes) (increment : f64)
    : engine * outcome f64 :=
  with_shard e db key (typed_op as_sorted_set key
    (fun sv z =>
      let new_score := match zs_get_score z member with Some curr => f_add curr increment | None => increment end in
      insert_member lvl key sv z member new_score (fun _ => new_score))
    (create_sorted_set lvl now key member increment increment)).

Definition zrem (e : engine) (db : nat) (key member : bytes) : engine * outcome bool :=
  with_shard e db key (typed_op as_sorted_set key
    (fun sv z mm sh =>
      match zs_remove z member with
      | Ok (z', Some _) =>
          let sh1 := mark_modified key (store_back key sv (VSortedSet z') sh) in
          (remove_memory mm (calculate_member_size member),
           if zs_len z' =? 0 then data_remove key sh1 else sh1, Ok true)
      | Ok (z', None) => (mm, store_back key sv (VSortedSet z') sh, Ok false)
      | Err err => (mm, sh, Err err)
      | Panic => (mm, sh, Panic)
      end)
    (answer false)).

Definition zscore (e : engine) (db : nat) (key member : bytes) : engine * outcome (option f64) :=
  with_shard e db key (typed_op as_sorted_set key (fun _ z => answer (zs_get_score z member)) (answer None)).

(** [len - 1 - rank] is a [usize]. *)
Definition zrank (e : engine) (db : nat) (key member : bytes) (reverse : bool) : engine * outcome (option Z) :=
  with_shard e db key (typed_op as_sorted_set key
    (fun _ z mm sh =>
      (mm, sh, let? rank := zs_get_rank z member in
               Ok (match rank with
                   | Some rank => Some (if reverse then u64_wrap (zs_len z - 1 - Z.of_nat rank) else Z.of_nat rank)
                   | None => None
                   end)))
    (answer None)).

Definition saturating_sub (a b : Z) : Z := Z.max 0 (a - b).

Definition zrange_body (z : ZS) (start stop : Z) (reverse : bool) : outcome (list (bytes * f64)) :=
  let len := zs_len z in
  if len =? 0 then Ok []
  else
    let start_idx := if start <? 0 then Z.max 0 (len + start) else start in
    let stop_idx := if stop <? 0 then Z.max 0 (len + stop) else stop in
    if reverse then
      let real_start := saturating_sub (saturating_sub len 1) (Z.min stop_idx (saturating_sub len 1)) in
      let real_stop := saturating_sub (saturating_sub len 1) (Z.min start_idx (saturating_sub len 1)) in
      let? items := zs_range_by_rank z real_start real_stop in Ok (rev items)
    else if (len <=? start_idx) || (stop_idx <? start_idx) then Ok []
    else zs_range_by_rank z (Z.min start_idx (len - 1)) (Z.min stop_idx (len - 1)).

Definition zrange (e : engine) (db : nat) (key : bytes) (start stop : Z) (reverse : bool)
    : engine * outcome (list (bytes * f64)) :=
  with_shard e db key (typed_op as_sorted_set key (fun _ z mm sh => (mm, sh, zrange_body z start stop reverse)) (answer [])).

Definition zrangebyscore (e : engine) (db : nat) (key : bytes) (min_score max_score : f64) (reverse : bool)
    : engine * outcome (list (bytes * f64)) :=
  with_shard e db key (typed_op as_sorted_set key
    (fun _ z mm sh =>
      (mm, sh, let? items := zs_range_by_score z min_score max_score in Ok (if reverse then rev items else items)))
    (answer [])).

Definition zcount (e : engine) (db : nat) (key : bytes) (min_score max_score : f64) : engine * outcome Z :=
  let '(e', r) := zrangebyscore e db key min_score max_score false in
  (e', let? items := r in Ok (Z.of_nat (length items))).

Definition zcard (e : engine) (db : nat) (key : bytes) : engine * outcome Z :=
  with_shard e db key (typed_op as_sorted_set key (fun _ z => answer (zs_len z)) (answer 0)).

(** ** Streams *)

(** A new stream: its size is counted beside that of an empty one. *)
Definition insert_stream {A} (now : Z) (key : bytes) (s : Stream) (r : A) : shard_op ZS A :=
  insert_accounted key now
    (u64_wrap (calculate_value_size (ZS:=ZS) key empty_stream + stream_memory_usage s)) (VStream s) r.

(** The clock cache is the thread's; [clk] is the system time it reads. *)
Definition xadd (now clk : Z) (weak1 weak2 : bool) (c : clock_cache) (e : engine) (db : nat) (key : bytes)
    (fields : gmap bytes bytes) : engine * outcome (StreamId * clock_cache) :=
  with_shard e db key (typed_op as_stream key
    (fun sv s mm sh =>
      let '(s', c', i) := add_auto size_entry clk weak1 weak2 c s fields in
      (mm, mark_modified key (store_back key sv (VStream s') sh), Ok (i, c')))
    (let '(s, c', i) := add_auto size_entry clk weak1 weak2 c (stream_new size_stream_data size_stream) fields in
     insert_stream now key s (i, c'))).

Definition xadd_with_id (now : Z) (e : engine) (db : nat) (key : bytes) (i : StreamId) (fields : gmap bytes bytes)
    : engine * outcome StreamId :=
  with_shard e db key (typed_op as_stream key
    (fun sv s mm sh =>
      match add_with_id size_entry s i fields with
      | (s', inr _) => (mm, mark_modified key (store_back key sv (VStream s') sh), Ok i)
      | (s', inl msg) => (mm, store_back key sv (VStream s') sh, Err (ECommand (CGeneric msg)))
      end)
    (match add_with_id size_entry (stream_new size_stream_data size_stream) i fields with
     | (s, inr _) => insert_stream now key s i
     | (_, inl msg) => refuse (ECommand (CGeneric msg))
     end)).

Definition xrange_dir (reverse : bool) (e : engine) (db : nat) (key : bytes) (start end_ : StreamId) (count : option nat)
    : engine * outcome (list StreamEntry) :=
  with_shard e db key (typed_op as_stream key (fun _ s => answer (range s start end_ count reverse)) (answer [])).

Definition xrange := xrange_dir false.
Definition xrevrange := xrange_dir true.

Definition xlen (e : engine) (db : nat) (key : bytes) : engine * outcome Z :=
  with_shard e db key (typed_op as_stream key (fun _ s => answer (stream_len s)) (answer 0)).

Fixpoint xread_loop (e : engine) (db : nat) (keys_and_ids : list (bytes * StreamId)) (count : option nat)
    : outcome (list (bytes * list StreamEntry)) :=
  match keys_and_ids with
  | [] => Ok []
  | (key, after_id) :: rest =>
      let? found := (with_shard e db key (typed_op as_stream key
                       (fun _ s => answer (range_after s after_id count)) (answer []))).2 in
      let? results := xread_loop e db rest count in
      Ok (match found with [] => results | _ => (key, found) :: results end)
  end.

Definition xread (e : engine) (db : nat) (keys_and_ids : list (bytes * StreamId)) (count : option nat) (block : option Z)
    : outcome (list (bytes * list StreamEntry)) :=
  match block with
  | Some _ => Err (ECommand (CGeneric (B "BLOCK option not yet supported")))
  | None => xread_loop e db keys_and_ids count
  end.

(** Trimming and deleting mark the key when something went. *)
Definition shrink_stream (f : Stream -> Stream * nat) (e : engine) (db : nat) (key : bytes) : engine * outcome nat :=
  with_shard e db key (typed_op as_stream key
    (fun sv s mm sh =>
      let '(s', n) := f s in
      let sh1 := store_back key sv (VStream s') sh in
      (mm, if (0 <? n)%nat then mark_modified key sh1 else sh1, Ok n))
    (answer 0%nat)).

Definition xtrim (e : engine) (db : nat) (key : bytes) (max_len : nat) : engine * outcome nat :=
  shrink_stream (fun s => trim_by_count size_entry s max_len) e db key.

Definition xdel (e : engine) (db : nat) (key : bytes) (ids : list StreamId) : engine * outcome nat :=
  shrink_stream (fun s => stream_delete size_entry s ids) e db key.

(** A copy of a stream shares the consumer groups of the stored one: what is
    done to the groups of the copy is done to those of the key.  The key is not
    marked. *)
Definition set_groups (e : engine) (db : nat) (key : bytes) (g : ConsumerGroupManager) : engine * outcome unit :=
  with_shard e db key (fun mm sh =>
    match data sh !! key with
    | Some sv =>
        match value sv with
        | VStream stored => (mm, store_back key sv (VStream (with_groups stored g)) sh, Ok tt)
        | _ => (mm, sh, Ok tt)
        end
    | None => (mm, sh, Ok tt)
    end).
End zsets.
