(* ===== verification/Scan.v ===== *)
(** * The SCAN family (scan, hscan, sscan and zscan of src/storage/engine.rs)

    A scan lists its names in order and walks them from the cursor, which is a
    position in that order.  The four operations share the walk ([scan_walk]). *)

From S2P Require Import Prelude Text Resp SortedSet Value PubSub Glob Keyspace.

Open Scope Z_scope.

(** [Vec<u8> : Ord], as [sort] uses it. *)
Definition bytes_le (x y : bytes) : Prop := bytes_cmp x y <> Gt.

#[global] Instance bytes_le_dec x y : Decision (bytes_le x y).
Proof. unfold bytes_le. apply _. Defined.

Definition on_name {A} (name : A -> bytes) (x y : A) : Prop := bytes_le (name x) (name y).

#[global] Instance on_name_dec {A} (name : A -> bytes) x y : Decision (on_name name x y).
Proof. unfold on_name. apply _. Defined.

(** [count] of 0 is 10; at most 1000. *)
Definition max_scan_count (count : Z) : Z := Z.min (if count =? 0 then 10 else count) 1000.

(** The [while] loop on the items from position [pos]: the next position and
    the items taken. *)
Fixpoint scan_walk {A} (keep : A -> bool) (max examined found pos : Z) (l : list A) : Z * list A :=
  match l with
  | [] => (pos, [])
  | x :: l' =>
      if (examined <? max * 10) && (found <? max) then
        let '(pos', taken) := scan_walk keep max (examined + 1) (if keep x then found + 1 else found) (pos + 1) l' in
        (pos', if keep x then x :: taken else taken)
      else (pos, [])
  end.

Definition name_matches (pattern : option bytes) (name : bytes) : bool :=
  match pattern with
  | None => true
  | Some p => key_pattern_matches (utf8_lossy p) (utf8_lossy name)
  end.

(** From the cursor on, on the sorted items: the next cursor and the items. *)
Definition scan_from {A} (name : A -> bytes) (pattern : option bytes) (max cursor : Z) (items : list A) : Z * list A :=
  let len := Z.of_nat (length items) in
  if (len <=? cursor) && negb (len =? 0) then (0, [])
  else
    let '(pos, taken) :=
      scan_walk (fun x => name_matches pattern (name x)) max 0 0 cursor (drop (Z.to_nat cursor) items) in
    (if len <=? pos then 0 else pos, taken).

Section scan.
Context {ZS : Type} `{SortedSet ZS} `{Layout} `{HashIter}.

Abbreviation engine := (StorageEngine ZS).

(** [clock k] is the reading of the clock when the key [k] is looked at. *)
Definition scan (clock : bytes -> Z) (e : engine) (db : nat) (cursor : Z) (pattern type_filter : option bytes) (count : Z)
    : outcome (Z * list bytes) :=
  match databases e !! db with
  | None => Err (EStorage InvalidDatabase)
  | Some d =>
      let wanted (kv : bytes * StoredValue ZS) : bool :=
        negb (stored_expired (clock kv.1) kv.2)
        && match type_filter with Some t => bool_decide (type_name (value kv.2) = t) | None => true end in
      let all_keys := concat (map (fun sh => (filter wanted (map_iter (data sh))).*1) d) in
      Ok (scan_from id pattern (max_scan_count count) cursor (merge_sort (on_name id) all_keys))
  end.

(** A value that fits is answered at once, unsorted. *)
Definition scan_value {A} (name : A -> bytes) (pattern : option bytes) (count cursor : Z) (listed sorted : list A)
    : Z * list A :=
  if (Z.of_nat (length listed) <=? max_scan_count count) && (cursor =? 0) && bool_decide (pattern = None)
  then (0, listed)
  else scan_from name pattern (max_scan_count count) cursor sorted.

(** [get] and the type of what it found. *)
Definition scan_get {X A} (now : Z) (view : Value ZS -> option X) (e : engine) (db : nat) (key : bytes)
    (f : X -> outcome (Z * list A)) : engine * outcome (Z * list A) :=
  match engine_get now e db key with
  | (e', Ok (Found v)) => (e', match view v with Some x => f x | None => Err (EStorage WrongType) end)
  | (e', Ok _) => (e', Ok (0, []))
  | (e', Err err) => (e', Err err)
  | (e', Panic) => (e', Panic)
  end.

(** The answer of [hscan]: the fields, each followed by its value unless [no_values]. *)
Definition flatten_fields (no_values : bool) (fvs : list (bytes * bytes)) : list bytes :=
  concat (map (fun fv => if no_values then [fv.1] else [fv.1; fv.2]) fvs).

Definition hscan (now : Z) (e : engine) (db : nat) (key : bytes) (cursor : Z) (pattern : option bytes) (count : Z)
    (no_values : bool) : engine * outcome (Z * list bytes) :=
  scan_get now as_hash e db key (fun h =>
    let '(next, fvs) := scan_value fst pattern count cursor (map_iter h) (merge_sort (on_name fst) (map_iter h)) in
    Ok (next, flatten_fields no_values fvs)).

Definition sscan (now : Z) (e : engine) (db : nat) (key : bytes) (cursor : Z) (pattern : option bytes) (count : Z)
    : engine * outcome (Z * list bytes) :=
  scan_get now as_set e db key (fun s =>
    Ok (scan_value id pattern count cursor (set_iter s) (merge_sort (on_name id) (set_iter s)))).

(** [zset.len() - 1] is a [usize]; the items are sorted by member first. *)
Definition zscan (now : Z) (e : engine) (db : nat) (key : bytes) (cursor : Z) (pattern : option bytes) (count : Z)
    : engine * outcome (Z * list (bytes * f64)) :=
  scan_get now as_sorted_set e db key (fun z =>
    let? items := zs_range_by_rank z 0 (u64_wrap (zs_len z - 1)) in
    let sorted := merge_sort (on_name fst) items in
    Ok (scan_value fst pattern count cursor sorted sorted)).
End scan.
