(* ===== verification/KeyspaceProofs.v ===== *)
(** * What an operation on a key may do

    [sound key sh sh'] says that a step from shard [sh] to [sh'] concerns [key]
    alone, that it either leaves the key's value and the counters of WATCH as
    they are or marks the key as modified, once, and that it does not leave an
    empty collection behind.  The operations of every type of value are shown
    sound here, by case analysis and the hints below. *)

From S2P Require Import Prelude Text Resp StreamId Stream SortedSet Value PubSub Keyspace StringOps ListOps SetOps ZSetOps Scan.

Open Scope Z_scope.

Create HintDb touches.
Create HintDb sound.

Section soundness.
Context {ZS : Type} `{SortedSet ZS} `{Layout}.

Definition value_at (sh : DatabaseShard ZS) (k : bytes) : option (Value ZS) := value <$> data sh !! k.

(** Only [key] may differ, in the data and in the expiry index. *)
Definition touches (key : bytes) (sh sh' : DatabaseShard ZS) : Prop :=
  forall k, k <> key -> data sh' !! k = data sh !! k /\ expiring_keys sh' !! k = expiring_keys sh !! k.

(** A list, set or hash at rest has an element. *)
Definition nonempty (v : Value ZS) : Prop :=
  match v with
  | VList l => l <> []
  | VSet s => s <> ∅
  | VHash h => h <> ∅
  | _ => True
  end.

Definition nonempty_at (sh : DatabaseShard ZS) (k : bytes) : Prop :=
  match value_at sh k with Some v => nonempty v | None => True end.

Definition marked (key : bytes) (sh sh' : DatabaseShard ZS) : Prop :=
  watch_tracker sh' = mark_key_modified (watch_tracker sh) key.

Record sound (key : bytes) (sh sh' : DatabaseShard ZS) : Prop := {
  sound_touches : touches key sh sh';
  sound_tracker : watch_tracker sh' = watch_tracker sh \/ marked key sh sh';
  sound_nonempty : nonempty_at sh key -> nonempty_at sh' key;
  sound_value : nonempty_at sh key -> value_at sh' key = value_at sh key \/ marked key sh sh';
}.

Definition op_sound {A} (key : bytes) (f : shard_op ZS A) : Prop := forall mm sh, sound key sh (f mm sh).1.2.

Lemma touches_refl key sh : touches key sh sh.
Proof. done. Qed.

Lemma touches_mark key sh sh' : touches key sh sh' -> touches key sh (mark_modified key sh').
Proof. done. Qed.

Lemma touches_insert key sv sh sh' : touches key sh sh' -> touches key sh (data_insert key sv sh').
Proof. intros Ht k Hk. simpl. rewrite lookup_insert_ne by done. by apply Ht. Qed.

Lemma touches_store key sv v sh sh' : touches key sh sh' -> touches key sh (store_back key sv v sh').
Proof. apply touches_insert. Qed.

Lemma touches_remove key sh sh' : touches key sh sh' -> touches key sh (data_remove key sh').
Proof. intros Ht k Hk. simpl. rewrite lookup_delete_ne by done. by apply Ht. Qed.

Lemma touches_expiring_insert key t sh sh' : touches key sh sh' -> touches key sh (expiring_insert key t sh').
Proof. intros Ht k Hk. simpl. rewrite lookup_insert_ne by done. by apply Ht. Qed.

Lemma touches_expiring_remove key sh sh' : touches key sh sh' -> touches key sh (expiring_remove key sh').
Proof. intros Ht k Hk. simpl. rewrite lookup_delete_ne by done. by apply Ht. Qed.

#[local] Hint Resolve touches_refl touches_mark touches_insert touches_store touches_remove touches_expiring_insert
  touches_expiring_remove : touches.

Lemma nonempty_stored sh key sv : data sh !! key = Some sv -> nonempty_at sh key -> nonempty (value sv).
Proof. unfold nonempty_at, value_at. by intros ->. Qed.

Lemma nonempty_insert key sv sh : nonempty (value sv) -> nonempty_at (data_insert key sv sh) key.
Proof. unfold nonempty_at, value_at. simpl. by rewrite lookup_insert_eq. Qed.

Lemma nonempty_remove key sh : nonempty_at (data_remove key sh) key.
Proof. unfold nonempty_at, value_at. simpl. by rewrite lookup_delete_eq. Qed.

Lemma nonempty_store key sv v sh : nonempty v -> nonempty_at (store_back key sv v sh) key.
Proof. intros Hv. by apply nonempty_insert. Qed.

Lemma nonempty_mark key k sh : nonempty_at sh key -> nonempty_at (mark_modified k sh) key.
Proof. done. Qed.

Lemma nonempty_expiring_insert key k t sh : nonempty_at sh key -> nonempty_at (expiring_insert k t sh) key.
Proof. done. Qed.

Lemma nonempty_expiring_remove key k sh : nonempty_at sh key -> nonempty_at (expiring_remove k sh) key.
Proof. done. Qed.

Lemma sound_refl key sh : sound key sh sh.
Proof. split; auto with touches. Qed.

Lemma sound_marked key sh sh' :
  touches key sh sh' -> marked key sh sh' ->
  (nonempty_at sh key -> nonempty_at sh' key) -> sound key sh sh'.
Proof. split; auto. Qed.

Lemma sound_same key sh sh' :
  touches key sh sh' -> watch_tracker sh' = watch_tracker sh -> value_at sh' key = value_at sh key -> sound key sh sh'.
Proof. intros Ht Hw Hv. split; auto. unfold nonempty_at. by rewrite Hv. Qed.

Lemma store_same key sv v (sh : DatabaseShard ZS) : data sh !! key = Some sv -> v = value sv -> store_back key sv v sh = sh.
Proof.
  intros Hsv ->. destruct sh, sv; simpl in *. unfold store_back, data_insert; simpl. by rewrite insert_id.
Qed.

Lemma op_sound_answer {A} key (r : A) : op_sound key (answer (ZS:=ZS) r).
Proof. intros mm sh. apply sound_refl. Qed.

Lemma op_sound_refuse {A} key err : op_sound key (refuse (ZS:=ZS) (A:=A) err).
Proof. intros mm sh. apply sound_refl. Qed.

Lemma op_sound_read {A} key (f : MemoryManager -> DatabaseShard ZS -> outcome A) :
  op_sound key (fun mm sh => (mm, sh, f mm sh)).
Proof. intros mm sh. apply sound_refl. Qed.

Lemma op_sound_insert_new {A} key now v (r : A) :
  nonempty v -> op_sound key (insert_new_value (ZS:=ZS) key now v r).
Proof. intros Hv mm sh. apply sound_marked; [simpl; auto with touches|done|]. intros _. by apply (nonempty_insert key). Qed.

Lemma op_sound_insert_accounted {A} key now n v (r : A) :
  nonempty v -> op_sound key (insert_accounted (ZS:=ZS) key now n v r).
Proof.
  intros Hv mm sh. unfold insert_accounted. destruct (add_memory mm n) as [mm' []]; [|apply sound_refl].
  by apply op_sound_insert_new.
Qed.

Lemma op_sound_typed {X A} (view : Value ZS -> option X) key (some : StoredValue ZS -> X -> shard_op ZS A) none :
  (forall mm sh sv x, data sh !! key = Some sv -> view (value sv) = Some x -> sound key sh (some sv x mm sh).1.2) ->
  op_sound key none -> op_sound key (typed_op view key some none).
Proof.
  intros Hs Hn mm sh. unfold typed_op. destruct (data sh !! key) as [sv|] eqn:E; [|apply Hn].
  destruct (view (value sv)) as [x|] eqn:Ev; [by apply Hs|apply sound_refl].
Qed.

Lemma op_sound_typed_read {X A} (view : Value ZS -> option X) key (f : X -> outcome A) (r : A) :
  op_sound key (typed_op view key (fun _ x mm sh => (mm, sh, f x)) (answer r)).
Proof. apply op_sound_typed; [intros; apply sound_refl|apply op_sound_answer]. Qed.
End soundness.

#[export] Hint Resolve touches_refl touches_mark touches_insert touches_store touches_remove touches_expiring_insert
  touches_expiring_remove nonempty_store nonempty_mark nonempty_expiring_insert nonempty_expiring_remove nonempty_insert
  nonempty_remove : touches.
#[export] Hint Extern 1 (nonempty _) => exact I : touches sound.
#[export] Hint Resolve op_sound_answer op_sound_refuse op_sound_read op_sound_insert_new op_sound_insert_accounted
  op_sound_typed_read sound_refl : sound.

(** A step that marks the key, or does nothing. *)
Ltac sound_step :=
  first [ apply sound_refl
        | solve [cbn [fst snd]; apply sound_marked; [auto 10 with touches|reflexivity|
                   intros _; auto 10 with touches; simpl; auto 10 with touches]] ].

(** The body of an operation on values of one type. *)
Ltac sound_typed :=
  apply op_sound_typed; [intros mm sh sv x Hsv Hview|auto with sound].

Section operations.
Context {ZS : Type} `{SortedSet ZS} `{Layout} `{HashIter}.

Lemma view_string (v : Value ZS) b : as_string v = Some b -> v = VString b.
Proof. destruct v; simpl; congruence. Qed.
Lemma view_list (v : Value ZS) l : as_list v = Some l -> v = VList l.
Proof. destruct v; simpl; congruence. Qed.
Lemma view_set (v : Value ZS) s : as_set v = Some s -> v = VSet s.
Proof. destruct v; simpl; congruence. Qed.
Lemma view_hash (v : Value ZS) h : as_hash v = Some h -> v = VHash h.
Proof. destruct v; simpl; congruence. Qed.
Lemma view_sorted_set (v : Value ZS) z : as_sorted_set v = Some z -> v = VSortedSet z.
Proof. destruct v; simpl; congruence. Qed.
Lemma view_stream (v : Value ZS) s : as_stream v = Some s -> v = VStream s.
Proof. destruct v; simpl; congruence. Qed.

(** ** On the engine *)

Abbreviation engine := (StorageEngine ZS).

(** Nothing changed but the shard of the key, soundly (and the memory count). *)
Definition engine_sound (db : nat) (key : bytes) (e e' : engine) : Prop :=
  databases e' = databases e
  \/ exists d sh sh', databases e !! db = Some d /\ d !! get_shard_index key = Some sh
       /\ databases e' = <[db := <[get_shard_index key := sh']> d]> (databases e) /\ sound key sh sh'.

Lemma with_shard_sound {A} e db key (f : shard_op ZS A) :
  op_sound key f -> engine_sound db key e (with_shard e db key f).1.
Proof.
  intros Hf. unfold with_shard. destruct (databases e !! db) as [d|] eqn:Ed; [|by left].
  destruct (d !! get_shard_index key) as [sh|] eqn:Esh; [|by left].
  pose proof (Hf (memory_manager e) sh) as Hs. destruct (f (memory_manager e) sh) as [[mm' sh'] r]. simpl in *.
  right. exists d, sh, sh'. auto.
Qed.

(** *** The keyspace and strings *)

Lemma stored_value_same now v d (sv : StoredValue ZS) : stored_with_expiration now v d = Ok sv -> value sv = v.
Proof. unfold stored_with_expiration. destruct (meta_with_expiration now d); simpl; congruence || (by intros [= <-]). Qed.

Lemma step_set_value now e db key v expires_in : nonempty v -> engine_sound db key e (set_value now e db key v expires_in).1.
Proof.
  intros Hv. apply with_shard_sound. intros mm sh. unfold set_value_shard. destruct (add_memory _ _) as [mm' []]; [|sound_step].
  assert (Hval : forall sv, (match expires_in with
                             | Some d => stored_with_expiration now v d
                             | None => Ok (stored_new now v)
                             end) = Ok sv -> nonempty (value sv)).
  { intros sv. destruct expires_in as [d|]; [|by intros [= <-]]. by intros ->%stored_value_same. }
  destruct (match expires_in with Some d => _ | None => _ end) as [sv|err|]; [|sound_step..].
  specialize (Hval sv eq_refl). destruct (expires_at (metadata sv)); sound_step.
Qed.

Lemma step_set_string_nx now e db key v : engine_sound db key e (set_string_nx now e db key v).1.
Proof.
  apply with_shard_sound. intros mm sh. destruct (live now key sh); [sound_step|]. by apply op_sound_insert_accounted.
Qed.

Lemma step_set_string_nx_ex t1 t2 t3 e db key v d : engine_sound db key e (set_string_nx_ex t1 t2 t3 e db key v d).1.
Proof.
  apply with_shard_sound. intros mm sh. destruct (live t1 key sh); [sound_step|].
  destruct (add_memory _ _) as [mm' []]; [|sound_step].
  destruct (stored_with_expiration t2 (VString v) d) as [sv| |] eqn:Hsv; [|sound_step..].
  destruct (instant_add t3 d); [|sound_step..]. apply stored_value_same in Hsv. cbn [fst snd].
  apply sound_marked; [auto with touches|done|]. intros _. apply (nonempty_insert key). by rewrite Hsv.
Qed.

Lemma step_get now e db key : engine_sound db key e (engine_get now e db key).1.
Proof.
  apply with_shard_sound. intros mm sh. destruct (data sh !! key) as [sv|]; [|sound_step].
  destruct (stored_expired now sv); sound_step.
Qed.

Lemma step_get_string now e db key : engine_sound db key e (get_string now e db key).1.
Proof. unfold get_string. pose proof (step_get now e db key). by destruct (engine_get now e db key). Qed.

Lemma step_delete e db key : engine_sound db key e (delete_key e db key).1.
Proof. apply with_shard_sound. intros mm sh. destruct (data sh !! key) as [sv|]; sound_step. Qed.

Lemma step_expire t1 t2 e db key d : engine_sound db key e (expire t1 t2 e db key d).1.
Proof.
  apply with_shard_sound. intros mm sh. destruct (data sh !! key) as [sv|] eqn:Hsv; [|sound_step].
  destruct (set_expiration _ _ _) as [m|err|]; [|sound_step..].
  destruct (instant_add _ _); apply sound_same; simpl; auto with touches;
    unfold value_at; simpl; by rewrite lookup_insert_eq, Hsv.
Qed.

Lemma step_persist e db key : engine_sound db key e (persist e db key).1.
Proof.
  apply with_shard_sound. intros mm sh. destruct (data sh !! key) as [sv|] eqn:Hsv; [|sound_step].
  destruct (expires_at _); [|sound_step]. apply sound_same; simpl; auto with touches;
    unfold value_at; simpl; by rewrite lookup_insert_eq, Hsv.
Qed.

Lemma step_incr_by now e db key n : engine_sound db key e (incr_by now e db key n).1.
Proof.
  apply with_shard_sound. intros mm sh. destruct (data sh !! key) as [sv|]; [|by apply op_sound_insert_accounted].
  destruct (as_integer _); [|sound_step]. case_decide; sound_step.
Qed.

Lemma step_append now e db key v : engine_sound db key e (append now e db key v).1.
Proof. apply with_shard_sound. sound_typed. sound_step. Qed.

Lemma step_setrange now e db key offset v : engine_sound db key e (setrange now e db key offset v).1.
Proof.
  apply with_shard_sound. apply op_sound_typed.
  - intros mm sh sv x _ _. destruct (setrange_body _ _ _); sound_step.
  - intros mm sh. destruct (setrange_body _ _ _); [|sound_step..]. by apply op_sound_insert_new.
Qed.

(** *** Lists *)

Lemma step_push add now e db key elements :
  (forall l, add l elements <> []) -> engine_sound db key e (push add now e db key elements).1.
Proof.
  intros Hadd. apply with_shard_sound. apply op_sound_typed; [intros mm sh sv x Hsv Hview|].
  - cbn [fst snd]. apply sound_marked; [auto with touches|done|]. intros _. apply nonempty_mark, nonempty_store, Hadd.
  - apply op_sound_insert_new. apply Hadd.
Qed.

Lemma push_front_spec elements : forall l, push_front_all l elements = rev elements ++ l.
Proof.
  unfold push_front_all. induction elements as [|x els IH]; intros l; [done|]. simpl.
  by rewrite IH, <- (assoc_L (++)).
Qed.

Lemma push_back_spec elements : forall l, push_back_all l elements = l ++ elements.
Proof.
  unfold push_back_all. induction elements as [|x els IH]; intros l; simpl; [by rewrite app_nil_r|].
  by rewrite IH, <- (assoc_L (++)).
Qed.

Lemma step_lpush now e db key elements :
  elements <> [] -> engine_sound db key e (lpush now e db key elements).1.
Proof.
  intros Hne. apply step_push. intros l. rewrite push_front_spec. intros [Hr _]%app_nil.
  apply Hne. by rewrite <- (rev_involutive elements), Hr.
Qed.

Lemma step_rpush now e db key elements :
  elements <> [] -> engine_sound db key e (rpush now e db key elements).1.
Proof. intros Hne. apply step_push. intros l. rewrite push_back_spec. by intros [_ Hr]%app_nil. Qed.

Lemma nonempty_after key l (sh : DatabaseShard ZS) :
  (l <> [] -> nonempty_at sh key) -> nonempty_at (remove_if_empty key l sh) key.
Proof. intros Hl. destruct l; simpl; [apply nonempty_remove|by apply Hl]. Qed.

Lemma touches_after key l sh sh' : touches (ZS:=ZS) key sh sh' -> touches key sh (remove_if_empty key l sh').
Proof. destruct l; simpl; auto with touches. Qed.

Lemma tracker_after key l (sh : DatabaseShard ZS) : watch_tracker (remove_if_empty key l sh) = watch_tracker sh.
Proof. by destruct l. Qed.

(** A list operation that marks the key exactly when the list changed. *)
Lemma sound_list_update key sv l l' (b : bool) (sh : DatabaseShard ZS) :
  data sh !! key = Some sv -> value sv = VList l -> (b = false -> l' = l) ->
  sound key sh (remove_if_empty key l' (if b then mark_modified key (store_back key sv (VList l') sh)
                                       else store_back key sv (VList l') sh)).
Proof.
  intros Hsv Hv Hb. destruct b.
  - apply sound_marked; [auto using touches_after with touches|unfold marked; by rewrite tracker_after|].
    intros _. apply nonempty_after. intros Hl. by apply nonempty_mark, nonempty_store.
  - rewrite (Hb eq_refl), store_same by done. destruct l as [|x l]; [|apply sound_refl].
    split; [auto using touches_after with touches|by left|..]; intros Hne%(nonempty_stored _ _ _ Hsv);
      by rewrite Hv in Hne.
Qed.

Lemma step_pop take_one e db key :
  (forall l, (take_one l).1 = None -> (take_one l).2 = l) -> engine_sound db key e (pop take_one e db key).1.
Proof.
  intros Ht. apply with_shard_sound. sound_typed. apply view_list in Hview.
  pose proof (Ht x) as Hx. destruct (take_one x) as [element l'].
  pose proof (sound_list_update key sv x l' (match element with Some _ => true | None => false end) sh Hsv Hview) as Hs.
  destruct element; apply Hs; auto; done.
Qed.

Lemma step_lpop e db key : engine_sound db key e (lpop e db key).1.
Proof. apply step_pop. by intros [|x l]. Qed.

Lemma step_rpop e db key : engine_sound db key e (rpop e db key).1.
Proof. apply step_pop. intros l. unfold pop_back. destruct (last l) eqn:E; [done|]. by apply last_None in E as ->. Qed.

Lemma step_lset e db key index v : engine_sound db key e (lset e db key index v).1.
Proof.
  apply with_shard_sound. sound_typed. apply view_list in Hview.
  destruct (resolve_index _ _) as [i|]; [|sound_step]. cbn [fst snd]. apply sound_marked; [auto with touches|done|].
  intros Hne%(nonempty_stored _ _ _ Hsv). apply nonempty_mark, nonempty_store. rewrite Hview in Hne.
  simpl in *. intros E. apply Hne. apply nil_length_inv. by rewrite <- (length_insert x i v), E.
Qed.

Lemma step_ltrim e db key start stop : engine_sound db key e (ltrim e db key start stop).1.
Proof.
  apply with_shard_sound. sound_typed. apply view_list in Hview.
  by apply (sound_list_update key sv x _ true sh).
Qed.

Lemma rem_loop_none element n l : 0 <= (rem_loop element n l).2 /\ ((rem_loop element n l).2 = 0 -> (rem_loop element n l).1 = l).
Proof.
  revert n. induction l as [|x l IH]; intros n; simpl; [done|]. destruct (_ && _).
  - specialize (IH (n - 1)). destruct (rem_loop element (n - 1) l). simpl in *. lia.
  - specialize (IH n). destruct (rem_loop element n l). simpl in *. split; [lia|]. intros ->%(proj2 IH). done.
Qed.

Lemma rem_elements_none count element l :
  (0 <? (rem_elements count element l).2) = false -> (rem_elements count element l).1 = l.
Proof.
  unfold rem_elements. rewrite Z.ltb_ge. destruct (count =? 0); [|destruct (0 <? count)].
  - simpl. intros Hz. apply filter_all. intros x Hx ->.
    assert (Hin : element ∈ filter (fun x => x = element) l) by (apply list_elem_of_filter; done).
    destruct (filter _ l); [by apply elem_of_nil in Hin|simpl in Hz; lia].
  - intros Hz. apply rem_loop_none. pose proof (rem_loop_none element count l). lia.
  - pose proof (rem_loop_none element (u64_wrap (- count)) (rev l)) as [Hge Hid].
    destruct (rem_loop _ _ _) as [kept n]. simpl in *. intros Hz. rewrite Hid by lia. apply rev_involutive.
Qed.

Lemma step_lrem e db key count element : engine_sound db key e (lrem e db key count element).1.
Proof.
  apply with_shard_sound. sound_typed. apply view_list in Hview.
  pose proof (rem_elements_none count element x) as Hx. destruct (rem_elements count element x) as [l' n].
  by apply (sound_list_update key sv x l' (0 <? n) sh).
Qed.
End operations.
