(* ===== verification/CollectionProofs.v ===== *)
(** * The operations on sets, hashes, sorted sets and streams are sound

    With the loops of the set and hash operations computed. *)

From S2P Require Import Prelude Text Resp StreamId Stream SortedSet Value PubSub Keyspace StringOps ListOps SetOps ZSetOps Scan.
From S2P Require Import KeyspaceProofs.

Open Scope Z_scope.

(** ** The loops *)

Lemma insert_members_spec (members : list bytes) : forall (s : gset bytes) (n : Z),
  foldl (fun (acc : gset bytes * Z) m => if decide (m ∈ acc.1) then acc else ({[m]} ∪ acc.1, acc.2 + 1)) (s, n) members
  = (s ∪ list_to_set members, n + Z.of_nat (size (s ∪ list_to_set members)) - Z.of_nat (size s)).
Proof.
  induction members as [|m ms IH]; intros s n; simpl.
  - assert (s ∪ ∅ = s) as -> by set_solver. f_equal. lia.
  - case_decide as Hm; rewrite IH.
    + assert (s ∪ ({[m]} ∪ list_to_set ms) = s ∪ list_to_set ms) as -> by set_solver. done.
    + assert (s ∪ ({[m]} ∪ list_to_set ms) = {[m]} ∪ s ∪ list_to_set ms) as -> by set_solver.
      f_equal. rewrite (size_union {[m]} s), size_singleton by set_solver. lia.
Qed.

Lemma insert_members_exact (s : gset bytes) members :
  insert_members s members
  = (s ∪ list_to_set members, Z.of_nat (size (s ∪ list_to_set members)) - Z.of_nat (size s)).
Proof. unfold insert_members. by rewrite insert_members_spec. Qed.

Lemma remove_members_spec (members : list bytes) : forall (s : gset bytes) (n : Z),
  foldl (fun (acc : gset bytes * Z) m => if decide (m ∈ acc.1) then (acc.1 ∖ {[m]}, acc.2 + 1) else acc) (s, n) members
  = (s ∖ list_to_set members, n + Z.of_nat (size s) - Z.of_nat (size (s ∖ list_to_set members))).
Proof.
  induction members as [|m ms IH]; intros s n; simpl.
  - assert (s ∖ ∅ = s) as -> by set_solver. f_equal. lia.
  - case_decide as Hm; rewrite IH.
    + assert (s ∖ ({[m]} ∪ list_to_set ms) = s ∖ {[m]} ∖ list_to_set ms) as -> by set_solver. f_equal.
      assert (size s = S (size (s ∖ {[m]}))) as ->; [|lia].
      rewrite size_difference by set_solver. rewrite size_singleton.
      assert (size s <> 0%nat); [|lia]. intros Hz%size_empty_iff. set_solver.
    + assert (s ∖ ({[m]} ∪ list_to_set ms) = s ∖ list_to_set ms) as -> by set_solver. done.
Qed.

Lemma remove_members_exact (s : gset bytes) members :
  remove_members s members
  = (s ∖ list_to_set members, Z.of_nat (size s) - Z.of_nat (size (s ∖ list_to_set members))).
Proof. unfold remove_members. by rewrite remove_members_spec. Qed.

(** The pairs of [HSET], the last one given for a field wins. *)
Definition fields_of (fvs : list (bytes * bytes)) : gmap bytes bytes := foldl (fun h fv => <[fv.1 := fv.2]> h) ∅ fvs.

Lemma insert_fields_spec (fvs : list (bytes * bytes)) : forall (h : gmap bytes bytes) (n : Z),
  let r := foldl (fun acc fv => (<[fv.1 := fv.2]> acc.1, match acc.1 !! fv.1 with None => acc.2 + 1 | Some _ => acc.2 end))
             (h, n) fvs in
  r.1 = foldl (fun h fv => <[fv.1 := fv.2]> h) h fvs /\ r.2 = n + Z.of_nat (size r.1) - Z.of_nat (size h).
Proof.
  induction fvs as [|fv fvs IH]; intros h n; simpl; [split; [done|lia]|].
  destruct (IH (<[fv.1 := fv.2]> h) (match h !! fv.1 with None => n + 1 | Some _ => n end)) as [-> ->].
  split; [done|]. rewrite map_size_insert. destruct (h !! fv.1); simpl; lia.
Qed.

Lemma insert_fields_nonempty fvs h : fvs <> [] -> (insert_fields h fvs).1 <> ∅.
Proof.
  unfold insert_fields. rewrite (proj1 (insert_fields_spec fvs h 0)).
  induction fvs as [|fv fvs _] using rev_ind; [done|]. intros _. rewrite foldl_app. simpl. apply insert_non_empty.
Qed.

Lemma remove_fields_spec (fields : list bytes) : forall (h : gmap bytes bytes) (n : Z),
  let r := foldl (fun acc f => (delete f acc.1, match acc.1 !! f with Some _ => acc.2 + 1 | None => acc.2 end)) (h, n) fields in
  r.1 = foldl (fun h f => delete f h) h fields /\ r.2 = n + Z.of_nat (size h) - Z.of_nat (size r.1).
Proof.
  induction fields as [|f fs IH]; intros h n; simpl; [split; [done|lia]|].
  destruct (IH (delete f h) (match h !! f with Some _ => n + 1 | None => n end)) as [-> ->].
  split; [done|]. rewrite map_size_delete. destruct (h !! f) eqn:E; simpl; [|lia].
  assert (size h <> 0%nat); [|lia]. intros Hz%map_size_empty_iff. by rewrite Hz in E.
Qed.

Section operations.
Context {ZS : Type} `{SortedSet ZS} `{Layout} `{HashIter}.
Abbreviation engine := (StorageEngine ZS).

(** A value that is marked exactly when it changed. *)
Lemma sound_value_update key sv v' (b : bool) (sh : DatabaseShard ZS) :
  data sh !! key = Some sv -> (b = false -> v' = value sv) -> (nonempty (value sv) -> nonempty v') ->
  sound key sh (if b then mark_modified key (store_back key sv v' sh) else store_back key sv v' sh).
Proof.
  intros Hsv Hb Hne. destruct b.
  - apply sound_marked; [auto with touches|done|]. intros Hn%(nonempty_stored _ _ _ Hsv). auto with touches.
  - rewrite store_same by auto. apply sound_refl.
Qed.

(** *** Sets *)

Lemma step_sadd now (e : engine) db key members : members <> [] -> engine_sound db key e (sadd now e db key members).1.
Proof.
  intros Hne. assert (Hs : forall s : gset bytes, s ∪ list_to_set members <> ∅).
  { destruct members as [|m ms]; [done|]. simpl. set_solver. }
  apply with_shard_sound, op_sound_typed; [intros mm sh sv x Hsv Hview|].
  - apply view_set in Hview. rewrite insert_members_exact. cbn [fst snd].
    apply sound_value_update; [done| |intros _; apply Hs]. rewrite Z.ltb_ge, Hview. intros Hle. f_equal.
    symmetry. apply set_subseteq_size_eq; [set_solver|lia].
  - rewrite insert_members_exact. apply op_sound_insert_new. apply Hs.
Qed.

(** A set that is emptied leaves with its key. *)
Lemma sound_set_shrink key sv s s' (b : bool) (sh : DatabaseShard ZS) :
  data sh !! key = Some sv -> value sv = VSet s -> (b = false -> s' = s) ->
  sound key sh (let sh1 := store_back key sv (VSet s') sh in
                let sh2 := if b then mark_modified key sh1 else sh1 in
                if decide (s' = ∅) then data_remove key sh2 else sh2).
Proof.
  intros Hsv Hv Hb. simpl. case_decide as Hs.
  - split; [destruct b; auto with touches|destruct b; [by right|by left]|intros _; apply nonempty_remove|].
    intros Hne%(nonempty_stored _ _ _ Hsv). rewrite Hv in Hne. destruct b; [by right|]. by rewrite Hb in Hs.
  - apply sound_value_update; [done|rewrite Hv; by intros ->%Hb|by intros _].
Qed.

Lemma step_srem (e : engine) db key members : engine_sound db key e (srem e db key members).1.
Proof.
  apply with_shard_sound. sound_typed. apply view_set in Hview. rewrite remove_members_exact. cbn [fst snd].
  set (s' := x ∖ list_to_set members).
  assert (Hle : (0 <? Z.of_nat (size x) - Z.of_nat (size s')) = false -> s' = x).
  { rewrite Z.ltb_ge. intros Hz. apply set_subseteq_size_eq; [set_solver|lia]. }
  pose proof (sound_set_shrink key sv x s' _ sh Hsv Hview Hle) as Hs. simpl in Hs.
  case_decide as Hemp; [|done]. apply sound_marked; [auto with touches|done|auto with touches].
Qed.

Lemma pop_members_spec result : forall s : gset bytes,
  foldl (fun s m => s ∖ {[m]}) s result = s ∖ list_to_set result.
Proof. induction result as [|m ms IH]; intros s; simpl; [set_solver|]. rewrite IH. set_solver. Qed.

Lemma step_spop shuffle (e : engine) db key count : engine_sound db key e (spop shuffle e db key count).1.
Proof.
  apply with_shard_sound. sound_typed. apply view_set in Hview. destruct (set_iter x) as [|m ms]; [sound_step|].
  cbn [fst snd]. generalize (take (Nat.min count (length (m :: ms))) (shuffle (m :: ms))). intros result.
  rewrite pop_members_spec.
  pose proof (sound_set_shrink key sv x (x ∖ list_to_set result) (match result with [] => false | _ => true end) sh Hsv Hview) as Hs.
  destruct result as [|r rs]; apply Hs; [simpl; set_solver|done].
Qed.

(** *** Hashes *)

Lemma step_hset now (e : engine) db key fvs : fvs <> [] -> engine_sound db key e (hset now e db key fvs).1.
Proof.
  intros Hne. apply with_shard_sound, op_sound_typed; [intros mm sh sv x Hsv Hview|].
  - pose proof (insert_fields_nonempty fvs x Hne) as Hx. destruct (insert_fields x fvs) as [h' n]. cbn [fst snd].
    by apply (sound_value_update key sv (VHash h') true).
  - apply op_sound_insert_new. by apply insert_fields_nonempty.
Qed.

Lemma step_hdel (e : engine) db key fields : engine_sound db key e (hdel e db key fields).1.
Proof.
  apply with_shard_sound. sound_typed. destruct (remove_fields x fields) as [h' n]. cbn [fst snd]. case_decide as Hh.
  - apply sound_marked; [auto with touches|done|auto with touches].
  - by apply (sound_value_update key sv (VHash h') true).
Qed.

Lemma step_hincrby now (e : engine) db key field n : engine_sound db key e (hincrby now e db key field n).1.
Proof.
  apply with_shard_sound, op_sound_typed; [intros mm sh sv x Hsv Hview|].
  - destruct (match x !! field with Some c => _ | None => _ end) as [v|err|]; [|apply sound_refl..]. cbn [fst snd].
    apply (sound_value_update key sv (VHash (<[field := show_i64 v]> x)) true); [done..|]. intros _. apply insert_non_empty.
  - apply op_sound_insert_new. apply map_non_empty_singleton.
Qed.

(** *** Sorted sets *)

Lemma sound_create_sorted_set {A} lvl now key member score (r : A) :
  op_sound (ZS:=ZS) key (create_sorted_set lvl now key member score r).
Proof.
  intros mm sh. unfold create_sorted_set. destruct (zs_insert _ _ _ _) as [[z o]|err|]; [|apply sound_refl..].
  by apply op_sound_insert_accounted.
Qed.

Lemma sound_insert_member {A} lvl key sv z member score (r : option f64 -> A) mm (sh : DatabaseShard ZS) :
  sound key sh (insert_member lvl key sv z member score r mm sh).1.2.
Proof. unfold insert_member. destruct (zs_insert _ _ _ _) as [[z' o]|err|]; sound_step. Qed.

Lemma step_zadd lvl now (e : engine) db key member score : engine_sound db key e (zadd lvl now e db key member score).1.
Proof.
  apply with_shard_sound, op_sound_typed; [|apply sound_create_sorted_set]. intros. apply sound_insert_member.
Qed.

Lemma step_zincrby lvl now (e : engine) db key member n : engine_sound db key e (zincrby lvl now e db key member n).1.
Proof.
  apply with_shard_sound, op_sound_typed; [|apply sound_create_sorted_set]. intros. apply sound_insert_member.
Qed.

Lemma step_zrem `{!SortedSetSpec ZS} (e : engine) db key member : engine_sound db key e (zrem e db key member).1.
Proof.
  apply with_shard_sound. sound_typed. apply view_sorted_set in Hview.
  destruct (zs_remove x member) as [[z' [o|]]|err|] eqn:E; [|apply zs_remove_absent in E as ->|sound_step..].
  - cbn [fst snd]. destruct (zs_len z' =? 0); sound_step.
  - cbn [fst snd]. rewrite store_same by done. apply sound_refl.
Qed.

(** *** Streams *)

Lemma step_xadd now clk w1 w2 c (e : engine) db key fields : engine_sound db key e (xadd now clk w1 w2 c e db key fields).1.
Proof.
  apply with_shard_sound, op_sound_typed; [intros mm sh sv x Hsv Hview|].
  - destruct (add_auto _ _ _ _ _ _ _) as [[s' c'] i]. sound_step.
  - destruct (add_auto _ _ _ _ _ _ _) as [[s' c'] i]. by apply op_sound_insert_accounted.
Qed.

Lemma add_with_id_refused s i fields msg s' : add_with_id size_entry s i fields = (s', inl msg) -> s' = s.
Proof.
  unfold add_with_id. destruct (sid_le i (last_id s)); [congruence|].
  destruct (SortedVec.binary_search _ _ _); congruence.
Qed.

Lemma step_xadd_with_id now (e : engine) db key i fields : engine_sound db key e (xadd_with_id now e db key i fields).1.
Proof.
  apply with_shard_sound, op_sound_typed; [intros mm sh sv x Hsv Hview|].
  - apply view_stream in Hview. destruct (add_with_id _ _ _ _) as [s' [msg|[]]] eqn:E; [|sound_step].
    apply add_with_id_refused in E as ->. cbn [fst snd]. rewrite store_same by done. apply sound_refl.
  - destruct (add_with_id _ _ _ _) as [s' [msg|[]]]; [apply op_sound_refuse|]. by apply op_sound_insert_accounted.
Qed.

Lemma step_shrink_stream f (e : engine) db key :
  (forall s, (f s).2 = O -> (f s).1 = s) -> engine_sound (ZS:=ZS) db key e (shrink_stream f e db key).1.
Proof.
  intros Hf. apply with_shard_sound. sound_typed. apply view_stream in Hview. pose proof (Hf x) as Hx.
  destruct (f x) as [s' n]. cbn [fst snd] in *.
  apply (sound_value_update key sv (VStream s') (0 <? n)%nat); [done| |done].
  rewrite Nat.ltb_ge, Hview. intros Hn. f_equal. apply Hx. lia.
Qed.

Lemma step_xtrim (e : engine) db key max_len : engine_sound (ZS:=ZS) db key e (xtrim e db key max_len).1.
Proof.
  apply step_shrink_stream. intros s. unfold trim_by_count. destruct (Nat.leb_spec (length (entries s)) max_len); [done|].
  simpl. lia.
Qed.

Lemma step_xdel (e : engine) db key ids : engine_sound (ZS:=ZS) db key e (xdel e db key ids).1.
Proof.
  apply step_shrink_stream. intros s. unfold stream_delete. destruct (delete_loop _ _) as [[l n] freed].
  destruct (Nat.ltb_spec 0 n); simpl; [lia|done].
Qed.
End operations.
