(* ===== verification/EngineSteps.v ===== *)
(** * Histories of the storage engine

    The operations that only read leave the engine as it is; [engine_get] does
    so unless it meets a value that has expired, which it removes.  The steps
    the engine takes on one key, as a relation with a rule for every operation,
    and the steps of the whole store.  Theorems by induction on histories: keys
    do not interfere, no empty collection is at rest, and WATCH detects a
    change. *)

From S2P Require Import Prelude Text Resp StreamId Stream SortedSet Value PubSub Keyspace StringOps ListOps SetOps ZSetOps Scan.
From S2P Require Import KeyspaceProofs CollectionProofs SkipList SortedSetImpl.
From stdpp Require Import relations.

Open Scope Z_scope.

Section reads.
Context {ZS : Type} `{SortedSet ZS} `{Layout} `{HashIter}.
Abbreviation engine := (StorageEngine ZS).
Implicit Types (e : engine) (db : nat) (key : bytes).

Lemma engine_eta e : mkEngine (databases e) (memory_manager e) = e.
Proof. by destruct e. Qed.

Lemma with_shard_same {A} e db key (f : shard_op ZS A) : (forall mm sh, (f mm sh).1 = (mm, sh)) -> (with_shard e db key f).1 = e.
Proof.
  intros Hf. unfold with_shard. destruct (databases e !! db) as [d|] eqn:Hd; [|done].
  destruct (d !! get_shard_index key) as [sh|] eqn:Hsh; [|done]. specialize (Hf (memory_manager e) sh).
  destruct (f (memory_manager e) sh) as [[mm' sh'] r]. simpl in *. injection Hf as -> ->.
  rewrite (list_insert_id _ _ _ Hsh), (list_insert_id _ _ _ Hd). apply engine_eta.
Qed.

Lemma typed_same {X A} (view : Value ZS -> option X) key (some : StoredValue ZS -> X -> shard_op ZS A) none mm sh :
  (forall sv x, (some sv x mm sh).1 = (mm, sh)) -> (none mm sh).1 = (mm, sh) -> (typed_op view key some none mm sh).1 = (mm, sh).
Proof. intros Hs Hn. unfold typed_op. destruct (data sh !! key) as [sv|]; [|done]. by destruct (view (value sv)). Qed.

Ltac same := intros; apply with_shard_same; intros mm sh; first [done | apply typed_same; done].

Lemma key_exists_same now e db key : (key_exists now e db key).1 = e.
Proof. same. Qed.
Lemma key_type_same e db key : (key_type e db key).1 = e.
Proof. same. Qed.
Lemma ttl_same now e db key : (ttl now e db key).1 = e.
Proof. same. Qed.
Lemma pttl_same t1 t2 e db key : (pttl t1 t2 e db key).1 = e.
Proof.
  unfold pttl. pose proof (ttl_same t1 e db key) as Ht. destruct (ttl t1 e db key) as [e1 [[d|]|err|]]; simpl in *; subst; try done.
  pose proof (key_exists_same t2 e db key) as Hk. by destruct (key_exists t2 e db key).
Qed.
Lemma strlen_same e db key : (strlen e db key).1 = e.
Proof. same. Qed.
Lemma getrange_same e db key i j : (getrange e db key i j).1 = e.
Proof. same. Qed.
Lemma llen_same e db key : (llen e db key).1 = e.
Proof. same. Qed.
Lemma lrange_same e db key i j : (lrange e db key i j).1 = e.
Proof. same. Qed.
Lemma lindex_same e db key i : (lindex e db key i).1 = e.
Proof. same. Qed.
Lemma smembers_same e db key : (smembers e db key).1 = e.
Proof. same. Qed.
Lemma sismember_same e db key m : (sismember e db key m).1 = e.
Proof. same. Qed.
Lemma scard_same e db key : (scard e db key).1 = e.
Proof. same. Qed.
Lemma srandmember_same f g e db key n : (srandmember f g e db key n).1 = e.
Proof.
  apply with_shard_same. intros mm sh. apply typed_same; [|done]. intros sv s. cbv beta zeta.
  destruct (set_iter s); [done|]. by destruct (0 <=? n).
Qed.
Lemma hget_same e db key f : (hget e db key f).1 = e.
Proof. same. Qed.
Lemma hmget_same e db key f : (hmget e db key f).1 = e.
Proof. same. Qed.
Lemma hgetall_same e db key : (hgetall e db key).1 = e.
Proof. same. Qed.
Lemma hkeys_same e db key : (hkeys e db key).1 = e.
Proof. same. Qed.
Lemma hvals_same e db key : (hvals e db key).1 = e.
Proof. same. Qed.
Lemma hlen_same e db key : (hlen e db key).1 = e.
Proof. same. Qed.
Lemma hexists_same e db key f : (hexists e db key f).1 = e.
Proof. same. Qed.
Lemma zscore_same e db key m : (zscore e db key m).1 = e.
Proof. same. Qed.
Lemma zrank_same e db key m b : (zrank e db key m b).1 = e.
Proof. same. Qed.
Lemma zrange_same e db key i j b : (zrange e db key i j b).1 = e.
Proof. same. Qed.
Lemma zrangebyscore_same e db key a z b : (zrangebyscore e db key a z b).1 = e.
Proof. same. Qed.
Lemma zcount_same e db key a z : (zcount e db key a z).1 = e.
Proof.
  unfold zcount. pose proof (zrangebyscore_same e db key a z false) as Hz. by destruct (zrangebyscore e db key a z false).
Qed.
Lemma zcard_same e db key : (zcard e db key).1 = e.
Proof. same. Qed.
Lemma xrange_dir_same b e db key i j n : (xrange_dir b e db key i j n).1 = e.
Proof. same. Qed.
Lemma xrange_same e db key i j n : (xrange e db key i j n).1 = e.
Proof. apply xrange_dir_same. Qed.
Lemma xrevrange_same e db key i j n : (xrevrange e db key i j n).1 = e.
Proof. apply xrange_dir_same. Qed.
Lemma xlen_same e db key : (xlen e db key).1 = e.
Proof. same. Qed.
Lemma was_modified_same now e db key b : (was_modified_since now e db key b).1 = e.
Proof. same. Qed.
Lemma get_modification_counter_same e db key : (get_modification_counter e db key).1 = e.
Proof. same. Qed.

(** What [get] is followed by in the readers that use it. *)
Lemma get_string_state now e db key : (get_string now e db key).1 = (engine_get now e db key).1.
Proof. unfold get_string. by destruct (engine_get now e db key). Qed.

Lemma scan_get_state {X A} now (view : Value ZS -> option X) e db key (f : X -> outcome (Z * list A)) :
  (scan_get now view e db key f).1 = (engine_get now e db key).1.
Proof. unfold scan_get. by destruct (engine_get now e db key) as [e' [[]| |]]. Qed.

Lemma hscan_state now e db key c p n b : (hscan now e db key c p n b).1 = (engine_get now e db key).1.
Proof. apply scan_get_state. Qed.
Lemma sscan_state now e db key c p n : (sscan now e db key c p n).1 = (engine_get now e db key).1.
Proof. apply scan_get_state. Qed.
Lemma zscan_state now e db key c p n : (zscan now e db key c p n).1 = (engine_get now e db key).1.
Proof. apply scan_get_state. Qed.
End reads.

Create Rewrite HintDb reads.
#[export] Hint Rewrite @key_exists_same @key_type_same @ttl_same @pttl_same @strlen_same @getrange_same @llen_same @lrange_same
  @lindex_same @smembers_same @sismember_same @scard_same @srandmember_same @hget_same @hmget_same @hgetall_same @hkeys_same
  @hvals_same @hlen_same @hexists_same @zscore_same @zrank_same @zrange_same @zrangebyscore_same @zcount_same @zcard_same
  @xrange_same @xrevrange_same @xlen_same @was_modified_same @get_modification_counter_same @get_string_state @hscan_state @sscan_state
  @zscan_state : reads.

(** ** Steps *)

Section steps.
Context {ZS : Type} `{SortedSet ZS} `{Layout} `{HashIter}.
Abbreviation engine := (StorageEngine ZS).

(** What the cleaner does to one key it collected, under the shard's lock. *)
Definition clean_key (e : engine) (db : nat) (key : bytes) : engine * outcome unit :=
  with_shard e db key (fun mm sh => let '(mm', sh') := cleanup_one (mm, sh) key in (mm', sh', Ok tt)).

(** The operations that may change the store, with what the command handlers
    guarantee of their arguments: there is an element to push, add or set. *)
Inductive key_step (db : nat) (key : bytes) (e : engine) : engine -> Prop :=
  | ks_set_value now v expires_in : nonempty v -> key_step db key e (set_value now e db key v expires_in).1
  | ks_set_nx now v : key_step db key e (set_string_nx now e db key v).1
  | ks_set_nx_ex t1 t2 t3 v d : key_step db key e (set_string_nx_ex t1 t2 t3 e db key v d).1
  | ks_get now : key_step db key e (engine_get now e db key).1
  | ks_delete : key_step db key e (delete_key e db key).1
  | ks_expire t1 t2 d : key_step db key e (expire t1 t2 e db key d).1
  | ks_persist : key_step db key e (persist e db key).1
  | ks_clean : key_step db key e (clean_key e db key).1
  | ks_incr_by now n : key_step db key e (incr_by now e db key n).1
  | ks_append now v : key_step db key e (append now e db key v).1
  | ks_setrange now offset v : key_step db key e (setrange now e db key offset v).1
  | ks_lpush now l : l <> [] -> key_step db key e (lpush now e db key l).1
  | ks_rpush now l : l <> [] -> key_step db key e (rpush now e db key l).1
  | ks_lpop : key_step db key e (lpop e db key).1
  | ks_rpop : key_step db key e (rpop e db key).1
  | ks_lset i v : key_step db key e (lset e db key i v).1
  | ks_ltrim start stop : key_step db key e (ltrim e db key start stop).1
  | ks_lrem count v : key_step db key e (lrem e db key count v).1
  | ks_sadd now l : l <> [] -> key_step db key e (sadd now e db key l).1
  | ks_srem l : key_step db key e (srem e db key l).1
  | ks_spop shuffle count : key_step db key e (spop shuffle e db key count).1
  | ks_hset now l : l <> [] -> key_step db key e (hset now e db key l).1
  | ks_hdel l : key_step db key e (hdel e db key l).1
  | ks_hincrby now field n : key_step db key e (hincrby now e db key field n).1
  | ks_zadd lvl now m v : key_step db key e (zadd lvl now e db key m v).1
  | ks_zincrby lvl now m v : key_step db key e (zincrby lvl now e db key m v).1
  | ks_zrem m : key_step db key e (zrem e db key m).1
  | ks_xadd now clk w1 w2 c fields : key_step db key e (xadd now clk w1 w2 c e db key fields).1
  | ks_xadd_with_id now i fields : key_step db key e (xadd_with_id now e db key i fields).1
  | ks_xtrim n : key_step db key e (xtrim e db key n).1
  | ks_xdel ids : key_step db key e (xdel e db key ids).1.

(** The steps of the store: those, and the ones of WATCH, RENAME, FLUSHDB and the
    consumer groups;
    [unwatch] tells whether a watch may be unregistered. *)
Inductive store_step (unwatch : bool) (e : engine) : engine -> Prop :=
  | ss_key db key e' : key_step db key e e' -> store_step unwatch e e'
  | ss_watch db key : store_step unwatch e (register_watch e db key).1
  | ss_unwatch db key : unwatch = true -> store_step unwatch e (unregister_watch e db key).1
  | ss_rename db old_key new_key : store_step unwatch e (rename e db old_key new_key).1
  | ss_flush db : store_step unwatch e (flush_db e db).1
  | ss_groups db key g : store_step unwatch e (set_groups e db key g).1.

Lemma step_clean (e : engine) db key : engine_sound db key e (clean_key e db key).1.
Proof.
  apply with_shard_sound. intros mm sh. simpl. destruct (data sh !! key) as [sv|] eqn:Hsv; [|apply sound_refl].
  cbn [fst snd]. apply sound_marked; [auto with touches|done|intros _; apply (nonempty_remove key)].
Qed.

Context `{!SortedSetSpec ZS}.

Lemma key_step_sound db key e e' : key_step db key e e' -> engine_sound db key e e'.
Proof.
  destruct 1; eauto using step_set_value, step_set_string_nx, step_set_string_nx_ex, step_get, step_delete, step_expire,
    step_persist, step_clean, step_incr_by, step_append, step_setrange.
  all: eauto using step_lpush, step_rpush, step_lpop, step_rpop, step_lset, step_ltrim, step_lrem.
  all: eauto using step_sadd, step_srem, step_spop, step_hset, step_hdel, step_hincrby.
  all: eauto using step_zadd, step_zincrby, step_zrem, step_xadd, step_xadd_with_id, step_xtrim, step_xdel.
Qed.

(** ** Cells *)

Definition shard_at (e : engine) (db : nat) (key : bytes) : option (DatabaseShard ZS) :=
  databases e !! db ≫= fun d => d !! get_shard_index key.

(** All that the store knows of a key. *)
Record cell := mkCell {
  c_stored : option (StoredValue ZS);
  c_expiry : option Z;
  c_counter : Z;
}.

Definition cell_of (key : bytes) (sh : DatabaseShard ZS) : cell :=
  mkCell (data sh !! key) (expiring_keys sh !! key) (get_key_counter (watch_tracker sh) key).

Definition cell_at (e : engine) (db : nat) (key : bytes) : option cell := cell_of key <$> shard_at e db key.

Lemma shard_at_put e db key d sh' mm db' k' sh :
  databases e !! db = Some d -> d !! get_shard_index key = Some sh ->
  shard_at (mkEngine (<[db := <[get_shard_index key := sh']> d]> (databases e)) mm) db' k'
  = if decide (db' = db /\ get_shard_index k' = get_shard_index key) then Some sh' else shard_at e db' k'.
Proof.
  intros Hd Hsh. unfold shard_at. simpl. pose proof (lookup_lt_Some _ _ _ Hd). pose proof (lookup_lt_Some _ _ _ Hsh).
  destruct (decide (db' = db)) as [->|Hne].
  - rewrite list_lookup_insert_eq by done. simpl.
    destruct (decide (get_shard_index k' = get_shard_index key)) as [->|Hne].
    + rewrite list_lookup_insert_eq by done. by rewrite decide_True.
    + rewrite list_lookup_insert_ne by done. rewrite decide_False by tauto. by rewrite Hd.
  - rewrite list_lookup_insert_ne by done. rewrite decide_False by tauto. done.
Qed.

Lemma counter_mark_ne t key k : k <> key -> get_key_counter (mark_key_modified t key) k = get_key_counter t k.
Proof.
  intros Hne. unfold mark_key_modified, get_key_counter. destruct (_ =? _); [done|]. simpl.
  by rewrite lookup_insert_ne.
Qed.

Lemma engine_sound_shard db key e e' db' k' :
  engine_sound db key e e' ->
  shard_at e' db' k' = shard_at e db' k'
  \/ exists sh sh', db' = db /\ get_shard_index k' = get_shard_index key
       /\ shard_at e db' k' = Some sh /\ shard_at e' db' k' = Some sh' /\ sound key sh sh'.
Proof.
  intros [E|(d & sh & sh' & Hd & Hsh & E & Hs)]; [left; unfold shard_at; by rewrite E|].
  destruct (decide (db' = db /\ get_shard_index k' = get_shard_index key)) as [[-> Hk]|Hne].
  - right. exists sh, sh'. split_and!; auto; unfold shard_at; rewrite ?E, Hk.
    + by rewrite Hd.
    + rewrite list_lookup_insert_eq by eauto using lookup_lt_Some. simpl.
      by rewrite list_lookup_insert_eq by eauto using lookup_lt_Some.
  - left. pose proof (shard_at_put e db key d sh' (memory_manager e) db' k' sh Hd Hsh) as Hp.
    rewrite decide_False in Hp by done. rewrite <- Hp. unfold shard_at. simpl. by rewrite E.
Qed.

Lemma key_step_other (db : nat) (key : bytes) (e e' : engine) (db' : nat) (k' : bytes) :
  key_step db key e e' -> (db', k') <> (db, key) -> cell_at e' db' k' = cell_at e db' k'.
Proof.
  intros Hstep%key_step_sound Hother. unfold cell_at.
  destruct (engine_sound_shard db key e e' db' k' Hstep) as [->|(sh & sh' & -> & Hk & -> & -> & [Ht Hw _ _])]; [done|].
  assert (Hne : k' <> key) by congruence. simpl. f_equal. unfold cell_of. destruct (Ht k' Hne) as [-> ->]. f_equal.
  destruct Hw as [->| ->]; [done|]. by apply counter_mark_ne.
Qed.

(** C20. Keys do not interfere: an operation on one key of one database leaves
    the value, the metadata, the expiry and the WATCH counter of every other
    key of every database as they were, also of the keys of the same shard. *)
Theorem keys_isolated (db : nat) (key : bytes) (e e' : engine) (Hstep : key_step db key e e')
    (db' : nat) (k' : bytes) (Hother : (db', k') <> (db, key)) :
  cell_at e' db' k' = cell_at e db' k'.
Proof. by apply (key_step_other db key). Qed.

(** *** Empty collections *)

Definition no_empty (e : engine) : Prop :=
  forall db k sh, shard_at e db k = Some sh -> nonempty_at sh k.

Lemma key_step_no_empty db key e e' : key_step db key e e' -> no_empty e -> no_empty e'.
Proof.
  intros Hstep%key_step_sound He db' k' sh'. intros Hsh'.
  destruct (engine_sound_shard db key e e' db' k' Hstep) as [E|(sh & sh2 & -> & Hk & E & E' & [Ht Hw Hn _])].
  - apply (He db' k'). congruence.
  - assert (sh2 = sh') as -> by congruence. destruct (decide (k' = key)) as [->|Hne].
    + apply Hn. by apply (He db).
    + unfold nonempty_at, value_at. destruct (Ht k' Hne) as [-> _]. by apply (He db k').
Qed.
(** *** The other steps *)

(** What a step does to the counters of WATCH of a shard. *)
Inductive tracker_step (unwatch : bool) (t : ShardWatchTracker) : ShardWatchTracker -> Prop :=
  | ts_same : tracker_step unwatch t t
  | ts_mark key : tracker_step unwatch t (mark_key_modified t key)
  | ts_register key : tracker_step unwatch t (tracker_register t key).1
  | ts_unregister : unwatch = true -> tracker_step unwatch t (tracker_unregister t).

Lemma with_shard_at {A} (e : engine) db key (f : shard_op ZS A) db' k' :
  shard_at (with_shard e db key f).1 db' k' = shard_at e db' k'
  \/ exists sh, db' = db /\ get_shard_index k' = get_shard_index key /\ shard_at e db' k' = Some sh
       /\ shard_at (with_shard e db key f).1 db' k' = Some (f (memory_manager e) sh).1.2.
Proof.
  unfold with_shard. destruct (databases e !! db) as [d|] eqn:Hd; [|by left].
  destruct (d !! get_shard_index key) as [sh|] eqn:Hsh; [|by left].
  destruct (f (memory_manager e) sh) as [[mm' sh'] r] eqn:Ef. simpl.
  rewrite (shard_at_put _ _ _ _ _ _ _ _ _ Hd Hsh). case_decide as Hk; [|by left].
  destruct Hk as [-> Hk]. right. exists sh. rewrite Ef. split_and!; auto.
  unfold shard_at. by rewrite Hd, Hk.
Qed.

Lemma flush_at (e : engine) db db' k' :
  shard_at (flush_db e db).1 db' k'
  = (if decide (db' = db) then fun sh => mkShard ∅ ∅ (watch_tracker sh) else id) <$> shard_at e db' k'.
Proof.
  unfold flush_db, shard_at. destruct (databases e !! db) as [d|] eqn:Hd; simpl.
  - destruct (decide (db' = db)) as [->|Hne].
    + rewrite list_lookup_insert_eq by eauto using lookup_lt_Some. rewrite Hd. simpl.
      by rewrite list_lookup_fmap.
    + rewrite list_lookup_insert_ne by done. by destruct (databases e !! db' ≫= _).
  - destruct (decide (db' = db)) as [->|Hne]; [by rewrite Hd|]. by destruct (databases e !! db' ≫= _).
Qed.

(** The shard of the new key is marked, that of the old one is not. *)
Lemma rename_at (e : engine) db old_key new_key db' k' sh :
  shard_at e db' k' = Some sh ->
  exists sh', shard_at (rename e db old_key new_key).1 db' k' = Some sh'
    /\ (watch_tracker sh' = watch_tracker sh \/ watch_tracker sh' = mark_key_modified (watch_tracker sh) new_key)
    /\ (forall k, data sh' !! k = data sh !! k \/ data sh' !! k = None
               \/ (k = new_key /\ exists sh0, shard_at e db old_key = Some sh0 /\ data sh' !! k = data sh0 !! old_key)).
Proof.
  intros Hat. unfold rename. destruct (databases e !! db) as [d|] eqn:Hd; [|by exists sh; auto].
  destruct (d !! get_shard_index old_key) as [a|] eqn:Ha; [|by exists sh; auto].
  destruct (d !! get_shard_index new_key) as [b|] eqn:Hb; [|by exists sh; auto].
  destruct (data a !! old_key) as [sv|] eqn:Hsv; [|by exists sh; auto]. simpl.
  assert (Hold : shard_at e db old_key = Some a) by (unfold shard_at; by rewrite Hd).
  destruct (decide (db' = db)) as [->|Hne].
  2: { exists sh. split; [|auto]. rewrite <- Hat. unfold shard_at. simpl. by rewrite list_lookup_insert_ne. }
  unfold shard_at in Hat |- *. rewrite Hd in Hat. simpl in Hat |- *.
  rewrite list_lookup_insert_eq by eauto using lookup_lt_Some. simpl.
  assert (Hdel : forall k, delete old_key (data a) !! k = data a !! k \/ delete old_key (data a) !! k = None).
  { intros k. destruct (decide (k = old_key)) as [->|]; [right; apply lookup_delete_eq|left; by apply lookup_delete_ne]. }
  assert (Hnew : forall c k, <[new_key := sv]> (c : gmap bytes (StoredValue ZS)) !! k = c !! k
            \/ (k = new_key /\ exists sh0, (databases e !! db ≫= fun d => d !! get_shard_index old_key) = Some sh0
                 /\ <[new_key := sv]> c !! k = data sh0 !! old_key)).
  { intros c k. destruct (decide (k = new_key)) as [->|]; [right|left; by rewrite lookup_insert_ne].
    split; [done|]. exists a. by rewrite lookup_insert_eq, Hd. }
  pose proof (lookup_lt_Some _ _ _ Ha). pose proof (lookup_lt_Some _ _ _ Hb).
  case_decide as Hij.
  - destruct (decide (get_shard_index k' = get_shard_index old_key)) as [Hk|Hk].
    + rewrite Hk, list_lookup_insert_eq by done. eexists. split; [done|]. rewrite Hk, Ha in Hat. injection Hat as <-.
      split; [by right|]. intros k. simpl. destruct (Hnew (delete old_key (data a)) k) as [->|?]; [|auto].
      destruct (Hdel k); auto.
    + rewrite list_lookup_insert_ne by done. exists sh. auto.
  - destruct (decide (get_shard_index k' = get_shard_index new_key)) as [Hk|Hk].
    + rewrite Hk, list_lookup_insert_eq by (by rewrite length_insert). eexists. split; [done|].
      rewrite Hk, Hb in Hat. injection Hat as <-. split; [by right|]. intros k. simpl. destruct (Hnew (data b) k); auto.
    + rewrite list_lookup_insert_ne by done. destruct (decide (get_shard_index k' = get_shard_index old_key)) as [Hk'|Hk'].
      * rewrite Hk', list_lookup_insert_eq by done. eexists. split; [done|]. rewrite Hk', Ha in Hat. injection Hat as <-.
        split; [by left|]. intros k. simpl. destruct (Hdel k); auto.
      * rewrite list_lookup_insert_ne by done. exists sh. auto.
Qed.

(** The groups of a stream: no counter moves, and a value that changes is a stream. *)
Lemma set_groups_at (e : engine) db key g db' k' :
  shard_at (set_groups e db key g).1 db' k' = shard_at e db' k'
  \/ exists sh sh', shard_at e db' k' = Some sh /\ shard_at (set_groups e db key g).1 db' k' = Some sh'
       /\ watch_tracker sh' = watch_tracker sh
       /\ forall k, value_at sh' k = value_at sh k \/ exists s, value_at sh' k = Some (VStream s).
Proof.
  unfold set_groups.
  match goal with |- context [with_shard e db key ?f] => destruct (with_shard_at e db key f db' k') as [E|(sh & -> & _ & E & E')] end;
    [by left|right].
  destruct (data sh !! key) as [sv|] eqn:Hsv; [|by exists sh, sh; auto].
  destruct (value sv) eqn:Hv; try (by exists sh, sh; auto).
  eexists sh, _. split_and!; [done|exact E'|done|]. intros k. unfold value_at. simpl.
  destruct (decide (k = key)) as [->|Hne]; [right|left; by rewrite lookup_insert_ne].
  rewrite lookup_insert_eq. by eexists.
Qed.

(** Every step keeps the shards, and moves their counters in one of four ways. *)
Lemma store_step_tracker u e e' db k sh :
  store_step u e e' -> shard_at e db k = Some sh ->
  exists sh', shard_at e' db k = Some sh' /\ tracker_step u (watch_tracker sh) (watch_tracker sh').
Proof.
  intros Hstep Hsh. destruct Hstep as [db0 key e' Hk|db0 key|db0 key Hu|db0 old_key new_key|db0|db0 key g].
  - apply key_step_sound in Hk. destruct (engine_sound_shard db0 key e e' db k Hk) as [E|(s1 & s2 & -> & _ & E & E' & [_ Hw _ _])].
    + exists sh. rewrite E. split; [done|constructor].
    + exists s2. split; [done|]. assert (s1 = sh) as -> by congruence. destruct Hw as [->| ->]; constructor.
  - unfold register_watch. match goal with |- context [with_shard e db0 key ?f] => destruct (with_shard_at e db0 key f db k) as [E|(s1 & -> & _ & E & E')] end.
    + exists sh. rewrite E. split; [done|constructor].
    + eexists. split; [exact E'|]. assert (s1 = sh) as -> by congruence. apply (ts_register u (watch_tracker sh) key).
  - unfold unregister_watch. match goal with |- context [with_shard e db0 key ?f] => destruct (with_shard_at e db0 key f db k) as [E|(s1 & -> & _ & E & E')] end.
    + exists sh. rewrite E. split; [done|constructor].
    + eexists. split; [exact E'|]. assert (s1 = sh) as -> by congruence. by apply (ts_unregister u (watch_tracker sh)).
  - destruct (rename_at e db0 old_key new_key db k sh Hsh) as (sh' & E & Hw & _). exists sh'. split; [done|].
    destruct Hw as [->| ->]; constructor.
  - rewrite flush_at, Hsh. eexists. split; [done|]. destruct (decide (db = db0)); constructor.
  - destruct (set_groups_at e db0 key g db k) as [E|(s1 & s2 & E & E' & Hw & _)].
    + exists sh. rewrite E. split; [done|constructor].
    + exists s2. split; [done|]. assert (s1 = sh) as -> by congruence. rewrite Hw. constructor.
Qed.

Definition shape (e : engine) : list nat := map length (databases e).

Lemma shard_at_shape (e : engine) db k :
  is_Some (shard_at e db k) <-> exists n, shape e !! db = Some n /\ (get_shard_index k < n)%nat.
Proof.
  unfold shard_at, shape. rewrite list_lookup_fmap. destruct (databases e !! db) as [d|]; simpl.
  - rewrite lookup_lt_is_Some. naive_solver.
  - split; [by intros [? ?]|naive_solver].
Qed.

Lemma start_shard nd mm db key : (db < nd)%nat -> shard_at (with_config nd mm) db key = Some shard_new.
Proof.
  intros Hdb. unfold shard_at, with_config. simpl. rewrite lookup_replicate_2 by done. simpl. apply lookup_replicate_2.
  unfold get_shard_index. pose proof (Z.mod_pos_bound (fnv1a key) (Z.of_nat SHARDS_PER_DATABASE) ltac:(done)). lia.
Qed.

Lemma insert_shape (dbs : list (list (DatabaseShard ZS))) db d d' :
  dbs !! db = Some d -> length d' = length d -> map length (<[db := d']> dbs) = map length dbs.
Proof.
  intros Hd Hl. rewrite list_fmap_insert. apply list_insert_id. rewrite list_lookup_fmap, Hd. simpl. by rewrite Hl.
Qed.

Lemma rename_shape (e : engine) db old_key new_key : shape (rename e db old_key new_key).1 = shape e.
Proof.
  unfold rename. destruct (databases e !! db) as [d|] eqn:Hd; [|done].
  destruct (d !! _); [|done]. destruct (d !! get_shard_index new_key); [|done].
  destruct (data _ !! old_key); [|done]. apply insert_shape with d; [done|]. case_decide; by rewrite !length_insert.
Qed.

Lemma with_shard_shape {A} (e : engine) db key (f : shard_op ZS A) : shape (with_shard e db key f).1 = shape e.
Proof.
  unfold with_shard. destruct (databases e !! db) as [d|] eqn:Hd; [|done]. destruct (d !! _); [|done].
  destruct (f _ _) as [[? ?] ?]. apply insert_shape with d; [done|]. by rewrite length_insert.
Qed.

Lemma store_step_shape u e e' : store_step u e e' -> shape e' = shape e.
Proof.
  destruct 1 as [db0 key e' Hk|db0 key|db0 key Hu|db0 old_key new_key|db0|db0 key g].
  - apply key_step_sound in Hk as [E|(d & sh & sh' & Hd & _ & E & _)]; unfold shape; rewrite E; [done|].
    apply insert_shape with d; [done|]. by rewrite length_insert.
  - apply with_shard_shape.
  - apply with_shard_shape.
  - apply rename_shape.
  - unfold flush_db. destruct (databases e !! db0) as [d|] eqn:Hd; [|done]. apply insert_shape with d; [done|].
    by rewrite length_map.
  - apply with_shard_shape.
Qed.

Lemma store_step_no_empty u e e' : store_step u e e' -> no_empty e -> no_empty e'.
Proof.
  intros Hstep He. destruct Hstep as [db0 key e' Hk|db0 key|db0 key Hu|db0 old_key new_key|db0|db0 key g].
  - by eapply key_step_no_empty.
  - intros db k sh. unfold register_watch. match goal with |- context [with_shard e db0 key ?f] => destruct (with_shard_at e db0 key f db k) as [->|(s1 & -> & _ & E & ->)] end;
      [apply He|]. intros [= <-]. by apply (He _ _ _ E).
  - intros db k sh. unfold unregister_watch. match goal with |- context [with_shard e db0 key ?f] => destruct (with_shard_at e db0 key f db k) as [->|(s1 & -> & _ & E & ->)] end;
      [apply He|]. intros [= <-]. by apply (He _ _ _ E).
  - intros db k sh Hsh.
    destruct (shard_at e db k) as [sh0|] eqn:E0.
    + destruct (rename_at e db0 old_key new_key db k sh0 E0) as (sh' & E & _ & Hdata). assert (sh' = sh) as -> by congruence.
      pose proof (He _ _ _ E0) as Hne. unfold nonempty_at, value_at in *.
      destruct (Hdata k) as [->|[->|(-> & s2 & Hs2 & ->)]]; [done|done|]. by apply (He _ _ _ Hs2).
    + exfalso. apply (is_Some_None (A := DatabaseShard ZS)). rewrite <- E0. apply shard_at_shape.
      rewrite <- (rename_shape e db0 old_key new_key). apply shard_at_shape. eauto.
  - intros db k sh. rewrite flush_at. destruct (shard_at e db k) as [s0|] eqn:E; [|done]. simpl. intros [= <-].
    destruct (decide (db = db0)); [done|]. by apply (He _ _ _ E).
  - intros db k sh Hsh. destruct (set_groups_at e db0 key g db k) as [E|(s1 & s2 & E & E' & _ & Hv)].
    + apply (He db k). congruence.
    + assert (s2 = sh) as -> by congruence. unfold nonempty_at. destruct (Hv k) as [->|[x ->]]; [|done].
      by apply (He db k).
Qed.

(** ** Histories *)

(** Counters are at most the last one handed out. *)
Definition tracker_ok (t : ShardWatchTracker) : Prop := forall k, 0 <= get_key_counter t k <= global_counter t.

Lemma tracker_step_ok u t t' :
  tracker_step u t t' -> tracker_ok t -> global_counter t < u64_max ->
  tracker_ok t' /\ global_counter t <= global_counter t' <= global_counter t + 1
  /\ forall k, get_key_counter t k <= get_key_counter t' k.
Proof.
  intros Hs Ht Hb.
  assert (Hsame : tracker_ok t /\ global_counter t <= global_counter t <= global_counter t + 1
                  /\ forall k, get_key_counter t k <= get_key_counter t k) by (split_and!; [done|lia..|done]).
  destruct Hs as [|key|key|_]; try exact Hsame.
  - unfold mark_key_modified. destruct (active_watchers t =? 0); [exact Hsame|].
    pose proof (Ht key) as Hk. rewrite u64_wrap_small by (unfold in_u64; lia).
    assert (Hc : forall k, get_key_counter (mkTracker (active_watchers t) (<[key := global_counter t + 1]> (key_counters t))
                                           (global_counter t + 1)) k
                 = if decide (k = key) then global_counter t + 1 else get_key_counter t k).
    { intros k. unfold get_key_counter. simpl. case_decide as E; [subst; by rewrite lookup_insert_eq|].
      by rewrite lookup_insert_ne. }
    split_and!; simpl; [|lia..|]; intros k; rewrite Hc; pose proof (Ht k); case_decide; simpl; lia.
Qed.

Definition trackers_ok (n : nat) (e : engine) : Prop :=
  forall db k sh, shard_at e db k = Some sh ->
    tracker_ok (watch_tracker sh) /\ global_counter (watch_tracker sh) <= Z.of_nat n.

(** A store that never held anything. *)
Lemma with_config_shard nd mm db k sh : shard_at (with_config nd mm) db k = Some sh -> sh = shard_new.
Proof.
  unfold shard_at, with_config. simpl. destruct (replicate nd database_new !! db) as [d|] eqn:Hd; [|done].
  apply lookup_replicate in Hd as [-> _]. simpl. unfold database_new. by intros [-> _]%lookup_replicate.
Qed.

Lemma trackers_ok_step u n e e' :
  store_step u e e' -> Z.of_nat (S n) <= u64_max -> trackers_ok n e -> trackers_ok (S n) e'.
Proof.
  intros Hstep Hn He db k sh' Hsh'.
  destruct (shard_at e db k) as [sh|] eqn:E.
  - destruct (store_step_tracker u e e' db k sh Hstep E) as (s1 & E1 & Ht). assert (s1 = sh') as -> by congruence.
    destruct (He db k sh E) as [Hok Hle]. destruct (tracker_step_ok u _ _ Ht Hok) as (Hok' & Hle' & _); [lia|].
    split; [done|lia].
  - exfalso. apply (is_Some_None (A := DatabaseShard ZS)). rewrite <- E. apply shard_at_shape.
    rewrite <- (store_step_shape u e e' Hstep). apply shard_at_shape. eauto.
Qed.

Lemma trackers_ok_run u n m e e' :
  nsteps (store_step u) n e e' -> Z.of_nat (m + n) <= u64_max -> trackers_ok m e -> trackers_ok (m + n) e'.
Proof.
  intros Hs. revert m. induction Hs as [e|n e1 e2 e3 Hstep Hs IH]; intros m Hb He; [by rewrite Nat.add_0_r|].
  rewrite Nat.add_succ_r. apply (IH (S m)); [lia|]. eapply trackers_ok_step; [done|lia|done].
Qed.

(** Counters only grow along a run. *)
Lemma counters_grow u n m e e' db k sh :
  nsteps (store_step u) n e e' -> Z.of_nat (m + n) <= u64_max -> trackers_ok m e -> shard_at e db k = Some sh ->
  exists sh', shard_at e' db k = Some sh'
    /\ global_counter (watch_tracker sh) <= global_counter (watch_tracker sh')
    /\ forall k', get_key_counter (watch_tracker sh) k' <= get_key_counter (watch_tracker sh') k'.
Proof.
  intros Hs. revert m sh. induction Hs as [e|n e1 e2 e3 Hstep Hs IH]; intros m sh Hb He Hsh.
  { exists sh. split_and!; [done|lia|done]. }
  destruct (store_step_tracker u e1 e2 db k sh Hstep Hsh) as (s1 & E1 & Ht). destruct (He db k sh Hsh) as [Hok Hle].
  destruct (tracker_step_ok u _ _ Ht Hok) as (Hok' & Hle' & Hc); [lia|].
  destruct (IH (S m) s1) as (sh' & E' & Hg & Hc'); [lia|eapply trackers_ok_step; [done|lia|done]|done|].
  exists sh'. split_and!; [done|lia|]. intros k'. etrans; eauto.
Qed.

(** Watchers stay registered while none unregisters. *)
Lemma watchers_stay n e e' db k sh :
  nsteps (store_step false) n e e' -> shard_at e db k = Some sh ->
  0 < active_watchers (watch_tracker sh) -> active_watchers (watch_tracker sh) + Z.of_nat n <= u64_max ->
  exists sh', shard_at e' db k = Some sh' /\ 0 < active_watchers (watch_tracker sh').
Proof.
  intros Hs. revert sh. induction Hs as [e|n e1 e2 e3 Hstep Hs IH]; intros sh Hsh Hpos Hb; [by exists sh|].
  destruct (store_step_tracker false e1 e2 db k sh Hstep Hsh) as (s1 & E1 & Ht). apply (IH s1 E1).
  all: destruct Ht as [|key|key|]; simpl; try done; try lia; unfold mark_key_modified;
    try (destruct (_ =? 0); simpl; lia); rewrite u64_wrap_small; unfold in_u64; lia.
Qed.

Lemma no_empty_run u n e e' : nsteps (store_step u) n e e' -> no_empty e -> no_empty e'.
Proof. induction 1; eauto using store_step_no_empty. Qed.

Lemma no_empty_start nd mm : no_empty (with_config nd mm).
Proof. intros db k sh ->%with_config_shard. done. Qed.

Lemma trackers_ok_start nd mm : trackers_ok 0 (with_config nd mm).
Proof. intros db k sh ->%with_config_shard. split; [|done]. intros k'. done. Qed.
End steps.

(** SET of one key next to another key of the same shard. *)
Lemma keys_isolated_witness :
  let _ := example_layout in
  let e := (set_string 1 (with_config (ZS:=SkipList) 1 unlimited) 0 (B "a") (B "1")).1 in
  get_shard_index (B "a") = get_shard_index (B "q")
  /\ cell_at (set_string 2 e 0 (B "q") (B "2")).1 0 (B "a") = cell_at e 0 (B "a")
  /\ (c_stored <$> cell_at e 0 (B "a")) = Some (Some (mkStored (VString (B "1")) (mkMeta None 1 1 Raw))).
Proof.
  intros lay e. split; [vm_compute; reflexivity|]. split; [|vm_compute; reflexivity].
  apply (keys_isolated (H1 := default_iter) 0 (B "q")); [|intros E; discriminate E].
  apply (ks_set_value (H1 := default_iter) 0 (B "q") e 2 (VString (B "2")) None I).
Defined.
