(* ===== verification/EngineWatch.v ===== *)
(** * WATCH and the invariants of engine histories

    Theorems on histories that start from an empty store, and the places where
    a change escapes WATCH. *)

From S2P Require Import Prelude Text Resp StreamId Stream SortedSet Value PubSub Keyspace StringOps ListOps SetOps ZSetOps Scan.
From S2P Require Import KeyspaceProofs CollectionProofs EngineSteps SkipList SortedSetImpl.
From stdpp Require Import relations.

Open Scope Z_scope.

Section rename.
Context {ZS : Type} `{SortedSet ZS} `{Layout}.
Abbreviation engine := (StorageEngine ZS).

(** What RENAME makes of every shard. *)
Lemma rename_shards (e : engine) db old_key new_key a b sv db' k' :
  shard_at e db old_key = Some a -> shard_at e db new_key = Some b -> data a !! old_key = Some sv ->
  (rename e db old_key new_key).2 = Ok tt
  /\ shard_at (rename e db old_key new_key).1 db' k'
     = if decide (db' = db) then
         if decide (get_shard_index old_key = get_shard_index new_key) then
           if decide (get_shard_index k' = get_shard_index old_key)
           then Some (mark_modified new_key (data_insert new_key sv (data_remove old_key a))) else shard_at e db' k'
         else if decide (get_shard_index k' = get_shard_index new_key)
           then Some (mark_modified new_key (data_insert new_key sv b))
         else if decide (get_shard_index k' = get_shard_index old_key) then Some (data_remove old_key a)
         else shard_at e db' k'
       else shard_at e db' k'.
Proof.
  unfold rename, shard_at. destruct (databases e !! db) as [d|] eqn:Hd; [|done]. simpl. intros Ha Hb Hsv.
  rewrite Ha, Hb, Hsv. split; [done|]. simpl. pose proof (lookup_lt_Some _ _ _ Ha). pose proof (lookup_lt_Some _ _ _ Hb).
  destruct (decide (db' = db)) as [->|Hne]; [|by rewrite list_lookup_insert_ne].
  rewrite list_lookup_insert_eq by eauto using lookup_lt_Some. simpl. rewrite Hd. simpl.
  destruct (decide (get_shard_index old_key = get_shard_index new_key)) as [Hij|Hij].
  - case_decide as Hk; [rewrite Hk; by apply list_lookup_insert_eq|by apply list_lookup_insert_ne].
  - case_decide as Hk; [rewrite Hk; apply list_lookup_insert_eq; by rewrite length_insert|].
    rewrite list_lookup_insert_ne by done.
    case_decide as Hk'; [rewrite Hk'; by apply list_lookup_insert_eq|by apply list_lookup_insert_ne].
Qed.

End rename.

Section watch.
Context {ZS : Type} `{SortedSet ZS} `{Layout} `{HashIter} `{!SortedSetSpec ZS}.
Abbreviation engine := (StorageEngine ZS).

(** The value of a key. *)
Definition value_of (e : engine) (db : nat) (key : bytes) : option (Value ZS) :=
  shard_at e db key ≫= fun sh => value_at sh key.

Lemma with_shard_result {A} (e : engine) db key (f : shard_op ZS A) sh :
  shard_at e db key = Some sh -> (with_shard e db key f).2 = (f (memory_manager e) sh).2.
Proof.
  unfold shard_at, with_shard. destruct (databases e !! db) as [d|]; [|done]. simpl. intros ->.
  by destruct (f _ _) as [[? ?] ?].
Qed.

Lemma with_shard_after {A} (e : engine) db key (f : shard_op ZS A) sh :
  shard_at e db key = Some sh -> shard_at (with_shard e db key f).1 db key = Some (f (memory_manager e) sh).1.2.
Proof.
  unfold with_shard. intros Hsh. pose proof Hsh as Hsh'. unfold shard_at in Hsh'.
  destruct (databases e !! db) as [d|] eqn:Hd; [|done]. simpl in Hsh'. rewrite Hsh'.
  destruct (f _ _) as [[mm' sh'] r]. simpl. rewrite (shard_at_put _ _ _ _ _ _ _ _ _ Hd Hsh'). by rewrite decide_True.
Qed.

Lemma was_modified_result now (e : engine) db key b sh :
  shard_at e db key = Some sh ->
  (was_modified_since now e db key b).2
  = Ok ((b <? get_key_counter (watch_tracker sh) key)
        || match data sh !! key with Some sv => stored_expired now sv | None => false end).
Proof. intros Hsh. unfold was_modified_since. rewrite (with_shard_result _ _ _ _ _ Hsh). simpl. by destruct (_ <? _). Qed.

Lemma register_result (e : engine) db key e' b :
  register_watch e db key = (e', Ok b) ->
  exists sh, shard_at e db key = Some sh /\ b = get_key_counter (watch_tracker sh) key
    /\ shard_at e' db key = Some (mkShard (data sh) (expiring_keys sh) (tracker_register (watch_tracker sh) key).1).
Proof.
  intros Hr. destruct (shard_at e db key) as [sh|] eqn:Hsh.
  - exists sh. unfold register_watch in Hr. pose proof (with_shard_result _ _ _ (fun mm sh =>
      let '(t, baseline) := tracker_register (watch_tracker sh) key in
      (mm, mkShard (data sh) (expiring_keys sh) t, Ok baseline)) _ Hsh) as H2.
    pose proof (with_shard_after _ _ _ (fun mm sh =>
      let '(t, baseline) := tracker_register (watch_tracker sh) key in
      (mm, mkShard (data sh) (expiring_keys sh) t, Ok baseline)) _ Hsh) as H3.
    rewrite Hr in H2, H3. simpl in H2, H3. injection H2 as ->. auto.
  - exfalso. unfold register_watch, with_shard, shard_at in *. destruct (databases e !! db) as [d|]; [|done].
    simpl in Hsh. by rewrite Hsh in Hr.
Qed.

(** C18. No empty collection is ever at rest: in every state an engine reaches
    from an empty store, the list, set or hash at a key has an element (the
    last element to leave takes the key along). *)
Theorem no_empty_collections (u : bool) (nd : nat) (mm : MemoryManager) (n : nat) (e : engine)
    (Hrun : nsteps (store_step u) n (with_config nd mm) e) (db : nat) (key : bytes) :
  value_of e db key <> Some (VList []) /\ value_of e db key <> Some (VSet ∅) /\ value_of e db key <> Some (VHash ∅).
Proof.
  pose proof (no_empty_run _ _ _ _ Hrun (no_empty_start nd mm)) as Hn. unfold value_of.
  destruct (shard_at e db key) as [sh|] eqn:E; [|done]. simpl. specialize (Hn _ _ _ E). unfold nonempty_at in Hn.
  split_and!; intros Hv; rewrite Hv in Hn; done.
Qed.

(** The steps that change a key and leave its counter: RENAME of the key,
    FLUSHDB and the changes of its consumer groups. *)
Inductive unseen (db : nat) (key : bytes) (e e' : engine) : Prop :=
  | unseen_rename new_key : e' = (rename e db key new_key).1 -> unseen db key e e'
  | unseen_flush : e' = (flush_db e db).1 -> unseen db key e e'
  | unseen_groups g : e' = (set_groups e db key g).1 -> unseen db key e e'.

Lemma value_of_shards e e' db key sh sh' :
  shard_at e db key = Some sh -> shard_at e' db key = Some sh' -> data sh' !! key = data sh !! key ->
  value_of e' db key = value_of e db key.
Proof. intros Hsh Hsh' E. unfold value_of, value_at. rewrite Hsh, Hsh'. simpl. by rewrite E. Qed.

Lemma value_of_cells e e' db key : cell_at e' db key = cell_at e db key -> value_of e' db key = value_of e db key.
Proof.
  unfold cell_at, value_of, value_at. destruct (shard_at e' db key), (shard_at e db key); simpl; try done. by intros [= -> _ _].
Qed.

(** RENAME of another key changes this one only as its new name. *)
Lemma rename_marks (e : engine) db0 old_key new_key db key sh :
  shard_at e db key = Some sh -> (db0, old_key) <> (db, key) ->
  value_of (rename e db0 old_key new_key).1 db key = value_of e db key
  \/ exists sh', shard_at (rename e db0 old_key new_key).1 db key = Some sh'
      /\ watch_tracker sh' = mark_key_modified (watch_tracker sh) key.
Proof.
  intros Hsh Hne.
  assert (Hcase : (rename e db0 old_key new_key).1 = e \/ exists a b sv,
    shard_at e db0 old_key = Some a /\ shard_at e db0 new_key = Some b /\ data a !! old_key = Some sv).
  { unfold rename, shard_at. destruct (databases e !! db0) as [d|] eqn:Hd; [|by left]. simpl.
    destruct (d !! get_shard_index old_key) as [a|]; [|by left]. destruct (d !! get_shard_index new_key) as [b|]; [|by left].
    destruct (data a !! old_key) as [sv|] eqn:Hsv; [|by left]. right. by exists a, b, sv. }
  destruct Hcase as [->|(a & b & sv & Ha & Hb & Hsv)]; [by left|].
  pose proof (proj2 (rename_shards e db0 old_key new_key a b sv db key Ha Hb Hsv)) as Hat.
  destruct (decide (db = db0)) as [<-|]; [|left; unfold value_of; by rewrite Hat].
  assert (Hok : key <> old_key) by congruence.
  assert (Hsame : forall (k : bytes) (s : DatabaseShard ZS), shard_at e db k = Some s -> get_shard_index key = get_shard_index k -> s = sh).
  { intros k s Hs E. unfold shard_at in *. rewrite E in Hsh. congruence. }
  destruct (decide (key = new_key)) as [<-|Hn].
  - right. destruct (decide (get_shard_index old_key = get_shard_index key)) as [Hij|Hij].
    + rewrite decide_True in Hat by done. eexists. split; [exact Hat|]. by rewrite (Hsame _ _ Ha (eq_sym Hij)).
    + rewrite decide_True in Hat by done. eexists. split; [exact Hat|]. by rewrite (Hsame _ _ Hb eq_refl).
  - left. repeat case_decide; try (unfold value_of; by rewrite Hat).
    + eapply value_of_shards; [exact Hsh|exact Hat|]. rewrite (Hsame _ _ Ha) by done. simpl. by rewrite lookup_insert_ne, lookup_delete_ne.
    + eapply value_of_shards; [exact Hsh|exact Hat|]. rewrite (Hsame _ _ Hb) by done. simpl. by rewrite lookup_insert_ne.
    + eapply value_of_shards; [exact Hsh|exact Hat|]. rewrite (Hsame _ _ Ha) by done. simpl. by rewrite lookup_delete_ne.
Qed.

(** A step that changes a key marks it, or is one that WATCH does not see. *)
Lemma change_marked u (e e' : engine) db key sh :
  store_step u e e' -> no_empty e -> shard_at e db key = Some sh -> value_of e' db key <> value_of e db key ->
  (exists sh', shard_at e' db key = Some sh' /\ watch_tracker sh' = mark_key_modified (watch_tracker sh) key)
  \/ unseen db key e e'.
Proof.
  intros Hstep Hne Hsh Hdiff. destruct Hstep as [db0 k0 e' Hk|db0 k0|db0 k0 Hu|db0 old_key new_key|db0|db0 k0 g].
  - left. destruct (decide ((db, key) = (db0, k0))) as [[= <- <-]|Ho]; [|by destruct Hdiff; eapply value_of_cells, key_step_other].
    destruct (engine_sound_shard db key e e' db key (key_step_sound _ _ _ _ Hk)) as [E|(s & sh' & _ & _ & E & Hsh' & Hs)].
    { destruct Hdiff. unfold value_of. by rewrite E. }
    assert (s = sh) as -> by congruence. exists sh'. split; [done|].
    destruct (sound_value _ _ _ Hs (Hne _ _ _ Hsh)) as [Hv|Hm]; [|done]. destruct Hdiff. unfold value_of. by rewrite Hsh, Hsh'.
  - destruct Hdiff. unfold register_watch.
    match goal with |- context [with_shard e db0 k0 ?f] => destruct (with_shard_at e db0 k0 f db key) as [E|(s & _ & _ & E & E')] end;
      [unfold value_of; by rewrite E|by eapply value_of_shards].
  - destruct Hdiff. unfold unregister_watch.
    match goal with |- context [with_shard e db0 k0 ?f] => destruct (with_shard_at e db0 k0 f db key) as [E|(s & _ & _ & E & E')] end;
      [unfold value_of; by rewrite E|by eapply value_of_shards].
  - destruct (decide ((db0, old_key) = (db, key))) as [[= -> ->]|Ho]; [right; by eapply unseen_rename|].
    left. destruct (rename_marks e db0 old_key new_key db key sh Hsh Ho) as [E|Hm]; [by destruct Hdiff|done].
  - destruct (decide (db0 = db)) as [->|Ho]; [right; by apply unseen_flush|]. destruct Hdiff. unfold value_of.
    rewrite flush_at, decide_False by done. by destruct (shard_at e db key).
  - destruct (decide ((db, key) = (db0, k0))) as [[= <- <-]|Ho]; [right; by eapply unseen_groups|]. destruct Hdiff. unfold set_groups.
    match goal with |- context [with_shard e db0 k0 ?f] => destruct (with_shard_at e db0 k0 f db key) as [E|(s & -> & _ & E & E')] end;
      [unfold value_of; by rewrite E|].
    eapply value_of_shards; [exact E|exact E'|]. destruct (data s !! k0) as [sv|]; [|done]. destruct (value sv); try done.
    simpl. rewrite lookup_insert_ne; [done|congruence].
Qed.

(** C19. What WATCH detects.  In a history from an empty store, when a watch on a
    key was registered, no watch is unregistered and then any step of the store
    changes the value of the key, the check of EXEC against the baseline finds
    the key modified, whatever happened before the change and after it; unless
    the change was RENAME of the key to another name, FLUSHDB of its database
    or a change of the consumer groups of the stream, which leave no trace. *)
Theorem watch_detects (nd : nat) (mm : MemoryManager) (n1 n2 n3 : nat) (e0 e1 e2 e3 e4 : engine) (db : nat) (key : bytes)
    (b now : Z) (sh1 : DatabaseShard ZS)
    (Hbefore : nsteps (store_step true) n1 (with_config nd mm) e0)
    (Hwatch : register_watch e0 db key = (e1, Ok b))
    (Hactive : shard_at e1 db key = Some sh1 /\ 0 < active_watchers (watch_tracker sh1)
               /\ active_watchers (watch_tracker sh1) + Z.of_nat n2 <= u64_max)
    (Hrun : nsteps (store_step false) n2 e1 e2)
    (Hchange : store_step true e2 e3) (Hdiff : value_of e3 db key <> value_of e2 db key)
    (Hafter : nsteps (store_step true) n3 e3 e4)
    (Hbound : Z.of_nat (n1 + n2 + n3 + 2) <= u64_max) :
  (was_modified_since now e4 db key b).2 = Ok true \/ unseen db key e2 e3.
Proof.
  destruct Hactive as (Hsh1 & Hpos & Hact).
  pose proof (trackers_ok_run true n1 0 _ _ Hbefore ltac:(lia) (trackers_ok_start nd mm)) as Hok0. simpl in Hok0.
  destruct (register_result _ _ _ _ _ Hwatch) as (sh0 & Hsh0 & -> & Hsh1').
  assert (Hw : store_step true e0 e1) by (replace e1 with (register_watch e0 db key).1 by (by rewrite Hwatch); constructor).
  pose proof (trackers_ok_step _ n1 _ _ Hw ltac:(lia) Hok0) as Hok1.
  destruct (counters_grow _ _ (S n1) _ _ db key sh1 Hrun ltac:(lia) Hok1 Hsh1) as (sh2 & Hsh2 & Hg2 & _).
  destruct (watchers_stay _ _ _ _ _ _ Hrun Hsh1 Hpos Hact) as (sh2' & Hsh2' & Hpos2).
  assert (sh2' = sh2) as -> by congruence.
  pose proof (trackers_ok_run _ n2 (S n1) _ _ Hrun ltac:(lia) Hok1) as Hok2.
  assert (Hne : no_empty e2).
  { eapply no_empty_run; [exact Hrun|]. eapply store_step_no_empty; [exact Hw|]. eapply no_empty_run; [exact Hbefore|].
    apply no_empty_start. }
  destruct (change_marked true e2 e3 db key sh2 Hchange Hne Hsh2 Hdiff) as [(sh3 & Hsh3 & Hm)|Hu]; [left|by right].
  pose proof (trackers_ok_step _ (S n1 + n2) _ _ Hchange ltac:(lia) Hok2) as Hok3.
  destruct (counters_grow _ _ (S (S n1 + n2)) _ _ db key sh3 Hafter ltac:(lia) Hok3 Hsh3) as (sh4 & Hsh4 & _ & Hc4).
  rewrite (was_modified_result _ _ _ _ _ _ Hsh4). rewrite (proj2 (Z.ltb_lt _ _)); [done|].
  eapply Z.lt_le_trans; [|apply Hc4]. destruct (Hok2 _ _ _ Hsh2) as [_ Hle2]. destruct (Hok0 _ _ _ Hsh0) as [Ht0 _].
  rewrite Hm. unfold mark_key_modified.
  destruct (Z.eqb_spec (active_watchers (watch_tracker sh2)) 0); [lia|].
  unfold get_key_counter at 2. simpl. rewrite lookup_insert_eq. simpl. destruct (Ht0 key) as [Hc0 Hc1].
  assert (global_counter (watch_tracker sh1) = global_counter (watch_tracker sh0)) as Hg by (rewrite Hsh1' in Hsh1; injection Hsh1 as <-; done).
  rewrite u64_wrap_small; unfold in_u64; lia.
Qed.
End watch.

Lemma no_empty_collections_witness :
  let _ := example_layout in let _ := default_iter in
  let e0 := with_config (ZS:=SkipList) 1 unlimited in
  let e1 := (lpush 1 e0 0 (B "k") [B "a"]).1 in
  let e2 := (lpop e1 0 (B "k")).1 in
  nsteps (store_step true) 2 e0 e2
  /\ value_of e1 0 (B "k") = Some (VList [B "a"]) /\ value_of e2 0 (B "k") = None
  /\ value_of e2 0 (B "k") <> Some (VList []).
Proof.
  intros lay it e0 e1 e2.
  assert (Hrun : nsteps (store_step true) 2 e0 e2).
  { eapply nsteps_l; [exact (ss_key true e0 0 (B "k") _ (ks_lpush 0 (B "k") e0 1 [B "a"] ltac:(discriminate)))|].
    eapply nsteps_l; [exact (ss_key true e1 0 (B "k") _ (ks_lpop 0 (B "k") e1))|]. apply nsteps_O. }
  split; [exact Hrun|]. split; [vm_compute; reflexivity|]. split; [vm_compute; reflexivity|].
  exact (proj1 (no_empty_collections true 1 unlimited 2 e2 Hrun 0 (B "k"))).
Defined.

(** WATCH k, then SET k by another client; and SET k, WATCH k, then FLUSHDB. *)
Lemma watch_detects_witness :
  let _ := example_layout in let _ := default_iter in
  let e0 := with_config (ZS:=SkipList) 1 unlimited in
  let e1 := (register_watch e0 0 (B "k")).1 in
  let e3 := (set_string 5 e1 0 (B "k") (B "v")).1 in
  let e5 := (flush_db (register_watch e3 0 (B "k")).1 0).1 in
  (register_watch e0 0 (B "k")).2 = Ok 0 /\ (was_modified_since 9 e3 0 (B "k") 0).2 = Ok true
  /\ value_of e5 0 (B "k") = None /\ (was_modified_since 9 e5 0 (B "k") 1).2 = Ok false.
Proof.
  intros lay it e0 e1 e3 e5. split; [vm_compute; reflexivity|]. split; [|split; vm_compute; reflexivity].
  set (sh1 := default shard_new (shard_at e1 0 (B "k"))).
  assert (Hsh1 : shard_at e1 0 (B "k") = Some sh1) by (vm_compute; reflexivity).
  assert (Hv : value_of e3 0 (B "k") = Some (VString (B "v"))) by (vm_compute; reflexivity).
  destruct (watch_detects 1 unlimited 0 0 0 e0 e1 e1 e3 e3 0 (B "k") 0 9 sh1) as [Hd|[new_key E|E|g E]].
  - apply nsteps_O.
  - vm_compute. reflexivity.
  - split; [exact Hsh1|]. split; [vm_compute; reflexivity|]. vm_compute. discriminate.
  - apply nsteps_O.
  - exact (ss_key true e1 0 (B "k") _ (ks_set_value 0 (B "k") e1 5 (VString (B "v")) None I)).
  - vm_compute. discriminate.
  - apply nsteps_O.
  - vm_compute. discriminate.
  - exact Hd.
  - exfalso. destruct (rename_at e1 0 (B "k") new_key 0 (B "k") sh1 Hsh1) as (sh' & Hsh' & _ & Hdata). unfold value_of in Hv.
    rewrite E, Hsh' in Hv. simpl in Hv. unfold value_at in Hv. destruct (Hdata (B "k")) as [Hx|[Hx|(_ & s0 & Hs0 & Hx)]]; rewrite Hx in Hv.
    + vm_compute in Hv. discriminate Hv.
    + discriminate Hv.
    + rewrite Hsh1 in Hs0. injection Hs0 as <-. vm_compute in Hv. discriminate Hv.
  - exfalso. rewrite E in Hv. vm_compute in Hv. discriminate Hv.
  - exfalso. rewrite E in Hv. vm_compute in Hv. discriminate Hv.
Defined.
