(* ===== verification/TypeSafety.v ===== *)
(** * Keys have types

    Which type of value each operation works on, that it refuses the others
    without a change, and that a key changes its type only when it is
    overwritten. *)

From S2P Require Import Prelude Text Resp StreamId Stream SortedSet Value PubSub Keyspace StringOps ListOps SetOps ZSetOps Scan.
From S2P Require Import EngineSteps KeyspaceProofs CollectionProofs EngineWatch SkipList SortedSetImpl.

Open Scope Z_scope.

Section types.
Context {ZS : Type} `{SortedSet ZS} `{Layout} `{HashIter}.
Abbreviation engine := (StorageEngine ZS).
Implicit Types (e : engine) (db : nat) (key : bytes).

(** ** The types of the operations *)

Inductive typed_call e db key : bytes -> forall A : Type, engine * outcome A -> Prop :=
  | tc_append now v : typed_call e db key (B "string") _ (append now e db key v)
  | tc_strlen : typed_call e db key (B "string") _ (strlen e db key)
  | tc_getrange i j : typed_call e db key (B "string") _ (getrange e db key i j)
  | tc_setrange now i v : typed_call e db key (B "string") _ (setrange now e db key i v)
  | tc_lpush now l : typed_call e db key (B "list") _ (lpush now e db key l)
  | tc_rpush now l : typed_call e db key (B "list") _ (rpush now e db key l)
  | tc_lpop : typed_call e db key (B "list") _ (lpop e db key)
  | tc_rpop : typed_call e db key (B "list") _ (rpop e db key)
  | tc_llen : typed_call e db key (B "list") _ (llen e db key)
  | tc_lrange i j : typed_call e db key (B "list") _ (lrange e db key i j)
  | tc_lindex i : typed_call e db key (B "list") _ (lindex e db key i)
  | tc_lset i v : typed_call e db key (B "list") _ (lset e db key i v)
  | tc_ltrim i j : typed_call e db key (B "list") _ (ltrim e db key i j)
  | tc_lrem n v : typed_call e db key (B "list") _ (lrem e db key n v)
  | tc_sadd now l : typed_call e db key (B "set") _ (sadd now e db key l)
  | tc_srem l : typed_call e db key (B "set") _ (srem e db key l)
  | tc_smembers : typed_call e db key (B "set") _ (smembers e db key)
  | tc_sismember m : typed_call e db key (B "set") _ (sismember e db key m)
  | tc_scard : typed_call e db key (B "set") _ (scard e db key)
  | tc_spop f n : typed_call e db key (B "set") _ (spop f e db key n)
  | tc_srandmember f g n : typed_call e db key (B "set") _ (srandmember f g e db key n)
  | tc_hset now l : typed_call e db key (B "hash") _ (hset now e db key l)
  | tc_hget f : typed_call e db key (B "hash") _ (hget e db key f)
  | tc_hmget l : typed_call e db key (B "hash") _ (hmget e db key l)
  | tc_hgetall : typed_call e db key (B "hash") _ (hgetall e db key)
  | tc_hkeys : typed_call e db key (B "hash") _ (hkeys e db key)
  | tc_hvals : typed_call e db key (B "hash") _ (hvals e db key)
  | tc_hlen : typed_call e db key (B "hash") _ (hlen e db key)
  | tc_hexists f : typed_call e db key (B "hash") _ (hexists e db key f)
  | tc_hdel l : typed_call e db key (B "hash") _ (hdel e db key l)
  | tc_hincrby now f n : typed_call e db key (B "hash") _ (hincrby now e db key f n)
  | tc_zadd lvl now m v : typed_call e db key (B "zset") _ (zadd lvl now e db key m v)
  | tc_zincrby lvl now m v : typed_call e db key (B "zset") _ (zincrby lvl now e db key m v)
  | tc_zrem m : typed_call e db key (B "zset") _ (zrem e db key m)
  | tc_zscore m : typed_call e db key (B "zset") _ (zscore e db key m)
  | tc_zrank m b : typed_call e db key (B "zset") _ (zrank e db key m b)
  | tc_zrange i j b : typed_call e db key (B "zset") _ (zrange e db key i j b)
  | tc_zrangebyscore a z b : typed_call e db key (B "zset") _ (zrangebyscore e db key a z b)
  | tc_zcount a z : typed_call e db key (B "zset") _ (zcount e db key a z)
  | tc_zcard : typed_call e db key (B "zset") _ (zcard e db key)
  | tc_xadd now clk w1 w2 c l : typed_call e db key (B "stream") _ (xadd now clk w1 w2 c e db key l)
  | tc_xadd_with_id now i l : typed_call e db key (B "stream") _ (xadd_with_id now e db key i l)
  | tc_xrange i j n : typed_call e db key (B "stream") _ (xrange e db key i j n)
  | tc_xrevrange i j n : typed_call e db key (B "stream") _ (xrevrange e db key i j n)
  | tc_xlen : typed_call e db key (B "stream") _ (xlen e db key)
  | tc_xtrim n : typed_call e db key (B "stream") _ (xtrim e db key n)
  | tc_xdel l : typed_call e db key (B "stream") _ (xdel e db key l).

(** The views are those of the types. *)
Lemma view_type (v : Value ZS) :
  (type_name v <> B "string" -> as_string v = None) /\ (type_name v <> B "list" -> as_list v = None)
  /\ (type_name v <> B "set" -> as_set v = None) /\ (type_name v <> B "hash" -> as_hash v = None)
  /\ (type_name v <> B "zset" -> as_sorted_set v = None) /\ (type_name v <> B "stream" -> as_stream v = None).
Proof. destruct v; split_and!; done. Qed.

Lemma typed_op_refused {X A} (view : Value ZS -> option X) e db key (some : StoredValue ZS -> X -> shard_op ZS A) none v :
  value_of e db key = Some v -> view v = None ->
  with_shard e db key (typed_op view key some none) = (e, Err (EStorage WrongType)).
Proof.
  intros Hv Hview. unfold value_of, value_at in Hv. destruct (shard_at e db key) as [sh|] eqn:Hsh; [|done]. simpl in Hv.
  destruct (data sh !! key) as [sv|] eqn:Hsv; [|done]. injection Hv as Hv.
  unfold shard_at in Hsh. unfold with_shard, typed_op. destruct (databases e !! db) as [d|] eqn:Hd; [|done]. simpl in Hsh.
  rewrite Hsh, Hsv, Hv, Hview, (list_insert_id _ _ _ Hsh), (list_insert_id _ _ _ Hd). by rewrite engine_eta.
Qed.

(** C39. Operations are typed: on a key that holds a value of another type, every
    operation on strings (but INCR), lists, sets, hashes, sorted sets and
    streams answers WRONGTYPE and leaves the whole store as it was. *)
Theorem wrong_type_refused e db key (ty : bytes) (A : Type) (res : engine * outcome A) (v : Value ZS)
    (Hcall : typed_call e db key ty A res) (Hv : value_of e db key = Some v) (Hty : type_name v <> ty) :
  res = (e, Err (EStorage WrongType)).
Proof.
  destruct (view_type v) as (H1' & H2' & H3' & H4' & H5' & H6').
  destruct Hcall; try (by eapply typed_op_refused; eauto). unfold zcount.
  by assert (zrangebyscore e db key a z false = (e, Err (EStorage WrongType))) as -> by (eapply typed_op_refused; eauto).
Qed.

(** ** Types are kept *)

Definition same_type key (sh sh' : DatabaseShard ZS) : Prop :=
  forall sv sv', data sh !! key = Some sv -> data sh' !! key = Some sv' -> type_name (value sv') = type_name (value sv).

Definition keeps_type {A} key (f : shard_op ZS A) : Prop := forall mm sh, same_type key sh (f mm sh).1.2.

Lemma st_refl key sh : same_type key sh sh.
Proof. intros sv sv' Hsv Hsv'. congruence. Qed.
Lemma st_mark key sh sh' : same_type key sh sh' -> same_type key sh (mark_modified key sh').
Proof. done. Qed.
Lemma st_expiring_insert key t sh sh' : same_type key sh sh' -> same_type key sh (expiring_insert key t sh').
Proof. done. Qed.
Lemma st_expiring_remove key sh sh' : same_type key sh sh' -> same_type key sh (expiring_remove key sh').
Proof. done. Qed.
Lemma st_insert key sv0 sv sh sh' :
  data sh !! key = Some sv0 -> type_name (value sv) = type_name (value sv0) -> same_type key sh (data_insert key sv sh').
Proof. intros Hsv Ht sv1 sv2 E. simpl. rewrite lookup_insert_eq. intros [= <-]. congruence. Qed.
Lemma st_store key sv0 sv v sh sh' :
  data sh !! key = Some sv0 -> type_name v = type_name (value sv0) -> same_type key sh (store_back key sv v sh').
Proof. intros. by eapply st_insert. Qed.
Lemma st_remove key sh sh' : same_type key sh (data_remove key sh').
Proof. intros sv sv' _. simpl. by rewrite lookup_delete_eq. Qed.
Lemma st_new key sh sh' : data sh !! key = None -> same_type key sh sh'.
Proof. intros E sv sv'. by rewrite E. Qed.
Create HintDb types.
#[local] Hint Resolve st_refl st_mark st_expiring_insert st_expiring_remove st_insert st_store st_remove st_new : types.

Lemma keeps_typed {X A} (view : Value ZS -> option X) key (some : StoredValue ZS -> X -> shard_op ZS A) none :
  (forall mm sh sv x, data sh !! key = Some sv -> view (value sv) = Some x -> same_type key sh (some sv x mm sh).1.2) ->
  keeps_type key (typed_op view key some none).
Proof.
  intros Hs mm sh. unfold typed_op. destruct (data sh !! key) as [sv|] eqn:E; [|by apply st_new].
  destruct (view (value sv)) as [x|] eqn:Ev; [by apply Hs|apply st_refl].
Qed.

Definition kept e e' db key : Prop :=
  forall v v', value_of e db key = Some v -> value_of e' db key = Some v' -> type_name v' = type_name v.

Lemma keeps_kept {A} e db key (f : shard_op ZS A) : keeps_type key f -> kept e (with_shard e db key f).1 db key.
Proof.
  intros Hf v v'. unfold value_of, value_at. destruct (shard_at e db key) as [sh|] eqn:Hsh; [|done].
  rewrite (with_shard_after _ _ _ f _ Hsh). simpl. specialize (Hf (memory_manager e) sh). intros Hv Hv'.
  destruct (data sh !! key) as [sv|] eqn:E; [|done]. destruct (data (f _ sh).1.2 !! key) as [sv'|] eqn:E'; [|done].
  injection Hv as <-. injection Hv' as <-. by apply Hf.
Qed.

(** A value is only replaced by one of its type. *)
Ltac same_kind := match goal with E : value _ = _ |- _ => rewrite E end; done.
#[local] Hint Extern 1 (type_name _ = type_name _) => same_kind : types.

Ltac keep_type :=
  unfold insert_member, remove_if_empty; cbv zeta; cbn [fst snd];
  repeat (case_match; cbn [fst snd]); subst; eauto 8 with types.

Lemma incr_keeps now key n : keeps_type key (fun mm (sh : DatabaseShard ZS) =>
    match data sh !! key with
    | Some sv =>
        match as_integer (value sv) with
        | Some current =>
            if decide (in_i64 (current + n)) then
              let new_val := current + n in
              (mm, mark_modified key (store_back key sv (value_integer new_val) sh), Ok new_val)
            else (mm, sh, Err (ECommand (CGeneric err_overflow)))
        | None => (mm, sh, Err (ECommand CNotInteger))
        end
    | None =>
        insert_accounted key now (calculate_value_size (ZS:=ZS) key (value_integer n)) (value_integer n) n mm sh
    end).
Proof.
  intros mm sh. destruct (data sh !! key) as [sv|] eqn:E; [|by apply st_new]. destruct (value sv) eqn:Ev; simpl; keep_type.
Qed.

Lemma clean_keeps key : keeps_type key (fun mm (sh : DatabaseShard ZS) => let '(mm', sh') := cleanup_one (mm, sh) key in (mm', sh', Ok tt)).
Proof. intros mm sh. unfold cleanup_one. destruct (data sh !! key); cbn [fst snd]; auto with types. Qed.

Lemma key_step_types db key e e' :
  key_step db key e e' -> kept e e' db key
  \/ (exists now v d, e' = (set_value now e db key v d).1)
  \/ (exists now v, e' = (set_string_nx now e db key v).1) \/ (exists t1 t2 t3 v d, e' = (set_string_nx_ex t1 t2 t3 e db key v d).1).
Proof.
  destruct 1; try (by eauto 10).
  all: left; apply keeps_kept; first [apply incr_keeps|apply clean_keeps|apply keeps_typed; intros mm sh sv x Hsv Hview|intros mm sh].
  all: try (first [apply view_string in Hview|apply view_list in Hview|apply view_set in Hview|apply view_hash in Hview
                  |apply view_sorted_set in Hview|apply view_stream in Hview]).
  all: keep_type.
Qed.

(** SETNX replaces a value only when it has expired, by a string. *)
Definition replaced_by_string key (sh sh' : DatabaseShard ZS) : Prop :=
  same_type key sh sh'
  \/ (exists now, live now key sh = false) /\ forall sv', data sh' !! key = Some sv' -> type_name (value sv') = B "string".

Lemma nx_kept {A} e db key (f : shard_op ZS A) v v' :
  (forall mm sh, replaced_by_string key sh (f mm sh).1.2) ->
  value_of e db key = Some v -> value_of (with_shard e db key f).1 db key = Some v' ->
  type_name v' = type_name v \/ type_name v' = B "string" /\ exists now, (key_exists now e db key).2 = Ok false.
Proof.
  intros Hf. unfold value_of, value_at. destruct (shard_at e db key) as [sh|] eqn:Hsh; [|done].
  rewrite (with_shard_after _ _ _ f _ Hsh). simpl. specialize (Hf (memory_manager e) sh). intros Hv Hv'.
  destruct (data sh !! key) as [sv|] eqn:E; [|done]. destruct (data (f _ sh).1.2 !! key) as [sv'|] eqn:E'; [|done].
  injection Hv as <-. injection Hv' as <-. destruct Hf as [Hs|[[now Hl] Hs]]; [left; by apply Hs|]. right. split; [by apply Hs|].
  exists now. unfold key_exists. rewrite (with_shard_result _ _ _ _ _ Hsh). simpl. by rewrite Hl.
Qed.

Lemma nx_replaces now key v mm (sh : DatabaseShard ZS) :
  replaced_by_string key sh
    (if live now key sh then (mm, sh, Ok false)
     else insert_accounted key now (calculate_value_size key (VString v)) (VString v) true mm sh).1.2.
Proof.
  destruct (live now key sh) eqn:El; [left; apply st_refl|]. unfold insert_accounted.
  destruct (add_memory mm _) as [mm' []]; [|left; apply st_refl]. right. split; [by exists now|].
  intros sv'. simpl. rewrite lookup_insert_eq. by intros [= <-].
Qed.

(** C15. A key keeps its type.  Whatever operation runs on a key that holds a value
    before and after, the value has the type it had, unless the operation is SET
    (or another store of a whole value), or SETNX over a value that has expired,
    which leaves a string. *)
Theorem types_stable e e' db key (v v' : Value ZS)
    (Hstep : key_step db key e e') (Hbefore : value_of e db key = Some v) (Hafter : value_of e' db key = Some v') :
  type_name v' = type_name v
  \/ (exists now new d, e' = (set_value now e db key new d).1)
  \/ type_name v' = B "string" /\ exists now, (key_exists now e db key).2 = Ok false.
Proof.
  destruct (key_step_types _ _ _ _ Hstep) as [Hk|[Hs|[(now & new & ->)|(t1 & t2 & t3 & new & d & ->)]]];
    [left; by apply Hk|by right; left|..].
  - destruct (nx_kept e db key _ v v' (fun mm sh => nx_replaces now key new mm sh) Hbefore Hafter); auto.
  - apply (nx_kept e db key _ v v') in Hafter; [destruct Hafter; auto| |done].
    intros mm sh. destruct (live t1 key sh) eqn:El; [left; apply st_refl|].
    destruct (add_memory mm _) as [mm' []]; [|left; apply st_refl].
    destruct (stored_with_expiration t2 (VString new) d) as [sv| |] eqn:Es; [|left; apply st_refl..].
    destruct (instant_add t3 d) as [t| |]; [|left; apply st_refl..]. right. split; [by exists t1|].
    intros sv'. simpl. rewrite lookup_insert_eq. intros [= <-]. unfold stored_with_expiration in Es.
    by destruct (meta_with_expiration t2 d); simplify_eq/=.
Qed.
End types.

(** HSET on a list. *)
Lemma wrong_type_refused_witness :
  let _ := example_layout in
  let e := (lpush 1 (with_config (ZS:=SkipList) 1 unlimited) 0 (B "k") [B "a"]).1 in
  value_of e 0 (B "k") = Some (VList [B "a"]) /\ hset 2 e 0 (B "k") [(B "f", B "v")] = (e, Err (EStorage WrongType)).
Proof.
  intros lay e. assert (Hv : value_of e 0 (B "k") = Some (VList [B "a"])) by (vm_compute; reflexivity). split; [exact Hv|].
  apply (wrong_type_refused (H1 := default_iter) e 0%nat (B "k") (B "hash") Z _ (VList [B "a"]));
    [apply (tc_hset (H1 := default_iter))|exact Hv|discriminate].
Defined.

(** SETRANGE on a string. *)
Lemma types_stable_witness :
  let _ := example_layout in
  let e := (set_string 1 (with_config (ZS:=SkipList) 1 unlimited) 0 (B "k") (B "ab")).1 in
  let e' := (setrange 2 e 0 (B "k") 1 (B "x")).1 in
  value_of e' 0 (B "k") = Some (VString (B "ax"))
  /\ (type_name (VString (B "ax") : Value SkipList) = type_name (VString (B "ab") : Value SkipList)
      \/ (exists now new d, e' = (set_value now e 0 (B "k") new d).1)
      \/ type_name (VString (B "ax") : Value SkipList) = B "string" /\ exists now, (key_exists now e 0 (B "k")).2 = Ok false).
Proof.
  intros lay e e'. assert (Hv : value_of e' 0 (B "k") = Some (VString (B "ax"))) by (vm_compute; reflexivity). split; [exact Hv|].
  apply (types_stable (H1 := default_iter) e e' 0 (B "k") (VString (B "ab")) (VString (B "ax"))); [|vm_compute; reflexivity|exact Hv].
  apply (ks_setrange (H1 := default_iter)).
Defined.
