(* ===== verification/ScanSpec.v ===== *)
(** * A full SCAN finds every key

    The walk from one cursor to the next, the iteration a client makes of it,
    and the invariant that a key is only in its own shard, so that no key is
    met twice. *)

From S2P Require Import Prelude Text Resp SortedSet Value PubSub Glob Keyspace StringOps ListOps SetOps ZSetOps Scan.
From S2P Require Import KeyspaceProofs CollectionProofs EngineSteps SkipList SortedSetImpl.
From stdpp Require Import relations sorting.

Open Scope Z_scope.

(** ** One walk *)

Lemma scan_walk_exact {A} (keep : A -> bool) max : forall l examined found pos,
  exists n, scan_walk keep max examined found pos l = (pos + Z.of_nat n, filter keep (take n l))
    /\ (n <= length l)%nat
    /\ (l <> [] -> examined < max * 10 -> found < max -> (0 < n)%nat).
Proof.
  induction l as [|x l IH]; intros examined found pos; simpl.
  { exists 0%nat. split_and!; [f_equal; lia|lia|done]. }
  destruct (Z.ltb_spec examined (max * 10)), (Z.ltb_spec found max); simpl;
    try (exists 0%nat; split_and!; [f_equal; lia|lia|lia]).
  destruct (IH (examined + 1) (if keep x then found + 1 else found) (pos + 1)) as (n & -> & Hn & _).
  exists (S n). split_and!; [|lia|lia]. f_equal; [lia|]. simpl. rewrite filter_cons. by destruct (keep x).
Qed.

(** From a cursor inside the list the walk goes on, or ends the iteration. *)
Lemma scan_from_exact {A} (name : A -> bytes) pattern max cursor (items : list A) :
  0 < max -> 0 <= cursor -> cursor < Z.of_nat (length items) ->
  exists n, (0 < n)%nat /\ cursor + Z.of_nat n <= Z.of_nat (length items)
    /\ scan_from name pattern max cursor items
       = (if Z.of_nat (length items) <=? cursor + Z.of_nat n then 0 else cursor + Z.of_nat n,
          filter (fun x => name_matches pattern (name x)) (take n (drop (Z.to_nat cursor) items))).
Proof.
  intros Hmax Hc Hlt. unfold scan_from.
  destruct (Z.leb_spec (Z.of_nat (length items)) cursor); [lia|]. simpl.
  destruct (scan_walk_exact (fun x => name_matches pattern (name x)) max (drop (Z.to_nat cursor) items) 0 0 cursor)
    as (n & E & Hn & Hpos). rewrite length_drop in Hn. exists n. split_and!; [|lia|by rewrite E].
  apply Hpos; [|lia..]. intros Hnil%(f_equal length). rewrite length_drop in Hnil. simpl in Hnil. lia.
Qed.

(** ** The iteration *)

Section iteration.
Context {A : Type} (name : A -> bytes) (pattern : option bytes) (maxes : nat -> Z) (items : list A).

(** The calls of a client that passes each cursor on, until it is 0. *)
Fixpoint iterate (calls i : nat) (cursor : Z) : option (list A) :=
  match calls with
  | O => None
  | S calls' =>
      let '(next, found) := scan_from name pattern (maxes i) cursor items in
      if next =? 0 then Some found
      else match iterate calls' (S i) next with Some rest => Some (found ++ rest) | None => None end
  end.

Lemma iterate_exact : (forall i, 0 < maxes i) ->
  forall calls i cursor, 0 <= cursor <= Z.of_nat (length items) -> (cursor = Z.of_nat (length items) -> items = []) ->
  (length items - Z.to_nat cursor < calls)%nat ->
  iterate calls i cursor = Some (filter (fun x => name_matches pattern (name x)) (drop (Z.to_nat cursor) items)).
Proof.
  intros Hmax. induction calls as [|calls IH]; intros i cursor Hc Hend Hlt; [lia|]. simpl.
  destruct (decide (cursor = Z.of_nat (length items))) as [E|Hne].
  { pose proof (Hend E) as Hnil. rewrite Hnil in E |- *. simpl in E. by subst cursor. }
  destruct (scan_from_exact name pattern (maxes i) cursor items (Hmax i)) as (n & Hn & Hle & ->); [lia..|].
  destruct (Z.leb_spec (Z.of_nat (length items)) (cursor + Z.of_nat n)).
  - simpl. do 2 f_equal. apply take_ge. rewrite length_drop. lia.
  - destruct (Z.eqb_spec (cursor + Z.of_nat n) 0); [lia|]. rewrite IH by lia. f_equal. rewrite <- filter_app. f_equal.
    rewrite <- (take_drop n (drop (Z.to_nat cursor) items)) at 2. f_equal. rewrite drop_drop. f_equal. lia.
Qed.
End iteration.

Lemma StronglySorted_filter' {A} (R : A -> A -> Prop) (P : A -> Prop) `{!forall x, Decision (P x)} l :
  StronglySorted R l -> StronglySorted R (filter P l).
Proof.
  induction 1 as [|x l Hs IH Hf]; [constructor|]. rewrite filter_cons. case_decide; [|done]. constructor; [done|].
  apply Forall_forall. intros y [_ Hy]%list_elem_of_filter. rewrite Forall_forall in Hf. auto.
Qed.

(** ** Keys are in their own shards *)

Section placement.
Context {ZS : Type} `{SortedSet ZS} `{Layout} `{HashIter} `{!SortedSetSpec ZS}.
Abbreviation engine := (StorageEngine ZS).

Definition placed (dbs : list (list (DatabaseShard ZS))) : Prop :=
  forall db d i sh k, dbs !! db = Some d -> d !! i = Some sh -> is_Some (data sh !! k) -> get_shard_index k = i.

Lemma placed_put dbs db key d sh sh' :
  placed dbs -> dbs !! db = Some d -> d !! get_shard_index key = Some sh ->
  (forall k, k <> key -> is_Some (data sh' !! k) -> is_Some (data sh !! k)) ->
  placed (<[db := <[get_shard_index key := sh']> d]> dbs).
Proof.
  intros Hp Hd Hsh Hin db' d' i s k Hd' Hs Hk. apply list_lookup_insert_Some in Hd' as [(<- & <- & _)|[_ Hd']]; [|by eapply Hp].
  apply list_lookup_insert_Some in Hs as [(<- & <- & _)|[_ Hs]]; [|by eapply Hp].
  destruct (decide (k = key)) as [->|Hne]; [done|]. by eapply Hp; eauto.
Qed.

Lemma placed_with_shard {A} (e : engine) db key (f : shard_op ZS A) :
  placed (databases e) -> (forall mm sh k, k <> key -> is_Some (data (f mm sh).1.2 !! k) -> is_Some (data sh !! k)) ->
  placed (databases (with_shard e db key f).1).
Proof.
  intros Hp Hf. unfold with_shard. destruct (databases e !! db) as [d|] eqn:Hd; [|done].
  destruct (d !! get_shard_index key) as [sh|] eqn:Hsh; [|done]. specialize (Hf (memory_manager e) sh).
  destruct (f _ _) as [[mm' sh'] r]. simpl in *. by eapply placed_put.
Qed.

Lemma placed_rename (e : engine) db old_key new_key :
  placed (databases e) -> placed (databases (rename e db old_key new_key).1).
Proof.
  intros Hp. unfold rename. destruct (databases e !! db) as [d|] eqn:Hd; [|done].
  destruct (d !! get_shard_index old_key) as [a|] eqn:Ha; [|done].
  destruct (d !! get_shard_index new_key) as [b|] eqn:Hb; [|done].
  destruct (data a !! old_key) as [sv|]; [|done]. simpl.
  assert (Hdel : forall k, is_Some (data (data_remove old_key a) !! k) -> is_Some (data a !! k)).
  { intros k. simpl. intros [x [_ Hx]%lookup_delete_Some]. by exists x. }
  assert (Hins : forall c k, k <> new_key -> is_Some (data (mark_modified new_key (data_insert new_key sv c)) !! k) -> is_Some (data c !! k)).
  { intros c k Hk. simpl. by rewrite lookup_insert_ne. }
  case_decide as Hij.
  - rewrite Hij. eapply placed_put; [done..|]. intros k Hk Hx. rewrite Hij, Hb in Ha. injection Ha as <-. by apply Hdel, (Hins _ _ Hk).
  - pose proof (placed_put _ db old_key d a (data_remove old_key a) Hp Hd Ha (fun k _ => Hdel k)) as Hp1.
    pose proof (placed_put (<[db := <[get_shard_index old_key := data_remove old_key a]> d]> (databases e)) db new_key
      (<[get_shard_index old_key := data_remove old_key a]> d) b (mark_modified new_key (data_insert new_key sv b)) Hp1) as Hp2.
    rewrite list_insert_insert in Hp2. rewrite decide_True in Hp2 by done. apply Hp2; [| |intros k; apply Hins].
    + by rewrite list_lookup_insert_eq by eauto using lookup_lt_Some.
    + by rewrite list_lookup_insert_ne.
Qed.

Lemma placed_step u (e e' : engine) : store_step u e e' -> placed (databases e) -> placed (databases e').
Proof.
  intros Hs Hp. destruct Hs as [db key e' Hk|db key|db key Hu|db old_key new_key|db|db key g].
  - apply key_step_sound in Hk as [E|(d & sh & sh' & Hd & Hsh & E & [Ht _ _ _])]; rewrite E; [done|].
    eapply placed_put; [done..|]. intros k Hk. by rewrite (proj1 (Ht k Hk)).
  - by apply placed_with_shard.
  - by apply placed_with_shard.
  - by apply placed_rename.
  - unfold flush_db. destruct (databases e !! db) as [d|] eqn:Hd; [|done]. simpl.
    intros db' d' i s k Hd' Hs Hk. apply list_lookup_insert_Some in Hd' as [(<- & <- & _)|[_ Hd']]; [|by eapply Hp].
    rewrite list_lookup_fmap in Hs. destruct (d !! i); [|done]. injection Hs as <-. by destruct Hk.
  - apply placed_with_shard; [done|]. intros mm sh k Hk. destruct (data sh !! key) as [sv|]; [|done].
    destruct (value sv); try done. simpl. by rewrite lookup_insert_ne.
Qed.

Lemma placed_start nd mm : placed (databases (with_config (ZS:=ZS) nd mm)).
Proof.
  intros db d i sh k Hd Hs Hk. apply lookup_replicate_1 in Hd as [-> _]. apply lookup_replicate_1 in Hs as [-> _]. by destruct Hk.
Qed.

Lemma placed_run u n nd mm (e : engine) : nsteps (store_step u) n (with_config nd mm) e -> placed (databases e).
Proof.
  intros Hr. remember (with_config nd mm) as e0 eqn:E. assert (Hp : placed (databases e0)) by (subst; apply placed_start). clear E.
  induction Hr as [|n x y z Hxy Hyz IH]; [done|]. apply IH. by eapply placed_step.
Qed.

(** ** SCAN *)

Definition wanted (clock : bytes -> Z) (type_filter : option bytes) (kv : bytes * StoredValue ZS) : bool :=
  negb (stored_expired (clock kv.1) kv.2)
  && match type_filter with Some t => bool_decide (type_name (value kv.2) = t) | None => true end.

Definition live_keys (clock : bytes -> Z) (type_filter : option bytes) (d : list (DatabaseShard ZS)) : list bytes :=
  concat (map (fun sh => (filter (wanted clock type_filter) (map_iter (data sh))).*1) d).

(** The calls of a client that passes each cursor on, until it is 0. *)
Fixpoint scan_all (clock : bytes -> Z) (e : engine) (db : nat) (pattern type_filter : option bytes) (counts : nat -> Z)
    (calls i : nat) (cursor : Z) : option (list bytes) :=
  match calls with
  | O => None
  | S calls' =>
      match scan clock e db cursor pattern type_filter (counts i) with
      | Ok (next, found) =>
          if next =? 0 then Some found
          else match scan_all clock e db pattern type_filter counts calls' (S i) next with
               | Some rest => Some (found ++ rest)
               | None => None
               end
      | _ => None
      end
  end.

Lemma scan_all_iterate clock (e : engine) db d pattern tf counts : databases e !! db = Some d ->
  forall calls i cursor, scan_all clock e db pattern tf counts calls i cursor
  = iterate id pattern (fun i => max_scan_count (counts i)) (merge_sort (on_name id) (live_keys clock tf d)) calls i cursor.
Proof.
  intros Hd. induction calls as [|calls IH]; intros i cursor; simpl; [done|]. unfold scan. rewrite Hd.
  unfold live_keys, wanted. destruct (scan_from _ _ _ _ _) as [next found]. destruct (next =? 0); [done|]. by rewrite IH.
Qed.

Lemma elem_of_live_keys clock tf d k :
  k ∈ live_keys clock tf d
  <-> exists i sh sv, d !! i = Some sh /\ data sh !! k = Some sv /\ wanted clock tf (k, sv) = true.
Proof.
  unfold live_keys. rewrite list_elem_of_In, in_concat. setoid_rewrite in_map_iff. setoid_rewrite <- list_elem_of_In.
  split.
  - intros (ks & (sh & <- & Hsh) & Hk). apply list_elem_of_lookup in Hsh as [i Hi].
    apply list_elem_of_fmap in Hk as ([k' sv] & -> & Hkv). apply list_elem_of_filter in Hkv as [Hw Hin].
    rewrite map_iter_perm in Hin. apply elem_of_map_to_list in Hin. exists i, sh, sv. split_and!; [done..|]. by apply Is_true_true.
  - intros (i & sh & sv & Hi & Hsv & Hw). eexists. split; [exists sh; split; [done|by eapply list_elem_of_lookup_2]|].
    apply list_elem_of_fmap. exists (k, sv). split; [done|]. apply list_elem_of_filter. split; [by apply Is_true_true|].
    rewrite map_iter_perm. by apply elem_of_map_to_list.
Qed.

Lemma live_keys_NoDup clock tf d :
  (forall i j sh sh' k, d !! i = Some sh -> d !! j = Some sh' -> is_Some (data sh !! k) -> is_Some (data sh' !! k) -> i = j) ->
  NoDup (live_keys clock tf d).
Proof.
  induction d as [|sh d IH]; intros Hd; [constructor|]. change (live_keys clock tf (sh :: d))
    with ((filter (wanted clock tf) (map_iter (data sh))).*1 ++ live_keys clock tf d). apply NoDup_app. split_and!.
  - eapply sublist_NoDup; [|apply fmap_sublist, sublist_filter]. rewrite map_iter_perm. apply NoDup_fst_map_to_list.
  - intros k Hk (i & sh' & sv' & Hi & Hsv' & _)%elem_of_live_keys. apply list_elem_of_fmap in Hk as ([k' sv] & -> & Hkv).
    apply list_elem_of_filter in Hkv as [_ Hin]. rewrite map_iter_perm in Hin. apply elem_of_map_to_list in Hin.
    specialize (Hd 0%nat (S i) sh sh' k' eq_refl Hi ltac:(by exists sv) ltac:(by exists sv')). done.
  - apply IH. intros i j s s' k Hi Hj Hs Hs'. specialize (Hd (S i) (S j) s s' k Hi Hj Hs Hs'). lia.
Qed.

#[local] Instance bytes_le_total : Total (on_name (A:=bytes) id).
Proof. intros x y. unfold on_name, bytes_le. simpl. rewrite (bytes_cmp_antisym y x). destruct (bytes_cmp y x); auto. Qed.

#[local] Instance bytes_le_trans : Transitive (on_name (A:=bytes) id).
Proof.
  intros x y z. unfold on_name, bytes_le, id. destruct (bytes_cmp x y) eqn:Exy; [apply bytes_cmp_eq in Exy as ->; done| |done].
  destruct (bytes_cmp y z) eqn:Eyz; [apply bytes_cmp_eq in Eyz as ->; by rewrite Exy| |done].
  by rewrite (bytes_cmp_lt_trans x y z Exy Eyz).
Qed.

(** C16. A full SCAN finds every key.  A client that starts at cursor 0 and passes
    each cursor it gets on is answered 0 after at most as many calls as there are
    keys and one more, whatever counts it asks for; on a store that does not
    change meanwhile the answers together list, in order and each once, exactly
    the keys that are alive, of the type and match the pattern. *)
Theorem scan_complete (u : bool) (n nd : nat) (mm : MemoryManager) (e : engine) (db : nat) (d : list (DatabaseShard ZS))
    (clock : bytes -> Z) (pattern tf : option bytes) (counts : nat -> Z)
    (Hrun : nsteps (store_step u) n (with_config nd mm) e) (Hdb : databases e !! db = Some d)
    (Hcounts : forall i, 0 <= counts i) :
  exists keys, scan_all clock e db pattern tf counts (S (length (live_keys clock tf d))) 0 0 = Some keys
    /\ NoDup keys /\ StronglySorted bytes_le keys
    /\ forall k, k ∈ keys <-> name_matches pattern k = true
         /\ exists sh sv, shard_at e db k = Some sh /\ data sh !! k = Some sv /\ wanted clock tf (k, sv) = true.
Proof.
  set (sorted := merge_sort (on_name id) (live_keys clock tf d)).
  assert (Hperm : sorted ≡ₚ live_keys clock tf d) by apply merge_sort_Permutation.
  pose proof (placed_run u n nd mm e Hrun) as Hplaced.
  exists (filter (fun k => name_matches pattern k) sorted). split_and!.
  - rewrite (scan_all_iterate clock e db d pattern tf counts Hdb). fold sorted. rewrite iterate_exact; [done|..].
    + intros i. specialize (Hcounts i). unfold max_scan_count. destruct (Z.eqb_spec (counts i) 0); lia.
    + lia.
    + intros E. by apply nil_length_inv; lia.
    + rewrite Hperm. lia.
  - apply NoDup_filter. rewrite Hperm. apply live_keys_NoDup. intros i j sh sh' k Hi Hj Hk Hk'.
    rewrite <- (Hplaced db d i sh k), <- (Hplaced db d j sh' k); done.
  - apply StronglySorted_filter', (StronglySorted_merge_sort (on_name id)).
  - intros k. rewrite list_elem_of_filter, Hperm, elem_of_live_keys. split.
    + intros [Hm (i & sh & sv & Hi & Hsv & Hw)]. split; [by apply Is_true_true|]. exists sh, sv. split_and!; [|done..].
      unfold shard_at. rewrite Hdb. simpl. by rewrite (Hplaced db d i sh k Hdb Hi ltac:(by exists sv)).
    + intros [Hm (sh & sv & Hsh & Hsv & Hw)]. split; [by apply Is_true_true|]. exists (get_shard_index k), sh, sv.
      split_and!; [|done..]. unfold shard_at in Hsh. by rewrite Hdb in Hsh.
Qed.
End placement.

Lemma scan_complete_witness :
  let _ := example_layout in let _ := default_iter in
  let e0 := with_config (ZS:=SkipList) 1 unlimited in
  let e1 := (set_string 1 e0 0 (B "b") (B "1")).1 in
  let e2 := (lpush 1 e1 0 (B "a") [B "x"]).1 in
  let d := default [] (databases e2 !! 0%nat) in
  live_keys (fun _ => 5) None d ≡ₚ [B "a"; B "b"]
  /\ exists keys, scan_all (fun _ => 5) e2 0 None None (fun _ => 1) (S (length (live_keys (fun _ => 5) None d))) 0 0 = Some keys
       /\ NoDup keys.
Proof.
  intros lay it e0 e1 e2 d. split; [vm_compute; apply Permutation_swap|].
  assert (Hrun : nsteps (store_step true) 2 e0 e2).
  { eapply nsteps_l; [exact (ss_key true e0 0 (B "b") _ (ks_set_value 0 (B "b") e0 1 (VString (B "1")) None I))|].
    eapply nsteps_l; [exact (ss_key true e1 0 (B "a") _ (ks_lpush 0 (B "a") e1 1 [B "x"] ltac:(discriminate)))|]. apply nsteps_O. }
  destruct (scan_complete true 2 1 unlimited e2 0%nat d (fun _ => 5) None None (fun _ => 1) Hrun) as (keys & Hall & Hnd & _).
  - vm_compute. reflexivity.
  - intros i. vm_compute. discriminate.
  - exists keys. split; [exact Hall|exact Hnd].
Defined.

(** A key that is there all along is missed when a key before it goes away
    between two calls: the cursor is a position. *)
Lemma scan_skips :
  let _ := example_layout in let _ := default_iter in
  let e0 := with_config (ZS:=SkipList) 1 unlimited in
  let put e k := (set_string 1 e 0 k (B "1")).1 in
  let e3 := put (put (put e0 (B "a")) (B "b")) (B "c") in
  let e4 := (delete_key e3 0 (B "a")).1 in
  scan (fun _ => 5) e3 0 0 None None 1 = Ok (1, [B "a"])
  /\ scan (fun _ => 5) e4 0 1 None None 1 = Ok (0, [B "c"]).
Proof. intros lay it e0 put e3 e4. split; vm_compute; reflexivity. Qed.
