(* ===== verification/CellSpec.v ===== *)
(** * What a key holds, abstractly

    The commands of one type of value see a key as one abstract value: the
    content of its collection, or the empty one when there is no key.  [holds]
    relates a key to it; [history] runs commands on the key while the rest of
    the store goes on, and [history_refines] lifts what each command does to
    whole histories.  Expiry is not looked at, as the operations of the
    collections do not look at it. *)

From S2P Require Import Prelude Text Resp SortedSet Value PubSub Keyspace StringOps ListOps SetOps ZSetOps Scan.
From S2P Require Import KeyspaceProofs CollectionProofs EngineSteps EngineWatch.

Open Scope Z_scope.

Create HintDb cell discriminated.

Section cells.
Context {ZS : Type} `{SortedSet ZS} `{Layout} `{HashIter} `{!SortedSetSpec ZS}.
Abbreviation engine := (StorageEngine ZS).
Context {Y X : Type} (view : Value ZS -> option Y) (rep : Y -> X -> Prop) (empty : X).

Definition in_shard (key : bytes) (sh : DatabaseShard ZS) (x : X) : Prop :=
  match data sh !! key with
  | Some sv => exists y, view (value sv) = Some y /\ rep y x
  | None => x = empty
  end.

Definition holds (e : engine) (db : nat) (key : bytes) (x : X) : Prop :=
  exists sh, shard_at e db key = Some sh /\ in_shard key sh x.

(** What an operation leaves in the shard and what it answers. *)
Definition gives {A} (key : bytes) (Q : X -> outcome A -> Prop) (res : MemoryManager * DatabaseShard ZS * outcome A) : Prop :=
  exists x', in_shard key res.1.2 x' /\ Q x' res.2.

Lemma typed_holds {A} (e : engine) db key some (none : shard_op ZS A) x (Q : X -> outcome A -> Prop) :
  holds e db key x ->
  (forall mm sh sv y, data sh !! key = Some sv -> view (value sv) = Some y -> rep y x -> gives key Q (some sv y mm sh)) ->
  (forall mm sh, data sh !! key = None -> x = empty -> gives key Q (none mm sh)) ->
  let res := with_shard e db key (typed_op view key some none) in
  exists x', holds res.1 db key x' /\ Q x' res.2.
Proof.
  intros (sh & Hsh & Hx) Hsome Hnone res. set (f := typed_op view key some none) in *.
  assert (Hf : gives key Q (f (memory_manager e) sh)).
  { unfold f, typed_op, in_shard in *. destruct (data sh !! key) as [sv|] eqn:E; [|auto].
    destruct Hx as (y & Hy & Hr). rewrite Hy. eauto. }
  destruct Hf as (x' & Hin & HQ). exists x'. unfold res. rewrite (with_shard_result _ _ _ f _ Hsh). split; [|done].
  exists (f (memory_manager e) sh).1.2. split; [by apply with_shard_after|done].
Qed.

Lemma in_shard_some key sh sv y x :
  data sh !! key = Some sv -> view (value sv) = Some y -> rep y x -> in_shard key sh x.
Proof. unfold in_shard. intros ->. eauto. Qed.

Lemma in_shard_none key sh x : data sh !! key = None -> x = empty -> in_shard key sh x.
Proof. unfold in_shard. by intros ->. Qed.

Lemma in_shard_store key sv v sh y x : view v = Some y -> rep y x -> in_shard key (store_back key sv v sh) x.
Proof. intros. unfold in_shard. simpl. rewrite lookup_insert_eq. simpl. eauto. Qed.

Lemma in_shard_mark key sh x : in_shard key sh x -> in_shard key (mark_modified key sh) x.
Proof. done. Qed.

Lemma in_shard_if (b : bool) key sh sh' x :
  in_shard key sh x -> in_shard key sh' x -> in_shard key (if b then sh else sh') x.
Proof. by destruct b. Qed.

Lemma in_shard_remove key sh x : x = empty -> in_shard key (data_remove key sh) x.
Proof. intros ->. unfold in_shard. simpl. by rewrite lookup_delete_eq. Qed.

Lemma gives_ok {A} key mm sh x (r : outcome A) Q : in_shard key sh x -> Q x r -> gives key Q (mm, sh, r).
Proof. by exists x. Qed.

Lemma gives_insert {A} key now v mm sh y x (r : A) Q :
  view v = Some y -> rep y x -> Q x (Ok r) -> gives key Q (insert_new_value key now v r mm sh).
Proof. intros. apply (gives_ok _ _ _ x); [|done]. unfold in_shard. simpl. rewrite lookup_insert_eq. simpl. eauto. Qed.

Lemma holds_start nd mm db key : (db < nd)%nat -> holds (with_config nd mm) db key empty.
Proof.
  intros Hdb. exists shard_new. split; [|by apply in_shard_none].
  by apply start_shard.
Qed.

(** ** Histories *)

Context {Cmd Reply : Type} (run : Cmd -> engine -> nat -> bytes -> engine * outcome Reply) (allowed : Cmd -> Prop).
Context (model : Cmd -> X -> X -> outcome Reply -> Prop).

(** Commands on the key, and any operation on other keys between them. *)
Inductive history (db : nat) (key : bytes) : engine -> list (Cmd * outcome Reply) -> engine -> Prop :=
  | history_end e : history db key e [] e
  | history_own c e tr e' :
      allowed c -> history db key (run c e db key).1 tr e' -> history db key e ((c, (run c e db key).2) :: tr) e'
  | history_other db' key' e e1 tr e' :
      key_step db' key' e e1 -> (db', key') <> (db, key) -> history db key e1 tr e' -> history db key e tr e'.

(** The same commands on the abstract value. *)
Inductive trace : X -> list (Cmd * outcome Reply) -> X -> Prop :=
  | trace_end x : trace x [] x
  | trace_step c r x x1 tr x' : model c x x1 r -> trace x1 tr x' -> trace x ((c, r) :: tr) x'.

Lemma other_step_holds db key db' key' e e1 x :
  key_step db' key' e e1 -> (db', key') <> (db, key) -> holds e db key x -> holds e1 db key x.
Proof.
  intros Hs Hne (sh & Hsh & Hx). pose proof (key_step_other _ _ _ _ db key Hs ltac:(congruence)) as Hc.
  unfold cell_at in Hc. rewrite Hsh in Hc. simpl in Hc. destruct (shard_at e1 db key) as [sh1|] eqn:E; [|done].
  simpl in Hc. exists sh1. split; [done|]. unfold in_shard in *. injection Hc as -> _ _. done.
Qed.

Hypothesis run_model : forall c e db key x,
  allowed c -> holds e db key x ->
  exists x', holds (run c e db key).1 db key x' /\ model c x x' (run c e db key).2.

Lemma history_refines db key e tr e' x :
  history db key e tr e' -> holds e db key x -> exists x', trace x tr x' /\ holds e' db key x'.
Proof.
  intros Hh. revert x. induction Hh as [e|c e tr e' Ha _ IH|db' key' e e1 tr e' Hs Hne _ IH]; intros x Hx.
  - exists x. split; [constructor|done].
  - destruct (run_model c e db key x Ha Hx) as (x1 & Hx1 & Hm). destruct (IH x1 Hx1) as (x' & Ht & Hh').
    exists x'. split; [by econstructor|done].
  - apply IH. by eapply other_step_holds.
Qed.
End cells.

(** ** Collections that are never empty *)

(** The answer of an operation, as an answer of the commands. *)
Definition then_ok {S A R} (f : A -> R) (x : S * outcome A) : S * outcome R := (x.1, let? a := x.2 in Ok (f a)).

Section collections.
Context {ZS : Type} `{SortedSet ZS} `{Layout} `{HashIter} `{!SortedSetSpec ZS}.
Abbreviation engine := (StorageEngine ZS).
Context {X Cmd Reply : Type} (view : Value ZS -> option X) (empty : X) (model : Cmd -> X -> X -> outcome Reply -> Prop).

(** The value is the collection, which is not empty. *)
Definition whole (y x : X) : Prop := y = x /\ x <> empty.

Lemma collection_op {A} (f : A -> Reply) c (e : engine) db key x (some : StoredValue ZS -> X -> shard_op ZS A) none :
  let Q x x' r := model c x x' (let? a := r in Ok (f a)) in
  holds view whole empty e db key x ->
  (forall mm sh sv, in_shard view whole empty key sh x -> x <> empty -> gives view whole empty key (Q x) (some sv x mm sh)) ->
  (forall mm sh, in_shard view whole empty key sh empty -> x = empty -> gives view whole empty key (Q empty) (none mm sh)) ->
  let res := then_ok f (with_shard e db key (typed_op view key some none)) in
  exists x', holds view whole empty res.1 db key x' /\ model c x x' res.2.
Proof.
  intros Q Hx Hs Hn res. apply (typed_holds view whole empty e db key some none x (Q x) Hx).
  - intros mm sh sv y Hsv Hy [-> Hne]. apply Hs; [|done]. eapply in_shard_some; [done..|]. by split.
  - intros mm sh Hnone ->. apply Hn; [|done]. by apply in_shard_none.
Qed.

Lemma in_shard_stored key sv v x (sh : DatabaseShard ZS) :
  view v = Some x -> x <> empty -> in_shard view whole empty key (store_back key sv v sh) x.
Proof. intros. by apply in_shard_store with x. Qed.
End collections.

(** A command that leaves [x]. *)
Ltac leaves x := apply (gives_ok _ _ _ _ _ _ x).

#[export] Hint Resolve in_shard_some in_shard_none in_shard_store in_shard_mark in_shard_if in_shard_remove : cell.
