(* ===== verification/ListSpec.v ===== *)
(** * Lists refine sequences

    The list commands on one key, against a sequence that is empty when there
    is no key. *)

From S2P Require Import Prelude Text Resp SortedSet Value PubSub Keyspace ListOps.
From S2P Require Import KeyspaceProofs CollectionProofs EngineSteps EngineWatch CellSpec SkipList SortedSetImpl.

Open Scope Z_scope.

(** ** The loops of the code *)

(** The elements at the positions [a] to [b], both included. *)
Definition slice (a b : Z) (l : list bytes) : list bytes := take (Z.to_nat (b + 1 - a)) (drop (Z.to_nat a) l).

Lemma slice_cons a b x l : 0 <= a ->
  slice a b (x :: l) = if (a <=? 0) && (0 <=? b) then x :: slice 0 (b - 1) l else slice (a - 1) (b - 1) l.
Proof.
  intros Ha. unfold slice. destruct (Z.leb_spec a 0); simpl.
  - assert (a = 0) as -> by lia. destruct (Z.leb_spec 0 b); simpl.
    + by replace (Z.to_nat (b + 1 - 0)) with (S (Z.to_nat (b - 1 + 1 - 0))) by lia.
    + by rewrite !Z2Nat.nonpos by lia.
  - replace (Z.to_nat a) with (S (Z.to_nat (a - 1))) by lia. simpl. f_equal. lia.
Qed.

Lemma slice_beyond a b l : b < a -> slice a b l = [].
Proof. intros. unfold slice. by rewrite (Z2Nat.nonpos (b + 1 - a)) by lia. Qed.

Lemma trim_loop_slice a b : forall l i, trim_loop a b i l = slice (Z.max 0 (a - i)) (b - i) l.
Proof.
  induction l as [|x l IH]; intros i; simpl; [unfold slice; by rewrite drop_nil, take_nil|].
  rewrite slice_cons, IH by lia. destruct (Z.leb_spec a i); simpl.
  - replace (Z.max 0 (a - i) <=? 0) with true by lia. simpl. replace (0 <=? b - i) with (i <=? b) by lia.
    replace (Z.max 0 (a - (i + 1))) with 0 by lia. replace (b - (i + 1)) with (b - i - 1) by lia.
    destruct (i <=? b) eqn:E; [done|]. rewrite !slice_beyond by lia. done.
  - replace (Z.max 0 (a - i) <=? 0) with false by lia. simpl. f_equal; lia.
Qed.

Lemma range_loop_trim a b : forall l i, range_loop a b i l = trim_loop a b i l.
Proof.
  induction l as [|x l IH]; intros i; simpl; [done|]. destruct (Z.ltb_spec b i); [|by rewrite IH].
  replace (i <=? b) with false by lia. rewrite andb_false_r, trim_loop_slice, slice_beyond by lia. done.
Qed.

Lemma clamp_index_nonneg len i : 0 <= clamp_index len i.
Proof. unfold clamp_index. destruct (Z.ltb_spec i 0); lia. Qed.

Lemma trim_exact a b len l : trim_loop (clamp_index len a) b 0 l = slice (clamp_index len a) b l.
Proof. rewrite trim_loop_slice. pose proof (clamp_index_nonneg len a). f_equal; lia. Qed.

Lemma push_front_exact els l : push_front_all l els = reverse els ++ l.
Proof. unfold push_front_all. revert l. induction els as [|x els IH]; intros l; simpl; [done|]. by rewrite IH, reverse_cons, <- app_assoc. Qed.

Lemma push_back_exact els l : push_back_all l els = l ++ els.
Proof. unfold push_back_all. revert l. induction els as [|x els IH]; intros l; simpl; [by rewrite app_nil_r|]. by rewrite IH, <- app_assoc. Qed.

Lemma push_front_nonempty els l : els <> [] -> push_front_all l els <> [].
Proof. rewrite push_front_exact. destruct els as [|x els]; [done|]. rewrite reverse_cons, <- app_assoc. by destruct (reverse els). Qed.

Lemma push_back_nonempty els l : els <> [] -> push_back_all l els <> [].
Proof. rewrite push_back_exact. intros Hne [_ Hnil]%app_nil. done. Qed.

(** [count] occurrences of [x] are removed from the front, or all there are. *)
Definition removes (x : bytes) (count : Z) (l l' : list bytes) (n : Z) : Prop :=
  exists before after, l = before ++ after
    /\ l' = filter (fun y => y <> x) before ++ after
    /\ n = Z.of_nat (length (filter (fun y => y = x) before)) /\ n <= count
    /\ (n = count \/ after = []).

Lemma rem_loop_removes x : forall l count, 0 <= count ->
  removes x count l (rem_loop x count l).1 (rem_loop x count l).2.
Proof.
  induction l as [|y l IH]; intros count Hc; simpl; [exists [], []; split_and!; simpl; auto; lia|].
  case_bool_decide as Hy; simpl; [destruct (Z.ltb_spec 0 count)|].
  - destruct (IH (count - 1) ltac:(lia)) as (b & a & -> & Hl' & Hn & Hle & Hor).
    destruct (rem_loop x (count - 1) (b ++ a)) as [kept n]. simpl in *. exists (y :: b), a.
    rewrite filter_cons_False, filter_cons_True by tauto. simpl. split_and!; [done|done|lia|lia|]. destruct Hor; [left; lia|by right].
  - exists [], (y :: l). simpl. assert (count = 0) as -> by lia.
    assert (Hz : rem_loop x 0 l = (l, 0)).
    { clear. induction l as [|z l IHl]; simpl; [done|]. by rewrite andb_false_r, IHl. }
    rewrite Hz. simpl. split_and!; auto; lia.
  - destruct (IH count Hc) as (b & a & -> & Hl' & Hn & Hle & Hor). destruct (rem_loop x count (b ++ a)) as [kept n].
    simpl in *. exists (y :: b), a. rewrite filter_cons_True, filter_cons_False by done. simpl. split_and!; auto. by f_equal.
Qed.

(** ** The commands and the sequence *)

Inductive list_command :=
  | LPush (now : Z) (elements : list bytes)
  | RPush (now : Z) (elements : list bytes)
  | LPop
  | RPop
  | LLen
  | LRange (start stop : Z)
  | LIndex (index : Z)
  | LSet (index : Z) (v : bytes)
  | LTrim (start stop : Z)
  | LRem (count : Z) (v : bytes).

Inductive list_reply :=
  | Count (n : Z)
  | Element (x : option bytes)
  | Elements (l : list bytes)
  | Done.

(** A push has an element and a count is an [isize]. *)
Definition list_allowed (c : list_command) : Prop :=
  match c with
  | LPush _ l | RPush _ l => l <> []
  | LRem count _ => in_i64 count
  | _ => True
  end.

(** The element an index means: from the end when it is negative. *)
Definition nth_element (i : Z) (l : list bytes) : option bytes :=
  if i <? 0 then reverse l !! Z.to_nat (- i - 1) else l !! Z.to_nat i.

(** The sequence before and after a command, and its answer. *)
Definition list_model (c : list_command) (l l' : list bytes) (r : outcome list_reply) : Prop :=
  let len := Z.of_nat (length l) in
  match c with
  | LPush _ els => l' = reverse els ++ l /\ r = Ok (Count (Z.of_nat (length l')))
  | RPush _ els => l' = l ++ els /\ r = Ok (Count (Z.of_nat (length l')))
  | LPop => l' = tail l /\ r = Ok (Element (head l))
  | RPop => l' = take (length l - 1) l /\ r = Ok (Element (last l))
  | LLen => l' = l /\ r = Ok (Count len)
  | LRange i j => l' = l /\ r = Ok (Elements (slice (clamp_index len i) (clamp_index len j) l))
  | LIndex i => l' = l /\ r = Ok (Element (nth_element i l))
  | LSet i v =>
      if bool_decide (is_Some (nth_element i l))
      then length l' = length l /\ nth_element i l' = Some v
           /\ (forall j, 0 <= j < len -> j <> (if i <? 0 then len + i else i) -> nth_element j l' = nth_element j l)
           /\ r = Ok Done
      else l' = l /\ r = Err (ECommand (if bool_decide (l = []) then CNoSuchKey else CIndexOutOfRange))
  | LTrim i j => l' = slice (clamp_index len i) (clamp_index len j) l /\ r = Ok Done
  | LRem count x =>
      exists n, r = Ok (Count n)
      /\ if count =? 0 then l' = filter (fun y => y <> x) l /\ n = Z.of_nat (length (filter (fun y => y = x) l))
         else if 0 <? count then removes x count l l' n
         else removes x (- count) (reverse l) (reverse l') n
  end.

Lemma resolve_index_nth i (l : list bytes) :
  match resolve_index (Z.of_nat (length l)) i with Some n => l !! n | None => None end = nth_element i l.
Proof.
  unfold resolve_index, nth_element. destruct (Z.ltb_spec i 0).
  - destruct (Z.leb_spec 0 (Z.of_nat (length l) + i)); simpl.
    + replace (Z.of_nat (length l) + i <? Z.of_nat (length l)) with true by lia.
      rewrite reverse_lookup by lia. f_equal. lia.
    + symmetry. apply lookup_ge_None. rewrite length_reverse. lia.
  - replace (0 <=? i) with true by lia. simpl. destruct (Z.ltb_spec i (Z.of_nat (length l))); [done|].
    symmetry. apply lookup_ge_None. lia.
Qed.

Lemma resolve_index_some i (l : list bytes) n :
  resolve_index (Z.of_nat (length l)) i = Some n ->
  (n < length l)%nat /\ Z.of_nat n = if i <? 0 then Z.of_nat (length l) + i else i.
Proof.
  unfold resolve_index. destruct (Z.leb_spec 0 (if i <? 0 then Z.of_nat (length l) + i else i)) as [Hle|]; [|done]. simpl.
  destruct (Z.ltb_spec (if i <? 0 then Z.of_nat (length l) + i else i) (Z.of_nat (length l))); [|done].
  intros [= <-]. lia.
Qed.

Lemma nth_element_insert i n v (l : list bytes) :
  resolve_index (Z.of_nat (length l)) i = Some n ->
  nth_element i (<[n := v]> l) = Some v
  /\ forall j, 0 <= j < Z.of_nat (length l) -> j <> (if i <? 0 then Z.of_nat (length l) + i else i) ->
       nth_element j (<[n := v]> l) = nth_element j l.
Proof.
  intros Hn. destruct (resolve_index_some _ _ _ Hn) as [Hlt Hz]. split.
  - rewrite <- resolve_index_nth, length_insert, Hn. by apply list_lookup_insert_eq.
  - intros j Hj Hne. unfold nth_element. replace (j <? 0) with false by lia. apply list_lookup_insert_ne. lia.
Qed.

Lemma rem_elements_model count x (l : list bytes) : in_i64 count ->
  let r := rem_elements count x l in
  if count =? 0 then r.1 = filter (fun y => y <> x) l /\ r.2 = Z.of_nat (length (filter (fun y => y = x) l))
  else if 0 <? count then removes x count l r.1 r.2
  else removes x (- count) (reverse l) (reverse r.1) r.2.
Proof.
  intros Hc. unfold rem_elements. destruct (Z.eqb_spec count 0); [done|]. destruct (Z.ltb_spec 0 count).
  - apply rem_loop_removes. lia.
  - rewrite u64_wrap_small by (unfold in_i64, in_u64, i64_min, i64_max, u64_max in *; lia). pose proof (rem_loop_removes x (rev l) (- count) ltac:(lia)) as Hr.
    destruct (rem_loop x (- count) (rev l)) as [kept removed]. simpl in *.
    unfold reverse. by rewrite <- !rev_alt, rev_involutive.
Qed.

Section list_spec.
Context {ZS : Type} `{SortedSet ZS} `{Layout} `{HashIter} `{!SortedSetSpec ZS}.
Abbreviation engine := (StorageEngine ZS).

Definition run_list (c : list_command) (e : engine) (db : nat) (key : bytes) : engine * outcome list_reply :=
  match c with
  | LPush now els => then_ok Count (lpush now e db key els)
  | RPush now els => then_ok Count (rpush now e db key els)
  | LPop => then_ok Element (lpop e db key)
  | RPop => then_ok Element (rpop e db key)
  | LLen => then_ok Count (llen e db key)
  | LRange i j => then_ok Elements (lrange e db key i j)
  | LIndex i => then_ok Element (lindex e db key i)
  | LSet i v => then_ok (fun _ => Done) (lset e db key i v)
  | LTrim i j => then_ok (fun _ => Done) (ltrim e db key i j)
  | LRem count v => then_ok Count (lrem e db key count v)
  end.

(** A key with a list, or without a value: the empty sequence. *)
Definition list_at : engine -> nat -> bytes -> list bytes -> Prop := holds as_list (whole []) [].

Abbreviation in_list := (in_shard as_list (whole []) []).
Abbreviation list_gives key f c l := (gives as_list (whole []) [] key (fun l' r => list_model c l l' (let? a := r in Ok (f a)))).

(** A list that is written back, and removed when it is empty. *)
Lemma in_list_store key sv l (sh : DatabaseShard ZS) : l <> [] -> in_list key (store_back key sv (VList l) sh) l.
Proof. intros. by apply in_shard_stored. Qed.

Lemma in_list_written key sv l (b : bool) (sh : DatabaseShard ZS) :
  let sh1 := store_back key sv (VList l) sh in
  in_list key (remove_if_empty key l (if b then mark_modified key sh1 else sh1)) l.
Proof.
  destruct l as [|x l]; simpl; [by apply in_shard_remove|]. destruct b; by apply in_list_store.
Qed.

Lemma push_gives (add : list bytes -> list bytes -> list bytes) c els key (l : list bytes) sv mm (sh : DatabaseShard ZS) :
  (forall l, list_model c l (add l els) (Ok (Count (Z.of_nat (length (add l els)))))) -> add l els <> [] ->
  list_gives key Count c l (mm, mark_modified key (store_back key sv (VList (add l els)) sh), Ok (Z.of_nat (length (add l els)))).
Proof. intros Hm Hne. leaves (add l els); [|apply Hm]. by apply in_shard_mark, in_list_store. Qed.

Lemma push_new_gives (add : list bytes -> list bytes -> list bytes) c els key now mm (sh : DatabaseShard ZS) :
  list_model c [] (add [] els) (Ok (Count (Z.of_nat (length (add [] els))))) -> add [] els <> [] ->
  list_gives key Count c [] (insert_new_value key now (VList (add [] els)) (Z.of_nat (length (add [] els))) mm sh).
Proof. intros Hm Hne. by apply gives_insert with (add [] els) (add [] els). Qed.

Lemma lset_gives key i v (l : list bytes) mm (sh : DatabaseShard ZS) sv :
  in_list key sh l -> l <> [] ->
  list_gives key (fun _ => Done) (LSet i v) l
    (match resolve_index (Z.of_nat (length l)) i with
     | Some n => (mm, mark_modified key (store_back key sv (VList (<[n := v]> l)) sh), Ok tt)
     | None => (mm, sh, Err (ECommand CIndexOutOfRange))
     end).
Proof.
  intros Hin Hne. pose proof (resolve_index_nth i l) as Hnth. destruct (resolve_index _ i) as [n|] eqn:En.
  - destruct (resolve_index_some _ _ _ En) as [Hlt _]. destruct (nth_element_insert i n v l En) as [Hi Hj].
    leaves (<[n := v]> l).
    + apply in_shard_mark, in_list_store. intros E%(f_equal length). rewrite length_insert in E. simpl in E. lia.
    + simpl. rewrite bool_decide_eq_true_2; [by rewrite length_insert|]. rewrite <- Hnth. by apply lookup_lt_is_Some_2.
  - leaves l; [done|]. simpl. rewrite !bool_decide_eq_false_2; [done|done|]. rewrite <- Hnth. by intros [].
Qed.

Lemma run_list_model c (e : engine) db key l :
  list_allowed c -> list_at e db key l ->
  exists l', list_at (run_list c e db key).1 db key l' /\ list_model c l l' (run_list c e db key).2.
Proof.
  intros Hc Hl. destruct c; apply collection_op; try done; intros mm sh.
  - intros sv Hin Hne. apply (push_gives push_front_all _ elements); [|by apply push_front_nonempty].
    intros l0. by rewrite push_front_exact.
  - intros Hin ->. apply (push_new_gives push_front_all _ elements); [|by apply push_front_nonempty]. by rewrite push_front_exact.
  - intros sv Hin Hne. apply (push_gives push_back_all _ elements); [|by apply push_back_nonempty].
    intros l0. by rewrite push_back_exact.
  - intros Hin ->. apply (push_new_gives push_back_all _ elements); [|by apply push_back_nonempty]. by rewrite push_back_exact.
  - intros sv Hin Hne. destruct l as [|x l]; [done|]. leaves l; [apply (in_list_written key sv l true)|done].
  - intros Hin ->. by leaves ([] : list bytes).
  - intros sv Hin Hne. unfold pop_back. destruct (last l) as [x|] eqn:E; [|by apply last_None in E].
    leaves (take (length l - 1) l); [apply (in_list_written key sv _ true)|]. simpl. by rewrite E.
  - intros Hin ->. by leaves ([] : list bytes).
  - intros sv Hin Hne. by leaves l.
  - intros Hin ->. by leaves ([] : list bytes).
  - intros sv Hin Hne. leaves l; [done|]. simpl. by rewrite range_loop_trim, trim_exact.
  - intros Hin ->. leaves ([] : list bytes); [done|]. simpl. unfold slice. by rewrite drop_nil, take_nil.
  - intros sv Hin Hne. leaves l; [done|]. simpl. by rewrite resolve_index_nth.
  - intros Hin ->. leaves ([] : list bytes); [done|]. simpl. unfold nth_element. by destruct (index <? 0).
  - intros sv Hin Hne. by apply lset_gives.
  - intros Hin ->. leaves ([] : list bytes); [done|]. simpl. rewrite bool_decide_eq_false_2; [done|].
    unfold nth_element. destruct (index <? 0); intros [? Hx]; discriminate Hx.
  - intros sv Hin Hne. leaves (trim_loop (clamp_index (Z.of_nat (length l)) start) (clamp_index (Z.of_nat (length l)) stop) 0 l).
    + apply (in_list_written key sv _ true).
    + simpl. by rewrite trim_exact.
  - intros Hin ->. leaves ([] : list bytes); [done|]. simpl. unfold slice. by rewrite drop_nil, take_nil.
  - intros sv Hin Hne. pose proof (rem_elements_model count v l Hc) as Hm. destruct (rem_elements count v l) as [l' removed].
    leaves l'; [apply (in_list_written key sv l' (0 <? removed))|]. simpl in *. by exists removed.
  - intros Hin ->. leaves ([] : list bytes); [done|]. pose proof (rem_elements_model count v [] Hc) as Hm.
    simpl in *. exists 0. split; [done|]. destruct (count =? 0); [done|]. destruct (0 <? count) eqn:Ec.
    + exists [], []. split_and!; simpl; auto. lia.
    + exists [], []. split_and!; simpl; auto. lia.
Qed.

(** C11. Lists are sequences.  Whatever happens to other keys in between, the
    answers of the list commands on one key are those of a sequence: pushes put
    their elements at an end (in reverse at the front), pops take from one,
    ranges and trims are the positions between two clamped indices, LREM takes
    the given number of occurrences from one side and no more, LSET changes one
    position or answers which error it is; and the key holds that sequence, no
    key the empty one. *)
Theorem list_refines (db : nat) (key : bytes) (e e' : engine) (tr : list (list_command * outcome list_reply)) (l : list bytes)
    (Hstart : list_at e db key l) (Hrun : history run_list list_allowed db key e tr e') :
  exists l', trace list_model l tr l' /\ list_at e' db key l'.
Proof.
  apply (history_refines as_list (whole []) [] run_list list_allowed list_model run_list_model db key e tr e' l Hrun Hstart).
Qed.
End list_spec.

(** RPUSH, a SET of another key, LREM from the end and a range past the end. *)
Lemma list_refines_witness :
  let _ := example_layout in let _ := default_iter in
  let e0 := with_config (ZS:=SkipList) 1 unlimited in
  let push := RPush 1 [B "a"; B "b"; B "a"] in let e1 := (run_list push e0 0%nat (B "k")).1 in
  let e2 := (set_string 5 e1 0 (B "q") (B "v")).1 in
  let rem := LRem (-1) (B "a") in let e3 := (run_list rem e2 0%nat (B "k")).1 in
  let range := LRange 0 9 in let e4 := (run_list range e3 0%nat (B "k")).1 in
  (run_list range e3 0%nat (B "k")).2 = Ok (Elements [B "a"; B "b"])
  /\ exists l', trace list_model []
      [(push, (run_list push e0 0%nat (B "k")).2); (rem, (run_list rem e2 0%nat (B "k")).2);
       (range, (run_list range e3 0%nat (B "k")).2)] l' /\ list_at e4 0 (B "k") l'.
Proof.
  intros lay it e0 push e1 e2 rem e3 range e4. split; [vm_compute; reflexivity|].
  apply (list_refines 0 (B "k") e0 e4).
  - apply holds_start. lia.
  - apply history_own; [discriminate|].
    apply history_other with 0%nat (B "q") e2; [apply (ks_set_value 0 (B "q") e1 5 (VString (B "v")) None I)|discriminate|].
    apply history_own; [by split|]. apply history_own; [done|]. apply history_end.
Defined.
