(* ===== verification/SetSpec.v ===== *)
(** * Sets and hashes refine finite sets and maps

    The commands on one key, against the finite set or map it holds, which is
    empty when there is no key; and the algebra of several keys. *)

From S2P Require Import Prelude Text Resp SortedSet Value PubSub Keyspace ListOps SetOps.
From S2P Require Import KeyspaceProofs CollectionProofs EngineSteps EngineWatch CellSpec ListSpec SkipList SortedSetImpl.

Open Scope Z_scope.

(** ** The commands *)

Inductive set_command :=
  | SAdd (now : Z) (members : list bytes)
  | SRem (members : list bytes)
  | SMembers
  | SIsMember (m : bytes)
  | SCard
  | SPop (shuffle : list bytes -> list bytes) (count : nat)
  | SRandMember (shuffle : list bytes -> list bytes) (choose : nat -> nat) (count : Z).

Inductive set_reply :=
  | SCount (n : Z)
  | SFound (b : bool)
  | SMany (l : list bytes).

(** The generator draws a permutation; a count is an [i64]. *)
Definition set_allowed (c : set_command) : Prop :=
  match c with
  | SAdd _ members => members <> []
  | SPop shuffle _ => forall l, shuffle l ≡ₚ l
  | SRandMember shuffle _ count => (forall l, shuffle l ≡ₚ l) /\ in_i64 count
  | _ => True
  end.

Definition card (s : gset bytes) : Z := Z.of_nat (size s).

(** [n] different members, or all of them. *)
Definition draws (s : gset bytes) (n : nat) (l : list bytes) : Prop :=
  NoDup l /\ (forall x, x ∈ l -> x ∈ s) /\ length l = Nat.min n (size s).

(** A negative count asks for room for as many members first. *)
Definition set_model `{Layout} (c : set_command) (s s' : gset bytes) (r : outcome set_reply) : Prop :=
  match c with
  | SAdd _ ms => s' = s ∪ list_to_set ms /\ r = Ok (SCount (card s' - card s))
  | SRem ms => s' = s ∖ list_to_set ms /\ r = Ok (SCount (card s - card s'))
  | SMembers => s' = s /\ exists l, l ≡ₚ elements s /\ r = Ok (SMany l)
  | SIsMember m => s' = s /\ r = Ok (SFound (bool_decide (m ∈ s)))
  | SCard => s' = s /\ r = Ok (SCount (card s))
  | SPop _ n => exists l, draws s n l /\ s' = s ∖ list_to_set l /\ r = Ok (SMany l)
  | SRandMember _ _ n => s' = s /\
      if 0 <=? n then exists l, r = Ok (SMany l) /\ draws s (Z.to_nat n) l
      else if decide (s = ∅) then r = Ok (SMany [])
      else if - n * size_vec <=? i64_max then exists l, r = Ok (SMany l) /\ (forall x, x ∈ l -> x ∈ s) /\ length l = Z.to_nat (- n)
      else r = Panic
  end.

Lemma length_omap_total {A B} (f : A -> option B) (l : list A) : (forall a, is_Some (f a)) -> length (omap f l) = length l.
Proof. intros Hf. induction l as [|a l IH]; csimpl; [done|]. destruct (Hf a) as [b ->]. csimpl. by rewrite IH. Qed.

Lemma draws_shuffle `{HashIter} (shuffle : list bytes -> list bytes) (s : gset bytes) (n : nat) :
  (forall l, shuffle l ≡ₚ l) -> draws s n (take n (shuffle (set_iter s))).
Proof.
  intros Hp. assert (E : shuffle (set_iter s) ≡ₚ elements s) by (rewrite Hp; apply set_iter_perm). split_and!.
  - eapply sublist_NoDup; [|apply sublist_take]. rewrite E. apply NoDup_elements.
  - intros x Hx. apply elem_of_elements. rewrite <- E. by eapply elem_of_sublist, sublist_take.
  - rewrite length_take, E. done.
Qed.

(** ** Hashes *)

Inductive hash_command :=
  | HSet (now : Z) (fvs : list (bytes * bytes))
  | HGet (field : bytes)
  | HMGet (fields : list bytes)
  | HGetAll
  | HKeys
  | HVals
  | HLen
  | HExists (field : bytes)
  | HDel (fields : list bytes)
  | HIncrBy (now : Z) (field : bytes) (increment : Z).

Inductive hash_reply :=
  | HCount (n : Z)
  | HValue (v : option bytes)
  | HValues (l : list (option bytes))
  | HPairs (l : list (bytes * bytes))
  | HMany (l : list bytes)
  | HFound (b : bool).

Definition hash_allowed (c : hash_command) : Prop := match c with HSet _ fvs => fvs <> [] | _ => True end.

(** The last value given for a field wins. *)
Definition with_fields (fvs : list (bytes * bytes)) (h : gmap bytes bytes) : gmap bytes bytes := list_to_map (reverse fvs) ∪ h.
Definition without_fields (fields : list bytes) (h : gmap bytes bytes) : gmap bytes bytes := filter (fun kv => kv.1 ∉ fields) h.
Definition fields (h : gmap bytes bytes) : Z := Z.of_nat (size h).

(** HSET on a missing key counts the pairs it was given. *)
Definition hash_model (c : hash_command) (h h' : gmap bytes bytes) (r : outcome hash_reply) : Prop :=
  match c with
  | HSet _ fvs => h' = with_fields fvs h
      /\ r = Ok (HCount (if decide (h = ∅) then Z.of_nat (length fvs) else fields h' - fields h))
  | HDel fs => h' = without_fields fs h /\ r = Ok (HCount (fields h - fields h'))
  | HIncrBy _ f n =>
      match h !! f with
      | Some b =>
          match parse_i64 (utf8_lossy b) with
          | Some v => h' = <[f := show_i64 (i64_wrap (v + n))]> h /\ r = Ok (HCount (i64_wrap (v + n)))
          | None => h' = h /\ r = Err (ECommand CNotInteger)
          end
      | None => h' = <[f := show_i64 n]> h /\ r = Ok (HCount n)
      end
  | HGet f => h' = h /\ r = Ok (HValue (h !! f))
  | HMGet fs => h' = h /\ r = Ok (HValues (map (fun f => h !! f) fs))
  | HGetAll => h' = h /\ exists l, l ≡ₚ map_to_list h /\ r = Ok (HPairs l)
  | HKeys => h' = h /\ exists l, l ≡ₚ map_to_list h /\ r = Ok (HMany l.*1)
  | HVals => h' = h /\ exists l, l ≡ₚ map_to_list h /\ r = Ok (HMany l.*2)
  | HLen => h' = h /\ r = Ok (HCount (fields h))
  | HExists f => h' = h /\ r = Ok (HFound (bool_decide (is_Some (h !! f))))
  end.

Lemma fold_insert_fields fvs : forall h, foldl (fun h (fv : bytes * bytes) => <[fv.1 := fv.2]> h) h fvs = with_fields fvs h.
Proof.
  unfold with_fields. induction fvs as [|[f v] fvs IH] using rev_ind; intros h; [symmetry; apply (left_id_L ∅ (∪))|].
  rewrite foldl_app, IH, reverse_app. simpl. by rewrite insert_union_l.
Qed.

Lemma fold_delete_fields fs : forall h, foldl (fun (h : gmap bytes bytes) f => delete f h) h fs = without_fields fs h.
Proof.
  unfold without_fields. induction fs as [|f fs IH]; intros h; simpl.
  - symmetry. apply map_filter_id. intros. apply not_elem_of_nil.
  - rewrite IH. apply map_eq. intros i. apply option_eq. intros v. rewrite !map_lookup_filter_Some, lookup_delete_Some. simpl.
    rewrite not_elem_of_cons. naive_solver.
Qed.

Section set_spec.
Context {ZS : Type} `{SortedSet ZS} `{Layout} `{HashIter} `{!SortedSetSpec ZS}.
Abbreviation engine := (StorageEngine ZS).

Definition run_set (c : set_command) (e : engine) (db : nat) (key : bytes) : engine * outcome set_reply :=
  match c with
  | SAdd now ms => then_ok SCount (sadd now e db key ms)
  | SRem ms => then_ok SCount (srem e db key ms)
  | SMembers => then_ok SMany (smembers e db key)
  | SIsMember m => then_ok SFound (sismember e db key m)
  | SCard => then_ok SCount (scard e db key)
  | SPop shuffle n => then_ok SMany (spop shuffle e db key n)
  | SRandMember shuffle choose n => then_ok SMany (srandmember shuffle choose e db key n)
  end.

Definition set_at : engine -> nat -> bytes -> gset bytes -> Prop := holds as_set (whole ∅) ∅.

Abbreviation in_set := (in_shard as_set (whole ∅) ∅).
Abbreviation set_gives key f c s := (gives as_set (whole ∅) ∅ key (fun s' r => set_model c s s' (let? a := r in Ok (f a)))).

(** A set that is written back, and removed when it is empty. *)
Lemma in_set_written key sv s (b1 b2 : bool) (sh : DatabaseShard ZS) :
  let sh1 := store_back key sv (VSet s) sh in
  in_set key (if decide (s = ∅) then data_remove key (if b1 then mark_modified key sh1 else sh1)
              else if b2 then mark_modified key sh1 else sh1) s.
Proof.
  cbv zeta. case_decide as Hs; [by apply in_shard_remove|]. destruct b2; by apply in_shard_stored.
Qed.

Lemma spop_gives (shuffle : list bytes -> list bytes) (n : nat) (key : bytes) (s : gset bytes) sv mm (sh : DatabaseShard ZS) :
  (forall l, shuffle l ≡ₚ l) -> s <> ∅ ->
  set_gives key SMany (SPop shuffle n) s
    (match set_iter s with
     | [] => (mm, sh, Ok [])
     | members =>
         let result := take (Nat.min n (length members)) (shuffle members) in
         let s' := foldl (fun s m => s ∖ {[m]}) s result in
         let sh1 := store_back key sv (VSet s') sh in
         let sh2 := match result with [] => sh1 | _ => mark_modified key sh1 end in
         (mm, if decide (s' = ∅) then data_remove key sh2 else sh2, Ok result)
     end).
Proof.
  intros Hp Hne. assert (Hi : set_iter s <> []).
  { intros E. apply Hne, leibniz_equiv, elements_empty_inv, Permutation_nil_r. by rewrite <- E, set_iter_perm. }
  assert (Hlen : length (set_iter s) = size s) by by rewrite set_iter_perm.
  pose proof (draws_shuffle shuffle s (Nat.min n (size s)) Hp) as (Hd & Hsub & Hl).
  destruct (set_iter s) as [|m ms]; [done|]. cbv zeta. rewrite pop_members_spec, Hlen.
  set (popped := take (Nat.min n (size s)) (shuffle (m :: ms))) in *.
  leaves (s ∖ list_to_set popped : gset bytes).
  - destruct popped; [apply (in_set_written key sv _ false false)|apply (in_set_written key sv _ true true)].
  - exists popped. split; [|done]. split_and!; [done..|]. lia.
Qed.

Lemma srandmember_gives (shuffle : list bytes -> list bytes) (choose : nat -> nat) (n : Z) (key : bytes) (s : gset bytes) mm (sh : DatabaseShard ZS) :
  (forall l, shuffle l ≡ₚ l) -> in_i64 n -> in_set key sh s -> s <> ∅ ->
  set_gives key SMany (SRandMember shuffle choose n) s
    ((let members := set_iter s in
      match members with
      | [] => answer []
      | _ =>
          if 0 <=? n then answer (take (Z.to_nat (Z.min n (Z.of_nat (length members)))) (shuffle members))
          else fun mm sh =>
            let n := u64_wrap (- n) in
            (mm, sh, let? _ := with_capacity n size_vec in
                     Ok (omap (fun i => members !! (choose i mod length members)%nat) (seq 0 (Z.to_nat n))))
      end) mm sh).
Proof.
  intros Hp Hn Hin Hne. cbv zeta.
  assert (Hmem : forall x, x ∈ set_iter s -> x ∈ s) by (intros x; rewrite set_iter_perm; apply elem_of_elements).
  assert (Hlen : length (set_iter s) = size s) by by rewrite set_iter_perm.
  assert (Hs : size s <> O) by by intros E%size_empty_iff%leibniz_equiv.
  destruct (set_iter s) as [|m ms] eqn:Em; [simpl in Hlen; lia|]. rewrite <- Em in *. destruct (Z.leb_spec 0 n) as [Hz|Hz]; leaves s; try done.
  - split; [done|]. rewrite Zle_imp_le_bool by done. eexists. split; [done|]. rewrite Hlen.
    replace (Z.to_nat (Z.min n (Z.of_nat (size s)))) with (Nat.min (Z.to_nat n) (size s)) by lia.
    destruct (draws_shuffle shuffle s (Nat.min (Z.to_nat n) (size s)) Hp) as (Hd & Hsub & Hl). split_and!; [done..|]. lia.
  - split; [done|]. replace (0 <=? n) with false by lia. rewrite decide_False by done.
    rewrite u64_wrap_small by (unfold in_i64, in_u64, i64_min, i64_max, u64_max in *; lia).
    unfold with_capacity. destruct (- n * size_vec <=? i64_max); [|done]. eexists. split; [done|]. split.
    + intros x (i & _ & Hx)%list_elem_of_omap. by eapply Hmem, list_elem_of_lookup_2.
    + rewrite length_omap_total, length_seq; [done|]. intros i. apply lookup_lt_is_Some_2, Nat.mod_upper_bound. lia.
Qed.

Lemma run_set_model c (e : engine) db key s :
  set_allowed c -> set_at e db key s ->
  exists s', set_at (run_set c e db key).1 db key s' /\ set_model c s s' (run_set c e db key).2.
Proof.
  intros Hc Hs. destruct c; apply collection_op; try done; intros mm sh.
  - intros sv Hin Hne. rewrite insert_members_exact. leaves (s ∪ list_to_set members : gset bytes); [|done].
    destruct (0 <? _); apply in_shard_stored; set_solver.
  - intros Hin ->. rewrite insert_members_exact. apply gives_insert with (∅ ∪ list_to_set members) (∅ ∪ list_to_set members); try done.
    split; [done|]. destruct members; [done|]. set_solver.
  - intros sv Hin Hne. rewrite remove_members_exact. leaves (s ∖ list_to_set members : gset bytes); [|done].
    apply (in_set_written key sv _ true).
  - intros Hin ->. leaves (∅ : gset bytes); [done|]. assert (∅ ∖ list_to_set members = (∅ : gset bytes)) as E by set_solver. by simpl; rewrite E.
  - intros sv Hin Hne. leaves s; [done|]. split; [done|]. exists (set_iter s). split; [apply set_iter_perm|done].
  - intros Hin ->. leaves (∅ : gset bytes); [done|]. split; [done|]. by exists [].
  - intros sv Hin Hne. by leaves s.
  - intros Hin ->. leaves (∅ : gset bytes); [done|]. split; [done|]. by rewrite bool_decide_eq_false_2 by set_solver.
  - intros sv Hin Hne. by leaves s.
  - intros Hin ->. by leaves (∅ : gset bytes).
  - intros sv Hin Hne. by apply spop_gives.
  - intros Hin ->. leaves (∅ : gset bytes); [done|]. exists []. split_and!; [|set_solver|done]. split_and!; [constructor|set_solver|].
    rewrite size_empty. simpl. lia.
  - destruct Hc. intros sv Hin Hne. by apply srandmember_gives.
  - intros Hin ->. leaves (∅ : gset bytes); [done|]. split; [done|]. rewrite decide_True by done.
    destruct (0 <=? count); [|done]. exists []. split; [done|]. split_and!; [constructor|set_solver|]. rewrite size_empty. simpl. lia.
Qed.

(** C12. Sets are finite sets.  The set commands on one key answer as a finite set
    does, whatever happens to other keys in between: SADD and SREM count the
    members that came and went, SPOP takes different members and SRANDMEMBER
    shows some, different ones for a positive count and as many as asked for a
    negative one; when those do not fit into a vector, a set that has a member
    makes it panic. *)
Theorem set_refines (db : nat) (key : bytes) (e e' : engine) (tr : list (set_command * outcome set_reply)) (s : gset bytes)
    (Hstart : set_at e db key s) (Hrun : history run_set set_allowed db key e tr e') :
  exists s', trace set_model s tr s' /\ set_at e' db key s'.
Proof.
  apply (history_refines as_set (whole ∅) ∅ run_set set_allowed set_model run_set_model db key e tr e' s Hrun Hstart).
Qed.

(** *** Several keys *)

Lemma read_set_exact (e : engine) db key s :
  set_at e db key s -> read_set e db key = Ok (if decide (s = ∅) then None else Some s).
Proof.
  intros (sh & Hsh & Hin). unfold read_set. rewrite (with_shard_result _ _ _ _ _ Hsh). unfold typed_op, in_shard in *.
  destruct (data sh !! key) as [sv|]; [|by rewrite decide_True]. destruct Hin as (y & Hy & -> & Hne).
  rewrite Hy, decide_False by done. done.
Qed.

Lemma union_loop_exact (e : engine) db keys sets :
  Forall2 (set_at e db) keys sets -> forall acc, union_loop e db keys acc = Ok (acc ∪ ⋃ sets).
Proof.
  induction 1 as [|k s ks ss Hs _ IH]; intros acc; simpl; [by rewrite (right_id_L ∅ (∪))|].
  rewrite (read_set_exact _ _ _ _ Hs). simpl. rewrite IH. f_equal. case_decide; set_solver.
Qed.

Lemma diff_loop_exact (e : engine) db keys sets :
  Forall2 (set_at e db) keys sets -> forall acc, diff_loop e db keys acc = Ok (acc ∖ ⋃ sets).
Proof.
  induction 1 as [|k s ks ss Hs _ IH]; intros acc; simpl; [f_equal; set_solver|].
  rewrite (read_set_exact _ _ _ _ Hs). simpl. rewrite IH. f_equal. case_decide; set_solver.
Qed.

Lemma inter_loop_exact (e : engine) db keys sets :
  Forall2 (set_at e db) keys sets -> forall acc,
  exists r, inter_loop e db keys acc = Ok r /\ default ∅ r = foldl (∩) acc sets.
Proof.
  induction 1 as [|k s ks ss Hs _ IH]; intros acc; simpl; [by eexists|].
  rewrite (read_set_exact _ _ _ _ Hs). simpl. case_decide as Hemp.
  - exists None. split; [done|]. subst. assert (acc ∩ ∅ = ∅) as -> by set_solver. simpl. clear.
    induction ss as [|s ss IH]; simpl; [done|]. by assert (∅ ∩ s = ∅) as -> by set_solver.
  - destruct (IH (filter (fun m => m ∈ s) acc)) as (r & -> & Hr). exists r. split; [done|]. rewrite Hr. f_equal. set_solver.
Qed.

(** The algebra of sets: on keys that hold sets (or nothing) SUNION, SINTER
    and SDIFF list, each member once, the union, the intersection and what the
    first has and no other. *)
Theorem set_algebra_exact (e : engine) (db : nat) (k : bytes) (s : gset bytes) (keys : list bytes) (sets : list (gset bytes))
    (Hfirst : set_at e db k s) (Hrest : Forall2 (set_at e db) keys sets) :
  (exists l, sunion e db (k :: keys) = Ok l /\ l ≡ₚ elements (s ∪ ⋃ sets))
  /\ (exists l, sinter e db (k :: keys) = Ok l /\ l ≡ₚ elements (foldl (∩) s sets))
  /\ (exists l, sdiff e db (k :: keys) = Ok l /\ l ≡ₚ elements (s ∖ ⋃ sets)).
Proof.
  pose proof (read_set_exact _ _ _ _ Hfirst) as Hread. split_and!.
  - unfold sunion. rewrite (union_loop_exact _ _ _ (s :: sets)) by by constructor. eexists. split; [done|].
    rewrite set_iter_perm. by rewrite (left_id_L ∅ (∪)).
  - unfold sinter. rewrite Hread. simpl. case_decide as Hs.
    + exists []. split; [done|]. subst s.
      clear. assert (foldl (∩) ∅ sets = (∅ : gset bytes)) as ->; [|by rewrite elements_empty].
      induction sets as [|s ss IH]; simpl; [done|]. by assert (∅ ∩ s = ∅) as -> by set_solver.
    + destruct (inter_loop_exact e db keys sets Hrest s) as (r & -> & <-). simpl. eexists. split; [done|].
      destruct r; simpl; [apply set_iter_perm|by rewrite elements_empty].
  - unfold sdiff. rewrite Hread. simpl. case_decide as Hs.
    + exists []. split; [done|]. subst s. assert (∅ ∖ ⋃ sets = ∅) as -> by set_solver. by rewrite elements_empty.
    + rewrite (diff_loop_exact _ _ _ _ Hrest). simpl. eexists. split; [done|apply set_iter_perm].
Qed.
End set_spec.

(** Two sets and a missing key. *)
Lemma set_algebra_exact_witness :
  let _ := example_layout in let _ := default_iter in
  let e0 := with_config (ZS:=SkipList) 1 unlimited in
  let e1 := (run_set (SAdd 1 [B "a"; B "b"]) e0 0%nat (B "k")).1 in
  set_at e1 0 (B "k") {[B "a"; B "b"]} /\ set_at e1 0 (B "m") ∅
  /\ exists l, sinter e1 0 [B "k"; B "m"] = Ok l /\ l ≡ₚ [].
Proof.
  intros lay it e0 e1.
  assert (Hk : set_at e1 0 (B "k") {[B "a"; B "b"]}).
  { destruct (run_set_model (SAdd 1 [B "a"; B "b"]) e0 0%nat (B "k") ∅ ltac:(discriminate)) as (s & Hs & -> & _);
      [by apply holds_start; lia|]. by replace ({[B "a"; B "b"]} : gset bytes) with (∅ ∪ list_to_set [B "a"; B "b"] : gset bytes) by set_solver. }
  assert (Hm : set_at e1 0 (B "m") ∅).
  { eapply other_step_holds; [apply (ks_sadd 0 (B "k") e0 1 [B "a"; B "b"] ltac:(discriminate))|discriminate|].
    apply holds_start. lia. }
  split; [exact Hk|]. split; [exact Hm|].
  destruct (set_algebra_exact e1 0 (B "k") _ [B "m"] [∅] Hk) as (_ & (l & Hl & Hp) & _); [repeat constructor; exact Hm|].
  exists l. split; [exact Hl|]. rewrite Hp. by vm_compute.
Defined.

(** SADD with a repetition, a SET of another key, SRANDMEMBER with the smallest
    count, SPOP of more than there is. *)
Lemma set_refines_witness :
  let _ := example_layout in let _ := default_iter in
  let e0 := with_config (ZS:=SkipList) 1 unlimited in
  let add := SAdd 1 [B "a"; B "b"; B "a"] in let e1 := (run_set add e0 0%nat (B "k")).1 in
  let e2 := (set_string 5 e1 0 (B "q") (B "v")).1 in
  let show := SRandMember (fun l => l) (fun i => i) i64_min in
  let pop := SPop (fun l => l) 9 in let e3 := (run_set pop (run_set show e2 0%nat (B "k")).1 0%nat (B "k")).1 in
  (run_set add e0 0%nat (B "k")).2 = Ok (SCount 2) /\ (run_set show e2 0%nat (B "k")).2 = Panic
  /\ exists s', trace set_model ∅ [(add, (run_set add e0 0%nat (B "k")).2); (show, (run_set show e2 0%nat (B "k")).2);
                                   (pop, (run_set pop (run_set show e2 0%nat (B "k")).1 0%nat (B "k")).2)] s'
       /\ set_at e3 0 (B "k") s'.
Proof.
  intros lay it e0 add e1 e2 show pop e3. split; [vm_compute; reflexivity|]. split; [vm_compute; reflexivity|].
  apply (set_refines 0 (B "k") e0 e3).
  - apply holds_start. lia.
  - apply history_own; [discriminate|].
    apply history_other with 0%nat (B "q") e2; [apply (ks_set_value 0 (B "q") e1 5 (VString (B "v")) None I)|discriminate|].
    apply history_own; [split; [intros l; reflexivity|split; discriminate]|].
    apply history_own; [intros l; reflexivity|]. apply history_end.
Defined.

Lemma map_lookup_empty (fs : list bytes) : map (fun f => (∅ : gmap bytes bytes) !! f) fs = replicate (length fs) None.
Proof. induction fs as [|f fs IH]; simpl; [done|]. by rewrite lookup_empty, IH. Qed.

Section hash_spec.
Context {ZS : Type} `{SortedSet ZS} `{Layout} `{HashIter} `{!SortedSetSpec ZS}.
Abbreviation engine := (StorageEngine ZS).

Definition run_hash (c : hash_command) (e : engine) (db : nat) (key : bytes) : engine * outcome hash_reply :=
  match c with
  | HSet now fvs => then_ok HCount (hset now e db key fvs)
  | HGet f => then_ok HValue (hget e db key f)
  | HMGet fs => then_ok HValues (hmget e db key fs)
  | HGetAll => then_ok HPairs (hgetall e db key)
  | HKeys => then_ok HMany (hkeys e db key)
  | HVals => then_ok HMany (hvals e db key)
  | HLen => then_ok HCount (hlen e db key)
  | HExists f => then_ok HFound (hexists e db key f)
  | HDel fs => then_ok HCount (hdel e db key fs)
  | HIncrBy now f n => then_ok HCount (hincrby now e db key f n)
  end.

Definition hash_at : engine -> nat -> bytes -> gmap bytes bytes -> Prop := holds as_hash (whole ∅) ∅.

Lemma insert_fields_exact (h : gmap bytes bytes) fvs :
  insert_fields h fvs = (with_fields fvs h, fields (with_fields fvs h) - fields h).
Proof.
  unfold insert_fields. destruct (insert_fields_spec fvs h 0) as [H1' H2']. cbv zeta in *.
  rewrite fold_insert_fields in H1'. rewrite H1' in H2'. apply injective_projections; [done|]. simpl. unfold fields. lia.
Qed.

Lemma remove_fields_exact (h : gmap bytes bytes) fs :
  remove_fields h fs = (without_fields fs h, fields h - fields (without_fields fs h)).
Proof.
  unfold remove_fields. destruct (remove_fields_spec fs h 0) as [H1' H2']. cbv zeta in *.
  rewrite fold_delete_fields in H1'. rewrite H1' in H2'. apply injective_projections; [done|]. simpl. unfold fields. lia.
Qed.

Lemma with_fields_nonempty fvs h : fvs <> [] -> with_fields fvs h <> ∅.
Proof. intros Hne. pose proof (insert_fields_nonempty fvs h Hne) as Hx. by rewrite insert_fields_exact in Hx. Qed.

Abbreviation in_hash := (in_shard as_hash (whole ∅) ∅).

Lemma in_hash_deleted key sv h (sh : DatabaseShard ZS) :
  let sh1 := store_back key sv (VHash h) sh in
  in_hash key (mark_modified key (if decide (h = ∅) then data_remove key sh1 else sh1)) h.
Proof.
  cbv zeta. apply in_shard_mark. case_decide as Hh; [by apply in_shard_remove|by apply in_shard_stored].
Qed.

Lemma run_hash_model c (e : engine) db key h :
  hash_allowed c -> hash_at e db key h ->
  exists h', hash_at (run_hash c e db key).1 db key h' /\ hash_model c h h' (run_hash c e db key).2.
Proof.
  intros Hc Hh. destruct c; apply collection_op; try done; intros mm sh;
    try (intros ->; by leaves (∅ : gmap bytes bytes)); try (intros sv Hin Hne; by leaves h).
  all: match goal with
       | |- forall sv, _ -> _ -> _ => intros sv Hin Hne
       | |- _ -> _ -> _ => intros Hin ->
       end.
  - rewrite insert_fields_exact. leaves (with_fields fvs h); [by apply in_shard_stored, with_fields_nonempty|].
    simpl. by rewrite decide_False.
  - rewrite insert_fields_exact. apply gives_insert with (with_fields fvs ∅) (with_fields fvs ∅); [done| |by simpl; rewrite decide_True].
    split; [done|]. by apply with_fields_nonempty.
  - by leaves (∅ : gmap bytes bytes).
  - leaves (∅ : gmap bytes bytes); [done|]. split; [done|]. simpl. by rewrite map_lookup_empty.
  - leaves h; [done|]. split; [done|]. exists (map_iter h). split; [apply map_iter_perm|done].
  - leaves (∅ : gmap bytes bytes); [done|]. split; [done|]. by exists [].
  - leaves h; [done|]. split; [done|]. exists (map_iter h). split; [apply map_iter_perm|done].
  - leaves (∅ : gmap bytes bytes); [done|]. split; [done|]. by exists [].
  - leaves h; [done|]. split; [done|]. exists (map_iter h). split; [apply map_iter_perm|done].
  - leaves (∅ : gmap bytes bytes); [done|]. split; [done|]. by exists [].
  - by leaves (∅ : gmap bytes bytes).
  - by leaves (∅ : gmap bytes bytes).
  - rewrite remove_fields_exact. leaves (without_fields fields0 h); [|done]. apply in_hash_deleted.
  - leaves (∅ : gmap bytes bytes); [done|]. simpl. unfold without_fields. by rewrite map_filter_empty.
  - destruct (h !! field) as [b|] eqn:E; [destruct (parse_i64 (utf8_lossy b)) as [v|] eqn:Ev|]; cbv zeta.
    + leaves (<[field := show_i64 (i64_wrap (v + increment))]> h); [|by simpl; rewrite E, Ev].
      apply in_shard_mark, in_shard_stored; [done|apply insert_non_empty].
    + leaves h; [done|]. simpl. by rewrite E, Ev.
    + leaves (<[field := show_i64 increment]> h); [|by simpl; rewrite E].
      apply in_shard_mark, in_shard_stored; [done|apply insert_non_empty].
  - apply gives_insert with {[field := show_i64 increment]} ({[field := show_i64 increment]} : gmap bytes bytes); try done.
Qed.

(** C13. Hashes are finite maps.  The hash commands on one key answer as a finite
    map does, whatever happens to other keys in between: HSET lets the last
    value of a field win, HDEL counts the fields that went, HINCRBY adds to the
    number a field holds, wrapping around at 64 bits, and refuses a field that
    holds none. *)
Theorem hash_refines (db : nat) (key : bytes) (e e' : engine) (tr : list (hash_command * outcome hash_reply)) (h : gmap bytes bytes)
    (Hstart : hash_at e db key h) (Hrun : history run_hash hash_allowed db key e tr e') :
  exists h', trace hash_model h tr h' /\ hash_at e' db key h'.
Proof.
  apply (history_refines as_hash (whole ∅) ∅ run_hash hash_allowed hash_model run_hash_model db key e tr e' h Hrun Hstart).
Qed.
End hash_spec.

(** HSET, HINCRBY past the largest number, HDEL. *)
Lemma hash_refines_witness :
  let _ := example_layout in let _ := default_iter in
  let e0 := with_config (ZS:=SkipList) 1 unlimited in
  let put := HSet 1 [(B "f", B "9223372036854775807"); (B "g", B "x")] in let e1 := (run_hash put e0 0%nat (B "k")).1 in
  let inc := HIncrBy 2 (B "f") 1 in let e2 := (run_hash inc e1 0%nat (B "k")).1 in
  let del := HDel [B "f"; B "g"] in let e3 := (run_hash del e2 0%nat (B "k")).1 in
  (run_hash inc e1 0%nat (B "k")).2 = Ok (HCount (-9223372036854775808))
  /\ exists h', trace hash_model ∅ [(put, (run_hash put e0 0%nat (B "k")).2); (inc, (run_hash inc e1 0%nat (B "k")).2);
                                    (del, (run_hash del e2 0%nat (B "k")).2)] h' /\ hash_at e3 0 (B "k") h'.
Proof.
  intros lay it e0 put e1 inc e2 del e3. split; [vm_compute; reflexivity|].
  apply (hash_refines 0 (B "k") e0 e3).
  - apply holds_start. lia.
  - apply history_own; [discriminate|]. apply history_own; [done|]. apply history_own; [done|]. apply history_end.
Defined.
