(* ===== verification/ZSetSpec.v ===== *)
(** * Sorted sets refine sorted lists

    The sorted set commands on one key, against the list of its members with
    their scores in order, which is empty when there is no key. *)

From S2P Require Import Prelude Text Resp SortedSet Value PubSub Keyspace ListOps ZSetOps.
From S2P Require Import KeyspaceProofs CollectionProofs EngineSteps EngineWatch CellSpec SkipList SortedSetImpl.
From Stdlib Require Import Floats.SpecFloat.

Open Scope Z_scope.

(** ** Ranks and ranges *)

Lemma lookup_score_elem m v l : lookup_score m l = Some v -> (m, v) ∈ l.
Proof.
  unfold lookup_score. destruct (filter (fun x => x.1 = m) l) as [|[m' v'] f] eqn:E; [done|]. intros [= <-].
  assert (Hin : (m', v') ∈ filter (fun x : bytes * f64 => x.1 = m) l) by (rewrite E; left).
  apply list_elem_of_filter in Hin as [Hm Hin]. simpl in *. by subst.
Qed.

(** The rank of an item is its position. *)
Lemma rank_is_position l x :
  StronglySorted item_lt l -> x ∈ l -> l !! length (filter (fun y => item_lt y x) l) = Some x.
Proof.
  intros Hs (l1 & l2 & ->)%list_elem_of_split. rewrite filter_app, filter_cons_False by apply item_lt_irrefl.
  rewrite (filter_all _ l1), (filter_none _ l2), app_nil_r; [by rewrite list_lookup_middle|..].
  - intros y Hy Hyx. apply (StronglySorted_app_1_r _ l1), StronglySorted_inv in Hs as [_ Hf]. rewrite Forall_forall in Hf.
    specialize (Hf y Hy). unfold item_lt in *. rewrite item_cmp_antisym, Hf in Hyx. done.
  - intros y Hy. apply (StronglySorted_app_1_elem_of _ _ _ y x Hs Hy). by left.
Qed.

Lemma rank_slice_beyond lo hi l : Z.of_nat (length l) <= lo \/ hi < lo -> rank_slice lo hi l = [].
Proof.
  intros Hb. unfold rank_slice. destruct Hb; [rewrite drop_ge, take_nil by lia; done|]. by rewrite Z2Nat.nonpos by lia.
Qed.

Lemma rank_slice_clamp lo hi l : 0 <= lo < Z.of_nat (length l) ->
  rank_slice lo (Z.min hi (Z.of_nat (length l) - 1)) l = rank_slice lo hi l.
Proof.
  intros Hlo. unfold rank_slice. destruct (Z.leb_spec hi (Z.of_nat (length l) - 1)); [do 2 f_equal; lia|].
  rewrite !take_ge; [done|rewrite length_drop; lia..].
Qed.

(** A slice counted from the other end. *)
Lemma rank_slice_reverse a b l :
  let last := Z.of_nat (length l) - 1 in
  0 <= a <= last -> 0 <= b <= last -> reverse (rank_slice (last - b) (last - a) l) = rank_slice a b (reverse l).
Proof.
  intros last Ha Hb. unfold rank_slice. destruct (Z.ltb_spec b a) as [Hlt|Hle].
  { by rewrite (Z2Nat.nonpos (last - a + 1 - (last - b))), (Z2Nat.nonpos (b + 1 - a)) by lia. }
  rewrite drop_reverse, take_reverse, length_take. f_equal. rewrite skipn_firstn_comm. f_equal; [lia|f_equal; lia].
Qed.

(** ** The commands *)

Abbreviation items := (list (bytes * f64)).

Inductive zset_command :=
  | ZAdd (lvl : nat) (now : Z) (m : bytes) (v : f64)
  | ZIncrBy (lvl : nat) (now : Z) (m : bytes) (v : f64)
  | ZRem (m : bytes)
  | ZScore (m : bytes)
  | ZRank (m : bytes) (reverse : bool)
  | ZRange (start stop : Z) (reverse : bool)
  | ZRangeByScore (min max : f64) (reverse : bool)
  | ZCount (min max : f64)
  | ZCard.

Inductive zset_reply :=
  | ZFlag (b : bool)
  | ZNumber (v : f64)
  | ZOption (v : option f64)
  | ZPosition (n : option Z)
  | ZItems (l : items)
  | ZCounted (n : Z).

(** The new score of ZINCRBY. *)
Definition added (m : bytes) (v : f64) (l : items) : f64 :=
  match lookup_score m l with Some c => f_add c v | None => v end.

(** The levels the generator draws, scores that are numbers, fewer than 2^64 members. *)
Definition zset_allowed (c : zset_command) (l : items) : Prop :=
  Z.of_nat (length l) < u64_max /\
  match c with
  | ZAdd lvl _ _ v => (lvl < 32)%nat /\ is_nan v = false
  | ZIncrBy lvl _ m v => (lvl < 32)%nat /\ is_nan (added m v l) = false
  | _ => True
  end.

Definition with_score (m : bytes) (v : f64) (l : items) : items := insert_item (m, v) (without_member m l).

(** A new key may not fit into the memory limit. *)
Definition stores (m : bytes) (v : f64) (reply : zset_reply) (l l' : items) (r : outcome zset_reply) : Prop :=
  (l' = with_score m v l /\ r = Ok reply) \/ (l = [] /\ l' = [] /\ r = Err (EStorage OutOfMemory)).

(** The position an index means, from 0 and without an upper limit. *)
Definition position (len i : Z) : Z := if i <? 0 then Z.max 0 (len + i) else i.

(** The range of ZREVRANGE is that of the reversed list with both ends inside it. *)
Definition zset_model (c : zset_command) (l l' : items) (r : outcome zset_reply) : Prop :=
  let len := Z.of_nat (length l) in
  match c with
  | ZAdd _ _ m v => stores m v (ZFlag (bool_decide (lookup_score m l = None))) l l' r
  | ZIncrBy _ _ m v => stores m (added m v l) (ZNumber (added m v l)) l l' r
  | ZRem m => l' = without_member m l /\ r = Ok (ZFlag (bool_decide (is_Some (lookup_score m l))))
  | ZScore m => l' = l /\ r = Ok (ZOption (lookup_score m l))
  | ZRank m rev => l' = l /\
      match lookup_score m l with
      | Some v => exists n, l !! n = Some (m, v)
                  /\ r = Ok (ZPosition (Some (if rev then len - 1 - Z.of_nat n else Z.of_nat n)))
      | None => r = Ok (ZPosition None)
      end
  | ZRange i j rev => l' = l /\
      let a := position len i in let b := position len j in
      r = Ok (ZItems (if rev then rank_slice (Z.min a (len - 1)) (Z.min b (len - 1)) (reverse l) else rank_slice a b l))
  | ZRangeByScore lo hi rev => l' = l /\
      let found := filter (fun x => f_lt x.2 lo = false /\ f_le x.2 hi = true) l in
      r = Ok (ZItems (if rev then reverse found else found))
  | ZCount lo hi => l' = l /\
      r = Ok (ZCounted (Z.of_nat (length (filter (fun x => f_lt x.2 lo = false /\ f_le x.2 hi = true) l))))
  | ZCard => l' = l /\ r = Ok (ZCounted len)
  end.

Section zset_spec.
Context {ZS : Type} `{SortedSet ZS} `{Layout} `{HashIter} `{!SortedSetSpec ZS}.
Abbreviation engine := (StorageEngine ZS).

Definition run_zset (c : zset_command) (e : engine) (db : nat) (key : bytes) : engine * outcome zset_reply :=
  match c with
  | ZAdd lvl now m v => then_ok ZFlag (zadd lvl now e db key m v)
  | ZIncrBy lvl now m v => then_ok ZNumber (zincrby lvl now e db key m v)
  | ZRem m => then_ok ZFlag (zrem e db key m)
  | ZScore m => then_ok ZOption (zscore e db key m)
  | ZRank m rev => then_ok ZPosition (zrank e db key m rev)
  | ZRange i j rev => then_ok ZItems (zrange e db key i j rev)
  | ZRangeByScore lo hi rev => then_ok ZItems (zrangebyscore e db key lo hi rev)
  | ZCount lo hi => then_ok ZCounted (zcount e db key lo hi)
  | ZCard => then_ok ZCounted (zcard e db key)
  end.

Definition zset_at : engine -> nat -> bytes -> items -> Prop := holds as_sorted_set zs_rep [].

Abbreviation in_zset := (in_shard as_sorted_set zs_rep []).

Lemma zset_op {A} (f : A -> zset_reply) c (e : engine) db key l some none :
  let Q l l' r := zset_model c l l' (let? a := r in Ok (f a)) in
  zset_at e db key l ->
  (forall mm sh sv z, in_zset key sh l -> zs_rep z l -> gives as_sorted_set zs_rep [] key (Q l) (some sv z mm sh)) ->
  (forall mm sh, in_zset key sh [] -> l = [] -> gives as_sorted_set zs_rep [] key (Q []) (none mm sh)) ->
  let res := then_ok (A := A) f (with_shard e db key (typed_op as_sorted_set key some none)) in
  exists l', zset_at res.1 db key l' /\ zset_model c l l' res.2.
Proof.
  intros Q Hl Hs Hn res. apply (typed_holds as_sorted_set zs_rep [] e db key some none l (Q l) Hl).
  - intros mm sh sv y Hsv Hy Hr. apply Hs; [|done]. by eapply in_shard_some.
  - intros mm sh Hnone ->. apply Hn; [|done]. by apply in_shard_none.
Qed.

Lemma zrange_body_exact z l i j rev :
  zs_rep z l ->
  let len := Z.of_nat (length l) in let a := position len i in let b := position len j in
  zrange_body z i j rev
  = Ok (if rev then rank_slice (Z.min a (len - 1)) (Z.min b (len - 1)) (reverse l) else rank_slice a b l).
Proof.
  intros Hr len a b. unfold zrange_body. rewrite (zs_len_rep _ _ Hr). fold len. fold (position len i) (position len j).
  fold a b. assert (Ha : 0 <= a) by (unfold a, position; destruct (Z.ltb_spec i 0); lia).
  assert (Hb : 0 <= b) by (unfold b, position; destruct (Z.ltb_spec j 0); lia).
  destruct (Z.eqb_spec len 0) as [Hz|Hz].
  { destruct l; [|done]. unfold rank_slice. rewrite reverse_nil, !drop_nil, !take_nil. by destruct rev. }
  unfold saturating_sub. destruct rev.
  - rewrite (zs_range_by_rank_rep _ _ _ _ Hr) by lia. simpl. rewrite <- rank_slice_reverse by (fold len; lia). fold len.
    rewrite rev_alt. unfold reverse. do 3 f_equal. lia. lia.
  - destruct (Z.leb_spec len a); simpl; [by rewrite rank_slice_beyond by (fold len; lia)|].
    destruct (Z.ltb_spec b a); [by rewrite rank_slice_beyond by lia|].
    rewrite (zs_range_by_rank_rep _ _ _ _ Hr), (Z.min_l a) by lia. f_equal. apply rank_slice_clamp. fold len. lia.
Qed.

Lemma insert_gives {A} (f : A -> zset_reply) c key (l : items) z m v lvl (a : option f64 -> A) sv mm (sh : DatabaseShard ZS) :
  zs_rep z l -> (lvl < 32)%nat -> is_nan v = false -> Z.of_nat (length l) < u64_max ->
  zset_model c l (with_score m v l) (Ok (f (a (lookup_score m l)))) ->
  gives as_sorted_set zs_rep [] key (fun l' r => zset_model c l l' (let? x := r in Ok (f x)))
    (insert_member lvl key sv z m v a mm sh).
Proof.
  intros Hr Hlvl Hv Hlen Hm. unfold insert_member. destruct (zs_insert_rep z l lvl m v Hr Hlvl Hv Hlen) as (z' & -> & Hr').
  leaves (with_score m v l); [|done]. by apply in_shard_mark, in_shard_store with z'.
Qed.

Lemma create_gives {A} (f : A -> zset_reply) c key now m v lvl (a : A) mm (sh : DatabaseShard ZS) :
  in_zset key sh [] -> (lvl < 32)%nat -> is_nan v = false ->
  zset_model c [] (with_score m v []) (Ok (f a)) -> zset_model c [] [] (Err (EStorage OutOfMemory)) ->
  gives as_sorted_set zs_rep [] key (fun l' r => zset_model c [] l' (let? x := r in Ok (f x)))
    (create_sorted_set lvl now key m v a mm sh).
Proof.
  intros Hin Hlvl Hv Hm Hoom. unfold create_sorted_set.
  destruct (zs_insert_rep zs_new [] lvl m v zs_new_rep Hlvl Hv ltac:(done)) as (z' & -> & Hr').
  unfold insert_accounted. destruct (add_memory mm _) as [mm' []]; [|by leaves ([] : items)].
  by apply gives_insert with z' (with_score m v []).
Qed.

Lemma run_zcount lo hi (e : engine) db key :
  run_zset (ZCount lo hi) e db key = then_ok (fun l => ZCounted (Z.of_nat (length l))) (zrangebyscore e db key lo hi false).
Proof. simpl. unfold zcount, then_ok. by destruct (zrangebyscore e db key lo hi false) as [e' [l|err|]]. Qed.

(** C14. Sorted sets are sorted lists.  On a key whose members and scores are a
    list in order of score (the empty one without a key), ZADD and ZINCRBY put
    the member at its new place and tell what was there, ZREM removes it, the
    rank of a member is its position from either end, and the ranges by position
    and by score are the slices of that list, or of the reversed one with both
    ends moved inside it. *)
Theorem zset_exact (c : zset_command) (e : engine) (db : nat) (key : bytes) (l : items)
    (Hallowed : zset_allowed c l) (Hl : zset_at e db key l) :
  exists l', zset_at (run_zset c e db key).1 db key l' /\ zset_model c l l' (run_zset c e db key).2.
Proof.
  destruct Hallowed as [Hlen Hallowed]. destruct c; try (rewrite run_zcount); apply zset_op; try done; intros mm sh.
  - intros sv z Hin Hr. destruct Hallowed as (Hlvl & Hv). apply (insert_gives _ (ZAdd lvl now m v)); try done. by left.
  - intros Hin ->. destruct Hallowed as (Hlvl & Hv). apply (create_gives _ (ZAdd lvl now m v)); [done..|by left|by right].
  - intros sv z Hin Hr. destruct Hallowed as (Hlvl & Hv). cbv zeta. rewrite (zs_get_score_rep _ _ _ Hr). fold (added m v l).
    apply (insert_gives _ (ZIncrBy lvl now m v)); try done. by left.
  - intros Hin ->. destruct Hallowed as (Hlvl & Hv). apply (create_gives _ (ZIncrBy lvl now m v)); [done..|by left|by right].
  - intros sv z Hin Hr. destruct (zs_remove_rep _ _ m Hr) as (z' & -> & Hr'). destruct (lookup_score m l) as [o|] eqn:E; cbv zeta.
    + leaves (without_member m l); [|simpl; by rewrite E]. rewrite (zs_len_rep _ _ Hr').
      destruct (Z.eqb_spec (Z.of_nat (length (without_member m l))) 0) as [Hz|_].
      * apply in_shard_remove. by destruct (without_member m l).
      * by apply in_shard_mark, in_shard_store with z'.
    + leaves (without_member m l); [by apply in_shard_store with z'|simpl; by rewrite E].
  - intros Hin ->. by leaves ([] : items).
  - intros sv z Hin Hr. rewrite (zs_get_score_rep _ _ _ Hr). by leaves l.
  - intros Hin ->. by leaves ([] : items).
  - intros sv z Hin Hr. rewrite (zs_get_rank_rep _ _ _ Hr). leaves l; [done|]. split; [done|].
    destruct (lookup_score m l) as [v|] eqn:E; [|done]. pose proof (zs_rep_items _ _ Hr) as [Hsorted _ _].
    pose proof (rank_is_position l (m, v) Hsorted (lookup_score_elem _ _ _ E)) as Hpos.
    eexists. split; [exact Hpos|]. simpl. destruct reverse0; [|done]. do 3 f_equal. rewrite (zs_len_rep _ _ Hr).
    apply lookup_lt_Some in Hpos. apply u64_wrap_small. unfold in_u64, u64_max in *. lia.
  - intros Hin ->. by leaves ([] : items).
  - intros sv z Hin Hr. rewrite (zrange_body_exact _ _ _ _ _ Hr). by leaves l.
  - intros Hin ->. leaves ([] : items); [done|]. split; [done|]. cbv zeta. unfold rank_slice. rewrite reverse_nil, !drop_nil, !take_nil.
    by destruct reverse0.
  - intros sv z Hin Hr. rewrite (zs_range_by_score_rep _ _ _ _ Hr). leaves l; [done|]. split; [done|]. simpl.
    destruct reverse0; [|done]. by rewrite rev_alt.
  - intros Hin ->. leaves ([] : items); [done|]. split; [done|]. by destruct reverse0.
  - intros sv z Hin Hr. rewrite (zs_range_by_score_rep _ _ _ _ Hr). by leaves l.
  - intros Hin ->. by leaves ([] : items).
  - intros sv z Hin Hr. rewrite (zs_len_rep _ _ Hr). by leaves l.
  - intros Hin ->. by leaves ([] : items).
Qed.
End zset_spec.

(** ZADD of a second member, then its rank from the end. *)
Lemma zset_exact_witness :
  let _ := example_layout in let _ := default_iter in
  let one := S754_finite false 4503599627370496 (-52) in let two := S754_finite false 4503599627370496 (-51) in
  let e0 := with_config (ZS:=SkipList) 1 unlimited in
  let e1 := (run_zset (ZAdd 0 1 (B "b") one) e0 0%nat (B "k")).1 in
  zset_at e0 0 (B "k") [] /\ (run_zset (ZAdd 0 1 (B "b") one) e0 0%nat (B "k")).2 = Ok (ZFlag true)
  /\ exists l l', zset_at e1 0 (B "k") l
       /\ zset_model (ZAdd 3 2 (B "a") two) l l' (run_zset (ZAdd 3 2 (B "a") two) e1 0%nat (B "k")).2.
Proof.
  intros lay it one two e0 e1. assert (H0 : zset_at e0 0 (B "k") []) by (apply holds_start; lia).
  split; [exact H0|]. split; [vm_compute; reflexivity|].
  destruct (zset_exact (ZAdd 0 1 (B "b") one) e0 0%nat (B "k") []) as (l & Hl & [[-> _]|(_ & -> & Hr)]).
  - split; [done|]. split; [lia|done].
  - exact H0.
  - destruct (zset_exact (ZAdd 3 2 (B "a") two) e1 0%nat (B "k") (with_score (B "b") one [])) as (l' & _ & Hm).
    + split; [done|]. split; [lia|done].
    + exact Hl.
    + exists (with_score (B "b") one []), l'. split; [exact Hl|exact Hm].
  - exfalso. vm_compute in Hr. discriminate Hr.
Defined.
