(* ===== verification/StringSpec.v ===== *)
(** * Strings

    The string commands on one key, against the bytes it holds, if any; with
    the places where an index or a number leaves its machine width. *)

From S2P Require Import Prelude Text Resp SortedSet Value PubSub Keyspace StringOps ListOps.
From S2P Require Import KeyspaceProofs CollectionProofs EngineSteps EngineWatch CellSpec ListSpec SkipList SortedSetImpl.

Open Scope Z_scope.

Inductive string_command :=
  | Append (now : Z) (v : bytes)
  | StrLen
  | GetRange (start stop : Z)
  | SetRange (now offset : Z) (v : bytes)
  | IncrBy (now n : Z).

Inductive string_reply :=
  | Length (n : Z)
  | Bytes (b : bytes)
  | Number (n : Z).

(** Strings have less than 2^63 bytes, and an offset is a [usize]. *)
Definition string_allowed (c : string_command) (x : option bytes) : Prop :=
  Z.of_nat (length (default [] x)) <= i64_max /\
  match c with
  | GetRange i j => in_i64 i /\ in_i64 j
  | SetRange _ offset v => in_u64 offset /\ Z.of_nat (length v) <= i64_max
  | _ => True
  end.

(** [v] over the bytes from [offset] on, with zeros in a gap. *)
Definition overwrite (b : bytes) (offset : Z) (v : bytes) : bytes :=
  take (Z.to_nat offset) (b ++ replicate (Z.to_nat (offset - Z.of_nat (length b))) Byte.x00) ++ v
  ++ drop (Z.to_nat offset + length v) b.

(** The number of a string, where it is one. *)
Definition number_of (b : bytes) : option Z := if utf8_valid b then parse_i64 b else None.

Definition string_model (c : string_command) (x x' : option bytes) (r : outcome string_reply) : Prop :=
  let b := default [] x in
  let len := Z.of_nat (length b) in
  match c with
  | Append _ v => x' = Some (b ++ v) /\ r = Ok (Length (Z.of_nat (length (b ++ v))))
  | StrLen => x' = x /\ r = Ok (Length len)
  | GetRange i j =>
      x' = x /\
      let a := clamp_index len i in
      r = if len <=? a then Ok (Bytes [])
          else if j <? - len then Panic
          else Ok (Bytes (take (Z.to_nat ((if j <? 0 then len + j else j) + 1 - a)) (drop (Z.to_nat a) b)))
  | SetRange _ offset v =>
      if offset + Z.of_nat (length v) <=? i64_max
      then x' = Some (overwrite b offset v) /\ r = Ok (Length (Z.max len (offset + Z.of_nat (length v))))
      else x' = x /\ r = Panic
  | IncrBy _ n =>
      match x with
      | None => (x' = Some (show_i64 n) /\ r = Ok (Number n)) \/ (x' = None /\ r = Err (EStorage OutOfMemory))
      | Some b =>
          match number_of b with
          | Some v =>
              if decide (in_i64 (v + n)) then x' = Some (show_i64 (v + n)) /\ r = Ok (Number (v + n))
              else x' = x /\ r = Err (ECommand (CGeneric err_overflow))
          | None => x' = x /\ r = Err (ECommand CNotInteger)
          end
      end
  end.

Lemma length_overwrite b offset v : 0 <= offset ->
  Z.of_nat (length (overwrite b offset v)) = Z.max (Z.of_nat (length b)) (offset + Z.of_nat (length v)).
Proof.
  intros Ho. unfold overwrite. rewrite !length_app, length_take, length_drop, length_app, length_replicate. lia.
Qed.

Lemma getrange_exact b i j :
  Z.of_nat (length b) <= i64_max -> in_i64 i -> in_i64 j ->
  let len := Z.of_nat (length b) in
  let a := clamp_index len i in
  getrange_body b i j
  = if len <=? a then Ok []
    else if j <? - len then Panic
    else Ok (take (Z.to_nat ((if j <? 0 then len + j else j) + 1 - a)) (drop (Z.to_nat a) b)).
Proof.
  intros Hlen Hi Hj len a. unfold getrange_body. fold len. fold (clamp_index len i). fold a.
  assert (Ha : 0 <= a) by apply clamp_index_nonneg. unfold in_i64, i64_min, i64_max in *. fold len in Hlen.
  destruct (Z.leb_spec len a); [by rewrite orb_true_r|]. rewrite orb_false_r. destruct (Z.ltb_spec j 0) as [Hneg|Hpos].
  - destruct (Z.ltb_spec j (- len)) as [Hlow|Hin].
    + rewrite Z.max_l by lia. change (u64_wrap (-1)) with u64_max. unfold u64_max.
      destruct (Z.ltb_spec 18446744073709551615 a); [lia|]. done.
    + rewrite Z.max_r by lia. rewrite u64_wrap_small by (unfold in_u64, u64_max; lia).
      destruct (Z.ltb_spec (len + j) a); [by rewrite Z2Nat.nonpos by lia|]. unfold slice_inclusive. fold len.
      destruct (Z.eqb_spec (len + j) u64_max); [unfold u64_max in *; lia|]. simpl. destruct (Z.ltb_spec len (len + j + 1)); [lia|done].
  - destruct (Z.ltb_spec j (- len)); [lia|]. rewrite u64_wrap_small by (unfold in_u64, u64_max; lia).
    destruct (Z.ltb_spec (Z.min j (len - 1)) a); [by rewrite Z2Nat.nonpos by lia|]. unfold slice_inclusive. fold len.
    destruct (Z.eqb_spec (Z.min j (len - 1)) u64_max); [unfold u64_max in *; lia|]. simpl.
    destruct (Z.ltb_spec len (Z.min j (len - 1) + 1)); [lia|]. f_equal.
    destruct (Z.leb_spec j (len - 1)); [do 2 f_equal; lia|]. rewrite !take_ge; [done|rewrite length_drop; lia..].
Qed.

Lemma setrange_exact b offset v :
  Z.of_nat (length b) <= i64_max -> in_u64 offset -> Z.of_nat (length v) <= i64_max ->
  setrange_body b offset v = if offset + Z.of_nat (length v) <=? i64_max then Ok (overwrite b offset v) else Panic.
Proof.
  intros Hb Ho Hv. unfold setrange_body, in_u64, i64_max, u64_max in *. cbv zeta.
  destruct (Z.leb_spec (offset + Z.of_nat (length v)) 9223372036854775807) as [Hle|Hgt].
  - rewrite u64_wrap_small by (unfold in_u64, u64_max; lia).
    destruct (Z.ltb_spec 9223372036854775807 (offset + Z.of_nat (length v))); [lia|].
    destruct (Z.ltb_spec (offset + Z.of_nat (length v)) offset); [lia|]. simpl. f_equal. unfold overwrite. f_equal.
    + rewrite !take_app, !take_replicate. do 2 f_equal. lia.
    + f_equal. rewrite drop_app, drop_replicate. replace (Z.to_nat (offset + Z.of_nat (length v))) with (Z.to_nat offset + length v)%nat by lia.
      replace (_ - _)%nat with 0%nat by lia. by rewrite app_nil_r.
  - destruct (Z.leb_spec (offset + Z.of_nat (length v)) 18446744073709551615).
    + rewrite u64_wrap_small by (unfold in_u64, u64_max; lia).
      destruct (Z.ltb_spec 9223372036854775807 (offset + Z.of_nat (length v))); [done|lia].
    + assert (u64_wrap (offset + Z.of_nat (length v)) = offset + Z.of_nat (length v) - 18446744073709551616) as ->
        by (unfold u64_wrap; Z.div_mod_to_equations; lia).
      destruct (Z.ltb_spec (offset + Z.of_nat (length v) - 18446744073709551616) offset); [by rewrite orb_true_r|lia].
Qed.

Section string_spec.
Context {ZS : Type} `{SortedSet ZS} `{Layout} `{HashIter} `{!SortedSetSpec ZS}.
Abbreviation engine := (StorageEngine ZS).

Definition run_string (c : string_command) (e : engine) (db : nat) (key : bytes) : engine * outcome string_reply :=
  match c with
  | Append now v => then_ok Length (append now e db key v)
  | StrLen => then_ok Length (strlen e db key)
  | GetRange i j => then_ok Bytes (getrange e db key i j)
  | SetRange now offset v => then_ok Length (setrange now e db key offset v)
  | IncrBy now n => then_ok Number (incr_by now e db key n)
  end.

Definition holds_bytes (y : bytes) (x : option bytes) : Prop := x = Some y.

Definition string_at : engine -> nat -> bytes -> option bytes -> Prop := holds as_string holds_bytes None.

Abbreviation in_string := (in_shard as_string holds_bytes None).
Abbreviation string_gives key f c x := (gives as_string holds_bytes None key (fun x' r => string_model c x x' (let? a := r in Ok (f a)))).

Lemma string_op {A} (f : A -> string_reply) c (e : engine) db key x (some : StoredValue ZS -> bytes -> shard_op ZS A) none :
  string_at e db key x ->
  (forall mm sh sv b, in_string key sh x -> x = Some b -> string_gives key f c (Some b) (some sv b mm sh)) ->
  (forall mm sh, in_string key sh None -> x = None -> string_gives key f c None (none mm sh)) ->
  let res := then_ok f (with_shard e db key (typed_op as_string key some none)) in
  exists x', string_at res.1 db key x' /\ string_model c x x' res.2.
Proof.
  intros Hx Hs Hn res.
  apply (typed_holds as_string holds_bytes None e db key some none x (fun x' r => string_model c x x' (let? a := r in Ok (f a))) Hx).
  - intros mm sh sv y Hsv Hy Hr. unfold holds_bytes in Hr. subst x. apply Hs; [|done]. by eapply in_shard_some.
  - intros mm sh Hnone ->. apply Hn; [|done]. by apply in_shard_none.
Qed.

(** INCRBY looks at the value without its type. *)
Lemma incr_gives now n key x mm (sh : DatabaseShard ZS) :
  in_string key sh x ->
  string_gives key Number (IncrBy now n) x
    (match data sh !! key with
     | Some sv =>
         match as_integer (value sv) with
         | Some current =>
             if decide (in_i64 (current + n)) then
               let new_val := current + n in
               (mm, mark_modified key (store_back key sv (value_integer new_val) sh), Ok new_val)
             else (mm, sh, Err (ECommand (CGeneric err_overflow)))
         | None => (mm, sh, Err (ECommand CNotInteger))
         end
     | None => insert_accounted key now (calculate_value_size (ZS:=ZS) key (value_integer n)) (value_integer n) n mm sh
     end).
Proof.
  intros Hin. pose proof Hin as Hcell. unfold in_shard in Hcell. destruct (data sh !! key) as [sv|].
  - destruct Hcell as (b & Hb & Hr). unfold holds_bytes in Hr. subst x. apply view_string in Hb. rewrite Hb. change (as_integer (VString b : Value ZS)) with (number_of b).
    destruct (number_of b) as [v|] eqn:Ev; [destruct (decide (in_i64 (v + n))) as [Hv|Hv]|].
    + leaves (Some (show_i64 (v + n))); [|simpl; by rewrite Ev, decide_True].
      by apply in_shard_mark, in_shard_store with (show_i64 (v + n)).
    + leaves (Some b); [done|]. simpl. by rewrite Ev, decide_False.
    + leaves (Some b); [done|]. simpl. by rewrite Ev.
  - subst x. unfold insert_accounted. destruct (add_memory mm _) as [mm' []].
    + apply gives_insert with (show_i64 n) (Some (show_i64 n)); [done..|by left].
    + leaves (None : option bytes); [done|by right].
Qed.

(** C17. Strings and their limits.  APPEND, STRLEN, SETRANGE and GETRANGE are the
    operations on byte strings they are named after, a gap being filled with
    zeros; INCRBY adds to the number a string spells and refuses a sum outside
    the 64-bit integers and a string that spells none; and the panics are those
    of an end before the first byte in GETRANGE (when the start is inside the
    string) and of an offset that makes the string too long in SETRANGE. *)
Theorem string_exact (c : string_command) (e : engine) (db : nat) (key : bytes) (x : option bytes)
    (Hallowed : string_allowed c x) (Hx : string_at e db key x) :
  exists x', string_at (run_string c e db key).1 db key x' /\ string_model c x x' (run_string c e db key).2.
Proof.
  destruct Hallowed as [Hlen Hallowed]. destruct c; [apply string_op; try done; intros mm sh..|].
  - intros sv b Hin ->. leaves (Some (b ++ v)); [|done]. by apply in_shard_mark, in_shard_store with (b ++ v).
  - intros Hin ->. by apply gives_insert with v (Some v).
  - intros sv b Hin ->. by leaves (Some b).
  - intros Hin ->. by leaves (None : option bytes).
  - destruct Hallowed. intros sv b Hin ->. leaves (Some b); [done|]. split; [done|]. simpl. rewrite getrange_exact by done.
    destruct (_ <=? _); [done|]. by destruct (stop <? - _).
  - intros Hin ->. leaves (None : option bytes); [done|]. split; [done|]. simpl. pose proof (clamp_index_nonneg 0 start) as Ha.
    by rewrite (proj2 (Z.leb_le (Z.of_nat 0) (clamp_index (Z.of_nat 0) start)) Ha).
  - destruct Hallowed as [Ho Hv]. intros sv b Hin ->. rewrite setrange_exact by done.
    destruct (offset + Z.of_nat (length v) <=? i64_max) eqn:E.
    + leaves (Some (overwrite b offset v)); [by apply in_shard_mark, in_shard_store with (overwrite b offset v)|].
      simpl. rewrite E, length_overwrite by apply Ho. done.
    + leaves (Some b); [done|]. simpl. by rewrite E.
  - destruct Hallowed as [Ho Hv]. intros Hin ->. rewrite setrange_exact by done.
    destruct (offset + Z.of_nat (length v) <=? i64_max) eqn:E.
    + apply gives_insert with (overwrite [] offset v) (Some (overwrite [] offset v)); [done..|].
      simpl. rewrite E, length_overwrite by apply Ho. done.
    + leaves (None : option bytes); [done|]. simpl. by rewrite E.
  - destruct Hx as (sh & Hsh & Hin).
    destruct (incr_gives now n key x (memory_manager e) sh Hin) as (x' & Hin' & Hm). exists x'. simpl. unfold incr_by.
    rewrite (with_shard_result _ _ _ _ _ Hsh). split; [|exact Hm].
    eexists. split; [by apply with_shard_after|]. exact Hin'.
Qed.
End string_spec.

(** A key that APPEND made, read from before its start; and a missing key counted up. *)
Lemma string_exact_witness :
  let _ := example_layout in let _ := default_iter in
  let e0 := with_config (ZS:=SkipList) 1 unlimited in
  let e1 := (run_string (Append 1 (B "abc")) e0 0%nat (B "k")).1 in
  string_at e1 0 (B "k") (Some (B "abc"))
  /\ (run_string (GetRange 0 (-5)) e1 0%nat (B "k")).2 = Panic
  /\ string_model (IncrBy 2 7) None (Some (B "7")) (run_string (IncrBy 2 7) e1 0%nat (B "n")).2.
Proof.
  intros lay it e0 e1.
  assert (Hk : string_at e1 0 (B "k") (Some (B "abc"))).
  { assert (Hnone : string_at e0 0 (B "k") None) by (apply holds_start; lia).
    assert (Hok : string_allowed (Append 1 (B "abc")) None) by (split; [vm_compute; discriminate|exact I]).
    destruct (string_exact (Append 1 (B "abc")) e0 0%nat (B "k") None Hok Hnone) as (x & Hx & E & _).
    replace (Some (B "abc")) with x by (rewrite E; reflexivity). exact Hx. }
  split; [exact Hk|]. split.
  - assert (Hok : string_allowed (GetRange 0 (-5)) (Some (B "abc"))) by (repeat split; vm_compute; discriminate).
    destruct (string_exact (GetRange 0 (-5)) e1 0%nat (B "k") (Some (B "abc")) Hok Hk) as (x & _ & _ & Hr).
    rewrite Hr. reflexivity.
  - vm_compute. left. split; reflexivity.
Defined.
