(* ===== verification/EngineExpiry.v ===== *)
(** * RENAME, the cleaner and stray UNWATCHes

    What [rename] and the expiration thread do to every key of the store, and
    the consequences of an expiry index that does not follow its keys. *)

From S2P Require Import Prelude Text Resp StreamId Stream SortedSet Value PubSub Keyspace StringOps ListOps SetOps ZSetOps Scan.
From S2P Require Import KeyspaceProofs CollectionProofs EngineSteps EngineWatch SkipList SortedSetImpl.

Open Scope Z_scope.

Section rename.
Context {ZS : Type} `{SortedSet ZS} `{Layout}.
Abbreviation engine := (StorageEngine ZS).

Definition stored_of (e : engine) (db : nat) (key : bytes) : option (StoredValue ZS) :=
  shard_at e db key ≫= fun sh => data sh !! key.

(** RENAME of a key that exists to another one moves the value with its
    metadata, and leaves every other key alone.  It does not move the entry of
    the expiry index, and it marks only the new key as modified: a WATCH on the
    old key does not see it go. *)
Theorem rename_exact (e : engine) (db : nat) (old_key new_key : bytes) (a b : DatabaseShard ZS) (sv : StoredValue ZS)
    (Ha : shard_at e db old_key = Some a) (Hb : shard_at e db new_key = Some b)
    (Hsv : data a !! old_key = Some sv) (Hne : old_key <> new_key) :
  let e' := (rename e db old_key new_key).1 in
  (rename e db old_key new_key).2 = Ok tt
  /\ cell_at e' db old_key = Some (mkCell None (expiring_keys a !! old_key) (get_key_counter (watch_tracker a) old_key))
  /\ (exists c, cell_at e' db new_key = Some (mkCell (Some sv) (expiring_keys b !! new_key) c)
        /\ c = get_key_counter (mark_key_modified (watch_tracker b) new_key) new_key)
  /\ forall db' k', (db', k') <> (db, old_key) -> (db', k') <> (db, new_key) -> cell_at e' db' k' = cell_at e db' k'.
Proof.
  intros e'. pose proof (rename_shards e db old_key new_key a b sv) as Hat.
  assert (Hi : get_shard_index old_key = get_shard_index new_key -> a = b).
  { intros E. unfold shard_at in *. rewrite E in Ha. congruence. }
  split; [by apply (Hat 0%nat [])|]. unfold e', cell_at.
  assert (Hold : forall k, shard_at e db k = (databases e !! db) ≫= fun d => d !! get_shard_index k) by done.
  split_and!.
  - rewrite (proj2 (Hat db old_key Ha Hb Hsv)), decide_True by done. case_decide as Hij.
    + rewrite decide_True by done. cbn -[get_key_counter mark_key_modified]. unfold cell_of. cbn -[get_key_counter mark_key_modified]. rewrite counter_mark_ne, lookup_insert_ne, lookup_delete_eq by done. done.
    + rewrite decide_True by done. cbn -[get_key_counter mark_key_modified]. unfold cell_of. cbn -[get_key_counter mark_key_modified]. by rewrite lookup_delete_eq.
  - eexists. split; [|done]. rewrite (proj2 (Hat db new_key Ha Hb Hsv)), decide_True by done. case_decide as Hij.
    + rewrite decide_True by done. rewrite (Hi Hij). cbn -[get_key_counter mark_key_modified]. unfold cell_of. cbn -[get_key_counter mark_key_modified]. by rewrite lookup_insert_eq.
    + rewrite decide_True by done. cbn -[get_key_counter mark_key_modified]. unfold cell_of. cbn -[get_key_counter mark_key_modified]. by rewrite lookup_insert_eq.
  - intros db' k' Hk1 Hk2. rewrite (proj2 (Hat db' k' Ha Hb Hsv)).
    destruct (decide (db' = db)) as [->|]; [|done].
    assert (k' <> old_key /\ k' <> new_key) as [Hko Hkn] by (split; congruence). rewrite Hold.
    assert (Hla : get_shard_index k' = get_shard_index old_key -> (databases e !! db ≫= fun d => d !! get_shard_index k') = Some a)
      by by intros ->.
    assert (Hlb : get_shard_index k' = get_shard_index new_key -> (databases e !! db ≫= fun d => d !! get_shard_index k') = Some b)
      by by intros ->.
    case_decide as Hij; case_decide as Hk; try done.
    + rewrite (Hla Hk). cbn -[get_key_counter mark_key_modified]. unfold cell_of. cbn -[get_key_counter mark_key_modified]. by rewrite counter_mark_ne, lookup_insert_ne, lookup_delete_ne.
    + rewrite (Hlb Hk). cbn -[get_key_counter mark_key_modified]. unfold cell_of. cbn -[get_key_counter mark_key_modified]. by rewrite counter_mark_ne, lookup_insert_ne.
    + case_decide as Hk'; [|done]. rewrite (Hla Hk'). cbn -[get_key_counter mark_key_modified]. unfold cell_of. cbn -[get_key_counter mark_key_modified]. by rewrite lookup_delete_ne.
Qed.
End rename.

(** ** The cleaner *)

Section cleaner.
Context {ZS : Type} `{SortedSet ZS} `{Layout} `{HashIter}.
Abbreviation engine := (StorageEngine ZS).

(** The index says that the key has expired. *)
Definition index_expired (now : Z) (sh : DatabaseShard ZS) (k : bytes) : bool :=
  match expiring_keys sh !! k with Some t => t <=? now | None => false end.

Lemma cleanup_collect_in now (sh : DatabaseShard ZS) k :
  k ∈ cleanup_collect now sh <-> index_expired now sh k = true.
Proof.
  unfold cleanup_collect, index_expired. rewrite list_elem_of_fmap. split.
  - intros ([k' t] & -> & [Ht Hin]%list_elem_of_filter). rewrite map_iter_perm, elem_of_map_to_list in Hin.
    simpl in *. rewrite Hin. by apply Z.leb_le.
  - destruct (expiring_keys sh !! k) as [t|] eqn:E; [|done]. intros Ht%Z.leb_le. exists (k, t). split; [done|].
    apply list_elem_of_filter. split; [done|]. by rewrite map_iter_perm, elem_of_map_to_list.
Qed.

Lemma cleanup_one_cells mm (sh : DatabaseShard ZS) key k :
  data (cleanup_one (mm, sh) key).2 !! k = (if decide (k = key) then None else data sh !! k)
  /\ expiring_keys (cleanup_one (mm, sh) key).2 !! k
     = (if decide (k = key /\ is_Some (data sh !! key)) then None else expiring_keys sh !! k).
Proof.
  unfold cleanup_one. destruct (data sh !! key) as [sv|] eqn:E; simpl.
  - destruct (decide (k = key)) as [->|Hne].
    + rewrite (decide_True (P := key = key /\ _)) by eauto. by rewrite !lookup_delete_eq.
    + rewrite (decide_False (P := k = key /\ _)) by tauto. by rewrite !lookup_delete_ne.
  - rewrite (decide_False (P := k = key /\ _)) by (intros [_ []]; done). split; [|done].
    destruct (decide (k = key)) as [->|]; [done|done].
Qed.

Lemma cleanup_remove_cells l : forall mm (sh : DatabaseShard ZS) k,
  data (cleanup_remove l mm sh).2 !! k = (if decide (k ∈ l) then None else data sh !! k)
  /\ expiring_keys (cleanup_remove l mm sh).2 !! k
     = (if decide (k ∈ l /\ is_Some (data sh !! k)) then None else expiring_keys sh !! k).
Proof.
  unfold cleanup_remove. induction l as [|key l IH]; intros mm sh k.
  { rewrite !decide_False by (intros Hin; apply (not_elem_of_nil k); tauto). done. }
  cbn [foldl]. destruct (cleanup_one (mm, sh) key) as [mm1 sh1] eqn:E1.
  destruct (IH mm1 sh1 k) as [-> ->]. pose proof (cleanup_one_cells mm sh key k) as [Hd Hx]. rewrite E1 in Hd, Hx.
  simpl in Hd, Hx. rewrite Hd, Hx. clear E1 Hd Hx IH.
  split; repeat case_decide; rewrite ?elem_of_cons in *; try done; try tauto; subst; exfalso; try tauto;
    repeat match goal with Hs : _ /\ is_Some None |- _ => destruct Hs as [_ [? [=]]] end; naive_solver.
Qed.

(** C37. What one turn of the expiration thread does to a shard: a key leaves
    exactly when the index gives it an instant that has passed, whatever its
    own metadata says, and its entry of the index leaves with it; an entry
    without a key stays in the index for ever. *)
Theorem cleaner_exact (now : Z) (mm : MemoryManager) (sh : DatabaseShard ZS) (k : bytes) :
  let sh' := (cleanup_remove (cleanup_collect now sh) mm sh).2 in
  data sh' !! k = (if index_expired now sh k then None else data sh !! k)
  /\ expiring_keys sh' !! k
     = (if index_expired now sh k && bool_decide (is_Some (data sh !! k)) then None else expiring_keys sh !! k).
Proof.
  intros sh'. destruct (cleanup_remove_cells (cleanup_collect now sh) mm sh k) as [Hd Hx]. unfold sh'. rewrite Hd, Hx.
  destruct (index_expired now sh k) eqn:E.
  - apply cleanup_collect_in in E. rewrite decide_True by done. split; [done|].
    destruct (decide (is_Some (data sh !! k))); [by rewrite decide_True, bool_decide_true|].
    by rewrite decide_False, bool_decide_false by tauto.
  - assert (k ∉ cleanup_collect now sh) by (rewrite cleanup_collect_in, E; done).
    by rewrite !decide_False by tauto.
Qed.
(** *** Through the whole store *)

Lemma cleanup_shards_at now i : forall d mm sh,
  d !! i = Some sh -> exists mm', (cleanup_shards now mm d).2 !! i = Some (cleanup_remove (cleanup_collect now sh) mm' sh).2.
Proof.
  induction i as [|i IH]; intros [|s d] mm sh Hi; try done; simpl in *.
  - injection Hi as ->. exists mm. destruct (cleanup_remove _ mm sh) as [mm1 sh1]. by destruct (cleanup_shards now mm1 d).
  - destruct (cleanup_remove _ mm s) as [mm1 sh1]. destruct (IH d mm1 sh Hi) as [mm' Hm]. exists mm'.
    by destruct (cleanup_shards now mm1 d).
Qed.

Lemma cleanup_databases_at db : forall nows mm (dbs : list (list (DatabaseShard ZS))) now d,
  dbs !! db = Some d -> nows !! db = Some now ->
  exists mm', (cleanup_databases nows mm dbs).2 !! db = Some (cleanup_shards now mm' d).2.
Proof.
  induction db as [|db IH]; intros [|n nows] mm [|d0 dbs] now d Hd Hn; try done; simpl in *.
  - injection Hd as ->. injection Hn as ->. exists mm. destruct (cleanup_shards now mm d) as [mm1 d1].
    by destruct (cleanup_databases nows mm1 dbs).
  - destruct (cleanup_shards n mm d0) as [mm1 d1]. destruct (IH nows mm1 dbs now d Hd Hn) as [mm' Hm]. exists mm'.
    by destruct (cleanup_databases nows mm1 dbs).
Qed.

Lemma cleanup_pass_at nows (e : engine) db key now sh :
  nows !! db = Some now -> shard_at e db key = Some sh ->
  exists mm', shard_at (cleanup_pass nows e) db key = Some (cleanup_remove (cleanup_collect now sh) mm' sh).2.
Proof.
  unfold cleanup_pass, shard_at. intros Hn. destruct (databases e !! db) as [d|] eqn:Hd; [|done]. simpl. intros Hsh.
  destruct (cleanup_databases_at db nows (memory_manager e) _ now d Hd Hn) as [mm1 Hmm1].
  destruct (cleanup_databases nows (memory_manager e) (databases e)) as [mm2 dbs']. simpl in *. rewrite Hmm1. simpl.
  by apply cleanup_shards_at.
Qed.

Lemma add_memory_unlimited mm n : max_memory mm = 0 -> add_memory mm n = (mkMemory (u64_wrap (used_memory mm + n)) 0 (policy mm), true).
Proof. intros Hm. unfold add_memory. by rewrite Hm. Qed.

Lemma with_shard_memory {A} (e : engine) db key (f : shard_op ZS A) :
  (forall mm sh, (f mm sh).1.1 = mm) -> memory_manager (with_shard e db key f).1 = memory_manager e.
Proof.
  intros Hf. unfold with_shard. destruct (databases e !! db) as [d|]; [|done]. destruct (d !! _) as [sh|]; [|done].
  specialize (Hf (memory_manager e) sh). by destruct (f _ _) as [[? ?] ?].
Qed.

Lemma set_value_result now (e : engine) db key v d sh :
  shard_at e db key = Some sh -> max_memory (memory_manager e) = 0 ->
  (match d with Some d => now + d <= instant_max | None => True end) ->
  let e' := (set_value now e db key v d).1 in
  (set_value now e db key v d).2 = Ok tt /\ max_memory (memory_manager e') = 0
  /\ exists sh', shard_at e' db key = Some sh'
       /\ watch_tracker sh' = mark_key_modified (watch_tracker sh) key
       /\ data sh' !! key = Some (mkStored v (mkMeta (option_map (Z.add now) d) now now Raw))
       /\ expiring_keys sh' !! key = (match d with Some d => Some (now + d) | None => expiring_keys sh !! key end).
Proof.
  intros Hsh Hm Hd e'. unfold e', set_value, with_shard. pose proof Hsh as Hsh'. unfold shard_at in Hsh'.
  destruct (databases e !! db) as [dd|] eqn:Hdb; [|done]. simpl in Hsh'. rewrite Hsh'.
  unfold set_value_shard. rewrite add_memory_unlimited by done.
  set (size := calculate_value_size key v). destruct d as [d|].
  - unfold stored_with_expiration, meta_with_expiration, instant_add. rewrite (proj2 (Z.leb_le _ _) Hd). simpl.
    split_and!; [done..|]. eexists. rewrite (shard_at_put _ _ _ _ _ _ _ _ _ Hdb Hsh'), decide_True by done.
    split_and!; [done..| |]; simpl; by rewrite lookup_insert_eq.
  - simpl. split_and!; [done..|]. eexists. rewrite (shard_at_put _ _ _ _ _ _ _ _ _ Hdb Hsh'), decide_True by done.
    split_and!; [done..| |done]. simpl. by rewrite lookup_insert_eq.
Qed.

(** The cleaner deletes a key that does not expire: when a value with a time
    to live is overwritten by one without, the old instant stays in the index.
    The new value is there and has no time to live, and once the old instant
    has passed a turn of the expiration thread deletes it. *)
Theorem cleaner_takes_a_persistent_key (t0 d t1 t2 now : Z) (e : engine) (db : nat) (key v1 v2 : bytes) (nows : list Z)
    (sh : DatabaseShard ZS) (Hsh : shard_at e db key = Some sh) (Hm : max_memory (memory_manager e) = 0)
    (Hd : t0 + d <= instant_max) (Hnow : nows !! db = Some now) (Hpast : t0 + d <= now) :
  let e1 := (set_string_ex t0 e db key v1 d).1 in
  let e2 := (set_string t1 e1 db key v2).1 in
  (get_string t2 e2 db key).2 = Ok (Some v2) /\ (ttl t2 e2 db key).2 = Ok None
  /\ value_of (cleanup_pass nows e2) db key = None.
Proof.
  intros e1 e2.
  destruct (set_value_result t0 e db key (VString v1) (Some d) sh Hsh Hm Hd) as (_ & Hm1 & sh1 & Hsh1 & _ & _ & Hx1).
  fold (set_string_ex t0 e db key v1 d) in Hm1, Hsh1. fold e1 in Hm1, Hsh1.
  destruct (set_value_result t1 e1 db key (VString v2) None sh1 Hsh1 Hm1 I) as (_ & Hm2 & sh2 & Hsh2 & _ & Hdata2 & Hx2).
  fold (set_string t1 e1 db key v2) in Hm2, Hsh2. fold e2 in Hm2, Hsh2. split_and!.
  - unfold get_string, engine_get.
    match goal with |- context [with_shard e2 db key ?f] => pose proof (with_shard_result e2 db key f _ Hsh2) as Hr;
      destruct (with_shard e2 db key f) as [e3 r] end. simpl in Hr. rewrite Hr, Hdata2. done.
  - unfold ttl. rewrite (with_shard_result _ _ _ _ _ Hsh2). simpl. by rewrite Hdata2.
  - unfold value_of. destruct (cleanup_pass_at nows e2 db key now sh2 Hnow Hsh2) as [mm' ->]. simpl. unfold value_at.
    destruct (cleaner_exact now mm' sh2 key) as [-> _]. unfold index_expired. rewrite Hx2, Hx1.
    by rewrite (proj2 (Z.leb_le _ _) Hpast).
Qed.

(** A stray UNWATCH makes the shard blind.  When a shard has no watcher and
    UNWATCH runs on a key of it (a client that changed its database after
    WATCH), the number of watchers wraps around; the next WATCH brings it to
    zero, and a SET of the watched key is then not detected, although it
    succeeds. *)
Theorem stray_unwatch_blinds_watch (now now' : Z) (e : engine) (db : nat) (stray key v : bytes) (sh : DatabaseShard ZS)
    (Hsh : shard_at e db key = Some sh) (Hzero : active_watchers (watch_tracker sh) = 0)
    (Hstray : get_shard_index stray = get_shard_index key) (Hm : max_memory (memory_manager e) = 0) :
  let e1 := (unregister_watch e db stray).1 in
  let e2 := (register_watch e1 db key).1 in
  let e3 := (set_string now e2 db key v).1 in
  exists b, (register_watch e1 db key).2 = Ok b /\ (set_string now e2 db key v).2 = Ok tt
    /\ value_of e3 db key = Some (VString v) /\ (was_modified_since now' e3 db key b).2 = Ok false.
Proof.
  assert (Hsh0 : shard_at e db stray = Some sh) by (unfold shard_at in *; by rewrite Hstray).
  intros e1 e2 e3. pose (t1 := tracker_unregister (watch_tracker sh)). pose (t2 := (tracker_register t1 key).1).
  assert (Hsh1 : shard_at e1 db key = Some (mkShard (data sh) (expiring_keys sh) t1)).
  { pose proof (with_shard_after e db stray (fun mm sh =>
      (mm, mkShard (data sh) (expiring_keys sh) (tracker_unregister (watch_tracker sh)), Ok tt)) sh Hsh0) as Hs.
    unfold shard_at in *. by rewrite Hstray in Hs. }
  pose (f := fun (mm : MemoryManager) (sh : DatabaseShard ZS) =>
      let '(t, baseline) := tracker_register (watch_tracker sh) key in
      (mm, mkShard (data sh) (expiring_keys sh) t, Ok baseline)).
  assert (Hsh2 : shard_at e2 db key = Some (mkShard (data sh) (expiring_keys sh) t2)) by exact (with_shard_after e1 db key f _ Hsh1).
  exists (get_key_counter t1 key). split; [exact (with_shard_result e1 db key f _ Hsh1)|].
  assert (Hm2 : max_memory (memory_manager e2) = 0).
  { unfold e2, e1, register_watch, unregister_watch. by rewrite !with_shard_memory. }
  destruct (set_value_result now e2 db key (VString v) None _ Hsh2 Hm2 I) as (Hok & _ & sh3 & Hsh3 & Ht3 & Hdata3 & _).
  split; [exact Hok|]. fold (set_string now e2 db key v) in Hsh3. fold e3 in Hsh3. split.
  - unfold value_of. rewrite Hsh3. simpl. unfold value_at. by rewrite Hdata3.
  - rewrite (was_modified_result _ _ _ _ _ _ Hsh3), Hdata3, Ht3. simpl.
    assert (Hz : active_watchers t2 = 0).
    { unfold t2, t1, tracker_unregister. simpl. rewrite Hzero. done. }
    unfold mark_key_modified. rewrite Hz. simpl. by rewrite Z.ltb_irrefl.
Qed.
End cleaner.

(** A key with a time to live, renamed. *)
Lemma rename_exact_witness :
  let _ := example_layout in
  let e := (set_string_ex 1 (with_config (ZS:=SkipList) 1 unlimited) 0 (B "a") (B "1") 10).1 in
  let e' := (rename e 0 (B "a") (B "b")).1 in
  cell_at e' 0 (B "a") = Some (mkCell None (Some 11) 0)
  /\ (rename e 0 (B "a") (B "b")).2 = Ok tt
  /\ cell_at e' 0 (B "b") = Some (mkCell (Some (mkStored (VString (B "1")) (mkMeta (Some 11) 1 1 Raw))) None 0).
Proof.
  intros lay e e'.
  destruct (rename_exact e 0 (B "a") (B "b") (default shard_new (shard_at e 0 (B "a")))
              (default shard_new (shard_at e 0 (B "b"))) (mkStored (VString (B "1")) (mkMeta (Some 11) 1 1 Raw)))
    as (Hok & Hold & (c & Hnew & Hc) & _).
  - vm_compute. reflexivity.
  - vm_compute. reflexivity.
  - vm_compute. reflexivity.
  - intros E. discriminate E.
  - split; [exact Hold|]. split; [exact Hok|]. etransitivity; [exact Hnew|]. rewrite Hc. vm_compute. reflexivity.
Defined.

(** SET k 1 EX 10ns at 1, SET k 2 at 5, a turn at 20. *)
Lemma cleaner_takes_a_persistent_key_witness :
  let _ := example_layout in let _ := default_iter in
  let e1 := (set_string_ex 1 (with_config (ZS:=SkipList) 1 unlimited) 0 (B "k") (B "1") 10).1 in
  let e2 := (set_string 5 e1 0 (B "k") (B "2")).1 in
  (get_string 20 e2 0 (B "k")).2 = Ok (Some (B "2")) /\ value_of (cleanup_pass [20] e2) 0 (B "k") = None.
Proof.
  intros lay it e1 e2.
  destruct (cleaner_takes_a_persistent_key 1 10 5 20 20 (with_config (ZS:=SkipList) 1 unlimited) 0 (B "k") (B "1") (B "2")
              [20] shard_new) as (Hget & _ & Hgone).
  - vm_compute. reflexivity.
  - reflexivity.
  - vm_compute. discriminate.
  - reflexivity.
  - vm_compute. discriminate.
  - split; [exact Hget|exact Hgone].
Defined.

Lemma stray_unwatch_blinds_watch_witness :
  let _ := example_layout in
  let e := with_config (ZS:=SkipList) 2 unlimited in
  let e2 := (register_watch (unregister_watch e 1 (B "k")).1 1 (B "k")).1 in
  value_of (set_string 3 e2 1 (B "k") (B "v")).1 1 (B "k") = Some (VString (B "v"))
  /\ exists b, (was_modified_since 4 (set_string 3 e2 1 (B "k") (B "v")).1 1 (B "k") b).2 = Ok false.
Proof.
  intros lay e e2.
  destruct (stray_unwatch_blinds_watch 3 4 e 1 (B "k") (B "k") (B "v") shard_new) as (b & _ & _ & Hv & Hb).
  - vm_compute. reflexivity.
  - reflexivity.
  - reflexivity.
  - reflexivity.
  - split; [exact Hv|exists b; exact Hb].
Defined.
