(* ===== verification/Command.v ===== *)
(** * The command layer: what every command handler is made of

    A handler takes the frames of a request and works on a state: the storage
    engine for the handlers of src/storage/commands, the whole server for those
    of src/network/server.rs.  Handlers are written in a small monad with state,
    the world outside the store (clocks, random draws, the spurious failures of
    a compare-and-swap, a thread's clock cache) and four ways to go on: with a
    value, with a reply ([return Ok(frame)]), with an error that [?] passes to
    the caller, and with a panic.

    The file also has the text functions of the standard library that handlers
    apply to their arguments, and the display of the errors of src/error.rs. *)

From S2P Require Import Prelude Text Resp StreamId.

Open Scope Z_scope.

(** ** Text *)

(** What the standard library has from the tables of Unicode outside ASCII: upper
    case of a character, on its UTF-8 encoding; lower case of a whole text, which
    depends on the context of a character; the alphabetic characters. *)
Class CaseMap := {
  upper_other : bytes -> bytes;
  lower_other : bytes -> bytes;
  alphabetic_other : Z -> bool;
}.

(** Characters outside ASCII unchanged, for examples. *)
Definition ascii_case : CaseMap := {| upper_other := id; lower_other := id; alphabetic_other _ := false |}.

Definition ascii_upper (c : Z) : byte := byte_of (if (97 <=? c) && (c <=? 122) then c - 32 else c).

Definition replacement : bytes := [byte_of 239; byte_of 191; byte_of 189].

Definition upper_chunk `{CaseMap} (u : uchunk) : bytes :=
  match u with
  | UChar c raw => if c <? 128 then [ascii_upper c] else upper_other raw
  | UBad _ => upper_other replacement
  end.

(** [String::from_utf8_lossy(s).to_uppercase()] *)
Definition to_uppercase `{CaseMap} (s : bytes) : bytes := concat (map upper_chunk (utf8_chunks s)).

(** [char::is_whitespace] *)
Definition is_whitespace (c : Z) : bool :=
  ((9 <=? c) && (c <=? 13)) || (c =? 32) || (c =? 133) || (c =? 160) || (c =? 5760)
  || ((8192 <=? c) && (c <=? 8202)) || (c =? 8232) || (c =? 8233) || (c =? 8239) || (c =? 8287) || (c =? 12288).

Definition chunk_space (u : uchunk) : bool := match u with UChar c _ => is_whitespace c | UBad _ => false end.

Fixpoint trim_start (l : list uchunk) : list uchunk :=
  match l with
  | u :: l' => if chunk_space u then trim_start l' else l
  | [] => []
  end.

(** [String::from_utf8_lossy(s).trim().to_uppercase()] *)
Definition trim_uppercase `{CaseMap} (s : bytes) : bytes :=
  concat (map upper_chunk (rev (trim_start (rev (trim_start (utf8_chunks s)))))).

Definition ascii_lower (b : byte) : byte := if (65 <=? u8 b) && (u8 b <=? 90) then byte_of (u8 b + 32) else b.

(** [s.to_lowercase()] *)
Definition to_lowercase `{CaseMap} (s : bytes) : bytes :=
  if forallb (fun b => u8 b <? 128) s then map ascii_lower s else lower_other s.

(** [s.trim()] *)
Definition trim (s : bytes) : bytes := flat_map chunk_raw (rev (trim_start (rev (trim_start (utf8_chunks s))))).

(** [str::split_whitespace] *)
Fixpoint words_from (chunks : list uchunk) (word : bytes) : list bytes :=
  match chunks with
  | [] => match word with [] => [] | _ => [word] end
  | u :: rest =>
      if chunk_space u then match word with [] => words_from rest [] | _ => word :: words_from rest [] end
      else words_from rest (word ++ chunk_raw u)
  end.
Definition split_whitespace (s : bytes) : list bytes := words_from (utf8_chunks s) [].

Definition starts_with (prefix s : bytes) : bool := bool_decide (take (length prefix) s = prefix).

(** [haystack.find(needle)] and [haystack.rfind(needle)] *)
Fixpoint find_text (needle haystack : bytes) : option nat :=
  if starts_with needle haystack then Some 0%nat
  else match haystack with [] => None | _ :: t => option_map S (find_text needle t) end.

Fixpoint rfind_text (needle haystack : bytes) : option nat :=
  match haystack with
  | [] => if starts_with needle [] then Some 0%nat else None
  | _ :: t =>
      match rfind_text needle t with
      | Some i => Some (S i)
      | None => if starts_with needle haystack then Some 0%nat else None
      end
  end.

(** [haystack.contains(needle)] *)
Fixpoint contains (needle haystack : bytes) : bool :=
  bool_decide (take (length needle) haystack = needle)
  || match haystack with [] => false | _ :: t => contains needle t end.

(** ** Display of errors (src/error.rs) *)

Definition quoted (before s after : bytes) : bytes := before ++ s ++ after.

Definition show_command_error (e : command_error) : bytes :=
  match e with
  | CUnknownCommand cmd => quoted (B "ERR unknown command '") cmd (B "'")
  | CWrongNumberOfArgs cmd => quoted (B "ERR wrong number of arguments for '") cmd (B "' command")
  | CSyntaxError msg => B "ERR syntax error: " ++ msg
  | CWrongType => B "WRONGTYPE Operation against a key holding the wrong kind of value"
  | CIntegerOverflow => B "ERR increment or decrement would overflow"
  | CNotInteger => B "ERR value is not an integer or out of range"
  | CIndexOutOfRange => B "ERR index out of range"
  | CNoSuchKey => B "ERR no such key"
  | CInvalidState msg => B "ERR " ++ msg
  | CInvalidArgument msg => B "ERR invalid argument: " ++ msg
  | CInvalidStreamId => B "ERR Invalid stream ID specified as stream command argument"
  | CStreamIdTooSmall => B "ERR The ID specified in XADD is equal or smaller than the target stream top item"
  | CStreamEmpty => B "ERR stream is empty"
  | CConsumerGroupExists => B "BUSYGROUP Consumer Group name already exists"
  | CNoSuchConsumerGroup => B "NOGROUP No such key or consumer group"
  | CNoSuchConsumer => B "ERR no such consumer"
  | CStreamIdExists => B "ERR stream ID already exists"
  | CGeneric msg => B "ERR " ++ msg
  | CEmptyCommand => B "ERR empty command"
  | CWrongNumberOfArguments cmd => quoted (B "ERR wrong number of arguments for '") cmd (B "' command")
  | CInvalidCommandFormat => B "ERR invalid command format"
  | CInvalidArgumentType => B "ERR invalid argument type"
  | CInvalidUtf8 => B "ERR invalid UTF-8 in argument"
  | CInvalidIntegerValue => B "ERR invalid integer value"
  | CInvalidFloatValue => B "ERR invalid floating point value"
  | CNotImplemented => B "ERR command not implemented"
  end.

Definition show_storage_error (e : storage_error) : bytes :=
  match e with
  | OutOfMemory => B "OOM command not allowed when used memory > 'maxmemory'"
  | KeyNotFound => B "Key not found"
  | WrongType => B "Wrong data type"
  | InvalidDatabase => B "ERR invalid DB index"
  | WouldBlock => B "Would block"
  end.

Definition show_script_error (e : script_error) : bytes :=
  match e with
  | ScriptNotFound => B "NOSCRIPT No matching script. Please use EVAL."
  | ScriptExecutionError msg => B "ERR " ++ msg
  | ScriptCompilationError msg => B "ERR Error compiling script: " ++ msg
  | ScriptTimeout => B "ERR Script execution time limit exceeded"
  | ScriptKilled => B "ERR Script killed by user"
  end.

Definition show_error (e : ferrous_error) : bytes :=
  match e with
  | EProtocol msg => B "Protocol error: " ++ msg
  | ECommand err => show_command_error err
  | EStorage err => show_storage_error err
  | EIo msg => B "I/O error: " ++ msg
  | EConfig msg => B "Configuration error: " ++ msg
  | EConnection msg => B "Connection error: " ++ msg
  | EScript err => show_script_error err
  | ELua msg => if bool_decide (take 4 msg = B "ERR ") then msg else B "ERR " ++ msg
  | EInternal msg => B "Internal error: " ++ msg
  end.

(** ** The world *)

(** What a handler meets outside the store, in the order it asks for it:
    readings of the monotonic clock and of the system time (nanoseconds), random
    draws, the spurious failures of [compare_exchange_weak], and the thread's
    clock cache. *)
Record World := mkWorld {
  clock : nat -> Z;
  wall : nat -> Z;
  draws : nat -> Z;
  cas_fails : nat -> bool;
  time_cache : clock_cache;
}.

(** The random generator, seeded by a draw: a shuffled list, a choice among a
    number of items and the level of a new skip list node. *)
Class Random := {
  shuffle : Z -> list bytes -> list bytes;
  choose : Z -> nat -> nat;
  random_level : Z -> nat;
  shuffle_perm r l : shuffle r l ≡ₚ l;
  random_level_max r : (random_level r < 32)%nat;
}.

(** No shuffling, the first choice, level 1. *)
#[refine] Definition example_random : Random :=
  {| shuffle _ l := l; choose _ _ := 0%nat; random_level _ := 1%nat |}.
Proof. all: intros; first [reflexivity|lia]. Defined.

Definition shift {A} (f : nat -> A) : nat -> A := fun n => f (S n).

(** ** The monad *)

Inductive flow (A : Type) :=
  | Go (a : A)
  | Reply (f : RespFrame)
  | Fail (e : ferrous_error)
  | Crash.
Arguments Go {A} a.
Arguments Reply {A} f.
Arguments Fail {A} e.
Arguments Crash {A}.

Definition cmd (S A : Type) : Type := World -> S -> World * S * flow A.

Section cmd.
Context {S : Type}.

Definition ret {A} (a : A) : cmd S A := fun w s => (w, s, Go a).
Definition reply {A} (f : RespFrame) : cmd S A := fun w s => (w, s, Reply f).
Definition fail_with {A} (e : ferrous_error) : cmd S A := fun w s => (w, s, Fail e).
Definition crash {A} : cmd S A := fun w s => (w, s, Crash).

Definition bind {A C} (m : cmd S A) (k : A -> cmd S C) : cmd S C := fun w s =>
  match m w s with
  | (w', s', Go a) => k a w' s'
  | (w', s', Reply f) => (w', s', Reply f)
  | (w', s', Fail e) => (w', s', Fail e)
  | (w', s', Crash) => (w', s', Crash)
  end.
End cmd.

Notation "'let*' x := c 'in' k" := (bind c (fun x => k))
  (at level 10, x pattern, c at level 100, k at level 200) : ferrous_scope.

Section operations.
Context {S : Type}.

(** The next reading of the clocks and the next draw. *)
Definition now : cmd S Z := fun w s =>
  (mkWorld (shift (clock w)) (wall w) (draws w) (cas_fails w) (time_cache w), s, Go (clock w 0%nat)).
Definition system_time : cmd S Z := fun w s =>
  (mkWorld (clock w) (shift (wall w)) (draws w) (cas_fails w) (time_cache w), s, Go (wall w 0%nat)).
(** An unknown number of readings of the system time: every other one of those to come. *)
Definition system_times : cmd S (nat -> Z) := fun w s =>
  (mkWorld (clock w) (fun n => wall w (2 * n + 1)%nat) (draws w) (cas_fails w) (time_cache w), s,
   Go (fun n => wall w (2 * n)%nat)).
Definition draw : cmd S Z := fun w s =>
  (mkWorld (clock w) (wall w) (shift (draws w)) (cas_fails w) (time_cache w), s, Go (draws w 0%nat)).
Definition cas_failure : cmd S bool := fun w s =>
  (mkWorld (clock w) (wall w) (draws w) (shift (cas_fails w)) (time_cache w), s, Go (cas_fails w 0%nat)).
Definition get_cache : cmd S clock_cache := fun w s => (w, s, Go (time_cache w)).
Definition put_cache (c : clock_cache) : cmd S unit := fun w s =>
  (mkWorld (clock w) (wall w) (draws w) (cas_fails w) c, s, Go tt).

(** An operation on the state followed by [?]. *)
Definition try_op {A} (f : S -> S * outcome A) : cmd S A := fun w s =>
  let '(s', r) := f s in
  (w, s', match r with Ok a => Go a | Err e => Fail e | Panic => Crash end).

(** An operation on the state whose result the handler matches on. *)
Definition catch_op {A} (f : S -> S * outcome A) : cmd S (A + ferrous_error) := fun w s =>
  let '(s', r) := f s in
  (w, s', match r with Ok a => Go (inl a) | Err e => Go (inr e) | Panic => Crash end).

(** An operation that only reads the state. *)
Definition reads {A} (f : S -> outcome A) : S -> S * outcome A := fun s => (s, f s).

(** What the caller of a handler gets. *)
Definition run_handler (h : cmd S RespFrame) : World -> S -> World * S * outcome RespFrame := fun w s =>
  let '(w', s', r) := h w s in
  (w', s', match r with Go f | Reply f => Ok f | Fail e => Err e | Crash => Panic end).

Definition reply_error {A} (msg : bytes) : cmd S A := reply (error msg).

(** [if refused { return Ok(RespFrame::error(msg)) }] *)
Definition guard (refused : bool) (msg : bytes) : cmd S unit := if refused then reply_error msg else ret tt.

Definition wrong_arity (name : bytes) : bytes := quoted (B "ERR wrong number of arguments for '") name (B "' command").
Definition not_an_integer : bytes := B "ERR value is not an integer or out of range".
Definition not_a_float : bytes := B "ERR value is not a valid float".
Definition syntax_error : bytes := B "ERR syntax error".
Definition wrong_type_message : bytes := B "WRONGTYPE Operation against a key holding the wrong kind of value".

(** [parts\[i\]], which panics out of range. *)
Definition arg (parts : list RespFrame) (i : nat) : cmd S RespFrame :=
  match parts !! i with Some f => ret f | None => crash end.

(** A bulk string argument, or the reply [msg]. *)
Definition bulk_arg (parts : list RespFrame) (i : nat) (msg : bytes) : cmd S bytes :=
  let* f := arg parts i in
  match f with BulkString (Some b) => ret b | _ => reply_error msg end.

(** The same through [String::from_utf8_lossy(..).parse()]. *)
Definition parsed_arg {A} (parse : bytes -> option A) (parts : list RespFrame) (i : nat) (invalid msg : bytes) : cmd S A :=
  let* b := bulk_arg parts i msg in
  match parse (utf8_lossy b) with Some a => ret a | None => reply_error invalid end.

Definition isize_arg (parts : list RespFrame) (i : nat) (msg : bytes) : cmd S Z :=
  parsed_arg parse_i64 parts i not_an_integer msg.
Definition usize_arg (parts : list RespFrame) (i : nat) (msg : bytes) : cmd S Z :=
  parsed_arg parse_u64 parts i not_an_integer msg.

(** [for i in first..parts.len()] over bulk strings, an error for another frame. *)
Fixpoint bulk_list (frames : list RespFrame) (msg : bytes) : cmd S (list bytes) :=
  match frames with
  | [] => ret []
  | BulkString (Some b) :: frames' => let* rest := bulk_list frames' msg in ret (b :: rest)
  | _ => reply_error msg
  end.

(** The same where other frames are skipped. *)
Definition bulks_only (frames : list RespFrame) : list bytes :=
  omap (fun f => match f with BulkString (Some b) => Some b | _ => None end) frames.

(** [for i in (first..parts.len()).step_by(2)]: pairs; a missing second frame
    is an index out of range. *)
Fixpoint bulk_pairs (frames : list RespFrame) (msg1 msg2 : bytes) : cmd S (list (bytes * bytes)) :=
  match frames with
  | [] => ret []
  | BulkString (Some a) :: frames' =>
      match frames' with
      | BulkString (Some b) :: frames'' => let* rest := bulk_pairs frames'' msg1 msg2 in ret ((a, b) :: rest)
      | _ :: _ => reply_error msg2
      | [] => crash
      end
  | _ => reply_error msg1
  end.

(** [for x in l { .. }] with an accumulator. *)
Fixpoint for_each {X A} (l : list X) (body : X -> A -> cmd S A) (acc : A) : cmd S A :=
  match l with
  | [] => ret acc
  | x :: l' => let* acc' := body x acc in for_each l' body acc'
  end.

(** The [match] most handlers end with: the answer, WRONGTYPE, or the error. *)
Definition answer_or_error {A} (op : S -> S * outcome A) (k : A -> RespFrame) : cmd S RespFrame :=
  let* r := catch_op op in
  match r with
  | inl a => ret (k a)
  | inr (EStorage WrongType) => ret (error wrong_type_message)
  | inr e => ret (error (B "ERR " ++ show_error e))
  end.
End operations.

(** ** Replies *)

Definition int_reply (n : Z) : RespFrame := Integer (i64_wrap n).
Definition flag_reply (b : bool) : RespFrame := Integer (if b then 1 else 0).
Definition bulk_reply (o : option bytes) : RespFrame := match o with Some b => from_bytes b | None => null_bulk end.
Definition bulks_reply (l : list bytes) : RespFrame := Array (Some (map from_bytes l)).

(** Flatten pairs into one array. *)
Definition pairs_reply (l : list (bytes * bytes)) : RespFrame :=
  Array (Some (concat (map (fun p => [from_bytes p.1; from_bytes p.2]) l))).
