(* ===== verification/CommandLogic.v ===== *)
(** * A program logic for command handlers

    [runs R m Q]: whatever the world and the state, [m] relates the state before
    and the state after by [R], and when it goes on with a value the value
    satisfies [Q].  With a reflexive and transitive [R] there is a rule for each
    combinator of Command.v; [cmd_steps] applies them along a handler.  The same
    rules serve different relations: the steps of the store, "no value changes",
    an invariant of the server. *)

From S2P Require Import Prelude Text Resp Command.

Open Scope Z_scope.

Section logic.
Context {S : Type} (R : S -> S -> Prop) `{!Reflexive R} `{!Transitive R}.

Definition runs {A} (m : cmd S A) (Q : A -> Prop) : Prop :=
  forall w s, R s (m w s).1.2 /\ forall a, (m w s).2 = Go a -> Q a.

(** Without a condition on the value. *)
Definition keeps {A} (m : cmd S A) : Prop := runs m (fun _ => True).

Lemma runs_weaken {A} (m : cmd S A) (P Q : A -> Prop) : runs m P -> (forall a, P a -> Q a) -> runs m Q.
Proof. intros Hm HPQ w s. destruct (Hm w s). split; auto. Qed.

Lemma runs_keeps {A} (m : cmd S A) Q : runs m Q -> keeps m.
Proof. intros Hm. by eapply runs_weaken. Qed.

Lemma keeps_state {A} (m : cmd S A) w s : keeps m -> R s (m w s).1.2.
Proof. intros Hm. apply (Hm w s). Qed.

Lemma runs_ret {A} (a : A) (Q : A -> Prop) : Q a -> runs (ret a) Q.
Proof. intros HQ w s. split; [reflexivity|]. by intros ? [= <-]. Qed.

Lemma runs_reply {A} f (Q : A -> Prop) : runs (reply f) Q.
Proof. intros w s. split; [reflexivity|]. done. Qed.

Lemma runs_reply_error {A} msg (Q : A -> Prop) : runs (reply_error msg) Q.
Proof. apply runs_reply. Qed.

Lemma runs_fail {A} e (Q : A -> Prop) : runs (fail_with e) Q.
Proof. intros w s. split; [reflexivity|]. done. Qed.

Lemma runs_crash {A} (Q : A -> Prop) : runs crash Q.
Proof. intros w s. split; [reflexivity|]. done. Qed.

Lemma runs_bind {A C} (m : cmd S A) (k : A -> cmd S C) (P : A -> Prop) (Q : C -> Prop) :
  runs m P -> (forall a, P a -> runs (k a) Q) -> runs (bind m k) Q.
Proof.
  intros Hm Hk w s. destruct (Hm w s) as [Hs Ha]. unfold bind. destruct (m w s) as [[w' s'] [a|f|e|]]; simpl in *.
  2-4: by split; [|done].
  destruct (Hk a (Ha a eq_refl) w' s') as [Hs' Hc]. split; [by etrans|done].
Qed.

(** Clocks, draws and the cache leave the state alone. *)
Definition pure_cmd {A} (m : cmd S A) : Prop := forall w s, (m w s).1.2 = s.

Lemma runs_pure {A} (m : cmd S A) (Q : A -> Prop) : pure_cmd m -> (forall a, Q a) -> runs m Q.
Proof. intros Hm HQ w s. rewrite Hm. split; [reflexivity|auto]. Qed.

Lemma runs_try_op {A} (f : S -> S * outcome A) (Q : A -> Prop) :
  (forall s, R s (f s).1) -> (forall s a, (f s).2 = Ok a -> Q a) -> runs (try_op f) Q.
Proof.
  intros Hf HQ w s. unfold try_op. specialize (Hf s). specialize (HQ s). destruct (f s) as [s' [a|e|]]; simpl in *;
    (split; [done|]); intros ? [= <-]; auto.
Qed.

Lemma runs_catch_op {A} (f : S -> S * outcome A) (Q : A + ferrous_error -> Prop) :
  (forall s, R s (f s).1) -> (forall r, Q r) -> runs (catch_op f) Q.
Proof.
  intros Hf HQ w s. unfold catch_op. specialize (Hf s). destruct (f s) as [s' [a|e|]]; simpl in *;
    (split; [done|]); intros ? [= <-]; auto.
Qed.

Lemma runs_guard b msg : runs (guard b msg) (fun _ => b = false).
Proof. destruct b; [apply runs_reply_error|by apply runs_ret]. Qed.

Lemma runs_arg parts i : runs (arg parts i) (fun f => parts !! i = Some f).
Proof. unfold arg. destruct (parts !! i); [by apply runs_ret|apply runs_crash]. Qed.

Lemma runs_bulk_arg parts i msg : runs (bulk_arg parts i msg) (fun b => parts !! i = Some (BulkString (Some b))).
Proof.
  eapply runs_bind; [apply runs_arg|]. intros f Hf. destruct f as [| | |[b|]| | | | | | |]; try apply runs_reply_error.
  by apply runs_ret.
Qed.

Lemma keeps_parsed_arg {A} (parse : bytes -> option A) parts i invalid msg : keeps (parsed_arg parse parts i invalid msg).
Proof.
  eapply runs_bind; [apply runs_bulk_arg|]. intros b _. destruct (parse _); [by apply runs_ret|apply runs_reply_error].
Qed.

Lemma runs_bulk_list frames msg : runs (bulk_list frames msg) (fun l => frames = map (fun b => BulkString (Some b)) l).
Proof.
  induction frames as [|[| | |[b|]| | | | | | |] frames IH]; simpl; try apply runs_reply_error; [by apply runs_ret|].
  eapply runs_bind; [exact IH|]. intros l ->. by apply runs_ret.
Qed.

Lemma runs_bulk_pairs frames msg1 msg2 :
  runs (bulk_pairs frames msg1 msg2)
    (fun l => frames = concat (map (fun p => [BulkString (Some p.1); BulkString (Some p.2)]) l)).
Proof.
  revert frames. fix IH 1. intros [|[| | |[a|]| | | | | | |] frames]; simpl; try apply runs_reply_error; [by apply runs_ret|].
  destruct frames as [|[| | |[b|]| | | | | | |] frames]; simpl; try apply runs_reply_error; [apply runs_crash|].
  eapply runs_bind; [apply IH|]. intros l ->. by apply runs_ret.
Qed.

Lemma runs_for_each {X A} (l : list X) (body : X -> A -> cmd S A) (Q : A -> Prop) acc :
  Q acc -> (forall x a, x ∈ l -> Q a -> runs (body x a) Q) -> runs (for_each l body acc) Q.
Proof.
  revert acc. induction l as [|x l IH]; intros acc Hacc Hbody; simpl; [by apply runs_ret|].
  eapply runs_bind; [apply Hbody; [by left|exact Hacc]|]. intros a Ha. apply IH; [done|].
  intros y a' Hy. apply Hbody. by right.
Qed.

Lemma keeps_for_each {X A} (l : list X) (body : X -> A -> cmd S A) acc :
  (forall x a, x ∈ l -> keeps (body x a)) -> keeps (for_each l body acc).
Proof. intros Hb. apply runs_for_each; [done|]. intros x a Hx _. by apply Hb. Qed.

Lemma keeps_answer_or_error {A} (op : S -> S * outcome A) k : (forall s, R s (op s).1) -> keeps (answer_or_error op k).
Proof.
  intros Hop. eapply runs_bind; [by apply (runs_catch_op op (fun _ => True))|].
  intros [a|e] _; [by apply runs_ret|].
  destruct e as [|[]|[]| | | |[]| |]; by apply runs_ret.
Qed.

(** The caller of a handler. *)
Lemma run_handler_state (h : cmd S RespFrame) w s : keeps h -> R s (run_handler h w s).1.2.
Proof. intros Hh. unfold run_handler. pose proof (keeps_state h w s Hh) as Hs. by destruct (h w s) as [[w' s'] []]. Qed.

Lemma keeps_reads {A} (f : S -> outcome A) s : R s (reads f s).1.
Proof. reflexivity. Qed.
End logic.

Arguments runs {S} R {A}.
Arguments keeps {S} R {A}.

Lemma pure_now {S} : pure_cmd (S := S) now.
Proof. done. Qed.
Lemma pure_system_time {S} : pure_cmd (S := S) system_time.
Proof. done. Qed.
Lemma pure_system_times {S} : pure_cmd (S := S) system_times.
Proof. done. Qed.
Lemma pure_draw {S} : pure_cmd (S := S) draw.
Proof. done. Qed.
Lemma pure_cas_failure {S} : pure_cmd (S := S) cas_failure.
Proof. done. Qed.
Lemma pure_get_cache {S} : pure_cmd (S := S) get_cache.
Proof. done. Qed.
Lemma pure_put_cache {S} c : pure_cmd (S := S) (put_cache c).
Proof. done. Qed.

Create HintDb cmd.
#[export] Hint Resolve pure_now pure_system_time pure_system_times pure_draw pure_cas_failure pure_get_cache pure_put_cache
  runs_reply_error runs_reply runs_fail runs_crash : cmd.
#[export] Hint Extern 0 (Reflexive _) => exact _ : cmd.
#[export] Hint Extern 0 (Transitive _) => exact _ : cmd.

(** Commands proved as a whole. *)
Create HintDb keeps.
#[export] Hint Extern 3 (runs ?R ?m (fun _ => True)) => change (keeps R m); solve [auto with keeps nocore] : cmd.

(** One rule for the command at the head of a handler. *)
Ltac cmd_head :=
  lazymatch goal with
  | |- runs _ (guard _ _) _ => apply runs_guard
  | |- runs _ (bulk_arg _ _ _) _ => apply runs_bulk_arg
  | |- runs _ (arg _ _) _ => apply runs_arg
  | |- runs _ (bulk_list _ _) _ => apply runs_bulk_list
  | |- runs _ (bulk_pairs _ _ _) _ => apply runs_bulk_pairs
  end; exact _.

Ltac head_of t := lazymatch t with ?f _ => head_of f | _ => t end.

(** Walk along a handler; what is left are the operations on the state. *)
Ltac cmd_steps :=
  intros;
  lazymatch goal with
  | |- keeps _ _ => unfold keeps; cmd_steps
  | |- runs _ (bind ?m _) _ =>
      first
        [ eapply runs_bind; [exact _|cmd_head|let a := fresh "a" in let Ha := fresh "Ha" in intros a Ha; cbv beta in Ha; cmd_steps]
        | apply (runs_bind _ _ _ (fun _ => True)); [cmd_steps|let a := fresh "a" in intros a _; cmd_steps] ]
  | |- runs _ (ret _) _ => apply runs_ret; [exact _|try done]
  | |- runs _ (reply_error _) _ => apply runs_reply_error; exact _
  | |- runs _ (reply _) _ => apply runs_reply; exact _
  | |- runs _ (fail_with _) _ => apply runs_fail; exact _
  | |- runs _ crash _ => apply runs_crash; exact _
  | |- runs _ (guard _ _) _ => eapply runs_keeps, runs_guard; exact _
  | |- runs _ (bulk_arg _ _ _) _ => eapply runs_keeps, runs_bulk_arg; exact _
  | |- runs _ (arg _ _) _ => eapply runs_keeps, runs_arg; exact _
  | |- runs _ (isize_arg _ _ _) _ => apply keeps_parsed_arg; exact _
  | |- runs _ (usize_arg _ _ _) _ => apply keeps_parsed_arg; exact _
  | |- runs _ (parsed_arg _ _ _ _ _) _ => apply keeps_parsed_arg; exact _
  | |- runs _ (answer_or_error _ _) _ => apply keeps_answer_or_error; [exact _..|cmd_steps]
  | |- runs _ (catch_op _) _ => apply runs_catch_op; [cmd_steps|done]
  | |- runs _ (try_op _) _ => apply runs_try_op; [cmd_steps|done]
  | |- runs _ (for_each _ _ _) _ => apply keeps_for_each; [exact _..|cmd_steps]
  | |- runs _ (if ?b then _ else _) _ => destruct b eqn:?; cmd_steps
  | |- runs _ (match ?x with _ => _ end) _ => destruct x eqn:?; cmd_steps
  | |- runs _ ?m _ =>
      first
        [ apply runs_pure; [exact _|solve [auto with cmd]|done]
        | solve [auto with cmd]
        | let h := head_of m in progress (unfold h); cmd_steps
        | idtac ]
  | |- _ _ (reads _ _).1 => reflexivity
  | |- _ => idtac
  end.

(** ** Rewriting of commands *)

(** A condition that does not refuse is passed. *)
Lemma bind_guard {S C} (refused : bool) msg (k : unit -> cmd S C) : refused = false -> bind (guard refused msg) k = k tt.
Proof. by intros ->. Qed.
