(* ===== verification/CollectionCommands.v ===== *)
(** * List, set and hash commands (src/storage/commands/lists.rs, sets.rs and
    hashes.rs) *)

From S2P Require Import Prelude Text Resp SortedSet Value PubSub Keyspace ListOps SetOps Command.

Open Scope Z_scope.

Section list_commands.
Context {ZS : Type} `{SortedSet ZS} `{Layout}.

Abbreviation handler := (nat -> list RespFrame -> cmd (StorageEngine ZS) RespFrame).

Definition bad_key : bytes := B "ERR invalid key format".
Definition bad_element : bytes := B "ERR invalid element format".

(** [handle_lpush] and [handle_rpush] differ in the name and the operation. *)
Definition handle_lpush : handler := fun db parts =>
  let* _ := guard (length parts <? 3)%nat (wrong_arity (B "lpush")) in
  let* key := bulk_arg parts 1 bad_key in
  let* elements := bulk_list (drop 2 parts) bad_element in
  let* t := now in
  answer_or_error (fun e => lpush t e db key elements) int_reply.

Definition handle_rpush : handler := fun db parts =>
  let* _ := guard (length parts <? 3)%nat (wrong_arity (B "rpush")) in
  let* key := bulk_arg parts 1 bad_key in
  let* elements := bulk_list (drop 2 parts) bad_element in
  let* t := now in
  answer_or_error (fun e => rpush t e db key elements) int_reply.

Definition handle_lpop : handler := fun db parts =>
  let* _ := guard (negb (length parts =? 2)%nat) (wrong_arity (B "lpop")) in
  let* key := bulk_arg parts 1 bad_key in
  answer_or_error (fun e => lpop e db key) bulk_reply.

Definition handle_rpop : handler := fun db parts =>
  let* _ := guard (negb (length parts =? 2)%nat) (wrong_arity (B "rpop")) in
  let* key := bulk_arg parts 1 bad_key in
  answer_or_error (fun e => rpop e db key) bulk_reply.

Definition handle_llen : handler := fun db parts =>
  let* _ := guard (negb (length parts =? 2)%nat) (wrong_arity (B "llen")) in
  let* key := bulk_arg parts 1 bad_key in
  answer_or_error (fun e => llen e db key) int_reply.

Definition handle_lrange : handler := fun db parts =>
  let* _ := guard (negb (length parts =? 4)%nat) (wrong_arity (B "lrange")) in
  let* key := bulk_arg parts 1 bad_key in
  let* start := isize_arg parts 2 (B "ERR invalid start format") in
  let* stop := isize_arg parts 3 (B "ERR invalid stop format") in
  answer_or_error (fun e => lrange e db key start stop) bulks_reply.

Definition handle_lindex : handler := fun db parts =>
  let* _ := guard (negb (length parts =? 3)%nat) (wrong_arity (B "lindex")) in
  let* key := bulk_arg parts 1 bad_key in
  let* index := isize_arg parts 2 (B "ERR invalid index format") in
  answer_or_error (fun e => lindex e db key index) bulk_reply.

Definition handle_lset : handler := fun db parts =>
  let* _ := guard (negb (length parts =? 4)%nat) (wrong_arity (B "lset")) in
  let* key := bulk_arg parts 1 bad_key in
  let* index := isize_arg parts 2 (B "ERR invalid index format") in
  let* v := bulk_arg parts 3 (B "ERR invalid value format") in
  answer_or_error (fun e => lset e db key index v) (fun _ => ok).

Definition handle_ltrim : handler := fun db parts =>
  let* _ := guard (negb (length parts =? 4)%nat) (wrong_arity (B "ltrim")) in
  let* key := bulk_arg parts 1 bad_key in
  let* start := isize_arg parts 2 (B "ERR invalid start format") in
  let* stop := isize_arg parts 3 (B "ERR invalid stop format") in
  answer_or_error (fun e => ltrim e db key start stop) (fun _ => ok).

Definition handle_lrem : handler := fun db parts =>
  let* _ := guard (negb (length parts =? 4)%nat) (wrong_arity (B "lrem")) in
  let* key := bulk_arg parts 1 bad_key in
  let* count := isize_arg parts 2 (B "ERR invalid count format") in
  let* element := bulk_arg parts 3 bad_element in
  answer_or_error (fun e => lrem e db key count element) int_reply.
End list_commands.

(** ** Sets and hashes *)

Section set_commands.
Context {ZS : Type} `{SortedSet ZS} `{Layout} `{HashIter} `{Random}.

Abbreviation handler := (nat -> list RespFrame -> cmd (StorageEngine ZS) RespFrame).

Definition bad_member : bytes := B "ERR invalid member format".
Definition bad_field : bytes := B "ERR invalid field format".
Definition bad_value : bytes := B "ERR invalid value format".
Definition bad_count : bytes := B "ERR invalid count format".

(** ** Sets *)

Definition handle_sadd : handler := fun db parts =>
  let* _ := guard (length parts <? 3)%nat (wrong_arity (B "sadd")) in
  let* key := bulk_arg parts 1 bad_key in
  let* members := bulk_list (drop 2 parts) bad_member in
  let* t := now in
  answer_or_error (fun e => sadd t e db key members) int_reply.

Definition handle_srem : handler := fun db parts =>
  let* _ := guard (length parts <? 3)%nat (wrong_arity (B "srem")) in
  let* key := bulk_arg parts 1 bad_key in
  answer_or_error (fun e => srem e db key (bulks_only (drop 2 parts))) int_reply.

Definition handle_smembers : handler := fun db parts =>
  let* _ := guard (negb (length parts =? 2)%nat) (wrong_arity (B "smembers")) in
  let* key := bulk_arg parts 1 bad_key in
  answer_or_error (fun e => smembers e db key) bulks_reply.

Definition handle_sismember : handler := fun db parts =>
  let* _ := guard (negb (length parts =? 3)%nat) (wrong_arity (B "sismember")) in
  let* key := bulk_arg parts 1 bad_key in
  let* member := bulk_arg parts 2 bad_member in
  answer_or_error (fun e => sismember e db key member) flag_reply.

Definition handle_scard : handler := fun db parts =>
  let* _ := guard (negb (length parts =? 2)%nat) (wrong_arity (B "scard")) in
  let* key := bulk_arg parts 1 bad_key in
  answer_or_error (fun e => scard e db key) int_reply.

Definition handle_sunion : handler := fun db parts =>
  let* _ := guard (length parts <? 2)%nat (wrong_arity (B "sunion")) in
  let* keys := bulk_list (drop 1 parts) bad_key in
  answer_or_error (reads (fun e => sunion e db keys)) bulks_reply.

Definition handle_sinter : handler := fun db parts =>
  let* _ := guard (length parts <? 2)%nat (wrong_arity (B "sinter")) in
  let* keys := bulk_list (drop 1 parts) bad_key in
  answer_or_error (reads (fun e => sinter e db keys)) bulks_reply.

Definition handle_sdiff : handler := fun db parts =>
  let* _ := guard (length parts <? 2)%nat (wrong_arity (B "sdiff")) in
  let* keys := bulk_list (drop 1 parts) bad_key in
  answer_or_error (reads (fun e => sdiff e db keys)) bulks_reply.

(** Without a count the answer is the last of the one member drawn. *)
Definition handle_srandmember : handler := fun db parts =>
  let* _ := guard ((length parts <? 2)%nat || (3 <? length parts)%nat) (wrong_arity (B "srandmember")) in
  let* key := bulk_arg parts 1 bad_key in
  let* count := if (length parts =? 3)%nat then let* n := isize_arg parts 2 bad_count in ret (Some n) else ret None in
  let* r := draw in
  match count with
  | None => answer_or_error (fun e => srandmember (shuffle r) (fun i => choose r i) e db key 1)
              (fun members => bulk_reply (last members))
  | Some n => answer_or_error (fun e => srandmember (shuffle r) (fun i => choose r i) e db key n) bulks_reply
  end.

Definition handle_spop : handler := fun db parts =>
  let* _ := guard ((length parts <? 2)%nat || (3 <? length parts)%nat) (wrong_arity (B "spop")) in
  let* key := bulk_arg parts 1 bad_key in
  let* count := if (length parts =? 3)%nat then usize_arg parts 2 bad_count else ret 1 in
  let* r := draw in
  answer_or_error (fun e => spop (shuffle r) e db key (Z.to_nat count))
    (fun members =>
      if (length parts =? 2)%nat && (count =? 1) then bulk_reply (head members) else bulks_reply members).

(** ** Hashes *)

(** [(parts.len() - 2) % 2 != 0] *)
Definition odd_pairs (parts : list RespFrame) : bool := negb (((length parts - 2) mod 2) =? 0)%nat.

Definition handle_hset : handler := fun db parts =>
  let* _ := guard ((length parts <? 4)%nat || odd_pairs parts) (wrong_arity (B "hset")) in
  let* key := bulk_arg parts 1 bad_key in
  let* fvs := bulk_pairs (drop 2 parts) bad_field bad_value in
  let* t := now in
  answer_or_error (fun e => hset t e db key fvs) int_reply.

Definition handle_hget : handler := fun db parts =>
  let* _ := guard (negb (length parts =? 3)%nat) (wrong_arity (B "hget")) in
  let* key := bulk_arg parts 1 bad_key in
  let* field := bulk_arg parts 2 bad_field in
  answer_or_error (fun e => hget e db key field) bulk_reply.

Definition handle_hmset : handler := fun db parts =>
  let* _ := guard ((length parts <? 4)%nat || odd_pairs parts) (wrong_arity (B "hmset")) in
  let* key := bulk_arg parts 1 bad_key in
  let* fvs := bulk_pairs (drop 2 parts) bad_field bad_value in
  let* t := now in
  answer_or_error (fun e => hset t e db key fvs) (fun _ => ok).

Definition handle_hmget : handler := fun db parts =>
  let* _ := guard (length parts <? 3)%nat (wrong_arity (B "hmget")) in
  let* key := bulk_arg parts 1 bad_key in
  let* fields := bulk_list (drop 2 parts) bad_field in
  answer_or_error (fun e => hmget e db key fields) (fun values => Array (Some (map bulk_reply values))).

Definition handle_hgetall : handler := fun db parts =>
  let* _ := guard (negb (length parts =? 2)%nat) (wrong_arity (B "hgetall")) in
  let* key := bulk_arg parts 1 bad_key in
  answer_or_error (fun e => hgetall e db key) pairs_reply.

Definition handle_hdel : handler := fun db parts =>
  let* _ := guard (length parts <? 3)%nat (wrong_arity (B "hdel")) in
  let* key := bulk_arg parts 1 bad_key in
  answer_or_error (fun e => hdel e db key (bulks_only (drop 2 parts))) int_reply.

Definition handle_hlen : handler := fun db parts =>
  let* _ := guard (negb (length parts =? 2)%nat) (wrong_arity (B "hlen")) in
  let* key := bulk_arg parts 1 bad_key in
  answer_or_error (fun e => hlen e db key) int_reply.

Definition handle_hexists : handler := fun db parts =>
  let* _ := guard (negb (length parts =? 3)%nat) (wrong_arity (B "hexists")) in
  let* key := bulk_arg parts 1 bad_key in
  let* field := bulk_arg parts 2 bad_field in
  answer_or_error (fun e => hexists e db key field) flag_reply.

Definition handle_hkeys : handler := fun db parts =>
  let* _ := guard (negb (length parts =? 2)%nat) (wrong_arity (B "hkeys")) in
  let* key := bulk_arg parts 1 bad_key in
  answer_or_error (fun e => hkeys e db key) bulks_reply.

Definition handle_hvals : handler := fun db parts =>
  let* _ := guard (negb (length parts =? 2)%nat) (wrong_arity (B "hvals")) in
  let* key := bulk_arg parts 1 bad_key in
  answer_or_error (fun e => hvals e db key) bulks_reply.

Definition handle_hincrby : handler := fun db parts =>
  let* _ := guard (negb (length parts =? 4)%nat) (wrong_arity (B "hincrby")) in
  let* key := bulk_arg parts 1 bad_key in
  let* field := bulk_arg parts 2 bad_field in
  let* increment := isize_arg parts 3 (B "ERR invalid increment format") in
  let* t := now in
  answer_or_error (fun e => hincrby t e db key field increment) Integer.
End set_commands.
