(* ===== verification/StringCommands.v ===== *)
(** * String and key commands (src/storage/commands/strings.rs and the handlers
    of src/network/server.rs that only use the storage engine)

    Hits and misses of GET and EXISTS are counted by the dispatch (Server.v). *)

From S2P Require Import Prelude Text Resp SortedSet Value PubSub Keyspace StringOps Command CollectionCommands.

Open Scope Z_scope.

Section string_commands.
Context {ZS : Type} `{SortedSet ZS} `{Layout} `{HashIter} `{CaseMap}.

Abbreviation engine := (StorageEngine ZS).
Abbreviation handler := (nat -> list RespFrame -> cmd engine RespFrame).

Definition empty_key : bytes := B "ERR invalid key: empty string keys are not allowed".

(** A key that must not be empty. *)
Definition nonempty_key (parts : list RespFrame) : cmd engine bytes :=
  let* key := bulk_arg parts 1 bad_key in
  match key with [] => reply_error empty_key | _ => ret key end.

(** ** SET *)

Record SetOptions := mkSetOptions { opt_expiration : option Z; opt_nx : bool; opt_xx : bool }.

(** The expiry that follows EX or PX, in nanoseconds; only UTF-8 text is parsed. *)
Definition expire_option (unit_ns : Z) (f : option RespFrame) : cmd engine Z :=
  match f with
  | None => reply_error syntax_error
  | Some (BulkString (Some b)) =>
      match (if utf8_valid b then parse_u64 b else None) with
      | Some n => ret (n * unit_ns)
      | None => reply_error (B "ERR invalid expire time")
      end
  | Some _ => reply_error (B "ERR invalid expire time")
  end.

(** [while i < parts.len()], on the frames from [i] on. *)
Fixpoint set_options (fuel : nat) (frames : list RespFrame) (o : SetOptions) : cmd engine SetOptions :=
  match fuel, frames with
  | _, [] => ret o
  | O, _ => crash
  | S fuel', BulkString (Some option) :: rest =>
      let name := to_uppercase option in
      if bool_decide (name = B "EX") then
        let* t := expire_option 1000000000 (head rest) in
        set_options fuel' (tail rest) (mkSetOptions (Some t) (opt_nx o) (opt_xx o))
      else if bool_decide (name = B "PX") then
        let* t := expire_option 1000000 (head rest) in
        set_options fuel' (tail rest) (mkSetOptions (Some t) (opt_nx o) (opt_xx o))
      else if bool_decide (name = B "NX") then set_options fuel' rest (mkSetOptions (opt_expiration o) true (opt_xx o))
      else if bool_decide (name = B "XX") then set_options fuel' rest (mkSetOptions (opt_expiration o) (opt_nx o) true)
      else reply_error syntax_error
  | S _, _ :: _ => reply_error syntax_error
  end.

Definition set_plain (db : nat) (key v : bytes) (expiration : option Z) : cmd engine unit :=
  let* t := now in
  match expiration with
  | Some d => try_op (fun e => set_string_ex t e db key v d)
  | None => try_op (fun e => set_string t e db key v)
  end.

Definition handle_set : handler := fun db parts =>
  let* _ := guard (length parts <? 3)%nat (wrong_arity (B "set")) in
  let* key := nonempty_key parts in
  let* v := bulk_arg parts 2 bad_value in
  let* o := set_options (length parts) (drop 3 parts) (mkSetOptions None false false) in
  if opt_nx o then
    let* t := now in
    let* stored :=
      match opt_expiration o with
      | Some d => let* t1 := now in let* t2 := now in try_op (fun e => set_string_nx_ex t t1 t2 e db key v d)
      | None => try_op (fun e => set_string_nx t e db key v)
      end in
    ret (if stored then ok else null_bulk)
  else if opt_xx o then
    let* t := now in
    let* present := try_op (fun e => key_exists t e db key) in
    if negb present then ret null_bulk
    else let* _ := set_plain db key v (opt_expiration o) in ret ok
  else let* _ := set_plain db key v (opt_expiration o) in ret ok.

(** ** The other commands of server.rs *)

Definition handle_ping : handler := fun db parts =>
  if (1 <? length parts)%nat then arg parts 1 else ret (SimpleString (B "PONG")).

Definition handle_echo : handler := fun db parts =>
  if negb (length parts =? 2)%nat then reply_error (wrong_arity (B "echo")) else arg parts 1.

Definition handle_get : handler := fun db parts =>
  let* _ := guard (negb (length parts =? 2)%nat) (wrong_arity (B "get")) in
  let* key := nonempty_key parts in
  let* t := now in
  let* v := try_op (fun e => get_string t e db key) in
  ret (bulk_reply v).

(** [Err(e) => Ok(RespFrame::error(e.to_string()))] *)
Definition number_or_error (op : engine -> engine * outcome Z) : cmd engine RespFrame :=
  let* r := catch_op op in
  match r with
  | inl n => ret (Integer n)
  | inr e => reply_error (show_error e)
  end.

Definition handle_incr : handler := fun db parts =>
  let* _ := guard (negb (length parts =? 2)%nat) (wrong_arity (B "incr")) in
  let* key := nonempty_key parts in
  let* t := now in
  number_or_error (fun e => incr t e db key).

Definition handle_decr : handler := fun db parts =>
  let* _ := guard (negb (length parts =? 2)%nat) (wrong_arity (B "decr")) in
  let* key := bulk_arg parts 1 bad_key in
  let* t := now in
  number_or_error (fun e => incr_by t e db key (-1)).

Definition handle_incrby : handler := fun db parts =>
  let* _ := guard (negb (length parts =? 3)%nat) (wrong_arity (B "incrby")) in
  let* key := nonempty_key parts in
  let* increment := isize_arg parts 2 (B "ERR invalid increment format") in
  let* t := now in
  number_or_error (fun e => incr_by t e db key increment).

(** [-decrement] wraps around in a release build. *)
Definition handle_decrby : handler := fun db parts =>
  let* _ := guard (negb (length parts =? 3)%nat) (wrong_arity (B "decrby")) in
  let* key := bulk_arg parts 1 bad_key in
  let* decrement := isize_arg parts 2 (B "ERR invalid decrement format") in
  let* t := now in
  number_or_error (fun e => incr_by t e db key (i64_wrap (- decrement))).

Definition handle_del : handler := fun db parts =>
  let* _ := guard (length parts <? 2)%nat (wrong_arity (B "del")) in
  let* deleted := for_each (bulks_only (drop 1 parts))
    (fun key n => let* b := try_op (fun e => delete_key e db key) in ret (if b then n + 1 else n)) 0 in
  ret (Integer deleted).

Definition handle_exists : handler := fun db parts =>
  let* _ := guard (length parts <? 2)%nat (wrong_arity (B "exists")) in
  let* count := for_each (bulks_only (drop 1 parts))
    (fun key n => let* t := now in let* b := try_op (fun e => key_exists t e db key) in ret (if b then n + 1 else n)) 0 in
  ret (Integer count).

Definition handle_expire : handler := fun db parts =>
  let* _ := guard (negb (length parts =? 3)%nat) (wrong_arity (B "expire")) in
  let* key := bulk_arg parts 1 bad_key in
  let* seconds := isize_arg parts 2 (B "ERR invalid seconds format") in
  if seconds <=? 0 then
    let* deleted := try_op (fun e => delete_key e db key) in ret (flag_reply deleted)
  else
    let* t1 := now in
    let* t2 := now in
    let* result := try_op (fun e => expire t1 t2 e db key (seconds * 1000000000)) in ret (flag_reply result).

(** The seconds of a duration, rounded up; below a millisecond it is -2. *)
Definition ttl_seconds (d : Z) : Z :=
  let secs := d / 1000000000 in
  let nanos := d mod 1000000000 in
  let millis := nanos / 1000000 in
  if (secs =? 0) && (millis =? 0) then -2
  else if (secs =? 0) && (0 <? millis) then 1
  else if 0 <? nanos then i64_wrap (u64_wrap (secs + 1)) else i64_wrap secs.

Definition handle_ttl : handler := fun db parts =>
  let* _ := guard (negb (length parts =? 2)%nat) (wrong_arity (B "ttl")) in
  let* key := bulk_arg parts 1 bad_key in
  let* t := now in
  let* d := try_op (fun e => ttl t e db key) in
  match d with
  | Some d => ret (Integer (ttl_seconds d))
  | None =>
      let* t' := now in
      let* present := try_op (fun e => key_exists t' e db key) in
      ret (Integer (if present then -1 else -2))
  end.

(** [Err(e) => return Ok(RespFrame::error(format!("ERR {}", e)))] *)
Definition flush_or_error (db : nat) : cmd engine unit :=
  let* r := catch_op (fun e => flush_db e db) in
  match r with
  | inl _ => ret tt
  | inr e => reply_error (B "ERR " ++ show_error e)
  end.

Definition handle_flushdb : handler := fun db parts =>
  let* _ := guard (negb (length parts =? 1)%nat) (wrong_arity (B "flushdb")) in
  let* _ := flush_or_error db in ret ok.

Definition database_count (e : engine) : nat := length (databases e).

Definition handle_flushall : handler := fun _ parts =>
  let* _ := guard (negb (length parts =? 1)%nat) (wrong_arity (B "flushall")) in
  let* n := try_op (reads (fun e => Ok (database_count e))) in
  let* _ := for_each (seq 0 n) (fun db _ => flush_or_error db) tt in ret ok.

Definition handle_dbsize : handler := fun db parts =>
  let* _ := guard (negb (length parts =? 1)%nat) (wrong_arity (B "dbsize")) in
  let* keys := try_op (reads (fun e => get_all_keys e db)) in
  ret (int_reply (Z.of_nat (length keys))).

Definition handle_setnx : handler := fun db parts =>
  let* _ := guard (negb (length parts =? 3)%nat) (wrong_arity (B "setnx")) in
  let* key := bulk_arg parts 1 bad_key in
  let* v := bulk_arg parts 2 bad_value in
  let* t := now in
  let* present := try_op (fun e => key_exists t e db key) in
  if present then ret (Integer 0)
  else
    let* t' := now in
    let* _ := try_op (fun e => set_string t' e db key v) in ret (Integer 1).

Definition bad_expiration : bytes := B "ERR invalid expiration format".

Definition handle_setex : handler := fun db parts =>
  let* _ := guard (negb (length parts =? 4)%nat) (wrong_arity (B "setex")) in
  let* key := bulk_arg parts 1 bad_key in
  let* seconds := usize_arg parts 2 bad_expiration in
  let* v := bulk_arg parts 3 bad_value in
  let* t := now in
  let* _ := try_op (fun e => set_string_ex t e db key v (seconds * 1000000000)) in ret ok.

Definition handle_psetex : handler := fun db parts =>
  let* _ := guard (negb (length parts =? 4)%nat) (wrong_arity (B "psetex")) in
  let* key := bulk_arg parts 1 bad_key in
  let* millis := usize_arg parts 2 bad_expiration in
  let* v := bulk_arg parts 3 bad_value in
  let* t := now in
  let* _ := try_op (fun e => set_string_ex t e db key v (millis * 1000000)) in ret ok.

Definition handle_renamenx : handler := fun db parts =>
  let* _ := guard (negb (length parts =? 3)%nat) (wrong_arity (B "renamenx")) in
  let* old_key := bulk_arg parts 1 (B "ERR invalid old key format") in
  let* new_key := bulk_arg parts 2 (B "ERR invalid new key format") in
  let* t := now in
  let* present := try_op (fun e => key_exists t e db old_key) in
  let* _ := guard (negb present) (B "ERR no such key") in
  let* t' := now in
  let* taken := try_op (fun e => key_exists t' e db new_key) in
  if taken then ret (Integer 0)
  else
    let* r := catch_op (fun e => rename e db old_key new_key) in
    match r with
    | inl _ => ret (Integer 1)
    | inr e => reply_error (show_error e)
    end.

Definition handle_randomkey : handler := fun db parts =>
  let* _ := guard (negb (length parts =? 1)%nat) (wrong_arity (B "randomkey")) in
  let* keys := try_op (reads (fun e => get_all_keys e db)) in
  match keys with
  | [] => ret null_bulk
  | _ =>
      let* r := draw in
      match keys !! Z.to_nat (u64_wrap r mod Z.of_nat (length keys)) with
      | Some k => ret (from_bytes k)
      | None => crash
      end
  end.

(** A test command that sleeps. *)
Definition handle_sleep : handler := fun db parts =>
  let* _ := guard (negb (length parts =? 2)%nat) (wrong_arity (B "sleep")) in
  let* _ := usize_arg parts 1 (B "ERR invalid milliseconds format") in
  ret ok.

(** ** The commands of strings.rs *)

Definition handle_mget : handler := fun db parts =>
  let* _ := guard (length parts <? 2)%nat (wrong_arity (B "mget")) in
  let* values := for_each (seq 1 (length parts - 1))
    (fun i values =>
      let* key := bulk_arg parts i bad_key in
      let* t := now in
      let* v := try_op (fun e => get_string t e db key) in
      ret (values ++ [bulk_reply v])) [] in
  ret (Array (Some values)).

(** [(1..parts.len()).step_by(2)] *)
Definition odd_indices (parts : list RespFrame) : list nat := map (fun i => 2 * i + 1)%nat (seq 0 (length parts / 2)).

Definition handle_mset : handler := fun db parts =>
  let* _ := guard ((length parts <? 3)%nat || (length parts mod 2 =? 0)%nat) (wrong_arity (B "mset")) in
  let* _ := for_each (odd_indices parts)
    (fun i _ =>
      let* key := bulk_arg parts i bad_key in
      let* v := bulk_arg parts (i + 1) bad_value in
      let* t := now in
      try_op (fun e => set_string t e db key v)) tt in
  ret ok.

Definition handle_getset : handler := fun db parts =>
  let* _ := guard (negb (length parts =? 3)%nat) (wrong_arity (B "getset")) in
  let* key := bulk_arg parts 1 bad_key in
  let* new_value := bulk_arg parts 2 bad_value in
  let* t := now in
  let* old_value := try_op (fun e => get_string t e db key) in
  let* t' := now in
  let* _ := try_op (fun e => set_string t' e db key new_value) in
  ret (bulk_reply old_value).

Definition handle_append : handler := fun db parts =>
  let* _ := guard (negb (length parts =? 3)%nat) (wrong_arity (B "append")) in
  let* key := bulk_arg parts 1 bad_key in
  let* v := bulk_arg parts 2 bad_value in
  let* t := now in
  answer_or_error (fun e => append t e db key v) int_reply.

Definition handle_strlen : handler := fun db parts =>
  let* _ := guard (negb (length parts =? 2)%nat) (wrong_arity (B "strlen")) in
  let* key := bulk_arg parts 1 bad_key in
  answer_or_error (fun e => strlen e db key) int_reply.

Definition handle_getrange : handler := fun db parts =>
  let* _ := guard (negb (length parts =? 4)%nat) (wrong_arity (B "getrange")) in
  let* key := bulk_arg parts 1 bad_key in
  let* start := isize_arg parts 2 (B "ERR invalid start format") in
  let* end_ := isize_arg parts 3 (B "ERR invalid end format") in
  answer_or_error (fun e => getrange e db key start end_) from_bytes.

Definition handle_setrange : handler := fun db parts =>
  let* _ := guard (negb (length parts =? 4)%nat) (wrong_arity (B "setrange")) in
  let* key := bulk_arg parts 1 bad_key in
  let* offset := usize_arg parts 2 (B "ERR invalid offset format") in
  let* v := bulk_arg parts 3 bad_value in
  let* t := now in
  answer_or_error (fun e => setrange t e db key offset v) int_reply.

Definition handle_type : handler := fun db parts =>
  let* _ := guard (negb (length parts =? 2)%nat) (wrong_arity (B "type")) in
  let* key := bulk_arg parts 1 bad_key in
  let* name := try_op (fun e => key_type e db key) in
  ret (SimpleString name).

Definition handle_rename : handler := fun db parts =>
  let* _ := guard (negb (length parts =? 3)%nat) (wrong_arity (B "rename")) in
  let* old_key := bulk_arg parts 1 bad_key in
  let* new_key := bulk_arg parts 2 bad_key in
  let* _ := try_op (fun e => rename e db old_key new_key) in ret ok.

Definition handle_keys : handler := fun db parts =>
  let* _ := guard (negb (length parts =? 2)%nat) (wrong_arity (B "keys")) in
  let* pattern := bulk_arg parts 1 (B "ERR invalid pattern format") in
  let* keys := try_op (reads (fun e => keys_matching e db pattern)) in
  ret (bulks_reply keys).

Definition handle_pexpire : handler := fun db parts =>
  let* _ := guard (negb (length parts =? 3)%nat) (wrong_arity (B "pexpire")) in
  let* key := bulk_arg parts 1 bad_key in
  let* millis := usize_arg parts 2 (B "ERR invalid milliseconds format") in
  let* t1 := now in
  let* t2 := now in
  let* result := try_op (fun e => pexpire t1 t2 e db key millis) in ret (flag_reply result).

Definition handle_pttl : handler := fun db parts =>
  let* _ := guard (negb (length parts =? 2)%nat) (wrong_arity (B "pttl")) in
  let* key := bulk_arg parts 1 bad_key in
  let* t1 := now in
  let* t2 := now in
  let* millis := try_op (fun e => pttl t1 t2 e db key) in ret (Integer millis).

Definition handle_persist : handler := fun db parts =>
  let* _ := guard (negb (length parts =? 2)%nat) (wrong_arity (B "persist")) in
  let* key := bulk_arg parts 1 bad_key in
  let* r := catch_op (fun e => persist e db key) in
  match r with
  | inl b => ret (flag_reply b)
  | inr e => reply_error (B "ERR " ++ show_error e)
  end.
End string_commands.
