(* ===== verification/ZSetCommands.v ===== *)
(** * Sorted set and SCAN commands (the sorted set handlers of
    src/network/server.rs, and src/storage/commands/scan.rs) *)

From S2P Require Import Prelude Text Resp SortedSet Value PubSub Keyspace ZSetOps Scan Command CollectionCommands.

Open Scope Z_scope.

Section zset_commands.
Context {ZS : Type} `{SortedSet ZS} `{Layout} `{HashIter} `{F64Text} `{Random} `{CaseMap}.

Abbreviation engine := (StorageEngine ZS).
Abbreviation handler := (nat -> list RespFrame -> cmd engine RespFrame).

Definition not_a_bound : bytes := B "ERR min or max is not a float".
Definition bad_min : bytes := B "ERR invalid min score format".
Definition bad_max : bytes := B "ERR invalid max score format".

Definition f64_arg (invalid : bytes) (parts : list RespFrame) (i : nat) (msg : bytes) : cmd engine f64 :=
  parsed_arg f64_parse parts i invalid msg.

(** [(2..parts.len()).step_by(2)] *)
Definition even_indices (parts : list RespFrame) : list nat :=
  map (fun i => 2 * i + 2)%nat (seq 0 (length parts / 2 - 1)).

(** The pairs are added one by one: those before a bad score stay. *)
Definition handle_zadd : handler := fun db parts =>
  let* _ := guard ((length parts <? 4)%nat || negb (length parts mod 2 =? 0)%nat) (wrong_arity (B "zadd")) in
  let* key := bulk_arg parts 1 bad_key in
  let* new_members := for_each (even_indices parts)
    (fun i n =>
      let* score := f64_arg not_a_float parts i (B "ERR invalid score format") in
      let* member := bulk_arg parts (i + 1) bad_member in
      let* r := draw in
      let* t := now in
      let* b := try_op (fun e => zadd (random_level r) t e db key member score) in
      ret (if b then n + 1 else n)) 0 in
  ret (Integer new_members).

Definition handle_zrem : handler := fun db parts =>
  let* _ := guard (length parts <? 3)%nat (wrong_arity (B "zrem")) in
  let* key := bulk_arg parts 1 bad_key in
  let* removed := for_each (bulks_only (drop 2 parts))
    (fun member n => let* b := try_op (fun e => zrem e db key member) in ret (if b then n + 1 else n)) 0 in
  ret (Integer removed).

Definition handle_zscore : handler := fun db parts =>
  let* _ := guard (negb (length parts =? 3)%nat) (wrong_arity (B "zscore")) in
  let* key := bulk_arg parts 1 bad_key in
  let* member := bulk_arg parts 2 bad_member in
  let* score := try_op (fun e => zscore e db key member) in
  ret (bulk_reply (option_map f64_display score)).

Definition handle_zcard : handler := fun db parts =>
  let* _ := guard (negb (length parts =? 2)%nat) (wrong_arity (B "zcard")) in
  let* key := bulk_arg parts 1 bad_key in
  let* count := try_op (fun e => zcard e db key) in
  ret (int_reply count).

Definition rank_command (name : bytes) (reverse : bool) : handler := fun db parts =>
  let* _ := guard (negb (length parts =? 3)%nat) (wrong_arity name) in
  let* key := bulk_arg parts 1 bad_key in
  let* member := bulk_arg parts 2 bad_member in
  let* rank := try_op (fun e => zrank e db key member reverse) in
  ret (match rank with Some r => int_reply r | None => null_bulk end).

Definition handle_zrank : handler := rank_command (B "zrank") false.
Definition handle_zrevrank : handler := rank_command (B "zrevrank") true.

(** The option that may follow the range, any other word being ignored. *)
Definition with_scores (parts : list RespFrame) : bool :=
  (length parts =? 5)%nat
  && match parts !! 4%nat with
     | Some (BulkString (Some b)) => bool_decide (to_uppercase b = B "WITHSCORES")
     | _ => false
     end.

Definition members_reply (scores : bool) (members : list (bytes * f64)) : RespFrame :=
  Array (Some (concat (map (fun m => if scores then [from_bytes m.1; from_string (f64_display m.2)]
                                     else [from_bytes m.1]) members))).

Definition range_command (name : bytes) (reverse : bool) : handler := fun db parts =>
  let* _ := guard ((length parts <? 4)%nat || (5 <? length parts)%nat) (wrong_arity name) in
  let* key := bulk_arg parts 1 bad_key in
  let* start := isize_arg parts 2 (B "ERR invalid start format") in
  let* stop := isize_arg parts 3 (B "ERR invalid stop format") in
  let* members := try_op (fun e => zrange e db key start stop reverse) in
  ret (members_reply (with_scores parts) members).

Definition handle_zrange : handler := range_command (B "zrange") false.
Definition handle_zrevrange : handler := range_command (B "zrevrange") true.

Definition handle_zrangebyscore : handler := fun db parts =>
  let* _ := guard ((length parts <? 4)%nat || (5 <? length parts)%nat) (wrong_arity (B "zrangebyscore")) in
  let* key := bulk_arg parts 1 bad_key in
  let* min_score := f64_arg not_a_bound parts 2 bad_min in
  let* max_score := f64_arg not_a_bound parts 3 bad_max in
  let* members := try_op (fun e => zrangebyscore e db key min_score max_score false) in
  ret (members_reply (with_scores parts) members).

(** The bounds come in the other order. *)
Definition handle_zrevrangebyscore : handler := fun db parts =>
  let* _ := guard ((length parts <? 4)%nat || (5 <? length parts)%nat) (wrong_arity (B "zrevrangebyscore")) in
  let* key := bulk_arg parts 1 bad_key in
  let* max_score := f64_arg not_a_bound parts 2 bad_max in
  let* min_score := f64_arg not_a_bound parts 3 bad_min in
  let* members := try_op (fun e => zrangebyscore e db key min_score max_score true) in
  ret (members_reply (with_scores parts) members).

Definition handle_zcount : handler := fun db parts =>
  let* _ := guard (negb (length parts =? 4)%nat) (wrong_arity (B "zcount")) in
  let* key := bulk_arg parts 1 bad_key in
  let* min_score := f64_arg not_a_bound parts 2 bad_min in
  let* max_score := f64_arg not_a_bound parts 3 bad_max in
  let* count := try_op (fun e => zcount e db key min_score max_score) in
  ret (int_reply count).

Definition handle_zincrby : handler := fun db parts =>
  let* _ := guard (negb (length parts =? 4)%nat) (wrong_arity (B "zincrby")) in
  let* key := bulk_arg parts 1 bad_key in
  let* increment := f64_arg not_a_float parts 2 (B "ERR invalid increment format") in
  let* member := bulk_arg parts 3 bad_member in
  let* r := draw in
  let* t := now in
  let* new_score := try_op (fun e => zincrby (random_level r) t e db key member increment) in
  ret (from_string (f64_display new_score)).

(** [for _ in 0..count]: take the member at [rank] and remove it; a member that
    is not removed is not answered. *)
Fixpoint pop_members (db : nat) (key : bytes) (rank : Z) (count : nat) (results : list RespFrame)
    : cmd engine (list RespFrame) :=
  match count with
  | O => ret results
  | S count' =>
      let* members := try_op (fun e => zrange e db key rank rank false) in
      match members with
      | [] => ret results
      | (member, score) :: _ =>
          let* removed := try_op (fun e => zrem e db key member) in
          pop_members db key rank count'
            (if removed then results ++ [from_bytes member; from_string (f64_display score)] else results)
      end
  end.

Definition zpop_command (name : bytes) (rank : Z) : handler := fun db parts =>
  let* _ := guard ((length parts <? 2)%nat || (3 <? length parts)%nat) (wrong_arity name) in
  let* key := bulk_arg parts 1 bad_key in
  let* count := if (length parts =? 3)%nat then usize_arg parts 2 bad_count else ret 1 in
  let* results := pop_members db key rank (Z.to_nat count) [] in
  ret (match results with [] => null_array | _ => Array (Some results) end).

Definition handle_zpopmin : handler := zpop_command (B "zpopmin") 0.
Definition handle_zpopmax : handler := zpop_command (B "zpopmax") (-1).

(** ** SCAN *)

Record ScanOptions := mkScanOptions {
  scan_match : option bytes;
  scan_type : option bytes;
  scan_count : Z;
  scan_no_values : bool;
}.

(** The options a command of the family accepts beside MATCH and COUNT. *)
Record ScanSyntax := mkScanSyntax { accepts_type : bool; accepts_novalues : bool }.

Definition bulk_or_syntax_error (f : option RespFrame) : cmd engine bytes :=
  match f with Some (BulkString (Some b)) => ret b | _ => reply_error syntax_error end.

(** [while i < parts.len()], on the frames from [i] on. *)
Fixpoint scan_options (fuel : nat) (x : ScanSyntax) (frames : list RespFrame) (o : ScanOptions) : cmd engine ScanOptions :=
  match fuel, frames with
  | _, [] => ret o
  | O, _ => crash
  | S fuel', BulkString (Some option) :: rest =>
      let name := to_uppercase option in
      if bool_decide (name = B "MATCH") then
        let* p := bulk_or_syntax_error (head rest) in
        scan_options fuel' x (tail rest) (mkScanOptions (Some p) (scan_type o) (scan_count o) (scan_no_values o))
      else if accepts_type x && bool_decide (name = B "TYPE") then
        let* t := bulk_or_syntax_error (head rest) in
        scan_options fuel' x (tail rest) (mkScanOptions (scan_match o) (Some (utf8_lossy t)) (scan_count o) (scan_no_values o))
      else if bool_decide (name = B "COUNT") then
        let* c := bulk_or_syntax_error (head rest) in
        match parse_u64 (utf8_lossy c) with
        | Some n => scan_options fuel' x (tail rest) (mkScanOptions (scan_match o) (scan_type o) n (scan_no_values o))
        | None => reply_error not_an_integer
        end
      else if accepts_novalues x && bool_decide (name = B "NOVALUES") then
        scan_options fuel' x rest (mkScanOptions (scan_match o) (scan_type o) (scan_count o) true)
      else reply_error syntax_error
  | S _, _ :: _ => reply_error syntax_error
  end.

Definition default_scan : ScanOptions := mkScanOptions None None 10 false.

Definition cursor_arg (parts : list RespFrame) (i : nat) : cmd engine Z :=
  parsed_arg parse_u64 parts i (B "ERR invalid cursor") (B "ERR invalid cursor format").

Definition scan_reply (next : Z) (elements : list RespFrame) : RespFrame :=
  Array (Some [from_string (show_u64 next); Array (Some elements)]).

(** The clock is read for every key; one reading stands for them all. *)
Definition handle_scan : handler := fun db parts =>
  let* _ := guard (length parts <? 2)%nat (wrong_arity (B "scan")) in
  let* cursor := cursor_arg parts 1 in
  let* o := scan_options (length parts) (mkScanSyntax true false) (drop 2 parts) default_scan in
  let* t := now in
  let* (next, keys) := try_op (reads (fun e => scan (fun _ => t) e db cursor (scan_match o) (scan_type o) (scan_count o))) in
  ret (scan_reply next (map from_bytes keys)).

Definition handle_hscan : handler := fun db parts =>
  let* _ := guard (length parts <? 3)%nat (wrong_arity (B "hscan")) in
  let* key := bulk_arg parts 1 bad_key in
  let* cursor := cursor_arg parts 2 in
  let* o := scan_options (length parts) (mkScanSyntax false true) (drop 3 parts) default_scan in
  let* t := now in
  let* (next, found) := try_op (fun e => hscan t e db key cursor (scan_match o) (scan_count o) (scan_no_values o)) in
  ret (scan_reply next (map from_bytes found)).

Definition handle_sscan : handler := fun db parts =>
  let* _ := guard (length parts <? 3)%nat (wrong_arity (B "sscan")) in
  let* key := bulk_arg parts 1 bad_key in
  let* cursor := cursor_arg parts 2 in
  let* o := scan_options (length parts) (mkScanSyntax false false) (drop 3 parts) default_scan in
  let* t := now in
  let* (next, members) := try_op (fun e => sscan t e db key cursor (scan_match o) (scan_count o)) in
  ret (scan_reply next (map from_bytes members)).

Definition handle_zscan : handler := fun db parts =>
  let* _ := guard (length parts <? 3)%nat (wrong_arity (B "zscan")) in
  let* key := bulk_arg parts 1 bad_key in
  let* cursor := cursor_arg parts 2 in
  let* o := scan_options (length parts) (mkScanSyntax false false) (drop 3 parts) default_scan in
  let* t := now in
  let* (next, items) := try_op (fun e => zscan t e db key cursor (scan_match o) (scan_count o)) in
  ret (scan_reply next
         (concat (map (fun m => [from_bytes m.1; from_string (f64_display m.2)]) items))).
End zset_commands.
