(* ===== verification/StreamCommands.v ===== *)
(** * Stream commands (src/storage/commands/streams.rs)

    XREAD accepts BLOCK and then reads without blocking. *)

From S2P Require Import Prelude Text Resp SortedSet Value PubSub StreamId Stream Keyspace ZSetOps Command CollectionCommands.

Open Scope Z_scope.

Section stream_commands.
Context {ZS : Type} `{SortedSet ZS} `{Layout} `{HashIter} `{CaseMap}.

Abbreviation engine := (StorageEngine ZS).
Abbreviation handler := (nat -> list RespFrame -> cmd engine RespFrame).

Definition bad_id : bytes := B "ERR invalid ID format".
Definition invalid_stream_id : bytes := B "ERR Invalid stream ID specified as stream command argument".
Definition xadd_too_small : bytes :=
  B "ERR The ID specified in XADD is equal or smaller than the target stream top item".

Definition parsed_id (text : bytes) : cmd engine StreamId :=
  match sid_from_string text with Some i => ret i | None => reply_error invalid_stream_id end.

(** [storage.xadd] with the clock and the cache of the thread; the cache keeps
    what was read even when the entry is refused. *)
Definition xadd_now (db : nat) (key : bytes) (fields : gmap bytes bytes) : cmd engine StreamId :=
  let* t := now in
  let* clk := system_time in
  let* weak1 := cas_failure in
  let* weak2 := cas_failure in
  let* c := get_cache in
  let* r := catch_op (fun e => xadd t clk weak1 weak2 c e db key fields) in
  match r with
  | inl (i, c') => let* _ := put_cache c' in ret i
  | inr e => fail_with e
  end.

(** How the handler answers to an error of [xadd_with_id]. *)
Definition xadd_error (e : ferrous_error) : bytes :=
  let msg := show_error e in
  if contains (B "equal or smaller") msg then xadd_too_small
  else if contains (B "already exists") msg then xadd_too_small
  else B "ERR " ++ msg.

Definition handle_xadd : handler := fun db parts =>
  let* _ := guard ((length parts <? 4)%nat || negb ((length parts - 3) mod 2 =? 0)%nat) (wrong_arity (B "xadd")) in
  let* key := bulk_arg parts 1 bad_key in
  let* id_bytes := bulk_arg parts 2 bad_id in
  let* fvs := bulk_pairs (drop 3 parts) bad_field bad_value in
  let fields := foldl (fun m fv => <[fv.1 := fv.2]> m) ∅ fvs in
  let* i :=
    if bool_decide (id_bytes = B "*") then xadd_now db key fields
    else
      let* i := parsed_id id_bytes in
      let* _ := guard ((sid_millis i =? 0) && (sid_seq i =? 0)) (B "ERR The ID specified in XADD must be greater than 0-0") in
      let* t := now in
      let* r := catch_op (fun e => xadd_with_id t e db key i fields) in
      match r with
      | inl i => ret i
      | inr e => reply_error (xadd_error e)
      end in
  ret (BulkString (Some (sid_to_string i))).

Definition entry_frame (e : StreamEntry) : RespFrame :=
  Array (Some [from_string (sid_to_string (entry_id e)); pairs_reply (map_iter (entry_fields e))]).

(** A range bound: a special word or an id. *)
Definition bound_arg (word : bytes) (bound : StreamId) (parts : list RespFrame) (i : nat) (msg : bytes) : cmd engine StreamId :=
  let* b := bulk_arg parts i msg in
  if bool_decide (utf8_lossy b = word) then ret bound else parsed_id (utf8_lossy b).

Definition start_arg := bound_arg (B "-") sid_min.
Definition end_arg := bound_arg (B "+") sid_max.

Definition count_arg (parts : list RespFrame) (i : nat) : cmd engine (option nat) :=
  let* n := usize_arg parts i bad_count in ret (Some (Z.to_nat n)).

Definition is_count_word (f : option RespFrame) : bool :=
  match f with Some (BulkString (Some b)) => bool_decide (to_uppercase b = B "COUNT") | _ => false end.

Definition handle_xrange : handler := fun db parts =>
  let* _ := guard (length parts <? 4)%nat (wrong_arity (B "xrange")) in
  let* key := bulk_arg parts 1 bad_key in
  let* start := start_arg parts 2 (B "ERR invalid start ID format") in
  let* end_ := end_arg parts 3 (B "ERR invalid end ID format") in
  let* count := if (6 <=? length parts)%nat && is_count_word (parts !! 4%nat) then count_arg parts 5 else ret None in
  let* entries := try_op (fun e => xrange e db key start end_ count) in
  ret (Array (Some (map entry_frame entries))).

(** A fifth argument alone is a count when it is a number. *)
Definition handle_xrevrange : handler := fun db parts =>
  let* _ := guard (length parts <? 4)%nat (wrong_arity (B "xrevrange")) in
  let* key := bulk_arg parts 1 bad_key in
  let* end_ := end_arg parts 2 (B "ERR invalid end ID format") in
  let* start := start_arg parts 3 (B "ERR invalid start ID format") in
  let* count :=
    if (6 <=? length parts)%nat && is_count_word (parts !! 4%nat) then count_arg parts 5
    else if (length parts =? 5)%nat then
      ret (match parts !! 4%nat with
           | Some (BulkString (Some b)) => option_map Z.to_nat (parse_u64 (utf8_lossy b))
           | _ => None
           end)
    else ret None in
  let* entries := try_op (fun e => xrevrange e db key start end_ count) in
  ret (Array (Some (map entry_frame entries))).

Definition handle_xlen : handler := fun db parts =>
  let* _ := guard (negb (length parts =? 2)%nat) (wrong_arity (B "xlen")) in
  let* key := bulk_arg parts 1 bad_key in
  let* n := try_op (fun e => xlen e db key) in
  ret (int_reply n).

(** ** XREAD *)

(** The options up to STREAMS: the count and the frames that follow; without
    STREAMS nothing follows. *)
Fixpoint xread_options (fuel : nat) (frames : list RespFrame) (count : option nat) : cmd engine (option nat * list RespFrame) :=
  match fuel, frames with
  | _, [] => ret (count, [])
  | O, _ => crash
  | S fuel', BulkString (Some b) :: rest =>
      let arg := to_uppercase b in
      match rest with
      | f :: rest' =>
          if bool_decide (arg = B "COUNT") then
            match f with
            | BulkString (Some c) =>
                match parse_u64 (utf8_lossy c) with
                | Some n => xread_options fuel' rest' (Some (Z.to_nat n))
                | None => reply_error not_an_integer
                end
            | _ => reply_error (B "ERR invalid count value")
            end
          else if bool_decide (arg = B "BLOCK") then
            match f with
            | BulkString (Some c) =>
                match parse_u64 (utf8_lossy c) with
                | Some _ => xread_options fuel' rest' count
                | None => reply_error (B "ERR timeout is not a float or out of range")
                end
            | _ => reply_error (B "ERR invalid timeout value")
            end
          else if bool_decide (arg = B "STREAMS") then ret (count, rest)
          else reply_error syntax_error
      | [] => if bool_decide (arg = B "STREAMS") then ret (count, []) else reply_error syntax_error
      end
  | S _, _ :: _ => reply_error syntax_error
  end.

(** The id to read after: [$] is the last entry's. *)
Definition after_id (db : nat) (key id_str : bytes) : cmd engine StreamId :=
  if bool_decide (id_str = B "$") then
    let* all_entries := try_op (fun e => xrange e db key sid_min sid_max None) in
    ret (match last all_entries with Some e => entry_id e | None => sid 0 0 end)
  else if bool_decide (id_str = B "0") || bool_decide (id_str = B "0-0") then ret (sid 0 0)
  else parsed_id id_str.

Definition unbalanced : bytes :=
  B "ERR Unbalanced XREAD list of streams: for each stream key an ID or '$' must be specified.".

Definition handle_xread : handler := fun db parts =>
  let* _ := guard (length parts <? 4)%nat (wrong_arity (B "xread")) in
  let* (count, streams) := xread_options (length parts) (drop 1 parts) None in
  let* _ := guard (bool_decide (streams = [])) syntax_error in
  let* _ := guard (negb (length streams mod 2 =? 0)%nat) unbalanced in
  let num_keys := (length streams / 2)%nat in
  let* keys_and_ids := for_each (seq 0 num_keys)
    (fun j found =>
      let* key := bulk_arg streams j bad_key in
      let* id_bytes := bulk_arg streams (num_keys + j) bad_id in
      let* i := after_id db key (utf8_lossy id_bytes) in
      ret (found ++ [(key, i)])) [] in
  let* results := try_op (reads (fun e => xread e db keys_and_ids count None)) in
  ret (Array (Some (map (fun r => Array (Some [from_bytes r.1; Array (Some (map entry_frame r.2))]))
                      (filter (fun r => r.2 <> []) results)))).

(** ** XTRIM and XDEL *)

Definition bad_trim_count : bytes := not_an_integer.

Definition handle_xtrim : handler := fun db parts =>
  let* _ := guard (length parts <? 4)%nat (wrong_arity (B "xtrim")) in
  let* key := bulk_arg parts 1 bad_key in
  let* strategy := bulk_arg parts 2 (B "ERR invalid strategy format") in
  let* _ := guard (negb (bool_decide (to_uppercase strategy = B "MAXLEN"))) syntax_error in
  let* max_len :=
    if (length parts =? 5)%nat then
      let* modifier := bulk_arg parts 3 syntax_error in
      let modifier := utf8_lossy modifier in
      if bool_decide (modifier = B "~") || bool_decide (modifier = B "=") then usize_arg parts 4 bad_trim_count
      else match parse_u64 modifier with Some n => ret n | None => reply_error syntax_error end
    else if (length parts =? 4)%nat then
      let* arg := bulk_arg parts 3 bad_trim_count in
      let arg := utf8_lossy arg in
      if bool_decide (arg = B "~") || bool_decide (arg = B "=") then reply_error syntax_error
      else match parse_u64 arg with Some n => ret n | None => reply_error not_an_integer end
    else reply_error (wrong_arity (B "xtrim")) in
  let* trimmed := try_op (fun e => xtrim e db key (Z.to_nat max_len)) in
  ret (int_reply (Z.of_nat trimmed)).

Definition handle_xdel : handler := fun db parts =>
  let* _ := guard (length parts <? 3)%nat (wrong_arity (B "xdel")) in
  let* key := bulk_arg parts 1 bad_key in
  let* ids := for_each (drop 2 parts)
    (fun f ids =>
      match f with
      | BulkString (Some b) => let* i := parsed_id (utf8_lossy b) in ret (ids ++ [i])
      | _ => reply_error bad_id
      end) [] in
  let* deleted := try_op (fun e => xdel e db key ids) in
  ret (int_reply (Z.of_nat deleted)).
End stream_commands.
