(* ===== verification/GroupCommands.v ===== *)
(** * Consumer group commands (src/storage/commands/consumer_groups.rs)

    The handlers take a copy of the stream out of the store.  The copy has its
    own entries and shares the consumer groups ([Arc]) with the stored stream:
    what a handler does to the groups of the copy is written back here with
    [share_groups].  The key is not marked as modified. *)

From S2P Require Import Prelude Text Resp SortedSet Value PubSub StreamId BTree ConsumerGroups Stream Keyspace ZSetOps Command CollectionCommands StreamCommands.

Open Scope Z_scope.

Section group_commands.
Context {ZS : Type} `{SortedSet ZS} `{Layout} `{HashIter} `{CaseMap}.

Abbreviation engine := (StorageEngine ZS).
Abbreviation handler := (nat -> list RespFrame -> cmd engine RespFrame).

Definition bad_group : bytes := B "ERR invalid group name format".
Definition bad_consumer : bytes := B "ERR invalid consumer name format".
Definition no_such_key : bytes := B "ERR no such key".

(** ** The stream of a key *)

(** [match storage.get(db, key)?]: a stream, WRONGTYPE, or what the handler
    does without the key ([missing]). *)
Definition get_stream (db : nat) (key : bytes) (missing : cmd engine Stream) : cmd engine Stream :=
  let* t := now in
  let* g := try_op (fun e => engine_get t e db key) in
  match g with
  | Found (VStream s) => ret s
  | Found _ | GetWrongType => reply_error wrong_type_message
  | NotFound | Expired => missing
  end.

(** The groups of the copy are those of the stored stream. *)
Definition share_groups (db : nat) (key : bytes) (s : Stream) : cmd engine unit :=
  try_op (fun e => set_groups e db key (consumer_groups s)).

(** A text argument of the groups: [String::from_utf8_lossy]. *)
Definition text_arg (parts : list RespFrame) (i : nat) (msg : bytes) : cmd engine bytes :=
  let* b := bulk_arg parts i msg in ret (utf8_lossy b).

Definition no_group_reply {A} (name : bytes) : cmd engine A := reply_error (no_group name).

(** ** XINFO *)

Definition text (s : bytes) : RespFrame := from_string s.

Definition entry_or_null (e : option StreamEntry) : RespFrame :=
  match e with Some e => entry_frame e | None => null_array end.

Definition handle_xinfo_stream : handler := fun db parts =>
  let* _ := guard (length parts <? 3)%nat (wrong_arity (B "xinfo stream")) in
  let* key := bulk_arg parts 2 bad_key in
  let* s := get_stream db key (reply_error no_such_key) in
  ret (Array (Some
    [text (B "length"); int_reply (stream_len s);
     text (B "radix-tree-keys"); Integer 1;
     text (B "radix-tree-nodes"); Integer 2;
     text (B "last-generated-id");
     text (match last_entry s with Some e => sid_to_string (entry_id e) | None => B "0-0" end);
     text (B "groups"); int_reply (Z.of_nat (group_count (consumer_groups s)));
     text (B "first-entry"); entry_or_null (first_entry s);
     text (B "last-entry"); entry_or_null (last_entry s)])).

Definition group_frame (g : ConsumerGroup) : RespFrame :=
  Array (Some
    [text (B "name"); text (group_name g);
     text (B "consumers"); int_reply (Z.of_nat (consumer_count g));
     text (B "pending"); int_reply (Z.of_nat (total_pending g));
     text (B "last-delivered-id"); text (sid_to_string (get_last_id g))]).

Definition empty_reply : RespFrame := Array (Some []).

Definition handle_xinfo_groups : handler := fun db parts =>
  let* _ := guard (negb (length parts =? 3)%nat) (wrong_arity (B "xinfo groups")) in
  let* key := bulk_arg parts 2 bad_key in
  let* s := get_stream db key (reply empty_reply) in
  ret (Array (Some (map (fun ng => group_frame ng.2) (map_iter (consumer_groups s))))).

Definition consumer_frame (t : Z) (nc : bytes * Consumer) : RespFrame :=
  Array (Some
    [text (B "name"); text nc.1;
     text (B "pending"); int_reply (Z.of_nat (pending_count nc.2));
     text (B "idle"); int_reply (Z.max 0 (t - last_seen nc.2) / 1000000)]).

(** The idle time is read anew for every consumer. *)
Definition handle_xinfo_consumers : handler := fun db parts =>
  let* _ := guard (negb (length parts =? 4)%nat) (wrong_arity (B "xinfo consumers")) in
  let* key := bulk_arg parts 2 bad_key in
  let* group_name := text_arg parts 3 bad_group in
  let* s := get_stream db key (reply empty_reply) in
  match get_consumer_group s group_name with
  | None => no_group_reply group_name
  | Some g =>
      let* frames := for_each (map_iter (consumers g))
        (fun nc frames => let* t := system_time in ret (frames ++ [consumer_frame t nc])) [] in
      ret (Array (Some frames))
  end.

Definition help_reply (lines : list bytes) : RespFrame := Array (Some (map from_string lines)).

Definition handle_xinfo_help : RespFrame := help_reply
  [B "XINFO <subcommand> [<arg> [value] [opt] ...]. Subcommands are:";
   B "STREAM <key>";
   B "    Show information about a stream.";
   B "GROUPS <key>";
   B "    Show the consumer groups of a stream.";
   B "CONSUMERS <key> <groupname>";
   B "    Show consumers of a consumer group.";
   B "HELP";
   B "    Print this help."].

Definition bad_subcommand : bytes := B "ERR invalid subcommand format".

Definition unknown_subcommand {A} (sub : bytes) : cmd engine A :=
  reply_error (quoted (B "ERR unknown subcommand '") sub (B "'")).

Definition handle_xinfo : handler := fun db parts =>
  let* _ := guard (length parts <? 2)%nat (wrong_arity (B "xinfo")) in
  let* b := bulk_arg parts 1 bad_subcommand in
  let sub := to_uppercase b in
  if bool_decide (sub = B "STREAM") then handle_xinfo_stream db parts
  else if bool_decide (sub = B "GROUPS") then handle_xinfo_groups db parts
  else if bool_decide (sub = B "CONSUMERS") then handle_xinfo_consumers db parts
  else if bool_decide (sub = B "HELP") then ret handle_xinfo_help
  else unknown_subcommand sub.

(** ** XGROUP *)

(** [stream.last_entry().map(|e| e.id).unwrap_or(StreamId::new(0, 0))] *)
Definition last_entry_id (s : Stream) : StreamId :=
  match last_entry s with Some e => entry_id e | None => sid 0 0 end.

Definition is_word (word : bytes) (f : option RespFrame) : bool :=
  match f with Some (BulkString (Some b)) => bool_decide (to_uppercase b = word) | _ => false end.

(** The group is created on the copy of the stream; with MKSTREAM the copy is
    of the stream just stored. *)
Definition handle_xgroup_create : handler := fun db parts =>
  let* _ := guard (length parts <? 5)%nat (wrong_arity (B "xgroup create")) in
  let* key := bulk_arg parts 2 bad_key in
  let* group_name := text_arg parts 3 bad_group in
  let* id_str := text_arg parts 4 bad_id in
  let mkstream := (5 <? length parts)%nat && is_word (B "MKSTREAM") (parts !! 5%nat) in
  let* s := get_stream db key
    (if mkstream then
       let new_stream := stream_new size_stream_data size_stream in
       let* t := now in
       let* _ := try_op (fun e => set_value t e db key (VStream new_stream) None) in ret new_stream
     else reply_error (B "ERR The XGROUP subcommand requires the key to exist")) in
  let* start_id :=
    if bool_decide (id_str = B "$") then ret (last_entry_id s)
    else if bool_decide (id_str = B "0") || bool_decide (id_str = B "0-0") then ret (sid 0 0)
    else parsed_id id_str in
  let* t := system_time in
  match create_consumer_group t s group_name start_id with
  | (s', inr _) => let* _ := share_groups db key s' in ret ok
  | (_, inl e) =>
      if contains (B "already exists") e then reply_error (B "BUSYGROUP Consumer Group name already exists")
      else reply_error (B "ERR " ++ e)
  end.

Definition handle_xgroup_destroy : handler := fun db parts =>
  let* _ := guard (negb (length parts =? 4)%nat) (wrong_arity (B "xgroup destroy")) in
  let* key := bulk_arg parts 2 bad_key in
  let* group_name := text_arg parts 3 bad_group in
  let* s := get_stream db key (reply (Integer 0)) in
  let '(s', destroyed) := destroy_consumer_group s group_name in
  let* _ := share_groups db key s' in ret (flag_reply destroyed).

Definition handle_xgroup_createconsumer : handler := fun db parts =>
  let* _ := guard (negb (length parts =? 5)%nat) (wrong_arity (B "xgroup createconsumer")) in
  let* key := bulk_arg parts 2 bad_key in
  let* group_name := text_arg parts 3 bad_group in
  let* consumer_name := text_arg parts 4 bad_consumer in
  let* s := get_stream db key (reply_error no_such_key) in
  match get_consumer_group s group_name with
  | None => no_group_reply group_name
  | Some g =>
      let* t := system_time in
      let '(g', created) := create_consumer t g consumer_name in
      let* _ := share_groups db key (put_group s group_name g') in ret (flag_reply created)
  end.

Definition handle_xgroup_delconsumer : handler := fun db parts =>
  let* _ := guard (negb (length parts =? 5)%nat) (wrong_arity (B "xgroup delconsumer")) in
  let* key := bulk_arg parts 2 bad_key in
  let* group_name := text_arg parts 3 bad_group in
  let* consumer_name := text_arg parts 4 bad_consumer in
  let* s := get_stream db key (reply (Integer 0)) in
  match get_consumer_group s group_name with
  | None => ret (Integer 0)
  | Some g =>
      let '(g', pending_removed) := delete_consumer g consumer_name in
      let* _ := share_groups db key (put_group s group_name g') in ret (int_reply (Z.of_nat pending_removed))
  end.

Definition handle_xgroup_setid : handler := fun db parts =>
  let* _ := guard (length parts <? 5)%nat (wrong_arity (B "xgroup setid")) in
  let* key := bulk_arg parts 2 bad_key in
  let* group_name := text_arg parts 3 bad_group in
  let* id_str := text_arg parts 4 bad_id in
  let* s := get_stream db key (reply_error no_such_key) in
  let* new_id := if bool_decide (id_str = B "$") then ret (last_entry_id s) else parsed_id id_str in
  match get_consumer_group s group_name with
  | None => no_group_reply group_name
  | Some g => let* _ := share_groups db key (put_group s group_name (set_id g new_id)) in ret ok
  end.

Definition handle_xgroup_help : RespFrame := help_reply
  [B "XGROUP <subcommand> [<arg> [value] [opt] ...]. Subcommands are:";
   B "CREATE <key> <groupname> <id or $> [MKSTREAM]";
   B "    Create a new consumer group.";
   B "SETID <key> <groupname> <id or $>";
   B "    Set the current group ID.";
   B "DESTROY <key> <groupname>";
   B "    Remove the consumer group.";
   B "CREATECONSUMER <key> <groupname> <consumername>";
   B "    Create a new consumer in the group.";
   B "DELCONSUMER <key> <groupname> <consumername>";
   B "    Remove the consumer from the group.";
   B "HELP";
   B "    Print this help."].

Definition handle_xgroup : handler := fun db parts =>
  let* _ := guard (length parts <? 2)%nat (wrong_arity (B "xgroup")) in
  let* b := bulk_arg parts 1 bad_subcommand in
  let sub := to_uppercase b in
  if bool_decide (sub = B "CREATE") then handle_xgroup_create db parts
  else if bool_decide (sub = B "DESTROY") then handle_xgroup_destroy db parts
  else if bool_decide (sub = B "CREATECONSUMER") then handle_xgroup_createconsumer db parts
  else if bool_decide (sub = B "DELCONSUMER") then handle_xgroup_delconsumer db parts
  else if bool_decide (sub = B "SETID") then handle_xgroup_setid db parts
  else if bool_decide (sub = B "HELP") then ret handle_xgroup_help
  else unknown_subcommand sub.

(** ** XREADGROUP *)

Record GroupReadOptions := mkGroupRead { gr_count : option nat; gr_block : option Z; gr_noack : bool }.

(** [String::from_utf8_lossy(bytes).parse().ok()] of a frame that may be of
    another kind: a bad number is no number. *)
Definition number_or_none (f : RespFrame) : option Z :=
  match f with BulkString (Some b) => parse_u64 (utf8_lossy b) | _ => None end.

(** The options up to STREAMS, and the frames that follow. *)
Fixpoint group_read_options (fuel : nat) (frames : list RespFrame) (o : GroupReadOptions)
    : cmd engine (GroupReadOptions * list RespFrame) :=
  match fuel, frames with
  | _, [] => ret (o, [])
  | O, _ => crash
  | S fuel', BulkString (Some b) :: rest =>
      let arg := to_uppercase b in
      match (if bool_decide (arg = B "COUNT") then head rest else None),
            (if bool_decide (arg = B "BLOCK") then head rest else None) with
      | Some f, _ =>
          group_read_options fuel' (tail rest)
            (mkGroupRead (option_map Z.to_nat (number_or_none f)) (gr_block o) (gr_noack o))
      | None, Some f => group_read_options fuel' (tail rest) (mkGroupRead (gr_count o) (number_or_none f) (gr_noack o))
      | None, None =>
          if bool_decide (arg = B "NOACK") then group_read_options fuel' rest (mkGroupRead (gr_count o) (gr_block o) true)
          else if bool_decide (arg = B "STREAMS") then ret (o, rest)
          else reply_error syntax_error
      end
  | S _, _ :: _ => reply_error syntax_error
  end.

Definition invalid_id_specified : bytes := B "ERR Invalid stream ID specified".

(** One key of XREADGROUP: its entries in front of those still to come. *)
Definition read_one_group (db : nat) (group consumer key id_str : bytes) (o : GroupReadOptions)
    (results : list RespFrame) : cmd engine (list RespFrame) :=
  let* t := now in
  let* g := try_op (fun e => engine_get t e db key) in
  match g with
  | Found (VStream s) =>
      let* after_id :=
        if bool_decide (id_str = B ">") then ret sid_max
        else if bool_decide (id_str = B "0") || bool_decide (id_str = B "0-0") then ret (sid 0 0)
        else match sid_from_string id_str with Some i => ret i | None => reply_error invalid_id_specified end in
      let* t1 := system_time in
      let* t2 := system_time in
      let '(s', r) := read_group t1 t2 s group consumer after_id (gr_count o) (gr_noack o) in
      let* _ := share_groups db key s' in
      match r with
      | inr [] => ret results
      | inr es => ret (results ++ [Array (Some [from_bytes key; Array (Some (map entry_frame es))])])
      | inl e => if contains (B "NOGROUP") e then reply_error e else ret results
      end
  | Found _ => reply_error wrong_type_message
  | _ => ret results
  end.

Definition handle_xreadgroup : handler := fun db parts =>
  let* _ := guard (length parts <? 6)%nat (wrong_arity (B "xreadgroup")) in
  let* _ := guard (negb (is_word (B "GROUP") (parts !! 1%nat))) syntax_error in
  let* group := text_arg parts 2 (B "ERR invalid group name") in
  let* consumer := text_arg parts 3 (B "ERR invalid consumer name") in
  let* (o, streams) := group_read_options (length parts) (drop 4 parts) (mkGroupRead None None false) in
  let* _ := guard (bool_decide (streams = [])) syntax_error in
  let* _ := guard (negb (length streams mod 2 =? 0)%nat) (B "ERR Unbalanced XREADGROUP list of streams") in
  let num_keys := (length streams / 2)%nat in
  let* results := for_each (seq 0 num_keys)
    (fun j results =>
      let* key := bulk_arg streams j bad_key in
      let* id_str := text_arg streams (num_keys + j) bad_id in
      read_one_group db group consumer key id_str o results) [] in
  match results, gr_block o with
  | [], Some _ => ret null_array
  | _, _ => ret (Array (Some results))
  end.

(** ** XACK *)

(** The ids from a position on, an error for what is not one. *)
Definition id_list (frames : list RespFrame) (bad invalid : bytes) : cmd engine (list StreamId) :=
  for_each frames (fun f ids =>
    match f with
    | BulkString (Some b) =>
        match sid_from_string (utf8_lossy b) with
        | Some i => ret (ids ++ [i])
        | None => reply_error invalid
        end
    | _ => reply_error bad
    end) [].

Definition handle_xack : handler := fun db parts =>
  let* _ := guard (length parts <? 4)%nat (wrong_arity (B "xack")) in
  let* key := bulk_arg parts 1 bad_key in
  let* group := text_arg parts 2 bad_group in
  let* ids := id_list (drop 3 parts) bad_id invalid_id_specified in
  let* s := get_stream db key (reply (Integer 0)) in
  match acknowledge_messages s group ids with
  | (s', inr n) => let* _ := share_groups db key s' in ret (int_reply (Z.of_nat n))
  | (_, inl e) => if contains (B "NOGROUP") e then ret (Integer 0) else reply_error e
  end.

(** ** XPENDING *)

Definition id_or_null (i : option StreamId) : RespFrame :=
  match i with Some i => text (sid_to_string i) | None => null_bulk end.

Definition pending_summary (info : PendingInfo) : RespFrame :=
  Array (Some
    [int_reply (Z.of_nat (info_count info)); id_or_null (info_min_id info); id_or_null (info_max_id info);
     Array (Some (map (fun nc => Array (Some [text nc.1; int_reply (Z.of_nat nc.2)])) (map_iter (info_consumers info))))]).

Definition pending_frame (e : PendingEntryInfo) : RespFrame :=
  Array (Some [text (sid_to_string (pei_id e)); text (pei_consumer e); int_reply (pei_idle_time e);
               int_reply (pei_delivery_count e)]).

(** A bound that is not an id is no bound. *)
Definition optional_bound (word s : bytes) : option StreamId :=
  if bool_decide (s = word) then None else sid_from_string s.

Definition handle_xpending : handler := fun db parts =>
  let* _ := guard (length parts <? 3)%nat (wrong_arity (B "xpending")) in
  let* key := bulk_arg parts 1 bad_key in
  let* group := text_arg parts 2 bad_group in
  let* s := get_stream db key (reply null_array) in
  match get_consumer_group s group with
  | None => ret null_array
  | Some g =>
      if (length parts =? 3)%nat then ret (pending_summary (get_pending_info g))
      else
        let* _ := guard (length parts <? 6)%nat syntax_error in
        let* start_str := text_arg parts 3 (B "ERR invalid start ID") in
        let* end_str := text_arg parts 4 (B "ERR invalid end ID") in
        let* count := parsed_arg parse_u64 parts 5 (B "ERR value is not an integer") (B "ERR invalid count") in
        let consumer := match parts !! 6%nat with Some (BulkString (Some b)) => Some (utf8_lossy b) | _ => None end in
        let* t := system_time in
        let* found := try_op (reads (fun _ =>
          get_pending_range t g (optional_bound (B "-") start_str) (optional_bound (B "+") end_str) (Z.to_nat count) consumer)) in
        ret (Array (Some (map pending_frame found)))
  end.

(** ** XCLAIM and XAUTOCLAIM *)

Record ClaimOptions := mkClaim { cl_ids : list StreamId; cl_force : bool; cl_justid : bool }.

(** IDLE, TIME and RETRYCOUNT are skipped with what follows them. *)
Fixpoint claim_options (fuel : nat) (frames : list RespFrame) (o : ClaimOptions) : cmd engine ClaimOptions :=
  match fuel, frames with
  | _, [] => ret o
  | O, _ => crash
  | S fuel', BulkString (Some b) :: rest =>
      let arg := to_uppercase b in
      if bool_decide (arg = B "FORCE") then claim_options fuel' rest (mkClaim (cl_ids o) true (cl_justid o))
      else if bool_decide (arg = B "JUSTID") then claim_options fuel' rest (mkClaim (cl_ids o) (cl_force o) true)
      else if bool_decide (arg = B "IDLE") || bool_decide (arg = B "TIME") || bool_decide (arg = B "RETRYCOUNT")
      then claim_options fuel' (tail rest) o
      else
        match sid_from_string (utf8_lossy b) with
        | Some i => claim_options fuel' rest (mkClaim (cl_ids o ++ [i]) (cl_force o) (cl_justid o))
        | None => reply_error (B "ERR Invalid stream ID")
        end
  | S _, _ :: _ => reply_error syntax_error
  end.

Definition claimed_frame (justid : bool) (e : StreamEntry) : RespFrame :=
  if justid then text (sid_to_string (entry_id e)) else entry_frame e.

Definition min_idle_arg (parts : list RespFrame) : cmd engine Z :=
  parsed_arg parse_u64 parts 4 (B "ERR Invalid min-idle-time") (B "ERR invalid min-idle-time").

Definition handle_xclaim : handler := fun db parts =>
  let* _ := guard (length parts <? 6)%nat (wrong_arity (B "xclaim")) in
  let* key := bulk_arg parts 1 bad_key in
  let* group := text_arg parts 2 (B "ERR invalid group name") in
  let* consumer := text_arg parts 3 (B "ERR invalid consumer name") in
  let* min_idle_ms := min_idle_arg parts in
  let* o := claim_options (length parts) (drop 5 parts) (mkClaim [] false false) in
  let* _ := guard (bool_decide (cl_ids o = [])) syntax_error in
  let* s := get_stream db key (reply empty_reply) in
  let* t1 := system_time in
  let* t2 := system_time in
  let* transfers := system_times in
  match stream_claim_messages t1 t2 transfers s group consumer min_idle_ms (cl_ids o) (cl_force o) with
  | (s', inr es) =>
      let* _ := share_groups db key s' in ret (Array (Some (map (claimed_frame (cl_justid o)) es)))
  | (_, inl e) => reply_error e
  end.

(** A frame that is not a bulk string ends the options. *)
Fixpoint autoclaim_options (fuel : nat) (frames : list RespFrame) (count : Z) (justid : bool) : cmd engine (Z * bool) :=
  match fuel, frames with
  | _, [] => ret (count, justid)
  | O, _ => crash
  | S fuel', BulkString (Some b) :: rest =>
      let arg := to_uppercase b in
      match (if bool_decide (arg = B "COUNT") then head rest else None) with
      | Some (BulkString (Some c)) =>
          match parse_u64 (utf8_lossy c) with
          | Some n => autoclaim_options fuel' (tail rest) n justid
          | None => reply_error (B "ERR value is not an integer")
          end
      | Some _ => reply_error syntax_error
      | None => if bool_decide (arg = B "JUSTID") then autoclaim_options fuel' rest count true else reply_error syntax_error
      end
  | S _, _ :: _ => ret (count, justid)
  end.

(** No command reaches this handler. *)
Definition handle_xautoclaim : handler := fun db parts =>
  let* _ := guard (length parts <? 6)%nat (wrong_arity (B "xautoclaim")) in
  let* key := bulk_arg parts 1 bad_key in
  let* group := text_arg parts 2 (B "ERR invalid group name") in
  let* consumer := text_arg parts 3 (B "ERR invalid consumer name") in
  let* min_idle_ms := min_idle_arg parts in
  let* start_str := text_arg parts 5 (B "ERR invalid start ID") in
  let* start_id :=
    if bool_decide (start_str = B "0") || bool_decide (start_str = B "0-0") then ret (sid 0 0)
    else match sid_from_string start_str with Some i => ret i | None => reply_error (B "ERR Invalid stream ID") end in
  let* (count, justid) := autoclaim_options (length parts) (drop 6 parts) 100 false in
  let* s := get_stream db key (reply (Array (Some [text (B "0-0"); empty_reply]))) in
  let* t1 := system_time in
  let* t2 := system_time in
  let* t3 := system_time in
  let* transfers := system_times in
  match auto_claim_messages t1 t2 t3 transfers s group consumer min_idle_ms start_id (Z.to_nat count) with
  | (s', inr (es, next_start)) =>
      let* _ := share_groups db key s' in
      ret (Array (Some [text (sid_to_string next_start); Array (Some (map (claimed_frame justid) es))]))
  | (_, inl e) => reply_error e
  end.
End group_commands.
