(* ===== verification/CommandSteps.v ===== *)
(** * Commands are steps of the store

    Whatever a client sends, a command handler takes the store through a
    sequence of the steps of EngineSteps.v: the handlers check what those steps
    require (there is an element to push, a member to add).  So every invariant
    of the steps holds after every command. *)

From S2P Require Import Prelude Text Resp SortedSet Value PubSub StreamId Stream Keyspace ListOps StringOps SetOps ZSetOps Scan.
From S2P Require Import KeyspaceProofs EngineSteps Command CommandLogic CollectionCommands StringCommands ZSetCommands StreamCommands GroupCommands.
From stdpp Require Import relations.

Open Scope Z_scope.

Section command_steps.
Context {ZS : Type} `{SortedSet ZS} `{Layout} `{HashIter} `{F64Text} `{Random} `{CaseMap}.
Abbreviation engine := (StorageEngine ZS).
Abbreviation handler := (nat -> list RespFrame -> cmd engine RespFrame).

(** What a command may do to the store. *)
Definition steps : engine -> engine -> Prop := rtc (store_step false).

#[export] Instance steps_refl : Reflexive steps.
Proof. intros e. apply rtc_refl. Qed.
#[export] Instance steps_trans : Transitive steps.
Proof. intros a b c Hab Hbc. by etrans. Qed.

Lemma one_step e e' : store_step false e e' -> steps e e'.
Proof. apply rtc_once. Qed.

Lemma one_key_step db key (e : engine) e' : key_step db key e e' -> steps e e'.
Proof. intros Hk. by eapply one_step, ss_key. Qed.

(** A handler that takes such steps, on any database and any arguments. *)
Definition takes_steps (h : handler) : Prop := forall db parts, keeps steps (h db parts).

Lemma steps_same (e e' : engine) : e' = e -> steps e e'.
Proof. by intros ->. Qed.

Lemma steps_set_string now (e : engine) db key v : steps e (set_string now e db key v).1.
Proof. by eapply one_key_step, ks_set_value. Qed.
Lemma steps_set_string_ex now (e : engine) db key v d : steps e (set_string_ex now e db key v d).1.
Proof. by eapply one_key_step, ks_set_value. Qed.

(** Arguments that were counted are there. *)
Lemma args_nonempty {A} (parts : list RespFrame) n (f : A -> list RespFrame) (l : list A) :
  drop n parts = concat (map f l) -> (n < length parts)%nat -> l <> [].
Proof. intros E Hn ->. apply (f_equal length) in E. rewrite length_drop in E. simpl in E. lia. Qed.

Lemma bulks_nonempty (parts : list RespFrame) n (l : list bytes) :
  drop n parts = map (fun b => BulkString (Some b)) l -> (n < length parts)%nat -> l <> [].
Proof. intros E Hn ->. apply (f_equal length) in E. rewrite length_drop in E. simpl in E. lia. Qed.
End command_steps.

Create HintDb steps.
#[export] Hint Resolve steps_set_string steps_set_string_ex one_key_step : steps.
#[export] Hint Constructors key_step : steps.

Ltac count_args :=
  repeat match goal with
  | Hc : (_ || _)%bool = false |- _ => apply orb_false_iff in Hc as [? ?]
  | Hc : (_ <? _)%nat = false |- _ => apply Nat.ltb_ge in Hc
  end.

Ltac nonempty_args :=
  count_args;
  match goal with
  | E : drop _ _ = map _ ?l |- ?l <> [] => apply (bulks_nonempty _ _ _ E); lia
  | E : drop _ _ = concat (map _ ?l) |- ?l <> [] => apply (args_nonempty _ _ _ _ E); lia
  end.

(** One operation on the engine: a read, or a step on a key. *)
Ltac engine_step :=
  first
    [ apply steps_same; autorewrite with reads; reflexivity
    | autorewrite with reads; solve [eapply one_key_step; econstructor; nonempty_args || done]
    | solve [auto with steps]
    | apply one_step; first [apply ss_rename | apply ss_flush | apply ss_groups] ].

Ltac handler_steps := intros db parts; cmd_steps; engine_step.

Section handlers.
Context {ZS : Type} `{SortedSet ZS} `{Layout} `{HashIter} `{F64Text} `{Random} `{CaseMap}.

Lemma lpush_steps : takes_steps (ZS := ZS) handle_lpush.
Proof. handler_steps. Qed.
Lemma rpush_steps : takes_steps (ZS := ZS) handle_rpush.
Proof. handler_steps. Qed.
Lemma lpop_steps : takes_steps (ZS := ZS) handle_lpop.
Proof. handler_steps. Qed.
Lemma rpop_steps : takes_steps (ZS := ZS) handle_rpop.
Proof. handler_steps. Qed.
Lemma llen_steps : takes_steps (ZS := ZS) handle_llen.
Proof. handler_steps. Qed.
Lemma lrange_steps : takes_steps (ZS := ZS) handle_lrange.
Proof. handler_steps. Qed.
Lemma lindex_steps : takes_steps (ZS := ZS) handle_lindex.
Proof. handler_steps. Qed.
Lemma lset_steps : takes_steps (ZS := ZS) handle_lset.
Proof. handler_steps. Qed.
Lemma ltrim_steps : takes_steps (ZS := ZS) handle_ltrim.
Proof. handler_steps. Qed.
Lemma lrem_steps : takes_steps (ZS := ZS) handle_lrem.
Proof. handler_steps. Qed.
Lemma sadd_steps : takes_steps (ZS := ZS) handle_sadd.
Proof. handler_steps. Qed.
Lemma srem_steps : takes_steps (ZS := ZS) handle_srem.
Proof. handler_steps. Qed.
Lemma smembers_steps : takes_steps (ZS := ZS) handle_smembers.
Proof. handler_steps. Qed.
Lemma sismember_steps : takes_steps (ZS := ZS) handle_sismember.
Proof. handler_steps. Qed.
Lemma scard_steps : takes_steps (ZS := ZS) handle_scard.
Proof. handler_steps. Qed.
Lemma sunion_steps : takes_steps (ZS := ZS) handle_sunion.
Proof. handler_steps. Qed.
Lemma sinter_steps : takes_steps (ZS := ZS) handle_sinter.
Proof. handler_steps. Qed.
Lemma sdiff_steps : takes_steps (ZS := ZS) handle_sdiff.
Proof. handler_steps. Qed.
Lemma srandmember_steps : takes_steps (ZS := ZS) handle_srandmember.
Proof. handler_steps. Qed.
Lemma spop_steps : takes_steps (ZS := ZS) handle_spop.
Proof. handler_steps. Qed.
Lemma hset_steps : takes_steps (ZS := ZS) handle_hset.
Proof. handler_steps. Qed.
Lemma hget_steps : takes_steps (ZS := ZS) handle_hget.
Proof. handler_steps. Qed.
Lemma hmset_steps : takes_steps (ZS := ZS) handle_hmset.
Proof. handler_steps. Qed.
Lemma hmget_steps : takes_steps (ZS := ZS) handle_hmget.
Proof. handler_steps. Qed.
Lemma hgetall_steps : takes_steps (ZS := ZS) handle_hgetall.
Proof. handler_steps. Qed.
Lemma hdel_steps : takes_steps (ZS := ZS) handle_hdel.
Proof. handler_steps. Qed.
Lemma hlen_steps : takes_steps (ZS := ZS) handle_hlen.
Proof. handler_steps. Qed.
Lemma hexists_steps : takes_steps (ZS := ZS) handle_hexists.
Proof. handler_steps. Qed.
Lemma hkeys_steps : takes_steps (ZS := ZS) handle_hkeys.
Proof. handler_steps. Qed.
Lemma hvals_steps : takes_steps (ZS := ZS) handle_hvals.
Proof. handler_steps. Qed.
Lemma hincrby_steps : takes_steps (ZS := ZS) handle_hincrby.
Proof. handler_steps. Qed.
(** The option parsers do not touch the store. *)
Section options.
Context (R : StorageEngine ZS -> StorageEngine ZS -> Prop) `{!Reflexive R} `{!Transitive R}.

Lemma keeps_set_options fuel frames o : runs R (set_options fuel frames o) (fun _ => True).
Proof. revert frames o. induction fuel as [|fuel IH]; intros [|f frames] o; cbn [set_options]; cmd_steps; apply IH. Qed.

Lemma keeps_scan_options fuel x frames o : runs R (scan_options fuel x frames o) (fun _ => True).
Proof. revert frames o. induction fuel as [|fuel IH]; intros [|f frames] o; cbn [scan_options]; cmd_steps; apply IH. Qed.

Lemma keeps_xread_options fuel frames o : runs R (xread_options fuel frames o) (fun _ => True).
Proof. revert frames o. induction fuel as [|fuel IH]; intros [|f frames] o; cbn [xread_options]; cmd_steps; apply IH. Qed.

Lemma keeps_group_read_options fuel frames o : runs R (group_read_options fuel frames o) (fun _ => True).
Proof. revert frames o. induction fuel as [|fuel IH]; intros [|f frames] o; cbn [group_read_options]; cmd_steps; apply IH. Qed.

Lemma keeps_claim_options fuel frames o : runs R (claim_options fuel frames o) (fun _ => True).
Proof. revert frames o. induction fuel as [|fuel IH]; intros [|f frames] o; cbn [claim_options]; cmd_steps; apply IH. Qed.

Lemma keeps_autoclaim_options fuel frames n b : runs R (autoclaim_options fuel frames n b) (fun _ => True).
Proof. revert frames n b. induction fuel as [|fuel IH]; intros [|f frames] n b; cbn [autoclaim_options]; cmd_steps; apply IH. Qed.
End options.

#[local] Hint Resolve keeps_set_options keeps_scan_options keeps_xread_options keeps_group_read_options keeps_claim_options
  keeps_autoclaim_options : cmd.

Lemma pop_members_steps db key rank count results :
  runs (steps (ZS := ZS)) (pop_members db key rank count results) (fun _ => True).
Proof. revert results. induction count as [|n IH]; intros results; cbn [pop_members]; cmd_steps; first [apply IH|engine_step]. Qed.

#[local] Hint Resolve pop_members_steps : cmd.

Lemma ping_steps : takes_steps (ZS := ZS) handle_ping.
Proof. handler_steps. Qed.
Lemma echo_steps : takes_steps (ZS := ZS) handle_echo.
Proof. handler_steps. Qed.
Lemma set_steps : takes_steps (ZS := ZS) handle_set.
Proof. handler_steps. Qed.
Lemma get_steps : takes_steps (ZS := ZS) handle_get.
Proof. handler_steps. Qed.
Lemma incr_steps : takes_steps (ZS := ZS) handle_incr.
Proof. handler_steps. Qed.
Lemma decr_steps : takes_steps (ZS := ZS) handle_decr.
Proof. handler_steps. Qed.
Lemma incrby_steps : takes_steps (ZS := ZS) handle_incrby.
Proof. handler_steps. Qed.
Lemma decrby_steps : takes_steps (ZS := ZS) handle_decrby.
Proof. handler_steps. Qed.
Lemma del_steps : takes_steps (ZS := ZS) handle_del.
Proof. handler_steps. Qed.
Lemma exists_steps : takes_steps (ZS := ZS) handle_exists.
Proof. handler_steps. Qed.
Lemma expire_steps : takes_steps (ZS := ZS) handle_expire.
Proof. handler_steps. Qed.
Lemma ttl_steps : takes_steps (ZS := ZS) handle_ttl.
Proof. handler_steps. Qed.
Lemma flushdb_steps : takes_steps (ZS := ZS) handle_flushdb.
Proof. handler_steps. Qed.
Lemma flushall_steps : takes_steps (ZS := ZS) handle_flushall.
Proof. handler_steps. Qed.
Lemma dbsize_steps : takes_steps (ZS := ZS) handle_dbsize.
Proof. handler_steps. Qed.
Lemma setnx_steps : takes_steps (ZS := ZS) handle_setnx.
Proof. handler_steps. Qed.
Lemma setex_steps : takes_steps (ZS := ZS) handle_setex.
Proof. handler_steps. Qed.
Lemma psetex_steps : takes_steps (ZS := ZS) handle_psetex.
Proof. handler_steps. Qed.
Lemma renamenx_steps : takes_steps (ZS := ZS) handle_renamenx.
Proof. handler_steps. Qed.
Lemma randomkey_steps : takes_steps (ZS := ZS) handle_randomkey.
Proof. handler_steps. Qed.
Lemma sleep_steps : takes_steps (ZS := ZS) handle_sleep.
Proof. handler_steps. Qed.
Lemma mget_steps : takes_steps (ZS := ZS) handle_mget.
Proof. handler_steps. Qed.
Lemma mset_steps : takes_steps (ZS := ZS) handle_mset.
Proof. handler_steps. Qed.
Lemma getset_steps : takes_steps (ZS := ZS) handle_getset.
Proof. handler_steps. Qed.
Lemma append_steps : takes_steps (ZS := ZS) handle_append.
Proof. handler_steps. Qed.
Lemma strlen_steps : takes_steps (ZS := ZS) handle_strlen.
Proof. handler_steps. Qed.
Lemma getrange_steps : takes_steps (ZS := ZS) handle_getrange.
Proof. handler_steps. Qed.
Lemma setrange_steps : takes_steps (ZS := ZS) handle_setrange.
Proof. handler_steps. Qed.
Lemma type_steps : takes_steps (ZS := ZS) handle_type.
Proof. handler_steps. Qed.
Lemma rename_steps : takes_steps (ZS := ZS) handle_rename.
Proof. handler_steps. Qed.
Lemma keys_steps : takes_steps (ZS := ZS) handle_keys.
Proof. handler_steps. Qed.
Lemma pexpire_steps : takes_steps (ZS := ZS) handle_pexpire.
Proof. handler_steps. Qed.
Lemma pttl_steps : takes_steps (ZS := ZS) handle_pttl.
Proof. handler_steps. Qed.
Lemma persist_steps : takes_steps (ZS := ZS) handle_persist.
Proof. handler_steps. Qed.
Lemma zadd_steps : takes_steps (ZS := ZS) handle_zadd.
Proof. handler_steps. Qed.
Lemma zrem_steps : takes_steps (ZS := ZS) handle_zrem.
Proof. handler_steps. Qed.
Lemma zscore_steps : takes_steps (ZS := ZS) handle_zscore.
Proof. handler_steps. Qed.
Lemma zcard_steps : takes_steps (ZS := ZS) handle_zcard.
Proof. handler_steps. Qed.
Lemma zrank_steps : takes_steps (ZS := ZS) handle_zrank.
Proof. handler_steps. Qed.
Lemma zrevrank_steps : takes_steps (ZS := ZS) handle_zrevrank.
Proof. handler_steps. Qed.
Lemma zrange_steps : takes_steps (ZS := ZS) handle_zrange.
Proof. handler_steps. Qed.
Lemma zrevrange_steps : takes_steps (ZS := ZS) handle_zrevrange.
Proof. handler_steps. Qed.
Lemma zrangebyscore_steps : takes_steps (ZS := ZS) handle_zrangebyscore.
Proof. handler_steps. Qed.
Lemma zrevrangebyscore_steps : takes_steps (ZS := ZS) handle_zrevrangebyscore.
Proof. handler_steps. Qed.
Lemma zcount_steps : takes_steps (ZS := ZS) handle_zcount.
Proof. handler_steps. Qed.
Lemma zincrby_steps : takes_steps (ZS := ZS) handle_zincrby.
Proof. handler_steps. Qed.
Lemma zpopmin_steps : takes_steps (ZS := ZS) handle_zpopmin.
Proof. handler_steps. Qed.
Lemma zpopmax_steps : takes_steps (ZS := ZS) handle_zpopmax.
Proof. handler_steps. Qed.
Lemma scan_steps : takes_steps (ZS := ZS) handle_scan.
Proof. handler_steps. Qed.
Lemma hscan_steps : takes_steps (ZS := ZS) handle_hscan.
Proof. handler_steps. Qed.
Lemma sscan_steps : takes_steps (ZS := ZS) handle_sscan.
Proof. handler_steps. Qed.
Lemma zscan_steps : takes_steps (ZS := ZS) handle_zscan.
Proof. handler_steps. Qed.
Lemma xadd_steps : takes_steps (ZS := ZS) handle_xadd.
Proof. handler_steps. Qed.
Lemma xrange_steps : takes_steps (ZS := ZS) handle_xrange.
Proof. handler_steps. Qed.
Lemma xrevrange_steps : takes_steps (ZS := ZS) handle_xrevrange.
Proof. handler_steps. Qed.
Lemma xlen_steps : takes_steps (ZS := ZS) handle_xlen.
Proof. handler_steps. Qed.
Lemma xread_steps : takes_steps (ZS := ZS) handle_xread.
Proof. handler_steps. Qed.
Lemma xtrim_steps : takes_steps (ZS := ZS) handle_xtrim.
Proof. handler_steps. Qed.
Lemma xdel_steps : takes_steps (ZS := ZS) handle_xdel.
Proof. handler_steps. Qed.
Lemma xinfo_steps : takes_steps (ZS := ZS) handle_xinfo.
Proof. handler_steps. Qed.
Lemma xgroup_steps : takes_steps (ZS := ZS) handle_xgroup.
Proof. handler_steps. Qed.
Lemma xreadgroup_steps : takes_steps (ZS := ZS) handle_xreadgroup.
Proof. handler_steps. Qed.
Lemma xack_steps : takes_steps (ZS := ZS) handle_xack.
Proof. handler_steps. Qed.
Lemma xpending_steps : takes_steps (ZS := ZS) handle_xpending.
Proof. handler_steps. Qed.
Lemma xclaim_steps : takes_steps (ZS := ZS) handle_xclaim.
Proof. handler_steps. Qed.
Lemma xautoclaim_steps : takes_steps (ZS := ZS) handle_xautoclaim.
Proof. handler_steps. Qed.
End handlers.

Create HintDb handlers.
#[export] Hint Resolve lpush_steps rpush_steps lpop_steps rpop_steps llen_steps lrange_steps lindex_steps lset_steps
  ltrim_steps lrem_steps sadd_steps srem_steps smembers_steps sismember_steps scard_steps sunion_steps sinter_steps
  sdiff_steps srandmember_steps spop_steps hset_steps hget_steps hmset_steps hmget_steps hgetall_steps hdel_steps
  hlen_steps hexists_steps hkeys_steps hvals_steps hincrby_steps ping_steps echo_steps set_steps get_steps incr_steps
  decr_steps incrby_steps decrby_steps del_steps exists_steps expire_steps ttl_steps flushdb_steps flushall_steps
  dbsize_steps setnx_steps setex_steps psetex_steps renamenx_steps randomkey_steps sleep_steps mget_steps mset_steps
  getset_steps append_steps strlen_steps getrange_steps setrange_steps type_steps rename_steps keys_steps
  pexpire_steps pttl_steps persist_steps zadd_steps zrem_steps zscore_steps zcard_steps zrank_steps zrevrank_steps
  zrange_steps zrevrange_steps zrangebyscore_steps zrevrangebyscore_steps zcount_steps zincrby_steps zpopmin_steps
  zpopmax_steps scan_steps hscan_steps sscan_steps zscan_steps xadd_steps xrange_steps xrevrange_steps xlen_steps
  xread_steps xtrim_steps xdel_steps xinfo_steps xgroup_steps xreadgroup_steps xack_steps xpending_steps xclaim_steps
  xautoclaim_steps : handlers.
