(* ===== verification/CommandParser.v ===== *)
(** * Commands as data, and their parser (the first and the last part of
    src/storage/commands/executor.rs)

    The typed commands that scripts run, and [CommandParser]: from the frames
    of a call to a command or an error.  A Rust [String] is its UTF-8 bytes. *)

From S2P Require Import Prelude Text Resp Command.

Open Scope Z_scope.

(** ** The commands *)

(** [SetOptions]; an expiration is in nanoseconds. *)
Record ExecSetOptions := mkExecSetOptions {
  so_nx : bool;
  so_xx : bool;
  so_get : bool;
  so_expiration : option Z;
  so_keepttl : bool;
}.

Inductive StringCommand :=
  | Set_ (key value : bytes) (options : ExecSetOptions)
  | Get (key : bytes)
  | MGet (keys : list bytes)
  | MSet (pairs : list (bytes * bytes))
  | Incr (key : bytes)
  | IncrBy (key : bytes) (increment : Z)
  | Decr (key : bytes)
  | DecrBy (key : bytes) (decrement : Z)
  | SetNx (key value : bytes)
  | SetEx (key value : bytes) (seconds : Z)
  | PSetEx (key value : bytes) (milliseconds : Z)
  | Append (key value : bytes)
  | StrLen (key : bytes)
  | GetSet (key value : bytes)
  | GetRange (key : bytes) (start end_ : Z)
  | SetRange (key : bytes) (offset : Z) (value : bytes)
  | Del (keys : list bytes).

Inductive ListCommand :=
  | LPush (key : bytes) (values : list bytes)
  | RPush (key : bytes) (values : list bytes)
  | LPop (key : bytes)
  | RPop (key : bytes)
  | LLen (key : bytes)
  | LIndex (key : bytes) (index : Z)
  | LSet (key : bytes) (index : Z) (value : bytes)
  | LRange (key : bytes) (start stop : Z)
  | LTrim (key : bytes) (start stop : Z)
  | LRem (key : bytes) (count : Z) (element : bytes).

Inductive SetCommand :=
  | SAdd (key : bytes) (members : list bytes)
  | SRem (key : bytes) (members : list bytes)
  | SMembers (key : bytes)
  | SCard (key : bytes)
  | SIsMember (key member : bytes)
  | SUnion (keys : list bytes)
  | SInter (keys : list bytes)
  | SDiff (keys : list bytes)
  | SRandMember (key : bytes) (count : option Z)
  | SPop (key : bytes) (count : option Z).

Inductive HashCommand :=
  | HSet (key : bytes) (field_values : list (bytes * bytes))
  | HGet (key field : bytes)
  | HMSet (key : bytes) (field_values : list (bytes * bytes))
  | HMGet (key : bytes) (fields : list bytes)
  | HGetAll (key : bytes)
  | HDel (key : bytes) (fields : list bytes)
  | HLen (key : bytes)
  | HExists (key field : bytes)
  | HKeys (key : bytes)
  | HVals (key : bytes)
  | HIncrBy (key field : bytes) (increment : Z).

Inductive SortedSetCommand :=
  | ZAdd (key : bytes) (score_members : list (f64 * bytes))
  | ZRem (key : bytes) (members : list bytes)
  | ZScore (key member : bytes)
  | ZCard (key : bytes)
  | ZRank (key member : bytes)
  | ZRevRank (key member : bytes)
  | ZRange (key : bytes) (start stop : Z) (with_scores : bool)
  | ZRevRange (key : bytes) (start stop : Z) (with_scores : bool)
  | ZRangeByScore (key : bytes) (min_score max_score : f64) (with_scores : bool)
  | ZCount (key : bytes) (min_score max_score : f64)
  | ZIncrBy (key : bytes) (increment : f64) (member : bytes)
  | ZRevRangeByScore (key : bytes) (max_score min_score : f64) (with_scores : bool)
  | ZPopMin (key : bytes) (count : option Z)
  | ZPopMax (key : bytes) (count : option Z)
  | ZRemRangeByRank (key : bytes) (start stop : Z)
  | ZRemRangeByScore (key : bytes) (min_score max_score : f64)
  | ZRemRangeByLex (key min_lex max_lex : bytes).

Inductive KeyCommand :=
  | Exists_ (keys : list bytes)
  | Expire (key : bytes) (seconds : Z)
  | PExpire (key : bytes) (milliseconds : Z)
  | Ttl (key : bytes)
  | Pttl (key : bytes)
  | Persist (key : bytes)
  | Type_ (key : bytes)
  | Rename (old_key new_key : bytes)
  | RenameNx (old_key new_key : bytes)
  | RandomKey.

Inductive StreamCommand :=
  | XAdd (key : bytes) (id : option bytes) (fields : list (bytes * bytes))
  | XLen (key : bytes)
  | XRange (key start end_ : bytes) (count : option Z)
  | XRevRange (key start end_ : bytes) (count : option Z)
  | XRead (keys_and_ids : list (bytes * bytes)) (count block : option Z)
  | XTrim (key strategy : bytes) (threshold : Z)
  | XDel (key : bytes) (ids : list bytes).

Inductive ScanCommand :=
  | Scan_ (cursor : Z) (pattern : option bytes) (count : option Z) (type_filter : option bytes)
  | HScan (key : bytes) (cursor : Z) (pattern : option bytes) (count : option Z)
  | SScan (key : bytes) (cursor : Z) (pattern : option bytes) (count : option Z)
  | ZScan (key : bytes) (cursor : Z) (pattern : option bytes) (count : option Z).

Inductive DatabaseCommand := FlushDb | FlushAll | DbSize | Keys (pattern : bytes).

Inductive ConsumerGroupCommand :=
  | XGroup (subcommand key group : bytes) (args : list bytes)
  | XReadGroup (group consumer : bytes) (keys_and_ids : list (bytes * bytes)) (count block : option Z) (noack : bool)
  | XAck (key group : bytes) (ids : list bytes)
  | XPending (key group : bytes) (range : option (bytes * bytes * Z)) (consumer : option bytes)
  | XClaim (key group consumer : bytes) (min_idle_time : Z) (ids : list bytes) (force justid : bool)
  | XInfo (subcommand key : bytes) (group : option bytes).

Inductive PersistenceCommand := Save | BgSave | LastSave | BgRewriteAof.

Inductive BitCommand :=
  | GetBit (key : bytes) (offset : Z)
  | SetBit (key : bytes) (offset value : Z)
  | BitCount (key : bytes) (start end_ : option Z).

Inductive ConfigCommand := ConfigGet (parameter : bytes) | ConfigSet (parameter value : bytes).

Inductive ServerCommand := Ping (message : option bytes) | Echo (message : bytes) | Time_ | Info_ (section : option bytes).

Inductive Command :=
  | CmdString (c : StringCommand)
  | CmdList (c : ListCommand)
  | CmdSet (c : SetCommand)
  | CmdHash (c : HashCommand)
  | CmdSortedSet (c : SortedSetCommand)
  | CmdKey (c : KeyCommand)
  | CmdServer (c : ServerCommand)
  | CmdStream (c : StreamCommand)
  | CmdScan (c : ScanCommand)
  | CmdDatabase (c : DatabaseCommand)
  | CmdConsumerGroup (c : ConsumerGroupCommand)
  | CmdPersistence (c : PersistenceCommand)
  | CmdBit (c : BitCommand)
  | CmdConfig (c : ConfigCommand).

Record ParsedCommand := mkParsedCommand { command : Command; db_override : option nat }.

(** ** The parts of a call *)

Section parser.
Context `{F64Text} `{CaseMap}.

Definition wrong_number {A} (name : bytes) : outcome A := Err (ECommand (CWrongNumberOfArguments name)).
Definition syntax {A} (msg : bytes) : outcome A := Err (ECommand (CSyntaxError msg)).

Definition extract_string (f : RespFrame) : outcome bytes :=
  match f with
  | BulkString (Some b) => if utf8_valid b then Ok b else Err (ECommand CInvalidUtf8)
  | _ => Err (ECommand CInvalidArgumentType)
  end.

Definition extract_bytes (f : RespFrame) : outcome bytes :=
  match f with BulkString (Some b) => Ok b | _ => Err (ECommand CInvalidArgumentType) end.

(** [&frames\[i\]], which panics out of range. *)
Definition frame_at (frames : list RespFrame) (i : nat) : outcome RespFrame :=
  match frames !! i with Some f => Ok f | None => Panic end.

Definition bytes_at (frames : list RespFrame) (i : nat) : outcome bytes := let? f := frame_at frames i in extract_bytes f.
Definition string_at (frames : list RespFrame) (i : nat) : outcome bytes := let? f := frame_at frames i in extract_string f.

(** [.parse::<T>().map_err(..)] *)
Definition parsed {A} (parse : bytes -> option A) (e : command_error) (s : bytes) : outcome A :=
  match parse s with Some a => Ok a | None => Err (ECommand e) end.

Definition i64_at (frames : list RespFrame) (i : nat) : outcome Z :=
  let? s := string_at frames i in parsed parse_i64 CInvalidIntegerValue s.
Definition u64_at (frames : list RespFrame) (i : nat) : outcome Z :=
  let? s := string_at frames i in parsed parse_u64 CInvalidIntegerValue s.
Definition f64_at (frames : list RespFrame) (i : nat) : outcome f64 :=
  let? s := string_at frames i in parsed f64_parse CInvalidFloatValue s.

(** [for i in first..frames.len()] *)
Fixpoint each {A} (extract : RespFrame -> outcome A) (frames : list RespFrame) : outcome (list A) :=
  match frames with
  | [] => Ok []
  | f :: frames' => let? a := extract f in let? l := each extract frames' in Ok (a :: l)
  end.

Definition bytes_from (first : nat) (frames : list RespFrame) : outcome (list bytes) := each extract_bytes (drop first frames).
Definition strings_from (first : nat) (frames : list RespFrame) : outcome (list bytes) := each extract_string (drop first frames).

(** [while i < frames.len()] by twos; a missing second frame is an index out of range. *)
Fixpoint pairs {A} (first : RespFrame -> outcome A) (frames : list RespFrame) : outcome (list (A * bytes)) :=
  match frames with
  | [] => Ok []
  | f :: frames' =>
      let? a := first f in
      match frames' with
      | [] => Panic
      | g :: frames'' =>
          let? b := extract_bytes g in
          let? l := pairs first frames'' in Ok ((a, b) :: l)
      end
  end.

Definition extract_f64 (f : RespFrame) : outcome f64 :=
  let? s := extract_string f in parsed f64_parse CInvalidFloatValue s.
Definition extract_u64 (f : RespFrame) : outcome Z :=
  let? s := extract_string f in parsed parse_u64 CInvalidIntegerValue s.

Definition size_is (n : nat) (frames : list RespFrame) : bool := (length frames =? n)%nat.
Definition shorter (n : nat) (frames : list RespFrame) : bool := (length frames <? n)%nat.
Definition longer (n : nat) (frames : list RespFrame) : bool := (n <? length frames)%nat.

Definition with_arity {A} (refused : bool) (name : bytes) (k : outcome A) : outcome A :=
  if refused then wrong_number name else k.

(** Calls of one shape: a key; a key and a value; keys; a key and values. *)
Definition parse_key {C} (name : bytes) (mk : bytes -> C) (frames : list RespFrame) : outcome C :=
  with_arity (negb (size_is 2 frames)) name (let? key := bytes_at frames 1 in Ok (mk key)).

Definition parse_two {C} (name : bytes) (mk : bytes -> bytes -> C) (frames : list RespFrame) : outcome C :=
  with_arity (negb (size_is 3 frames)) name
    (let? key := bytes_at frames 1 in let? v := bytes_at frames 2 in Ok (mk key v)).

Definition parse_keys {C} (name : bytes) (mk : list bytes -> C) (frames : list RespFrame) : outcome C :=
  with_arity (shorter 2 frames) name (let? keys := bytes_from 1 frames in Ok (mk keys)).

Definition parse_key_values {C} (name : bytes) (mk : bytes -> list bytes -> C) (frames : list RespFrame) : outcome C :=
  with_arity (shorter 3 frames) name
    (let? key := bytes_at frames 1 in let? values := bytes_from 2 frames in Ok (mk key values)).

(** A key and a number, read before the key. *)
Definition parse_key_number {C} (at_ : list RespFrame -> nat -> outcome Z) (name : bytes) (mk : bytes -> Z -> C)
    (frames : list RespFrame) : outcome C :=
  with_arity (negb (size_is 3 frames)) name
    (let? n := at_ frames 2%nat in let? key := bytes_at frames 1 in Ok (mk key n)).

(** The same, the key read first. *)
Definition parse_number_of_key {C} (name : bytes) (mk : bytes -> Z -> C) (frames : list RespFrame) : outcome C :=
  with_arity (negb (size_is 3 frames)) name
    (let? key := bytes_at frames 1 in let? n := u64_at frames 2 in Ok (mk key n)).

Definition parse_number_value {C} (at_ : list RespFrame -> nat -> outcome Z) (name : bytes) (mk : bytes -> Z -> bytes -> C)
    (frames : list RespFrame) : outcome C :=
  with_arity (negb (size_is 4 frames)) name
    (let? n := at_ frames 2%nat in let? key := bytes_at frames 1 in let? v := bytes_at frames 3 in Ok (mk key n v)).

Definition parse_two_numbers {A C} (at_ : list RespFrame -> nat -> outcome A) (name : bytes) (mk : bytes -> A -> A -> C)
    (frames : list RespFrame) : outcome C :=
  with_arity (negb (size_is 4 frames)) name
    (let? a := at_ frames 2%nat in let? b := at_ frames 3%nat in let? key := bytes_at frames 1 in Ok (mk key a b)).

(** A key and field-value pairs. *)
Definition parse_field_values {C} (name : bytes) (mk : bytes -> list (bytes * bytes) -> C) (frames : list RespFrame) : outcome C :=
  with_arity (shorter 4 frames || negb (length frames mod 2 =? 0)%nat) name
    (let? key := bytes_at frames 1 in let? fvs := pairs extract_bytes (drop 2 frames) in Ok (mk key fvs)).

(** A key and perhaps a count. *)
Definition parse_key_count {C} (at_ : list RespFrame -> nat -> outcome Z) (name : bytes) (mk : bytes -> option Z -> C)
    (frames : list RespFrame) : outcome C :=
  with_arity (shorter 2 frames || longer 3 frames) name
    (let? count := (if size_is 3 frames then let? n := at_ frames 2%nat in Ok (Some n) else Ok None) in
     let? key := bytes_at frames 1 in Ok (mk key count)).

(** [frames.len() == i + 1 && extract_string(&frames\[i\])?.to_uppercase() == word] *)
Definition word_at (i : nat) (word : bytes) (frames : list RespFrame) : outcome bool :=
  let? s := string_at frames i in Ok (bool_decide (to_uppercase s = word)).

(** A key, two bounds and perhaps WITHSCORES. *)
Definition parse_range {A C} (at_ : list RespFrame -> nat -> outcome A) (name : bytes) (mk : bytes -> A -> A -> bool -> C)
    (frames : list RespFrame) : outcome C :=
  with_arity (shorter 4 frames || longer 5 frames) name
    (let? a := at_ frames 2%nat in let? b := at_ frames 3%nat in
     let? scores := (if size_is 5 frames then word_at 4 (B "WITHSCORES") frames else Ok false) in
     let? key := bytes_at frames 1 in Ok (mk key a b scores)).

(** ** Strings *)

Definition is_opt (s word : bytes) : bool := bool_decide (to_uppercase s = word).

(** An option and the number that must follow it. *)
Definition number_after (missing : bytes) (f : option RespFrame) : outcome Z :=
  match f with Some v => extract_u64 v | None => syntax missing end.

Fixpoint parse_set_options (fuel : nat) (frames : list RespFrame) (o : ExecSetOptions) : outcome ExecSetOptions :=
  match fuel, frames with
  | _, [] => Ok o
  | O, _ => Panic
  | S fuel', f :: rest =>
      let? opt := extract_string f in
      if is_opt opt (B "NX") then parse_set_options fuel' rest (mkExecSetOptions true (so_xx o) (so_get o) (so_expiration o) (so_keepttl o))
      else if is_opt opt (B "XX") then parse_set_options fuel' rest (mkExecSetOptions (so_nx o) true (so_get o) (so_expiration o) (so_keepttl o))
      else if is_opt opt (B "GET") then parse_set_options fuel' rest (mkExecSetOptions (so_nx o) (so_xx o) true (so_expiration o) (so_keepttl o))
      else if is_opt opt (B "EX") then
        let? seconds := number_after (B "Missing EX value") (head rest) in
        parse_set_options fuel' (tail rest) (mkExecSetOptions (so_nx o) (so_xx o) (so_get o) (Some (seconds * 1000000000)) (so_keepttl o))
      else if is_opt opt (B "PX") then
        let? millis := number_after (B "Missing PX value") (head rest) in
        parse_set_options fuel' (tail rest) (mkExecSetOptions (so_nx o) (so_xx o) (so_get o) (Some (millis * 1000000)) (so_keepttl o))
      else if is_opt opt (B "KEEPTTL") then parse_set_options fuel' rest (mkExecSetOptions (so_nx o) (so_xx o) (so_get o) (so_expiration o) true)
      else syntax (B "Unknown SET option")
  end.

Definition set_options_default : ExecSetOptions := mkExecSetOptions false false false None false.

Definition parse_set (frames : list RespFrame) : outcome StringCommand :=
  with_arity (shorter 3 frames) (B "SET")
    (let? key := bytes_at frames 1 in
     let? value := bytes_at frames 2 in
     let? options := parse_set_options (length frames) (drop 3 frames) set_options_default in
     Ok (Set_ key value options)).

Definition parse_get := parse_key (B "GET") Get.
Definition parse_incr := parse_key (B "INCR") Incr.
Definition parse_incrby := parse_key_number i64_at (B "INCRBY") IncrBy.
Definition parse_del := parse_keys (B "DEL") Del.
Definition parse_mget := parse_keys (B "MGET") MGet.

Definition parse_mset (frames : list RespFrame) : outcome StringCommand :=
  with_arity (shorter 3 frames || (length frames mod 2 =? 0)%nat) (B "MSET")
    (let? l := pairs extract_bytes (drop 1 frames) in Ok (MSet l)).

Definition parse_decr := parse_key (B "DECR") Decr.
Definition parse_decrby := parse_key_number i64_at (B "DECRBY") DecrBy.
Definition parse_setnx := parse_two (B "SETNX") SetNx.
Definition parse_setex := parse_number_value u64_at (B "SETEX") (fun key n v => SetEx key v n).
Definition parse_psetex := parse_number_value u64_at (B "PSETEX") (fun key n v => PSetEx key v n).
Definition parse_append := parse_two (B "APPEND") Append.
Definition parse_strlen := parse_key (B "STRLEN") StrLen.
Definition parse_getset := parse_two (B "GETSET") GetSet.
Definition parse_getrange := parse_two_numbers i64_at (B "GETRANGE") GetRange.
Definition parse_setrange := parse_number_value u64_at (B "SETRANGE") SetRange.

(** ** Lists, sets and hashes *)

Definition parse_lpush := parse_key_values (B "LPUSH") LPush.
Definition parse_rpush := parse_key_values (B "RPUSH") RPush.
Definition parse_lpop := parse_key (B "LPOP") LPop.
Definition parse_rpop := parse_key (B "RPOP") RPop.
Definition parse_llen := parse_key (B "LLEN") LLen.
Definition parse_lindex := parse_key_number i64_at (B "LINDEX") LIndex.
Definition parse_lset := parse_number_value i64_at (B "LSET") LSet.
Definition parse_lrange := parse_two_numbers i64_at (B "LRANGE") LRange.
Definition parse_ltrim := parse_two_numbers i64_at (B "LTRIM") LTrim.
Definition parse_lrem := parse_number_value i64_at (B "LREM") LRem.

Definition parse_sadd := parse_key_values (B "SADD") SAdd.
Definition parse_srem := parse_key_values (B "SREM") SRem.
Definition parse_smembers := parse_key (B "SMEMBERS") SMembers.
Definition parse_scard := parse_key (B "SCARD") SCard.
Definition parse_sismember := parse_two (B "SISMEMBER") SIsMember.
Definition parse_sunion := parse_keys (B "SUNION") SUnion.
Definition parse_sinter := parse_keys (B "SINTER") SInter.
Definition parse_sdiff := parse_keys (B "SDIFF") SDiff.
Definition parse_srandmember := parse_key_count i64_at (B "SRANDMEMBER") SRandMember.
Definition parse_spop := parse_key_count u64_at (B "SPOP") SPop.

Definition parse_hset := parse_field_values (B "HSET") HSet.
Definition parse_hget := parse_two (B "HGET") HGet.
Definition parse_hmset := parse_field_values (B "HMSET") HMSet.
Definition parse_hmget := parse_key_values (B "HMGET") HMGet.
Definition parse_hgetall := parse_key (B "HGETALL") HGetAll.
Definition parse_hdel := parse_key_values (B "HDEL") HDel.
Definition parse_hlen := parse_key (B "HLEN") HLen.
Definition parse_hexists := parse_two (B "HEXISTS") HExists.
Definition parse_hkeys := parse_key (B "HKEYS") HKeys.
Definition parse_hvals := parse_key (B "HVALS") HVals.

Definition parse_hincrby (frames : list RespFrame) : outcome HashCommand :=
  with_arity (negb (size_is 4 frames)) (B "HINCRBY")
    (let? increment := i64_at frames 3 in
     let? key := bytes_at frames 1 in
     let? field := bytes_at frames 2 in Ok (HIncrBy key field increment)).

(** ** Sorted sets *)

Definition parse_zadd (frames : list RespFrame) : outcome SortedSetCommand :=
  with_arity (shorter 4 frames || negb (length frames mod 2 =? 0)%nat) (B "ZADD")
    (let? key := bytes_at frames 1 in let? l := pairs extract_f64 (drop 2 frames) in Ok (ZAdd key l)).

Definition parse_zrem := parse_key_values (B "ZREM") ZRem.
Definition parse_zscore := parse_two (B "ZSCORE") ZScore.
Definition parse_zcard := parse_key (B "ZCARD") ZCard.
Definition parse_zrank := parse_two (B "ZRANK") ZRank.
Definition parse_zrevrank := parse_two (B "ZREVRANK") ZRevRank.
Definition parse_zrange := parse_range i64_at (B "ZRANGE") ZRange.
Definition parse_zrevrange := parse_range i64_at (B "ZREVRANGE") ZRevRange.
Definition parse_zrangebyscore := parse_range f64_at (B "ZRANGEBYSCORE") ZRangeByScore.
Definition parse_zcount := parse_two_numbers f64_at (B "ZCOUNT") ZCount.

Definition parse_zincrby (frames : list RespFrame) : outcome SortedSetCommand :=
  with_arity (negb (size_is 4 frames)) (B "ZINCRBY")
    (let? increment := f64_at frames 2 in
     let? key := bytes_at frames 1 in
     let? member := bytes_at frames 3 in Ok (ZIncrBy key increment member)).

Definition parse_zrevrangebyscore := parse_range f64_at (B "ZREVRANGEBYSCORE") ZRevRangeByScore.
Definition parse_zpopmin := parse_key_count u64_at (B "ZPOPMIN") ZPopMin.
Definition parse_zpopmax := parse_key_count u64_at (B "ZPOPMAX") ZPopMax.
Definition parse_zremrangebyrank := parse_two_numbers i64_at (B "ZREMRANGEBYRANK") ZRemRangeByRank.
Definition parse_zremrangebyscore := parse_two_numbers f64_at (B "ZREMRANGEBYSCORE") ZRemRangeByScore.
Definition parse_zremrangebylex := parse_two_numbers string_at (B "ZREMRANGEBYLEX") ZRemRangeByLex.

(** ** Keys and the server *)

Definition parse_exists := parse_keys (B "EXISTS") Exists_.
Definition parse_expire := parse_number_of_key (B "EXPIRE") Expire.
Definition parse_pexpire := parse_number_of_key (B "PEXPIRE") PExpire.
Definition parse_ttl := parse_key (B "TTL") Ttl.
Definition parse_pttl := parse_key (B "PTTL") Pttl.
Definition parse_persist := parse_key (B "PERSIST") Persist.
Definition parse_type := parse_key (B "TYPE") Type_.
Definition parse_rename := parse_two (B "RENAME") Rename.
Definition parse_renamenx := parse_two (B "RENAMENX") RenameNx.

Definition parse_ping (frames : list RespFrame) : outcome ServerCommand :=
  if size_is 2 frames then let? m := bytes_at frames 1 in Ok (Ping (Some m))
  else if size_is 1 frames then Ok (Ping None) else wrong_number (B "PING").

Definition parse_echo := parse_key (B "ECHO") Echo.

Definition parse_info (frames : list RespFrame) : outcome ServerCommand :=
  if size_is 2 frames then let? s := string_at frames 1 in Ok (Info_ (Some s))
  else if size_is 1 frames then Ok (Info_ None) else wrong_number (B "INFO").

(** ** Streams *)

Definition parse_xadd (frames : list RespFrame) : outcome StreamCommand :=
  with_arity (shorter 5 frames || negb (length frames mod 2 =? 1)%nat) (B "XADD")
    (let? key := bytes_at frames 1 in
     let? id_str := string_at frames 2 in
     let? fields := pairs extract_bytes (drop 3 frames) in
     Ok (XAdd key (if bool_decide (id_str = B "*") then None else Some id_str) fields)).

Definition parse_xlen := parse_key (B "XLEN") XLen.

Definition parse_xrange_of (name : bytes) (mk : bytes -> bytes -> bytes -> option Z -> StreamCommand) (frames : list RespFrame)
    : outcome StreamCommand :=
  with_arity (shorter 4 frames) name
    (let? key := bytes_at frames 1 in
     let? start := string_at frames 2 in
     let? end_ := string_at frames 3 in
     let? counted := (if size_is 6 frames then word_at 4 (B "COUNT") frames else Ok false) in
     let? count := (if counted : bool then let? n := u64_at frames 5 in Ok (Some n) else Ok None) in
     Ok (mk key start end_ count)).

Definition parse_xrange := parse_xrange_of (B "XRANGE") XRange.
Definition parse_xrevrange := parse_xrange_of (B "XREVRANGE") XRevRange.

(** The options before the keys of XREAD and XREADGROUP, and the frames after
    them; a word that is no option ends the loop and stays. *)
Record ReadOptions := mkReadOptions { ro_count : option Z; ro_block : option Z; ro_noack : bool }.

Fixpoint parse_read_options (fuel : nat) (noack : bool) (frames : list RespFrame) (o : ReadOptions)
    : outcome (ReadOptions * list RespFrame) :=
  match fuel, frames with
  | _, [] => Ok (o, [])
  | O, _ => Panic
  | S fuel', f :: rest =>
      let? opt := extract_string f in
      if is_opt opt (B "COUNT") then
        let? n := number_after (B "Missing COUNT value") (head rest) in
        parse_read_options fuel' noack (tail rest) (mkReadOptions (Some n) (ro_block o) (ro_noack o))
      else if is_opt opt (B "BLOCK") then
        let? n := number_after (B "Missing BLOCK value") (head rest) in
        parse_read_options fuel' noack (tail rest) (mkReadOptions (ro_count o) (Some n) (ro_noack o))
      else if noack && is_opt opt (B "NOACK") then
        parse_read_options fuel' noack rest (mkReadOptions (ro_count o) (ro_block o) true)
      else if is_opt opt (B "STREAMS") then Ok (o, rest)
      else Ok (o, frames)
  end.

Definition read_options_default : ReadOptions := mkReadOptions None None false.

(** [for j in 0..num_streams]: the keys are the first half, the ids the second. *)
Fixpoint keys_with_ids (keys ids : list RespFrame) : outcome (list (bytes * bytes)) :=
  match keys, ids with
  | [], _ => Ok []
  | _ :: _, [] => Panic
  | k :: keys', i :: ids' =>
      let? key := extract_bytes k in
      let? id := extract_string i in
      let? l := keys_with_ids keys' ids' in Ok ((key, id) :: l)
  end.

Definition parse_streams (frames : list RespFrame) : outcome (list (bytes * bytes)) :=
  if negb (length frames mod 2 =? 0)%nat then syntax (B "Uneven number of keys and stream IDs")
  else let n := (length frames / 2)%nat in keys_with_ids (take n frames) (drop n frames).

Definition parse_xread (frames : list RespFrame) : outcome StreamCommand :=
  with_arity (shorter 4 frames) (B "XREAD")
    (let? x := parse_read_options (length frames) false (drop 1 frames) read_options_default in
     let? l := parse_streams x.2 in Ok (XRead l (ro_count x.1) (ro_block x.1))).

Definition parse_xtrim (frames : list RespFrame) : outcome StreamCommand :=
  with_arity (shorter 4 frames) (B "XTRIM")
    (let? key := bytes_at frames 1 in
     let? strategy := string_at frames 2 in
     let? threshold := u64_at frames 3 in Ok (XTrim key strategy threshold)).

Definition parse_xdel (frames : list RespFrame) : outcome StreamCommand :=
  with_arity (shorter 3 frames) (B "XDEL")
    (let? key := bytes_at frames 1 in let? ids := strings_from 2 frames in Ok (XDel key ids)).

(** ** SCAN *)

Record ParsedScan := mkParsedScan { ps_pattern : option bytes; ps_count : option Z; ps_type : option bytes }.

(** The loop over the options; an unknown word ends it, and what follows is ignored. *)
Fixpoint parse_scan_options (fuel : nat) (typed : bool) (frames : list RespFrame) (o : ParsedScan) : outcome ParsedScan :=
  match fuel, frames with
  | _, [] => Ok o
  | O, _ => Panic
  | S fuel', f :: rest =>
      let? opt := extract_string f in
      if is_opt opt (B "MATCH") then
        match rest with
        | [] => syntax (B "Missing MATCH pattern")
        | v :: rest' => let? p := extract_bytes v in parse_scan_options fuel' typed rest' (mkParsedScan (Some p) (ps_count o) (ps_type o))
        end
      else if is_opt opt (B "COUNT") then
        let? n := number_after (B "Missing COUNT value") (head rest) in
        parse_scan_options fuel' typed (tail rest) (mkParsedScan (ps_pattern o) (Some n) (ps_type o))
      else if typed && is_opt opt (B "TYPE") then
        match rest with
        | [] => syntax (B "Missing TYPE value")
        | v :: rest' => let? t := extract_string v in parse_scan_options fuel' typed rest' (mkParsedScan (ps_pattern o) (ps_count o) (Some t))
        end
      else Ok o
  end.

Definition parsed_scan_default : ParsedScan := mkParsedScan None None None.

Definition parse_scan_cmd (frames : list RespFrame) : outcome ScanCommand :=
  with_arity (shorter 2 frames) (B "SCAN")
    (let? cursor := u64_at frames 1 in
     let? o := parse_scan_options (length frames) true (drop 2 frames) parsed_scan_default in
     Ok (Scan_ cursor (ps_pattern o) (ps_count o) (ps_type o))).

Definition parse_key_scan (name : bytes) (mk : bytes -> Z -> option bytes -> option Z -> ScanCommand) (frames : list RespFrame)
    : outcome ScanCommand :=
  with_arity (shorter 3 frames) name
    (let? key := bytes_at frames 1 in
     let? cursor := u64_at frames 2 in
     let? o := parse_scan_options (length frames) false (drop 3 frames) parsed_scan_default in
     Ok (mk key cursor (ps_pattern o) (ps_count o))).

Definition parse_hscan_cmd := parse_key_scan (B "HSCAN") HScan.
Definition parse_sscan_cmd := parse_key_scan (B "SSCAN") SScan.
Definition parse_zscan_cmd := parse_key_scan (B "ZSCAN") ZScan.

Definition parse_keys_cmd := parse_key (B "KEYS") Keys.

(** ** Consumer groups *)

Definition parse_xgroup (frames : list RespFrame) : outcome ConsumerGroupCommand :=
  with_arity (shorter 4 frames) (B "XGROUP")
    (let? subcommand := string_at frames 1 in
     let? key := bytes_at frames 2 in
     let? group := string_at frames 3 in
     let? args := strings_from 4 frames in Ok (XGroup subcommand key group args)).

Definition parse_xreadgroup (frames : list RespFrame) : outcome ConsumerGroupCommand :=
  with_arity (shorter 6 frames) (B "XREADGROUP")
    (let? is_group := word_at 1 (B "GROUP") frames in
     if negb is_group then syntax (B "Expected GROUP keyword")
     else
       let? group := string_at frames 2 in
       let? consumer := string_at frames 3 in
       let? x := parse_read_options (length frames) true (drop 4 frames) read_options_default in
       let? l := parse_streams x.2 in
       Ok (XReadGroup group consumer l (ro_count x.1) (ro_block x.1) (ro_noack x.1))).

Definition parse_xack (frames : list RespFrame) : outcome ConsumerGroupCommand :=
  with_arity (shorter 4 frames) (B "XACK")
    (let? key := bytes_at frames 1 in
     let? group := string_at frames 2 in
     let? ids := strings_from 3 frames in Ok (XAck key group ids)).

Definition parse_xpending (frames : list RespFrame) : outcome ConsumerGroupCommand :=
  with_arity (shorter 3 frames) (B "XPENDING")
    (let? key := bytes_at frames 1 in
     let? group := string_at frames 2 in
     let? range := (if longer 5 frames then
                      let? start := string_at frames 3 in
                      let? end_ := string_at frames 4 in
                      let? count := u64_at frames 5 in Ok (Some (start, end_, count))
                    else Ok None) in
     let? consumer := (if longer 6 frames then let? c := string_at frames 6 in Ok (Some c) else Ok None) in
     Ok (XPending key group range consumer)).

(** The words FORCE and JUSTID may stand among the ids. *)
Fixpoint claim_args (frames : list RespFrame) : outcome (list bytes * bool * bool) :=
  match frames with
  | [] => Ok ([], false, false)
  | f :: frames' =>
      let? arg := extract_string f in
      let? x := claim_args frames' in
      let '(ids, force, justid) := x in
      Ok (if is_opt arg (B "FORCE") then (ids, true, justid)
          else if is_opt arg (B "JUSTID") then (ids, force, true)
          else (arg :: ids, force, justid))
  end.

Definition parse_xclaim (frames : list RespFrame) : outcome ConsumerGroupCommand :=
  with_arity (shorter 6 frames) (B "XCLAIM")
    (let? key := bytes_at frames 1 in
     let? group := string_at frames 2 in
     let? consumer := string_at frames 3 in
     let? min_idle_time := u64_at frames 4 in
     let? x := claim_args (drop 5 frames) in
     let '(ids, force, justid) := x in
     Ok (XClaim key group consumer min_idle_time ids force justid)).

Definition parse_xinfo (frames : list RespFrame) : outcome ConsumerGroupCommand :=
  with_arity (shorter 3 frames) (B "XINFO")
    (let? subcommand := string_at frames 1 in
     let? key := bytes_at frames 2 in
     let? group := (if longer 3 frames then let? g := string_at frames 3 in Ok (Some g) else Ok None) in
     Ok (XInfo subcommand key group)).

(** ** Bits and the configuration *)

Definition parse_getbit := parse_number_of_key (B "GETBIT") GetBit.

Definition parse_setbit (frames : list RespFrame) : outcome BitCommand :=
  with_arity (negb (size_is 4 frames)) (B "SETBIT")
    (let? key := bytes_at frames 1 in
     let? offset := u64_at frames 2 in
     let? s := string_at frames 3 in
     if bool_decide (s = B "0") then Ok (SetBit key offset 0)
     else if bool_decide (s = B "1") then Ok (SetBit key offset 1)
     else Err (ECommand (CInvalidArgument (B "bit value must be 0 or 1")))).

Definition parse_bitcount (frames : list RespFrame) : outcome BitCommand :=
  with_arity (shorter 2 frames || longer 4 frames) (B "BITCOUNT")
    (let? key := bytes_at frames 1 in
     if size_is 4 frames then
       let? start := i64_at frames 2 in
       let? end_ := i64_at frames 3 in Ok (BitCount key (Some start) (Some end_))
     else Ok (BitCount key None None)).

Definition parse_config (frames : list RespFrame) : outcome ConfigCommand :=
  with_arity (shorter 3 frames) (B "CONFIG")
    (let? s := string_at frames 1 in
     let subcommand := to_uppercase s in
     if bool_decide (subcommand = B "GET") then
       with_arity (negb (size_is 3 frames)) (B "CONFIG GET") (let? p := string_at frames 2 in Ok (ConfigGet p))
     else if bool_decide (subcommand = B "SET") then
       with_arity (negb (size_is 4 frames)) (B "CONFIG SET")
         (let? p := string_at frames 2 in let? v := string_at frames 3 in Ok (ConfigSet p v))
     else syntax (B "Unknown CONFIG subcommand: " ++ subcommand)).

(** ** The parser *)

Definition via {C} (mk : C -> Command) (parse : list RespFrame -> outcome C) : list RespFrame -> outcome Command :=
  fun frames => let? c := parse frames in Ok (mk c).

Definition fixed (c : Command) : list RespFrame -> outcome Command := fun _ => Ok c.

(** [match cmd_name.as_str()] *)
Definition parsers : list (bytes * (list RespFrame -> outcome Command)) :=
  [(B "SET", via CmdString parse_set);
   (B "GET", via CmdString parse_get);
   (B "MGET", via CmdString parse_mget);
   (B "MSET", via CmdString parse_mset);
   (B "INCR", via CmdString parse_incr);
   (B "INCRBY", via CmdString parse_incrby);
   (B "DECR", via CmdString parse_decr);
   (B "DECRBY", via CmdString parse_decrby);
   (B "SETNX", via CmdString parse_setnx);
   (B "SETEX", via CmdString parse_setex);
   (B "PSETEX", via CmdString parse_psetex);
   (B "APPEND", via CmdString parse_append);
   (B "STRLEN", via CmdString parse_strlen);
   (B "GETSET", via CmdString parse_getset);
   (B "GETRANGE", via CmdString parse_getrange);
   (B "SETRANGE", via CmdString parse_setrange);
   (B "DEL", via CmdString parse_del);
   (B "LPUSH", via CmdList parse_lpush);
   (B "RPUSH", via CmdList parse_rpush);
   (B "LPOP", via CmdList parse_lpop);
   (B "RPOP", via CmdList parse_rpop);
   (B "LLEN", via CmdList parse_llen);
   (B "LINDEX", via CmdList parse_lindex);
   (B "LSET", via CmdList parse_lset);
   (B "LRANGE", via CmdList parse_lrange);
   (B "LTRIM", via CmdList parse_ltrim);
   (B "LREM", via CmdList parse_lrem);
   (B "SADD", via CmdSet parse_sadd);
   (B "SREM", via CmdSet parse_srem);
   (B "SMEMBERS", via CmdSet parse_smembers);
   (B "SCARD", via CmdSet parse_scard);
   (B "SISMEMBER", via CmdSet parse_sismember);
   (B "SUNION", via CmdSet parse_sunion);
   (B "SINTER", via CmdSet parse_sinter);
   (B "SDIFF", via CmdSet parse_sdiff);
   (B "SRANDMEMBER", via CmdSet parse_srandmember);
   (B "SPOP", via CmdSet parse_spop);
   (B "HSET", via CmdHash parse_hset);
   (B "HGET", via CmdHash parse_hget);
   (B "HMSET", via CmdHash parse_hmset);
   (B "HMGET", via CmdHash parse_hmget);
   (B "HGETALL", via CmdHash parse_hgetall);
   (B "HDEL", via CmdHash parse_hdel);
   (B "HLEN", via CmdHash parse_hlen);
   (B "HEXISTS", via CmdHash parse_hexists);
   (B "HKEYS", via CmdHash parse_hkeys);
   (B "HVALS", via CmdHash parse_hvals);
   (B "HINCRBY", via CmdHash parse_hincrby);
   (B "ZADD", via CmdSortedSet parse_zadd);
   (B "ZREM", via CmdSortedSet parse_zrem);
   (B "ZSCORE", via CmdSortedSet parse_zscore);
   (B "ZCARD", via CmdSortedSet parse_zcard);
   (B "ZRANK", via CmdSortedSet parse_zrank);
   (B "ZREVRANK", via CmdSortedSet parse_zrevrank);
   (B "ZRANGE", via CmdSortedSet parse_zrange);
   (B "ZREVRANGE", via CmdSortedSet parse_zrevrange);
   (B "ZRANGEBYSCORE", via CmdSortedSet parse_zrangebyscore);
   (B "ZCOUNT", via CmdSortedSet parse_zcount);
   (B "ZINCRBY", via CmdSortedSet parse_zincrby);
   (B "ZREVRANGEBYSCORE", via CmdSortedSet parse_zrevrangebyscore);
   (B "ZPOPMIN", via CmdSortedSet parse_zpopmin);
   (B "ZPOPMAX", via CmdSortedSet parse_zpopmax);
   (B "ZREMRANGEBYRANK", via CmdSortedSet parse_zremrangebyrank);
   (B "ZREMRANGEBYSCORE", via CmdSortedSet parse_zremrangebyscore);
   (B "ZREMRANGEBYLEX", via CmdSortedSet parse_zremrangebylex);
   (B "EXISTS", via CmdKey parse_exists);
   (B "EXPIRE", via CmdKey parse_expire);
   (B "PEXPIRE", via CmdKey parse_pexpire);
   (B "TTL", via CmdKey parse_ttl);
   (B "PTTL", via CmdKey parse_pttl);
   (B "PERSIST", via CmdKey parse_persist);
   (B "TYPE", via CmdKey parse_type);
   (B "RENAME", via CmdKey parse_rename);
   (B "RENAMENX", via CmdKey parse_renamenx);
   (B "RANDOMKEY", fixed (CmdKey RandomKey));
   (B "PING", via CmdServer parse_ping);
   (B "ECHO", via CmdServer parse_echo);
   (B "TIME", fixed (CmdServer Time_));
   (B "INFO", via CmdServer parse_info);
   (B "XADD", via CmdStream parse_xadd);
   (B "XLEN", via CmdStream parse_xlen);
   (B "XRANGE", via CmdStream parse_xrange);
   (B "XREVRANGE", via CmdStream parse_xrevrange);
   (B "XREAD", via CmdStream parse_xread);
   (B "XTRIM", via CmdStream parse_xtrim);
   (B "XDEL", via CmdStream parse_xdel);
   (B "SCAN", via CmdScan parse_scan_cmd);
   (B "HSCAN", via CmdScan parse_hscan_cmd);
   (B "SSCAN", via CmdScan parse_sscan_cmd);
   (B "ZSCAN", via CmdScan parse_zscan_cmd);
   (B "FLUSHDB", fixed (CmdDatabase FlushDb));
   (B "FLUSHALL", fixed (CmdDatabase FlushAll));
   (B "DBSIZE", fixed (CmdDatabase DbSize));
   (B "KEYS", via CmdDatabase parse_keys_cmd);
   (B "XGROUP", via CmdConsumerGroup parse_xgroup);
   (B "XREADGROUP", via CmdConsumerGroup parse_xreadgroup);
   (B "XACK", via CmdConsumerGroup parse_xack);
   (B "XPENDING", via CmdConsumerGroup parse_xpending);
   (B "XCLAIM", via CmdConsumerGroup parse_xclaim);
   (B "XINFO", via CmdConsumerGroup parse_xinfo);
   (B "SAVE", fixed (CmdPersistence Save));
   (B "BGSAVE", fixed (CmdPersistence BgSave));
   (B "LASTSAVE", fixed (CmdPersistence LastSave));
   (B "BGREWRITEAOF", fixed (CmdPersistence BgRewriteAof));
   (B "GETBIT", via CmdBit parse_getbit);
   (B "SETBIT", via CmdBit parse_setbit);
   (B "BITCOUNT", via CmdBit parse_bitcount);
   (B "CONFIG", via CmdConfig parse_config)].

Definition find_parser (name : bytes) : option (list RespFrame -> outcome Command) :=
  option_map snd (List.find (fun p => bool_decide (p.1 = name)) parsers).

(** [CommandParser::parse] *)
Definition parse (frames : list RespFrame) : outcome ParsedCommand :=
  match frames with
  | [] => Err (ECommand CEmptyCommand)
  | f :: _ =>
      let? s := extract_string f in
      let cmd_name := to_uppercase s in
      match find_parser cmd_name with
      | Some p => let? c := p frames in Ok (mkParsedCommand c None)
      | None => Err (ECommand (CUnknownCommand cmd_name))
      end
  end.
End parser.
