(* ===== verification/Executor.v ===== *)
(** * The command executor of scripts (src/storage/commands/executor.rs)

    [UnifiedCommandExecutor]: what each parsed command does to the store and
    answers, and the adapters through which scripts and the server call it.
    Errors are returned to the caller as they are. *)

From S2P Require Import Prelude Text Resp SortedSet Value PubSub StreamId Keyspace StringOps ListOps SetOps ZSetOps Scan Command.
From S2P Require Import CollectionCommands StringCommands ZSetCommands StreamCommands GroupCommands CommandParser.

Open Scope Z_scope.

Record ConnectionContext := mkContext {
  ctx_conn_id : Z;
  ctx_db_index : nat;
  ctx_is_replica : bool;
  ctx_is_transaction : bool;
}.

(** [UnifiedCommandExecutor] without the store, which is the state. *)
Record UnifiedCommandExecutor := mkExecutor { conn_context : option ConnectionContext }.

Definition executor_new : UnifiedCommandExecutor := mkExecutor None.
Definition with_context (ctx : ConnectionContext) (x : UnifiedCommandExecutor) : UnifiedCommandExecutor := mkExecutor (Some ctx).

Section executor.
Context {ZS : Type} `{SortedSet ZS} `{Layout} `{HashIter} `{Random} `{F64Text} `{CaseMap}.

Abbreviation engine := (StorageEngine ZS).
Abbreviation exec := (cmd engine RespFrame).

(** [let r = self.storage.op(..)?; Ok(k(r))] *)
Definition answered {A} (op : engine -> engine * outcome A) (k : A -> RespFrame) : exec := let* a := try_op op in ret (k a).

(** The same for an operation that reads the clock. *)
Definition answered_now {A} (op : Z -> engine -> engine * outcome A) (k : A -> RespFrame) : exec :=
  let* t := now in answered (op t) k.

Definition seconds (n : Z) : Z := n * 1000000000.
Definition millis (n : Z) : Z := n * 1000000.

(** ** Strings *)

(** The operation a SET ends in; the answer is whether it took place. *)
Definition set_by_options (db : nat) (key v : bytes) (o : ExecSetOptions) : cmd engine bool :=
  if so_nx o then
    let* t := now in
    match so_expiration o with
    | Some d => let* t1 := now in let* t2 := now in try_op (fun e => set_string_nx_ex t t1 t2 e db key v d)
    | None => try_op (fun e => set_string_nx t e db key v)
    end
  else if so_xx o then
    let* t := now in
    let* present := try_op (fun e => key_exists t e db key) in
    if negb present then ret false else let* _ := set_plain db key v (so_expiration o) in ret true
  else let* _ := set_plain db key v (so_expiration o) in ret true.

Definition execute_set_command (db : nat) (key v : bytes) (o : ExecSetOptions) : exec :=
  if so_nx o && so_xx o then ret (error (B "ERR NX and XX options are mutually exclusive"))
  else
    let* old_value := if so_get o then let* t := now in try_op (fun e => get_string t e db key) else ret None in
    let* success := set_by_options db key v o in
    ret (if so_get o then bulk_reply old_value
         else if so_nx o && negb success then null_bulk
         else if so_xx o && negb success then null_bulk
         else ok).

(** [for key in keys { if op(key)? { n += 1 } }] *)
Definition count_true {X} (l : list X) (op : X -> cmd engine bool) : exec :=
  let* n := for_each l (fun x n => let* b := op x in ret (if b then n + 1 else n)) 0 in ret (Integer n).

(** The frames of a call that is passed on to a handler. *)
Definition call (name : bytes) (args : list RespFrame) : list RespFrame := from_string name :: args.

Definition execute_string (db : nat) (c : StringCommand) : exec :=
  match c with
  | Set_ key v o => execute_set_command db key v o
  | Get key => answered_now (fun t e => get_string t e db key) bulk_reply
  | MGet keys => handle_mget db (call (B "MGET") (map from_bytes keys))
  | MSet l => handle_mset db (call (B "MSET") (concat (map (fun p => [from_bytes p.1; from_bytes p.2]) l)))
  | Incr key => answered_now (fun t e => incr t e db key) Integer
  | IncrBy key n => answered_now (fun t e => incr_by t e db key n) Integer
  | Decr key => answered_now (fun t e => incr_by t e db key (-1)) Integer
  | DecrBy key n => answered_now (fun t e => incr_by t e db key (i64_wrap (- n))) Integer
  | SetNx key v => answered_now (fun t e => set_string_nx t e db key v) flag_reply
  | SetEx key v n => answered_now (fun t e => set_string_ex t e db key v (seconds n)) (fun _ => ok)
  | PSetEx key v n => answered_now (fun t e => set_string_ex t e db key v (millis n)) (fun _ => ok)
  | Append key v => answered_now (fun t e => append t e db key v) int_reply
  | StrLen key => answered (fun e => strlen e db key) int_reply
  | GetSet key v => handle_getset db (call (B "GETSET") [from_bytes key; from_bytes v])
  | GetRange key start end_ => answered (fun e => getrange e db key start end_) from_bytes
  | SetRange key offset v => answered_now (fun t e => setrange t e db key offset v) int_reply
  | Del keys => count_true keys (fun key => try_op (fun e => delete_key e db key))
  end.

(** ** Lists, sets and hashes *)

Definition execute_list (db : nat) (c : ListCommand) : exec :=
  match c with
  | LPush key values => answered_now (fun t e => lpush t e db key values) int_reply
  | RPush key values => answered_now (fun t e => rpush t e db key values) int_reply
  | LPop key => answered (fun e => lpop e db key) bulk_reply
  | RPop key => answered (fun e => rpop e db key) bulk_reply
  | LLen key => answered (fun e => llen e db key) int_reply
  | LIndex key index => answered (fun e => lindex e db key index) bulk_reply
  | LSet key index v => answered (fun e => lset e db key index v) (fun _ => ok)
  | LRange key start stop => answered (fun e => lrange e db key start stop) bulks_reply
  | LTrim key start stop => answered (fun e => ltrim e db key start stop) (fun _ => ok)
  | LRem key count element => answered (fun e => lrem e db key count element) int_reply
  end.

(** One member alone, unless the count asks for more. *)
Definition members_or_one (count : Z) (members : list bytes) : RespFrame :=
  match members with
  | m :: _ => if count =? 1 then from_bytes m else bulks_reply members
  | [] => bulks_reply members
  end.

Definition execute_set (db : nat) (c : SetCommand) : exec :=
  match c with
  | SAdd key members => answered_now (fun t e => sadd t e db key members) int_reply
  | SRem key members => answered (fun e => srem e db key members) int_reply
  | SMembers key => answered (fun e => smembers e db key) bulks_reply
  | SCard key => answered (fun e => scard e db key) int_reply
  | SIsMember key member => answered (fun e => sismember e db key member) flag_reply
  | SUnion keys => answered (reads (fun e => sunion e db keys)) bulks_reply
  | SInter keys => answered (reads (fun e => sinter e db keys)) bulks_reply
  | SDiff keys => answered (reads (fun e => sdiff e db keys)) bulks_reply
  | SRandMember key count =>
      let n := default 1 count in
      let* r := draw in
      answered (fun e => srandmember (shuffle r) (fun i => choose r i) e db key n) (members_or_one n)
  | SPop key count =>
      let n := default 1 count in
      let* r := draw in
      answered (fun e => spop (shuffle r) e db key (Z.to_nat n)) (members_or_one n)
  end.

Definition execute_hash (db : nat) (c : HashCommand) : exec :=
  match c with
  | HSet key fvs => answered_now (fun t e => hset t e db key fvs) int_reply
  | HGet key field => answered (fun e => hget e db key field) bulk_reply
  | HMSet key fvs => answered_now (fun t e => hset t e db key fvs) (fun _ => ok)
  | HMGet key fields => answered (fun e => hmget e db key fields) (fun values => Array (Some (map bulk_reply values)))
  | HGetAll key => answered (fun e => hgetall e db key) pairs_reply
  | HDel key fields => answered (fun e => hdel e db key fields) int_reply
  | HLen key => answered (fun e => hlen e db key) int_reply
  | HExists key field => answered (fun e => hexists e db key field) flag_reply
  | HKeys key => answered (fun e => hkeys e db key) bulks_reply
  | HVals key => answered (fun e => hvals e db key) bulks_reply
  | HIncrBy key field n => answered_now (fun t e => hincrby t e db key field n) Integer
  end.

(** ** Sorted sets *)

Definition rank_reply (r : option Z) : RespFrame := match r with Some n => int_reply n | None => null_bulk end.

(** The loop of ZPOPMIN and ZPOPMAX; a member that is gone ends it. *)
Fixpoint pop_while_removed (db : nat) (key : bytes) (rank : Z) (count : nat) (popped : list RespFrame) : cmd engine (list RespFrame) :=
  match count with
  | O => ret popped
  | S count' =>
      let* members := try_op (fun e => zrange e db key rank rank false) in
      match members with
      | [] => ret popped
      | (member, score) :: _ =>
          let* removed := try_op (fun e => zrem e db key member) in
          if removed then
            pop_while_removed db key rank count' (popped ++ [from_bytes member; from_string (f64_display score)])
          else ret popped
      end
  end.

Definition popped_reply (db : nat) (key : bytes) (rank : Z) (count : option Z) : exec :=
  let* popped := pop_while_removed db key rank (Z.to_nat (default 1 count)) [] in ret (Array (Some popped)).

Definition remove_each (db : nat) (key : bytes) (members : list (bytes * f64)) : exec :=
  count_true members (fun m => try_op (fun e => zrem e db key m.1)).

Definition execute_sorted_set (db : nat) (c : SortedSetCommand) : exec :=
  match c with
  | ZAdd key score_members =>
      count_true score_members (fun sm =>
        let* r := draw in let* t := now in try_op (fun e => zadd (random_level r) t e db key sm.2 sm.1))
  | ZRem key members => count_true members (fun m => try_op (fun e => zrem e db key m))
  | ZScore key member => answered (fun e => zscore e db key member) (fun s => bulk_reply (option_map f64_display s))
  | ZCard key => answered (fun e => zcard e db key) int_reply
  | ZRank key member => answered (fun e => zrank e db key member false) rank_reply
  | ZRevRank key member => answered (fun e => zrank e db key member true) rank_reply
  | ZRange key start stop ws => answered (fun e => zrange e db key start stop false) (members_reply ws)
  | ZRevRange key start stop ws => answered (fun e => zrange e db key start stop true) (members_reply ws)
  | ZRangeByScore key lo hi ws => answered (fun e => zrangebyscore e db key lo hi false) (members_reply ws)
  | ZCount key lo hi => answered (fun e => zcount e db key lo hi) int_reply
  | ZIncrBy key n member =>
      let* r := draw in
      answered_now (fun t e => zincrby (random_level r) t e db key member n) (fun s => from_string (f64_display s))
  | ZRevRangeByScore key hi lo ws => answered (fun e => zrangebyscore e db key lo hi true) (members_reply ws)
  | ZPopMin key count => popped_reply db key 0 count
  | ZPopMax key count => popped_reply db key (-1) count
  | ZRemRangeByRank key start stop =>
      let* members := try_op (fun e => zrange e db key start stop false) in remove_each db key members
  | ZRemRangeByScore key lo hi =>
      let* members := try_op (fun e => zrangebyscore e db key lo hi false) in remove_each db key members
  | ZRemRangeByLex _ _ _ => ret (Integer 0)
  end.

(** ** Keys *)

(** Whole seconds, and 1 for less than a second. *)
Definition exec_ttl_seconds (d : Z) : Z :=
  let secs := i64_wrap (d / 1000000000) in
  if (secs =? 0) && (0 <? (d mod 1000000000) / 1000000) then 1 else secs.

Definition execute_key (db : nat) (c : KeyCommand) : exec :=
  match c with
  | Exists_ keys => count_true keys (fun key => let* t := now in try_op (fun e => key_exists t e db key))
  | Expire key n => let* t1 := now in let* t2 := now in answered (fun e => expire t1 t2 e db key (seconds n)) flag_reply
  | PExpire key n => let* t1 := now in let* t2 := now in answered (fun e => pexpire t1 t2 e db key n) flag_reply
  | Ttl key =>
      let* t := now in
      let* d := try_op (fun e => ttl t e db key) in
      match d with
      | Some d => ret (Integer (exec_ttl_seconds d))
      | None => answered_now (fun t' e => key_exists t' e db key) (fun b => Integer (if b : bool then -1 else -2))
      end
  | Pttl key => let* t1 := now in let* t2 := now in answered (fun e => pttl t1 t2 e db key) Integer
  | Persist key => answered (fun e => persist e db key) flag_reply
  | Type_ key => answered (fun e => key_type e db key) from_string
  | Rename old_key new_key => answered (fun e => rename e db old_key new_key) (fun _ => ok)
  | RenameNx old_key new_key => handle_rename db (call (B "RENAMENX") [from_bytes old_key; from_bytes new_key])
  | RandomKey =>
      let* keys := try_op (reads (fun e => get_all_keys e db)) in
      match keys with
      | [] => ret null_bulk
      | _ =>
          let* r := draw in
          match keys !! Z.to_nat (u64_wrap r mod Z.of_nat (length keys)) with
          | Some k => ret (from_bytes k)
          | None => crash
          end
      end
  end.

(** ** The server *)

Definition server_text : bytes := B "# Server" ++ [Byte.x0a] ++ B "redis_version:7.0.0" ++ [Byte.x0a].

Definition execute_server (c : ServerCommand) : exec :=
  match c with
  | Ping (Some m) => ret (from_bytes m)
  | Ping None => ret (from_string (B "PONG"))
  | Echo m => ret (from_bytes m)
  | Time_ =>
      let* t := system_time in
      ret (Array (Some [from_string (show_u64 (t / 1000000000)); from_string (show_u64 (t mod 1000000000 / 1000))]))
  | Info_ _ => ret (from_string server_text)
  end.

(** ** Streams, through their handlers *)

Definition count_frames (count : option Z) : list RespFrame :=
  match count with Some n => [from_string (B "COUNT"); from_string (show_u64 n)] | None => [] end.

Definition field_frames (fields : list (bytes * bytes)) : list RespFrame :=
  concat (map (fun fv => [from_bytes fv.1; from_bytes fv.2]) fields).

Definition execute_stream (db : nat) (c : StreamCommand) : exec :=
  match c with
  | XAdd key id fields =>
      handle_xadd db (call (B "XADD") (from_bytes key :: from_string (default (B "*") id) :: field_frames fields))
  | XLen key => handle_xlen db (call (B "XLEN") [from_bytes key])
  | XRange key start end_ count =>
      handle_xrange db (call (B "XRANGE") ([from_bytes key; from_string start; from_string end_] ++ count_frames count))
  | XRevRange key start end_ count =>
      handle_xrevrange db (call (B "XREVRANGE") ([from_bytes key; from_string start; from_string end_] ++ count_frames count))
  | XRead keys_and_ids count _ =>
      handle_xread db (call (B "XREAD")
        (count_frames count ++ [from_string (B "STREAMS")]
         ++ map (fun p => from_bytes p.1) keys_and_ids ++ map (fun p => from_string p.2) keys_and_ids))
  | XTrim key strategy threshold =>
      handle_xtrim db (call (B "XTRIM") [from_bytes key; from_string strategy; from_string (show_u64 threshold)])
  | XDel key ids => handle_xdel db (call (B "XDEL") (from_bytes key :: map from_string ids))
  end.

(** ** SCAN, through its handlers *)

Definition match_frames (pattern : option bytes) : list RespFrame :=
  match pattern with Some p => [from_string (B "MATCH"); from_bytes p] | None => [] end.
Definition type_frames (type_filter : option bytes) : list RespFrame :=
  match type_filter with Some t => [from_string (B "TYPE"); from_string t] | None => [] end.

Definition execute_scan (db : nat) (c : ScanCommand) : exec :=
  match c with
  | Scan_ cursor pattern count type_filter =>
      handle_scan db (call (B "SCAN")
        (from_string (show_u64 cursor) :: match_frames pattern ++ count_frames count ++ type_frames type_filter))
  | HScan key cursor pattern count =>
      handle_hscan db (call (B "HSCAN")
        (from_bytes key :: from_string (show_u64 cursor) :: match_frames pattern ++ count_frames count))
  | SScan key cursor pattern count =>
      handle_sscan db (call (B "SSCAN")
        (from_bytes key :: from_string (show_u64 cursor) :: match_frames pattern ++ count_frames count))
  | ZScan key cursor pattern count =>
      handle_zscan db (call (B "ZSCAN")
        (from_bytes key :: from_string (show_u64 cursor) :: match_frames pattern ++ count_frames count))
  end.

(** ** The database of the connection, or the first one *)

Definition execute_database (x : UnifiedCommandExecutor) (c : DatabaseCommand) : exec :=
  let db := match conn_context x with Some ctx => ctx_db_index ctx | None => 0%nat end in
  match c with
  | FlushDb => answered (fun e => flush_db e db) (fun _ => ok)
  | FlushAll =>
      let* n := try_op (reads (fun e => Ok (database_count e))) in
      let* _ := for_each (seq 0 n) (fun i _ => try_op (fun e => flush_db e i)) tt in ret ok
  | DbSize => answered (reads (fun e => get_all_keys e db)) (fun keys => int_reply (Z.of_nat (length keys)))
  | Keys pattern => handle_keys db (call (B "KEYS") [from_bytes pattern])
  end.

(** ** Consumer groups, through their handlers *)

Definition execute_consumer_group (db : nat) (c : ConsumerGroupCommand) : exec :=
  match c with
  | XGroup subcommand key group args =>
      handle_xgroup db (call (B "XGROUP") (from_string subcommand :: from_bytes key :: from_string group :: map from_string args))
  | XReadGroup group consumer keys_and_ids count _ _ =>
      handle_xreadgroup db (call (B "XREADGROUP")
        ([from_string (B "GROUP"); from_string group; from_string consumer] ++ count_frames count
         ++ [from_string (B "STREAMS")] ++ field_frames keys_and_ids))
  | XAck key group ids => handle_xack db (call (B "XACK") (from_bytes key :: from_string group :: map from_string ids))
  | XPending key group range _ =>
      handle_xpending db (call (B "XPENDING") ([from_bytes key; from_string group]
        ++ match range with
           | Some (start, end_, count) => [from_string start; from_string end_; from_string (show_u64 count)]
           | None => []
           end))
  | XClaim key group consumer min_idle_time ids _ _ =>
      handle_xclaim db (call (B "XCLAIM")
        ([from_bytes key; from_string group; from_string consumer; from_string (show_u64 min_idle_time)] ++ map from_string ids))
  | XInfo subcommand key group =>
      handle_xinfo db (call (B "XINFO") ([from_string subcommand; from_bytes key]
        ++ match group with Some g => [from_string g] | None => [] end))
  end.

(** ** Answers without an effect *)

Definition execute_persistence (c : PersistenceCommand) : exec :=
  match c with
  | Save => ret ok
  | BgSave => ret (from_string (B "Background saving started"))
  | LastSave => let* t := system_time in ret (int_reply (t / 1000000000))
  | BgRewriteAof => ret (from_string (B "Background append only file rewriting started"))
  end.

Definition config_reply (name value : bytes) : RespFrame := Array (Some [from_string name; from_string value]).

Definition execute_config (c : ConfigCommand) : exec :=
  match c with
  | ConfigGet p =>
      ret (if bool_decide (to_lowercase p = B "maxmemory") then config_reply (B "maxmemory") (B "0")
           else if bool_decide (to_lowercase p = B "timeout") then config_reply (B "timeout") (B "0")
           else config_reply p [])
  | ConfigSet _ _ => ret ok
  end.

(** ** Bits *)

(** [(byte >> (7 - bit)) & 1] *)
Definition bit_of (b : byte) (bit : Z) : Z := Z.land (Z.shiftr (u8 b) (7 - bit)) 1.

Definition with_bit (b : byte) (bit v : Z) : byte :=
  let mask := Z.shiftl 1 (7 - bit) in
  byte_of (if v =? 1 then Z.lor (u8 b) mask else Z.land (u8 b) (255 - mask)).

(** [u8::count_ones] *)
Definition count_ones (b : byte) : Z := foldr (fun i n => bit_of b i + n) 0 (seqZ 0 8).

Definition get_bit (offset : Z) (v : bytes) : Z :=
  match v !! Z.to_nat (offset / 8) with Some b => bit_of b (offset mod 8) | None => 0 end.

(** [data.resize(byte_offset + 1, 0)] when it is too short. *)
Definition grown_to (n : nat) (v : bytes) : bytes := v ++ replicate (S n - length v) Byte.x00.

Definition set_bit (offset value : Z) (v : bytes) : outcome (bytes * Z) :=
  let i := Z.to_nat (offset / 8) in
  let data := grown_to i v in
  match data !! i with
  | Some b => Ok (<[i := with_bit b (offset mod 8) value]> data, bit_of b (offset mod 8))
  | None => Panic
  end.

(** The bounds of BITCOUNT as positions; a negative position that stays
    negative is a huge index. *)
Definition bit_position (len n : Z) : Z := u64_wrap (if n <? 0 then Z.max (len + n) 0 else Z.min n (len - 1)).

(** [&value\[start..=end\]], which panics out of range. *)
Definition bit_count (v : bytes) (start end_ : option Z) : outcome Z :=
  let len := Z.of_nat (length v) in
  let '(first, last) := match start, end_ with
                        | Some s, Some e => (bit_position len s, bit_position len e)
                        | _, _ => (0, saturating_sub len 1)
                        end in
  let last := Z.min last (saturating_sub len 1) in
  if (last + 1 <? first) || (len <? last + 1) then Panic
  else Ok (foldr (fun b n => count_ones b + n) 0 (take (Z.to_nat (last + 1 - first)) (drop (Z.to_nat first) v))).

Definition stored_string (db : nat) (key : bytes) : cmd engine (option bytes) :=
  let* t := now in try_op (fun e => get_string t e db key).

Definition execute_bit (db : nat) (c : BitCommand) : exec :=
  match c with
  | GetBit key offset =>
      let* v := stored_string db key in
      ret (Integer (match v with Some v => get_bit offset v | None => 0 end))
  | SetBit key offset value =>
      let* v := stored_string db key in
      let* (data, old_bit) := try_op (fun e => (e, set_bit offset value (default [] v))) in
      answered_now (fun t e => set_string t e db key data) (fun _ => Integer old_bit)
  | BitCount key start end_ =>
      let* v := stored_string db key in
      match v with
      | Some v => let* n := try_op (fun e => (e, bit_count v start end_)) in ret (Integer n)
      | None => ret (Integer 0)
      end
  end.

(** ** The executor and its adapters *)

Definition execute (x : UnifiedCommandExecutor) (p : ParsedCommand) : exec :=
  let db := match db_override p with
            | Some db => db
            | None => match conn_context x with Some ctx => ctx_db_index ctx | None => 0%nat end
            end in
  match command p with
  | CmdString c => execute_string db c
  | CmdList c => execute_list db c
  | CmdSet c => execute_set db c
  | CmdHash c => execute_hash db c
  | CmdSortedSet c => execute_sorted_set db c
  | CmdKey c => execute_key db c
  | CmdServer c => execute_server c
  | CmdStream c => execute_stream db c
  | CmdScan c => execute_scan db c
  | CmdDatabase c => execute_database x c
  | CmdConsumerGroup c => execute_consumer_group db c
  | CmdPersistence c => execute_persistence c
  | CmdBit c => execute_bit db c
  | CmdConfig c => execute_config c
  end.

Definition parsed_call (frames : list RespFrame) : cmd engine ParsedCommand := try_op (fun e => (e, parse frames)).

(** [ServerCommandAdapter::execute_with_context] *)
Definition execute_with_context (frames : list RespFrame) (conn_id : Z) (db_index : nat) : exec :=
  let* p := parsed_call frames in
  execute (with_context (mkContext conn_id db_index false false) executor_new) p.

(** [LuaCommandAdapter::execute_lua_command] *)
Definition execute_lua_command (args : list bytes) (db_index : nat) : exec :=
  let* p := parsed_call (map bulk_string args) in
  execute executor_new (mkParsedCommand (command p) (Some db_index)).
End executor.
