(* ===== verification/ExecutorProofs.v ===== *)
(** * The executor of scripts: safety, steps of the store, agreement

    The parser of calls never panics and hands over commands with at least one
    element; whatever a script calls takes the store through its steps; the
    list, set and hash commands do what the same commands do when a client
    sends them. *)

From S2P Require Import Prelude Text Resp SortedSet Value PubSub StreamId Stream Keyspace StringOps ListOps SetOps ZSetOps Scan Command.
From S2P Require Import KeyspaceProofs EngineSteps CommandLogic CommandSteps.
From S2P Require Import CollectionCommands StringCommands ZSetCommands StreamCommands GroupCommands CommandParser Executor.
From stdpp Require Import relations.

Open Scope Z_scope.

(** ** The parser *)

Section parsing.
Context `{F64Text} `{CaseMap}.

Definition safe {A} (m : outcome A) : Prop := m <> Panic.

Lemma safe_ok {A} (a : A) : safe (Ok a).
Proof. done. Qed.
Lemma safe_err {A} e : safe (A := A) (Err e).
Proof. done. Qed.

Lemma safe_bind {A C} (m : outcome A) (k : A -> outcome C) : safe m -> (forall a, m = Ok a -> safe (k a)) -> safe (obind m k).
Proof. intros Hm Hk. destruct m; simpl; [by apply Hk|done|by destruct Hm]. Qed.

Lemma safe_arity {A} (refused : bool) name (k : outcome A) : (refused = false -> safe k) -> safe (with_arity refused name k).
Proof. intros Hk. unfold with_arity. destruct refused; [done|by apply Hk]. Qed.

Lemma safe_parsed {A} (p : bytes -> option A) e s : safe (parsed p e s).
Proof. unfold parsed. by destruct (p s). Qed.

Lemma safe_extract_bytes f : safe (extract_bytes f).
Proof. by destruct f as [| | |[]| | | | | | |]. Qed.

Lemma safe_extract_string f : safe (extract_string f).
Proof. destruct f as [| | |[b|]| | | | | | |]; try done. simpl. by destruct (utf8_valid b). Qed.

Lemma safe_frame frames i : (i < length frames)%nat -> safe (frame_at frames i).
Proof. intros Hi. unfold frame_at. destruct (lookup_lt_is_Some_2 _ _ Hi) as [f ->]. done. Qed.

Lemma safe_bytes_at frames i : (i < length frames)%nat -> safe (bytes_at frames i).
Proof. intros Hi. apply safe_bind; [by apply safe_frame|]. intros f _. apply safe_extract_bytes. Qed.

Lemma safe_string_at frames i : (i < length frames)%nat -> safe (string_at frames i).
Proof. intros Hi. apply safe_bind; [by apply safe_frame|]. intros f _. apply safe_extract_string. Qed.

Lemma safe_i64_at frames i : (i < length frames)%nat -> safe (i64_at frames i).
Proof. intros Hi. apply safe_bind; [by apply safe_string_at|]. intros s _. apply safe_parsed. Qed.

Lemma safe_u64_at frames i : (i < length frames)%nat -> safe (u64_at frames i).
Proof. intros Hi. apply safe_bind; [by apply safe_string_at|]. intros s _. apply safe_parsed. Qed.

Lemma safe_f64_at frames i : (i < length frames)%nat -> safe (f64_at frames i).
Proof. intros Hi. apply safe_bind; [by apply safe_string_at|]. intros s _. apply safe_parsed. Qed.

Lemma safe_word_at i word frames : (i < length frames)%nat -> safe (word_at i word frames).
Proof. intros Hi. apply safe_bind; [by apply safe_string_at|]. done. Qed.

Lemma safe_each {A} (extract : RespFrame -> outcome A) frames : (forall f, safe (extract f)) -> safe (each extract frames).
Proof.
  intros He. induction frames as [|f frames IH]; simpl; [done|]. apply safe_bind; [done|]. intros a _. by apply safe_bind.
Qed.

Lemma safe_bytes_from n frames : safe (bytes_from n frames).
Proof. apply safe_each, safe_extract_bytes. Qed.

Lemma safe_strings_from n frames : safe (strings_from n frames).
Proof. apply safe_each, safe_extract_string. Qed.

Lemma safe_extract_u64 f : safe (extract_u64 f).
Proof. apply safe_bind; [apply safe_extract_string|]. intros s _. apply safe_parsed. Qed.

Lemma safe_extract_f64 f : safe (extract_f64 f).
Proof. apply safe_bind; [apply safe_extract_string|]. intros s _. apply safe_parsed. Qed.

Lemma safe_number_after missing f : safe (number_after missing f).
Proof. destruct f; [apply safe_extract_u64|done]. Qed.

Lemma safe_pairs {A} (first : RespFrame -> outcome A) : (forall f, safe (first f)) ->
  forall n frames, length frames = (2 * n)%nat -> safe (pairs first frames).
Proof.
  intros Hf. induction n as [|n IH]; intros frames Hl; [by destruct frames|].
  destruct frames as [|f [|g frames]]; [done|simpl in Hl; lia|]. simpl. apply safe_bind; [done|]. intros a _.
  apply safe_bind; [apply safe_extract_bytes|]. intros b _. apply safe_bind; [|done]. apply IH. simpl in Hl. lia.
Qed.

(** Pairs of the frames from [first] on, when their number is even. *)
Lemma safe_pairs_from {A} (f : RespFrame -> outcome A) frames first : (forall x, safe (f x)) ->
  ((length frames - first) mod 2 = 0)%nat -> safe (pairs f (drop first frames)).
Proof.
  intros Hf He. apply (safe_pairs f Hf ((length frames - first) / 2)). rewrite length_drop.
  pose proof (Nat.div_mod_eq (length frames - first) 2). lia.
Qed.

Lemma safe_set_options fuel : forall frames o, (length frames <= fuel)%nat -> safe (parse_set_options fuel frames o).
Proof.
  induction fuel as [|fuel IH]; intros [|f rest] o Hl; try done; [simpl in Hl; lia|]. simpl in Hl. cbn [parse_set_options].
  apply safe_bind; [apply safe_extract_string|]. intros opt _.
  repeat (case_match; [first [apply IH; lia | apply safe_bind; [apply safe_number_after|intros; apply IH; destruct rest; simpl in *; lia]]|]).
  done.
Qed.

Lemma safe_read_options fuel noack : forall frames o, (length frames <= fuel)%nat -> safe (parse_read_options fuel noack frames o).
Proof.
  induction fuel as [|fuel IH]; intros [|f rest] o Hl; try done; [simpl in Hl; lia|]. simpl in Hl. cbn [parse_read_options].
  apply safe_bind; [apply safe_extract_string|]. intros opt _.
  case_match; [|case_match; [|case_match; [|by case_match]]].
  - apply safe_bind; [apply safe_number_after|]. intros. apply IH. destruct rest; simpl in *; lia.
  - apply safe_bind; [apply safe_number_after|]. intros. apply IH. destruct rest; simpl in *; lia.
  - apply IH. lia.
Qed.

Lemma safe_scan_options fuel typed : forall frames o, (length frames <= fuel)%nat -> safe (parse_scan_options fuel typed frames o).
Proof.
  induction fuel as [|fuel IH]; intros [|f rest] o Hl; try done; [simpl in Hl; lia|]. simpl in Hl. cbn [parse_scan_options].
  apply safe_bind; [apply safe_extract_string|]. intros opt _.
  case_match; [|case_match; [|case_match; [|done]]].
  - destruct rest; [done|]. apply safe_bind; [apply safe_extract_bytes|]. intros. apply IH. simpl in *. lia.
  - apply safe_bind; [apply safe_number_after|]. intros. apply IH. destruct rest; simpl in *; lia.
  - destruct rest; [done|]. apply safe_bind; [apply safe_extract_string|]. intros. apply IH. simpl in *. lia.
Qed.

Lemma safe_keys_with_ids keys : forall ids, length keys = length ids -> safe (keys_with_ids keys ids).
Proof.
  induction keys as [|k keys IH]; intros [|i ids] Hl; try done. simpl. apply safe_bind; [apply safe_extract_bytes|]. intros b _.
  apply safe_bind; [apply safe_extract_string|]. intros s _. apply safe_bind; [|done]. apply IH. by injection Hl.
Qed.

Lemma safe_streams frames : safe (parse_streams frames).
Proof.
  unfold parse_streams. destruct (Nat.eqb_spec (length frames mod 2) 0); [|done]. cbn [negb]. apply safe_keys_with_ids.
  rewrite length_take, length_drop. pose proof (Nat.div_mod_eq (length frames) 2). lia.
Qed.

Lemma safe_claim_args frames : safe (claim_args frames).
Proof.
  induction frames as [|f frames IH]; simpl; [done|]. apply safe_bind; [apply safe_extract_string|]. intros s _.
  apply safe_bind; [done|]. by intros [[ids force] justid] _.
Qed.
End parsing.

Create HintDb safe.
#[export] Hint Resolve safe_ok safe_err safe_extract_bytes safe_extract_string safe_extract_u64 safe_extract_f64 safe_bytes_from
  safe_strings_from safe_streams safe_claim_args : safe.

(** What the arity check says of the length. *)
Ltac arity :=
  unfold size_is, shorter, longer in *;
  repeat match goal with
  | Hc : (_ || _)%bool = false |- _ => apply orb_false_iff in Hc as [? ?]
  | Hc : negb _ = false |- _ => apply negb_false_iff in Hc
  | Hc : (_ =? _)%nat = true |- _ => apply Nat.eqb_eq in Hc
  | Hc : (_ =? _)%nat = false |- _ => apply Nat.eqb_neq in Hc
  | Hc : (_ <? _)%nat = true |- _ => apply Nat.ltb_lt in Hc
  | Hc : (_ <? _)%nat = false |- _ => apply Nat.ltb_ge in Hc
  end.

Lemma even_rest n k : (k <= n)%nat -> (n mod 2 = k mod 2)%nat -> ((n - k) mod 2 = 0)%nat.
Proof.
  intros Hle E. pose proof (Nat.div_mod_eq n 2). pose proof (Nat.div_mod_eq k 2).
  replace (n - k)%nat with ((n / 2 - k / 2) * 2)%nat by lia. by apply Nat.Div0.mod_mul.
Qed.

(** A length modulo two. *)
Ltac odd_or_even :=
  match goal with |- (?n mod 2 = _)%nat => pose proof (Nat.mod_upper_bound n 2 ltac:(lia)); simpl in *; lia end.

(** Walk along a parser. *)
Ltac safe_steps :=
  lazymatch goal with
  | |- safe (with_arity _ _ _) => apply safe_arity; intros ?; arity; safe_steps
  | |- safe (obind _ _) => apply safe_bind; [safe_steps|intros ? _; safe_steps]
  | |- safe (if ?b then _ else _) => destruct b eqn:?; arity; safe_steps
  | |- safe (match ?x with _ => _ end) => destruct x eqn:?; safe_steps
  | |- safe (bytes_at _ _) => apply safe_bytes_at; lia
  | |- safe (string_at _ _) => apply safe_string_at; lia
  | |- safe (i64_at _ _) => apply safe_i64_at; lia
  | |- safe (u64_at _ _) => apply safe_u64_at; lia
  | |- safe (f64_at _ _) => apply safe_f64_at; lia
  | |- safe (word_at _ _ _) => apply safe_word_at; lia
  | |- safe (parse_set_options _ _ _) => apply safe_set_options; rewrite length_drop; lia
  | |- safe (parse_read_options _ _ _ _) => apply safe_read_options; rewrite length_drop; lia
  | |- safe (parse_scan_options _ _ _ _) => apply safe_scan_options; rewrite length_drop; lia
  | |- safe (pairs _ _) => apply safe_pairs_from; [auto with safe|apply even_rest; [lia|odd_or_even]]
  | |- safe ?m => first [solve [auto with safe] | let h := head_of m in progress (unfold h); safe_steps]
  end.

Section totality.
Context `{F64Text} `{CaseMap}.

Lemma safe_xrange_of name mk frames : safe (parse_xrange_of name mk frames).
Proof.
  unfold parse_xrange_of. apply safe_arity. intros ?. arity. do 3 (apply safe_bind; [safe_steps|intros ? _]).
  destruct (Nat.eqb_spec (length frames) 6) as [E|]; [|by simpl].
  apply safe_bind; [safe_steps|]. intros [] _; [|done]. simpl. apply safe_bind; [|done]. safe_steps.
Qed.
#[local] Hint Resolve safe_xrange_of : safe.

Lemma parsers_safe : Forall (fun p => forall frames, safe (p.2 frames)) parsers.
Proof. unfold parsers. repeat apply Forall_cons_2; [..|apply Forall_nil_2]; intros frames; simpl; unfold via, fixed; safe_steps. Qed.

Lemma parse_safe frames : safe (parse frames).
Proof.
  unfold parse. destruct frames as [|f frames]; [done|]. apply safe_bind; [apply safe_extract_string|]. intros s _. cbv zeta.
  unfold find_parser. destruct (List.find _ _) as [[name p]|] eqn:E; [|done]. simpl.
  apply find_some in E as [Hin _]. pose proof parsers_safe as Hs. rewrite Forall_forall in Hs.
  apply safe_bind; [|done]. apply (Hs (name, p)). by apply list_elem_of_In.
Qed.
End totality.

(** ** What a parsed command holds *)

(** The elements that the operations of the store must be given. *)
Definition has_elements (c : Command) : Prop :=
  match c with
  | CmdList (LPush _ l) | CmdList (RPush _ l) | CmdSet (SAdd _ l) => l <> []
  | CmdHash (HSet _ l) | CmdHash (HMSet _ l) => l <> []
  | _ => True
  end.

Lemma obind_ok {A C} (m : outcome A) (k : A -> outcome C) c : obind m k = Ok c -> exists a, m = Ok a /\ k a = Ok c.
Proof. destruct m; [|done..]. by exists a. Qed.

Lemma arity_ok {A} (refused : bool) name (k : outcome A) a : with_arity refused name k = Ok a -> refused = false /\ k = Ok a.
Proof. unfold with_arity. by destruct refused. Qed.

Lemma each_length {A} (extract : RespFrame -> outcome A) frames l : each extract frames = Ok l -> length l = length frames.
Proof.
  revert l. induction frames as [|f frames IH]; intros l; [by intros [= <-]|]. simpl. intros (a & _ & (l' & E & [= <-])%obind_ok)%obind_ok.
  simpl. by rewrite (IH l').
Qed.

Lemma pairs_length {A} (first : RespFrame -> outcome A) : forall l frames, pairs first frames = Ok l -> length frames = (2 * length l)%nat.
Proof.
  induction l as [|x l IH]; intros [|f [|g frames]] E; try done; simpl in E; apply obind_ok in E as (a & _ & E); try done;
    apply obind_ok in E as (b & _ & E); apply obind_ok in E as (l' & Hl' & E); [done|].
  simplify_eq. specialize (IH frames Hl'). simpl in *. lia.
Qed.

Lemma bytes_from_nonempty n frames l : bytes_from n frames = Ok l -> (n < length frames)%nat -> l <> [].
Proof. intros E Hn ->. apply each_length in E. rewrite length_drop in E. simpl in E. lia. Qed.

Lemma pairs_nonempty {A} (first : RespFrame -> outcome A) n frames : pairs first (drop n frames) = Ok [] -> (n < length frames)%nat -> False.
Proof. intros E Hn. apply pairs_length in E. rewrite length_drop in E. simpl in E. lia. Qed.

(** Take apart a parser that succeeded. *)

Ltac parsed_ok E :=
  lazymatch type of E with
  | obind _ _ = Ok _ =>
      let a := fresh "a" in let Ha := fresh "Ha" in apply obind_ok in E as (a & Ha & E); cbv beta in E; parsed_ok E
  | with_arity _ _ _ = Ok _ => let Hr := fresh "Hr" in apply arity_ok in E as [Hr E]; parsed_ok E
  | Ok _ = Ok _ => injection E as E
  | Err _ = Ok _ => discriminate E
  | (if ?b then _ else _) = Ok _ => let Hb := fresh "Hb" in destruct b eqn:Hb; parsed_ok E
  | (match ?x with _ => _ end) = Ok _ => destruct x eqn:?; parsed_ok E
  | ?t = Ok _ => first [let h := head_of t in progress (unfold h in E); parsed_ok E | idtac]
  end.

Section elements.
Context `{F64Text} `{CaseMap}.

Lemma parsers_elements : Forall (fun p => forall frames c, p.2 frames = Ok c -> has_elements c) parsers.
Proof.
  unfold parsers. repeat apply Forall_cons_2; [..|apply Forall_nil_2]; intros frames c E; cbn [snd] in E; unfold via, fixed in E;
    parsed_ok E; subst; try exact I; match goal with Ha : _ = Ok _ |- _ => parsed_ok Ha end; subst; try exact I;
    cbn [has_elements]; arity.
  all: try (eapply bytes_from_nonempty; [eassumption|lia]).
  all: intros ->; eapply pairs_nonempty; [eassumption|lia].
Qed.

Lemma parse_elements frames p : parse frames = Ok p -> has_elements (command p).
Proof.
  unfold parse. destruct frames as [|f frames]; [done|]. intros (s & _ & E)%obind_ok. cbv zeta in E.
  unfold find_parser in E. destruct (List.find _ _) as [[name q]|] eqn:Ef; [|done]. simpl in E.
  apply obind_ok in E as (c & Hc & [= <-]). apply find_some in Ef as [Hin _].
  pose proof parsers_elements as Hs. rewrite Forall_forall in Hs. apply (Hs (name, q) ltac:(by apply list_elem_of_In) _ _ Hc).
Qed.

(** C25. The parser of the calls of scripts is total: every list of frames, of any
    length and with any bytes, gives a command or an error and never a panic (no
    index out of range in any of its 108 commands, no fuel that runs out), and a
    command that it accepts has the elements that the store's operations need. *)
Theorem parse_total frames :
  match parse frames with
  | Ok p => has_elements (command p)
  | Err _ => True
  | Panic => False
  end.
Proof.
  pose proof (parse_safe frames) as Hs. pose proof (parse_elements frames) as He.
  destruct (parse frames) as [p|err|]; [by apply He|done|by apply Hs].
Qed.
End elements.

(** ** Whatever a script calls takes the store through its steps *)

Section steps.
Context {ZS : Type} `{SortedSet ZS} `{Layout} `{HashIter} `{Random} `{F64Text} `{CaseMap}.
Abbreviation steps := (steps (ZS := ZS)).

#[local] Hint Unfold takes_steps : handlers.

Ltac exec_steps := cmd_steps; try engine_step; try solve [auto with handlers].

Lemma keeps_answered {A} (op : StorageEngine ZS -> StorageEngine ZS * outcome A) k :
  (forall e, steps e (op e).1) -> keeps steps (answered op k).
Proof. intros Hop. unfold answered. cmd_steps; apply Hop. Qed.

Lemma keeps_count_true {X} (l : list X) op : (forall x, keeps steps (op x)) -> keeps steps (count_true l op).
Proof. intros Hop. unfold count_true. cmd_steps; apply Hop. Qed.

Lemma set_command_steps db key v o : keeps steps (execute_set_command db key v o).
Proof. exec_steps. Qed.

Lemma string_steps db c : keeps steps (execute_string db c).
Proof. destruct c; cbn [execute_string]; first [apply set_command_steps | apply mget_steps | apply mset_steps | apply getset_steps | exec_steps]. Qed.

Lemma list_steps db c : has_elements (CmdList c) -> keeps steps (execute_list db c).
Proof. intros Hc. destruct c; simpl in Hc; cbn [execute_list]; exec_steps. Qed.

Lemma set_steps' db c : has_elements (CmdSet c) -> keeps steps (execute_set db c).
Proof. intros Hc. destruct c; simpl in Hc; cbn [execute_set]; exec_steps. Qed.

Lemma hash_steps db c : has_elements (CmdHash c) -> keeps steps (execute_hash db c).
Proof. intros Hc. destruct c; simpl in Hc; cbn [execute_hash]; exec_steps. Qed.

Lemma pop_while_removed_steps db key rank count popped : runs steps (pop_while_removed db key rank count popped) (fun _ => True).
Proof. revert popped. induction count as [|n IH]; intros popped; cbn [pop_while_removed]; cmd_steps; first [apply IH|engine_step]. Qed.
#[local] Hint Resolve pop_while_removed_steps : cmd.

Lemma sorted_set_steps db c : keeps steps (execute_sorted_set db c).
Proof. destruct c; cbn [execute_sorted_set]; exec_steps. Qed.

Lemma key_steps db c : keeps steps (execute_key db c).
Proof. destruct c; cbn [execute_key]; first [apply rename_steps|exec_steps]. Qed.

Lemma server_steps c : keeps (A := RespFrame) steps (execute_server c).
Proof. destruct c as [[]| | |]; cbn [execute_server]; exec_steps. Qed.

Lemma stream_steps db c : keeps steps (execute_stream db c).
Proof.
  destruct c; cbn [execute_stream];
    first [apply xadd_steps|apply xlen_steps|apply xrange_steps|apply xrevrange_steps|apply xread_steps|apply xtrim_steps|apply xdel_steps].
Qed.

Lemma scans_steps db c : keeps steps (execute_scan db c).
Proof. destruct c; cbn [execute_scan]; first [apply scan_steps|apply hscan_steps|apply sscan_steps|apply zscan_steps]. Qed.

Lemma database_steps x c : keeps steps (execute_database x c).
Proof. destruct c; unfold execute_database; first [apply keys_steps|exec_steps]. Qed.

Lemma consumer_group_steps db c : keeps steps (execute_consumer_group db c).
Proof.
  destruct c; cbn [execute_consumer_group];
    first [apply xgroup_steps|apply xreadgroup_steps|apply xack_steps|apply xpending_steps|apply xclaim_steps|apply xinfo_steps].
Qed.

Lemma persistence_steps c : keeps steps (execute_persistence c).
Proof. destruct c; cbn [execute_persistence]; exec_steps. Qed.

Lemma config_steps c : keeps steps (execute_config c).
Proof. destruct c; cbn [execute_config]; exec_steps. Qed.

Lemma bit_steps db c : keeps steps (execute_bit db c).
Proof. destruct c; unfold execute_bit, stored_string; exec_steps. Qed.

Lemma execute_steps x p : has_elements (command p) -> keeps steps (execute x p).
Proof.
  intros Hp. unfold execute. set (db := match db_override p with Some _ => _ | None => _ end). clearbody db.
  destruct (command p); simpl in Hp;
    eauto using string_steps, list_steps, set_steps', hash_steps, sorted_set_steps, key_steps, server_steps, stream_steps,
      scans_steps, database_steps, consumer_group_steps, persistence_steps, config_steps, bit_steps.
Qed.

Lemma parsed_call_runs frames : runs steps (parsed_call frames) (fun p => has_elements (command p)).
Proof. apply runs_try_op; [done|]. intros e p. apply parse_elements. Qed.

Lemma parsed_then_steps frames x f : (forall p, command (f p) = command p) ->
  keeps steps (let* p := parsed_call frames in execute x (f p)).
Proof. intros Hf. apply (runs_bind _ _ _ _ _ (parsed_call_runs frames)). intros p Hp. apply execute_steps. by rewrite Hf. Qed.

(** C24. Whatever a script asks for, from whatever bytes, and whatever the
    adapter of the server is handed, takes the store through its own steps: a
    call that the parser accepts has the elements that the operations of the
    store need, so every invariant of the steps holds after a script too. *)
Theorem script_calls_step frames args (conn_id : Z) (i : nat) (w : World) (e : StorageEngine ZS) :
  steps e (execute_lua_command args i w e).1.2 /\ steps e (execute_with_context frames conn_id i w e).1.2.
Proof.
  split; (eapply (keeps_state steps); [typeclasses eauto..|]).
  - by apply (parsed_then_steps _ _ (fun p => mkParsedCommand (command p) (Some i))).
  - by apply (parsed_then_steps _ _ id).
Qed.
End steps.
