(* ===== verification/LuaEngine.v ===== *)
(** * The engine of Lua scripts (src/storage/lua_engine.rs, src/storage/commands/lua.rs)

    What surrounds the interpreter: the globals a script finds, the calls of
    redis.call and redis.pcall, the conversion of replies to Lua values and of
    the script's result to a reply, the errors, and the EVAL command.

    The interpreter is the crate mlua, which is not part of the sources: an
    interface ([Mlua]) with the functions of its API that the engine uses.  A
    running script is a thread that either ends or calls back into the engine;
    what a script does between two calls is the interpreter's affair. *)

From S2P Require Import Prelude Text Resp SortedSet Value PubSub Keyspace Command CommandParser Executor.
From Stdlib Require Import Floats.SpecFloat.

Open Scope Z_scope.

(** ** The interpreter *)

(** [mlua::Error], with the display of the errors that the engine does not look into. *)
Inductive LuaError :=
  | RuntimeError (msg : bytes)
  | SyntaxError (message : bytes)
  | OtherLuaError (display : bytes).

(** [mlua::Value]; tables and functions are references. *)
Inductive LuaValue {table function : Type} :=
  | LNil
  | LBoolean (b : bool)
  | LInteger (n : Z)
  | LNumber (d : f64)
  | LString (s : bytes)
  | LTable (t : table)
  | LFunction (f : function)
  | LOther.
Arguments LuaValue : clear implicits.

(** The functions that the engine gives to a script. *)
Inductive HostFunction := RedisCall | RedisPcall | DummyCall.

(** The keys of the tables that the engine writes. *)
Inductive LuaKey := KName (name : bytes) | KIndex (i : Z).

(** A thread's next event: the end of the script, a call of redis.call or
    redis.pcall that waits for its result, or a computation without an end. *)
Inductive LuaEvent {vm value thread : Type} :=
  | Finished (v : vm) (r : value + LuaError)
  | Calls (is_pcall : bool) (args : list value) (v : vm) (k : vm -> value + LuaError -> thread)
  | Diverges.
Arguments LuaEvent : clear implicits.

Class Mlua := {
  vm : Type;
  table : Type;
  function : Type;
  thread : Type;
  lua_new : vm;
  globals : table;
  create_string : bytes -> vm -> vm * (bytes + LuaError);
  create_table : vm -> vm * (table + LuaError);
  create_function : HostFunction -> vm -> vm * (function + LuaError);
  table_set : table -> LuaKey -> LuaValue table function -> vm -> vm * (unit + LuaError);
  table_get : table -> LuaKey -> vm -> vm * (LuaValue table function + LuaError);
  (** [lua.load(script).into_function()] and [lua.load(script).eval()] *)
  compile : bytes -> vm -> unit + LuaError;
  start : bytes -> vm -> thread;
  resume : thread -> LuaEvent vm (LuaValue table function) thread;
  lua_error_text : LuaError -> bytes;
  (** [format!("{:.17}", n)], of the standard library. *)
  fixed17 : f64 -> bytes;
  (** The hexadecimal SHA-1 of a text, of the crates sha1 and hex. *)
  sha1_hex : bytes -> bytes;
  (** How many calls of a script, and how many tables and elements of its
      result, the evaluation of the model follows. *)
  script_fuel : nat;
}.

Section lua.
Context `{Mlua} `{CaseMap} `{F64Text}.

Abbreviation value := (LuaValue table function).

(** A use of the interpreter's API. *)
Definition api (A : Type) : Type := vm -> vm * (A + LuaError).

Definition api_ret {A} (a : A) : api A := fun v => (v, inl a).
Definition api_bind {A C} (m : api A) (k : A -> api C) : api C := fun v =>
  match m v with
  | (v', inl a) => k a v'
  | (v', inr e) => (v', inr e)
  end.
Notation "'let%' x := c 'in' k" := (api_bind c (fun x => k)) (at level 10, x pattern, c at level 100, k at level 200).

Fixpoint api_each {X} (l : list X) (f : X -> api unit) : api unit :=
  match l with
  | [] => api_ret tt
  | x :: l' => let% _ := f x in api_each l' f
  end.

(** ** Errors of calls *)

Definition is_err_text (s : bytes) : bool := starts_with (B "ERR ") s.
Definition err_text (s : bytes) : bytes := if is_err_text s then s else B "ERR " ++ s.

Definition abort_marker : bytes := B "REDIS_CALL_ABORT:".

(** [handle_command_error_with_context] *)
Definition handle_command_error (is_pcall : bool) (msg : bytes) : api value := fun v =>
  (v, if is_pcall then inl LNil else inr (RuntimeError (abort_marker ++ err_text msg))).

(** The error of a step of the API becomes the error of the command. *)
Definition or_command_error {A} (is_pcall : bool) (m : api A) (k : A -> api value) : api value := fun v =>
  match m v with
  | (v', inl a) => k a v'
  | (v', inr e) => handle_command_error is_pcall (lua_error_text e) v'
  end.

(** ** Replies as Lua values *)

Definition lossy_string (is_pcall : bool) (b : bytes) : api value :=
  or_command_error is_pcall (create_string (utf8_lossy b)) (fun s => api_ret (LString s)).

(** [table.set(..).map_err(|e| RuntimeError(e.to_string()))?] *)
Definition set_element (t : table) (i : Z) (x : value) : api unit := fun v =>
  match table_set t (KIndex i) x v with
  | (v', inl u) => (v', inl u)
  | (v', inr e) => (v', inr (RuntimeError (lua_error_text e)))
  end.

(** The elements of an array, from an index on. *)
Section elements.
Variable convert : RespFrame -> api value.

Fixpoint set_elements (t : table) (i : Z) (frames : list RespFrame) : api unit :=
  match frames with
  | [] => api_ret tt
  | f :: frames' =>
      let% x := convert f in
      let% _ := set_element t i x in
      set_elements t (i + 1) frames'
  end.
End elements.

Fixpoint resp_frame_to_lua_value (is_pcall : bool) (frame : RespFrame) : api value :=
  match frame with
  | SimpleString b | BulkString (Some b) => lossy_string is_pcall b
  | Integer i => api_ret (LInteger i)
  | Error b => handle_command_error is_pcall (utf8_lossy b)
  | Array (Some frames) =>
      or_command_error is_pcall create_table (fun t =>
        let% _ := set_elements (resp_frame_to_lua_value is_pcall) t 1 frames in api_ret (LTable t))
  | _ => api_ret LNil
  end.

(** ** Results as replies *)

(** The integer of a number without a fraction ([n.fract() == 0.0]). *)
Definition whole (d : f64) : option Z :=
  match d with
  | S754_zero _ => Some 0
  | S754_finite s m e =>
      let z := if s then Z.neg m else Z.pos m in
      if 0 <=? e then Some (z * 2 ^ e)
      else if z mod 2 ^ (- e) =? 0 then Some (z / 2 ^ (- e)) else None
  | _ => None
  end.

(** [trim_end_matches(c)] *)
Fixpoint drop_leading (c : byte) (s : bytes) : bytes :=
  match s with
  | b :: s' => if b =b c then drop_leading c s' else s
  | [] => []
  end.
Definition trim_end_matches (c : byte) (s : bytes) : bytes := rev (drop_leading c (rev s)).

(** A number; the bound [i64::MAX as f64] is 2^63, and the cast saturates. *)
Definition number_to_resp (d : f64) : RespFrame :=
  match d with
  | S754_nan => null_bulk
  | S754_infinity s => bulk_string (if s then B "-inf" else B "inf")
  | _ =>
      match whole d with
      | Some z =>
          if (i64_min <=? z) && (z <=? i64_max + 1) then Integer (Z.min z i64_max)
          else bulk_string (trim_end_matches "."%byte (trim_end_matches "0"%byte (fixed17 d)))
      | None => bulk_string (trim_end_matches "."%byte (trim_end_matches "0"%byte (fixed17 d)))
      end
  end.

(** A table is read from index 1 to the first nil or error. Nothing bounds the
    nesting or the length: [None] when the fuel ends first. *)
Fixpoint lua_value_to_resp (fuel : nat) (x : value) (v : vm) : option (vm * RespFrame) :=
  match fuel with
  | O => None
  | S fuel' =>
      match x with
      | LNil => Some (v, null_bulk)
      | LBoolean b => Some (v, Integer (if b then 1 else 0))
      | LInteger i => Some (v, Integer i)
      | LNumber d => Some (v, number_to_resp d)
      | LString s => Some (v, bulk_string s)
      | LTable t =>
          match table_items fuel' t 1 v with
          | Some (v', []) => Some (v', null_bulk)
          | Some (v', items) => Some (v', Array (Some items))
          | None => None
          end
      | LFunction _ | LOther => Some (v, null_bulk)
      end
  end
with table_items (fuel : nat) (t : table) (i : Z) (v : vm) : option (vm * list RespFrame) :=
  match fuel with
  | O => None
  | S fuel' =>
      match table_get t (KIndex i) v with
      | (v', inl LNil) | (v', inr _) => Some (v', [])
      | (v', inl x) =>
          match lua_value_to_resp fuel' x v' with
          | Some (v1, f) =>
              match table_items fuel' t (i + 1) v1 with
              | Some (v2, items) => Some (v2, f :: items)
              | None => None
              end
          | None => None
          end
      end
  end.

(** ** The globals of a script *)

Definition dangerous_functions : list bytes :=
  [B "os"; B "io"; B "debug"; B "package"; B "require"; B "dofile"; B "loadfile"; B "load"].

Definition remove_functions : api unit := api_each dangerous_functions (fun f => table_set globals (KName f) LNil).

Definition create_lua_context : api unit :=
  let% _ := remove_functions in
  let% redis_table := create_table in
  let% redis_call := create_function RedisCall in
  let% redis_pcall := create_function RedisPcall in
  let% _ := table_set redis_table (KName (B "call")) (LFunction redis_call) in
  let% _ := table_set redis_table (KName (B "pcall")) (LFunction redis_pcall) in
  table_set globals (KName (B "redis")) (LTable redis_table).

(** A table of strings under a global name. *)
Fixpoint set_strings (t : table) (i : Z) (l : list bytes) : api unit :=
  match l with
  | [] => api_ret tt
  | s :: l' => let% _ := table_set t (KIndex i) (LString (utf8_lossy s)) in set_strings t (i + 1) l'
  end.

Definition setup_keys_and_args (keys args : list bytes) : api unit :=
  let% keys_table := create_table in
  let% _ := set_strings keys_table 1 keys in
  let% _ := table_set globals (KName (B "KEYS")) (LTable keys_table) in
  let% argv_table := create_table in
  let% _ := set_strings argv_table 1 args in
  table_set globals (KName (B "ARGV")) (LTable argv_table).

(** [.map_err(|e| FerrousError::LuaError(e.to_string()))?] *)
Definition or_lua_error {A} (r : A + LuaError) : outcome A :=
  match r with
  | inl a => Ok a
  | inr e => Err (ELua (lua_error_text e))
  end.

(** ** SCRIPT LOAD *)

(** The part of a message after its last [": "]. *)
Definition after_last_colon (msg : bytes) : option bytes :=
  match rfind_text (B ": ") msg with
  | Some i => Some (drop (i + 2) msg)
  | None => None
  end.

Definition script_load (script : bytes) : outcome bytes :=
  let setup :=
    let% _ := remove_functions in
    let% redis_table := create_table in
    let% dummy_call := create_function DummyCall in
    let% _ := table_set redis_table (KName (B "call")) (LFunction dummy_call) in
    let% _ := table_set redis_table (KName (B "pcall")) (LFunction dummy_call) in
    let% _ := table_set globals (KName (B "redis")) (LTable redis_table) in
    let% keys_table := create_table in
    let% _ := table_set globals (KName (B "KEYS")) (LTable keys_table) in
    let% argv_table := create_table in
    table_set globals (KName (B "ARGV")) (LTable argv_table) in
  let '(v, r) := setup lua_new in
  let? _ := or_lua_error r in
  match compile script v with
  | inl _ => Ok (sha1_hex script)
  | inr e =>
      let msg := lua_error_text e in
      let clean :=
        match after_last_colon msg with
        | Some rest => rest
        | None =>
            if contains (B "expected") msg || contains (B "unexpected") msg || contains (B "syntax") msg then msg
            else B "syntax error"
        end in
      Err (ELua (B "ERR Error compiling script: " ++ clean))
  end.

(** ** Calls of a script *)

(** The arguments as text, in order; the first bad one decides. *)
Fixpoint command_arguments (args : list value) : list bytes + bytes :=
  match args with
  | [] => inl []
  | x :: args' =>
      let rest (s : bytes) := match command_arguments args' with inl l => inl (s :: l) | inr msg => inr msg end in
      match x with
      | LString s => if utf8_valid s then rest s else inr (B "Invalid UTF-8 in command argument")
      | LInteger i => rest (show_i64 i)
      | LNumber d => rest (f64_display d)
      | _ => inr (B "Invalid argument type")
      end
  end.

(** The commands that a script may not call, with the message. *)
Definition refused_in_scripts (name : bytes) : option bytes :=
  if bool_decide (name ∈ [B "EVAL"; B "EVALSHA"; B "SCRIPT"]) then
    Some (B "Redis scripting commands are not allowed inside Lua scripts")
  else if bool_decide (name ∈ [B "SELECT"; B "AUTH"; B "QUIT"; B "CLIENT"]) then
    Some (quoted (B "'") name (B "' command requires connection context not available in Lua scripts"))
  else if bool_decide (name ∈ [B "MULTI"; B "EXEC"; B "DISCARD"; B "WATCH"; B "UNWATCH"]) then
    Some (quoted (B "'") name (B "' command is not allowed inside Lua scripts - scripts are inherently atomic"))
  else if bool_decide (name ∈ [B "BLPOP"; B "BRPOP"; B "BZPOPMIN"; B "BZPOPMAX"]) then
    Some (quoted (B "'") name (B "' blocking command is not allowed inside Lua scripts"))
  else if bool_decide (name ∈ [B "SUBSCRIBE"; B "UNSUBSCRIBE"; B "PSUBSCRIBE"; B "PUNSUBSCRIBE"; B "PUBSUB"]) then
    Some (quoted (B "'") name (B "' pub/sub command is not allowed inside Lua scripts"))
  else if bool_decide (name ∈ [B "MONITOR"; B "RESET"]) then
    Some (quoted (B "'") name (B "' monitoring command is not allowed inside Lua scripts"))
  else if bool_decide (name ∈ [B "CONFIG"; B "SHUTDOWN"; B "DEBUG"; B "ACL"]) then
    Some (quoted (B "'") name (B "' administrative command is not allowed inside Lua scripts"))
  else None.
End lua.

Notation "'let%' x := c 'in' k" := (api_bind c (fun x => k)) (at level 10, x pattern, c at level 100, k at level 200) : ferrous_scope.

(** A text argument, or the reply. *)
Definition text_arg {S} (parts : list RespFrame) (i : nat) (not_text not_bulk : bytes) : cmd S bytes :=
  let* b := bulk_arg parts i not_bulk in
  if utf8_valid b then ret b else reply_error not_text.

(** ** Running a script on the store *)

Section eval.
Context {ZS : Type} `{SortedSet ZS} `{Layout} `{HashIter} `{Random} `{F64Text} `{CaseMap} `{Mlua}.

Abbreviation engine := (StorageEngine ZS).
Abbreviation value := (LuaValue table function).

(** An answer of the interpreter's API inside a command. *)
Definition answer_with (m : api value) (v : vm) : cmd engine (vm * (value + LuaError)) := ret (m v).

(** [execute_unified_redis_command] *)
Definition execute_unified_redis_command (is_pcall : bool) (db_index : nat) (cmd_args : list value) (v : vm)
    : cmd engine (vm * (value + LuaError)) :=
  match command_arguments cmd_args with
  | inr msg => answer_with (handle_command_error is_pcall msg) v
  | inl [] => answer_with (handle_command_error is_pcall (B "No command specified")) v
  | inl (name :: rest) =>
      match refused_in_scripts (to_uppercase name) with
      | Some msg => answer_with (handle_command_error is_pcall msg) v
      | None => fun w e =>
          match run_handler (execute_lua_command (name :: rest) db_index) w e with
          | (w', e', Ok f) => answer_with (resp_frame_to_lua_value is_pcall f) v w' e'
          | (w', e', Err err) => answer_with (handle_command_error is_pcall (show_error err)) v w' e'
          | (w', e', Panic) => (w', e', Crash)
          end
      end
  end.

(** A thread up to its end, through at most [fuel] calls; [None] when it goes on. *)
Fixpoint run_thread (fuel : nat) (db_index : nat) (t : thread) : cmd engine (option (vm * (value + LuaError))) :=
  match fuel with
  | O => ret None
  | S fuel' =>
      match resume t with
      | Finished v r => ret (Some (v, r))
      | Diverges => ret None
      | Calls is_pcall args v k =>
          let* answer := execute_unified_redis_command is_pcall db_index args v in
          run_thread fuel' db_index (k answer.1 answer.2)
      end
  end.

(** [char::is_alphabetic] *)
Definition is_alphabetic (c : Z) : bool :=
  if c <? 128 then ((65 <=? c) && (c <=? 90)) || ((97 <=? c) && (c <=? 122)) else alphabetic_other c.

Definition chunk_alphabetic (u : uchunk) : bool := match u with UChar c _ => is_alphabetic c | UBad _ => false end.

(** [trim_start_matches(|c| !c.is_alphabetic())] *)
Fixpoint from_letter (l : list uchunk) : list uchunk :=
  match l with
  | u :: l' => if chunk_alphabetic u then l else from_letter l'
  | [] => []
  end.

(** The first line, trimmed. *)
Definition first_line (s : bytes) : bytes :=
  trim (match find_text (B "
") s with Some i => take i s | None => s end).

(** The error of a script that ends in an error. *)
Definition script_error (e : LuaError) : ferrous_error :=
  match e with
  | RuntimeError msg =>
      match find_text abort_marker msg with
      | Some pos =>
          let error_content := drop (pos + length abort_marker) msg in
          ELua (err_text (first_line (flat_map chunk_raw (from_letter (utf8_chunks error_content)))))
      | None => ELua (B "ERR Error running script: " ++ msg)
      end
  | SyntaxError message =>
      let clean :=
        if contains (B ".rs:") message && contains (B ": ") message then default message (after_last_colon message)
        else message in
      ELua (B "ERR Error compiling script: " ++ clean)
  | OtherLuaError _ => ELua (B "ERR Script execution failed: " ++ lua_error_text e)
  end.

(** [LuaEngine::eval].  A script without an end, or a result that has no end,
    never gives the server an answer: the evaluation stops as a crash. *)
Definition eval (script : bytes) (keys args : list bytes) (db_index : nat) : cmd engine RespFrame :=
  let '(v, r) := create_lua_context lua_new in
  let* _ := try_op (reads (fun _ => or_lua_error r)) in
  let '(v1, r1) := setup_keys_and_args keys args v in
  let* _ := try_op (reads (fun _ => or_lua_error r1)) in
  let* result := run_thread script_fuel db_index (start script v1) in
  match result with
  | Some (v2, inl x) =>
      match lua_value_to_resp script_fuel x v2 with
      | Some (_, f) => ret f
      | None => crash
      end
  | Some (_, inr e) => fail_with (script_error e)
  | None => crash
  end.

(** ** EVAL *)

(** The bulk strings of a part of the arguments. *)
Fixpoint strings_of (frames : list RespFrame) : option (list bytes) :=
  match frames with
  | [] => Some []
  | BulkString (Some b) :: frames' => option_map (cons b) (strings_of frames')
  | _ => None
  end.

(** [process_keys_and_args].  A number of keys for which [start_idx + num_keys]
    overflows panics, in the addition or, where it wraps around, in the
    allocation of the keys that follows. *)
Definition process_keys_and_args (parts : list RespFrame) (start_idx num_keys : Z)
    : outcome (list bytes * list bytes + bytes) :=
  let end_idx := start_idx + num_keys in
  if u64_max <? end_idx then Panic
  else if Z.of_nat (length parts) <? end_idx then Ok (inr (B "wrong number of arguments"))
  else
    match strings_of (take (Z.to_nat num_keys) (drop (Z.to_nat start_idx) parts)) with
    | None => Ok (inr (B "keys must be strings"))
    | Some keys =>
        match strings_of (drop (Z.to_nat end_idx) parts) with
        | None => Ok (inr (B "args must be strings"))
        | Some args => Ok (inl (keys, args))
        end
    end.

Definition bad_number_of_keys : bytes := B "ERR invalid number of keys".

Definition num_keys_arg (parts : list RespFrame) : cmd engine Z :=
  let* f := arg parts 2 in
  match f with
  | BulkString (Some b) =>
      if utf8_valid b then match parse_u64 b with Some n => ret n | None => reply_error bad_number_of_keys end
      else reply_error bad_number_of_keys
  | Integer n => if n <? 0 then reply_error (B "ERR negative number of keys is invalid") else ret n
  | _ => reply_error bad_number_of_keys
  end.

Definition keys_and_args (parts : list RespFrame) (num_keys : Z) : cmd engine (list bytes * list bytes) :=
  let* r := try_op (reads (fun _ => process_keys_and_args parts 3 num_keys)) in
  match r with
  | inl ka => ret ka
  | inr msg => reply_error (B "ERR " ++ msg)
  end.

(** The reply for an error of the engine. *)
Definition eval_error_text (e : ferrous_error) : bytes :=
  match e with
  | ELua msg =>
      match find_text abort_marker msg with
      | Some pos => err_text (first_line (drop (pos + length abort_marker) msg))
      | None => err_text msg
      end
  | _ => B "ERR " ++ show_error e
  end.

Definition handle_eval_with_db (db_index : nat) (parts : list RespFrame) : cmd engine RespFrame :=
  let* _ := guard (length parts <? 3)%nat (wrong_arity (B "eval")) in
  let* script := text_arg parts 1 (B "ERR invalid script - not valid UTF-8") (B "ERR invalid script") in
  let* num_keys := num_keys_arg parts in
  let* (keys, args) := keys_and_args parts num_keys in
  fun w e =>
    match eval script keys args db_index w e with
    | (w', e', Fail err) => (w', e', Go (error (eval_error_text err)))
    | r => r
    end.

Definition handle_eval (parts : list RespFrame) : cmd engine RespFrame := handle_eval_with_db 0 parts.

(** The command EVAL of the server, which turns an error of the handler into a reply. *)
Definition eval_command (db_index : nat) (parts : list RespFrame) : cmd engine RespFrame := fun w e =>
  match handle_eval_with_db db_index parts w e with
  | (w', e', Fail err) => (w', e', Go (error (B "ERR Lua execution error: " ++ show_error err)))
  | r => r
  end.

(** [handle_script_load]: the hash and the text of the script. *)
Definition handle_script_load (parts : list RespFrame) : outcome (bytes * bytes) :=
  match parts with
  | [_; f] =>
      match f with
      | BulkString (Some script) =>
          if utf8_valid script then let? sha1 := script_load script in Ok (sha1, script)
          else Err (ELua (B "invalid script - not valid UTF-8"))
      | _ => Err (ELua (B "invalid script"))
      end
  | _ => Err (ELua (B "wrong number of arguments for 'script load' command"))
  end.
End eval.

(** ** An interpreter for examples

    Tables live in a heap, nothing fails, and the only program is: call
    redis.call with the arguments ARGV (redis.pcall when the script is [pcall])
    and return what it returns; a script [loop] never ends, a script [bad] does
    not compile. *)
Module ToyLua.

Definition key_code (k : LuaKey) : bytes + Z := match k with KName b => inl b | KIndex i => inr i end.

Abbreviation value := (LuaValue nat HostFunction).
Abbreviation heap := (gmap nat (gmap (bytes + Z) value)).

Definition look (h : heap) (t : nat) (k : LuaKey) : value :=
  default LNil (h !! t ≫= fun m => m !! key_code k).
Definition store (h : heap) (t : nat) (k : LuaKey) (x : value) : heap :=
  <[t := <[key_code k := x]> (default ∅ (h !! t))]> h.

(** An index that no table of the heap has. *)
Definition next (h : heap) : nat := S (foldr (fun p n => Nat.max p.1 n) 0%nat (map_to_list h)).

(** The elements of a table from an index on, up to a number of them. *)
Fixpoint items (n : nat) (h : heap) (t : nat) (i : Z) : list value :=
  match n with
  | O => []
  | S n' => match look h t (KIndex i) with LNil => [] | x => x :: items n' h t (i + 1) end
  end.

Inductive program := Running (script : bytes) (h : heap) | Done (h : heap) (r : value + LuaError).

Definition argv (h : heap) : list value :=
  match look h 0 (KName (B "ARGV")) with LTable t => items 64 h t 1 | _ => [] end.

Definition step (p : program) : LuaEvent heap value program :=
  match p with
  | Done h r => Finished h r
  | Running script h =>
      if bool_decide (script = B "loop") then Diverges
      else Calls (bool_decide (script = B "pcall")) (argv h) h Done
  end.

Definition text (e : LuaError) : bytes :=
  match e with
  | RuntimeError msg => B "runtime error: " ++ msg
  | SyntaxError msg => B "syntax error: " ++ msg
  | OtherLuaError d => d
  end.

#[export] Instance toy_lua : Mlua := {|
  vm := heap; table := nat; function := HostFunction; thread := program;
  lua_new := {[0%nat := ∅]}; globals := 0%nat;
  create_string s h := (h, inl s);
  create_table h := (<[next h := ∅]> h, inl (next h));
  create_function f h := (h, inl f);
  table_set t k x h := (store h t k x, inl tt);
  table_get t k h := (h, inl (look h t k));
  compile script _ := if bool_decide (script = B "bad") then inr (SyntaxError (B "src:1: unexpected symbol")) else inl tt;
  start := Running; resume := step; lua_error_text := text;
  fixed17 _ := B "0.5"; sha1_hex s := s; script_fuel := 64%nat |}.
End ToyLua.
