(* ===== verification/LuaProofs.v ===== *)
(** * What a script does to the store, and when it ends

    Whatever the interpreter does, a script reaches the store only through the
    commands of the executor that scripts may call, in the database of its
    connection; and the evaluation with fuel gives the result of every script
    that ends. *)

From S2P Require Import Prelude Text Resp SortedSet Value PubSub Keyspace Command CommandLogic.
From S2P Require Import EngineSteps CommandSteps CommandParser Executor ExecutorProofs LuaEngine.

Open Scope Z_scope.

Section lua_proofs.
Context {ZS : Type} `{SortedSet ZS} `{Layout} `{HashIter} `{F64Text} `{Random} `{CaseMap} `{Mlua}.

Abbreviation engine := (StorageEngine ZS).
Abbreviation value := (LuaValue table function).

(** ** The calls of a script *)

(** The text of an argument of redis.call, and of all of them. *)
Definition word_of (x : value) : option bytes :=
  match x with
  | LString s => if utf8_valid s then Some s else None
  | LInteger i => Some (show_i64 i)
  | LNumber d => Some (f64_display d)
  | _ => None
  end.
Definition words_of (args : list value) : option (list bytes) := mapM word_of args.

(** What redis.call (or redis.pcall) hands back to the script. *)
Definition answer_of_call (is_pcall : bool) (r : outcome RespFrame) (v : vm) : vm * (value + LuaError) :=
  match r with
  | Ok f => resp_frame_to_lua_value is_pcall f v
  | Err err => handle_command_error is_pcall (show_error err) v
  | Panic => (v, inl LNil)
  end.

(** A call that runs no command: its arguments are no command, or the command
    is refused to scripts. *)
Definition rejected (args : list value) : Prop :=
  match words_of args with
  | Some (name :: _) => is_Some (refused_in_scripts (to_uppercase name))
  | _ => True
  end.

(** A thread up to its end, through at most [fuel] calls: [calls] are the
    commands it ran.  A call runs the command that its arguments spell, if any,
    and the script goes on with the answer. *)
Inductive script_run (db : nat) : nat -> thread -> list (list bytes) -> World -> engine -> World -> engine -> Prop :=
  | run_cut t w e : script_run db 0 t [] w e w e
  | run_finished fuel t v r w e : resume t = Finished v r -> script_run db (S fuel) t [] w e w e
  | run_diverges fuel t w e : resume t = Diverges -> script_run db (S fuel) t [] w e w e
  | run_rejected fuel t is_pcall args v k msg calls w e w' e' :
      resume t = Calls is_pcall args v k -> rejected args ->
      script_run db fuel (k (handle_command_error is_pcall msg v).1 (handle_command_error is_pcall msg v).2) calls w e w' e' ->
      script_run db (S fuel) t calls w e w' e'
  | run_called fuel t is_pcall args v k name rest calls w e w1 e1 r w' e' :
      resume t = Calls is_pcall args v k -> words_of args = Some (name :: rest) ->
      refused_in_scripts (to_uppercase name) = None ->
      run_handler (execute_lua_command (name :: rest) db) w e = (w1, e1, r) -> r <> Panic ->
      script_run db fuel (k (answer_of_call is_pcall r v).1 (answer_of_call is_pcall r v).2) calls w1 e1 w' e' ->
      script_run db (S fuel) t ((name :: rest) :: calls) w e w' e'
  | run_panicked fuel t is_pcall args v k name rest w e w1 e1 :
      resume t = Calls is_pcall args v k -> words_of args = Some (name :: rest) ->
      refused_in_scripts (to_uppercase name) = None ->
      run_handler (execute_lua_command (name :: rest) db) w e = (w1, e1, Panic) ->
      script_run db (S fuel) t [name :: rest] w e w1 e1.

Lemma words_of_cons x args :
  words_of (x :: args) = match word_of x with Some s => option_map (cons s) (words_of args) | None => None end.
Proof. unfold words_of. simpl. destruct (word_of x); [|done]. simpl. by destruct (mapM word_of args). Qed.

Lemma command_words args : match command_arguments args with inl l => words_of args = Some l | inr _ => words_of args = None end.
Proof.
  induction args as [|x args IH]; [done|]. rewrite words_of_cons. cbn [command_arguments]. revert IH.
  destruct x as [| |i|d|s| | |]; try done; simpl.
  1,2: destruct (command_arguments args); intros IH; by rewrite IH.
  destruct (utf8_valid s); [|done]. destruct (command_arguments args); intros IH; by rewrite IH.
Qed.

Lemma lua_command_keeps words db : keeps steps (execute_lua_command (ZS := ZS) words db).
Proof. by apply (parsed_then_steps _ _ (fun p => mkParsedCommand (command p) (Some db))). Qed.

Lemma script_run_steps db fuel t calls w e w' e' : script_run db fuel t calls w e w' e' -> steps e e'.
Proof.
  assert (Hcmd : forall words w e w1 e1 r, run_handler (execute_lua_command words db) w e = (w1, e1, r) -> steps e e1).
  { intros words w0 e0 w1 e1 r E. pose proof (run_handler_state steps _ w0 e0 (lua_command_keeps words db)) as Hs. by rewrite E in Hs. }
  induction 1; [reflexivity..|done|etrans; [by eapply Hcmd|done]|by eapply Hcmd].
Qed.

Lemma run_thread_run fuel db : forall t w e,
  exists calls, script_run db fuel t calls w e (run_thread fuel db t w e).1.1 (run_thread fuel db t w e).1.2.
Proof.
  induction fuel as [|fuel IH]; intros t w e; cbn [run_thread]; [by eexists; apply run_cut|].
  destruct (resume t) as [v r|is_pcall args v k|] eqn:Hr; [by eexists; eapply run_finished| |by eexists; eapply run_diverges].
  unfold bind, execute_unified_redis_command. pose proof (command_words args) as Hw.
  assert (Hrej : forall msg, rejected args -> exists calls, script_run db (S fuel) t calls w e
      (run_thread fuel db (k (handle_command_error is_pcall msg v).1 (handle_command_error is_pcall msg v).2) w e).1.1
      (run_thread fuel db (k (handle_command_error is_pcall msg v).1 (handle_command_error is_pcall msg v).2) w e).1.2).
  { intros msg Hj. destruct (IH (k (handle_command_error is_pcall msg v).1 (handle_command_error is_pcall msg v).2) w e) as (calls & Hc).
    exists calls. by eapply run_rejected. }
  unfold rejected in Hrej. destruct (command_arguments args) as [[|name rest]|msg]; rewrite Hw in Hrej; [by apply Hrej| |by apply Hrej].
  destruct (refused_in_scripts (to_uppercase name)) as [msg|] eqn:Hf; [by apply Hrej|]. clear Hrej.
  destruct (run_handler (execute_lua_command (name :: rest) db) w e) as [[w1 e1] [f|err|]] eqn:E.
  - destruct (IH (k (resp_frame_to_lua_value is_pcall f v).1 (resp_frame_to_lua_value is_pcall f v).2) w1 e1) as (calls & Hc).
    eexists. by eapply run_called; [exact Hr|exact Hw|exact Hf|exact E|discriminate|exact Hc].
  - destruct (IH (k (handle_command_error is_pcall (show_error err) v).1 (handle_command_error is_pcall (show_error err) v).2) w1 e1) as (calls & Hc).
    eexists. by eapply run_called; [exact Hr|exact Hw|exact Hf|exact E|discriminate|exact Hc].
  - eexists. by eapply run_panicked.
Qed.

(** The interpreter of a script: its globals, then KEYS and ARGV. *)
Definition prepared (keys args : list bytes) : vm * (unit + LuaError) :=
  api_bind create_lua_context (fun _ => setup_keys_and_args keys args) lua_new.

Lemma eval_runs script keys args db w e :
  let r := (eval script keys args db w e).1 in
  match prepared keys args with
  | (v, inl _) => exists calls, script_run db script_fuel (start script v) calls w e r.1 r.2
  | (_, inr _) => r = (w, e)
  end.
Proof.
  unfold prepared, eval, api_bind. destruct (create_lua_context lua_new) as [v [u|err]]; [|done].
  cbn -[run_thread]. destruct (setup_keys_and_args keys args v) as [v1 [u1|err1]]; cbn -[run_thread]; [|done].
  unfold bind. destruct (run_thread_run script_fuel db (start script v1) w e) as (calls & Hc). exists calls.
  destruct (run_thread _ _ _ w e) as [[w1 e1] [[[v2 [x|err]]|]|f|err|]]; try done.
  by destruct (lua_value_to_resp _ _ _) as [[]|].
Qed.

Lemma eval_moves script keys args db w e : steps e (eval script keys args db w e).1.2.
Proof.
  pose proof (eval_runs script keys args db w e) as Hm. cbv zeta in Hm. destruct (eval script keys args db w e) as [[w' e'] r].
  destruct (prepared keys args) as [v [u|err]]; [destruct Hm as (calls & Hc); by eapply script_run_steps|]. by injection Hm as -> ->.
Qed.


(** ** The command EVAL *)

Lemma eval_keeps script keys args db : keeps steps (eval script keys args db).
Proof.
  intros w e. split; [|done]. apply eval_moves.
Qed.

Lemma text_arg_keeps parts i m1 m2 : keeps (S := engine) steps (text_arg parts i m1 m2).
Proof.
  eapply runs_bind; [exact _|by apply runs_keeps with (1 := runs_bulk_arg steps parts i m2)|]. intros b _.
  destruct (utf8_valid b); [by apply runs_ret; [exact _|]|apply runs_reply_error; exact _].
Qed.

Lemma num_keys_keeps parts : keeps (S := engine) steps (num_keys_arg parts).
Proof.
  eapply runs_bind; [exact _|by apply runs_keeps with (1 := runs_arg steps parts 2)|]. intros f _.
  destruct f as [| |n|[b|]| | | | | | |]; try (apply runs_reply_error; exact _).
  - destruct (n <? 0); [apply runs_reply_error; exact _|by apply runs_ret; [exact _|]].
  - destruct (utf8_valid b); [|apply runs_reply_error; exact _]. destruct (parse_u64 b); [by apply runs_ret; [exact _|]|apply runs_reply_error; exact _].
Qed.

Lemma eval_handler_keeps db parts : keeps (S := engine) steps (handle_eval_with_db db parts).
Proof.
  unfold handle_eval_with_db. eapply runs_bind; [exact _|apply runs_guard; exact _|]. intros _ _.
  eapply runs_bind; [exact _|apply text_arg_keeps|]. intros script _.
  eapply runs_bind; [exact _|apply num_keys_keeps|]. intros n _.
  eapply runs_bind; [exact _| |].
  { eapply runs_bind; [exact _|by apply (runs_try_op steps _ (fun _ => True)); [intros s; reflexivity|]|]. intros [ka|msg] _;
      [by apply (runs_ret steps ka (fun _ => True))|apply runs_reply_error; exact _]. }
  intros [keys args] _ w e. split; [|done].
  pose proof (eval_keeps script keys args db w e) as [Hs _]. by destruct (eval script keys args db w e) as [[w' e'] []].
Qed.

Lemma eval_command_keeps db parts : keeps (S := engine) steps (eval_command db parts).
Proof.
  intros w e. split; [|done]. unfold eval_command. pose proof (eval_handler_keeps db parts w e) as [Hs _].
  by destruct (handle_eval_with_db db parts w e) as [[w' e'] []].
Qed.

Lemma eval_steps : takes_steps (ZS := ZS) eval_command.
Proof. intros db parts. apply eval_command_keeps. Qed.

Lemma handle_eval_keeps parts : keeps (S := engine) steps (handle_eval parts).
Proof. apply eval_handler_keeps. Qed.

(** ** When a script ends *)

(** The thread ends after [n] calls with the result [res]. *)
Inductive ends (db : nat) : nat -> thread -> World -> engine -> World -> engine -> vm * (value + LuaError) -> Prop :=
  | ends_finished t v r w e : resume t = Finished v r -> ends db 0 t w e w e (v, r)
  | ends_call n t is_pcall args v k w e w1 e1 answer w2 e2 res :
      resume t = Calls is_pcall args v k ->
      execute_unified_redis_command is_pcall db args v w e = (w1, e1, Go answer) ->
      ends db n (k answer.1 answer.2) w1 e1 w2 e2 res ->
      ends db (S n) t w e w2 e2 res.

Lemma ends_runs db n t w e w' e' res fuel :
  ends db n t w e w' e' res -> (n < fuel)%nat -> run_thread fuel db t w e = (w', e', Go (Some res)).
Proof.
  intros He. revert fuel. induction He as [t v r w e Hr|n t p args v k w e w1 e1 answer w2 e2 res Hr Hx _ IH]; intros [|fuel] Hf; try lia;
    cbn [run_thread]; rewrite Hr; [done|]. unfold bind. rewrite Hx. apply IH. lia.
Qed.

Lemma runs_ends db fuel : forall t w e w' e' res,
  run_thread fuel db t w e = (w', e', Go (Some res)) -> exists n, (n < fuel)%nat /\ ends db n t w e w' e' res.
Proof.
  induction fuel as [|fuel IH]; intros t w e w' e' res; cbn [run_thread]; [done|].
  destruct (resume t) as [v r|is_pcall args v k|] eqn:Hr; [| |done].
  - intros [= <- <- <-]. exists 0%nat. split; [lia|by constructor].
  - unfold bind. destruct (execute_unified_redis_command _ _ _ _ w e) as [[w1 e1] [answer|f|err|]] eqn:Hx; try done.
    intros (n & Hn & He)%IH. exists (S n). split; [lia|by eapply ends_call].
Qed.

(** The fuel of the evaluation does not decide a result: a thread evaluated
    with any fuel gives a result exactly when it ends after fewer calls than
    that, and the store, the world and the result are then those at its end;
    more fuel gives the same. *)
Theorem script_ends (db fuel : nat) (t : thread) (w w' : World) (e e' : engine) (res : vm * (value + LuaError)) :
  (run_thread fuel db t w e = (w', e', Go (Some res)) <-> exists n, (n < fuel)%nat /\ ends db n t w e w' e' res)
  /\ (run_thread fuel db t w e = (w', e', Go (Some res)) ->
      forall more, (fuel <= more)%nat -> run_thread more db t w e = (w', e', Go (Some res))).
Proof.
  split.
  - split; [apply runs_ends|]. intros (n & Hn & He). by eapply ends_runs.
  - intros (n & Hn & He)%runs_ends more Hm. eapply ends_runs; [exact He|lia].
Qed.
End lua_proofs.

#[export] Hint Resolve eval_steps : handlers.
#[export] Hint Resolve handle_eval_keeps : keeps.
