(* ===== verification/LuaRelay.v ===== *)
(** * What a script that relays a reply answers

    A reply becomes a Lua value and the value becomes a reply again.  With the
    documented behaviour of tables and strings ([MluaSpec]) the way there and
    back is exact: text is made UTF-8, a status becomes a bulk string, an array
    ends before its first nil, and an empty array is nil. *)

From S2P Require Import Prelude Text Resp SortedSet Value PubSub Keyspace Command CommandParser Executor LuaEngine.
From S2P Require Import SkipList SortedSetImpl StreamId.

Open Scope Z_scope.

(** What mlua documents of strings, functions and tables, when memory does not
    run out: a new table is unlike those before it and empty, a field that was
    set is read back, and nothing else changes. *)
Class MluaSpec `{Mlua} := {
  live : vm -> table -> Prop;
  peek : vm -> table -> LuaKey -> LuaValue table function;
  spec_globals : live lua_new globals;
  spec_string s v : create_string s v = (v, inl s);
  spec_function f v : exists g, create_function f v = (v, inl g);
  spec_get t k v : table_get t k v = (v, inl (peek v t k));
  spec_table v : exists t v', create_table v = (v', inl t) /\ ~ live v t /\ live v' t /\ (forall k, peek v' t k = LNil)
    /\ forall t', live v t' -> live v' t' /\ forall k, peek v' t' k = peek v t' k;
  spec_set t k x v : live v t -> exists v', table_set t k x v = (v', inl tt) /\ peek v' t k = x
    /\ (forall k', k' <> k -> peek v' t k' = peek v t k')
    /\ (forall t', live v t' -> live v' t')
    /\ (forall t' k', t' <> t -> live v t' -> peek v' t' k' = peek v t' k');
}.

(** ** The frame that comes back *)

Fixpoint has_error (f : RespFrame) : bool :=
  match f with
  | Error _ => true
  | Array (Some l) => existsb has_error l
  | _ => false
  end.

(** The frames that are nil in a script. *)
Definition is_nil (f : RespFrame) : bool :=
  match f with
  | SimpleString _ | BulkString (Some _) | Integer _ | Array (Some _) => false
  | _ => true
  end.

Section items.
Variable relay : RespFrame -> RespFrame.

Fixpoint relay_items (l : list RespFrame) : list RespFrame :=
  match l with
  | [] => []
  | f :: l' => if is_nil f then [] else relay f :: relay_items l'
  end.
End items.

Fixpoint relay (f : RespFrame) : RespFrame :=
  match f with
  | SimpleString b | BulkString (Some b) => bulk_string (utf8_lossy b)
  | Integer n => Integer n
  | Array (Some l) =>
      match relay_items relay l with
      | [] => null_bulk
      | l' => Array (Some l')
      end
  | _ => null_bulk
  end.

(** The fuel that the result takes: one for each level and each element. *)
Section items_cost.
Variable cost : RespFrame -> nat.

Fixpoint items_cost (l : list RespFrame) : nat :=
  match l with
  | [] => 1%nat
  | f :: l' => S (Nat.max (cost f) (items_cost l'))
  end.
End items_cost.

Fixpoint cost (f : RespFrame) : nat :=
  match f with
  | Array (Some l) => S (items_cost cost l)
  | _ => 1%nat
  end.

Section relay.
Context `{MluaSpec} `{CaseMap} `{F64Text}.
Abbreviation value := (LuaValue table function).

Lemma array_to_lua p l :
  resp_frame_to_lua_value p (Array (Some l))
  = or_command_error p create_table (fun t => let% _ := set_elements (resp_frame_to_lua_value p) t 1 l in api_ret (LTable t)).
Proof. reflexivity. Qed.

(** Tables that were there are as they were. *)
Definition grows (v v' : vm) : Prop := forall t, live v t -> live v' t /\ forall k, peek v' t k = peek v t k.

(** The tables made between [v] and [v'] are in [v2] what they are in [v']. *)
Definition same_new (v v' v2 : vm) : Prop := forall t, ~ live v t -> live v' t -> forall k, peek v2 t k = peek v' t k.

Definition converts (v v' : vm) (x : value) (f : RespFrame) : Prop :=
  forall v2, same_new v v' v2 -> forall fuel, (cost f <= fuel)%nat -> lua_value_to_resp fuel x v2 = Some (v2, relay f).

Definition relayed (p : bool) (f : RespFrame) : Prop :=
  has_error f = false -> forall v, exists x v',
    resp_frame_to_lua_value p f v = (v', inl x) /\ grows v v' /\ (x = LNil <-> is_nil f = true) /\ converts v v' x f.

Lemma relayed_plain p f x :
  (forall v, resp_frame_to_lua_value p f v = (v, inl x)) -> (x = LNil <-> is_nil f = true) ->
  (forall fuel v, (1 <= fuel)%nat -> lua_value_to_resp fuel x v = Some (v, relay f)) -> cost f = 1%nat -> relayed p f.
Proof.
  intros Hx Hn Hr Hc _ v. exists x, v. split; [apply Hx|]. split; [done|]. split; [done|].
  intros v2 _ fuel Hf. apply Hr. lia.
Qed.

Ltac plain x := apply (relayed_plain _ _ x); [|done|intros [|fuel] v Hf; [lia|done]|done].

Lemma relayed_text p b f : relay f = bulk_string (utf8_lossy b) -> is_nil f = false -> cost f = 1%nat ->
  (forall v, resp_frame_to_lua_value p f v = lossy_string p b v) -> relayed p f.
Proof.
  intros Hr Hn Hc Hf. apply (relayed_plain _ _ (LString (utf8_lossy b))).
  - intros v. rewrite Hf. unfold lossy_string, or_command_error. by rewrite spec_string.
  - rewrite Hn. done.
  - intros [|fuel] v Hl; [lia|]. by rewrite Hr.
  - done.
Qed.

(** The elements of a new array, one after the other. *)
Lemma relayed_elements p l : Forall (relayed p) l -> existsb has_error l = false ->
  forall t i v, live v t -> exists v',
    set_elements (resp_frame_to_lua_value p) t i l v = (v', inl tt) /\ (forall t', live v t' -> live v' t')
    /\ (forall t' k, t' <> t -> live v t' -> peek v' t' k = peek v t' k)
    /\ (forall j, j < i \/ i + Z.of_nat (length l) <= j -> peek v' t (KIndex j) = peek v t (KIndex j))
    /\ forall v2, (forall k, peek v2 t k = peek v' t k) -> same_new v v' v2 ->
         peek v2 t (KIndex (i + Z.of_nat (length l))) = LNil ->
         forall fuel, (items_cost cost l <= fuel)%nat -> table_items fuel t i v2 = Some (v2, relay_items relay l).
Proof.
  induction 1 as [|f l Hf _ IH]; intros He t i v Hv; cbn [set_elements existsb length] in *.
  - exists v. split_and!; try done. intros v2 _ _ Hend [|fuel] Hl; simpl in *; [lia|].
    rewrite spec_get. rewrite Z.add_0_r in Hend. by rewrite Hend.
  - apply orb_false_iff in He as [Hef Hel].
    destruct (Hf Hef v) as (x & v1 & Ex & Hgrow & Hnil & Hconv).
    destruct (spec_set t (KIndex i) x v1 (proj1 (Hgrow t Hv))) as (v2 & Eset & Hset & Hother & Hlive & Hpeek).
    destruct (IH Hel t (i + 1) v2 (Hlive _ (proj1 (Hgrow t Hv)))) as (v' & Erest & Hlive' & Hpeek' & Hidx & Hread).
    assert (Hi : peek v' t (KIndex i) = x) by (rewrite Hidx by lia; done).
    exists v'. split_and!.
    + unfold api_bind. rewrite Ex. unfold set_element. by rewrite Eset.
    + intros t' Ht'. by apply Hlive', Hlive, Hgrow.
    + intros t' k Hne Ht'. destruct (Hgrow t' Ht') as [Hl1 Hp1]. rewrite Hpeek', Hpeek by auto. apply Hp1.
    + intros j Hj. rewrite Hidx by lia. rewrite Hother by (intros [= ->]; lia). apply Hgrow, Hv.
    + intros v3 Hsame Hnew Hend [|fuel] Hl; cbn [items_cost] in Hl; [lia|]. cbn [table_items relay_items]. rewrite spec_get, Hsame, Hi.
      destruct (is_nil f) eqn:En; [by rewrite (proj2 Hnil eq_refl)|].
      assert (Hx : x <> LNil) by (intros ->; by discriminate (proj1 Hnil eq_refl)).
      assert (Hcv : lua_value_to_resp fuel x v3 = Some (v3, relay f)).
      { apply Hconv; [|lia]. intros t' Hn Hl1 k. assert (Hne : t' <> t) by (intros ->; done).
        rewrite Hnew; [|done|by apply Hlive', Hlive]. rewrite Hpeek', Hpeek by auto. done. }
      assert (Hrest : table_items fuel t (i + 1) v3 = Some (v3, relay_items relay l)).
      { apply Hread; [done| |by replace (i + 1 + Z.of_nat (length l)) with (i + Z.of_nat (S (length l))) by lia|lia].
        intros t' Hn Hl' k. apply Hnew; [|done]. intros Hl0. apply Hn, Hlive, Hgrow, Hl0. }
      destruct x; try done; by rewrite Hcv, Hrest.
Qed.

Lemma relayed_array p l : Forall (relayed p) l -> relayed p (Array (Some l)).
Proof.
  intros Hl He v. rewrite array_to_lua.
  destruct (spec_table v) as (t & v0 & Et & Hfresh & Hlive & Hempty & Hold).
  destruct (relayed_elements p l Hl He t 1 v0 Hlive) as (v' & Eset & Hlive' & Hpeek & Hidx & Hread).
  exists (LTable t), v'. split_and!.
  - unfold or_command_error. rewrite Et. unfold api_bind. by rewrite Eset.
  - intros t' Ht'. destruct (Hold t' Ht') as [Hl0 Hp0]. split; [by apply Hlive'|]. intros k.
    rewrite Hpeek; [apply Hp0| |done]. by intros ->.
  - done.
  - intros v2 Hnew [|fuel] Hc; [simpl in Hc; lia|]. cbn [lua_value_to_resp].
    assert (Hsame : forall k, peek v2 t k = peek v' t k) by (apply Hnew; [done|by apply Hlive']).
    rewrite (Hread v2 Hsame); [by cbn [relay]; destruct (relay_items relay l)| | |].
    + intros t' Hn Hl'. apply Hnew; [|done]. intros Ht'. by apply Hn, Hold.
    + rewrite Hsame, Hidx by lia. apply Hempty.
    + cbn [cost] in Hc. lia.
Qed.

Lemma relayed_all p f : relayed p f.
Proof.
  induction f as [s|s|n|[s|]| |l Hl| | |b|d|ps _|l _] using frame_ind'; try (by plain (LNil : value)).
  - by apply (relayed_text _ s).
  - by intros [=].
  - plain (LInteger n : value). done.
  - by apply (relayed_text _ s).
  - by apply relayed_array.
Qed.

(** ** The globals *)

(** A use of the API that succeeds and keeps the tables there are. *)
Definition succeeds {A} (m : api A) (v : vm) (Q : A -> vm -> Prop) : Prop :=
  exists a v', m v = (v', inl a) /\ (forall t, live v t -> live v' t) /\ Q a v'.

Lemma succeeds_bind {A C} (m : api A) (k : A -> api C) v P Q :
  succeeds m v P -> (forall a v', (forall t, live v t -> live v' t) -> P a v' -> succeeds (k a) v' Q) -> succeeds (api_bind m k) v Q.
Proof.
  intros (a & v1 & Em & Hl & Hp) Hk. destruct (Hk a v1 Hl Hp) as (c & v2 & Ek & Hl2 & Hq).
  exists c, v2. split; [|by eauto]. unfold api_bind. by rewrite Em.
Qed.

Lemma succeeds_ret {A} (a : A) v (Q : A -> vm -> Prop) : Q a v -> succeeds (api_ret a) v Q.
Proof. intros Hq. by exists a, v. Qed.

Lemma succeeds_table v : succeeds create_table v (fun t v' => ~ live v t /\ live v' t /\ (forall k, peek v' t k = LNil) /\ grows v v').
Proof. destruct (spec_table v) as (t & v' & E & Hn & Hl & He & Hg). exists t, v'. split; [done|]. split; [apply Hg|done]. Qed.

Lemma succeeds_function f v : succeeds (create_function f) v (fun _ v' => v' = v).
Proof. destruct (spec_function f v) as (g & E). by exists g, v. Qed.

(** What setting one field does. *)
Definition updated (t : table) (k : LuaKey) (x : value) (v v' : vm) : Prop :=
  peek v' t k = x /\ (forall k', k' <> k -> peek v' t k' = peek v t k')
  /\ forall t' k', t' <> t -> live v t' -> peek v' t' k' = peek v t' k'.

Lemma succeeds_set t k x v : live v t -> succeeds (table_set t k x) v (fun _ v' => updated t k x v v').
Proof. intros Hl. destruct (spec_set t k x v Hl) as (v' & E & Hx & Ho & Hm & Hp). by exists tt, v'. Qed.

Lemma succeeds_weaken {A} (m : api A) v (P Q : A -> vm -> Prop) :
  succeeds m v P -> (forall a v', (forall t, live v t -> live v' t) -> P a v' -> Q a v') -> succeeds m v Q.
Proof. intros (a & v' & E & Hl & Hp) Hpq. exists a, v'. eauto. Qed.

Lemma remove_functions_succeeds v : live v globals -> succeeds remove_functions v (fun _ _ => True).
Proof.
  unfold remove_functions. generalize dangerous_functions. intros l. revert v.
  induction l as [|f l IH]; intros v Hg; [by apply succeeds_ret|].
  eapply succeeds_bind; [by apply succeeds_set|]. intros [] v' Hl _. apply IH, Hl, Hg.
Qed.

Lemma context_succeeds : succeeds create_lua_context lua_new (fun _ _ => True).
Proof.
  pose proof spec_globals as Hg. eapply succeeds_bind; [by apply remove_functions_succeeds|]. intros [] v1 L1 _.
  eapply succeeds_bind; [apply succeeds_table|]. intros t v2 L2 (_ & Ht & _).
  eapply succeeds_bind; [apply succeeds_function|]. intros g v3 _ ->.
  eapply succeeds_bind; [apply succeeds_function|]. intros g' v3 _ ->.
  eapply succeeds_bind; [by apply succeeds_set|]. intros [] v3 L3 _.
  eapply succeeds_bind; [apply succeeds_set; auto|]. intros [] v4 L4 _.
  eapply succeeds_weaken; [apply succeeds_set; auto|done].
Qed.

(** The strings at the indexes of a table. *)
Definition holds_strings (v : vm) (t : table) (l : list bytes) : Prop :=
  (forall i s, l !! i = Some s -> peek v t (KIndex (1 + Z.of_nat i)) = LString (utf8_lossy s))
  /\ peek v t (KIndex (1 + Z.of_nat (length l))) = LNil.

Definition global_strings (v : vm) (name : bytes) (l : list bytes) : Prop :=
  exists t, live v t /\ t <> globals /\ peek v globals (KName name) = LTable t /\ holds_strings v t l.

Definition globals_hold (v : vm) (keys args : list bytes) : Prop :=
  global_strings v (B "KEYS") keys /\ global_strings v (B "ARGV") args.

Lemma set_strings_succeeds t l : forall i v, live v t -> succeeds (set_strings t i l) v (fun _ v' =>
  (forall j s, l !! j = Some s -> peek v' t (KIndex (i + Z.of_nat j)) = LString (utf8_lossy s))
  /\ (forall j, j < i \/ i + Z.of_nat (length l) <= j -> peek v' t (KIndex j) = peek v t (KIndex j))
  /\ forall t' k, t' <> t -> live v t' -> peek v' t' k = peek v t' k).
Proof.
  induction l as [|s l IH]; intros i v Hv; cbn [set_strings]; [by apply succeeds_ret; split_and!|].
  eapply succeeds_bind; [by apply succeeds_set|]. intros [] v1 L1 (Hx & Ho & Hp).
  eapply succeeds_weaken; [apply (IH (i + 1) v1), L1, Hv|]. intros [] v2 _ (Hj & Hi & Ht). split_and!.
  - intros [|j] s' Hs; simpl in Hs.
    + injection Hs as <-. rewrite Z.add_0_r, Hi by lia. done.
    + replace (i + Z.of_nat (S j)) with (i + 1 + Z.of_nat j) by lia. by apply Hj.
  - intros j Hl. cbn [length] in Hl. rewrite Hi by lia. apply Ho. intros [= ->]. lia.
  - intros t' k Hne Hl. rewrite Ht by auto. by apply Hp.
Qed.

(** A table of strings under a global name; what was under other names stays. *)
Lemma string_table_succeeds {C} name l (rest : api C) v Q : live v globals ->
  (forall v', live v' globals -> global_strings v' name l ->
     (forall name' l', name' <> name -> global_strings v name' l' -> global_strings v' name' l') ->
     succeeds rest v' Q) ->
  succeeds (let% t := create_table in let% _ := set_strings t 1 l in let% _ := table_set globals (KName name) (LTable t) in rest) v Q.
Proof.
  intros Hg Hrest. eapply succeeds_bind; [apply succeeds_table|]. intros t v1 L1 (Hn & Ht & He & Hgrow).
  assert (Htg : t <> globals) by (by intros ->).
  eapply succeeds_bind; [by apply set_strings_succeeds|]. intros [] v2 L2 (Hj & Hi & Ho).
  eapply succeeds_bind; [apply succeeds_set; auto|]. intros [] v3 L3 (Hx & Hk & Hp). apply Hrest; [auto| |].
  - exists t. split; [auto|]. split; [done|]. split; [done|]. split.
    + intros i s Hs. rewrite Hp by auto. by apply Hj.
    + rewrite Hp, Hi by (auto || lia). apply He.
  - intros name' l' Hne (t' & Hl' & Hne' & Hname & Hs & Hend). assert (Htt : t' <> t) by (by intros ->).
    assert (Hsame : forall k, peek v3 t' k = peek v t' k).
    { intros k. rewrite Hp by auto. rewrite Ho by auto. by apply Hgrow. }
    exists t'. split; [auto|]. split; [done|]. split.
    + rewrite Hk by congruence. rewrite Ho by auto. rewrite (proj2 (Hgrow _ Hg)). done.
    + split; [intros i s Hi'; rewrite Hsame; by apply Hs|by rewrite Hsame].
Qed.

Lemma setup_succeeds keys args v : live v globals -> succeeds (setup_keys_and_args keys args) v (fun _ v' => globals_hold v' keys args).
Proof.
  intros Hg. unfold setup_keys_and_args. apply string_table_succeeds; [done|]. intros v1 Hg1 Hkeys _.
  assert (Hs : succeeds (let% argv_table := create_table in let% _ := set_strings argv_table 1 args in
    let% _ := table_set globals (KName (B "ARGV")) (LTable argv_table) in api_ret tt) v1 (fun _ v' => globals_hold v' keys args)).
  { apply string_table_succeeds; [done|]. intros v2 _ Hargs Hstay. apply succeeds_ret. split; [|done]. by apply Hstay. }
  destruct Hs as ([] & v' & E & Hl & Hq). exists tt, v'. split; [|done]. revert E. unfold api_bind.
  destruct (create_table v1) as [v2 [t|]]; [|done]. destruct (set_strings t 1 args v2) as [v3 [[]|]]; [|done].
  destruct (table_set _ _ _ v3) as [v4 [[]|]]; done.
Qed.
End relay.
