(* ===== verification/Slowlog.v ===== *)
(** * The slow log (src/storage/commands/slowlog.rs)

    A bounded list of the commands that took long, newest first, with ids that
    grow, and the SLOWLOG command.  The time of an entry and the duration of its
    command come from outside. *)

From S2P Require Import Prelude Text Resp Command.

Open Scope Z_scope.

Definition DEFAULT_SLOWLOG_MAX_LEN : Z := 128.
Definition DEFAULT_SLOWLOG_THRESHOLD_MICROS : Z := 10000.

Record SlowlogEntry := mkSlow {
  slow_id : Z;
  slow_timestamp : Z;
  duration_micros : Z;
  slow_command : list bytes;
  client_addr : bytes;
  slow_client_name : option bytes;
}.

Record Slowlog := mkSlowlog {
  slow_entries : list SlowlogEntry;  (** newest first *)
  max_len : Z;
  threshold_micros : Z;
  slow_next_id : Z;
}.

Definition slowlog_new : Slowlog := mkSlowlog [] DEFAULT_SLOWLOG_MAX_LEN DEFAULT_SLOWLOG_THRESHOLD_MICROS 1.

(** ** Entries *)

(** An argument of more than 64 bytes is cut. *)
Definition stored_argument (b : bytes) : bytes :=
  if (64 <? length b)%nat then take 64 b ++ B "... (truncated)" else b.

(** The bulk strings of a command; after the tenth a note takes the place of the rest. *)
Fixpoint stored_command (parts : list RespFrame) (command : list bytes) : list bytes :=
  match parts with
  | [] => command
  | part :: parts' =>
      let command' := match part with BulkString (Some b) => command ++ [stored_argument b] | _ => command end in
      if (10 <=? length command')%nat then command' ++ [B "... (more arguments)"] else stored_command parts' command'
  end.

(** [pop_back] until the length is at most [max]. *)
Definition trim_entries (max : Z) (l : list SlowlogEntry) : list SlowlogEntry := take (Z.to_nat max) l.

(** [seconds] is the system time. *)
Definition add_entry (seconds duration : Z) (parts : list RespFrame) (addr : bytes) (name : option bytes) (l : Slowlog) : Slowlog :=
  let entry := mkSlow (slow_next_id l) seconds duration (stored_command parts []) addr name in
  mkSlowlog (trim_entries (max_len l) (entry :: slow_entries l)) (max_len l) (threshold_micros l) (u64_wrap (slow_next_id l + 1)).

(** [duration] in nanoseconds. *)
Definition add_if_slow (seconds duration : Z) (parts : list RespFrame) (addr : bytes) (name : option bytes) (l : Slowlog) : Slowlog :=
  let micros := u64_wrap (duration / 1000) in
  if (0 <=? threshold_micros l) && (threshold_micros l <=? micros) then add_entry seconds micros parts addr name l else l.

(** ** Reading and settings *)

Definition get_entries (count : option Z) (l : Slowlog) : list SlowlogEntry :=
  match count with Some n => take (Z.to_nat n) (slow_entries l) | None => slow_entries l end.

Definition slow_len (l : Slowlog) : Z := Z.of_nat (length (slow_entries l)).

Definition slow_reset (l : Slowlog) : Slowlog := mkSlowlog [] (max_len l) (threshold_micros l) (slow_next_id l).

Definition get_max_len (l : Slowlog) : Z := max_len l.

Definition set_max_len (n : Z) (l : Slowlog) : Slowlog :=
  mkSlowlog (trim_entries n (slow_entries l)) n (threshold_micros l) (slow_next_id l).

Definition get_threshold_micros (l : Slowlog) : Z := threshold_micros l.

Definition set_threshold_micros (n : Z) (l : Slowlog) : Slowlog := mkSlowlog (slow_entries l) (max_len l) n (slow_next_id l).

(** ** SLOWLOG *)

Definition entry_frame (x : SlowlogEntry) : RespFrame :=
  Array (Some [Integer (i64_wrap (slow_id x)); Integer (i64_wrap (slow_timestamp x)); Integer (i64_wrap (duration_micros x));
               Array (Some (map bulk_string (slow_command x))); bulk_string (client_addr x);
               bulk_string (default [] (slow_client_name x))]).

Definition handle_slowlog_get (parts : list RespFrame) : cmd Slowlog RespFrame :=
  let answer count := fun w l => (w, l, Go (Array (Some (map entry_frame (get_entries count l))))) in
  if (3 <=? length parts)%nat then
    let* n := parsed_arg parse_u64 parts 2 not_an_integer (B "ERR invalid count format") in answer (Some n)
  else answer None.

Definition handle_slowlog_len : cmd Slowlog RespFrame := fun w l => (w, l, Go (Integer (i64_wrap (slow_len l)))).

Definition handle_slowlog_reset : cmd Slowlog RespFrame := fun w l => (w, slow_reset l, Go ok).

Definition handle_slowlog `{CaseMap} (parts : list RespFrame) : cmd Slowlog RespFrame :=
  let* _ := guard (length parts <? 2)%nat (wrong_arity (B "slowlog")) in
  let* b := bulk_arg parts 1 (B "ERR invalid subcommand format") in
  let subcommand := to_uppercase b in
  if bool_decide (subcommand = B "GET") then handle_slowlog_get parts
  else if bool_decide (subcommand = B "LEN") then handle_slowlog_len
  else if bool_decide (subcommand = B "RESET") then handle_slowlog_reset
  else reply_error (B "ERR Unknown subcommand or wrong number of arguments for SLOWLOG").

(** ** The log is the newest slow commands *)

(** What happens to a log. *)
Inductive slow_event :=
  | SlowCommand (seconds duration : Z) (parts : list RespFrame) (addr : bytes) (name : option bytes)
  | SlowReset
  | SlowMaxLen (n : Z)
  | SlowThreshold (n : Z).

Definition slow_step (l : Slowlog) (x : slow_event) : Slowlog :=
  match x with
  | SlowCommand seconds duration parts addr name => add_if_slow seconds duration parts addr name l
  | SlowReset => slow_reset l
  | SlowMaxLen n => set_max_len n l
  | SlowThreshold n => set_threshold_micros n l
  end.

(** The unbounded history: every entry since the last reset, newest first, with
    the smallest bound there was since an entry was made. *)
Definition slow_history (l : Slowlog) (x : slow_event) (h : list SlowlogEntry) : list SlowlogEntry :=
  match x with
  | SlowCommand seconds duration parts addr name =>
      let micros := u64_wrap (duration / 1000) in
      if (0 <=? threshold_micros l) && (threshold_micros l <=? micros)
      then mkSlow (slow_next_id l) seconds micros (stored_command parts []) addr name :: h else h
  | SlowReset => []
  | _ => h
  end.

Fixpoint slow_runs (l : Slowlog) (h : list SlowlogEntry) (events : list slow_event) : Slowlog * list SlowlogEntry :=
  match events with
  | [] => (l, h)
  | x :: events' => slow_runs (slow_step l x) (slow_history l x h) events'
  end.

Definition max_len_kept (x : slow_event) : bool := match x with SlowMaxLen _ => false | _ => true end.

Definition ids_from (n : Z) (l : list SlowlogEntry) : Prop :=
  forall i x, l !! i = Some x -> slow_id x = n - 1 - Z.of_nat i.

Definition stored_size_ok (x : SlowlogEntry) : Prop :=
  (length (slow_command x) <= 11)%nat /\ Forall (fun b => (length b <= 79)%nat) (slow_command x).

Lemma stored_argument_short b : (length (stored_argument b) <= 79)%nat.
Proof.
  unfold stored_argument. destruct (Nat.ltb_spec 64 (length b)); [|lia].
  rewrite length_app, length_take. change (length (B "... (truncated)")) with 15%nat. lia.
Qed.

Lemma stored_command_bounded parts : forall command,
  (length command < 10)%nat -> Forall (fun b => (length b <= 79)%nat) command ->
  (length (stored_command parts command) <= 11)%nat /\ Forall (fun b => (length b <= 79)%nat) (stored_command parts command).
Proof.
  induction parts as [|part parts IH]; intros command Hl Hb; cbn [stored_command]; [split; [lia|done]|]. cbv zeta.
  set (command' := match part with BulkString (Some b) => _ | _ => command end).
  assert (Hc : (length command' <= 10)%nat /\ Forall (fun b => (length b <= 79)%nat) command').
  { subst command'. destruct part as [| | |[b|]| | | | | | |]; try (split; [lia|done]).
    rewrite length_app. split; [simpl; lia|]. apply Forall_app_2; [done|]. apply Forall_singleton, stored_argument_short. }
  destruct Hc as [Hl' Hb']. destruct (Nat.leb_spec 10 (length command')).
  - rewrite length_app. split; [simpl; lia|]. apply Forall_app_2; [done|]. apply Forall_singleton. vm_compute. lia.
  - by apply IH.
Qed.

Record slow_inv (l : Slowlog) (h : list SlowlogEntry) : Prop := {
  inv_prefix : slow_entries l `prefix_of` h;
  inv_bound : (length (slow_entries l) <= Z.to_nat (max_len l))%nat;
  inv_size : Forall stored_size_ok (slow_entries l);
  inv_ids : ids_from (slow_next_id l) (slow_entries l);
}.

Lemma prefix_take {A} n (l h : list A) : l `prefix_of` h -> take n l `prefix_of` h.
Proof. intros Hl. etrans; [|exact Hl]. exists (drop n l). by rewrite take_drop. Qed.

Lemma ids_take next n l : ids_from next l -> ids_from next (take n l).
Proof. intros Hl i x. rewrite lookup_take_Some. intros [Hx _]. by apply Hl. Qed.

Lemma slow_step_inv l h x : slow_inv l h -> 1 <= slow_next_id l < u64_max ->
  slow_inv (slow_step l x) (slow_history l x h) /\ slow_next_id l <= slow_next_id (slow_step l x) <= slow_next_id l + 1.
Proof.
  intros [Hp Hb Hs Hi] Hn. destruct x as [seconds duration parts addr name| |n|n]; cbn [slow_step slow_history].
  - unfold add_if_slow. destruct (_ && _); [|split; [done|lia]].
    unfold add_entry, trim_entries. set (entry := mkSlow _ _ _ _ _ _). cbn [slow_next_id]. unfold u64_wrap.
    rewrite Z.mod_small by (unfold u64_max in Hn; lia). split; [|lia]. split; cbn [slow_entries max_len slow_next_id].
    + apply prefix_take. by apply prefix_cons.
    + rewrite length_take. lia.
    + apply Forall_take. constructor; [|done]. unfold stored_size_ok. subst entry. cbn [slow_command].
      apply stored_command_bounded; [simpl; lia|constructor].
    + apply ids_take. intros [|i] y Hy; simpl in Hy; [injection Hy as <-; simpl; lia|]. rewrite (Hi i y Hy). lia.
  - split; [|simpl; lia]. split; cbn [slow_reset slow_entries max_len slow_next_id]; [apply prefix_nil|simpl; lia|constructor|by intros i y].
  - split; [|simpl; lia]. split; cbn [set_max_len slow_entries max_len slow_next_id]; unfold trim_entries;
      [by apply prefix_take|rewrite length_take; lia|by apply Forall_take|by apply ids_take].
  - split; [|simpl; lia]. by split.
Qed.

Lemma slow_runs_inv events : forall l h, slow_inv l h -> 1 <= slow_next_id l -> slow_next_id l + Z.of_nat (length events) <= u64_max ->
  slow_inv (slow_runs l h events).1 (slow_runs l h events).2.
Proof.
  induction events as [|x events IH]; intros l h Hl Hn Hm; cbn [slow_runs length] in *; [done|].
  destruct (slow_step_inv l h x Hl) as [Hl' Hn']; [lia|]. apply IH; [done|lia..].
Qed.

(** As long as the bound does not move, the log is the newest entries of the history. *)
Lemma slow_runs_take events : forall l h, forallb max_len_kept events = true ->
  slow_entries l = take (Z.to_nat (max_len l)) h ->
  let r := slow_runs l h events in slow_entries r.1 = take (Z.to_nat (max_len l)) r.2 /\ max_len r.1 = max_len l.
Proof.
  induction events as [|x events IH]; intros l h He Hl; cbn [slow_runs]; [done|]. simpl in He. apply andb_prop in He as [Hx He].
  assert (Hs : slow_entries (slow_step l x) = take (Z.to_nat (max_len (slow_step l x))) (slow_history l x h)
               /\ max_len (slow_step l x) = max_len l).
  { destruct x as [seconds duration parts addr name| |n|n]; try done.
    - simpl. unfold add_if_slow. destruct (_ && _); [|done]. cbn. split; [|done]. unfold trim_entries. rewrite Hl.
      destruct (Z.to_nat (max_len l)) as [|k]; [done|]. simpl. f_equal. rewrite take_take. f_equal. lia.
    - simpl. by rewrite take_nil. }
  destruct Hs as [Hs Hm]. destruct (IH _ _ He Hs) as [H1 H2]. cbv zeta. by rewrite H1, Hm, H2, Hm.
Qed.

(** The slow log through any sequence of commands, resets and settings: it
    never holds more entries than its bound, it is a run of the newest entries
    of the history since the last reset, their ids count down by one from the
    last id given, and an entry stores at most eleven words of at most 79
    bytes.  As long as the bound is not changed, it holds exactly the newest
    128 entries of the history: those of the commands that took at least the
    threshold of their time. *)
Theorem slowlog_exact (events : list slow_event) (Hfew : Z.of_nat (length events) < u64_max) :
  let '(l, h) := slow_runs slowlog_new [] events in
  slow_entries l `prefix_of` h /\ (length (slow_entries l) <= Z.to_nat (max_len l))%nat
  /\ Forall stored_size_ok (slow_entries l) /\ ids_from (slow_next_id l) (slow_entries l)
  /\ (forallb max_len_kept events = true -> slow_entries l = take 128 h).
Proof.
  pose proof (slow_runs_inv events slowlog_new []) as Hi. pose proof (slow_runs_take events slowlog_new []) as Ht.
  destruct (slow_runs slowlog_new [] events) as [l h]. destruct Hi as [H1 H2 H3 H4].
  - split; [apply prefix_nil|simpl; lia|constructor|by intros i y].
  - simpl. lia.
  - simpl. lia.
  - split_and!; [done..|]. intros He. exact (proj1 (Ht He eq_refl)).
Qed.

(** Three commands of which one is fast, and a bound of one. *)
Lemma slowlog_exact_witness :
  let slow n := SlowCommand n 20000000 [bulk_string (B "KEYS"); bulk_string (B "*")] (B "127.0.0.1:5000") None in
  let events := [slow 1; SlowCommand 2 500 [bulk_string (B "PING")] (B "127.0.0.1:5000") None; slow 3] in
  let r := slow_runs slowlog_new [] events in
  map slow_id (slow_entries r.1) = [2; 1] /\ slow_entries r.1 = take 128 r.2
  /\ map slow_id (slow_entries (slow_runs slowlog_new [] (events ++ [SlowMaxLen 1])).1) = [2].
Proof.
  intros slow events r. split; [vm_compute; reflexivity|]. split; [|vm_compute; reflexivity].
  pose proof (slowlog_exact events) as Hs. unfold r. destruct (slow_runs slowlog_new [] events) as [l h].
  apply Hs; [vm_compute; reflexivity|reflexivity].
Defined.
