(* ===== verification/AdminCommands.v ===== *)
(** * Commands about the server itself

    COMMAND (src/network/admin_commands.rs), CONFIG
    (src/storage/commands/config.rs) and MEMORY (src/storage/commands/memory.rs). *)

From S2P Require Import Prelude Text Resp SortedSet Value PubSub Keyspace ListOps SetOps ZSetOps Command CollectionCommands StringCommands.

Open Scope Z_scope.

(** ** COMMAND *)

Definition cmd_info (name : bytes) (arity : Z) (flags : list bytes) (first last step : Z) : RespFrame :=
  Array (Some [bulk_string name; Integer arity; Array (Some (map simple_string flags)); Integer first; Integer last; Integer step]).

Definition essential_commands : list RespFrame :=
  [cmd_info (B "ping") (-1) [B "stale"; B "fast"] 0 0 1;
   cmd_info (B "command") 0 [B "loading"; B "stale"] 0 0 1;
   cmd_info (B "info") (-1) [B "loading"; B "stale"] 0 0 1;
   cmd_info (B "set") (-3) [B "write"; B "denyoom"] 1 1 1;
   cmd_info (B "get") 2 [B "readonly"; B "fast"] 1 1 1;
   cmd_info (B "del") (-2) [B "write"] 1 (-1) 1;
   cmd_info (B "exists") (-2) [B "readonly"; B "fast"] 1 (-1) 1;
   cmd_info (B "expire") 3 [B "write"; B "fast"] 1 1 1;
   cmd_info (B "ttl") 2 [B "readonly"; B "fast"] 1 1 1;
   cmd_info (B "type") 2 [B "readonly"; B "fast"] 1 1 1;
   cmd_info (B "shutdown") (-1) [B "admin"; B "noscript"; B "no_async_loading"] 0 0 1;
   cmd_info (B "lpush") (-3) [B "write"; B "denyoom"; B "fast"] 1 1 1;
   cmd_info (B "rpush") (-3) [B "write"; B "denyoom"; B "fast"] 1 1 1;
   cmd_info (B "lpop") (-2) [B "write"; B "fast"] 1 1 1;
   cmd_info (B "rpop") (-2) [B "write"; B "fast"] 1 1 1;
   cmd_info (B "llen") 2 [B "readonly"; B "fast"] 1 1 1;
   cmd_info (B "lrange") 4 [B "readonly"] 1 1 1;
   cmd_info (B "eval") (-3) [B "noscript"; B "movablekeys"] 0 0 1;
   cmd_info (B "evalsha") (-3) [B "noscript"; B "movablekeys"] 0 0 1;
   cmd_info (B "script") (-2) [B "noscript"] 0 0 1].

Definition build_essential_commands_response : RespFrame := Array (Some essential_commands).

(** The commands that COMMAND INFO knows. *)
Definition known_commands : list (bytes * RespFrame) :=
  [(B "ping", cmd_info (B "ping") (-1) [B "stale"; B "fast"] 0 0 1);
   (B "command", cmd_info (B "command") 0 [B "loading"; B "stale"] 0 0 1);
   (B "set", cmd_info (B "set") (-3) [B "write"; B "denyoom"] 1 1 1);
   (B "get", cmd_info (B "get") 2 [B "readonly"; B "fast"] 1 1 1);
   (B "del", cmd_info (B "del") (-2) [B "write"] 1 (-1) 1);
   (B "exists", cmd_info (B "exists") (-2) [B "readonly"; B "fast"] 1 (-1) 1);
   (B "lpush", cmd_info (B "lpush") (-3) [B "write"; B "denyoom"; B "fast"] 1 1 1);
   (B "lpop", cmd_info (B "lpop") (-2) [B "write"; B "fast"] 1 1 1);
   (B "lrange", cmd_info (B "lrange") 4 [B "readonly"] 1 1 1);
   (B "eval", cmd_info (B "eval") (-3) [B "noscript"; B "movablekeys"] 0 0 1);
   (B "shutdown", cmd_info (B "shutdown") (-1) [B "admin"; B "noscript"] 0 0 1)].

Definition get_command_info `{CaseMap} (cmd_name : bytes) : RespFrame :=
  match List.find (fun p => bool_decide (p.1 = to_lowercase cmd_name)) known_commands with
  | Some (_, f) => f
  | None => null_bulk
  end.

Definition command_info_of `{CaseMap} (f : RespFrame) : RespFrame :=
  match f with
  | BulkString (Some b) => if utf8_valid b then get_command_info b else null_bulk
  | _ => null_bulk
  end.

Definition handle_command `{CaseMap} (parts : list RespFrame) : outcome RespFrame :=
  if (length parts =? 1)%nat then Ok build_essential_commands_response
  else
    match parts !! 1%nat with
    | None => Panic
    | Some f =>
        match f with
        | BulkString (Some subcommand) =>
            if negb (utf8_valid subcommand) then Ok (error (B "ERR invalid subcommand"))
            else if bool_decide (to_lowercase subcommand = B "count") then Ok (Integer 114)
            else if bool_decide (to_lowercase subcommand = B "info") then
              if (length parts <? 3)%nat then Ok (error (wrong_arity (B "command info")))
              else Ok (Array (Some (map command_info_of (drop 2 parts))))
            else Ok (error (quoted (B "ERR unknown subcommand '") subcommand (B "'")))
        | _ => Ok (error (B "ERR invalid subcommand format"))
        end
    end.

(** ** CONFIG *)

Definition save_points : bytes := B "900 1 300 10 60 10000".

Definition config_pair (name v : bytes) : RespFrame := Array (Some [from_string name; from_string v]).

Definition generate_all_configs : RespFrame :=
  Array (Some (map from_string
    [B "save"; save_points; B "appendonly"; B "no"; B "maxmemory"; B "0"; B "maxmemory-policy"; B "noeviction";
     B "timeout"; B "0"; B "tcp-keepalive"; B "300"; B "databases"; B "16"])).

(** The answers are fixed: the configuration of the server is not looked at. *)
Definition handle_config_get `{CaseMap} (param : bytes) : RespFrame :=
  let p := to_lowercase param in
  if bool_decide (param = B "*") then generate_all_configs
  else if bool_decide (p = B "save") then config_pair (B "save") save_points
  else if bool_decide (p = B "appendonly") then config_pair (B "appendonly") (B "no")
  else if bool_decide (p = B "maxmemory") then config_pair (B "maxmemory") (B "0")
  else if bool_decide (p = B "maxmemory-policy") then config_pair (B "maxmemory-policy") (B "noeviction")
  else if bool_decide (p = B "timeout") then config_pair (B "timeout") (B "0")
  else if bool_decide (p = B "databases") then config_pair (B "databases") (B "16")
  else Array (Some []).

Definition handle_config {S} `{CaseMap} (parts : list RespFrame) : cmd S RespFrame :=
  let* _ := guard (length parts <? 2)%nat (wrong_arity (B "config")) in
  let* b := bulk_arg parts 1 (B "ERR invalid subcommand format") in
  let subcommand := to_uppercase b in
  if bool_decide (subcommand = B "GET") then
    let* _ := guard (length parts <? 3)%nat (wrong_arity (B "config get")) in
    let* param := bulk_arg parts 2 (B "ERR invalid parameter format") in
    ret (handle_config_get (utf8_lossy param))
  else if bool_decide (subcommand = B "SET") then reply_error (B "ERR CONFIG SET not supported")
  else if bool_decide (subcommand = B "RESETSTAT") then reply_error (B "ERR CONFIG RESETSTAT not supported")
  else if bool_decide (subcommand = B "REWRITE") then reply_error (B "ERR CONFIG REWRITE not supported")
  else reply_error (B "ERR CONFIG command not supported").

(** ** MEMORY *)

Section memory.
Context {ZS : Type} `{SortedSet ZS} `{Layout} `{HashIter}.

Abbreviation engine := (StorageEngine ZS).

(** [if let Ok(a) = op { .. }] *)
Definition if_ok {A} (op : engine -> engine * outcome A) (k : A -> cmd engine Z) : cmd engine Z :=
  let* r := catch_op op in
  match r with inl a => k a | inr _ => ret 0 end.

(** A list by the average of three of its elements. *)
Definition list_usage (db : nat) (key : bytes) : cmd engine Z :=
  if_ok (fun e => llen e db key) (fun len =>
    if len <=? 0 then ret 0
    else
      let* (size, count) := for_each [0; len / 2; len - 1] (fun pos acc =>
        let* r := catch_op (fun e => lindex e db key pos) in
        match r with
        | inl (Some item) => ret (acc.1 + calculate_size item, acc.2 + 1)
        | _ => ret acc
        end) (0, 0) in
      ret ((if 0 <? count then size / count else 0) * len + size_deque)).

(** A set by at most ten members, whose sizes are divided by the number of all. *)
Definition set_usage (db : nat) (key : bytes) : cmd engine Z :=
  if_ok (fun e => scard e db key) (fun n =>
    if n <=? 0 then ret 0
    else
      if_ok (fun e => smembers e db key) (fun members =>
        let member_size := sum_sizes (take (Z.to_nat (Z.min n 10)) members) in
        let len := Z.of_nat (length members) in
        ret ((if 0 <? len then member_size / len else 0) * n + size_hash_set))).

Definition hash_usage (db : nat) (key : bytes) : cmd engine Z :=
  if_ok (fun e => hlen e db key) (fun n =>
    if n <=? 0 then ret 0
    else if_ok (fun e => hgetall e db key) (fun pairs => ret (sum_sizes (concat (map (fun p => [p.1; p.2]) pairs)) + size_hash_map))).

Definition zset_usage (db : nat) (key : bytes) : cmd engine Z :=
  if_ok (fun e => zrange e db key 0 (-1) false) (fun range =>
    ret (sum_sizes (map fst range) + 8 * Z.of_nat (length range) + size_skip_list)).

Definition string_usage (db : nat) (key : bytes) : cmd engine Z :=
  let* t := now in
  if_ok (fun e => get_string t e db key) (fun v =>
    match v with Some b => ret (calculate_size b + size_value) | None => ret 0 end).

Definition value_usage (ty : bytes) (db : nat) (key : bytes) : cmd engine Z :=
  if bool_decide (ty = B "string") then string_usage db key
  else if bool_decide (ty = B "list") then list_usage db key
  else if bool_decide (ty = B "set") then set_usage db key
  else if bool_decide (ty = B "hash") then hash_usage db key
  else if bool_decide (ty = B "zset") then zset_usage db key
  else ret 0.

Definition calculate_key_memory_usage (db : nat) (key : bytes) : cmd engine Z :=
  let* ty := try_op (fun e => key_type e db key) in
  let* n := value_usage ty db key in
  ret (calculate_size key + n + size_stored).

Definition handle_memory_usage (parts : list RespFrame) (db : nat) : cmd engine RespFrame :=
  let* _ := guard (length parts <? 3)%nat (wrong_arity (B "memory usage")) in
  let* key := bulk_arg parts 2 bad_key in
  let* t := now in
  let* present := try_op (fun e => key_exists t e db key) in
  if negb present then ret null_bulk
  else let* n := calculate_key_memory_usage db key in ret (Integer (i64_wrap n)).

(** [if let Ok(usage) = calculate_key_memory_usage(..)] *)
Definition usage_of (db : nat) (key : bytes) : cmd engine (option Z) := fun w e =>
  match calculate_key_memory_usage db key w e with
  | (w', e', Go n) => (w', e', Go (Some n))
  | (w', e', Fail _) => (w', e', Go None)
  | (w', e', Reply f) => (w', e', Reply f)
  | (w', e', Crash) => (w', e', Crash)
  end.

(** For every database whose keys can be listed. *)
Definition for_databases {A} (body : nat -> list bytes -> A -> cmd engine A) (acc : A) : cmd engine A :=
  let* n := try_op (reads (fun e => Ok (database_count e))) in
  for_each (seq 0 n) (fun db acc =>
    let* r := catch_op (reads (fun e => get_all_keys e db)) in
    match r with inl keys => body db keys acc | inr _ => ret acc end) acc.

Definition db_name (db : nat) (field : bytes) : bytes := B "db" ++ show_u64 (Z.of_nat db) ++ field.

Definition memory_usage_of : cmd engine Z := try_op (reads (fun e => Ok (used_memory (memory_manager e)))).

Definition handle_memory_stats : cmd engine RespFrame :=
  let* total := memory_usage_of in
  let start := [(B "total.allocated", show_u64 total); (B "mem_fragmentation_ratio", B "1.0"); (B "allocator", B "rust-memory")] in
  let* stats := for_databases (fun db keys stats =>
    let* size := for_each keys (fun key size =>
      let* u := usage_of db key in ret (match u with Some n => size + n | None => size end)) 0 in
    ret (stats ++ [(db_name db (B ".overhead"), show_u64 size); (db_name db (B ".keys"), show_u64 (Z.of_nat (length keys)))])) start in
  ret (Array (Some (concat (map (fun p => [from_string p.1; from_string p.2]) stats)))).

(** The place of a new element among elements in decreasing order, after its
    equals: what the stable sort makes of it at the end. *)
Fixpoint insert_by_size (x : nat * bytes * Z) (l : list (nat * bytes * Z)) : list (nat * bytes * Z) :=
  match l with
  | [] => [x]
  | y :: l' => if y.2 <? x.2 then x :: l else y :: insert_by_size x l'
  end.

Definition largest_keys : cmd engine (list (nat * bytes * Z)) :=
  for_databases (fun db keys largest =>
    for_each keys (fun key largest =>
      let* u := usage_of db key in
      ret (take 10 (match u with Some n => insert_by_size (db, key, n) largest | None => largest end))) largest) [].

Definition newline : bytes := [byte_of 10].

Definition key_line (x : nat * bytes * Z) : cmd engine bytes :=
  let '(db, key, size) := x in
  let* r := catch_op (fun e => key_type e db key) in
  let ty := match r with inl ty => ty | inr _ => B "unknown" end in
  ret (B "db=" ++ show_u64 (Z.of_nat db) ++ B " key='" ++ utf8_lossy key ++ B "' type=" ++ ty ++ B " size=" ++ show_u64 size
       ++ B " bytes" ++ newline).

Definition handle_memory_doctor : cmd engine RespFrame :=
  let* total := memory_usage_of in
  let head := B "Memory usage: " ++ show_u64 total ++ B " bytes" ++ newline in
  let* largest := largest_keys in
  let* lines :=
    match largest with
    | [] => ret []
    | _ => for_each largest (fun x text => let* line := key_line x in ret (text ++ line)) (newline ++ B "Largest keys found:" ++ newline)
    end in
  ret (from_string (head ++ lines
    ++ newline ++ B "Memory efficiency tips:" ++ newline
    ++ B "1. Use EXPIRE for temporary keys" ++ newline
    ++ B "2. Use MEMORY USAGE to identify large keys" ++ newline
    ++ B "3. Consider using smaller key names to save memory" ++ newline)).

Definition handle_memory_help : RespFrame :=
  from_string (B "MEMORY USAGE <key> - Report the memory usage in bytes of a key and its value" ++ newline
    ++ B "MEMORY STATS - Report memory usage statistics" ++ newline
    ++ B "MEMORY DOCTOR - Report about memory problems and provide recommendations" ++ newline
    ++ B "MEMORY HELP - Show this help").

Definition handle_memory `{CaseMap} (db : nat) (parts : list RespFrame) : cmd engine RespFrame :=
  let* _ := guard (length parts <? 2)%nat (wrong_arity (B "memory")) in
  let* b := bulk_arg parts 1 (B "ERR invalid subcommand format") in
  let subcommand := to_uppercase b in
  if bool_decide (subcommand = B "USAGE") then handle_memory_usage parts db
  else if bool_decide (subcommand = B "STATS") then handle_memory_stats
  else if bool_decide (subcommand = B "DOCTOR") then handle_memory_doctor
  else if bool_decide (subcommand = B "HELP") then ret handle_memory_help
  else reply_error (quoted (B "ERR Unknown subcommand or wrong number of arguments for 'memory ") subcommand (B "'")).
End memory.
