(* ===== verification/Config.v ===== *)
(** * The configuration (src/config/mod.rs, parser.rs, cli.rs and src/main.rs)

    The settings with their defaults, the configuration file, the command line
    and how the two are put together before a server is made of them.

    A file is what a read of its path gives ([None] when it cannot be opened).
    A command line that ends the process gives its exit code. *)

From S2P Require Import Prelude Text Resp Value Command.

Open Scope Z_scope.

(** ** The settings *)

Record NetworkConfig := mkNetwork {
  bind_addr : bytes;
  port : Z;
  max_clients : Z;
  tcp_backlog : Z;
  net_timeout : Z;
  tcp_keepalive : option Z;
  net_password : option bytes;
}.

Inductive LogLevel := LogDebug | LogVerbose | LogNotice | LogWarning.

Record ServerConfig := mkServerConfig {
  proc_title : bytes;
  databases_wanted : Z;
  daemonize : bool;
  log_level : LogLevel;
  log_file : bytes;
  pid_file : option bytes;
  show_logo : bool;
}.

Record RdbConfig := mkRdbConfig {
  auto_save : bool;
  save_rules : list (Z * Z);
  compress_strings : bool;
  rdb_filename : bytes;
  rdb_dir : bytes;
}.

Inductive FsyncPolicy := FsyncAlways | FsyncEverySecond | FsyncNo.

Record AofConfig := mkAofConfig {
  aof_enabled : bool;
  fsync_policy : FsyncPolicy;
  aof_filename : bytes;
  aof_dir : bytes;
  auto_rewrite_percentage : Z;
  auto_rewrite_min_size : Z;
}.

Record ReplicationConfig := mkReplicationConfig {
  backlog_size : Z;
  repl_timeout : Z;
  ping_replica_period : Z;
  diskless_sync : bool;
  master_host : option bytes;
  master_port : option Z;
}.

Record MemoryConfig := mkMemoryConfig {
  config_max_memory : Z;
  max_memory_policy : EvictionPolicy;
  max_memory_samples : Z;
}.

Record MonitoringConfig := mkMonitoringConfig {
  slowlog_enabled : bool;
  monitor_enabled : bool;
  stats_enabled : bool;
  slowlog_threshold_micros : Z;
  slowlog_max_len : Z;
}.

Record Config := mkConfig {
  server_config : ServerConfig;
  network : NetworkConfig;
  rdb : RdbConfig;
  aof : AofConfig;
  replication_config : ReplicationConfig;
  memory : MemoryConfig;
  monitoring : MonitoringConfig;
}.

Definition network_default : NetworkConfig := mkNetwork (B "127.0.0.1") 6379 10000 511 0 (Some 300) None.
Definition server_default : ServerConfig := mkServerConfig (B "ferrous-server") 16 false LogNotice [] None true.
Definition rdb_default : RdbConfig := mkRdbConfig true [(900, 1); (300, 10); (60, 10000)] false (B "dump.rdb") (B "./").
Definition aof_default : AofConfig := mkAofConfig false FsyncEverySecond (B "appendonly.aof") (B "./") 100 (64 * 1024 * 1024).
Definition replication_default : ReplicationConfig := mkReplicationConfig 1048576 60 10 false None None.
Definition memory_default : MemoryConfig := mkMemoryConfig 0 NoEviction 5.
Definition monitoring_default : MonitoringConfig := mkMonitoringConfig false false false 10000 128.

Definition config_default : Config :=
  mkConfig server_default network_default rdb_default aof_default replication_default memory_default monitoring_default.

Definition on_network (f : NetworkConfig -> NetworkConfig) (c : Config) : Config :=
  mkConfig (server_config c) (f (network c)) (rdb c) (aof c) (replication_config c) (memory c) (monitoring c).
Definition on_server (f : ServerConfig -> ServerConfig) (c : Config) : Config :=
  mkConfig (f (server_config c)) (network c) (rdb c) (aof c) (replication_config c) (memory c) (monitoring c).
Definition on_rdb (f : RdbConfig -> RdbConfig) (c : Config) : Config :=
  mkConfig (server_config c) (network c) (f (rdb c)) (aof c) (replication_config c) (memory c) (monitoring c).
Definition on_aof (f : AofConfig -> AofConfig) (c : Config) : Config :=
  mkConfig (server_config c) (network c) (rdb c) (f (aof c)) (replication_config c) (memory c) (monitoring c).
Definition on_replication (f : ReplicationConfig -> ReplicationConfig) (c : Config) : Config :=
  mkConfig (server_config c) (network c) (rdb c) (aof c) (f (replication_config c)) (memory c) (monitoring c).
Definition on_memory (f : MemoryConfig -> MemoryConfig) (c : Config) : Config :=
  mkConfig (server_config c) (network c) (rdb c) (aof c) (replication_config c) (f (memory c)) (monitoring c).

Definition set_bind v := on_network (fun n => mkNetwork v (port n) (max_clients n) (tcp_backlog n) (net_timeout n) (tcp_keepalive n) (net_password n)).
Definition set_port v := on_network (fun n => mkNetwork (bind_addr n) v (max_clients n) (tcp_backlog n) (net_timeout n) (tcp_keepalive n) (net_password n)).
Definition set_backlog v := on_network (fun n => mkNetwork (bind_addr n) (port n) (max_clients n) v (net_timeout n) (tcp_keepalive n) (net_password n)).
Definition set_timeout v := on_network (fun n => mkNetwork (bind_addr n) (port n) (max_clients n) (tcp_backlog n) v (tcp_keepalive n) (net_password n)).
Definition set_keepalive v := on_network (fun n => mkNetwork (bind_addr n) (port n) (max_clients n) (tcp_backlog n) (net_timeout n) v (net_password n)).
Definition set_password v := on_network (fun n => mkNetwork (bind_addr n) (port n) (max_clients n) (tcp_backlog n) (net_timeout n) (tcp_keepalive n) v).

Definition set_databases v := on_server (fun s => mkServerConfig (proc_title s) v (daemonize s) (log_level s) (log_file s) (pid_file s) (show_logo s)).
Definition set_daemonize v := on_server (fun s => mkServerConfig (proc_title s) (databases_wanted s) v (log_level s) (log_file s) (pid_file s) (show_logo s)).
Definition set_log_level v := on_server (fun s => mkServerConfig (proc_title s) (databases_wanted s) (daemonize s) v (log_file s) (pid_file s) (show_logo s)).
Definition set_log_file v := on_server (fun s => mkServerConfig (proc_title s) (databases_wanted s) (daemonize s) (log_level s) v (pid_file s) (show_logo s)).
Definition set_pid_file v := on_server (fun s => mkServerConfig (proc_title s) (databases_wanted s) (daemonize s) (log_level s) (log_file s) v (show_logo s)).
Definition set_show_logo v := on_server (fun s => mkServerConfig (proc_title s) (databases_wanted s) (daemonize s) (log_level s) (log_file s) (pid_file s) v).

Definition set_saving b rules := on_rdb (fun r => mkRdbConfig b (rules (save_rules r)) (compress_strings r) (rdb_filename r) (rdb_dir r)).
Definition set_compression v := on_rdb (fun r => mkRdbConfig (auto_save r) (save_rules r) v (rdb_filename r) (rdb_dir r)).
Definition set_rdb_filename v := on_rdb (fun r => mkRdbConfig (auto_save r) (save_rules r) (compress_strings r) v (rdb_dir r)).
Definition set_rdb_dir v := on_rdb (fun r => mkRdbConfig (auto_save r) (save_rules r) (compress_strings r) (rdb_filename r) v).

Definition set_aof_enabled v := on_aof (fun a => mkAofConfig v (fsync_policy a) (aof_filename a) (aof_dir a) (auto_rewrite_percentage a) (auto_rewrite_min_size a)).
Definition set_fsync v := on_aof (fun a => mkAofConfig (aof_enabled a) v (aof_filename a) (aof_dir a) (auto_rewrite_percentage a) (auto_rewrite_min_size a)).
Definition set_aof_filename v := on_aof (fun a => mkAofConfig (aof_enabled a) (fsync_policy a) v (aof_dir a) (auto_rewrite_percentage a) (auto_rewrite_min_size a)).
Definition set_aof_dir v := on_aof (fun a => mkAofConfig (aof_enabled a) (fsync_policy a) (aof_filename a) v (auto_rewrite_percentage a) (auto_rewrite_min_size a)).
Definition set_percentage v := on_aof (fun a => mkAofConfig (aof_enabled a) (fsync_policy a) (aof_filename a) (aof_dir a) v (auto_rewrite_min_size a)).
Definition set_min_size v := on_aof (fun a => mkAofConfig (aof_enabled a) (fsync_policy a) (aof_filename a) (aof_dir a) (auto_rewrite_percentage a) v).

Definition set_backlog_size v := on_replication (fun r => mkReplicationConfig v (repl_timeout r) (ping_replica_period r) (diskless_sync r) (master_host r) (master_port r)).
Definition set_repl_timeout v := on_replication (fun r => mkReplicationConfig (backlog_size r) v (ping_replica_period r) (diskless_sync r) (master_host r) (master_port r)).
Definition set_ping_period v := on_replication (fun r => mkReplicationConfig (backlog_size r) (repl_timeout r) v (diskless_sync r) (master_host r) (master_port r)).
Definition set_diskless v := on_replication (fun r => mkReplicationConfig (backlog_size r) (repl_timeout r) (ping_replica_period r) v (master_host r) (master_port r)).
Definition set_master_address host p := on_replication (fun r => mkReplicationConfig (backlog_size r) (repl_timeout r) (ping_replica_period r) (diskless_sync r) host p).

Definition set_config_max_memory v := on_memory (fun m => mkMemoryConfig v (max_memory_policy m) (max_memory_samples m)).
Definition set_policy v := on_memory (fun m => mkMemoryConfig (config_max_memory m) v (max_memory_samples m)).

(** ** Values of settings *)

Inductive ConfigParseError :=
  | CfgIo (message : bytes)
  | CfgFormat (line : Z) (text : bytes)
  | CfgValue (param : bytes) (line : Z) (value : bytes)
  | CfgUnknownParam (param : bytes) (line : Z).

Definition checked (A : Type) : Type := A + ConfigParseError.

Definition checked_bind {A C} (r : checked A) (k : A -> checked C) : checked C :=
  match r with inl a => k a | inr e => inr e end.
Notation "'let+' x := r 'in' k" := (checked_bind r (fun x => k)) (at level 10, x name, r at level 100, k at level 200) : ferrous_scope.

Section values.
Context `{CaseMap}.

(** [value.parse::<uN>()] for the largest value of the type. *)
Definition parse_up_to (largest : Z) (value : bytes) : option Z :=
  match parse_u64 value with
  | Some n => if n <=? largest then Some n else None
  | None => None
  end.

Definition parse_value (largest : Z) (param value : bytes) (line : Z) : checked Z :=
  match parse_up_to largest value with
  | Some n => inl n
  | None => inr (CfgValue param line value)
  end.

Definition parse_yes_no (param value : bytes) (line : Z) : checked bool :=
  let v := to_lowercase value in
  if bool_decide (v = B "yes" \/ v = B "1") then inl true
  else if bool_decide (v = B "no" \/ v = B "0") then inl false
  else inr (CfgValue param line value).

Fixpoint leading_digits (s : bytes) : nat :=
  match s with
  | b :: s' => if is_digit b then S (leading_digits s') else 0%nat
  | [] => 0%nat
  end.

Definition multiplier (unit_part : bytes) : option Z :=
  if bool_decide (unit_part = [] \/ unit_part = B "b") then Some 1
  else if bool_decide (unit_part = B "kb") then Some 1024
  else if bool_decide (unit_part = B "mb") then Some (1024 * 1024)
  else if bool_decide (unit_part = B "gb") then Some (1024 * 1024 * 1024)
  else None.

(** The product wraps around, as in a release build. *)
Definition parse_size (param value : bytes) (line : Z) : checked Z :=
  let value := to_lowercase (trim value) in
  let idx := leading_digits value in
  if (idx =? 0)%nat then inr (CfgValue param line value)
  else
    match parse_u64 (take idx value) with
    | None => inr (CfgValue param line value)
    | Some num =>
        match multiplier (drop idx value) with
        | Some m => inl (u64_wrap (num * m))
        | None => inr (CfgValue param line value)
        end
    end.

(** [trim_matches(c)] *)
Fixpoint drop_byte (c : byte) (s : bytes) : bytes :=
  match s with
  | b :: s' => if b =b c then drop_byte c s' else s
  | [] => []
  end.
Definition trim_matches (c : byte) (s : bytes) : bytes := rev (drop_byte c (rev (drop_byte c s))).

Definition double_quote : byte := byte_of 34.

(** ** One setting *)

Definition parse_log_level (value : bytes) : option LogLevel :=
  let v := to_lowercase value in
  if bool_decide (v = B "debug") then Some LogDebug
  else if bool_decide (v = B "verbose") then Some LogVerbose
  else if bool_decide (v = B "notice") then Some LogNotice
  else if bool_decide (v = B "warning") then Some LogWarning
  else None.

Definition parse_fsync (value : bytes) : option FsyncPolicy :=
  if bool_decide (value = B "always") then Some FsyncAlways
  else if bool_decide (value = B "everysec") then Some FsyncEverySecond
  else if bool_decide (value = B "no") then Some FsyncNo
  else None.

Definition parse_policy (value : bytes) : option EvictionPolicy :=
  let v := to_lowercase value in
  if bool_decide (v = B "noeviction") then Some NoEviction
  else if bool_decide (v = B "allkeys-lru") then Some AllKeysLru
  else if bool_decide (v = B "volatile-lru") then Some VolatileLru
  else if bool_decide (v = B "allkeys-random") then Some AllKeysRandom
  else if bool_decide (v = B "volatile-random") then Some VolatileRandom
  else if bool_decide (v = B "volatile-ttl") then Some VolatileTtl
  else None.

Definition save_rule (value : bytes) : option (Z * Z) :=
  match split_whitespace value with
  | [a; b] => match parse_u64 a, parse_u64 b with Some seconds, Some changes => Some (seconds, changes) | _, _ => None end
  | _ => None
  end.

(** The master; "no 1" stands for none. *)
Definition master_of (value : bytes) : option (option bytes * option Z) :=
  match split_whitespace value with
  | [host; p] =>
      match parse_up_to 65535 p with
      | Some p => Some (if bool_decide (to_lowercase host = B "no") && (p =? 1) then (None, None) else (Some host, Some p))
      | None => None
      end
  | _ => None
  end.

Definition or_value_error {A} (r : option A) (param value : bytes) (line : Z) : checked A :=
  match r with Some a => inl a | None => inr (CfgValue param line value) end.

Definition u16_max : Z := 65535.
Definition u32_max : Z := 4294967295.

(** The settings of the file, with what a line does. *)
Definition config_params : list (bytes * (bytes -> bytes -> Z -> Config -> checked Config)) :=
  [(B "bind", fun p v n c => inl (set_bind v c));
   (B "port", fun p v n c => let+ x := parse_value u16_max p v n in inl (set_port x c));
   (B "tcp-backlog", fun p v n c => let+ x := parse_value u32_max p v n in inl (set_backlog x c));
   (B "timeout", fun p v n c => let+ x := parse_value u64_max p v n in inl (set_timeout x c));
   (B "tcp-keepalive", fun p v n c => let+ x := parse_value u64_max p v n in inl (set_keepalive (if x =? 0 then None else Some x) c));
   (B "requirepass", fun p v n c => inl (set_password (Some v) c));
   (B "protected-mode", fun p v n c => let+ _ := parse_yes_no p v n in inl c);
   (B "daemonize", fun p v n c => let+ x := parse_yes_no p v n in inl (set_daemonize x c));
   (B "databases", fun p v n c => let+ x := parse_value u64_max p v n in inl (set_databases x c));
   (B "pidfile", fun p v n c => inl (set_pid_file (match v with [] => None | _ => Some v end) c));
   (B "loglevel", fun p v n c => let+ x := or_value_error (parse_log_level v) p v n in inl (set_log_level x c));
   (B "logfile", fun p v n c => inl (set_log_file v c));
   (B "always-show-logo", fun p v n c => let+ x := parse_yes_no p v n in inl (set_show_logo x c));
   (B "dbfilename", fun p v n c => inl (set_rdb_filename v c));
   (B "dir", fun p v n c => inl (set_aof_dir v (set_rdb_dir v c)));
   (B "save", fun p v n c =>
      if bool_decide (v = [] \/ v = [double_quote; double_quote]) then inl (set_saving false (fun _ => []) c)
      else let+ rule := or_value_error (save_rule v) p v n in inl (set_saving true (fun rules => rules ++ [rule]) c));
   (B "rdbcompression", fun p v n c => let+ x := parse_yes_no p v n in inl (set_compression x c));
   (B "appendonly", fun p v n c => let+ x := parse_yes_no p v n in inl (set_aof_enabled x c));
   (B "appendfilename", fun p v n c => inl (set_aof_filename (trim_matches double_quote v) c));
   (B "appendfsync", fun p v n c => let+ x := or_value_error (parse_fsync v) p v n in inl (set_fsync x c));
   (B "auto-aof-rewrite-percentage", fun p v n c => let+ x := parse_value u64_max p v n in inl (set_percentage x c));
   (B "auto-aof-rewrite-min-size", fun p v n c => let+ x := parse_size p v n in inl (set_min_size x c));
   (B "replicaof", fun p v n c => let+ m := or_value_error (master_of v) p v n in inl (set_master_address m.1 m.2 c));
   (B "slaveof", fun p v n c => let+ m := or_value_error (master_of v) p v n in inl (set_master_address m.1 m.2 c));
   (B "repl-backlog-size", fun p v n c => let+ x := parse_size p v n in inl (set_backlog_size x c));
   (B "repl-timeout", fun p v n c => let+ x := parse_value u64_max p v n in inl (set_repl_timeout x c));
   (B "repl-ping-replica-period", fun p v n c => let+ x := parse_value u64_max p v n in inl (set_ping_period x c));
   (B "repl-ping-slave-period", fun p v n c => let+ x := parse_value u64_max p v n in inl (set_ping_period x c));
   (B "repl-diskless-sync", fun p v n c => let+ x := parse_yes_no p v n in inl (set_diskless x c));
   (B "maxmemory", fun p v n c => let+ x := parse_size p v n in inl (set_config_max_memory x c));
   (B "maxmemory-policy", fun p v n c => let+ x := or_value_error (parse_policy v) p v n in inl (set_policy x c))].

(** A setting that is not known is skipped with a message. *)
Definition apply_config_param (c : Config) (param value : bytes) (line : Z) : checked Config :=
  match List.find (fun s => bool_decide (s.1 = param)) config_params with
  | Some (_, set) => set param value line c
  | None => inl c
  end.

(** ** The file *)

Definition line_feed : byte := byte_of 10.
Definition carriage_return : byte := byte_of 13.

(** [BufRead::lines]: each line without its line feed and the carriage return
    before it; the rest of the file when it is not empty. *)
Fixpoint lines_from (s line : bytes) : list bytes :=
  match s with
  | [] => match line with [] => [] | _ => [line] end
  | b :: s' =>
      if b =b line_feed then
        match rev line with
        | c :: l => if c =b carriage_return then rev l :: lines_from s' [] else line :: lines_from s' []
        | [] => [] :: lines_from s' []
        end
      else lines_from s' (line ++ [b])
  end.
Definition lines (s : bytes) : list bytes := lines_from s [].

Definition space : byte := byte_of 32.

(** [line.splitn(2, ' ')] with two parts. *)
Fixpoint split_space (line word : bytes) : option (bytes * bytes) :=
  match line with
  | [] => None
  | b :: line' => if b =b space then Some (word, line') else split_space line' (word ++ [b])
  end.

(** What a line says: nothing, a setting, or something else. *)
Inductive config_line :=
  | LineBlank
  | LineSetting (param value : bytes)
  | LineBad (text : bytes).

Definition read_line (line : bytes) : config_line :=
  let line := trim line in
  if bool_decide (line = []) || starts_with (B "#") line then LineBlank
  else
    match split_space line [] with
    | Some (param, value) => LineSetting (to_lowercase (trim param)) (trim value)
    | None => LineBad line
    end.

Definition not_utf8 : bytes := B "stream did not contain valid UTF-8".

(** The lines from number [n] on. *)
Fixpoint apply_lines (n : Z) (ls : list bytes) (c : Config) : checked Config :=
  match ls with
  | [] => inl c
  | line :: ls' =>
      if negb (utf8_valid line) then inr (CfgIo not_utf8)
      else
        match read_line line with
        | LineBlank => apply_lines (n + 1) ls' c
        | LineBad text => inr (CfgFormat n text)
        | LineSetting param value =>
            let+ c' := apply_config_param c param value n in
            apply_lines (n + 1) ls' c'
        end
  end.

(** [Path::parent] of a Unix path, as a string; separators and dots at the end of
    what is left do not belong to it. *)
Definition slash : byte := byte_of 47.
Definition dot : byte := byte_of 46.

(** A path from its end: without the separators and the components "." there. *)
Fixpoint trim_path_end (r : bytes) : bytes :=
  match r with
  | b :: r' =>
      if (b =b slash) && negb (bool_decide (r' = [])) then trim_path_end r'
      else
        match r' with
        | b' :: _ => if (b =b dot) && (b' =b slash) then trim_path_end r' else r
        | [] => r
        end
  | [] => []
  end.

Fixpoint drop_name (r : bytes) : bytes :=
  match r with
  | b :: r' => if b =b slash then r else drop_name r'
  | [] => []
  end.

Definition path_parent (path : bytes) : option bytes :=
  match trim_path_end (rev path) with
  | [] => None
  | [b] => if b =b slash then None else Some []
  | r => Some (rev (trim_path_end (drop_name r)))
  end.

Definition default_for (path : bytes) : Config :=
  match path_parent path with
  | Some parent => set_rdb_dir parent config_default
  | None => config_default
  end.

Definition parse_config_file (path : bytes) (content : bytes + bytes) : checked Config :=
  match content with
  | inl text => apply_lines 1 (lines text) (default_for path)
  | inr io => inr (CfgIo io)
  end.

(** ** Reading a configuration *)

Definition yes_no (b : bool) : bytes := if b then B "yes" else B "no".

Fixpoint rules_text (rules : list (Z * Z)) (acc : bytes) : bytes :=
  match rules with
  | [] => acc
  | (seconds, changes) :: rules' =>
      let acc := match acc with [] => acc | _ => acc ++ [space] end in
      rules_text rules' (acc ++ show_u64 seconds ++ [space] ++ show_u64 changes)
  end.
Definition format_save_rules (c : Config) : bytes := rules_text (save_rules (rdb c)) [].

Definition memory_policy_str (c : Config) : bytes :=
  match max_memory_policy (memory c) with
  | NoEviction => B "noeviction"
  | AllKeysLru => B "allkeys-lru"
  | VolatileLru => B "volatile-lru"
  | AllKeysRandom => B "allkeys-random"
  | VolatileRandom => B "volatile-random"
  | VolatileTtl => B "volatile-ttl"
  end.

Definition fsync_policy_str (c : Config) : bytes :=
  match fsync_policy (aof c) with
  | FsyncAlways => B "always"
  | FsyncEverySecond => B "everysec"
  | FsyncNo => B "no"
  end.

(** [Config::get] *)
Definition reported_params : list (bytes * (Config -> option bytes)) :=
  [(B "port", fun c => Some (show_u64 (port (network c))));
   (B "bind", fun c => Some (bind_addr (network c)));
   (B "timeout", fun c => Some (show_u64 (net_timeout (network c))));
   (B "tcp-keepalive", fun c => option_map show_u64 (tcp_keepalive (network c)));
   (B "protected-mode", fun _ => Some (B "yes"));
   (B "databases", fun c => Some (show_u64 (databases_wanted (server_config c))));
   (B "dbfilename", fun c => Some (rdb_filename (rdb c)));
   (B "dir", fun c => Some (rdb_dir (rdb c)));
   (B "maxmemory", fun c => Some (show_u64 (config_max_memory (memory c))));
   (B "maxmemory-policy", fun c => Some (memory_policy_str c));
   (B "appendonly", fun c => Some (yes_no (aof_enabled (aof c))));
   (B "appendfilename", fun c => Some (aof_filename (aof c)));
   (B "appendfsync", fun c => Some (fsync_policy_str c));
   (B "save", fun c => Some (format_save_rules c));
   (B "slowlog-enabled", fun c => Some (yes_no (slowlog_enabled (monitoring c))));
   (B "monitor-enabled", fun c => Some (yes_no (monitor_enabled (monitoring c))));
   (B "stats-enabled", fun c => Some (yes_no (stats_enabled (monitoring c))));
   (B "slowlog-log-slower-than", fun c => Some (show_i64 (slowlog_threshold_micros (monitoring c))));
   (B "slowlog-max-len", fun c => Some (show_u64 (slowlog_max_len (monitoring c))))].

Definition config_get (c : Config) (param : bytes) : option bytes :=
  match List.find (fun s => bool_decide (s.1 = param)) reported_params with
  | Some (_, read) => read c
  | None => None
  end.

(** [Config::get_all] *)
Definition config_get_all (c : Config) : list (bytes * bytes) :=
  [(B "port", show_u64 (port (network c))); (B "bind", bind_addr (network c)); (B "timeout", show_u64 (net_timeout (network c)))]
  ++ match tcp_keepalive (network c) with Some k => [(B "tcp-keepalive", show_u64 k)] | None => [] end
  ++ [(B "protected-mode", B "yes"); (B "databases", show_u64 (databases_wanted (server_config c)));
      (B "daemonize", yes_no (daemonize (server_config c))); (B "dbfilename", rdb_filename (rdb c)); (B "dir", rdb_dir (rdb c));
      (B "save", format_save_rules c); (B "appendonly", yes_no (aof_enabled (aof c))); (B "appendfilename", aof_filename (aof c));
      (B "appendfsync", fsync_policy_str c); (B "maxmemory", show_u64 (config_max_memory (memory c)));
      (B "maxmemory-policy", memory_policy_str c); (B "slowlog-enabled", yes_no (slowlog_enabled (monitoring c)));
      (B "monitor-enabled", yes_no (monitor_enabled (monitoring c))); (B "stats-enabled", yes_no (stats_enabled (monitoring c)));
      (B "slowlog-log-slower-than", show_i64 (slowlog_threshold_micros (monitoring c)));
      (B "slowlog-max-len", show_u64 (slowlog_max_len (monitoring c)))].
End values.

(** ** The command line *)

Record CliArgs := mkCli {
  cli_config : option bytes;
  cli_port : option Z;
  cli_bind : option bytes;
  cli_password : option bytes;
  cli_replicaof : option (bytes * Z);
  cli_dir : option bytes;
  cli_dbfilename : option bytes;
  cli_appendonly : bool;
  cli_logfile : option bytes;
  cli_loglevel : option bytes;
  cli_daemonize : option bool;
}.

Definition cli_default : CliArgs := mkCli None None None None None None None false None None None.

(** The arguments, or the exit code of the process. *)
Inductive cli_result := CliRun (a : CliArgs) | CliExit (code : Z).

Definition ends_with (suffix s : bytes) : bool := starts_with (rev suffix) (rev s).

Definition with_config_path (v : option bytes) (a : CliArgs) : CliArgs :=
  mkCli v (cli_port a) (cli_bind a) (cli_password a) (cli_replicaof a) (cli_dir a) (cli_dbfilename a)
    (cli_appendonly a) (cli_logfile a) (cli_loglevel a) (cli_daemonize a).
Definition with_port (v : option Z) (a : CliArgs) : CliArgs :=
  mkCli (cli_config a) v (cli_bind a) (cli_password a) (cli_replicaof a) (cli_dir a) (cli_dbfilename a)
    (cli_appendonly a) (cli_logfile a) (cli_loglevel a) (cli_daemonize a).
Definition with_bind (v : option bytes) (a : CliArgs) : CliArgs :=
  mkCli (cli_config a) (cli_port a) v (cli_password a) (cli_replicaof a) (cli_dir a) (cli_dbfilename a)
    (cli_appendonly a) (cli_logfile a) (cli_loglevel a) (cli_daemonize a).
Definition with_password (v : option bytes) (a : CliArgs) : CliArgs :=
  mkCli (cli_config a) (cli_port a) (cli_bind a) v (cli_replicaof a) (cli_dir a) (cli_dbfilename a)
    (cli_appendonly a) (cli_logfile a) (cli_loglevel a) (cli_daemonize a).
Definition with_replicaof (v : option (bytes * Z)) (a : CliArgs) : CliArgs :=
  mkCli (cli_config a) (cli_port a) (cli_bind a) (cli_password a) v (cli_dir a) (cli_dbfilename a)
    (cli_appendonly a) (cli_logfile a) (cli_loglevel a) (cli_daemonize a).
Definition with_dir (v : option bytes) (a : CliArgs) : CliArgs :=
  mkCli (cli_config a) (cli_port a) (cli_bind a) (cli_password a) (cli_replicaof a) v (cli_dbfilename a)
    (cli_appendonly a) (cli_logfile a) (cli_loglevel a) (cli_daemonize a).
Definition with_dbfilename (v : option bytes) (a : CliArgs) : CliArgs :=
  mkCli (cli_config a) (cli_port a) (cli_bind a) (cli_password a) (cli_replicaof a) (cli_dir a) v
    (cli_appendonly a) (cli_logfile a) (cli_loglevel a) (cli_daemonize a).
Definition with_appendonly (v : bool) (a : CliArgs) : CliArgs :=
  mkCli (cli_config a) (cli_port a) (cli_bind a) (cli_password a) (cli_replicaof a) (cli_dir a) (cli_dbfilename a) v (cli_logfile a) (cli_loglevel a) (cli_daemonize a).
Definition with_logfile (v : option bytes) (a : CliArgs) : CliArgs :=
  mkCli (cli_config a) (cli_port a) (cli_bind a) (cli_password a) (cli_replicaof a) (cli_dir a) (cli_dbfilename a)
    (cli_appendonly a) v (cli_loglevel a) (cli_daemonize a).
Definition with_loglevel (v : option bytes) (a : CliArgs) : CliArgs :=
  mkCli (cli_config a) (cli_port a) (cli_bind a) (cli_password a) (cli_replicaof a) (cli_dir a) (cli_dbfilename a)
    (cli_appendonly a) (cli_logfile a) v (cli_daemonize a).
Definition with_daemonize (v : option bool) (a : CliArgs) : CliArgs :=
  mkCli (cli_config a) (cli_port a) (cli_bind a) (cli_password a) (cli_replicaof a) (cli_dir a) (cli_dbfilename a)
    (cli_appendonly a) (cli_logfile a) (cli_loglevel a) v.

(** The options that take a value, with what they do. *)
Definition valued_options : list (list bytes * (bytes -> CliArgs -> option CliArgs)) :=
  [([B "--config"; B "-c"], fun v a => Some (with_config_path (Some v) a));
   ([B "--port"; B "-p"], fun v a => option_map (fun p => with_port (Some p) a) (parse_up_to u16_max v));
   ([B "--bind"], fun v a => Some (with_bind (Some v) a));
   ([B "--password"; B "--requirepass"], fun v a => Some (with_password (Some v) a));
   ([B "--dir"], fun v a => Some (with_dir (Some v) a));
   ([B "--dbfilename"], fun v a => Some (with_dbfilename (Some v) a));
   ([B "--logfile"], fun v a => Some (with_logfile (Some v) a));
   ([B "--loglevel"], fun v a => Some (with_loglevel (Some v) a))].

Definition valued_option (arg : bytes) : option (bytes -> CliArgs -> option CliArgs) :=
  option_map snd (List.find (fun o => bool_decide (arg ∈ o.1)) valued_options).

Definition is_yes_no (s : bytes) : bool := bool_decide (s = B "yes" \/ s = B "no").

(** An option whose value may be left out, which means yes. *)
Definition optional_yes_no (arg : bytes) : option (bool -> CliArgs -> CliArgs) :=
  if bool_decide (arg = B "--appendonly") then Some with_appendonly
  else if bool_decide (arg = B "--daemonize") then Some (fun b => with_daemonize (Some b))
  else None.

Fixpoint parse_args (args : list bytes) (a : CliArgs) : cli_result :=
  match args with
  | [] => CliRun a
  | arg :: args1 =>
      if bool_decide (arg = B "--help" \/ arg = B "-h") then CliExit 0
      else if bool_decide (arg = B "--version" \/ arg = B "-v") then CliExit 0
      else if bool_decide (arg = B "--replicaof" \/ arg = B "--slaveof") then
        match args1 with
        | host :: p :: args3 =>
            match parse_up_to u16_max p with
            | Some p => parse_args args3 (with_replicaof (Some (host, p)) a)
            | None => CliExit 1
            end
        | _ => CliExit 1
        end
      else
        match valued_option arg, optional_yes_no arg with
        | Some set, _ =>
            match args1 with
            | value :: args2 => match set value a with Some a' => parse_args args2 a' | None => CliExit 1 end
            | [] => CliExit 1
            end
        | None, Some put =>
            match args1 with
            | value :: args2 => if is_yes_no value then parse_args args2 (put (bool_decide (value = B "yes")) a) else parse_args args1 (put true a)
            | [] => CliRun (put true a)
            end
        | None, None => if ends_with (B ".conf") arg then parse_args args1 (with_config_path (Some arg) a) else CliExit 1
        end
  end.

(** [parse_cli_args], of the arguments after the name of the program. *)
Definition parse_cli_args (args : list bytes) : cli_result := parse_args args cli_default.

(** [if let Some(v) = arg { set }] *)
Definition override {A} (arg : option A) (set : A -> Config -> Config) (c : Config) : Config :=
  match arg with Some v => set v c | None => c end.

(** The level of the log and whether to run in the background are not looked at. *)
Definition apply_cli_args (a : CliArgs) (c : Config) : Config :=
  let c := override (cli_port a) set_port c in
  let c := override (cli_bind a) set_bind c in
  let c := override (cli_password a) (fun p => set_password (Some p)) c in
  let c := override (cli_replicaof a) (fun m => set_master_address (Some m.1) (Some m.2)) c in
  let c := override (cli_logfile a) set_log_file c in
  let c := override (cli_dir a) (fun d c => set_aof_dir d (set_rdb_dir d c)) c in
  let c := override (cli_dbfilename a) set_rdb_filename c in
  if cli_appendonly a then set_aof_enabled true c else c.

(** The start of [main]: the configuration to run with, or the exit code. *)
Definition load_config `{CaseMap} (args : list bytes) (read : bytes -> bytes + bytes) : Config + Z :=
  match parse_cli_args args with
  | CliExit code => inr code
  | CliRun a =>
      match cli_config a with
      | Some path =>
          match parse_config_file path (read path) with
          | inl c => inl (apply_cli_args a c)
          | inr _ => inr 1
          end
      | None => inl (apply_cli_args a config_default)
      end
  end.

(** ** What a file means

    Apart from the parser: the values each setting takes, and the
    configuration that a list of settings stands for. *)

Inductive value_kind :=
  | KText
  | KNumber (largest : Z)
  | KYesNo
  | KSize
  | KWord (words : list bytes) (small : bool)
  | KMaster
  | KSave.

Definition value_kinds : list (bytes * value_kind) :=
  [(B "bind", KText); (B "port", KNumber u16_max); (B "tcp-backlog", KNumber u32_max); (B "timeout", KNumber u64_max);
   (B "tcp-keepalive", KNumber u64_max); (B "requirepass", KText); (B "protected-mode", KYesNo); (B "daemonize", KYesNo);
   (B "databases", KNumber u64_max); (B "pidfile", KText);
   (B "loglevel", KWord [B "debug"; B "verbose"; B "notice"; B "warning"] true); (B "logfile", KText); (B "always-show-logo", KYesNo);
   (B "dbfilename", KText); (B "dir", KText); (B "save", KSave); (B "rdbcompression", KYesNo); (B "appendonly", KYesNo);
   (B "appendfilename", KText); (B "appendfsync", KWord [B "always"; B "everysec"; B "no"] false);
   (B "auto-aof-rewrite-percentage", KNumber u64_max); (B "auto-aof-rewrite-min-size", KSize); (B "replicaof", KMaster);
   (B "slaveof", KMaster); (B "repl-backlog-size", KSize); (B "repl-timeout", KNumber u64_max);
   (B "repl-ping-replica-period", KNumber u64_max); (B "repl-ping-slave-period", KNumber u64_max); (B "repl-diskless-sync", KYesNo);
   (B "maxmemory", KSize);
   (B "maxmemory-policy", KWord [B "noeviction"; B "allkeys-lru"; B "volatile-lru"; B "allkeys-random"; B "volatile-random"; B "volatile-ttl"] true)].

(** The entry of a name in a table. *)
Fixpoint entry_of {A} (name : bytes) (table : list (bytes * A)) : option A :=
  match table with
  | [] => None
  | (n, a) :: table' => if bool_decide (n = name) then Some a else entry_of name table'
  end.

Definition among (name : bytes) (names : list bytes) : bool := existsb (fun n => bool_decide (name = n)) names.

Section meaning.
Context `{CaseMap}.

(** A number with a unit behind it. *)
Definition size_text (v : bytes) : bytes := to_lowercase (trim v).
Definition size_number (v : bytes) : bytes := take (leading_digits (size_text v)) (size_text v).
Definition size_unit (v : bytes) : bytes := drop (leading_digits (size_text v)) (size_text v).
Definition size_units : list (bytes * Z) := [([], 1); (B "b", 1); (B "kb", 1024); (B "mb", 1048576); (B "gb", 1073741824)].

Definition is_number (largest : Z) (v : bytes) : bool :=
  match parse_u64 v with Some n => n <=? largest | None => false end.

Definition is_clearing (v : bytes) : bool := bool_decide (v = []) || bool_decide (v = [double_quote; double_quote]).

Definition of_kind (k : value_kind) (v : bytes) : bool :=
  match k with
  | KText => true
  | KNumber largest => is_number largest v
  | KYesNo => among (to_lowercase v) [B "yes"; B "1"; B "no"; B "0"]
  | KSize => is_number u64_max (size_number v) && bool_decide (is_Some (entry_of (size_unit v) size_units))
  | KWord words small => among (if small : bool then to_lowercase v else v) words
  | KMaster => match split_whitespace v with [_; p] => is_number u16_max p | _ => false end
  | KSave => is_clearing v || match split_whitespace v with [a; b] => is_number u64_max a && is_number u64_max b | _ => false end
  end.

(** A name that is not in the table takes any value. *)
Definition setting_ok (p v : bytes) : bool := match entry_of p value_kinds with Some k => of_kind k v | None => true end.

(** The value in the report of an error: of a size, the text that was read. *)
Definition shown_value (p v : bytes) : bytes :=
  match entry_of p value_kinds with Some KSize => size_text v | _ => v end.

(** Why line [n] is refused. *)
Definition line_error (n : Z) (line : bytes) : option ConfigParseError :=
  if negb (utf8_valid line) then Some (CfgIo not_utf8)
  else
    match read_line line with
    | LineBlank => None
    | LineBad text => Some (CfgFormat n text)
    | LineSetting p v => if setting_ok p v then None else Some (CfgValue p n (shown_value p v))
    end.

Definition line_ok (line : bytes) : Prop := line_error 0 line = None.

(** The settings of a file, in order. *)
Definition settings_of (ls : list bytes) : list (bytes * bytes) :=
  omap (fun line => match read_line line with LineSetting p v => Some (p, v) | _ => None end) ls.

(** What the last setting with one of the names says, or [d]. *)
Fixpoint last_given {A} (names : list bytes) (ss : list (bytes * bytes)) (read : bytes -> A) (d : A) : A :=
  match ss with
  | [] => d
  | (p, v) :: ss' => last_given names ss' read (if among p names then read v else d)
  end.

(** What values stand for. *)
Definition as_text (v : bytes) : bytes := v.
Definition as_number (v : bytes) : Z := default 0 (parse_u64 v).
Definition as_truth (v : bytes) : bool := among (to_lowercase v) [B "yes"; B "1"].
Definition size_in_bytes (v : bytes) : Z := as_number (size_number v) * default 1 (entry_of (size_unit v) size_units) mod 18446744073709551616.
Definition seconds_or_none (v : bytes) : option Z := if as_number v =? 0 then None else Some (as_number v).

Definition level_names : list (bytes * LogLevel) :=
  [(B "debug", LogDebug); (B "verbose", LogVerbose); (B "notice", LogNotice); (B "warning", LogWarning)].
Definition policy_names : list (bytes * EvictionPolicy) :=
  [(B "noeviction", NoEviction); (B "allkeys-lru", AllKeysLru); (B "volatile-lru", VolatileLru); (B "allkeys-random", AllKeysRandom);
   (B "volatile-random", VolatileRandom); (B "volatile-ttl", VolatileTtl)].
Definition fsync_names : list (bytes * FsyncPolicy) := [(B "always", FsyncAlways); (B "everysec", FsyncEverySecond); (B "no", FsyncNo)].

(** "no 1" is no master. *)
Definition master_given (v : bytes) : option (bytes * Z) :=
  match split_whitespace v with
  | [host; p] => if bool_decide (to_lowercase host = B "no") && (as_number p =? 1) then None else Some (host, as_number p)
  | _ => None
  end.

Definition rule_of (v : bytes) : Z * Z := match split_whitespace v with [a; b] => (as_number a, as_number b) | _ => (0, 0) end.

(** The rules of the lines since the last one that clears them, after the
    rules [d] when no line does. *)
Fixpoint saved_rules (ss : list (bytes * bytes)) (d : list (Z * Z)) : list (Z * Z) :=
  match ss with
  | [] => d
  | (p, v) :: ss' => saved_rules ss' (if bool_decide (p = B "save") then if is_clearing v then [] else d ++ [rule_of v] else d)
  end.

Definition meaning (ss : list (bytes * bytes)) (c : Config) : Config :=
  let s := server_config c in let n := network c in let r := rdb c in let a := aof c in
  let p := replication_config c in let m := memory c in
  let masters := [B "replicaof"; B "slaveof"] in
  mkConfig
    (mkServerConfig (proc_title s)
      (last_given [B "databases"] ss as_number (databases_wanted s))
      (last_given [B "daemonize"] ss as_truth (daemonize s))
      (last_given [B "loglevel"] ss (fun v => default LogNotice (entry_of (to_lowercase v) level_names)) (log_level s))
      (last_given [B "logfile"] ss as_text (log_file s))
      (last_given [B "pidfile"] ss (fun v => if bool_decide (v = []) then None else Some v) (pid_file s))
      (last_given [B "always-show-logo"] ss as_truth (show_logo s)))
    (mkNetwork
      (last_given [B "bind"] ss as_text (bind_addr n))
      (last_given [B "port"] ss as_number (port n))
      (max_clients n)
      (last_given [B "tcp-backlog"] ss as_number (tcp_backlog n))
      (last_given [B "timeout"] ss as_number (net_timeout n))
      (last_given [B "tcp-keepalive"] ss seconds_or_none (tcp_keepalive n))
      (last_given [B "requirepass"] ss Some (net_password n)))
    (mkRdbConfig
      (last_given [B "save"] ss (fun v => negb (is_clearing v)) (auto_save r))
      (saved_rules ss (save_rules r))
      (last_given [B "rdbcompression"] ss as_truth (compress_strings r))
      (last_given [B "dbfilename"] ss as_text (rdb_filename r))
      (last_given [B "dir"] ss as_text (rdb_dir r)))
    (mkAofConfig
      (last_given [B "appendonly"] ss as_truth (aof_enabled a))
      (last_given [B "appendfsync"] ss (fun v => default FsyncEverySecond (entry_of v fsync_names)) (fsync_policy a))
      (last_given [B "appendfilename"] ss (trim_matches double_quote) (aof_filename a))
      (last_given [B "dir"] ss as_text (aof_dir a))
      (last_given [B "auto-aof-rewrite-percentage"] ss as_number (auto_rewrite_percentage a))
      (last_given [B "auto-aof-rewrite-min-size"] ss size_in_bytes (auto_rewrite_min_size a)))
    (mkReplicationConfig
      (last_given [B "repl-backlog-size"] ss size_in_bytes (backlog_size p))
      (last_given [B "repl-timeout"] ss as_number (repl_timeout p))
      (last_given [B "repl-ping-replica-period"; B "repl-ping-slave-period"] ss as_number (ping_replica_period p))
      (last_given [B "repl-diskless-sync"] ss as_truth (diskless_sync p))
      (last_given masters ss (fun v => option_map fst (master_given v)) (master_host p))
      (last_given masters ss (fun v => option_map snd (master_given v)) (master_port p)))
    (mkMemoryConfig
      (last_given [B "maxmemory"] ss size_in_bytes (config_max_memory m))
      (last_given [B "maxmemory-policy"] ss (fun v => default NoEviction (entry_of (to_lowercase v) policy_names)) (max_memory_policy m))
      (max_memory_samples m))
    (monitoring c).

(** *** One setting *)

Lemma meaning_nil c : meaning [] c = c.
Proof. by destruct c as [[] [] [] [] [] [] ?]. Qed.

Lemma meaning_cons p v ss c : meaning ((p, v) :: ss) c = meaning ss (meaning [(p, v)] c).
Proof. done. Qed.

Lemma meaning_app ss ss' c : meaning (ss ++ ss') c = meaning ss' (meaning ss c).
Proof.
  revert c. induction ss as [|[p v] ss IH]; intros c; [by rewrite meaning_nil|]. cbn [app].
  rewrite (meaning_cons p v (ss ++ ss')), (meaning_cons p v ss). apply IH.
Qed.

Lemma parse_value_exact largest p v n : 
  parse_value largest p v n = if is_number largest v then inl (as_number v) else inr (CfgValue p n v).
Proof.
  unfold parse_value, parse_up_to, is_number, as_number. destruct (parse_u64 v) as [x|]; [|done]. by destruct (x <=? largest).
Qed.

Lemma parse_yes_no_exact p v n :
  parse_yes_no p v n = if among (to_lowercase v) [B "yes"; B "1"; B "no"; B "0"] then inl (as_truth v) else inr (CfgValue p n v).
Proof.
  unfold parse_yes_no, as_truth, among. cbn [existsb]. repeat case_bool_decide; cbn [orb]; naive_solver.
Qed.

Lemma parse_size_exact p v n :
  parse_size p v n = if of_kind KSize v then inl (size_in_bytes v) else inr (CfgValue p n (size_text v)).
Proof.
  unfold parse_size, of_kind, size_in_bytes, is_number, as_number, size_number, size_unit. fold (size_text v).
  destruct (Nat.eqb_spec (leading_digits (size_text v)) 0) as [->|_]; [done|].
  destruct (parse_u64 (take _ _)) as [x|] eqn:E; [|done].
  pose proof (parse_u64_range _ _ E) as [_ Hx%Z.leb_le]. rewrite Hx.
  generalize (drop (leading_digits (size_text v)) (size_text v)) as u. intros u.
  destruct (decide (u = [])) as [->|]; [reflexivity|]. destruct (decide (u = B "b")) as [->|]; [reflexivity|].
  destruct (decide (u = B "kb")) as [->|]; [reflexivity|]. destruct (decide (u = B "mb")) as [->|]; [reflexivity|].
  destruct (decide (u = B "gb")) as [->|]; [reflexivity|].
  assert (entry_of u size_units = None) as -> by (cbn [entry_of size_units]; by do 5 rewrite bool_decide_eq_false_2 by congruence).
  unfold multiplier. by do 4 rewrite bool_decide_eq_false_2 by intuition congruence.
Qed.

Lemma log_level_exact p v n :
  or_value_error (parse_log_level v) p v n
  = if among (to_lowercase v) [B "debug"; B "verbose"; B "notice"; B "warning"]
    then inl (default LogNotice (entry_of (to_lowercase v) level_names)) else inr (CfgValue p n v).
Proof.
  unfold parse_log_level, among, level_names. cbn [existsb entry_of]. repeat case_bool_decide; cbn [orb]; naive_solver.
Qed.

Lemma fsync_exact p v n :
  or_value_error (parse_fsync v) p v n
  = if among v [B "always"; B "everysec"; B "no"]
    then inl (default FsyncEverySecond (entry_of v fsync_names)) else inr (CfgValue p n v).
Proof.
  unfold parse_fsync, among, fsync_names. cbn [existsb entry_of]. repeat case_bool_decide; cbn [orb]; naive_solver.
Qed.

Lemma policy_exact p v n :
  or_value_error (parse_policy v) p v n
  = if among (to_lowercase v) [B "noeviction"; B "allkeys-lru"; B "volatile-lru"; B "allkeys-random"; B "volatile-random"; B "volatile-ttl"]
    then inl (default NoEviction (entry_of (to_lowercase v) policy_names)) else inr (CfgValue p n v).
Proof.
  unfold parse_policy, among, policy_names. cbn [existsb entry_of]. repeat case_bool_decide; cbn [orb]; naive_solver.
Qed.

Lemma master_exact p v n :
  or_value_error (master_of v) p v n
  = if of_kind KMaster v then inl (option_map fst (master_given v), option_map snd (master_given v)) else inr (CfgValue p n v).
Proof.
  unfold master_of, of_kind, master_given, parse_up_to, is_number, as_number. fold u16_max.
  destruct (split_whitespace v) as [|host [|q [|]]]; try done. destruct (parse_u64 q) as [x|]; [|done]. cbn [default].
  change 65535 with u16_max. destruct (x <=? u16_max); [|done]. by destruct (bool_decide _ && _).
Qed.

Lemma save_exact p v n : is_clearing v = false ->
  or_value_error (save_rule v) p v n = if of_kind KSave v then inl (rule_of v) else inr (CfgValue p n v).
Proof.
  intros Hc. unfold save_rule, of_kind, rule_of, is_number, as_number. rewrite Hc. cbn [orb].
  destruct (split_whitespace v) as [|a [|b [|]]]; try done.
  destruct (parse_u64 a) as [x|] eqn:Ea; [|done]. apply parse_u64_range in Ea as [_ Ha%Z.leb_le]. rewrite Ha.
  destruct (parse_u64 b) as [y|] eqn:Eb; [|done]. apply parse_u64_range in Eb as [_ Hb%Z.leb_le]. by rewrite Hb.
Qed.

(** The table of the parser, entry by entry. *)
Definition entry_exact (s : bytes * (bytes -> bytes -> Z -> Config -> checked Config)) : Prop :=
  forall v n c, s.2 s.1 v n c = if setting_ok s.1 v then inl (meaning [(s.1, v)] c) else inr (CfgValue s.1 n (shown_value s.1 v)).

(** Decide the names. *)
Ltac decide_names :=
  repeat match goal with
  | |- context [among ?p ?names] =>
      let b := eval vm_compute in (among p names) in
      match b with true => idtac | false => idtac end; change (among p names) with b
  end;
  repeat match goal with
  | |- context [bool_decide (?p = B "save")] =>
      let b := eval vm_compute in (bool_decide (p = B "save")) in
      match b with true => idtac | false => idtac end; change (bool_decide (p = B "save")) with b
  end.

(** A setting of kind [k], read by [E]. *)
Ltac setting k :=
  let v := fresh "v" in let n := fresh "n" in let c := fresh "c" in
  intros v n c; cbn [fst snd]; unfold setting_ok, shown_value;
  match goal with |- context [entry_of ?p value_kinds] => change (entry_of p value_kinds) with (Some k) end;
  cbn iota; unfold meaning; cbn [last_given saved_rules]; decide_names; cbn iota; destruct c as [[] [] [] [] [] [] ?].
Ltac read_by E :=
  rewrite E; match goal with |- checked_bind (if ?b then _ else _) _ = _ => destruct b eqn:Hb; cbn [of_kind] in *; rewrite ?Hb end; reflexivity.

Lemma entries_exact : Forall entry_exact config_params.
Proof.
  unfold config_params. repeat (apply List.Forall_cons; [shelve|]). apply List.Forall_nil. Unshelve.
  - setting KText. reflexivity.
  - setting (KNumber u16_max). read_by parse_value_exact.
  - setting (KNumber u32_max). read_by parse_value_exact.
  - setting (KNumber u64_max). read_by parse_value_exact.
  - setting (KNumber u64_max). read_by parse_value_exact.
  - setting KText. reflexivity.
  - setting KYesNo. read_by parse_yes_no_exact.
  - setting KYesNo. read_by parse_yes_no_exact.
  - setting (KNumber u64_max). read_by parse_value_exact.
  - setting KText. by destruct v.
  - setting (KWord [B "debug"; B "verbose"; B "notice"; B "warning"] true). read_by log_level_exact.
  - setting KText. reflexivity.
  - setting KYesNo. read_by parse_yes_no_exact.
  - setting KText. reflexivity.
  - setting KText. reflexivity.
  - setting KSave. rewrite bool_decide_or. fold (is_clearing v). destruct (is_clearing v) eqn:Hc; [cbn [of_kind]; by rewrite Hc|].
    read_by (fun p n => save_exact p v n Hc).
  - setting KYesNo. read_by parse_yes_no_exact.
  - setting KYesNo. read_by parse_yes_no_exact.
  - setting KText. reflexivity.
  - setting (KWord [B "always"; B "everysec"; B "no"] false). read_by fsync_exact.
  - setting (KNumber u64_max). read_by parse_value_exact.
  - setting KSize. read_by parse_size_exact.
  - setting KMaster. read_by master_exact.
  - setting KMaster. read_by master_exact.
  - setting KSize. read_by parse_size_exact.
  - setting (KNumber u64_max). read_by parse_value_exact.
  - setting (KNumber u64_max). read_by parse_value_exact.
  - setting (KNumber u64_max). read_by parse_value_exact.
  - setting KYesNo. read_by parse_yes_no_exact.
  - setting KSize. read_by parse_size_exact.
  - setting (KWord [B "noeviction"; B "allkeys-lru"; B "volatile-lru"; B "allkeys-random"; B "volatile-random"; B "volatile-ttl"] true).
    read_by policy_exact.
Qed.

(** *** All lines *)

Lemma entry_of_found {A} p (table : list (bytes * A)) : entry_of p table = option_map snd (List.find (fun s => bool_decide (s.1 = p)) table).
Proof. induction table as [|[n a] table IH]; [done|]. cbn [entry_of List.find fst]. by destruct (bool_decide (n = p)). Qed.

Lemma among_elem p names : among p names = true <-> p ∈ names.
Proof.
  unfold among. rewrite existsb_exists. split.
  - intros (n & Hin & Heq). apply bool_decide_eq_true in Heq. subst. by apply list_elem_of_In.
  - intros Hin. exists p. split; [by apply list_elem_of_In|by apply bool_decide_eq_true].
Qed.

Lemma unknown_means_nothing p v c : p ∉ map fst value_kinds -> meaning [(p, v)] c = c.
Proof.
  intros Hp. assert (Hn : forall names, forallb (fun n => among n (map fst value_kinds)) names = true -> among p names = false).
  { intros names Hall. apply not_true_is_false. intros Hin%among_elem. apply Hp, among_elem. rewrite forallb_forall in Hall.
    by apply Hall, list_elem_of_In. }
  unfold meaning. cbn [last_given saved_rules]. repeat (rewrite Hn by (vm_compute; reflexivity)).
  rewrite bool_decide_eq_false_2; [by destruct c as [[] [] [] [] [] [] ?]|]. intros ->. apply Hp, among_elem. vm_compute. reflexivity.
Qed.

(** A line about one setting sets what the setting means, or is refused. *)
Lemma param_exact c p v n :
  apply_config_param c p v n = if setting_ok p v then inl (meaning [(p, v)] c) else inr (CfgValue p n (shown_value p v)).
Proof.
  unfold apply_config_param. destruct (List.find _ config_params) as [[q set]|] eqn:Hf.
  - apply find_some in Hf as [Hin Hq]. apply bool_decide_eq_true in Hq. simpl in Hq. subst q.
    pose proof entries_exact as Hall. rewrite List.Forall_forall in Hall. apply (Hall _ Hin).
  - assert (Hp : p ∉ map fst value_kinds).
    { change (map fst value_kinds) with (map fst config_params). intros (s & -> & Hs)%list_elem_of_fmap.
      pose proof (find_none _ _ Hf s (proj1 (list_elem_of_In _ _) Hs)) as Hne. by apply bool_decide_eq_false in Hne. }
    unfold setting_ok. rewrite entry_of_found. destruct (List.find _ value_kinds) as [s|] eqn:Hk; simpl.
    + exfalso. apply find_some in Hk as [Hin Hq]. apply bool_decide_eq_true in Hq. apply Hp. rewrite <- Hq.
      by apply list_elem_of_In, in_map.
    + by rewrite unknown_means_nothing.
Qed.

Lemma lines_exact ls : forall n c,
  match apply_lines n ls c with
  | inl c' => Forall line_ok ls /\ c' = meaning (settings_of ls) c
  | inr e => exists before line after, ls = before ++ line :: after /\ Forall line_ok before
               /\ line_error (n + Z.of_nat (length before)) line = Some e
  end.
Proof.
  induction ls as [|line ls IH]; intros n c; cbn [apply_lines]; [split; [constructor|symmetry; apply meaning_nil]|].
  assert (Hhere : forall e, line_error n line = Some e -> exists before line' after, line :: ls = before ++ line' :: after
      /\ Forall line_ok before /\ line_error (n + Z.of_nat (length before)) line' = Some e).
  { intros e He. exists [], line, ls. split_and!; [done|constructor|]. cbn [length]. by rewrite Z.add_0_r. }
  assert (Hlater : forall c1 ss, line_ok line -> settings_of (line :: ls) = ss ++ settings_of ls -> c1 = meaning ss c ->
      match apply_lines (n + 1) ls c1 with
      | inl c' => Forall line_ok (line :: ls) /\ c' = meaning (settings_of (line :: ls)) c
      | inr e => exists before line' after, line :: ls = before ++ line' :: after /\ Forall line_ok before
                   /\ line_error (n + Z.of_nat (length before)) line' = Some e
      end).
  { intros c1 ss Hok Hss ->. specialize (IH (n + 1) (meaning ss c)). destruct (apply_lines (n + 1) ls (meaning ss c)) as [c'|e].
    - destruct IH as [Hls ->]. split; [by constructor|]. rewrite Hss. symmetry. apply meaning_app.
    - destruct IH as (before & line' & after & -> & Hb & He). exists (line :: before), line', after. split_and!; [done|by constructor|].
      rewrite <- He. f_equal. simpl. lia. }
  unfold line_error, line_ok in *. destruct (negb (utf8_valid line)) eqn:Hu; [by apply Hhere|].
  unfold settings_of in *. cbn [omap list_omap] in *. destruct (read_line line) as [|p v|t] eqn:Hr; [| |by apply Hhere].
  - apply (Hlater c []); [by unfold line_ok, line_error; rewrite Hu, Hr|done|symmetry; apply meaning_nil].
  - rewrite param_exact. destruct (setting_ok p v) eqn:Ho; [|by apply Hhere]. apply (Hlater (meaning [(p, v)] c) [(p, v)]); [by unfold line_ok, line_error; rewrite Hu, Hr, Ho|done|done].
Qed.


End meaning.

(** *** A file *)

Definition sample_file : bytes :=
  concat (map (fun l => l ++ [line_feed])
    [B "# a comment"; B "port 7000"; B "maxmemory 64MB"; []; B "save 5 1"; B "appendonly YES"; B "port 7001"; B "slowlog-max-len 5"]).

Example sample_config :
  let _ := ascii_case in
  match parse_config_file (B "/etc/ferrous.conf") (inl sample_file) with
  | inl c => map (config_get c) [B "port"; B "maxmemory"; B "appendonly"; B "dir"; B "save"; B "slowlog-max-len"]
             = [Some (B "7001"); Some (B "67108864"); Some (B "yes"); Some (B "/etc"); Some (B "900 1 300 10 60 10000 5 1"); Some (B "128")]
  | inr _ => False
  end.
Proof. vm_compute. reflexivity. Qed.

(** The size wraps around: 16 EiB is no limit at all. *)
Example oversized_maxmemory :
  let _ := ascii_case in parse_size (B "maxmemory") (B "17179869184gb") 1 = inl 0.
Proof. vm_compute. reflexivity. Qed.
