(* ===== verification/F64Bits.v ===== *)
(** * The bytes of integers and of [f64] ([to_le_bytes], [to_be_bytes] and back)

    An [f64] that is a number goes to its 64 bits and back; a NaN goes to the
    quiet NaN without a payload. *)

From S2P Require Import Prelude Resp.
From Stdlib Require Import Floats.SpecFloat.

Open Scope Z_scope.

(** ** Integers *)

Fixpoint le_bytes (n : nat) (x : Z) : bytes :=
  match n with O => [] | S n => byte_of (x mod 256) :: le_bytes n (x / 256) end.

Fixpoint of_le_bytes (l : bytes) : Z :=
  match l with [] => 0 | b :: l => u8 b + 256 * of_le_bytes l end.

Definition be_bytes (n : nat) (x : Z) : bytes := rev (le_bytes n x).
Definition of_be_bytes (l : bytes) : Z := of_le_bytes (rev l).

Lemma length_le_bytes n : forall x, length (le_bytes n x) = n.
Proof. induction n as [|n IH]; intros x; simpl; [done|]. by rewrite IH. Qed.

Lemma of_le_bytes_range l : 0 <= of_le_bytes l < 256 ^ Z.of_nat (length l).
Proof.
  induction l as [|b l IH]; [done|]. cbn [of_le_bytes length]. rewrite Nat2Z.inj_succ, Z.pow_succ_r by lia.
  pose proof (u8_range b). nia.
Qed.

Lemma of_le_le_bytes n : forall x, 0 <= x < 256 ^ Z.of_nat n -> of_le_bytes (le_bytes n x) = x.
Proof.
  induction n as [|n IH]; intros x Hx; [simpl in *; lia|].
  rewrite Nat2Z.inj_succ, Z.pow_succ_r in Hx by lia. cbn [le_bytes of_le_bytes].
  pose proof (Z.div_mod x 256 ltac:(lia)). pose proof (Z.mod_pos_bound x 256 ltac:(lia)).
  rewrite u8_byte_of, IH by nia. lia.
Qed.

Lemma of_be_be_bytes n x : 0 <= x < 256 ^ Z.of_nat n -> of_be_bytes (be_bytes n x) = x.
Proof. intros Hx. unfold of_be_bytes, be_bytes. rewrite rev_involutive. by apply of_le_le_bytes. Qed.

Lemma length_be_bytes n x : length (be_bytes n x) = n.
Proof. unfold be_bytes. by rewrite length_rev, length_le_bytes. Qed.

(** ** Doubles *)

Definition f64_bits (v : f64) : Z :=
  let with_sign (s : bool) (n : Z) : Z := if s then 9223372036854775808 + n else n in
  match v with
  | S754_zero s => with_sign s 0
  | S754_infinity s => with_sign s (2047 * 4503599627370496)
  | S754_nan => 2047 * 4503599627370496 + 2251799813685248
  | S754_finite s m e =>
      with_sign s (if (Z.pos m <? 4503599627370496) then Z.pos m
                   else (e + 1075) * 4503599627370496 + (Z.pos m - 4503599627370496))
  end.

Definition f64_of_bits (n : Z) : f64 :=
  let s := 9223372036854775808 <=? n in
  let ex := (n / 4503599627370496) mod 2048 in
  let m := n mod 4503599627370496 in
  if ex =? 2047 then (if m =? 0 then S754_infinity s else S754_nan)
  else if ex =? 0 then (match m with Z.pos p => S754_finite s p (-1074) | _ => S754_zero s end)
  else match m + 4503599627370496 with Z.pos p => S754_finite s p (ex - 1075) | _ => S754_nan end.

Definition f64_le_bytes (v : f64) : bytes := le_bytes 8 (f64_bits v).
Definition f64_of_le_bytes (l : bytes) : f64 := f64_of_bits (of_le_bytes l).

(** The numbers of the binary64 format. *)
Definition is_f64 (v : f64) : Prop := valid_binary 53 1024 v = true.

Lemma digits2_bound m : 2 ^ (Z.pos (digits2_pos m) - 1) <= Z.pos m < 2 ^ Z.pos (digits2_pos m).
Proof.
  induction m as [m IH|m IH|]; cbn [digits2_pos]; [..|done].
  all: rewrite Pos2Z.inj_succ; replace (Z.succ (Z.pos (digits2_pos m)) - 1) with (Z.succ (Z.pos (digits2_pos m) - 1)) by lia.
  all: rewrite !Z.pow_succ_r by lia; lia.
Qed.

(** A finite number is normal or subnormal. *)
Lemma finite_cases s m e : is_f64 (S754_finite s m e) ->
  (Z.pos m < 4503599627370496 /\ e = -1074)
  \/ (4503599627370496 <= Z.pos m < 9007199254740992 /\ -1074 <= e <= 971).
Proof.
  unfold is_f64, valid_binary, bounded, canonical_mantissa, fexp, emin. intros [Hc He]%andb_prop.
  apply Z.leb_le in He. apply Z.eqb_eq in Hc. pose proof (digits2_bound m) as [Hlo Hhi].
  set (d := Z.pos (digits2_pos m)) in *.
  assert (Hd : d <= 53) by lia. destruct (Z.eq_dec d 53) as [E|Hne].
  - right. rewrite E in *. split; [done|]. lia.
  - left. split; [|lia]. eapply Z.lt_le_trans; [exact Hhi|]. change 4503599627370496 with (2 ^ 52). apply Z.pow_le_mono_r; lia.
Qed.

Lemma f64_bits_range v : is_f64 v -> 0 <= f64_bits v < 256 ^ 8.
Proof.
  change (256 ^ 8) with 18446744073709551616. destruct v as [[]|[]| |s m e]; try (simpl; lia).
  intros [[]|[]]%finite_cases; unfold f64_bits; destruct (Z.ltb_spec (Z.pos m) 4503599627370496), s; lia.
Qed.

Lemma split_bits (s : bool) ex m :
  0 <= ex < 2048 -> 0 <= m < 4503599627370496 ->
  let n := (if s then 9223372036854775808 else 0) + ex * 4503599627370496 + m in
  (9223372036854775808 <=? n) = s /\ (n / 4503599627370496) mod 2048 = ex /\ n mod 4503599627370496 = m.
Proof.
  intros He Hm n. split_and!.
  - destruct s; unfold n; [apply Z.leb_le|apply Z.leb_gt]; lia.
  - replace n with (((if s then 2048 else 0) + ex) * 4503599627370496 + m) by (unfold n; destruct s; lia).
    rewrite Z.div_add_l, (Z.div_small m) by lia. rewrite Z.add_0_r. destruct s.
    + replace (2048 + ex) with (ex + 1 * 2048) by lia. rewrite Z.mod_add by lia. by apply Z.mod_small.
    + by apply Z.mod_small.
  - replace n with (m + ((if s then 2048 else 0) + ex) * 4503599627370496) by (unfold n; destruct s; lia).
    rewrite Z.mod_add by lia. by apply Z.mod_small.
Qed.

Lemma f64_of_bits_bits v : is_f64 v -> f64_of_bits (f64_bits v) = v.
Proof.
  destruct v as [[]|[]| |s m e]; try done. intros [[Hm ->]|[Hm He]]%finite_cases.
  - destruct (split_bits s 0 (Z.pos m)) as (Hs & Hx & Hmm); [lia..|].
    replace (f64_bits _) with ((if s then 9223372036854775808 else 0) + 0 * 4503599627370496 + Z.pos m)
      by (unfold f64_bits; destruct (Z.ltb_spec (Z.pos m) 4503599627370496), s; lia).
    unfold f64_of_bits. by rewrite Hs, Hx, Hmm.
  - destruct (split_bits s (e + 1075) (Z.pos m - 4503599627370496)) as (Hs & Hx & Hmm); [lia..|].
    replace (f64_bits _) with ((if s then 9223372036854775808 else 0) + (e + 1075) * 4503599627370496 + (Z.pos m - 4503599627370496))
      by (unfold f64_bits; destruct (Z.ltb_spec (Z.pos m) 4503599627370496), s; lia).
    unfold f64_of_bits. rewrite Hs, Hx, Hmm.
    destruct (Z.eqb_spec (e + 1075) 2047); [lia|]. destruct (Z.eqb_spec (e + 1075) 0); [lia|].
    replace (Z.pos m - 4503599627370496 + 4503599627370496) with (Z.pos m) by lia. f_equal. lia.
Qed.

Lemma f64_of_le_bytes_bytes v : is_f64 v -> f64_of_le_bytes (f64_le_bytes v) = v.
Proof.
  intros Hv. unfold f64_of_le_bytes, f64_le_bytes. rewrite of_le_le_bytes by by apply f64_bits_range. by apply f64_of_bits_bits.
Qed.
