(* ===== verification/Rdb.v ===== *)
(** * The database file (src/storage/rdb.rs)

    The writer of a snapshot, the image for replicas, the reader, and the engine
    of SAVE and BGSAVE.  Writing to the file and renaming it are taken to
    succeed; the file is its bytes, if it exists. *)

From S2P Require Import Prelude Text Resp StreamId Stream SortedSet Value PubSub Blocking Keyspace ListOps SetOps ZSetOps Command StringCommands F64Bits.

Open Scope Z_scope.

Definition RDB_VERSION : Z := 9.
Definition RDB_MAGIC : bytes := B "REDIS".

(** [RdbOpcode] *)
Definition OP_EOF : Z := 255.
Definition OP_SELECT_DB : Z := 254.
Definition OP_EXPIRE_S : Z := 253.
Definition OP_EXPIRE_MS : Z := 252.
Definition OP_RESIZE_DB : Z := 251.
Definition OP_AUX : Z := 250.
Definition OP_STRING : Z := 0.
Definition OP_LIST : Z := 1.
Definition OP_SET : Z := 2.
Definition OP_ZSET : Z := 3.
Definition OP_HASH : Z := 4.
Definition OP_ZSET2 : Z := 5.

(** The marker of a stream, which is written as a list. *)
Definition stream_marker : bytes := B "__FERROUS_STREAM_MARKER__".

(** The version of the package, from its manifest. *)
Definition PKG_VERSION : bytes := B "0.1.0".

(** [format!("{:04}", RDB_VERSION)] *)
Definition version_digits : bytes := replicate (4 - length (show_u64 RDB_VERSION)) "0"%byte ++ show_u64 RDB_VERSION.

Definition u32_of (n : Z) : Z := n mod 4294967296.

(** ** The writer *)

Record RdbWriter := mkWriter {
  written : bytes;
  bytes_written : Z;
  crc : Z;
}.

Definition writer_new : RdbWriter := mkWriter [] 0 0.

Definition write_raw (data : bytes) (w : RdbWriter) : RdbWriter :=
  mkWriter (written w ++ data) (u64_wrap (bytes_written w + Z.of_nat (length data)))
    (foldl (fun c b => u64_wrap (c + u8 b)) (crc w) data).

Definition write_byte (b : Z) : RdbWriter -> RdbWriter := write_raw [byte_of b].

Definition write_length (len : Z) (w : RdbWriter) : RdbWriter :=
  if len <=? 63 then write_byte len w
  else if len <=? 16383 then
    write_byte (Z.land len 255) (write_byte (Z.lor (Z.land (Z.shiftr len 8) 63) 64) w)
  else write_raw (be_bytes 4 (u32_of len)) (write_byte 128 w).

Definition write_string (s : bytes) (w : RdbWriter) : RdbWriter := write_raw s (write_length (Z.of_nat (length s)) w).

Definition write_strings (l : list bytes) (w : RdbWriter) : RdbWriter := foldl (fun w s => write_string s w) w l.

Definition write_u64_le (n : Z) : RdbWriter -> RdbWriter := write_raw (le_bytes 8 n).
Definition write_f64 (v : f64) : RdbWriter -> RdbWriter := write_raw (f64_le_bytes v).

Definition write_aux (key v : bytes) (w : RdbWriter) : RdbWriter := write_string v (write_string key (write_byte OP_AUX w)).

Definition write_header (w : RdbWriter) : RdbWriter := write_raw version_digits (write_raw RDB_MAGIC w).

(** [seconds]: the system time. *)
Definition write_metadata (seconds : Z) (w : RdbWriter) : RdbWriter :=
  write_aux (B "ctime") (show_u64 seconds) (write_aux (B "redis-ver") PKG_VERSION w).

Definition write_db_selector (db : nat) (w : RdbWriter) : RdbWriter :=
  write_length (Z.of_nat db) (write_byte OP_SELECT_DB w).

Definition write_resize_db (db_size expires_size : Z) (w : RdbWriter) : RdbWriter :=
  write_length expires_size (write_length db_size (write_byte OP_RESIZE_DB w)).

Definition write_eof : RdbWriter -> RdbWriter := write_byte OP_EOF.
Definition write_checksum (w : RdbWriter) : RdbWriter := write_u64_le (crc w) w.

Section rdb.
Context {ZS : Type} `{SortedSet ZS} `{Layout} `{HashIter} `{Random}.

Abbreviation engine := (StorageEngine ZS).

(** The strings of a list of fields and values. *)
Definition flatten_pairs (fvs : list (bytes * bytes)) : list bytes := concat (map (fun fv => [fv.1; fv.2]) fvs).

(** An entry of a stream: its id, the number of its fields, the fields. *)
Definition entry_strings (x : StreamEntry) : list bytes :=
  sid_to_string (entry_id x) :: show_u64 (Z.of_nat (size (entry_fields x))) :: flatten_pairs (map_iter (entry_fields x)).

(** All entries, by [range] from the least to the greatest id. *)
Definition stream_strings (s : Stream) : list bytes :=
  stream_marker :: concat (map entry_strings (range s sid_min sid_max None false)).

Definition write_value (v : Value ZS) (w : RdbWriter) : outcome RdbWriter :=
  match v with
  | VString b => Ok (write_string b w)
  | VSortedSet z =>
      let len := zs_len z in
      let w1 := write_length len w in
      let? items := zs_range_by_rank z 0 (u64_wrap (len - 1)) in
      Ok (foldl (fun w ms => write_f64 ms.2 (write_string ms.1 w)) w1 items)
  | VStream s => let l := stream_strings s in Ok (write_strings l (write_length (Z.of_nat (length l)) w))
  | VList l => Ok (write_strings l (write_length (Z.of_nat (length l)) w))
  | VSet s => Ok (write_strings (set_iter s) (write_length (Z.of_nat (size s)) w))
  | VHash h => Ok (write_strings (flatten_pairs (map_iter h)) (write_length (Z.of_nat (size h)) w))
  end.

Definition value_opcode (v : Value ZS) : Z :=
  match v with
  | VString _ => OP_STRING
  | VList _ | VStream _ => OP_LIST
  | VSet _ => OP_SET
  | VHash _ => OP_HASH
  | VSortedSet _ => OP_ZSET
  end.

(** [expiry_ms] is the system time in milliseconds plus the time to live. *)
Definition write_key_value (key : bytes) (v : Value ZS) (expiry_ms : option Z) (w : RdbWriter) : outcome RdbWriter :=
  let w1 := match expiry_ms with Some ms => write_u64_le ms (write_byte OP_EXPIRE_MS w) | None => w end in
  write_value v (write_string key (write_byte (value_opcode v) w1)).

(** The system time is read when there is a time to live. *)
Definition expiry_of (ttl : option Z) : cmd engine (option Z) :=
  match ttl with
  | None => ret None
  | Some d => let* t := system_time in ret (Some (u64_wrap (u64_wrap (t / 1000000) + u64_wrap (d / 1000000))))
  end.

Definition write_key (db : nat) (key : bytes) (w : RdbWriter) : cmd engine RdbWriter :=
  let* t := now in
  let* r := try_op (fun e => engine_get t e db key) in
  match r with
  | Found v =>
      let* t' := now in
      let* d := try_op (fun e => ttl t' e db key) in
      let* expiry := expiry_of d in
      try_op (fun e => (e, write_key_value key v expiry w))
  | _ => ret w
  end.

Definition write_database (db : nat) (w : RdbWriter) : cmd engine RdbWriter :=
  let* keys := try_op (reads (fun e => get_all_keys e db)) in
  match keys with
  | [] => ret w
  | _ =>
      let n := Z.of_nat (length keys) in
      for_each keys (write_key db) (write_resize_db n n (write_db_selector db w))
  end.

Definition database_count_of : cmd engine nat := try_op (fun e => (e, Ok (database_count e))).

Definition write_snapshot : cmd engine bytes :=
  let* t := system_time in
  let* n := database_count_of in
  let* w := for_each (seq 0 n) write_database (write_metadata (t / 1000000000) (write_header writer_new)) in
  ret (written (write_checksum (write_eof w))).

(** *** The image for replicas, which has a buffer of its own and no checksum *)

Definition image_expiry (ttl : option Z) : cmd engine (option Z) :=
  match ttl with
  | None => ret None
  | Some d => let* t := system_time in ret (Some (u64_wrap ((t + d) / 1000000)))
  end.

(** The length of a sorted set is that of the list that was read. *)
Definition image_value (v : Value ZS) (w : RdbWriter) : outcome RdbWriter :=
  match v with
  | VSortedSet z =>
      let? items := zs_range_by_rank z 0 (u64_wrap (zs_len z - 1)) in
      Ok (foldl (fun w ms => write_f64 ms.2 (write_string ms.1 w)) (write_length (Z.of_nat (length items)) w) items)
  | _ => write_value v w
  end.

Definition image_key_value (key : bytes) (v : Value ZS) (expiry_ms : option Z) (w : RdbWriter) : outcome RdbWriter :=
  let w1 := match expiry_ms with Some ms => write_u64_le ms (write_byte OP_EXPIRE_MS w) | None => w end in
  image_value v (write_string key (write_byte (value_opcode v) w1)).

Definition image_key (db : nat) (key : bytes) (w : RdbWriter) : cmd engine RdbWriter :=
  let* t := now in
  let* r := try_op (fun e => engine_get t e db key) in
  match r with
  | Found v =>
      let* t' := now in
      let* d := try_op (fun e => ttl t' e db key) in
      let* expiry := image_expiry d in
      try_op (fun e => (e, image_key_value key v expiry w))
  | _ => ret w
  end.

Definition image_database (db : nat) (w : RdbWriter) : cmd engine RdbWriter :=
  let* keys := try_op (reads (fun e => get_all_keys e db)) in
  match keys with
  | [] => ret w
  | _ =>
      for_each keys (image_key db) (write_resize_db (Z.of_nat (length keys)) 0 (write_db_selector db w))
  end.

Definition generate_rdb_bytes : cmd engine bytes :=
  let* t := system_time in
  let* mem := try_op (fun e => (e, Ok (used_memory (memory_manager e)))) in
  let* n := database_count_of in
  let w0 := write_aux (B "ctime") (show_u64 (t / 1000000000))
              (write_aux (B "redis-bits") (B "64") (write_aux (B "redis-ver") PKG_VERSION (write_header writer_new))) in
  let* w := for_each (seq 0 n) image_database (write_aux (B "used-mem") (show_u64 mem) w0) in
  ret (written (write_u64_le 0 (write_eof w))).
End rdb.

(** ** The reader *)

(** What is left of the file and the store that is filled. *)
Record Loading {ZS : Type} := mkLoading {
  input : bytes;
  store : StorageEngine ZS;
}.
Arguments Loading : clear implicits.
Arguments mkLoading {ZS}.
Arguments input {ZS}.
Arguments store {ZS}.

Section reader.
Context {ZS : Type} `{SortedSet ZS} `{Layout} `{HashIter} `{Random}.

Abbreviation engine := (StorageEngine ZS).
Abbreviation load := (cmd (Loading ZS)).

Definition short_read : ferrous_error := EIo (B "failed to fill whole buffer").
Definition invalid_format : ferrous_error := EIo (B "Invalid RDB file format").
Definition invalid_version : ferrous_error := EIo (B "Invalid RDB version").
Definition invalid_length : ferrous_error := EIo (B "Invalid length encoding").
Definition unknown_type (ty : Z) : ferrous_error := EIo (B "Unknown value type: " ++ show_u64 ty).

Definition read_exact (n : Z) : load bytes :=
  try_op (fun s =>
    if Z.of_nat (length (input s)) <? n then (mkLoading [] (store s), Err short_read)
    else (mkLoading (drop (Z.to_nat n) (input s)) (store s), Ok (take (Z.to_nat n) (input s)))).

Definition read_byte : load Z :=
  let* b := read_exact 1 in
  match b with [x] => ret (u8 x) | _ => crash end.

Definition read_length : load Z :=
  let* first := read_byte in
  let ty := Z.shiftr first 6 in
  if ty =? 0 then ret first
  else if ty =? 1 then
    let* second := read_byte in ret (Z.lor (Z.shiftl (Z.land first 63) 8) second)
  else if ty =? 2 then
    let* b := read_exact 4 in ret (of_be_bytes b)
  else fail_with invalid_length.

Definition read_string : load bytes := let* len := read_length in read_exact len.

Definition read_u32_le : load Z := let* b := read_exact 4 in ret (of_le_bytes b).
Definition read_u64_le : load Z := let* b := read_exact 8 in ret (of_le_bytes b).
Definition read_f64 : load f64 := let* b := read_exact 8 in ret (f64_of_le_bytes b).

(** [for _ in 0..count { .. }] *)
Fixpoint repeat_read (count : nat) (body : load unit) : load unit :=
  match count with O => ret tt | S n => let* _ := body in repeat_read n body end.

Fixpoint read_many {A} (count : nat) (body : load A) : load (list A) :=
  match count with
  | O => ret []
  | S n => let* x := body in let* l := read_many n body in ret (x :: l)
  end.

Definition read_pair : load (bytes * bytes) :=
  let* a := read_string in let* b := read_string in ret (a, b).

(** An operation on the store, followed by [?]. *)
Definition on_store {A} (f : engine -> engine * outcome A) : Loading ZS -> Loading ZS * outcome A := fun s =>
  let '(e, r) := f (store s) in (mkLoading (input s) e, r).

Definition store_op {A} (f : engine -> engine * outcome A) : load A := try_op (on_store f).

Definition set_ttl (db : nat) (key : bytes) (ttl : option Z) : load unit :=
  match ttl with
  | None => ret tt
  | Some d =>
      let* t1 := now in
      let* t2 := now in
      let* _ := store_op (fun e => expire t1 t2 e db key d) in ret tt
  end.

Definition read_string_value (db : nat) (ttl : option Z) : load unit :=
  let* key := read_string in
  let* v := read_string in
  let* t := now in
  match ttl with
  | Some d => store_op (fun e => set_string_ex t e db key v d)
  | None => store_op (fun e => set_string t e db key v)
  end.

Definition read_zset (db : nat) (ttl : option Z) : load unit :=
  let* key := read_string in
  let* count := read_length in
  let* _ := repeat_read (Z.to_nat count)
    (let* member := read_string in
     let* score := read_f64 in
     let* r := draw in
     let* t := now in
     let* _ := store_op (fun e => zadd (random_level r) t e db key member score) in ret tt) in
  set_ttl db key ttl.

(** The entries of a stream; [idx] counts the strings that were read.  The
    errors of XADD are ignored. *)
Fixpoint read_entries (fuel : nat) (db : nat) (key : bytes) (idx remaining : Z) : load unit :=
  match fuel with
  | O => crash
  | S fuel' =>
      if negb (idx <? remaining) then ret tt
      else if remaining <=? idx + 2 then ret tt
      else
        let* id_str := read_string in
        let* count_str := read_string in
        let field_count := if utf8_valid count_str then default 0 (parse_u64 count_str) else 0 in
        if remaining <? u64_wrap (idx + 2 + u64_wrap (field_count * 2)) then ret tt
        else
          let* fvs := read_many (Z.to_nat field_count) read_pair in
          let* _ :=
            match sid_from_string (if utf8_valid id_str then id_str else []) with
            | Some i =>
                let* t := now in
                let* _ := catch_op (on_store (fun e => xadd_with_id t e db key i (insert_fields ∅ fvs).1)) in ret tt
            | None => ret tt
            end in
          read_entries fuel' db key (idx + 2 + 2 * field_count) remaining
  end.

Definition push_one (db : nat) (key x : bytes) : load unit :=
  let* t := now in let* _ := store_op (fun e => rpush t e db key [x]) in ret tt.

(** A list, or a stream when the first element is the marker. *)
Definition read_list (db : nat) (ttl : option Z) : load unit :=
  let* key := read_string in
  let* count := read_length in
  if 1 <=? count then
    let* first := read_string in
    if bool_decide (first = stream_marker) then
      let* _ := read_entries (Z.to_nat count) db key 0 (count - 1) in
      set_ttl db key ttl
    else
      let* _ := push_one db key first in
      let* _ := repeat_read (Z.to_nat (count - 1)) (let* x := read_string in push_one db key x) in
      set_ttl db key ttl
  else set_ttl db key ttl.

Definition read_set_value (db : nat) (ttl : option Z) : load unit :=
  let* key := read_string in
  let* count := read_length in
  let* members := read_many (Z.to_nat count) read_string in
  let* t := now in
  let* _ := store_op (fun e => sadd t e db key members) in
  set_ttl db key ttl.

Definition read_hash (db : nat) (ttl : option Z) : load unit :=
  let* key := read_string in
  let* count := read_length in
  let* fvs := read_many (Z.to_nat count) read_pair in
  let* t := now in
  let* _ := store_op (fun e => hset t e db key fvs) in
  set_ttl db key ttl.

Definition read_key_value_with_type (db : nat) (ty : Z) (ttl : option Z) : load unit :=
  if ty =? OP_STRING then read_string_value db ttl
  else if (ty =? OP_ZSET) || (ty =? OP_ZSET2) then read_zset db ttl
  else if ty =? OP_LIST then read_list db ttl
  else if ty =? OP_SET then read_set_value db ttl
  else if ty =? OP_HASH then read_hash db ttl
  else fail_with (unknown_type ty).

(** An expiry that has passed counts as none. *)
Definition ttl_of_expiry (expiry_ms system_time : Z) : option Z :=
  let now_ms := u64_wrap (system_time / 1000000) in
  if now_ms <? expiry_ms then Some ((expiry_ms - now_ms) * 1000000) else None.

Definition read_key_value_with_expiry (db : nat) (expiry_ms : Z) : load unit :=
  let* ty := read_byte in
  let* t := system_time in
  read_key_value_with_type db ty (ttl_of_expiry expiry_ms t).

Definition read_header : load unit :=
  let* magic := read_exact 5 in
  if negb (bool_decide (magic = RDB_MAGIC)) then fail_with invalid_format
  else
    let* version := read_exact 4 in
    match parse_u64 (utf8_lossy version) with
    | Some n => if n <=? 65535 then ret tt else fail_with invalid_version
    | None => fail_with invalid_version
    end.

(** Every turn reads a byte. *)
Fixpoint load_loop (fuel : nat) (db : nat) : load unit :=
  match fuel with
  | O => crash
  | S fuel' =>
      let* opcode := read_byte in
      if opcode =? OP_EOF then let* _ := read_u64_le in ret tt
      else if opcode =? OP_SELECT_DB then let* n := read_length in load_loop fuel' (Z.to_nat n)
      else if opcode =? OP_RESIZE_DB then
        let* _ := read_length in let* _ := read_length in load_loop fuel' db
      else if opcode =? OP_AUX then
        let* _ := read_string in let* _ := read_string in load_loop fuel' db
      else if opcode =? OP_EXPIRE_MS then
        let* ms := read_u64_le in let* _ := read_key_value_with_expiry db ms in load_loop fuel' db
      else if opcode =? OP_EXPIRE_S then
        let* secs := read_u32_le in let* _ := read_key_value_with_expiry db (secs * 1000) in load_loop fuel' db
      else let* _ := read_key_value_with_type db opcode None in load_loop fuel' db
  end.

Definition load_into : load unit :=
  let* _ := read_header in
  fun w s => load_loop (S (length (input s))) 0 w s.
End reader.

(** ** SAVE, BGSAVE and loading *)

Record RdbEngine := mkRdbEngine {
  rdb_file : option bytes;
  bgsave_in_progress : bool;
  last_save_time : option Z;
}.

Definition rdb_new (file : option bytes) : RdbEngine := mkRdbEngine file false None.

Section engine.
Context {ZS : Type} `{SortedSet ZS} `{Layout} `{HashIter} `{Random}.

Abbreviation engine := (StorageEngine ZS).

(** No file is nothing to load. *)
Definition rdb_load (r : RdbEngine) : cmd engine unit := fun w e =>
  match rdb_file r with
  | None => (w, e, Go tt)
  | Some file =>
      let '(w', s, x) := load_into w (mkLoading file e) in (w', store s, x)
  end.

Definition save (r : RdbEngine) : cmd engine RdbEngine :=
  let* file := write_snapshot in
  let* t := system_time in
  ret (mkRdbEngine (Some file) (bgsave_in_progress r) (Some t)).

(** The request, and what its thread does. *)
Definition bgsave (r : RdbEngine) : outcome RdbEngine :=
  if bgsave_in_progress r then Err (EInternal (B "Background save already in progress"))
  else Ok (mkRdbEngine (rdb_file r) true (last_save_time r)).

Definition bgsave_thread (r : RdbEngine) : cmd engine RdbEngine := fun w e =>
  match save r w e with
  | (w', e', Go r') => (w', e', Go (mkRdbEngine (rdb_file r') false (last_save_time r')))
  | (w', e', Crash) => (w', e', Crash)
  | (w', e', _) => (w', e', Go (mkRdbEngine (rdb_file r) false (last_save_time r)))
  end.

Definition is_bgsave_in_progress (r : RdbEngine) : bool := bgsave_in_progress r.
End engine.
