(* ===== verification/RdbCodec.v ===== *)
(** * What the writer writes, the reader reads

    The bytes of each piece of the file ([enc_*]), that the writer appends them,
    and that the reader consumes them whatever follows.  What the file keeps of
    a value ([content]), its bytes, and that reading them puts the content under
    the key, next to whatever the store holds. *)

From S2P Require Import Prelude Text Resp SortedVec StreamId Stream StreamProofs SortedSet Value PubSub Blocking Keyspace StringOps ListOps SetOps ZSetOps Scan Command F64Bits Rdb.
From S2P Require Import KeyspaceProofs CollectionProofs EngineSteps EngineWatch SetSpec.

Open Scope Z_scope.

(** ** The encoding *)

Definition enc_byte (b : Z) : bytes := [byte_of b].

Definition enc_length (n : Z) : bytes :=
  if n <=? 63 then enc_byte n
  else if n <=? 16383 then enc_byte (Z.lor (Z.land (Z.shiftr n 8) 63) 64) ++ enc_byte (Z.land n 255)
  else enc_byte 128 ++ be_bytes 4 (u32_of n).

Definition enc_string (s : bytes) : bytes := enc_length (Z.of_nat (length s)) ++ s.
Definition enc_strings (l : list bytes) : bytes := concat (map enc_string l).
Definition enc_counted (l : list bytes) : bytes := enc_length (Z.of_nat (length l)) ++ enc_strings l.
Definition enc_aux (k v : bytes) : bytes := enc_byte OP_AUX ++ enc_string k ++ enc_string v.
Definition enc_scored (x : bytes * f64) : bytes := enc_string x.1 ++ f64_le_bytes x.2.

Lemma written_raw d w : written (write_raw d w) = written w ++ d.
Proof. done. Qed.

Lemma written_byte b w : written (write_byte b w) = written w ++ enc_byte b.
Proof. done. Qed.

Lemma written_length n w : written (write_length n w) = written w ++ enc_length n.
Proof.
  unfold write_length, enc_length. destruct (n <=? 63); [done|].
  destruct (n <=? 16383); rewrite ?written_raw, ?written_byte, <- app_assoc; done.
Qed.

Lemma written_string s w : written (write_string s w) = written w ++ enc_string s.
Proof. unfold write_string, enc_string. by rewrite written_raw, written_length, app_assoc. Qed.

Lemma written_strings l : forall w, written (write_strings l w) = written w ++ enc_strings l.
Proof.
  unfold write_strings, enc_strings. induction l as [|s l IH]; intros w; simpl; [by rewrite app_nil_r|].
  by rewrite IH, written_string, app_assoc.
Qed.

Lemma written_aux k v w : written (write_aux k v w) = written w ++ enc_aux k v.
Proof. unfold write_aux, enc_aux. by rewrite !written_string, written_byte, !app_assoc. Qed.

Lemma written_u64 n w : written (write_u64_le n w) = written w ++ le_bytes 8 n.
Proof. done. Qed.

Lemma written_scored l : forall w,
  written (foldl (fun w ms => write_f64 ms.2 (write_string ms.1 w)) w l) = written w ++ concat (map enc_scored l).
Proof.
  induction l as [|x l IH]; intros w; simpl; [by rewrite app_nil_r|].
  rewrite IH. unfold write_f64. rewrite written_raw, written_string. unfold enc_scored. by rewrite !app_assoc.
Qed.

Create Rewrite HintDb written.
#[export] Hint Rewrite written_raw written_byte written_length written_string written_strings written_aux written_u64 written_scored : written.

(** ** Reading *)

Definition short (n : Z) : Prop := 0 <= n < 4294967296.
Definition short_string (s : bytes) : Prop := short (Z.of_nat (length s)).

Lemma below (n : Z) (p : Z -> bool) : forallb p (seqZ 0 n) = true -> forall z, 0 <= z < n -> p z = true.
Proof. rewrite forallb_forall. intros Hp z Hz. apply Hp, list_elem_of_In, elem_of_seqZ. lia. Qed.

(** The two bytes of a length of 14 bits. *)
Lemma length_bits n : 0 <= n < 16384 ->
  let first := Z.lor (Z.land (Z.shiftr n 8) 63) 64 in
  0 <= first < 256 /\ 0 <= Z.land n 255 < 256 /\ Z.shiftr first 6 = 1
  /\ Z.lor (Z.shiftl (Z.land first 63) 8) (Z.land n 255) = n.
Proof.
  intros Hn first.
  pose proof (below 16384 (fun n => let first := Z.lor (Z.land (Z.shiftr n 8) 63) 64 in
    (0 <=? first) && (first <? 256) && (0 <=? Z.land n 255) && (Z.land n 255 <? 256) && (Z.shiftr first 6 =? 1)
    && (Z.lor (Z.shiftl (Z.land first 63) 8) (Z.land n 255) =? n)) ltac:(vm_compute; reflexivity) n Hn) as Hb.
  cbv zeta in Hb. fold first in Hb. rewrite !andb_true_iff, !Z.leb_le, !Z.ltb_lt, !Z.eqb_eq in Hb. tauto.
Qed.

Section reading.
Context {ZS : Type} `{SortedSet ZS} `{Layout} `{HashIter} `{Random}.
Abbreviation load := (cmd (Loading ZS)).

(** [m] takes exactly [data] off the input and answers [a]. *)
Definition consumes {A} (m : load A) (data : bytes) (a : A) : Prop :=
  forall w rest e, m w (mkLoading (data ++ rest) e) = (w, mkLoading rest e, Go a).

Lemma consumes_ret {A} (a : A) : consumes (ret a) [] a.
Proof. done. Qed.

Lemma consumes_bind {A C} (m : load A) (k : A -> load C) d1 d2 a c :
  consumes m d1 a -> consumes (k a) d2 c -> consumes (bind m k) (d1 ++ d2) c.
Proof. intros Hm Hk w rest e. unfold bind. rewrite <- app_assoc, Hm. apply Hk. Qed.

Lemma consumes_map {A C} (m : load A) (f : A -> C) d a : consumes m d a -> consumes (let* x := m in ret (f x)) d (f a).
Proof. intros Hm. rewrite <- (app_nil_r d). by eapply consumes_bind. Qed.

Lemma consumes_exact d n : n = Z.of_nat (length d) -> consumes (read_exact n) d d.
Proof.
  intros -> w rest e. unfold read_exact, try_op. cbn [input store]. rewrite length_app.
  destruct (Z.ltb_spec (Z.of_nat (length d + length rest)) (Z.of_nat (length d))); [lia|].
  rewrite Nat2Z.id, take_app_length, drop_app_length. done.
Qed.

Lemma consumes_byte b : 0 <= b < 256 -> consumes read_byte (enc_byte b) b.
Proof.
  intros Hb. unfold read_byte. rewrite <- (app_nil_r (enc_byte b)). eapply consumes_bind; [by apply consumes_exact|].
  simpl. rewrite u8_byte_of by done. apply consumes_ret.
Qed.

Lemma consumes_length n : short n -> consumes read_length (enc_length n) n.
Proof.
  intros [Hlo Hhi]. unfold read_length, enc_length. destruct (Z.leb_spec n 63); [|destruct (Z.leb_spec n 16383)].
  - rewrite <- (app_nil_r (enc_byte n)). eapply consumes_bind; [apply consumes_byte; lia|].
    assert (Z.shiftr n 6 = 0) as -> by (rewrite Z.shiftr_div_pow2 by lia; change (2 ^ 6) with 64; apply Z.div_small; lia).
    apply consumes_ret.
  - destruct (length_bits n ltac:(lia)) as (Hf & Hl & Hs & En).
    set (first := Z.lor (Z.land (Z.shiftr n 8) 63) 64) in *. eapply consumes_bind; [by apply consumes_byte|].
    cbv zeta. rewrite Hs. simpl. rewrite <- (app_nil_r (enc_byte (Z.land n 255))).
    eapply consumes_bind; [by apply consumes_byte|]. rewrite En. apply consumes_ret.
  - eapply consumes_bind; [apply consumes_byte; lia|]. change (Z.shiftr 128 6) with 2. simpl.
    rewrite <- (app_nil_r (be_bytes 4 (u32_of n))). eapply consumes_bind; [apply consumes_exact; by rewrite length_be_bytes|].
    unfold u32_of. rewrite Z.mod_small, of_be_be_bytes by done. apply consumes_ret.
Qed.

Lemma consumes_string s : short_string s -> consumes read_string (enc_string s) s.
Proof.
  intros Hs. unfold read_string, enc_string. eapply consumes_bind; [by apply consumes_length|]. by apply consumes_exact.
Qed.

Lemma consumes_u64 n : in_u64 n -> consumes read_u64_le (le_bytes 8 n) n.
Proof.
  intros Hn. unfold read_u64_le. rewrite <- (app_nil_r (le_bytes 8 n)).
  eapply consumes_bind; [apply consumes_exact; by rewrite length_le_bytes|].
  rewrite of_le_le_bytes; [apply consumes_ret|]. unfold in_u64, u64_max in Hn. change (256 ^ Z.of_nat 8) with 18446744073709551616. lia.
Qed.

Lemma consumes_f64 v : is_f64 v -> consumes read_f64 (f64_le_bytes v) v.
Proof.
  intros Hv. unfold read_f64. rewrite <- (app_nil_r (f64_le_bytes v)).
  eapply consumes_bind; [apply consumes_exact; unfold f64_le_bytes; by rewrite length_le_bytes|].
  rewrite f64_of_le_bytes_bytes by done. apply consumes_ret.
Qed.

Lemma consumes_pair a b : short_string a -> short_string b -> consumes read_pair (enc_string a ++ enc_string b) (a, b).
Proof. intros Ha Hb. unfold read_pair. eapply consumes_bind; [by apply consumes_string|]. by apply consumes_map, consumes_string. Qed.

Lemma consumes_many {A X} (body : load A) (enc : X -> bytes) (val : X -> A) (l : list X) :
  (forall x, x ∈ l -> consumes body (enc x) (val x)) -> consumes (read_many (length l) body) (concat (map enc l)) (map val l).
Proof.
  induction l as [|x l IH]; intros Hb; simpl; [apply consumes_ret|].
  eapply consumes_bind; [apply Hb; left|]. apply (consumes_map _ (cons (val x))). apply IH. intros y Hy. apply Hb. by right.
Qed.

Lemma consumes_strings l : Forall short_string l -> consumes (read_many (length l) read_string) (enc_strings l) l.
Proof.
  intros Hl. rewrite <- (map_id l) at 3. apply (consumes_many read_string enc_string id). intros x Hx.
  rewrite Forall_forall in Hl. by apply consumes_string, Hl.
Qed.

Lemma consumes_pairs (fvs : list (bytes * bytes)) :
  Forall (fun fv => short_string fv.1 /\ short_string fv.2) fvs ->
  consumes (read_many (length fvs) read_pair) (enc_strings (flatten_pairs fvs)) fvs.
Proof.
  intros Hl. assert (E : enc_strings (flatten_pairs fvs) = concat (map (fun fv => enc_string fv.1 ++ enc_string fv.2) fvs)).
  { clear. unfold enc_strings, flatten_pairs. induction fvs as [|fv l IH]; simpl; [done|]. by rewrite IH, app_assoc. }
  rewrite E. rewrite <- (map_id fvs) at 3. apply (consumes_many read_pair _ id). intros [a b] Hx.
  rewrite Forall_forall in Hl. destruct (Hl _ Hx). by apply consumes_pair.
Qed.

(** ** Programs on the store *)

(** [m] takes exactly [data] off the input and takes a store with [P] to one with [Q]. *)
Definition loads {A} (P : StorageEngine ZS -> Prop) (m : load A) (data : bytes) (Q : StorageEngine ZS -> A -> Prop) : Prop :=
  forall w rest e, P e -> exists w' e' a, m w (mkLoading (data ++ rest) e) = (w', mkLoading rest e', Go a) /\ Q e' a.

Lemma loads_consumes {A C} P (m : load A) (k : A -> load C) d1 d2 a Q :
  consumes m d1 a -> loads P (k a) d2 Q -> loads P (bind m k) (d1 ++ d2) Q.
Proof. intros Hm Hk w rest e He. unfold bind. rewrite <- app_assoc, Hm. by apply Hk. Qed.

Lemma loads_bind {A C} P (m : load A) (k : A -> load C) d1 d2 R Q :
  loads P m d1 R -> (forall a, loads (fun e => R e a) (k a) d2 Q) -> loads P (bind m k) (d1 ++ d2) Q.
Proof.
  intros Hm Hk w rest e He. unfold bind. rewrite <- app_assoc. destruct (Hm w (d2 ++ rest) e He) as (w' & e' & a & -> & Ha).
  by apply Hk.
Qed.

Lemma loads_ret {A} (P : StorageEngine ZS -> Prop) (a : A) (Q : StorageEngine ZS -> A -> Prop) :
  (forall e, P e -> Q e a) -> loads P (ret a) [] Q.
Proof. intros HQ w rest e He. exists w, e, a. split; [done|auto]. Qed.

Lemma loads_world {A C} P (m : load A) (k : A -> load C) d Q :
  (forall w s, exists w' a, m w s = (w', s, Go a)) -> (forall a, loads P (k a) d Q) -> loads P (bind m k) d Q.
Proof. intros Hm Hk w rest e He. unfold bind. destruct (Hm w (mkLoading (d ++ rest) e)) as (w' & a & ->). by apply Hk. Qed.

Lemma loads_now {C} P (k : Z -> load C) d Q : (forall a, loads P (k a) d Q) -> loads P (bind now k) d Q.
Proof. apply loads_world. intros w s. unfold now. eauto. Qed.

Lemma loads_draw {C} P (k : Z -> load C) d Q : (forall a, loads P (k a) d Q) -> loads P (bind draw k) d Q.
Proof. apply loads_world. intros w s. unfold draw. eauto. Qed.

Lemma loads_system_time {C} P (k : Z -> load C) d Q : (forall a, loads P (k a) d Q) -> loads P (bind system_time k) d Q.
Proof. apply loads_world. intros w s. unfold system_time. eauto. Qed.

Lemma loads_op {A} (P : StorageEngine ZS -> Prop) f (Q : StorageEngine ZS -> A -> Prop) :
  (forall e, P e -> exists a, (f e).2 = Ok a /\ Q (f e).1 a) -> loads P (store_op f) [] Q.
Proof.
  intros Hf w rest e He. destruct (Hf e He) as (a & Hr & HQ). unfold store_op, try_op, on_store. cbn [store input].
  destruct (f e) as [e' r]. simpl in *. subst. eauto.
Qed.

Lemma loads_weaken {A} (P P' : StorageEngine ZS -> Prop) (m : load A) d (Q Q' : StorageEngine ZS -> A -> Prop) :
  loads P m d Q -> (forall e, P' e -> P e) -> (forall e a, Q e a -> Q' e a) -> loads P' m d Q'.
Proof. intros Hm HP HQ w rest e He. destruct (Hm w rest e (HP e He)) as (w' & e' & a & E & Ha). eauto 6. Qed.
End reading.

(** ** Loading one value *)

Inductive content :=
  | CString (b : bytes)
  | CList (l : list bytes)
  | CSet (s : gset bytes)
  | CHash (h : gmap bytes bytes)
  | CZSet (l : list (bytes * f64))
  | CStream (l : list StreamEntry).

Section contents.
Context {ZS : Type} `{SortedSet ZS} `{Layout} `{HashIter} `{Random} `{!SortedSetSpec ZS}.
Abbreviation engine := (StorageEngine ZS).
Abbreviation load := (cmd (Loading ZS)).
Abbreviation ok_stream := (stream_ok size_entry size_stream_data size_stream).

Definition has_content (v : Value ZS) (c : content) : Prop :=
  match c with
  | CString b => v = VString b
  | CList l => v = VList l
  | CSet s => v = VSet s
  | CHash h => v = VHash h
  | CZSet l => exists z, v = VSortedSet z /\ zs_rep z l
  | CStream l => exists s, v = VStream s /\ ok_stream s /\ entries s = l
  end.

Definition entry_short (x : StreamEntry) : Prop :=
  0 < entry_key x <= u128_max /\ entry_fields x <> ∅ /\ short (Z.of_nat (size (entry_fields x)))
  /\ map_Forall (fun f v => short_string f /\ short_string v) (entry_fields x).

(** What the format can hold: lengths of 32 bits, a list that does not start with
    the marker of streams, collections that are not empty. *)
Definition storable (c : content) : Prop :=
  match c with
  | CString b => short_string b
  | CList l => l <> [] /\ short (Z.of_nat (length l)) /\ Forall short_string l /\ head l <> Some stream_marker
  | CSet s => s <> ∅ /\ short (Z.of_nat (size s)) /\ set_Forall short_string s
  | CHash h => h <> ∅ /\ short (Z.of_nat (size h)) /\ map_Forall (fun f v => short_string f /\ short_string v) h
  | CZSet l => l <> [] /\ short (Z.of_nat (length l)) /\ Forall (fun x => short_string x.1 /\ is_f64 x.2) l
  | CStream l => l <> [] /\ Forall entry_short l
      /\ short (Z.of_nat (length (stream_marker :: concat (map entry_strings l))))
  end.

Definition content_opcode (c : content) : Z :=
  match c with
  | CString _ => OP_STRING | CList _ | CStream _ => OP_LIST | CSet _ => OP_SET | CHash _ => OP_HASH | CZSet _ => OP_ZSET
  end.

Definition enc_content (c : content) : bytes :=
  match c with
  | CString b => enc_string b
  | CList l => enc_counted l
  | CSet s => enc_length (Z.of_nat (size s)) ++ enc_strings (set_iter s)
  | CHash h => enc_length (Z.of_nat (size h)) ++ enc_strings (flatten_pairs (map_iter h))
  | CZSet l => enc_length (Z.of_nat (length l)) ++ concat (map enc_scored l)
  | CStream l => enc_counted (stream_marker :: concat (map entry_strings l))
  end.

(** ** Writing *)

Lemma full_range s : ok_stream s -> Forall entry_short (entries s) -> range s sid_min sid_max None false = entries s.
Proof.
  intros Hs Hr. rewrite range_eq by apply Hs. simpl. unfold range_hits. destruct (entries s) as [|x l] eqn:E; [done|].
  rewrite Forall_forall in Hr. assert (Hx : 0 < entry_key x <= u128_max) by (apply Hr; left).
  replace (packed sid_max <? entry_key x) with false by (symmetry; apply Z.ltb_ge; simpl; lia).
  rewrite andb_false_r. apply filter_all. intros y Hy. pose proof (Hr y Hy) as [Hk _]. simpl. lia.
Qed.

Lemma written_value v c w : has_content v c -> storable c ->
  exists w', write_value v w = Ok w' /\ written w' = written w ++ enc_content c.
Proof.
  intros Hv Hc. destruct c; simpl in Hv.
  - subst v. eexists. split; [done|]. by autorewrite with written.
  - subst v. eexists. split; [done|]. autorewrite with written. by rewrite <- app_assoc.
  - subst v. eexists. split; [done|]. autorewrite with written. by rewrite <- app_assoc.
  - subst v. eexists. split; [done|]. autorewrite with written. by rewrite <- app_assoc.
  - destruct Hv as (z & -> & Hr). destruct Hc as (Hne & Hl & _). simpl. rewrite (zs_len_rep _ _ Hr), (zs_range_by_rank_rep _ _ _ _ Hr) by lia.
    simpl. eexists. split; [done|]. autorewrite with written. rewrite <- app_assoc. do 4 f_equal.
    assert (Hlen : (0 < length l)%nat) by by destruct l; [|simpl; lia]. unfold short in Hl.
    rewrite u64_wrap_small by (unfold in_u64, u64_max; lia). unfold rank_slice. simpl. apply take_ge. lia.
  - destruct Hv as (s & -> & Hs & <-). destruct Hc as (_ & Hr & _). unfold write_value, stream_strings. rewrite full_range by done.
    eexists. split; [done|]. rewrite written_strings, written_length, <- app_assoc. done.
Qed.

Lemma written_opcode v c : has_content v c -> value_opcode v = content_opcode c.
Proof. destruct c; simpl; [by intros ->..| |]; by intros (? & -> & _). Qed.

(** ** Reading *)

(** A value of some kind, with or without a time to live; or nothing. *)
Definition in_cell (x : option ((Value ZS -> Prop) * bool)) (sv : option (StoredValue ZS)) : Prop :=
  match x, sv with
  | None, None => True
  | Some (kind, has_ttl), Some sv => kind (value sv) /\ bool_decide (is_Some (expires_at (metadata sv))) = has_ttl
  | _, _ => False
  end.

Definition unlimited_memory (e : engine) : Prop := max_memory (memory_manager e) = 0.

(** The key holds [x]; every other key is as in [e0]. *)
Definition at_key (e0 : engine) (db : nat) (key : bytes) (x : option ((Value ZS -> Prop) * bool)) (e : engine) : Prop :=
  unlimited_memory e
  /\ (exists sh, shard_at e db key = Some sh /\ in_cell x (data sh !! key))
  /\ forall db' key', (db', key') <> (db, key) -> cell_at e db' key' = cell_at e0 db' key'.

Lemma with_shard_memory_at {A} (e : engine) db key (f : shard_op ZS A) sh :
  shard_at e db key = Some sh -> memory_manager (with_shard e db key f).1 = (f (memory_manager e) sh).1.1.
Proof.
  unfold shard_at, with_shard. destruct (databases e !! db) as [d|]; [|done]. simpl. intros ->. by destruct (f _ _) as [[? ?] ?].
Qed.

Lemma at_key_op {A} (f : shard_op ZS A) e0 db key x y (Q : A -> Prop) e :
  key_step db key e (with_shard e db key f).1 ->
  (forall mm sh, max_memory mm = 0 -> in_cell x (data sh !! key) ->
     exists a, (f mm sh).2 = Ok a /\ max_memory (f mm sh).1.1 = 0 /\ in_cell y (data (f mm sh).1.2 !! key) /\ Q a) ->
  at_key e0 db key x e ->
  exists a, (with_shard e db key f).2 = Ok a /\ at_key e0 db key y (with_shard e db key f).1 /\ Q a.
Proof.
  intros Hstep Hf (Hmm & (sh & Hsh & Hx) & Hothers). destruct (Hf (memory_manager e) sh Hmm Hx) as (a & Hr & Hm & Hy & HQ).
  exists a. rewrite (with_shard_result _ _ _ f _ Hsh). split; [done|]. split; [|done]. split_and!.
  - unfold unlimited_memory. by rewrite (with_shard_memory_at _ _ _ f _ Hsh).
  - eexists. split; [by apply with_shard_after|done].
  - intros db' key' Hne. rewrite <- (Hothers db' key' Hne). by apply (key_step_other db key).
Qed.

Lemma loads_at_key {A} (f : shard_op ZS A) e0 db key x y (Q : A -> Prop) :
  (forall e, key_step db key e (with_shard e db key f).1) ->
  (forall mm sh, max_memory mm = 0 -> in_cell x (data sh !! key) ->
     exists a, (f mm sh).2 = Ok a /\ max_memory (f mm sh).1.1 = 0 /\ in_cell y (data (f mm sh).1.2 !! key) /\ Q a) ->
  loads (at_key e0 db key x) (store_op (fun e => with_shard e db key f)) [] (fun e a => at_key e0 db key y e /\ Q a).
Proof. intros Hstep Hf. apply loads_op. intros e He. by eapply at_key_op. Qed.

(** A whole value that is stored at once. *)
Lemma add_memory_fits mm n : max_memory mm = 0 -> (add_memory mm n).2 = true /\ max_memory (add_memory mm n).1 = 0.
Proof. intros E. unfold add_memory. simpl. by rewrite E. Qed.

Lemma cell_none (sv : option (StoredValue ZS)) : in_cell None sv -> sv = None.
Proof. by destruct sv. Qed.

Lemma cell_some (kind : Value ZS -> Prop) (b : bool) (sv : option (StoredValue ZS)) : in_cell (Some (kind, b)) sv ->
  exists s, sv = Some s /\ kind (value s) /\ bool_decide (is_Some (expires_at (metadata s))) = b.
Proof. destruct sv as [s|]; [|done]. intros []. by exists s. Qed.

Lemma cell_stored (kind : Value ZS -> Prop) (b : bool) (s : StoredValue ZS) (m : gmap bytes (StoredValue ZS)) (key : bytes) :
  kind (value s) -> bool_decide (is_Some (expires_at (metadata s))) = b -> in_cell (Some (kind, b)) (<[key := s]> m !! key).
Proof. intros. by rewrite lookup_insert_eq. Qed.

Definition no_answer {A} (a : A) : Prop := True.

(** *** Pushing, adding and setting on a key *)

Abbreviation of_content c := (fun v : Value ZS => has_content v c).
Abbreviation holds_at e0 db key c := (at_key e0 db key (Some (of_content c, false))).
Abbreviation empty_at e0 db key := (at_key e0 db key None).

Lemma rpush_new e0 db key x t :
  loads (empty_at e0 db key) (store_op (fun e => rpush t e db key [x])) [] (fun e a => holds_at e0 db key (CList [x]) e /\ no_answer a).
Proof.
  apply loads_at_key; [intros e; by apply (ks_rpush db key e t [x])|]. intros mm sh Hmm Hn%cell_none. unfold typed_op. rewrite Hn.
  eexists. split; [done|]. split; [done|]. split; [|done]. by apply cell_stored.
Qed.

Lemma rpush_more e0 db key l x t :
  loads (holds_at e0 db key (CList l)) (store_op (fun e => rpush t e db key [x])) []
    (fun e a => holds_at e0 db key (CList (l ++ [x])) e /\ no_answer a).
Proof.
  apply loads_at_key; [intros e; by apply (ks_rpush db key e t [x])|]. intros mm sh Hmm (s & Hs & Hv & Hb)%cell_some.
  unfold typed_op. rewrite Hs. simpl in Hv. rewrite Hv. eexists. split; [done|]. split; [done|]. split; [|done]. by apply cell_stored.
Qed.

Lemma sadd_new e0 db key members t : members <> [] ->
  loads (empty_at e0 db key) (store_op (fun e => sadd t e db key members)) []
    (fun e a => holds_at e0 db key (CSet (list_to_set members)) e /\ no_answer a).
Proof.
  intros Hne. apply loads_at_key; [intros e; by apply (ks_sadd db key e t members)|]. intros mm sh Hmm Hn%cell_none.
  unfold typed_op. rewrite Hn, insert_members_exact. eexists. split; [done|]. split; [done|]. split; [|done].
  apply cell_stored; [|done]. simpl. f_equal. set_solver.
Qed.

Lemma hset_new e0 db key fvs t : fvs <> [] ->
  loads (empty_at e0 db key) (store_op (fun e => hset t e db key fvs)) []
    (fun e a => holds_at e0 db key (CHash (with_fields fvs ∅)) e /\ no_answer a).
Proof.
  intros Hne. apply loads_at_key; [intros e; by apply (ks_hset db key e t fvs)|]. intros mm sh Hmm Hn%cell_none.
  unfold typed_op. rewrite Hn, insert_fields_exact. eexists. split; [done|]. split; [done|]. split; [|done]. by apply cell_stored.
Qed.

Lemma set_string_new e0 db key b t : 
  loads (empty_at e0 db key) (store_op (fun e => set_string t e db key b)) []
    (fun e a => holds_at e0 db key (CString b) e /\ no_answer a).
Proof.
  apply loads_at_key; [intros e; by apply (ks_set_value db key e t (VString b) None)|]. intros mm sh Hmm Hn%cell_none.
  unfold set_value_shard. destruct (add_memory_fits mm (calculate_value_size (ZS:=ZS) key (VString b)) Hmm) as [Hfit Hmm'].
  destruct (add_memory mm _) as [mm' fits]. simpl in Hfit, Hmm'. subst fits. eexists. split; [done|]. split; [done|]. split; [|done].
  by apply cell_stored.
Qed.

(** *** Sorted sets *)

Lemma insert_last (l : list (bytes * f64)) x : sorted_items (l ++ [x]) -> insert_item x (without_member x.1 l) = l ++ [x].
Proof.
  intros [Hs Hm _]. rewrite fmap_app in Hm. apply NoDup_app in Hm as (_ & Hm & _).
  unfold without_member. rewrite filter_all.
  - unfold insert_item. rewrite (filter_all (fun y => item_lt y x)), (filter_none (fun y => ~ item_lt y x)); [done|..];
      intros y Hy; [intros Hn; apply Hn|]; apply (StronglySorted_app_1_elem_of _ l [x] y x Hs Hy); by left.
  - intros y Hy E. apply (Hm y.1); [by apply list_elem_of_fmap_2|]. rewrite E. by left.
Qed.

Lemma lookup_score_last (l : list (bytes * f64)) x : sorted_items (l ++ [x]) -> lookup_score x.1 l = None.
Proof.
  intros [_ Hm _]. rewrite fmap_app in Hm. apply NoDup_app in Hm as (_ & Hm & _). unfold lookup_score.
  rewrite filter_none; [done|]. intros y Hy E. apply (Hm y.1); [by apply list_elem_of_fmap_2|]. rewrite E. by left.
Qed.

Lemma zs_insert_last z l x r : zs_rep z l -> sorted_items (l ++ [x]) -> Z.of_nat (length l) < u64_max ->
  exists z', zs_insert (random_level r) z x.1 x.2 = Ok (z', None) /\ zs_rep z' (l ++ [x]).
Proof.
  intros Hr Hs Hl. pose proof (si_numbers _ Hs) as Hnum. rewrite Forall_app, Forall_singleton in Hnum.
  destruct (zs_insert_rep z l (random_level r) x.1 x.2 Hr (random_level_max r) (proj2 Hnum) Hl) as (z' & E & Hr').
  rewrite lookup_score_last in E by done. exists z'. split; [done|]. by rewrite <- (insert_last l x) by done; destruct x.
Qed.

Lemma zadd_new e0 db key x r t : sorted_items [x] ->
  loads (empty_at e0 db key) (store_op (fun e => zadd (random_level r) t e db key x.1 x.2)) []
    (fun e a => holds_at e0 db key (CZSet [x]) e /\ no_answer a).
Proof.
  intros Hx. apply loads_at_key; [intros e; apply ks_zadd|]. intros mm sh Hmm Hn%cell_none.
  unfold typed_op. rewrite Hn. unfold create_sorted_set.
  destruct (zs_insert_last zs_new [] x r zs_new_rep Hx ltac:(done)) as (z & -> & Hz). unfold insert_accounted.
  match goal with |- context [add_memory mm ?n] => destruct (add_memory_fits mm n Hmm) as [Hfit Hmm'] end.
  destruct (add_memory mm _) as [mm' fits]. simpl in Hfit, Hmm'. subst fits. eexists. split; [done|]. split; [done|]. split; [|done].
  apply (cell_stored (of_content (CZSet [x]))); [by exists z|done].
Qed.

Lemma zadd_more e0 db key l x r t : sorted_items (l ++ [x]) -> Z.of_nat (length l) < u64_max ->
  loads (holds_at e0 db key (CZSet l)) (store_op (fun e => zadd (random_level r) t e db key x.1 x.2)) []
    (fun e a => holds_at e0 db key (CZSet (l ++ [x])) e /\ no_answer a).
Proof.
  intros Hx Hl. apply loads_at_key; [intros e; apply ks_zadd|]. intros mm sh Hmm (s & Hs & (z & Hv & Hz) & Hb)%cell_some.
  unfold typed_op. rewrite Hs. rewrite Hv. simpl. unfold insert_member.
  destruct (zs_insert_last z l x r Hz Hx Hl) as (z' & -> & Hz'). eexists. split; [done|]. split; [done|]. split; [|done].
  apply (cell_stored (of_content (CZSet (l ++ [x])))); [by exists z'|done].
Qed.
End contents.
