(* ===== verification/RdbRecords.v ===== *)
(** * Loading one record

    The loops of the reader over the elements of a value, and that the record of
    a key, read into a store without that key, leaves the key with its content. *)

From S2P Require Import Prelude Text Resp SortedVec StreamId Stream StreamProofs SortedSet Value PubSub Blocking Keyspace StringOps ListOps SetOps ZSetOps Scan Command F64Bits Rdb RdbCodec.
From S2P Require Import KeyspaceProofs CollectionProofs EngineSteps EngineWatch SetSpec.

Open Scope Z_scope.

#[local] Arguments show_u64 n : simpl never.
#[local] Arguments sid_to_string i : simpl never.

Lemma show_digits_length fuel : forall n acc, (length (show_digits fuel n acc) <= fuel + length acc)%nat.
Proof.
  induction fuel as [|f IH]; intros n acc; simpl; [done|]. destruct (n <? 10); simpl; [lia|].
  etrans; [apply IH|]. simpl. lia.
Qed.

Lemma show_u64_length n : (length (show_u64 n) <= 20)%nat.
Proof. apply (show_digits_length 20 n []). Qed.

Lemma short_u64 n : short_string (show_u64 n).
Proof. pose proof (show_u64_length n). unfold short_string, short. lia. Qed.

Lemma short_id i : short_string (sid_to_string i).
Proof.
  unfold short_string, short, sid_to_string. rewrite !length_app.
  pose proof (show_u64_length (sid_millis i)). pose proof (show_u64_length (sid_seq i)). change (length (B "-")) with 1%nat. lia.
Qed.

Lemma valid_id i : utf8_valid (sid_to_string i) = true.
Proof.
  apply utf8_valid_ascii. unfold sid_to_string. rewrite !Forall_app. split_and!.
  - apply show_u64_Forall; [apply is_digit_ascii|apply u64_wrap_range].
  - by repeat constructor.
  - apply show_u64_Forall; [apply is_digit_ascii|apply u64_wrap_range].
Qed.

Section records.
Context {ZS : Type} `{SortedSet ZS} `{Layout} `{HashIter} `{Random} `{!SortedSetSpec ZS}.
Context (Hdata : in_u64 size_stream_data) (Hstream : in_u64 size_stream).
Abbreviation engine := (StorageEngine ZS).
Abbreviation load := (cmd (Loading ZS)).
Abbreviation ok_stream := (stream_ok size_entry size_stream_data size_stream).
Abbreviation of_content c := (fun v : Value ZS => has_content v c).
Abbreviation holds_at e0 db key c := (at_key e0 db key (Some (of_content c, false))).
Abbreviation empty_at e0 db key := (at_key e0 db key None).

(** The iteration order of a map does not matter to what is built from it. *)
Lemma with_iter (m : gmap bytes bytes) : with_fields (map_iter m) ∅ = m.
Proof.
  unfold with_fields. rewrite (right_id_L ∅ (∪)). rewrite <- (list_to_map_to_list m) at 2.
  assert (E : reverse (map_iter m) ≡ₚ map_to_list m) by by rewrite reverse_Permutation, map_iter_perm.
  apply list_to_map_proper; [|done]. rewrite E. apply NoDup_fst_map_to_list.
Qed.

Lemma set_of_iter (s : gset bytes) : list_to_set (set_iter s) = s.
Proof. apply leibniz_equiv. rewrite set_iter_perm. apply list_to_set_elements. Qed.

Lemma iter_length (m : gmap bytes bytes) : length (map_iter m) = size m.
Proof. by rewrite map_iter_perm, length_map_to_list. Qed.

Lemma set_iter_length (s : gset bytes) : length (set_iter s) = size s.
Proof. by rewrite set_iter_perm. Qed.

Lemma iter_short (m : gmap bytes bytes) : map_Forall (fun f v => short_string f /\ short_string v) m ->
  Forall (fun fv => short_string fv.1 /\ short_string fv.2) (map_iter m).
Proof. intros Hm. rewrite map_iter_perm, Forall_forall. intros [f v] Hx%elem_of_map_to_list. by apply (Hm f v). Qed.

(** ** Streams *)

Definition grown (l : list StreamEntry) (v : Value ZS) : Prop :=
  exists s, v = VStream s /\ ok_stream s /\ entries s = l /\ (forall x, last l = Some x -> last_id s = entry_id x).

Definition loaded (l : list StreamEntry) : option ((Value ZS -> Prop) * bool) :=
  match l with [] => None | _ => Some (grown l, false) end.

Lemma add_next s l x : ok_stream s -> entries s = l -> (forall y, last l = Some y -> last_id s = entry_id y) ->
  (l = [] -> packed (last_id s) = 0) -> sorted entry_key (l ++ [x]) -> 0 < entry_key x <= u128_max ->
  exists s', add_with_id size_entry s (entry_id x) (entry_fields x) = (s', inr tt) /\ grown (l ++ [x]) (VStream s').
Proof.
  intros Hs El Hlast Hnil Hsort Hx. rewrite (add_with_id_eq size_entry size_stream_data size_stream) by done.
  assert (Hlt : packed (last_id s) < entry_key x).
  { destruct (last l) as [y|] eqn:E.
    - rewrite (Hlast y eq_refl). apply sorted_app in Hsort as (_ & _ & Hc). apply Hc; [|by left].
      apply last_Some in E as (l' & ->). set_solver.
    - apply last_None in E. rewrite Hnil by done. lia. }
  unfold sid_le. destruct (Z.leb_spec (packed (entry_id x)) (packed (last_id s))) as [Hle|_]; [unfold entry_key in Hlt; lia|].
  eexists. split; [done|]. eexists. split; [done|].
  pose proof (append_ok size_entry size_stream_data size_stream s x (sid_millis (entry_id x)) (sid_seq (entry_id x)) Hs
    (u64_wrap_range _) (u64_wrap_range _)) as Hok.
  destruct x as [i f]. simpl in *. split; [apply Hok; [|done]|split].
  - symmetry. apply sid_eta. unfold entry_key in Hx. simpl in Hx. lia.
  - by rewrite El.
  - intros y. rewrite last_snoc. by intros [= <-].
Qed.

Lemma loads_caught {A} (P : engine -> Prop) f (Q : engine -> A -> Prop) R :
  loads P (store_op f) [] Q -> (forall e a, Q e a -> R e) ->
  loads P (let* _ := catch_op (on_store f) in ret tt) [] (fun e _ => R e).
Proof.
  intros Hf HR w rest e He. destruct (Hf w rest e He) as (w' & e' & a & E & Ha). simpl in E.
  unfold bind, catch_op. unfold store_op, try_op in E. simpl. destruct (on_store f _) as [s' r].
  destruct r; simplify_eq. eauto 7.
Qed.

Lemma xadd_one e0 db key l x t : sorted entry_key (l ++ [x]) -> 0 < entry_key x <= u128_max ->
  loads (at_key e0 db key (loaded l)) (store_op (fun e => xadd_with_id t e db key (entry_id x) (entry_fields x))) []
    (fun e a => at_key e0 db key (loaded (l ++ [x])) e /\ no_answer a).
Proof.
  intros Hs Hx. assert (E : loaded (l ++ [x]) = Some (grown (l ++ [x]), false)) by by destruct l. rewrite E.
  apply loads_at_key; [intros e; by apply ks_xadd_with_id|]. intros mm sh Hmm Hc. unfold typed_op. destruct l as [|y l].
  - apply cell_none in Hc. rewrite Hc.
    destruct (add_next (stream_new size_stream_data size_stream) [] x) as (s' & -> & Hg); try done.
    { by apply stream_new_ok. }
    unfold insert_stream, insert_accounted.
    match goal with |- context [add_memory mm ?n] => destruct (add_memory_fits mm n Hmm) as [Hfit Hmm'] end.
    destruct (add_memory mm _) as [mm' fits]. simpl in Hfit, Hmm'. subst fits. eexists. split; [done|]. split; [done|].
    split; [|done]. by apply cell_stored.
  - apply cell_some in Hc as (s & Hk & (st & Hv & Hok & El & Hl) & Hb). rewrite Hk, Hv. simpl.
    destruct (add_next st (y :: l) x Hok El Hl ltac:(done) Hs Hx) as (s' & -> & Hg).
    eexists. split; [done|]. split; [done|]. split; [|done]. by apply cell_stored.
Qed.
Lemma length_entry_strings x : length (entry_strings x) = (2 + 2 * size (entry_fields x))%nat.
Proof.
  unfold entry_strings, flatten_pairs. simpl. rewrite <- (iter_length (entry_fields x)).
  induction (map_iter (entry_fields x)) as [|fv l IH]; simpl in *; lia.
Qed.

Lemma enc_strings_app l1 l2 : enc_strings (l1 ++ l2) = enc_strings l1 ++ enc_strings l2.
Proof. unfold enc_strings. by rewrite map_app, concat_app. Qed.

Lemma enc_two a b l : enc_strings (a :: b :: l) = enc_string a ++ enc_string b ++ enc_strings l.
Proof. done. Qed.

Lemma loads_entries e0 db key remaining : short remaining -> forall l seen idx fuel,
  sorted entry_key (seen ++ l) -> Forall entry_short l -> (length l < fuel)%nat ->
  0 <= idx -> idx + Z.of_nat (length (concat (map entry_strings l))) = remaining ->
  loads (at_key e0 db key (loaded seen)) (read_entries fuel db key idx remaining) (enc_strings (concat (map entry_strings l)))
    (fun e _ => at_key e0 db key (loaded (seen ++ l)) e).
Proof.
  intros Hrem. induction l as [|x l IH]; intros seen idx fuel Hs Hl Hfuel Hidx Hn; (destruct fuel as [|fuel]; [simpl in Hfuel; lia|]).
  { simpl in *. rewrite Z.ltb_irrefl || replace (idx <? remaining) with false by lia. simpl. rewrite app_nil_r. by apply loads_ret. }
  apply Forall_cons in Hl as [(Hx & Hne & Hsz & Hshort) Hl]. cbn [map concat] in Hn. rewrite length_app, length_entry_strings in Hn.
  assert (Hpos : (0 < size (entry_fields x))%nat).
  { destruct (size (entry_fields x)) eqn:E; [|lia]. by apply map_size_empty_inv in E. }
  simpl. unfold short in *. replace (idx <? remaining) with true by lia. replace (remaining <=? idx + 2) with false by lia. simpl.
  rewrite enc_two, enc_strings_app. eapply loads_consumes; [apply consumes_string, short_id|].
  eapply loads_consumes; [apply consumes_string, short_u64|].
  rewrite show_u64_valid, parse_show_u64 by (unfold in_u64, u64_max; lia). cbn [default id].
  rewrite valid_id, sid_string_roundtrip by (unfold entry_key in Hx; lia).
  assert (E : u64_wrap (idx + 2 + u64_wrap (Z.of_nat (size (entry_fields x)) * 2)) = idx + 2 + Z.of_nat (size (entry_fields x)) * 2).
  { rewrite (u64_wrap_small (Z.of_nat _ * 2)) by (unfold in_u64, u64_max; lia). apply u64_wrap_small. unfold in_u64, u64_max. lia. }
  rewrite E. replace (remaining <? _) with false by lia.
  eapply loads_consumes.
  { rewrite Nat2Z.id, <- iter_length. by apply consumes_pairs, iter_short. }
  rewrite <- (app_nil_l (enc_strings _)). eapply (loads_bind _ _ _ _ _ (fun e _ => at_key e0 db key (loaded (seen ++ [x])) e)).
  { apply loads_now. intros t. rewrite insert_fields_exact, with_iter.
    eapply loads_caught; [apply xadd_one; [|done]|by intros e a []].
    rewrite (cons_middle x seen l), app_assoc in Hs. by apply sorted_app in Hs as [Hs _]. }
  intros []. rewrite (cons_middle x seen l), (app_assoc seen [x] l) in Hs |- *. apply IH; [done|done|simpl in Hfuel; lia|lia|].
  rewrite <- Hn. lia.
Qed.

(** ** The other loops *)

Lemma loads_repeat {X} (inv : list X -> engine -> Prop) (body : load unit) (enc : X -> bytes) (l : list X) :
  forall seen, (forall l1 x l2, seen ++ l = l1 ++ x :: l2 -> loads (inv l1) body (enc x) (fun e _ => inv (l1 ++ [x]) e)) ->
  loads (inv seen) (repeat_read (length l) body) (concat (map enc l)) (fun e _ => inv (seen ++ l) e).
Proof.
  induction l as [|x l IH]; intros seen Hb; simpl.
  - apply loads_ret. by rewrite app_nil_r.
  - eapply loads_bind; [by apply (Hb seen x l)|]. intros []. rewrite (cons_middle x seen l), (app_assoc seen [x] l) in Hb |- *. apply IH.
    intros l1 y l2 E. by apply (Hb l1 y l2).
Qed.

Lemma no_ttl db key : set_ttl (ZS:=ZS) db key None = ret tt.
Proof. done. Qed.

Lemma loads_last {A} (P : engine -> Prop) (m : load A) d (Q : engine -> A -> Prop) R :
  loads P m d Q -> (forall e a, Q e a -> R e) -> loads P (let* _ := m in ret tt) d (fun e _ => R e).
Proof. intros Hm HR. rewrite <- (app_nil_r d). eapply loads_bind; [exact Hm|]. intros a. apply loads_ret. eauto. Qed.

Lemma loads_push_more e0 db key l x : loads (holds_at e0 db key (CList l)) (push_one db key x) [] (fun e _ => holds_at e0 db key (CList (l ++ [x])) e).
Proof.
  unfold push_one. apply loads_now. intros t. eapply loads_last; [apply rpush_more|]. by intros e a [].
Qed.

Lemma loads_push_new e0 db key x : loads (empty_at e0 db key) (push_one db key x) [] (fun e _ => holds_at e0 db key (CList [x]) e).
Proof.
  unfold push_one. apply loads_now. intros t. eapply loads_last; [apply rpush_new|]. by intros e a [].
Qed.
(** ** The records *)

Definition record_read (c : content) : nat -> option Z -> load unit :=
  match c with
  | CString _ => read_string_value
  | CList _ | CStream _ => read_list
  | CSet _ => read_set_value
  | CHash _ => read_hash
  | CZSet _ => read_zset
  end.

Lemma record_type c db ttl : read_key_value_with_type (ZS:=ZS) db (content_opcode c) ttl = record_read c db ttl.
Proof. by destruct c. Qed.

Lemma list_record e0 db key l : storable (CList l) ->
  loads (empty_at e0 db key) (let* count := read_length in
    if 1 <=? count then
      let* first := read_string in
      if bool_decide (first = stream_marker) then
        let* _ := read_entries (Z.to_nat count) db key 0 (count - 1) in set_ttl db key None
      else
        let* _ := push_one db key first in
        let* _ := repeat_read (Z.to_nat (count - 1)) (let* x := read_string in push_one db key x) in
        set_ttl db key None
    else set_ttl db key None) (enc_content (CList l)) (fun e _ => holds_at e0 db key (CList l) e).
Proof.
  intros (Hne & Hlen & Hs & Hmark). destruct l as [|x l]; [done|]. apply Forall_cons in Hs as [Hx Hl].
  unfold enc_content, enc_counted. eapply loads_consumes; [by apply consumes_length|].
  replace (1 <=? _) with true by (symmetry; apply Z.leb_le; simpl; lia).
  change (enc_strings (x :: l)) with (enc_string x ++ [] ++ enc_strings l).
  eapply loads_consumes; [by apply consumes_string|]. rewrite bool_decide_false by (intros ->; done).
  eapply loads_bind; [apply loads_push_new|]. intros [].
  replace (Z.to_nat _) with (length l) by (simpl length; lia).
  apply (loads_last _ _ _ (fun e _ => holds_at e0 db key (CList (x :: l)) e)); [|done].
  apply (loads_repeat (fun l => holds_at e0 db key (CList l)) _ enc_string l [x]). intros l1 y l2 E.
  rewrite <- (app_nil_r (enc_string y)). eapply loads_consumes; [|apply loads_push_more].
  apply consumes_string. assert (Hy : y ∈ (x :: l)) by (change (x :: l) with ([x] ++ l); rewrite E; set_solver).
  apply elem_of_cons in Hy as [->|Hy]; [done|]. rewrite Forall_forall in Hl. by apply Hl.
Qed.
Lemma stream_record e0 db key l : storable (CStream l) -> sorted entry_key l ->
  loads (empty_at e0 db key) (let* count := read_length in
    if 1 <=? count then
      let* first := read_string in
      if bool_decide (first = stream_marker) then
        let* _ := read_entries (Z.to_nat count) db key 0 (count - 1) in set_ttl db key None
      else
        let* _ := push_one db key first in
        let* _ := repeat_read (Z.to_nat (count - 1)) (let* x := read_string in push_one db key x) in
        set_ttl db key None
    else set_ttl db key None) (enc_content (CStream l)) (fun e _ => holds_at e0 db key (CStream l) e).
Proof.
  intros (Hne & Hl & Hlen) Hsort. set (strings := concat (map entry_strings l)) in *.
  unfold enc_content, enc_counted. fold strings. eapply loads_consumes; [by apply consumes_length|].
  replace (1 <=? _) with true by (symmetry; apply Z.leb_le; simpl; lia).
  change (enc_strings (stream_marker :: strings)) with (enc_string stream_marker ++ enc_strings strings).
  eapply loads_consumes; [by apply consumes_string|]. rewrite bool_decide_true by done.
  assert (Hcount : (length l <= length strings)%nat).
  { unfold strings. clear. induction l as [|x l IH]; [done|]. cbn [map concat]. rewrite length_app, length_entry_strings. simpl. lia. }
  assert (Hrem : short (Z.of_nat (length (stream_marker :: strings)) - 1)) by (unfold short in *; simpl length in *; lia).
  eapply loads_last.
  - apply (loads_entries e0 db key _ Hrem l [] 0); [done|done|..]; fold strings; simpl length; lia.
  - intros e _ (Hm & (sh & Hsh & Hx) & Ho). split_and!; [done| |done]. exists sh. split; [done|]. destruct l as [|x l]; [done|].
    apply cell_some in Hx as (sv & -> & (s & Hv & Hok & El & _) & Hb). split; [by exists s|done].
Qed.

Lemma set_record e0 db key s : storable (CSet s) ->
  loads (empty_at e0 db key) (let* count := read_length in
    let* members := read_many (Z.to_nat count) read_string in
    let* t := now in
    let* _ := store_op (fun e => sadd t e db key members) in
    set_ttl db key None) (enc_content (CSet s)) (fun e _ => holds_at e0 db key (CSet s) e).
Proof.
  intros (Hne & Hlen & Hs). unfold enc_content. eapply loads_consumes; [by apply consumes_length|]. rewrite Nat2Z.id.
  rewrite <- (app_nil_r (enc_strings _)). eapply loads_consumes.
  { rewrite <- set_iter_length. apply consumes_strings. rewrite set_iter_perm. by apply set_Forall_elements. }
  apply loads_now. intros t. eapply loads_last; [apply sadd_new|].
  - intros E. apply Hne. rewrite <- (set_of_iter s), E. done.
  - intros e a []. by rewrite set_of_iter in *.
Qed.

Lemma hash_record e0 db key h : storable (CHash h) ->
  loads (empty_at e0 db key) (let* count := read_length in
    let* fvs := read_many (Z.to_nat count) read_pair in
    let* t := now in
    let* _ := store_op (fun e => hset t e db key fvs) in
    set_ttl db key None) (enc_content (CHash h)) (fun e _ => holds_at e0 db key (CHash h) e).
Proof.
  intros (Hne & Hlen & Hs). unfold enc_content. eapply loads_consumes; [by apply consumes_length|]. rewrite Nat2Z.id.
  rewrite <- (app_nil_r (enc_strings _)). eapply loads_consumes.
  { rewrite <- iter_length. by apply consumes_pairs, iter_short. }
  apply loads_now. intros t. eapply loads_last; [apply hset_new|].
  - intros E. apply Hne. rewrite <- (with_iter h), E. done.
  - intros e a []. by rewrite with_iter in *.
Qed.
Lemma sorted_items_app l1 l2 : sorted_items (l1 ++ l2) -> sorted_items l1.
Proof.
  intros [Hs Hm Hn]. rewrite fmap_app in Hm. apply NoDup_app in Hm as [Hm _]. apply Forall_app in Hn as [Hn _].
  split; [by eapply StronglySorted_app_1_l|done|done].
Qed.

(** The part of a sorted set that has been read. *)
Definition scored (l : list (bytes * f64)) : option ((Value ZS -> Prop) * bool) :=
  match l with [] => None | _ => Some (of_content (CZSet l), false) end.

Lemma scored_snoc l x : scored (l ++ [x]) = Some (of_content (CZSet (l ++ [x])), false).
Proof. by destruct l. Qed.

Lemma zadd_one e0 db key l x r t : sorted_items (l ++ [x]) -> Z.of_nat (length l) < u64_max ->
  loads (at_key e0 db key (scored l)) (store_op (fun e => zadd (random_level r) t e db key x.1 x.2)) []
    (fun e a => at_key e0 db key (scored (l ++ [x])) e /\ no_answer a).
Proof. intros Hs Hl. rewrite scored_snoc. destruct l as [|y l]; [by apply zadd_new|by apply zadd_more]. Qed.

Lemma zset_record e0 db key l : storable (CZSet l) -> sorted_items l ->
  loads (empty_at e0 db key) (let* count := read_length in
    let* _ := repeat_read (Z.to_nat count)
      (let* member := read_string in
       let* score := read_f64 in
       let* r := draw in
       let* t := now in
       let* _ := store_op (fun e => zadd (random_level r) t e db key member score) in ret tt) in
    set_ttl db key None) (enc_content (CZSet l)) (fun e _ => holds_at e0 db key (CZSet l) e).
Proof.
  intros (Hne & Hlen & Hl) Hs. unfold enc_content. eapply loads_consumes; [by apply consumes_length|]. rewrite Nat2Z.id.
  eapply loads_last.
  - apply (loads_repeat (fun l e => at_key e0 db key (scored l) e) _ enc_scored l []). intros l1 x l2 E. simpl in E.
    rewrite Forall_forall in Hl. assert (Hx : x ∈ l) by (rewrite E; set_solver). destruct (Hl x Hx) as [Hm Hf].
    unfold enc_scored. eapply loads_consumes; [by apply consumes_string|]. rewrite <- (app_nil_r (f64_le_bytes _)).
    eapply loads_consumes; [by apply consumes_f64|]. apply loads_draw. intros r. apply loads_now. intros t.
    eapply loads_last; [apply zadd_one|by intros e a []].
    + rewrite E, cons_middle, app_assoc in Hs. by eapply sorted_items_app.
    + rewrite E, length_app in Hlen. unfold short, u64_max in *. lia.
  - intros e a. by destruct l.
Qed.

Lemma string_record e0 db key b : storable (CString b) ->
  loads (empty_at e0 db key) (let* v := read_string in let* t := now in store_op (fun e => set_string t e db key v))
    (enc_content (CString b)) (fun e _ => holds_at e0 db key (CString b) e).
Proof.
  intros Hb. unfold enc_content. rewrite <- (app_nil_r (enc_string b)). eapply loads_consumes; [by apply consumes_string|].
  apply loads_now. intros t. eapply loads_weaken; [apply set_string_new|done|]. by intros e a [].
Qed.

(** What holds of the content of any sound value. *)
Definition in_order (c : content) : Prop :=
  match c with CZSet l => sorted_items l | CStream l => sorted entry_key l | _ => True end.

Lemma record_loads e0 db key c : short_string key -> storable c -> in_order c ->
  loads (empty_at e0 db key) (read_key_value_with_type db (content_opcode c) None) (enc_string key ++ enc_content c)
    (fun e _ => holds_at e0 db key c e).
Proof.
  intros Hk Hc Ho. rewrite record_type. destruct c; (eapply loads_consumes; [by apply consumes_string|]).
  - by apply string_record.
  - by apply list_record.
  - by apply set_record.
  - by apply hash_record.
  - by apply zset_record.
  - by apply stream_record.
Qed.

Lemma content_in_order v c : has_content v c -> in_order c.
Proof.
  destruct c; simpl; try done.
  - intros (z & -> & Hz). by eapply zs_rep_items.
  - intros (s & -> & Hs & <-). apply Hs.
Qed.
End records.
