(* ===== verification/RdbRoundtrip.v ===== *)
(** * Saving and loading

    A file as a list of items, what the loop of the reader makes of it, what the
    writer makes of a store, and that loading what was saved gives the store
    back. *)

From S2P Require Import Prelude Text Resp SortedVec StreamId Stream StreamProofs SortedSet Value PubSub Blocking Keyspace StringOps ListOps SetOps ZSetOps Scan Command StringCommands F64Bits Rdb RdbCodec RdbRecords.
From S2P Require Import EngineSteps KeyspaceProofs CollectionProofs EngineWatch SetSpec ScanSpec SkipList SortedSetImpl.
From stdpp Require Import relations.

Open Scope Z_scope.

Inductive item :=
  | IAux (k v : bytes)
  | ISelect (db : nat)
  | IResize (keys expires : Z)
  | IRecord (key : bytes) (c : content).

Section roundtrip.
Context {ZS : Type} `{SortedSet ZS} `{Layout} `{HashIter} `{Random} `{!SortedSetSpec ZS}.
Abbreviation engine := (StorageEngine ZS).
Abbreviation load := (cmd (Loading ZS)).
Abbreviation of_content c := (fun v : Value ZS => has_content v c).

Definition enc_item (i : item) : bytes :=
  match i with
  | IAux k v => enc_aux k v
  | ISelect db => enc_byte OP_SELECT_DB ++ enc_length (Z.of_nat db)
  | IResize a b => enc_byte OP_RESIZE_DB ++ enc_length a ++ enc_length b
  | IRecord key c => enc_byte (content_opcode c) ++ enc_string key ++ enc_content c
  end.

Definition enc_items (l : list item) : bytes := concat (map enc_item l).

Abbreviation contents := (gmap (nat * bytes) content).

(** What the items of a file add to the contents [m], while [db] is selected. *)
Inductive replay (n : nat) : nat -> contents -> list item -> contents -> Prop :=
  | replay_end db m : replay n db m [] m
  | replay_aux db m k v l m' : short_string k -> short_string v -> replay n db m l m' -> replay n db m (IAux k v :: l) m'
  | replay_select db m d l m' : short (Z.of_nat d) -> replay n d m l m' -> replay n db m (ISelect d :: l) m'
  | replay_resize db m a b l m' : short a -> short b -> replay n db m l m' -> replay n db m (IResize a b :: l) m'
  | replay_record db m key c l m' : (db < n)%nat -> short_string key -> storable c -> in_order c -> m !! (db, key) = None ->
      replay n db (<[(db, key) := c]> m) l m' -> replay n db m (IRecord key c :: l) m'.

(** A store of [n] databases with these contents, none of them with a time to live. *)
Definition filled (n : nat) (m : contents) (e : engine) : Prop :=
  unlimited_memory e
  /\ forall db key, (db < n)%nat ->
       exists sh, shard_at e db key = Some sh /\ in_cell ((fun c => (of_content c, false)) <$> m !! (db, key)) (data sh !! key).

Lemma shard_same_cell (e e' : engine) (db : nat) (key : bytes) sh :
  cell_at e' db key = cell_at e db key -> shard_at e db key = Some sh ->
  exists sh', shard_at e' db key = Some sh' /\ data sh' !! key = data sh !! key.
Proof.
  unfold cell_at. intros E Hsh. rewrite Hsh in E. destruct (shard_at e' db key) as [sh'|]; [|done]. injection E as E _ _. by exists sh'.
Qed.

Section reading.
Context (Hdata : in_u64 size_stream_data) (Hstream : in_u64 size_stream).

Lemma loads_record n m db key c : (db < n)%nat -> short_string key -> storable c -> in_order c -> m !! (db, key) = None ->
  loads (filled n m) (read_key_value_with_type db (content_opcode c) None) (enc_string key ++ enc_content c)
    (fun e _ => filled n (<[(db, key) := c]> m) e).
Proof.
  intros Hdb Hk Hc Ho Hm w rest e [Hmm He].
  destruct (record_loads Hdata Hstream e db key c Hk Hc Ho w rest e) as (w' & e' & a & E & (Hmm' & (sh & Hsh & Hx) & Hothers)).
  { split_and!; [done| |done]. destruct (He db key Hdb) as (sh & Hsh & Hx). rewrite Hm in Hx. by exists sh. }
  exists w', e', a. split; [done|]. split; [done|]. intros db' key' Hdb'. destruct (decide ((db', key') = (db, key))) as [Ek|Hne].
  - injection Ek as -> ->. exists sh. rewrite lookup_insert_eq. done.
  - rewrite lookup_insert_ne by congruence. destruct (He db' key' Hdb') as (s0 & Hs0 & Hx0).
    destruct (shard_same_cell _ _ _ _ _ (Hothers db' key' Hne) Hs0) as (s1 & Hs1 & Hd1). exists s1. by rewrite Hd1.
Qed.

Lemma content_opcode_range c : 0 <= content_opcode c < 5.
Proof. by destruct c. Qed.

Lemma loads_items n db m items m' : replay n db m items m' -> forall fuel sum,
  (length items < fuel)%nat -> in_u64 sum ->
  loads (filled n m) (load_loop fuel db) (enc_items items ++ enc_byte OP_EOF ++ le_bytes 8 sum) (fun e _ => filled n m' e).
Proof.
  intros Hr fuel sum. revert fuel.
  induction Hr as [db m|db m k v l m' Hk Hv Hr IH|db m d l m' Hd Hr IH|db m a b l m' Ha Hb Hr IH|db m key c l m' Hdb Hk Hc Ho Hm Hr IH];
    intros fuel Hfuel Hsum; (destruct fuel as [|fuel]; [simpl in Hfuel; lia|]); simpl in Hfuel; cbn [load_loop].
  - unfold enc_items. cbn [map concat]. rewrite app_nil_l. eapply loads_consumes; [by apply consumes_byte|]. change (OP_EOF =? OP_EOF) with true.
    rewrite <- (app_nil_r (le_bytes 8 sum)). eapply loads_consumes; [by apply consumes_u64|]. by apply loads_ret.
  - unfold enc_items. cbn [map concat enc_item]. unfold enc_aux. rewrite <- !app_assoc.
    eapply loads_consumes; [by apply consumes_byte|].
    eapply loads_consumes; [by apply consumes_string|]. eapply loads_consumes; [by apply consumes_string|]. apply IH; [lia|done].
  - unfold enc_items. cbn [map concat enc_item]. rewrite <- !app_assoc.
    eapply loads_consumes; [by apply consumes_byte|]. eapply loads_consumes; [by apply consumes_length|].
    rewrite Nat2Z.id. apply IH; [lia|done].
  - unfold enc_items. cbn [map concat enc_item]. rewrite <- !app_assoc.
    eapply loads_consumes; [by apply consumes_byte|]. eapply loads_consumes; [by apply consumes_length|].
    eapply loads_consumes; [by apply consumes_length|]. apply IH; [lia|done].
  - unfold enc_items. cbn [map concat enc_item]. rewrite <- !app_assoc. pose proof (content_opcode_range c).
    eapply loads_consumes; [apply consumes_byte; lia|].
    replace (content_opcode c =? OP_EOF) with false by (unfold OP_EOF; lia).
    replace (content_opcode c =? OP_SELECT_DB) with false by (unfold OP_SELECT_DB; lia).
    replace (content_opcode c =? OP_RESIZE_DB) with false by (unfold OP_RESIZE_DB; lia).
    replace (content_opcode c =? OP_AUX) with false by (unfold OP_AUX; lia).
    replace (content_opcode c =? OP_EXPIRE_MS) with false by (unfold OP_EXPIRE_MS; lia).
    replace (content_opcode c =? OP_EXPIRE_S) with false by (unfold OP_EXPIRE_S; lia).
    rewrite (app_assoc (enc_string key)). eapply loads_bind; [by apply (loads_record n m)|]. intros []. apply IH; [lia|done].
Qed.

Definition enc_file (items : list item) (sum : Z) : bytes :=
  (RDB_MAGIC ++ version_digits) ++ enc_items items ++ enc_byte OP_EOF ++ le_bytes 8 sum.

Lemma length_enc_items items : (length items <= length (enc_items items))%nat.
Proof.
  unfold enc_items. induction items as [|i l IH]; [done|]. cbn [map concat]. rewrite length_app.
  assert ((0 < length (enc_item i))%nat) by (destruct i; simpl; lia). simpl. lia.
Qed.

Lemma header_read : consumes (ZS:=ZS) read_header (RDB_MAGIC ++ version_digits) tt.
Proof.
  unfold read_header. eapply consumes_bind; [by apply consumes_exact|]. rewrite bool_decide_true by done. simpl negb. cbv iota.
  rewrite <- (app_nil_r version_digits). eapply consumes_bind; [by apply consumes_exact|].
  assert (parse_u64 (utf8_lossy version_digits) = Some 9) as -> by (vm_compute; reflexivity). apply consumes_ret.
Qed.

Lemma file_loads n items m sum w e : replay n 0 ∅ items m -> in_u64 sum -> filled n ∅ e ->
  exists w' e', load_into w (mkLoading (enc_file items sum) e) = (w', mkLoading [] e', Go tt) /\ filled n m e'.
Proof.
  intros Hr Hsum He. unfold load_into, enc_file, bind. rewrite header_read. cbn [input].
  set (body := enc_items items ++ enc_byte OP_EOF ++ le_bytes 8 sum).
  assert (Hlen : (length items < S (length body))%nat).
  { unfold body. rewrite length_app. pose proof (length_enc_items items). lia. }
  destruct (loads_items n 0 ∅ items m Hr _ sum Hlen Hsum w [] e He) as (w' & e' & [] & E & Hf). rewrite app_nil_r in E.
  fold body in E. rewrite E. by exists w', e'.
Qed.
End reading.

(** ** Writing *)

Definition written_as (e : engine) (wr : RdbWriter) (items : list item) (m : cmd engine RdbWriter) : Prop :=
  forall w, exists w' wr', m w e = (w', e, Go wr') /\ written wr' = written wr ++ enc_items items.

(** The key has this content and no time to live. *)
Definition keeps (e : engine) (db : nat) (key : bytes) (c : content) : Prop :=
  exists sh sv, shard_at e db key = Some sh /\ data sh !! key = Some sv
    /\ expires_at (metadata sv) = None /\ has_content (value sv) c.

Definition absent (e : engine) (db : nat) (key : bytes) : Prop :=
  exists sh, shard_at e db key = Some sh /\ data sh !! key = None.

Lemma get_same t e db key c : keeps e db key c -> exists v, engine_get t e db key = (e, Ok (Found v)) /\ has_content v c.
Proof.
  intros (sh & sv & Hsh & Hk & Hx & Hc). exists (value sv). split; [|done]. unfold engine_get.
  match goal with |- with_shard e db key ?f = _ => set (g := f) end.
  assert (Hg : forall mm, g mm sh = (mm, sh, Ok (Found (value sv)))).
  { intros mm. unfold g. rewrite Hk. unfold stored_expired, meta_expired. by rewrite Hx. }
  unfold shard_at in Hsh. unfold with_shard. destruct (databases e !! db) as [d|] eqn:Hd; [|done]. simpl in Hsh. rewrite Hsh, Hg.
  by rewrite (list_insert_id _ _ _ Hsh), (list_insert_id _ _ _ Hd), engine_eta.
Qed.

Lemma no_ttl_left t e db key c : keeps e db key c -> ttl t e db key = (e, Ok None).
Proof.
  intros (sh & sv & Hsh & Hk & Hx & _). apply injective_projections; [apply ttl_same|].
  unfold ttl. rewrite (with_shard_result _ _ _ _ _ Hsh). simpl. by rewrite Hk, Hx.
Qed.

Lemma writes_key e db key c wr : keeps e db key c -> storable c -> written_as e wr [IRecord key c] (write_key db key wr).
Proof.
  intros Hk Hc w. unfold write_key, bind, now, try_op. cbn [fst snd].
  destruct (get_same (clock w 0%nat) e db key c Hk) as (v & -> & Hv). rewrite (no_ttl_left _ _ _ _ _ Hk).
  unfold expiry_of, ret, write_key_value.
  destruct (written_value v c (write_string key (write_byte (value_opcode v) wr)) Hv Hc) as (wr' & -> & Hw).
  eexists _, wr'. split; [done|]. rewrite Hw. autorewrite with written. unfold enc_items. simpl.
  by rewrite (written_opcode v c Hv), app_nil_r, <- !app_assoc.
Qed.

Lemma written_app e wr items1 items2 (m : cmd engine RdbWriter) (k : RdbWriter -> cmd engine RdbWriter) :
  written_as e wr items1 m -> (forall wr', written_as e wr' items2 (k wr')) -> written_as e wr (items1 ++ items2) (bind m k).
Proof.
  intros Hm Hk w. destruct (Hm w) as (w1 & wr1 & E1 & Hw1). destruct (Hk wr1 w1) as (w2 & wr2 & E2 & Hw2).
  exists w2, wr2. unfold bind. rewrite E1. split; [done|]. rewrite Hw2, Hw1. unfold enc_items. by rewrite map_app, concat_app, app_assoc.
Qed.

(** What a save can hold of a key. *)
Definition saveable (e : engine) (db : nat) (key : bytes) : Prop :=
  short_string key /\ exists c, keeps e db key c /\ storable c.

(** The contents of the databases below [d], and no other. *)
Definition recorded (e : engine) (d n : nat) (m : contents) : Prop :=
  forall db key, match m !! (db, key) with
                 | Some c => keeps e db key c
                 | None => (db < d)%nat -> (db < n)%nat -> absent e db key
                 end.

Lemma writes_keys e n db : (db < n)%nat -> forall keys (m : contents), NoDup keys ->
  (forall k, k ∈ keys -> saveable e db k /\ m !! (db, k) = None) ->
  exists items m', (forall wr, written_as e wr items (for_each keys (write_key db) wr))
    /\ (forall l m2, replay n db m' l m2 -> replay n db m (items ++ l) m2)
    /\ forall p, match m' !! p with
                 | Some c => m !! p = Some c \/ p.1 = db /\ p.2 ∈ keys /\ keeps e db p.2 c
                 | None => m !! p = None /\ (p.1 = db -> p.2 ∉ keys)
                 end.
Proof.
  intros Hdb. induction keys as [|k keys IH]; intros m Hnd Hk.
  - exists [], m. split_and!; [|done|].
    + intros wr w. exists w, wr. split; [done|]. symmetry. apply app_nil_r.
    + intros p. destruct (m !! p); [by left|]. split; [done|]. intros _. apply not_elem_of_nil.
  - apply NoDup_cons in Hnd as [Hnew Hnd]. destruct (Hk k ltac:(by left)) as [(Hshort & c & Hc & Hst) Hm].
    assert (Hrest : forall k', k' ∈ keys -> saveable e db k' /\ (<[(db, k) := c]> m) !! (db, k') = None).
    { intros k' Hk'. destruct (Hk k' ltac:(by right)). split; [done|]. rewrite lookup_insert_ne by (intros [=]; subst; done). done. }
    assert (Ho : in_order c) by (destruct Hc as (? & ? & ? & ? & ? & Hv); by eapply content_in_order).
    destruct (IH _ Hnd Hrest) as (items & m' & Hw & Hr & Hp).
    exists (IRecord k c :: items), m'. split_and!.
    + intros wr. simpl. apply (written_app _ _ [IRecord k c] items); [by apply writes_key|done].
    + intros l m2 Hl. simpl. apply replay_record; try done. by apply Hr.
    + intros p. specialize (Hp p). destruct (decide (p = (db, k))) as [->|Hne].
      * destruct (m' !! (db, k)) as [c'|]; rewrite lookup_insert_eq in Hp; [|by destruct Hp].
        right. destruct Hp as [[= <-]|(_ & ? & _)]; [|done]. split_and!; [done|left|done].
      * rewrite lookup_insert_ne in Hp by done. destruct (m' !! p) as [c'|].
        -- destruct Hp as [?|(? & ? & ?)]; [by left|right]. split_and!; [done|by right|done].
        -- destruct Hp as [? Hn]. split; [done|]. intros E [Ek|Hin]%elem_of_cons; [destruct p; simpl in *; by subst|by apply Hn].
Qed.

(** *** A database *)

Lemma elem_of_all_keys (e : engine) db d keys k : databases e !! db = Some d -> get_all_keys e db = Ok keys ->
  k ∈ keys <-> exists i sh, d !! i = Some sh /\ is_Some (data sh !! k).
Proof.
  unfold get_all_keys. intros -> [= <-]. rewrite list_elem_of_In, in_concat. setoid_rewrite in_map_iff.
  setoid_rewrite <- list_elem_of_In. split.
  - intros (ks & (sh & <- & Hsh) & Hk). apply list_elem_of_lookup in Hsh as [i Hi].
    apply list_elem_of_fmap in Hk as ([k' sv] & -> & Hkv). rewrite map_iter_perm in Hkv. apply elem_of_map_to_list in Hkv.
    exists i, sh. split; [done|]. by exists sv.
  - intros (i & sh & Hi & [sv Hsv]). eexists. split; [exists sh; split; [done|by eapply list_elem_of_lookup_2]|].
    apply list_elem_of_fmap. exists (k, sv). split; [done|]. rewrite map_iter_perm. by apply elem_of_map_to_list.
Qed.

Lemma shard_keys_NoDup (d : list (DatabaseShard ZS)) :
  (forall i j sh sh' k, d !! i = Some sh -> d !! j = Some sh' -> is_Some (data sh !! k) -> is_Some (data sh' !! k) -> i = j) ->
  NoDup (concat (map (fun sh => (map_iter (data sh)).*1) d)).
Proof.
  induction d as [|sh d IH]; intros Hd; [constructor|]. simpl. apply NoDup_app. split_and!.
  - rewrite map_iter_perm. apply NoDup_fst_map_to_list.
  - intros k Hk. rewrite list_elem_of_In, in_concat. setoid_rewrite in_map_iff. setoid_rewrite <- list_elem_of_In.
    intros (ks & (sh' & <- & Hsh') & Hk'). apply list_elem_of_lookup in Hsh' as [i Hi].
    rewrite map_iter_perm in Hk. rewrite map_iter_perm in Hk'.
    apply list_elem_of_fmap in Hk as ([k1 v1] & -> & H1'%elem_of_map_to_list).
    apply list_elem_of_fmap in Hk' as ([k2 v2] & E & H2'%elem_of_map_to_list). simpl in E. subst k2.
    by specialize (Hd 0%nat (S i) sh sh' k1 eq_refl Hi ltac:(by exists v1) ltac:(by exists v2)).
  - apply IH. intros i j s s' k Hi Hj Hs Hs'. specialize (Hd (S i) (S j) s s' k Hi Hj Hs Hs'). lia.
Qed.

Lemma all_keys_NoDup (e : engine) db keys : placed (databases e) -> get_all_keys e db = Ok keys -> NoDup keys.
Proof.
  unfold get_all_keys. destruct (databases e !! db) as [d|] eqn:Hd; [|done]. intros Hp [= <-]. apply shard_keys_NoDup.
  intros i j sh sh' k Hi Hj Hk Hk'. by rewrite <- (Hp db d i sh k), <- (Hp db d j sh' k).
Qed.

(** Every value of the store can be saved. *)
Definition all_saveable (e : engine) : Prop :=
  (forall db keys, get_all_keys e db = Ok keys -> short (Z.of_nat (length keys)))
  /\ forall db key sh, shard_at e db key = Some sh -> is_Some (data sh !! key) -> saveable e db key.

Lemma writes_database (e : engine) (n db : nat) (m : contents) : placed (databases e) -> all_saveable e -> (db < n)%nat ->
  short (Z.of_nat db) -> (forall k, is_Some (shard_at e db k)) -> (forall k, m !! (db, k) = None) ->
  exists items m', (forall wr, written_as e wr items (write_database db wr))
    /\ (forall db0 l m2, (forall db1, replay n db1 m' l m2) -> replay n db0 m (items ++ l) m2)
    /\ (forall k, match m' !! (db, k) with Some c => keeps e db k c | None => absent e db k end)
    /\ (forall db' k, db' <> db -> m' !! (db', k) = m !! (db', k)).
Proof.
  intros Hplaced [Hcount Hsave] Hdb Hshort Hshards Hm.
  destruct (databases e !! db) as [d|] eqn:Hd; [|destruct (Hshards []) as [sh Hsh]; unfold shard_at in Hsh; by rewrite Hd in Hsh].
  assert (exists keys, get_all_keys e db = Ok keys) as [keys Hkeys] by (unfold get_all_keys; rewrite Hd; eauto).
  assert (Hin : forall k sh, shard_at e db k = Some sh -> k ∈ keys <-> is_Some (data sh !! k)).
  { intros k sh Hsh. rewrite (elem_of_all_keys e db d keys k Hd Hkeys). unfold shard_at in Hsh. rewrite Hd in Hsh. simpl in Hsh.
    split; [|by intros; exists (get_shard_index k), sh]. intros (i & s & Hi & Hs). rewrite (Hplaced db d i s k Hd Hi Hs) in Hsh.
    by simplify_eq. }
  pose proof (Hcount db keys Hkeys) as Hlen.
  set (start := fun wr => write_resize_db (Z.of_nat (length keys)) (Z.of_nat (length keys)) (write_db_selector db wr)).
  assert (Hstart : forall wr w, write_database db wr w e
                                = match keys with [] => (w, e, Go wr) | _ => for_each keys (write_key db) (start wr) w e end).
  { intros wr w. unfold write_database, bind, try_op, reads. rewrite Hkeys. by destruct keys. }
  assert (Habsent : forall k, k ∉ keys -> absent e db k).
  { intros k Hk. destruct (Hshards k) as [sh Hsh]. exists sh. split; [done|]. rewrite (Hin k sh Hsh) in Hk.
    by apply eq_None_not_Some. }
  destruct (decide (keys = [])) as [->|Hne].
  { exists [], m. split_and!; [|by intros|intros k; rewrite Hm; apply Habsent, not_elem_of_nil|done].
    intros wr w. rewrite Hstart. exists w, wr. split; [done|symmetry; apply app_nil_r]. }
  destruct (writes_keys e n db Hdb keys m) as (items & m' & Hw & Hr & Hp).
  { by eapply all_keys_NoDup. }
  { intros k Hk. split; [|done]. destruct (Hshards k) as [sh Hsh]. by apply (Hsave db k sh Hsh), (Hin k sh Hsh). }
  exists (ISelect db :: IResize (Z.of_nat (length keys)) (Z.of_nat (length keys)) :: items), m'. split_and!.
  - intros wr w. rewrite Hstart. destruct (Hw (start wr) w) as (w' & wr' & E & Hwr).
    exists w', wr'. split; [by destruct keys|]. rewrite Hwr. unfold start, write_resize_db, write_db_selector.
    autorewrite with written. unfold enc_items. cbn [map concat enc_item]. by rewrite <- !app_assoc.
  - intros db0 l m2 Hl. simpl. apply replay_select; [done|]. apply replay_resize; [done..|]. by apply Hr.
  - intros k. specialize (Hp (db, k)). destruct (m' !! (db, k)) as [c|].
    + rewrite Hm in Hp. by destruct Hp as [|(_ & _ & ?)].
    + apply Habsent. by apply (proj2 Hp).
  - intros db' k Hdb'. specialize (Hp (db', k)). destruct (m' !! (db', k)) as [c|].
    + by destruct Hp as [|(? & _)].
    + symmetry. apply Hp.
Qed.

(** *** The databases *)

Lemma writes_databases (e : engine) (n : nat) : placed (databases e) -> all_saveable e -> short (Z.of_nat n) ->
  (forall db k, (db < n)%nat -> is_Some (shard_at e db k)) ->
  forall count db (m : contents), (db + count)%nat = n -> (forall db' k, (db <= db')%nat -> m !! (db', k) = None) ->
  exists items m', (forall wr, written_as e wr items (for_each (seq db count) write_database wr))
    /\ (forall db0, replay n db0 m items m')
    /\ (forall db' k, (db <= db' < n)%nat -> match m' !! (db', k) with Some c => keeps e db' k c | None => absent e db' k end)
    /\ (forall db' k, (db' < db)%nat -> m' !! (db', k) = m !! (db', k)).
Proof.
  intros Hplaced Hsave Hn Hshards. induction count as [|count IH]; intros db m Hdb Hm.
  - exists [], m. split_and!; [|intros; constructor|intros; lia|done]. intros wr w. exists w, wr. split; [done|symmetry; apply app_nil_r].
  - unfold short in Hn. destruct (writes_database e n db m) as (items1 & m1 & Hw1 & Hr1 & Hc1 & Ho1); try done; try lia.
    { unfold short. lia. }
    { intros k. apply Hshards. lia. }
    { intros k. by apply Hm. }
    destruct (IH (S db) m1) as (items2 & m2 & Hw2 & Hr2 & Hc2 & Ho2); [lia|intros db' k Hle; rewrite Ho1 by lia; apply Hm; lia|].
    exists (items1 ++ items2), m2. split_and!.
    + intros wr. simpl. by apply written_app.
    + intros db0. by apply Hr1.
    + intros db' k Hdb'. destruct (decide (db' = db)) as [->|Hne]; [|apply Hc2; lia]. rewrite Ho2 by lia. apply Hc1.
    + intros db' k Hlt. rewrite Ho2 by lia. apply Ho1. lia.
Qed.

Lemma content_unique v c c' : has_content v c -> has_content v c' -> c = c'.
Proof.
  intros H1' H2'. destruct c, c'; simpl in H1', H2'; simplify_eq; try done;
    repeat match goal with E : exists _, _ /\ _ |- _ => destruct E as (? & ? & ?) end; simplify_eq; try done.
  - f_equal. pose proof (zs_range_by_rank_rep _ l 0 (Z.of_nat (length l + length l0)) ltac:(eassumption) ltac:(lia)) as E1.
    rewrite (zs_range_by_rank_rep _ l0) in E1 by (done || lia). injection E1 as E1. unfold rank_slice in E1. simpl in E1.
    change (drop (Z.to_nat 0) ?x) with x in E1. rewrite !take_ge in E1 by lia. congruence.
  - naive_solver.
Qed.

(** *** The whole file *)

Lemma checksum_u64 wr b : in_u64 (crc (write_byte b wr)).
Proof. apply u64_wrap_range. Qed.

Lemma run_shape u k nd mm (e : engine) : nsteps (store_step u) k (with_config nd mm) e -> shape e = replicate nd SHARDS_PER_DATABASE.
Proof.
  intros Hr. assert (E : shape e = shape (with_config (ZS:=ZS) nd mm)).
  { remember (with_config nd mm) as e0 eqn:E0. clear E0. induction Hr as [|k x y z Hxy Hyz IH]; [done|]. rewrite IH.
    by eapply store_step_shape. }
  rewrite E. unfold shape, with_config. simpl. change (map length) with (fmap (M := list) (@length (DatabaseShard ZS))).
  by rewrite fmap_replicate.
Qed.

Lemma snapshot_file (e : engine) (n : nat) w : placed (databases e) -> all_saveable e -> short (Z.of_nat n) ->
  length (databases e) = n -> (forall db k, (db < n)%nat -> is_Some (shard_at e db k)) ->
  exists w' items sum (m : contents), write_snapshot w e = (w', e, Go (enc_file items sum)) /\ in_u64 sum /\ replay n 0 ∅ items m
    /\ forall db k, (db < n)%nat -> match m !! (db, k) with Some c => keeps e db k c | None => absent e db k end.
Proof.
  intros Hplaced Hsave Hn Hcount Hshards.
  destruct (writes_databases e n Hplaced Hsave Hn Hshards n 0 ∅) as (items & m & Hw & Hr & Hc & _); [lia|done|].
  unfold write_snapshot, bind, system_time, database_count_of, try_op, database_count. rewrite Hcount.
  match goal with |- context [for_each (seq 0 n) write_database ?wr ?w1 e] => destruct (Hw wr w1) as (w' & wr' & -> & Hwr) end.
  exists w', (IAux (B "redis-ver") PKG_VERSION :: IAux (B "ctime") (show_u64 (wall w 0%nat / 1000000000)) :: items),
    (crc (write_eof wr')), m. split_and!.
  - unfold ret, enc_file, write_checksum. do 2 f_equal. autorewrite with written. unfold write_eof. autorewrite with written.
    rewrite Hwr. unfold write_metadata, write_header. autorewrite with written. unfold enc_items. cbn [map concat enc_item writer_new written].
    by rewrite app_nil_l, <- !app_assoc.
  - apply checksum_u64.
  - constructor; [done|done|]. constructor; [done|apply short_u64|]. apply Hr.
  - intros db k Hdb. apply Hc. lia.
Qed.
End roundtrip.

(** Of a store whose keys are in their shards. *)
Lemma save_then_load {ZS : Type} `{SortedSet ZS} `{Layout} `{HashIter} `{Random} `{!SortedSetSpec ZS}
    (nd : nat) (e : StorageEngine ZS) (r : RdbEngine) (w1 : World)
    (Hdata : in_u64 size_stream_data) (Hstream : in_u64 size_stream)
    (Hplaced : placed (databases e)) (Hshape : shape e = replicate nd SHARDS_PER_DATABASE) (Hnd : short (Z.of_nat nd)) (Hsave : all_saveable e) :
  exists w1' r', save r w1 e = (w1', e, Go r')
    /\ forall w2, exists w2' e', rdb_load r' w2 (with_config nd unlimited) = (w2', e', Go tt)
         /\ forall (db : nat) (key : bytes), (db < nd)%nat ->
              (forall c, keeps e db key c -> keeps e' db key c) /\ (absent e db key -> absent e' db key).
Proof.
  assert (Hcount : length (databases e) = nd) by (unfold shape in Hshape; by rewrite <- (length_map length), Hshape, length_replicate).
  assert (Hshards : forall db key, (db < nd)%nat -> is_Some (shard_at e db key)).
  { intros db key Hdb. apply shard_at_shape. rewrite Hshape, <- (run_shape false 0 nd unlimited _ (nsteps_O _ _)).
    apply shard_at_shape. rewrite start_shard by done. eauto. }
  destruct (snapshot_file e nd w1 Hplaced Hsave Hnd Hcount Hshards) as (w1' & items & sum & m & E & Hsum & Hr & Hc).
  unfold save, bind. rewrite E. eexists _, _. split; [done|]. intros w2. unfold rdb_load. cbn [rdb_file].
  destruct (file_loads Hdata Hstream nd items m sum w2 (with_config nd unlimited) Hr Hsum) as (w2' & e' & -> & Hf).
  { split; [done|]. intros db key Hdb. exists shard_new. split; [by apply start_shard|]. by rewrite lookup_empty. }
  eexists _, e'. split; [done|]. intros db key Hdb. specialize (Hc db key Hdb). destruct Hf as [_ Hf].
  destruct (Hf db key Hdb) as (sh & Hsh & Hx). destruct (m !! (db, key)) as [c0|].
  - apply cell_some in Hx as (sv & Hsv & Hv & Hb). split.
    + intros c Hkeep. exists sh, sv. split_and!; [done|done|by apply eq_None_not_Some; apply bool_decide_eq_false in Hb|].
      destruct Hkeep as (s1 & sv1 & Hs1 & Hk1 & _ & Hv1), Hc as (s2 & sv2 & Hs2 & Hk2 & _ & Hv2). simplify_eq.
      by rewrite (content_unique _ _ _ Hv1 Hv2).
    + intros (s0 & Hs0 & Hno). destruct Hc as (s1 & sv1 & Hs1 & Hyes & _). congruence.
  - apply cell_none in Hx. split; [|by exists sh]. intros c (s1 & sv1 & Hs1 & Hyes & _). destruct Hc as (s0 & Hs0 & Hno). congruence.
Qed.

(** C22. Loading what SAVE wrote gives the store back.  For a store that was made
    by engine operations, whose keys have no time to live and whose values fit
    the format (lengths of 32 bits, no empty stream, no list that starts with the
    marker of streams), SAVE succeeds and leaves the store as it is; and
    whenever the file is loaded into a new store of as many databases and without
    a memory limit, loading succeeds, every key has the string, list, set, hash,
    sorted set or the stream entries it had, without a time to live, and a key
    that was not there is not there. *)
Theorem rdb_roundtrip {ZS : Type} `{SortedSet ZS} `{Layout} `{HashIter} `{Random} `{!SortedSetSpec ZS}
    (u : bool) (k nd : nat) (mm : MemoryManager) (e : StorageEngine ZS) (r : RdbEngine) (w1 : World)
    (Hdata : in_u64 size_stream_data) (Hstream : in_u64 size_stream)
    (Hrun : nsteps (store_step u) k (with_config nd mm) e) (Hnd : short (Z.of_nat nd)) (Hsave : all_saveable e) :
  exists w1' r', save r w1 e = (w1', e, Go r')
    /\ forall w2, exists w2' e', rdb_load r' w2 (with_config nd unlimited) = (w2', e', Go tt)
         /\ forall (db : nat) (key : bytes), (db < nd)%nat ->
              (forall c, keeps e db key c -> keeps e' db key c) /\ (absent e db key -> absent e' db key).
Proof. apply save_then_load; try done; [by eapply placed_run|by eapply run_shape]. Qed.

Lemma rdb_roundtrip_witness :
  let _ := example_layout in let _ := default_iter in let _ := example_random in
  let e0 := with_config (ZS:=SkipList) 1 unlimited in
  let e1 := (set_string 1 e0 0 (B "a") (B "1")).1 in
  let e2 := (rpush 1 e1 0 (B "b") [B "x"; B "y"]).1 in
  let w := mkWorld (fun _ => 5) (fun _ => 1700000000000000000) (fun _ => 0) (fun _ => false) clock_cache_new in
  exists w1 r, save (rdb_new None) w e2 = (w1, e2, Go r)
    /\ exists w2 e', rdb_load r w (with_config 1 unlimited) = (w2, e', Go tt)
         /\ keeps e' 0 (B "a") (CString (B "1")) /\ keeps e' 0 (B "b") (CList [B "x"; B "y"]).
Proof.
  intros lay it rnd e0 e1 e2 w.
  assert (Hrun : nsteps (store_step true) 2 e0 e2).
  { eapply nsteps_l; [exact (ss_key true e0 0 (B "a") _ (ks_set_value 0 (B "a") e0 1 (VString (B "1")) None I))|].
    eapply nsteps_l; [exact (ss_key true e1 0 (B "b") _ (ks_rpush 0 (B "b") e1 1 [B "x"; B "y"] ltac:(discriminate)))|]. apply nsteps_O. }
  assert (Ha : keeps e2 0 (B "a") (CString (B "1"))).
  { eexists _, _. split_and!; [vm_compute; reflexivity..|vm_compute; reflexivity]. }
  assert (Hb : keeps e2 0 (B "b") (CList [B "x"; B "y"])).
  { eexists _, _. split_and!; [vm_compute; reflexivity..|vm_compute; reflexivity]. }
  assert (exists d, databases e2 = [d]) as [d Hdbs] by (eexists; vm_compute; reflexivity).
  assert (exists keys, get_all_keys e2 0 = Ok keys /\ length keys = 2%nat /\ forall k, k ∈ keys -> k = B "a" \/ k = B "b")
    as (keys & Hkeys & Hlen & Hin).
  { eexists. split; [vm_compute; reflexivity|]. split; [reflexivity|]. intros k Hk.
    repeat (apply elem_of_cons in Hk as [->|Hk]; [first [left; reflexivity|right; reflexivity]|]). destruct (not_elem_of_nil _ Hk). }
  clearbody e2.
  assert (Hsave : all_saveable e2).
  { split.
    - intros [|db] keys' Hk; [|unfold get_all_keys in Hk; by rewrite Hdbs in Hk].
      assert (keys' = keys) as -> by congruence. unfold short. rewrite Hlen. lia.
    - intros [|db] key sh Hsh Hsome; [|unfold shard_at in Hsh; by rewrite Hdbs in Hsh].
      assert (Hk : key ∈ keys).
      { apply (elem_of_all_keys e2 0 d keys key ltac:(by rewrite Hdbs) Hkeys). exists (get_shard_index key), sh. split; [|done].
        unfold shard_at in Hsh. by rewrite Hdbs in Hsh. }
      destruct (Hin key Hk) as [->| ->]; (split; [vm_compute; split; congruence|]); eexists; (split; [eassumption|]).
      + vm_compute. split; congruence.
      + split_and!; [discriminate|vm_compute; split; congruence| |vm_compute; congruence].
        repeat constructor; vm_compute; congruence. }
  assert (Hsizes : in_u64 size_stream_data /\ in_u64 size_stream) by (vm_compute; repeat split; congruence).
  assert (Hnd : short (Z.of_nat 1)) by (vm_compute; split; congruence).
  destruct (rdb_roundtrip true 2 1 unlimited e2 (rdb_new None) w (proj1 Hsizes) (proj2 Hsizes) Hrun Hnd Hsave) as (w1 & r & Hs & Hl).
  exists w1, r. split; [exact Hs|]. destruct (Hl w) as (w2 & e' & Hload & Hc). exists w2, e'. split; [exact Hload|].
  split; [apply (proj1 (Hc 0%nat (B "a") ltac:(lia)) _ Ha)|apply (proj1 (Hc 0%nat (B "b") ltac:(lia)) _ Hb)].
Defined.
