(* ===== verification/Replication.v ===== *)
(** * Replication on the master's side (src/replication/backlog.rs, manager.rs,
    commands.rs and sync.rs)

    The backlog is a ring of bytes with the offset of its first byte; the
    manager has the server's role, the replicas and the backlog.  REPLICAOF and
    SLAVEOF make a server a replica or a master again; the thread that follows a
    master is in ReplicaClient.v.  The backlog holds the last bytes of the stream
    of commands, and answers from an offset exactly when it still has the byte
    at that offset. *)

From S2P Require Import Prelude Text Resp PubSub RespParser Connection Command.

Open Scope Z_scope.

(** ** The backlog *)

Record ReplicationBacklog := mkBacklog {
  max_size : Z;
  bl_buffer : bytes;
  start_offset : Z;
  current_size : Z;
}.

Definition backlog_new (max : Z) : ReplicationBacklog := mkBacklog max [] 0 0.

(** One byte: when the ring is full the oldest byte goes, if there is one. *)
Definition append_byte (b : ReplicationBacklog) (x : byte) : ReplicationBacklog :=
  if max_size b <=? current_size b then
    match bl_buffer b with
    | _ :: rest => mkBacklog (max_size b) (rest ++ [x]) (u64_wrap (start_offset b + 1)) (current_size b)
    | [] => mkBacklog (max_size b) [x] (start_offset b) (current_size b)
    end
  else mkBacklog (max_size b) (bl_buffer b ++ [x]) (start_offset b) (current_size b + 1).

Definition append_bytes (b : ReplicationBacklog) (l : bytes) : ReplicationBacklog := foldl append_byte b l.

Definition get_data_from_offset (b : ReplicationBacklog) (offset : Z) : outcome bytes :=
  let end_offset := u64_wrap (start_offset b + current_size b) in
  if (offset <? start_offset b) || (end_offset <=? offset)
  then Err (ECommand (CGeneric (B "offset out of range")))
  else Ok (drop (Z.to_nat (offset - start_offset b)) (bl_buffer b)).

(** The start offset stays. *)
Definition backlog_clear (b : ReplicationBacklog) : ReplicationBacklog := mkBacklog (max_size b) [] (start_offset b) 0.

Definition end_offset (b : ReplicationBacklog) : Z := u64_wrap (start_offset b + current_size b).

Section backlog.
Context `{F64Text}.

(** An error of the serializer leaves the backlog as it is. *)
Definition append_command (b : ReplicationBacklog) (cmd : RespFrame) : ReplicationBacklog * outcome unit :=
  match serialize_to_vec cmd with
  | Ok serialized => (append_bytes b serialized, Ok tt)
  | Err e => (b, Err e)
  | Panic => (b, Panic)
  end.
End backlog.

(** ** The manager *)

Inductive MasterLinkStatus := Connecting | Synchronizing | LinkUp | LinkDown.

Inductive ReplicationRole :=
  | Master (repl_id repl_id2 : bytes) (repl_offset repl_offset2 : Z)
  | Replica (master_addr : bytes) (link : MasterLinkStatus) (master_repl_id : bytes) (repl_offset : Z).

Record ReplicaInfo := mkReplica {
  rep_conn : Z;
  rep_addr : bytes;
  ack_offset : Z;
  last_interaction : Z;
}.

Record ReplicationManager := mkRepl {
  role : ReplicationRole;
  replicas : gmap Z ReplicaInfo;
  backlog : ReplicationBacklog;
}.

Definition zero_id : bytes := replicate 40 "0"%byte.

(** [repl_id] is drawn at random. *)
Definition replication_new (repl_id : bytes) (backlog_size : Z) : ReplicationManager :=
  mkRepl (Master repl_id zero_id 0 0) ∅ (backlog_new backlog_size).

Definition is_master (m : ReplicationManager) : bool := match role m with Master _ _ _ _ => true | _ => false end.
Definition is_replica (m : ReplicationManager) : bool := negb (is_master m).

Definition get_repl_offset (m : ReplicationManager) : Z :=
  match role m with Master _ _ o _ => o | Replica _ _ _ o => o end.

(** The replicas are dropped by a server that becomes a replica and kept by one
    that becomes a master. *)
Definition set_master (repl_id : bytes) (m : ReplicationManager) (addr : option bytes) : ReplicationManager :=
  match addr with
  | Some a => mkRepl (Replica a Connecting [] 0) ∅ (backlog m)
  | None => mkRepl (Master repl_id zero_id 0 0) (replicas m) (backlog m)
  end.

Definition add_replica (m : ReplicationManager) (r : ReplicaInfo) : ReplicationManager * outcome unit :=
  if is_master m then (mkRepl (role m) (<[rep_conn r := r]> (replicas m)) (backlog m), Ok tt)
  else (m, Err (ECommand (CGeneric (B "not a master")))).

Definition remove_replica (m : ReplicationManager) (conn_id : Z) : ReplicationManager * option ReplicaInfo :=
  (mkRepl (role m) (delete conn_id (replicas m)) (backlog m), replicas m !! conn_id).

Section manager.
Context `{F64Text} `{HashIter}.

(** The offset counts commands. *)
Definition propagate_command (m : ReplicationManager) (cmd_frame : RespFrame) : ReplicationManager * outcome (list Z) :=
  match role m with
  | Replica _ _ _ _ => (m, Ok [])
  | Master i1 i2 o1 o2 =>
      match append_command (backlog m) cmd_frame with
      | (b, Ok _) =>
          (mkRepl (Master i1 i2 (u64_wrap (o1 + 1)) o2) (replicas m) b, Ok (map_iter (replicas m)).*1)
      | (b, Err e) => (mkRepl (role m) (replicas m) b, Err e)
      | (b, Panic) => (mkRepl (role m) (replicas m) b, Panic)
      end
  end.

Definition not_a_replica {A} : outcome A := Err (ECommand (CGeneric (B "not a replica"))).

Definition update_master_link_status (m : ReplicationManager) (s : MasterLinkStatus) : ReplicationManager * outcome unit :=
  match role m with
  | Replica a _ i o => (mkRepl (Replica a s i o) (replicas m) (backlog m), Ok tt)
  | Master _ _ _ _ => (m, not_a_replica)
  end.

Definition update_replica_offset (m : ReplicationManager) (offset : Z) (id : option bytes) : ReplicationManager * outcome unit :=
  match role m with
  | Replica a s i _ => (mkRepl (Replica a s (default i id) offset) (replicas m) (backlog m), Ok tt)
  | Master _ _ _ _ => (m, not_a_replica)
  end.

(** ** SYNC and PSYNC *)

Inductive PsyncResult :=
  | FullResync (repl_id : bytes) (offset : Z)
  | PartialResync (backlog_data : bytes).

Definition sync_psync (m : ReplicationManager) (repl_id : option bytes) (offset : option Z) : outcome PsyncResult :=
  match role m with
  | Replica _ _ _ _ => Err (ECommand (CGeneric (B "wrong role")))
  | Master master_id _ current_offset _ =>
      let full := FullResync master_id current_offset in
      match repl_id, offset with
      | Some rid, Some off =>
          if bool_decide (rid = master_id) || bool_decide (rid = B "?") then
            match get_data_from_offset (backlog m) off with
            | Ok data => Ok (PartialResync data)
            | _ => Ok full
            end
          else Ok full
      | _, _ => Ok full
      end
  end.

Definition full_resync_line (repl_id : bytes) (offset : Z) : RespFrame :=
  SimpleString (B "FULLRESYNC " ++ repl_id ++ B " " ++ show_u64 offset).

(** The two arguments of PSYNC. *)
Definition psync_id (f : RespFrame) : option bytes + RespFrame :=
  match f with
  | BulkString (Some b) =>
      let id := utf8_lossy b in inl (if bool_decide (id = B "?") then None else Some id)
  | _ => inr (error (B "ERR invalid replication ID format"))
  end.

Definition bad_offset : RespFrame := error (B "ERR invalid offset format").

Definition psync_offset (f : RespFrame) : option Z + RespFrame :=
  match f with
  | BulkString (Some b) =>
      let s := utf8_lossy b in
      if bool_decide (s = B "-1") then inl None
      else match parse_u64 s with Some o => inl (Some o) | None => inr bad_offset end
  | _ => inr bad_offset
  end.

(** A partial resynchronisation answers CONTINUE and drops the data. *)
Definition handle_psync (parts : list RespFrame) (m : ReplicationManager) : outcome RespFrame :=
  match parts with
  | [_; id_frame; offset_frame] =>
      match psync_id id_frame, psync_offset offset_frame with
      | inr f, _ => Ok f
      | _, inr f => Ok f
      | inl id, inl off =>
          let? r := sync_psync m id off in
          Ok (match r with
              | FullResync i o => full_resync_line i o
              | PartialResync _ => SimpleString (B "CONTINUE")
              end)
      end
  | _ => Ok (error (wrong_arity (B "psync")))
  end.

(** [send_rdb_to_replica]; the flush is the socket's. *)
Definition send_rdb_to_replica (c : Connection) (rdb_data : bytes) : Connection :=
  send_raw (send_raw (send_raw c (B "$" ++ show_len rdb_data ++ CRLF)) rdb_data) CRLF.

(** ** REPLCONF *)

Definition ack_reply (offset : Z) : RespFrame :=
  Array (Some [from_bytes (B "REPLCONF"); from_bytes (B "ACK"); from_bytes (show_u64 offset)]).

(** [replica.update_ack_offset(offset); replica.touch()] *)
Definition acknowledge_offset (now : Z) (m : ReplicationManager) (conn_id offset : Z) : ReplicationManager :=
  mkRepl (role m)
    (alter (fun r => mkReplica (rep_conn r) (rep_addr r) offset now) conn_id (replicas m)) (backlog m).

Definition handle_replconf `{CaseMap} (now : Z) (parts : list RespFrame) (conn_id : Z) (m : ReplicationManager)
    : ReplicationManager * outcome RespFrame :=
  match parts with
  | _ :: f :: arg :: rest =>
      match f with
      | BulkString (Some b) =>
          let sub := to_uppercase b in
          if bool_decide (sub = B "LISTENING-PORT") || bool_decide (sub = B "CAPA") then (m, Ok ok)
          else if bool_decide (sub = B "ACK") then
            match rest with
            | [] =>
                match arg with
                | BulkString (Some o) =>
                    match parse_u64 (utf8_lossy o) with
                    | Some offset => (acknowledge_offset now m conn_id offset, Ok ok)
                    | None => (m, Err (ECommand (CGeneric (B "invalid offset"))))
                    end
                | _ => (m, Ok bad_offset)
                end
            | _ => (m, Ok (error (B "ERR wrong number of arguments")))
            end
          else if bool_decide (sub = B "GETACK") then
            if is_replica m then (m, Ok (ack_reply (get_repl_offset m))) else (m, Ok (error (B "ERR wrong role")))
          else (m, Ok (error (B "ERR unknown REPLCONF subcommand")))
      | _ => (m, Ok (error (B "ERR invalid subcommand format")))
      end
  | _ => (m, Ok (error (wrong_arity (B "replconf"))))
  end.
End manager.

(** ** REPLICAOF and SLAVEOF (src/replication/commands.rs) *)

(** The addresses of a host and port, by the resolver of the system. *)
Class Resolver := { to_socket_addrs : bytes -> option (list bytes) }.

Section replicaof.
Context `{CaseMap} `{Resolver}.

Definition generic {A} (msg : bytes) : outcome A := Err (ECommand (CGeneric msg)).

(** [String::from_utf8(..).map_err(|_| CommandError::Generic(msg))?] *)
Definition utf8_or (b msg : bytes) : outcome bytes := if utf8_valid b then Ok b else generic msg.

Definition become_master (new_id : bytes) (arg : RespFrame) (m : ReplicationManager) : ReplicationManager * outcome RespFrame :=
  match arg with
  | BulkString (Some b) =>
      match utf8_or b (B "invalid argument format") with
      | Ok s =>
          if bool_decide (to_uppercase s = B "ONE") then (set_master new_id m None, Ok ok) else (m, Ok (error syntax_error))
      | Err e => (m, Err e)
      | Panic => (m, Panic)
      end
  | _ => (m, Ok (error syntax_error))
  end.

Definition port_of (s : bytes) : outcome Z :=
  match parse_u64 s with
  | Some n => if n <=? 65535 then Ok n else generic (B "invalid port number")
  | None => generic (B "invalid port number")
  end.

Definition resolve (host : bytes) (port : Z) : outcome bytes :=
  match to_socket_addrs (host ++ B ":" ++ show_u64 port) with
  | None => generic (B "invalid address")
  | Some [] => generic (B "failed to resolve address")
  | Some (addr :: _) => Ok addr
  end.

Definition become_replica (new_id host : bytes) (arg : RespFrame) (m : ReplicationManager) : ReplicationManager * outcome RespFrame :=
  match arg with
  | BulkString (Some b) =>
      match (let? s := utf8_or b (B "invalid port format") in let? port := port_of s in resolve host port) with
      | Ok addr => (set_master new_id m (Some addr), Ok ok)
      | Err e => (m, Err e)
      | Panic => (m, Panic)
      end
  | _ => (m, Ok (error (B "ERR invalid port format")))
  end.

(** [new_id] is the id that is drawn for a new master. *)
Definition handle_replicaof (new_id : bytes) (parts : list RespFrame) (m : ReplicationManager)
    : ReplicationManager * outcome RespFrame :=
  match parts with
  | _ :: f :: arg :: rest =>
      match f with
      | BulkString (Some b) =>
          match utf8_or b (B "invalid host format") with
          | Ok host =>
              if bool_decide (to_uppercase host = B "NO") then
                match rest with
                | [] => become_master new_id arg m
                | _ => (m, Ok (error (wrong_arity (B "replicaof"))))
                end
              else become_replica new_id host arg m
          | Err e => (m, Err e)
          | Panic => (m, Panic)
          end
      | _ => (m, Ok (error (B "ERR invalid host format")))
      end
  | _ => (m, Ok (error (wrong_arity (B "replicaof"))))
  end.

Definition handle_slaveof := handle_replicaof.
End replicaof.

(** ** The backlog holds the last bytes *)

Definition zlen {A} (l : list A) : Z := Z.of_nat (length l).

(** The ring after [l] was appended to an empty backlog of [max] bytes. *)
Definition holds_last (max : Z) (l : bytes) (b : ReplicationBacklog) : Prop :=
  max_size b = max
  /\ bl_buffer b = drop (Z.to_nat (zlen l - max)) l
  /\ start_offset b = Z.max 0 (zlen l - max)
  /\ current_size b = Z.min (zlen l) max.

Lemma append_holds max l x b :
  0 < max -> zlen l < u64_max -> holds_last max l b -> holds_last max (l ++ [x]) (append_byte b x).
Proof.
  intros Hmax Hl (Hm & Hb & Hs & Hc). unfold holds_last, append_byte. rewrite Hm, Hc.
  assert (Hlx : zlen (l ++ [x]) = zlen l + 1) by (unfold zlen; rewrite length_app; simpl; lia).
  rewrite Hlx. pose proof (Nat2Z.is_nonneg (length l)) as Hpos. fold (zlen l) in Hpos.
  destruct (Z.leb_spec max (Z.min (zlen l) max)) as [Hfull|Hroom].
  - destruct (bl_buffer b) as [|y rest] eqn:E.
    { apply (f_equal length) in Hb. rewrite length_drop in Hb. simpl in Hb. unfold zlen in *. lia. }
    simpl. split_and!; [done| | |lia].
    + replace (Z.to_nat (zlen l + 1 - max)) with (S (Z.to_nat (zlen l - max))) by lia.
      rewrite drop_app_le by (unfold zlen in *; lia). f_equal.
      replace (S (Z.to_nat (zlen l - max))) with (Z.to_nat (zlen l - max) + 1)%nat by lia. rewrite <- drop_drop, <- Hb. done.
    + rewrite u64_wrap_small by (unfold in_u64; lia). lia.
  - simpl. split_and!; [done| |lia..]. rewrite Hb. replace (Z.to_nat (zlen l - max)) with 0%nat by lia.
    by replace (Z.to_nat (zlen l + 1 - max)) with 0%nat by lia.
Qed.

Lemma append_bytes_holds max l : 0 < max -> zlen l <= u64_max -> holds_last max l (append_bytes (backlog_new max) l).
Proof.
  intros Hmax. induction l as [|x l IH] using rev_ind; intros Hl.
  - unfold holds_last. simpl. by rewrite drop_nil, Z.max_l, Z.min_l by (unfold zlen; simpl; lia).
  - assert (Hlx : zlen (l ++ [x]) = zlen l + 1) by (unfold zlen; rewrite length_app; simpl; lia).
    unfold append_bytes. rewrite foldl_app. simpl. apply append_holds; [done|lia|]. apply IH. lia.
Qed.

Section commands.
Context `{F64Text}.

(** The commands appended one after the other. *)
Definition append_commands (b : ReplicationBacklog) (frames : list RespFrame) : ReplicationBacklog :=
  foldl (fun b f => (append_command b f).1) b frames.

Definition wire_of (f : RespFrame) : bytes := match serialize_to_vec f with Ok b => b | _ => [] end.

Lemma append_commands_bytes frames b : append_commands b frames = append_bytes b (concat (map wire_of frames)).
Proof.
  revert b. induction frames as [|f frames IH]; intros b; simpl; [done|]. unfold append_bytes. rewrite foldl_app.
  fold (append_bytes b (wire_of f)). fold (append_bytes (append_bytes b (wire_of f)) (concat (map wire_of frames))).
  rewrite <- IH. f_equal. unfold append_command, wire_of. by destruct (serialize_to_vec f).
Qed.

(** C34. The backlog.  After any commands, a backlog of [max > 0] bytes holds the
    last [max] bytes of their wire images (all of them when they are fewer), and
    it answers a replica that asks from an offset with exactly the bytes of the
    stream from that offset on, if and only if it still has them. *)
Theorem backlog_exact (max : Z) (frames : list RespFrame) (o : Z)
    (Hmax : 0 < max) (Ho : 0 <= o) (Hlen : zlen (concat (map wire_of frames)) <= u64_max) :
  let stream := concat (map wire_of frames) in
  let b := append_commands (backlog_new max) frames in
  bl_buffer b = drop (Z.to_nat (zlen stream - max)) stream
  /\ get_data_from_offset b o
     = if decide (zlen stream - max <= o < zlen stream) then Ok (drop (Z.to_nat o) stream)
       else Err (ECommand (CGeneric (B "offset out of range"))).
Proof.
  intros stream b. unfold b. rewrite append_commands_bytes. fold stream.
  destruct (append_bytes_holds max stream Hmax Hlen) as (Hm & Hb & Hs & Hc). split; [exact Hb|].
  fold stream in Hlen. pose proof (Nat2Z.is_nonneg (length stream)) as Hpos. fold (zlen stream) in Hpos.
  unfold get_data_from_offset. rewrite Hb, Hs, Hc. rewrite u64_wrap_small by (unfold in_u64; lia).
  destruct (decide _) as [Hin|Hout].
  - rewrite (proj2 (Z.ltb_ge o _)), (proj2 (Z.leb_gt _ o)) by lia. simpl. f_equal. rewrite drop_drop. f_equal. lia.
  - destruct (Z.ltb_spec o (Z.max 0 (zlen stream - max))) as [|Hge]; [done|].
    rewrite (proj2 (Z.leb_le _ o)) by lia. done.
Qed.
End commands.

(** Two commands in a backlog of 20 bytes. *)
Lemma backlog_exact_witness :
  let frames := [Array (Some [from_bytes (B "DEL"); from_bytes (B "a")]); Array (Some [from_bytes (B "DEL"); from_bytes (B "b")])] in
  let b := append_commands (H := BitText.bit_text) (backlog_new 24) frames in
  get_data_from_offset b 20 = Ok (encode (H := BitText.bit_text) (Array (Some [from_bytes (B "DEL"); from_bytes (B "b")])))
  /\ get_data_from_offset b 10 = Err (ECommand (CGeneric (B "offset out of range"))).
Proof.
  intros frames b.
  pose proof (fun o Ho => backlog_exact (H := BitText.bit_text) 24 frames o eq_refl Ho ltac:(vm_compute; discriminate)) as Hb.
  split.
  - etrans; [exact (proj2 (Hb 20 ltac:(discriminate)))|]. vm_compute. reflexivity.
  - etrans; [exact (proj2 (Hb 10 ltac:(discriminate)))|]. vm_compute. reflexivity.
Defined.
