(* ===== verification/Info.v ===== *)
(** * INFO (src/storage/commands/monitor.rs) and the statistics of the server

    The counters of [ServerStats] that INFO reports, the text of each section,
    and the command; and the line of a command that MONITOR is about
    (src/monitor.rs).  Floating-point numbers with two digits are written as
    Rust writes them: the exact value rounded to even.  [pending_writes], which
    nothing reads, is left out. *)

From S2P Require Import Prelude Text Resp SortedSet Value PubSub Keyspace Rdb Command CollectionCommands StringCommands Replication.
From Stdlib Require Import Floats.SpecFloat.

Open Scope Z_scope.

Record ServerStats := mkStats {
  total_connections_received : Z;
  total_commands_processed : Z;
  keyspace_hits : Z;
  keyspace_misses : Z;
  peak_memory : Z;
  blocked_clients : Z;
  auth_successes : Z;
  auth_failures : Z;
}.

Definition stats_new : ServerStats := mkStats 0 0 0 0 0 0 0 0.

Definition count_connection (st : ServerStats) : ServerStats :=
  mkStats (u64_wrap (total_connections_received st + 1)) (total_commands_processed st) (keyspace_hits st) (keyspace_misses st)
    (peak_memory st) (blocked_clients st) (auth_successes st) (auth_failures st).
Definition count_command (st : ServerStats) : ServerStats :=
  mkStats (total_connections_received st) (u64_wrap (total_commands_processed st + 1)) (keyspace_hits st) (keyspace_misses st)
    (peak_memory st) (blocked_clients st) (auth_successes st) (auth_failures st).
Definition set_peak (n : Z) (st : ServerStats) : ServerStats :=
  mkStats (total_connections_received st) (total_commands_processed st) (keyspace_hits st) (keyspace_misses st)
    n (blocked_clients st) (auth_successes st) (auth_failures st).
Definition count_success (st : ServerStats) : ServerStats :=
  mkStats (total_connections_received st) (total_commands_processed st) (keyspace_hits st) (keyspace_misses st)
    (peak_memory st) (blocked_clients st) (u64_wrap (auth_successes st + 1)) (auth_failures st).
Definition count_failure (st : ServerStats) : ServerStats :=
  mkStats (total_connections_received st) (total_commands_processed st) (keyspace_hits st) (keyspace_misses st)
    (peak_memory st) (blocked_clients st) (auth_successes st) (u64_wrap (auth_failures st + 1)).

Definition count_lookups (hits misses : Z) (st : ServerStats) : ServerStats :=
  mkStats (total_connections_received st) (total_commands_processed st) (u64_wrap (keyspace_hits st + hits))
    (u64_wrap (keyspace_misses st + misses)) (peak_memory st) (blocked_clients st) (auth_successes st) (auth_failures st).

(** ** Numbers *)

(** [n as f64], of an unsigned number. *)
Definition u64_as_f64 (n : Z) : spec_float := binary_normalize 53 1024 n 0 false.
Definition f_div : spec_float -> spec_float -> spec_float := SFdiv 53 1024.
Definition f_mul : spec_float -> spec_float -> spec_float := SFmul 53 1024.

Definition round_half_even (a b : Z) : Z :=
  let q := a / b in
  let r := a mod b in
  if 2 * r <? b then q else if b <? 2 * r then q + 1 else if Z.even q then q else q + 1.

Definition minus (negative : bool) : bytes := if negative then B "-" else [].

(** [format!("{:.2}", f)] *)
Definition fixed2 (f : spec_float) : bytes :=
  match f with
  | S754_nan => B "NaN"
  | S754_infinity s => minus s ++ B "inf"
  | S754_zero s => minus s ++ B "0.00"
  | S754_finite s m e =>
      let hundredths := if 0 <=? e then Z.pos m * 2 ^ e * 100 else round_half_even (Z.pos m * 100) (2 ^ (- e)) in
      minus s ++ show_u64 (hundredths / 100) ++ B "." ++ show_u64 (hundredths / 10 mod 10) ++ show_u64 (hundredths mod 10)
  end.

(** [part as f64 / whole as f64 * 100.0] *)
Definition percentage (part whole : Z) : spec_float :=
  if 0 <? whole then f_mul (f_div (u64_as_f64 part) (u64_as_f64 whole)) (u64_as_f64 100) else S754_zero false.

Fixpoint to_unit (size : spec_float) (unit : bytes) (larger : list bytes) : spec_float * bytes :=
  match larger with
  | [] => (size, unit)
  | u :: larger' =>
      if SFleb (u64_as_f64 1024) size then to_unit (f_div size (u64_as_f64 1024)) u larger' else (size, unit)
  end.

Definition format_bytes (n : Z) : bytes :=
  let '(size, unit) := to_unit (u64_as_f64 n) (B "B") [B "K"; B "M"; B "G"; B "T"] in
  if bool_decide (unit = B "B") then show_u64 n ++ unit else fixed2 size ++ unit.

(** ** The text *)

(** [writeln!(output, ..)] *)
Definition line (text : bytes) : bytes := text ++ [byte_of 10].
Definition field (name value : bytes) : bytes := line (name ++ B ":" ++ value).

(** The package names no version of Rust, so the variable is empty. *)
Definition rustc_version : bytes := [].
Definition get_process_rss : Z := 0.
Definition get_memory_stats : Z * Z * Z := (0, 0, 0).
Definition get_total_system_memory : outcome Z := Ok 0.

(** The identity of the process, from the system. *)
Class Process := { process_id : Z }.

(** The state that INFO works on: the store and the counters. *)
Section info.
Context {ZS : Type} `{SortedSet ZS} `{Layout} `{HashIter} `{CaseMap} `{Process}.

Abbreviation engine := (StorageEngine ZS).
Abbreviation info A := (cmd (engine * ServerStats) A).

(** [start_time.elapsed().unwrap_or_default().as_secs()] *)
Definition uptime_secs (start_time : Z) : info Z :=
  let* t := system_time in ret (Z.max 0 (t - start_time) / 1000000000).

Definition append_server_info (start_time : Z) : info bytes :=
  let* uptime := uptime_secs start_time in
  ret (line (B "# Server") ++ field (B "redis_version") (B "7.0.0-ferrous") ++ field (B "ferrous_version") PKG_VERSION
       ++ field (B "redis_mode") (B "standalone") ++ field (B "process_id") (show_u64 process_id)
       ++ field (B "uptime_in_seconds") (show_u64 uptime) ++ field (B "uptime_in_days") (show_u64 (uptime / 86400))
       ++ field (B "rust_version") rustc_version ++ line []).

Definition append_clients_info (connected_clients max_clients : Z) : info bytes := fun w es =>
  (w, es, Go (line (B "# Clients") ++ field (B "connected_clients") (show_u64 connected_clients)
              ++ field (B "blocked_clients") (show_u64 (blocked_clients es.2)) ++ field (B "maxclients") (show_u64 max_clients) ++ line [])).

Definition total_memory_info (used : Z) : bytes :=
  match get_total_system_memory with
  | Ok total =>
      field (B "total_system_memory") (show_u64 total) ++ field (B "total_system_memory_human") (format_bytes total)
      ++ field (B "used_memory_percentage") (fixed2 (percentage used total))
  | _ => []
  end.

(** The peak is reported as it was before this call. *)
Definition append_memory_info : info bytes := fun w es =>
  let '(e, st) := es in
  let used := used_memory (memory_manager e) in
  let peak := peak_memory st in
  let st' := if peak <? used then set_peak used st else st in
  let ratio := if used =? 0 then u64_as_f64 1 else f_div (u64_as_f64 get_process_rss) (u64_as_f64 used) in
  let '(allocated, active, resident) := get_memory_stats in
  (w, (e, st'),
   Go (line (B "# Memory") ++ field (B "used_memory") (show_u64 used) ++ field (B "used_memory_human") (format_bytes used)
       ++ field (B "used_memory_rss") (show_u64 get_process_rss) ++ field (B "used_memory_rss_human") (format_bytes get_process_rss)
       ++ field (B "used_memory_peak") (show_u64 peak) ++ field (B "used_memory_peak_human") (format_bytes peak)
       ++ field (B "mem_fragmentation_ratio") (fixed2 ratio) ++ field (B "mem_allocator") (B "jemalloc")
       ++ field (B "allocator_allocated") (show_u64 allocated) ++ field (B "allocator_active") (show_u64 active)
       ++ field (B "allocator_resident") (show_u64 resident) ++ total_memory_info used ++ line [])).

Definition append_stats_info (start_time : Z) : info bytes :=
  let* uptime := uptime_secs start_time in
  fun w es =>
    let st := es.2 in
    let ops_per_sec := if 0 <? uptime then total_commands_processed st / uptime else 0 in
    (w, es,
     Go (line (B "# Stats") ++ field (B "total_connections_received") (show_u64 (total_connections_received st))
         ++ field (B "total_commands_processed") (show_u64 (total_commands_processed st))
         ++ field (B "instantaneous_ops_per_sec") (show_u64 ops_per_sec)
         ++ field (B "keyspace_hits") (show_u64 (keyspace_hits st)) ++ field (B "keyspace_misses") (show_u64 (keyspace_misses st))
         ++ field (B "keyspace_hit_rate") (fixed2 (percentage (keyspace_hits st) (u64_wrap (keyspace_hits st + keyspace_misses st))))
         ++ field (B "auth_successes") (show_u64 (auth_successes st)) ++ field (B "auth_failures") (show_u64 (auth_failures st)) ++ line [])).

(** A socket address as it is displayed: the parts of [ip:port] and of
    [[ip%scope]:port]. *)
Fixpoint until (c : byte) (s : bytes) : bytes :=
  match s with
  | b :: s' => if b =b c then [] else b :: until c s'
  | [] => []
  end.
Definition colon : byte := byte_of 58.
Definition addr_port (addr : bytes) : bytes := rev (until colon (rev addr)).
Definition addr_ip (addr : bytes) : bytes :=
  match take (length addr - S (length (addr_port addr))) addr with
  | b :: ip => if b =b byte_of 91 then until (byte_of 37) (until (byte_of 93) ip) else b :: ip
  | [] => []
  end.

Definition link_text (l : MasterLinkStatus) : bytes :=
  match l with LinkUp => B "up" | LinkDown => B "down" | Connecting => B "connecting" | Synchronizing => B "sync" end.

Definition replica_entry (idx : nat) (r : ReplicaInfo) : bytes * bytes :=
  (B "slave" ++ show_u64 (Z.of_nat idx),
   B "ip=" ++ addr_ip (rep_addr r) ++ B ",port=0,state=online,offset=" ++ show_u64 (ack_offset r) ++ B ",lag=0").

(** [ReplicationManager::get_info] *)
Definition get_info (m : ReplicationManager) : gmap bytes bytes :=
  match role m with
  | Master repl_id _ repl_offset _ =>
      let own := <[B "connected_slaves" := show_u64 (Z.of_nat (size (replicas m)))]>
        (<[B "repl_offset" := show_u64 repl_offset]> (<[B "repl_id" := repl_id]> (<[B "role" := B "master"]> ∅))) in
      foldl (fun info p => <[p.1 := p.2]> info) own (imap (fun idx p => replica_entry idx p.2) (map_iter (replicas m)))
  | Replica master_addr link _ repl_offset =>
      <[B "slave_repl_offset" := show_u64 repl_offset]> (<[B "master_link_status" := link_text link]>
        (<[B "master_port" := addr_port master_addr]> (<[B "master_host" := addr_ip master_addr]> (<[B "role" := B "slave"]> ∅))))
  end.

Definition append_replication_info (m : ReplicationManager) : bytes :=
  line (B "# Replication") ++ concat (map (fun p => field p.1 p.2) (map_iter (get_info m))) ++ line [].

Definition append_cpu_info : bytes :=
  line (B "# CPU") ++ field (B "used_cpu_sys") (B "0.00") ++ field (B "used_cpu_user") (B "0.00")
  ++ field (B "used_cpu_sys_children") (B "0.00") ++ field (B "used_cpu_user_children") (B "0.00") ++ line [].

(** The keys with a time to live, among [keys]. *)
Definition count_expiring (db : nat) (keys : list bytes) : cmd engine Z :=
  for_each keys (fun key n =>
    let* t := now in
    let* r := catch_op (fun e => ttl t e db key) in
    ret (match r with inl (Some _) => n + 1 | _ => n end)) 0.

Definition append_keyspace_info : cmd engine bytes :=
  let* n := try_op (reads (fun e => Ok (database_count e))) in
  for_each (seq 0 n) (fun db out =>
    let* r := catch_op (reads (fun e => get_all_keys e db)) in
    match r with
    | inl ((_ :: _) as keys) =>
        let* expiring := count_expiring db keys in
        ret (out ++ line (B "db" ++ show_u64 (Z.of_nat db) ++ B ":keys=" ++ show_u64 (Z.of_nat (length keys)) ++ B ",expires=" ++ show_u64 expiring))
    | _ => ret out
    end) (line (B "# Keyspace")).

(** On the store alone. *)
Definition on_stored {A} (h : cmd engine A) : info A := fun w es =>
  let '(w', e, r) := h w es.1 in (w', (e, es.2), r).

(** Which section is asked for. *)
Definition section_of (parts : list RespFrame) : option bytes :=
  match parts with
  | _ :: BulkString (Some b) :: _ => Some (to_lowercase (utf8_lossy b))
  | _ => None
  end.

Definition in_section (asked : option bytes) (name : bytes) (text : info bytes) (output : bytes) : info bytes :=
  if match asked with None => true | Some s => bool_decide (s = name) end
  then let* t := text in ret (output ++ t)
  else ret output.

Definition handle_info (start_time connected_clients max_clients : Z) (m : ReplicationManager) (parts : list RespFrame) : info RespFrame :=
  let asked := section_of parts in
  let* output := in_section asked (B "server") (append_server_info start_time) [] in
  let* output := in_section asked (B "clients") (append_clients_info connected_clients max_clients) output in
  let* output := in_section asked (B "memory") append_memory_info output in
  let* output := in_section asked (B "stats") (append_stats_info start_time) output in
  let* output := in_section asked (B "replication") (ret (append_replication_info m)) output in
  let* output := in_section asked (B "cpu") (ret append_cpu_info) output in
  let* output := in_section asked (B "keyspace") (on_stored append_keyspace_info) output in
  ret (from_string output).
End info.

(** ** What a MONITOR client would see (src/monitor.rs) *)

Definition hex_digit (n : Z) : byte := byte_of (if n <? 10 then 48 + n else 87 + n).

Definition escape_byte (b : byte) : bytes :=
  let n := u8 b in
  if n =? 92 then [byte_of 92; byte_of 92]
  else if n =? 34 then [byte_of 92; byte_of 34]
  else if n =? 10 then [byte_of 92; byte_of 110]
  else if n =? 13 then [byte_of 92; byte_of 114]
  else if n =? 9 then [byte_of 92; byte_of 116]
  else if (n <? 32) || (127 <=? n) then [byte_of 92; byte_of 120; hex_digit (n / 16); hex_digit (n mod 16)]
  else [b].
Definition escape_string (s : bytes) : bytes := concat (map escape_byte s).

Definition in_quotes (text : bytes) : bytes := [byte_of 32; byte_of 34] ++ text ++ [byte_of 34].

Definition monitored_part (part : RespFrame) : bytes :=
  match part with
  | BulkString (Some b) | SimpleString b => in_quotes (escape_string b)
  | Integer n => in_quotes (show_i64 n)
  | _ => in_quotes (B "<complex-value>")
  end.

(** A time before 1970 panics; the microseconds are not padded with zeros. *)
Definition format_monitor_output (timestamp : Z) (db : nat) (client_addr : bytes) (parts : list RespFrame) : outcome RespFrame :=
  if timestamp <? 0 then Panic
  else
    let time := show_u64 (timestamp / 1000000000) ++ B "." ++ show_u64 (timestamp mod 1000000000 / 1000) in
    Ok (SimpleString (time ++ B " [" ++ show_u64 (Z.of_nat db) ++ B "] " ++ client_addr ++ concat (map monitored_part parts))).

Example monitored_set :
  format_monitor_output 1700000000000042000 0 (B "127.0.0.1:7") [bulk_string (B "SET"); bulk_string (B "k"); bulk_string [byte_of 10; byte_of 200]]
  = Ok (SimpleString (B "1700000000.42 [0] 127.0.0.1:7" ++ in_quotes (B "SET") ++ in_quotes (B "k") ++ in_quotes (B "\n\xc8"))).
Proof. reflexivity. Qed.

Example two_digits : map fixed2 [f_div (u64_as_f64 1) (u64_as_f64 8); f_div (u64_as_f64 3) (u64_as_f64 8); f_div (u64_as_f64 2) (u64_as_f64 3); u64_as_f64 1]
  = [B "0.12"; B "0.38"; B "0.67"; B "1.00"].
Proof. reflexivity. Qed.

Example human_sizes : map format_bytes [1023; 1024; 1536; 1073741824] = [B "1023B"; B "1.00K"; B "1.50K"; B "1.00G"].
Proof. reflexivity. Qed.

Example addresses : (map addr_ip [B "10.0.0.7:6379"; B "[fe80::1%2]:80"], map addr_port [B "10.0.0.7:6379"; B "[fe80::1%2]:80"])
  = ([B "10.0.0.7"; B "fe80::1"], [B "6379"; B "80"]).
Proof. reflexivity. Qed.
