(* ===== verification/ReplicaClient.v ===== *)
(** * Replication on the replica's side (src/replication/client.rs)

    The thread that follows a master: connecting, the handshake, the initial
    synchronisation, the loop over the commands the master sends, and the retries.
    The socket is a script of what its reads and writes give; the replica's state
    is the store, the manager's role and the two delays of the retries. *)

From S2P Require Import Prelude Text Resp SortedSet Value PubSub RespParser Connection Keyspace StringOps ListOps SetOps ZSetOps.
From S2P Require Import Command StringCommands Replication.

Open Scope Z_scope.

(** ** The replicated commands *)

Section replicated.
Context {ZS : Type} `{SortedSet ZS} `{Layout} `{Random} `{F64Text} `{CaseMap}.
Abbreviation engine := (StorageEngine ZS).
Abbreviation applies := (list RespFrame -> cmd engine unit).

Definition bulk_of (f : RespFrame) : option bytes := match f with BulkString (Some b) => Some b | _ => None end.

(** An argument at a position that the length check made sure of. *)
Definition with_bulk (parts : list RespFrame) (i : nat) (k : bytes -> cmd engine unit) : cmd engine unit :=
  let* f := arg parts i in
  match bulk_of f with Some b => k b | None => ret tt end.

(** [let _ = storage.op(..)] *)
Definition ignored {A} (op : engine -> engine * outcome A) : cmd engine unit := let* _ := catch_op op in ret tt.

(** An amount of [unit] nanoseconds, when the frame holds a number. *)
Definition duration_frame (unit : Z) (f : RespFrame) (otherwise : option Z) : option Z :=
  match bulk_of f with
  | Some s => match parse_u64 (utf8_lossy s) with Some n => Some (n * unit) | None => otherwise end
  | None => otherwise
  end.

(** The loop over the options of SET: EX and PX with what follows them; every
    other word is skipped, NX and XX too. *)
Fixpoint replicated_expiration (frames : list RespFrame) (expiration : option Z) : option Z :=
  match frames with
  | [] => expiration
  | f :: rest =>
      match bulk_of f with
      | None => replicated_expiration rest expiration
      | Some opt =>
          match rest with
          | [] => expiration
          | v :: rest' =>
              if bool_decide (to_uppercase opt = B "EX") then
                replicated_expiration rest' (duration_frame 1000000000 v expiration)
              else if bool_decide (to_uppercase opt = B "PX") then
                replicated_expiration rest' (duration_frame 1000000 v expiration)
              else replicated_expiration rest expiration
          end
      end
  end.

Definition handle_replicated_set : applies := fun parts =>
  if (length parts <? 3)%nat then ret tt
  else with_bulk parts 1 (fun key => with_bulk parts 2 (fun value =>
    set_plain 0 key value (replicated_expiration (drop 3 parts) None))).

Definition handle_replicated_del : applies := fun parts =>
  for_each (bulks_only (drop 1 parts)) (fun key _ => ignored (fun e => delete_key e 0 key)) tt.

Definition handle_replicated_expire : applies := fun parts =>
  if negb (length parts =? 3)%nat then ret tt
  else with_bulk parts 1 (fun key => with_bulk parts 2 (fun s =>
    match parse_u64 (utf8_lossy s) with
    | Some seconds => let* t1 := now in let* t2 := now in ignored (fun e => expire t1 t2 e 0 key (seconds * 1000000000))
    | None => ret tt
    end)).

Definition handle_replicated_incr : applies := fun parts =>
  if (length parts <? 2)%nat then ret tt
  else with_bulk parts 0 (fun command => with_bulk parts 1 (fun key =>
    let name := to_uppercase command in
    if bool_decide (name = B "INCR") then let* t := now in ignored (fun e => incr t e 0 key)
    else if bool_decide (name = B "DECR") then let* t := now in ignored (fun e => incr_by t e 0 key (-1))
    else if bool_decide (name = B "INCRBY") && (length parts =? 3)%nat then
      with_bulk parts 2 (fun inc =>
        match parse_i64 (utf8_lossy inc) with
        | Some increment => let* t := now in ignored (fun e => incr_by t e 0 key increment)
        | None => ret tt
        end)
    else ret tt)).

(** The elements of LPUSH, RPUSH and SADD; other frames are skipped. *)
Definition replicated_elements (op : Z -> engine -> nat -> bytes -> list bytes -> engine * outcome Z) : applies := fun parts =>
  if (length parts <? 3)%nat then ret tt
  else with_bulk parts 1 (fun key =>
    match bulks_only (drop 2 parts) with
    | [] => ret tt
    | elements => let* t := now in let* _ := try_op (fun e => op t e 0%nat key elements) in ret tt
    end).

Definition handle_replicated_lpush : applies := replicated_elements lpush.
Definition handle_replicated_rpush : applies := replicated_elements rpush.
Definition handle_replicated_sadd : applies := replicated_elements sadd.

(** The pairs from the third frame on, of which there are an even number; a pair
    with another frame in it is skipped. *)
Fixpoint pairs_only (frames : list RespFrame) : list (bytes * bytes) :=
  match frames with
  | f :: g :: rest =>
      match bulk_of f, bulk_of g with
      | Some a, Some b => (a, b) :: pairs_only rest
      | _, _ => pairs_only rest
      end
  | _ => []
  end.

Definition odd_or_short (parts : list RespFrame) : bool := (length parts <? 4)%nat || negb (length parts mod 2 =? 0)%nat.

Definition handle_replicated_hset : applies := fun parts =>
  if odd_or_short parts then ret tt
  else with_bulk parts 1 (fun key =>
    match pairs_only (drop 2 parts) with
    | [] => ret tt
    | field_values => let* t := now in let* _ := try_op (fun e => hset t e 0 key field_values) in ret tt
    end).

Definition handle_replicated_zadd : applies := fun parts =>
  if odd_or_short parts then ret tt
  else with_bulk parts 1 (fun key =>
    for_each (pairs_only (drop 2 parts)) (fun p _ =>
      match f64_parse (utf8_lossy p.1) with
      | Some score => let* r := draw in let* t := now in ignored (fun e => zadd (random_level r) t e 0 key p.2 score)
      | None => ret tt
      end) tt).

(** [match command.to_uppercase().as_str()] *)
Definition replicated_command (name : bytes) : applies :=
  if bool_decide (name = B "SET") then handle_replicated_set
  else if bool_decide (name = B "DEL") then handle_replicated_del
  else if bool_decide (name = B "EXPIRE") then handle_replicated_expire
  else if bool_decide (name ∈ [B "INCR"; B "DECR"; B "INCRBY"]) then handle_replicated_incr
  else if bool_decide (name = B "LPUSH") then handle_replicated_lpush
  else if bool_decide (name = B "RPUSH") then handle_replicated_rpush
  else if bool_decide (name = B "SADD") then handle_replicated_sadd
  else if bool_decide (name = B "HSET") then handle_replicated_hset
  else if bool_decide (name = B "ZADD") then handle_replicated_zadd
  else fun _ => ret tt.
End replicated.

(** ** The socket *)

(** What comes from the master, in order, and a request to stop the thread. *)
Inductive LinkEvent := Read (r : io_result bytes) | StopAsked.

(** A socket: what its reads and its writes will give (a write that is not
    listed succeeds) and what was written. *)
Record Link := mkLink { reads_to_come : list LinkEvent; writes_to_come : list (option io_error); written : bytes }.

Record ReplicationClientConfig := mkClientConfig {
  connect_timeout : Z;
  command_timeout : Z;
  min_retry_delay : Z;
  max_retry_delay : Z;
  max_retries : Z;
  listening_port : Z;
}.

Definition client_config_default : ReplicationClientConfig :=
  mkClientConfig (10 * 1000000000) (30 * 1000000000) (1 * 1000000000) (30 * 1000000000) 0 6379.

(** [ReplicationClient] with what it shares: the store and the manager. *)
Record ReplicationClient (ZS : Type) := mkClient {
  config : ReplicationClientConfig;
  repl_manager : ReplicationManager;
  replica_store : StorageEngine ZS;
  should_stop : bool;
  current_retry_delay : Z;
  connection_attempts : Z;
  link : Link;
}.
Arguments mkClient {ZS}.
Arguments config {ZS}.
Arguments repl_manager {ZS}.
Arguments replica_store {ZS}.
Arguments should_stop {ZS}.
Arguments current_retry_delay {ZS}.
Arguments connection_attempts {ZS}.
Arguments link {ZS}.

Definition no_link : Link := mkLink [] [] [].

(** Texts of the standard library: the debug form of a frame and the error of a
    number that cannot be read. *)
Class DebugText := { debug_frame : RespFrame -> bytes; number_error : bytes -> bytes }.

Definition io_text (e : io_error) : bytes := match io_err e with EIo m => m | _ => [] end.

(** How a part of the thread ends: [Running] when it is still at it after all
    the reads that were given. *)
Inductive ending (A : Type) := Done (a : A) | Failed (e : ferrous_error) | Panicked | Running.
Arguments Done {A} a.
Arguments Failed {A} e.
Arguments Panicked {A}.
Arguments Running {A}.

Definition client (ZS A : Type) : Type := World -> ReplicationClient ZS -> World * ReplicationClient ZS * ending A.

Section monad.
Context {ZS : Type}.

Definition finish {A} (a : A) : client ZS A := fun w s => (w, s, Done a).
Definition failed {A} (e : ferrous_error) : client ZS A := fun w s => (w, s, Failed e).

Definition andThen {A C} (m : client ZS A) (k : A -> client ZS C) : client ZS C := fun w s =>
  match m w s with
  | (w', s', Done a) => k a w' s'
  | (w', s', Failed e) => (w', s', Failed e)
  | (w', s', Panicked) => (w', s', Panicked)
  | (w', s', Running) => (w', s', Running)
  end.
End monad.

Notation "'let+' x := c 'in' k" := (andThen c (fun x => k))
  (at level 10, x pattern, c at level 100, k at level 200) : ferrous_scope.

Section replica.
Context {ZS : Type} `{SortedSet ZS} `{Layout} `{Random} `{F64Text} `{CaseMap} `{DebugText}.
Context (frame_size pair_size : Z).

Abbreviation state := (ReplicationClient ZS).
Abbreviation client := (client ZS).

Definition set_link (l : Link) (s : state) : state :=
  mkClient (config s) (repl_manager s) (replica_store s) (should_stop s) (current_retry_delay s) (connection_attempts s) l.
Definition set_manager (m : ReplicationManager) (s : state) : state :=
  mkClient (config s) m (replica_store s) (should_stop s) (current_retry_delay s) (connection_attempts s) (link s).
Definition set_store (e : StorageEngine ZS) (s : state) : state :=
  mkClient (config s) (repl_manager s) e (should_stop s) (current_retry_delay s) (connection_attempts s) (link s).
Definition ask_stop (s : state) : state :=
  mkClient (config s) (repl_manager s) (replica_store s) true (current_retry_delay s) (connection_attempts s) (link s).
Definition set_retry (delay attempts : Z) (s : state) : state :=
  mkClient (config s) (repl_manager s) (replica_store s) (should_stop s) delay attempts (link s).

Definition set_reads (reads : list LinkEvent) (s : state) : state :=
  set_link (mkLink reads (writes_to_come (link s)) (written (link s))) s.

(** The requests to stop that came before the next read. *)
Fixpoint heed (reads : list LinkEvent) (stop : bool) : list LinkEvent * bool :=
  match reads with
  | StopAsked :: rest => heed rest true
  | _ => (reads, stop)
  end.

Definition heed_stop : client unit := fun w s =>
  let '(reads, stop) := heed (reads_to_come (link s)) (should_stop s) in
  (w, set_reads reads (if stop then ask_stop s else s), Done tt).

(** What is left of a chunk that was too long for the buffer. *)
Definition put_back (rest : bytes) (reads : list LinkEvent) : list LinkEvent :=
  match rest with [] => reads | _ => Read (IoOk rest) :: reads end.

(** [stream.read(&mut buffer)] *)
Definition stream_read (size : nat) : client (io_result bytes) :=
  let+ _ := heed_stop in fun w s =>
  match reads_to_come (link s) with
  | Read (IoOk data) :: rest => (w, set_reads (put_back (drop size data) rest) s, Done (IoOk (take size data)))
  | Read (IoErr e) :: rest => (w, set_reads rest s, Done (IoErr e))
  | _ => (w, s, Running)
  end.

(** [stream.read_exact], which retries when it is interrupted. *)
Fixpoint exact_from (n : nat) (got : bytes) (reads : list LinkEvent) (stop : bool)
    : list LinkEvent * bool * option (io_result bytes) :=
  match reads with
  | [] => ([], stop, None)
  | StopAsked :: rest => exact_from n got rest true
  | Read (IoErr IoInterrupted) :: rest => exact_from n got rest stop
  | Read (IoErr e) :: rest => (rest, stop, Some (IoErr e))
  | Read (IoOk []) :: rest => (rest, stop, Some (IoErr IoOther))
  | Read (IoOk data) :: rest =>
      if (length data <? n)%nat then exact_from (n - length data) (got ++ data) rest stop
      else (put_back (drop n data) rest, stop, Some (IoOk (got ++ take n data)))
  end.

Definition read_exact (n : nat) : client (io_result bytes) := fun w s =>
  let '(reads, stop, r) := exact_from n [] (reads_to_come (link s)) (should_stop s) in
  (w, set_reads reads (if stop then ask_stop s else s), match r with Some r => Done r | None => Running end).

(** How many reads of at least a byte the script can give. *)
Definition event_size (ev : LinkEvent) : nat := match ev with Read (IoOk data) => S (length data) | _ => 1%nat end.
Definition reads_left (s : state) : nat := list_sum (map event_size (reads_to_come (link s))).

(** ** Sending and receiving *)

Definition write_all_bytes (data : bytes) : client unit := fun w s =>
  let l := link s in
  match writes_to_come l with
  | Some e :: rest => (w, set_link (mkLink (reads_to_come l) rest (written l)) s, Failed (EConnection (B "Write error: " ++ io_text e)))
  | _ => (w, set_link (mkLink (reads_to_come l) (tail (writes_to_come l)) (written l ++ data)) s, Done tt)
  end.

Definition command_of (args : list bytes) : RespFrame := Array (Some (map bulk_string args)).

Definition send_command (args : list bytes) : client unit :=
  match serialize_to_vec (command_of args) with
  | Ok buffer => write_all_bytes buffer
  | Err e => failed e
  | Panic => fun w s => (w, s, Panicked)
  end.

(** A parser of its own for every answer: what follows the answer in the same
    read is lost. *)
Fixpoint await_frame (fuel : nat) (p : RespParser) : client RespFrame :=
  match fuel with
  | O => fun w s => (w, s, Running)
  | S fuel' =>
      let+ r := stream_read 4096 in
      match r with
      | IoOk [] => failed (EConnection (B "Master closed connection"))
      | IoOk data =>
          match parse frame_size pair_size (feed p data) with
          | (_, Ok (Some frame)) => finish frame
          | (p', Ok None) => await_frame fuel' p'
          | (_, Err e) => failed e
          | (_, Panic) => fun w s => (w, s, Panicked)
          end
      | IoErr e => failed (EConnection (B "Read error: " ++ io_text e))
      end
  end.

Definition read_response : client RespFrame := fun w s => await_frame (S (reads_left s)) parser_new w s.

Definition expect_response (response : RespFrame) (expected : bytes) : client unit :=
  match response with
  | SimpleString data | BulkString (Some data) =>
      let got := utf8_lossy data in
      if bool_decide (got = expected) then finish tt
      else failed (EProtocol (B "Expected '" ++ expected ++ B "', got '" ++ got ++ B "'"))
  | _ => failed (EProtocol (B "Unexpected response type: " ++ debug_frame response))
  end.

Definition expect_ok (response : RespFrame) : client unit := expect_response response (B "OK").

(** [let _ = manager.op(..)] and [manager.op(..)?] *)
Definition on_manager {A} (op : ReplicationManager -> ReplicationManager * outcome A) : client (option A) := fun w s =>
  let '(m, r) := op (repl_manager s) in
  match r with
  | Ok a => (w, set_manager m s, Done (Some a))
  | Err _ => (w, set_manager m s, Done None)
  | Panic => (w, set_manager m s, Panicked)
  end.

Definition try_manager {A} (op : ReplicationManager -> ReplicationManager * outcome A) : client A := fun w s =>
  let '(m, r) := op (repl_manager s) in
  (w, set_manager m s, match r with Ok a => Done a | Err e => Failed e | Panic => Panicked end).

Definition link_status (status : MasterLinkStatus) : client unit := try_manager (fun m => update_master_link_status m status).

(** ** The handshake *)

Definition get_master_password : option bytes := Some (B "mysecretpassword").

Definition expect_auth (response : RespFrame) : client unit :=
  match response with
  | SimpleString data =>
      if bool_decide (utf8_lossy data = B "OK") then finish tt else failed (EProtocol (B "Unexpected AUTH response"))
  | Error _ => failed (EProtocol (B "Authentication failed"))
  | _ => failed (EProtocol (B "Unexpected AUTH response"))
  end.

Definition authenticate : client unit :=
  match get_master_password with
  | Some password =>
      let+ _ := send_command [B "AUTH"; password] in
      let+ response := read_response in expect_auth response
  | None => finish tt
  end.

Definition exchange (args : list bytes) (expected : bytes) : client unit :=
  let+ _ := send_command args in
  let+ response := read_response in expect_response response expected.

Definition listening_port_of (s : state) : bytes := show_u64 (listening_port (config s)).

Definition perform_handshake : client unit :=
  let+ _ := authenticate in
  let+ _ := exchange [B "PING"] (B "PONG") in
  let+ _ := (fun w s => exchange [B "REPLCONF"; B "listening-port"; listening_port_of s] (B "OK") w s) in
  exchange [B "REPLCONF"; B "capa"; B "eof"; B "capa"; B "psync2"] (B "OK").

(** ** The initial synchronisation *)

Definition strip_prefix (prefix s : bytes) : option bytes :=
  if starts_with prefix s then Some (drop (length prefix) s) else None.

(** The bytes up to CRLF; a CR with another byte after it belongs to them. *)
Fixpoint header_from (fuel : nat) (got : bytes) : client bytes :=
  match fuel with
  | O => fun w s => (w, s, Running)
  | S fuel' =>
      let+ r := read_exact 1 in
      match r with
      | IoOk [b] =>
          if b =b byte_of 13 then
            let+ r' := read_exact 1 in
            match r' with
            | IoOk [c] => if c =b byte_of 10 then finish got else header_from fuel' (got ++ [byte_of 13; c])
            | _ => failed (EProtocol (B "Failed to read delimiter"))
            end
          else header_from fuel' (got ++ [b])
      | IoOk _ => fun w s => (w, s, Panicked)
      | IoErr e => failed (EProtocol (B "Failed to read RDB length prefix: " ++ io_text e))
      end
  end.

(** [stream.read] until [n] bytes have come; a read that times out is repeated. *)
Fixpoint body_from (n : nat) (got : bytes) (reads : list LinkEvent) (stop : bool)
    : list LinkEvent * bool * option (io_result bytes) :=
  match n with
  | O => (reads, stop, Some (IoOk got))
  | _ =>
      match reads with
      | [] => ([], stop, None)
      | StopAsked :: rest => body_from n got rest true
      | Read (IoErr IoInterrupted) :: rest | Read (IoErr IoWouldBlock) :: rest => body_from n got rest stop
      | Read (IoErr e) :: rest => (rest, stop, Some (IoErr e))
      | Read (IoOk []) :: rest => (rest, stop, Some (IoOk []))
      | Read (IoOk data) :: rest =>
          if (length data <? n)%nat then body_from (n - length data) (got ++ data) rest stop
          else (put_back (drop n data) rest, stop, Some (IoOk (got ++ take n data)))
      end
  end.

Definition read_body (n : nat) : client bytes := fun w s =>
  let '(reads, stop, r) := body_from n [] (reads_to_come (link s)) (should_stop s) in
  let s' := set_reads reads (if stop then ask_stop s else s) in
  (w, s', match r with
          | Some (IoOk data) =>
              if (length data <? n)%nat then Failed (EProtocol (B "Unexpected EOF during RDB transfer")) else Done data
          | Some (IoErr e) => Failed (EProtocol (B "Failed to read RDB data: " ++ io_text e))
          | None => Running
          end).

(** The image is read and dropped. *)
Definition receive_rdb : client unit :=
  let+ length_buf := (fun w s => header_from (S (reads_left s)) [] w s) in
  match strip_prefix (B "$") (utf8_lossy length_buf) with
  | None => failed (EProtocol (B "Expected bulk string for RDB"))
  | Some len_str =>
      match parse_u64 len_str with
      | None => failed (EProtocol (B "Invalid RDB length: " ++ number_error len_str))
      | Some rdb_length =>
          if i64_max <? rdb_length then fun w s => (w, s, Panicked)
          else
            let+ _ := read_body (Z.to_nat rdb_length) in
            let+ crlf := read_exact 2 in
            match crlf with
            | IoErr e => failed (EProtocol (B "Failed to read RDB trailing bytes: " ++ io_text e))
            | IoOk b => if bool_decide (b = CRLF) then finish tt else failed (EProtocol (B "Missing CRLF after RDB data"))
            end
      end
  end.

Definition default_repl_id : bytes := B "ferrous-repl-id".

Definition perform_initial_sync : client (bytes * Z) :=
  let+ _ := send_command [B "PSYNC"; B "?"; B "-1"] in
  let+ response := read_response in
  match response with
  | SimpleString data =>
      match strip_prefix (B "FULLRESYNC ") (utf8_lossy data) with
      | Some fullresync =>
          match split_whitespace fullresync with
          | [repl_id; text] =>
              match parse_u64 text with
              | Some offset => let+ _ := receive_rdb in finish (repl_id, offset)
              | None => failed (EProtocol (B "Invalid offset in FULLRESYNC"))
              end
          | _ => failed (EProtocol (B "Invalid FULLRESYNC response format"))
          end
      | None => failed (EProtocol (B "Expected FULLRESYNC response"))
      end
  | BulkString (Some _) => finish (default_repl_id, 0)
  | _ => failed (EProtocol (B "Invalid PSYNC response type: " ++ debug_frame response))
  end.

(** ** The commands of the master *)

(** [process_replication_command] and the offset, which counts the commands that
    did not fail, unknown ones too; its error is only printed. *)
Definition process_replication_command (f : RespFrame) : client unit := fun w s =>
  match f with
  | Array (Some ((BulkString (Some cmd) :: _) as parts)) =>
      if bool_decide (map (fun b => ascii_upper (u8 b)) (utf8_lossy cmd) = B "PING") then (w, s, Done tt)
      else
        match replicated_command (to_uppercase cmd) parts w (replica_store s) with
        | (w', e, Go _) | (w', e, Reply _) =>
            let s' := set_store e s in
            (let+ _ := on_manager (fun m => update_replica_offset m (u64_wrap (get_repl_offset m + 1)) None) in finish tt) w' s'
        | (w', e, Fail _) => (w', set_store e s, Done tt)
        | (w', e, Crash) => (w', set_store e s, Panicked)
        end
  | _ => (w, s, Done tt)
  end.

Fixpoint each_frame (frames : list RespFrame) : client unit :=
  match frames with
  | [] => finish tt
  | f :: rest => let+ _ := process_replication_command f in each_frame rest
  end.

Definition send_ack : client unit := fun w s =>
  send_command [B "REPLCONF"; B "ACK"; show_u64 (get_repl_offset (repl_manager s))] w s.

(** Its failure is only printed. *)
Definition acknowledge : client unit := fun w s =>
  match send_ack w s with
  | (w', s', Failed _) => (w', s', Done tt)
  | r => r
  end.

Definition stopped : client bool := let+ _ := heed_stop in fun w s => (w, s, Done (should_stop s)).

(** The loop over the reads; [fuel] bounds the number of reads. *)
Fixpoint replicate_loop (fuel : nat) (p : RespParser) : client unit :=
  match fuel with
  | O => fun w s => (w, s, Running)
  | S fuel' =>
      let+ stop := stopped in
      if stop : bool then finish tt
      else
        let+ r := stream_read 4096 in
        match r with
        | IoOk [] => failed (EProtocol (B "Master closed connection"))
        | IoOk data =>
            let '(p', frames, end_) := read_chunk frame_size pair_size p data in
            let+ _ := each_frame frames in
            match end_ with
            | NeedMore => replicate_loop fuel' p'
            | ParseWarning e => failed e
            | DrainPanic | DrainFuel => fun w s => (w, s, Panicked)
            end
        | IoErr IoWouldBlock => let+ _ := acknowledge in replicate_loop fuel' p
        | IoErr IoInterrupted => replicate_loop fuel' p
        | IoErr e => failed (EProtocol (B "Read error: " ++ io_text e))
        end
  end.

Definition continuous_replication : client unit := fun w s => replicate_loop (S (reads_left s)) parser_new w s.

(** ** One connection and the retries *)

(** What a connection attempt gives. *)
Inductive Attempt := Refused (e : io_error) | Connected (l : Link).

Definition connect_to_master (a : Attempt) : client unit :=
  match a with
  | Connected l => fun w s => (w, set_link l s, Done tt)
  | Refused e => failed (EConnection (B "Failed to connect to master: " ++ io_text e))
  end.

Definition connect_and_replicate (a : Attempt) : client unit :=
  let+ _ := link_status Connecting in
  let+ _ := connect_to_master a in
  let+ _ := perform_handshake in
  let+ _ := link_status Synchronizing in
  let+ (repl_id, offset) := perform_initial_sync in
  let+ _ := try_manager (fun m => update_replica_offset m offset (Some repl_id)) in
  let+ _ := link_status LinkUp in
  continuous_replication.

Definition reset_retry : client unit := fun w s => (w, set_retry (min_retry_delay (config s)) 0 s, Done tt).

Definition duration_max : Z := u64_max * 1000000000 + 999999999.

(** After a failure: the link is down, and unless the retries are used up the
    thread sleeps and the next delay is twice as long, up to the maximum.  The
    answer is whether to go on. *)
Definition after_failure : client bool := fun w s =>
  let s1 := set_manager (update_master_link_status (repl_manager s) LinkDown).1 s in
  let attempts := (connection_attempts s1 + 1) mod 4294967296 in
  let c := config s1 in
  if (0 <? max_retries c) && (max_retries c <=? attempts) then (w, set_retry (current_retry_delay s1) attempts s1, Done false)
  else if duration_max <? current_retry_delay s1 * 2 then (w, set_retry (current_retry_delay s1) attempts s1, Panicked)
  else (w, set_retry (Z.min (current_retry_delay s1 * 2) (max_retry_delay c)) attempts s1, Done true).

(** The attempts to come; [None] is a request to stop before the next one. *)
Fixpoint run_client (attempts : list (option Attempt)) : client unit := fun w s =>
  if should_stop s then (w, s, Done tt)
  else
    match attempts with
    | [] => (w, s, Running)
    | None :: _ => (w, ask_stop s, Done tt)
    | Some a :: rest =>
        match connect_and_replicate a w s with
        | (w', s', Done _) => (let+ _ := reset_retry in run_client rest) w' s'
        | (w', s', Failed _) => (let+ again := after_failure in if again : bool then run_client rest else finish tt) w' s'
        | r => r
        end
    end.
End replica.

(** [ReplicationClient::new] and [start_background_replication] *)
Definition client_new {ZS} (c : ReplicationClientConfig) (m : ReplicationManager) (e : StorageEngine ZS) : ReplicationClient ZS :=
  mkClient c m e false (min_retry_delay c) 0 no_link.

Definition start_background_replication {ZS} `{SortedSet ZS} `{Layout} `{Random} `{F64Text} `{CaseMap} `{DebugText}
    (frame_size pair_size : Z) (attempts : list (option Attempt)) (c : ReplicationClientConfig) (m : ReplicationManager)
    (e : StorageEngine ZS) (w : World) : World * ReplicationClient ZS * ending unit :=
  run_client frame_size pair_size attempts w (client_new c m e).
