(* ===== verification/Server.v ===== *)
(** * The server (src/network/server.rs and src/storage/commands/transactions.rs)

    The server's state with the connections, the storage engine, the blocked
    clients, the subscriptions, the replicas and the append-only file; the
    commands that need a connection; transactions; and the dispatch of a
    request: [process_frame] decides by the state of the connection,
    [process_normal_command] by the name of the command.

    Socket operations are not part of a command here: a handler that flushes
    the connection leaves its bytes in the write buffer, and Connection.v says
    how a flush empties it.  [monitoring] says which of the two backends of
    src/network/monitoring.rs the server has, the active or the null one. *)

From S2P Require Import Prelude Text Resp SortedSet Value PubSub Keyspace StringOps Rdb RespParser Connection Blocking ListOps.
From S2P Require Import Command CollectionCommands StringCommands ZSetCommands StreamCommands GroupCommands CommandParser Executor LuaEngine.
From S2P Require Import Slowlog AdminCommands Replication Info.
From Stdlib Require Import Floats.SpecFloat.

Open Scope Z_scope.

Record Server {ZS : Type} := mkSrv {
  core : server (S := StorageEngine ZS);
  pubsub : PubSubManager;
  password : option bytes;
  paused_until : Z;
  aof_file : option bytes;
  changes_since_save : Z;
  replication : ReplicationManager;
  monitor_subscribers : gset Z;
  script_cache : gmap bytes bytes;
  slow_log : Slowlog;
  rdb_engine : RdbEngine;
  aof_rewriting : bool;
  stats : ServerStats;
  start_time : Z;
  config_max_clients : Z;
  monitoring : bool;
}.
Arguments Server : clear implicits.
Arguments mkSrv {ZS}.
Arguments core {ZS}.

Section server.
Context {ZS : Type} `{SortedSet ZS} `{Layout} `{HashIter} `{F64Text} `{Random} `{CaseMap} `{Mlua} `{Resolver} `{Process}.

Abbreviation Server := (Server ZS).
Abbreviation engine := (StorageEngine ZS).

(** ** Access to the parts *)

Definition set_core (c : server) (s : Server) : Server :=
  mkSrv c (pubsub s) (password s) (paused_until s) (aof_file s) (changes_since_save s)
    (replication s) (monitor_subscribers s) (script_cache s) (slow_log s) (rdb_engine s) (aof_rewriting s) (stats s) (start_time s) (config_max_clients s) (monitoring s).
Definition set_pubsub (p : PubSubManager) (s : Server) : Server :=
  mkSrv (core s) p (password s) (paused_until s) (aof_file s) (changes_since_save s)
    (replication s) (monitor_subscribers s) (script_cache s) (slow_log s) (rdb_engine s) (aof_rewriting s) (stats s) (start_time s) (config_max_clients s) (monitoring s).
Definition set_paused (t : Z) (s : Server) : Server :=
  mkSrv (core s) (pubsub s) (password s) t (aof_file s) (changes_since_save s)
    (replication s) (monitor_subscribers s) (script_cache s) (slow_log s) (rdb_engine s) (aof_rewriting s) (stats s) (start_time s) (config_max_clients s) (monitoring s).
Definition set_aof (f : option bytes) (s : Server) : Server :=
  mkSrv (core s) (pubsub s) (password s) (paused_until s) f (changes_since_save s)
    (replication s) (monitor_subscribers s) (script_cache s) (slow_log s) (rdb_engine s) (aof_rewriting s) (stats s) (start_time s) (config_max_clients s) (monitoring s).
Definition set_changes (n : Z) (s : Server) : Server :=
  mkSrv (core s) (pubsub s) (password s) (paused_until s) (aof_file s) n
    (replication s) (monitor_subscribers s) (script_cache s) (slow_log s) (rdb_engine s) (aof_rewriting s) (stats s) (start_time s) (config_max_clients s) (monitoring s).
Definition set_replication (r : ReplicationManager) (s : Server) : Server :=
  mkSrv (core s) (pubsub s) (password s) (paused_until s) (aof_file s) (changes_since_save s)
    r (monitor_subscribers s) (script_cache s) (slow_log s) (rdb_engine s) (aof_rewriting s) (stats s) (start_time s) (config_max_clients s) (monitoring s).
Definition set_monitors (m : gset Z) (s : Server) : Server :=
  mkSrv (core s) (pubsub s) (password s) (paused_until s) (aof_file s) (changes_since_save s)
    (replication s) m (script_cache s) (slow_log s) (rdb_engine s) (aof_rewriting s) (stats s) (start_time s) (config_max_clients s) (monitoring s).
Definition set_scripts (m : gmap bytes bytes) (s : Server) : Server :=
  mkSrv (core s) (pubsub s) (password s) (paused_until s) (aof_file s) (changes_since_save s)
    (replication s) (monitor_subscribers s) m (slow_log s) (rdb_engine s) (aof_rewriting s) (stats s) (start_time s) (config_max_clients s) (monitoring s).
Definition set_slow_log (l : Slowlog) (s : Server) : Server :=
  mkSrv (core s) (pubsub s) (password s) (paused_until s) (aof_file s) (changes_since_save s)
    (replication s) (monitor_subscribers s) (script_cache s) l (rdb_engine s) (aof_rewriting s) (stats s) (start_time s) (config_max_clients s) (monitoring s).
Definition set_rdb (r : RdbEngine) (s : Server) : Server :=
  mkSrv (core s) (pubsub s) (password s) (paused_until s) (aof_file s) (changes_since_save s)
    (replication s) (monitor_subscribers s) (script_cache s) (slow_log s) r (aof_rewriting s) (stats s) (start_time s) (config_max_clients s) (monitoring s).
Definition set_rewriting (b : bool) (s : Server) : Server :=
  mkSrv (core s) (pubsub s) (password s) (paused_until s) (aof_file s) (changes_since_save s)
    (replication s) (monitor_subscribers s) (script_cache s) (slow_log s) (rdb_engine s) b (stats s) (start_time s) (config_max_clients s) (monitoring s).
Definition set_stats (st : ServerStats) (s : Server) : Server :=
  mkSrv (core s) (pubsub s) (password s) (paused_until s) (aof_file s) (changes_since_save s)
    (replication s) (monitor_subscribers s) (script_cache s) (slow_log s) (rdb_engine s) (aof_rewriting s) st (start_time s) (config_max_clients s) (monitoring s).
(** [self.stats.counter.fetch_add(1)] *)
Definition on_stats (f : ServerStats -> ServerStats) (s : Server) : Server := set_stats (f (stats s)) s.

Definition storage (s : Server) : engine := store (core s).
Definition set_storage (e : engine) (s : Server) : Server :=
  set_core (mkServer e (blocking (core s)) (conns (core s))) s.
Definition set_blocking (m : BlockingManager) (s : Server) : Server :=
  set_core (mkServer (store (core s)) m (conns (core s))) s.
Definition connections (s : Server) : gmap Z Connection := conns (core s).
Definition set_connections (m : gmap Z Connection) (s : Server) : Server :=
  set_core (mkServer (store (core s)) (blocking (core s)) m) s.

(** [connections.all_connection_ids()]: shard by shard. *)
Definition CONNECTION_SHARDS : Z := 16.
Definition all_connection_ids (s : Server) : list Z :=
  concat (map (fun shard => (map_iter (filter (fun ic => ic.1 mod CONNECTION_SHARDS = shard) (connections s))).*1)
            (seqZ 0 CONNECTION_SHARDS)).

(** Run a handler of the storage engine. *)
Definition on_engine {A} (h : cmd engine A) : cmd Server A := fun w s =>
  let '(w', e, r) := h w (storage s) in (w', set_storage e s, r).

Definition get_server : cmd Server Server := fun w s => (w, s, Go s).
Definition modify (f : Server -> Server) : cmd Server unit := fun w s => (w, f s, Go tt).

Definition not_connected : bytes := B "ERR connection not found".

(** [with_connection(conn_id, f)] with an update only. *)
Definition on_conn (conn_id : Z) (f : Connection -> Connection) : Server -> Server := fun s =>
  set_connections (alter f conn_id (connections s)) s.

(** [with_connection(conn_id, ..).unwrap_or_else(|| error)] *)
Definition with_connection {A} (conn_id : Z) (f : Connection -> cmd Server A) : cmd Server A :=
  let* s := get_server in
  match connections s !! conn_id with
  | Some c => f c
  | None => reply_error not_connected
  end.

(** ** Transactions (src/storage/commands/transactions.rs) *)

Definition tx_clear : TransactionState := mkTx false [] ∅ false.

Definition handle_multi (c : Connection) : Connection * RespFrame :=
  let t := transaction_state c in
  if in_transaction t then (c, error (B "ERR MULTI calls can not be nested"))
  else (set_tx (mkTx true [] (watched_keys t) false) c, ok).

Definition handle_discard (c : Connection) : Connection * RespFrame :=
  if in_transaction (transaction_state c) then (set_tx tx_clear c, ok)
  else (c, error (B "ERR DISCARD without MULTI")).

(** One key of WATCH: the baseline, from the fallback counter when the watch is
    refused, 0 when that is refused too. *)
Definition watch_key (db : nat) (e : engine) (key : bytes) : engine * outcome Z :=
  match register_watch e db key with
  | (e1, Err _) =>
      match get_modification_counter e1 db key with
      | (e2, Err _) => (e2, Ok 0)
      | r => r
      end
  | r => r
  end.

(** The keys before a bad argument stay watched. *)
Fixpoint watch_loop (db : nat) (e : engine) (frames : list RespFrame) (watched : gmap bytes Z)
    : engine * gmap bytes Z * outcome RespFrame :=
  match frames with
  | [] => (e, watched, Ok ok)
  | BulkString (Some key) :: frames' =>
      match watch_key db e key with
      | (e', Ok baseline) => watch_loop db e' frames' (<[key := baseline]> watched)
      | (e', Err err) => (e', watched, Err err)
      | (e', Panic) => (e', watched, Panic)
      end
  | _ => (e, watched, Ok (error bad_key))
  end.

Definition conn_db (c : Connection) : nat := Z.to_nat (db_index c).

Definition set_watched (m : gmap bytes Z) (c : Connection) : Connection :=
  let t := transaction_state c in set_tx (mkTx (in_transaction t) (queued_commands t) m (aborted t)) c.

Definition handle_watch (e : engine) (c : Connection) (parts : list RespFrame) : engine * Connection * outcome RespFrame :=
  if (length parts <? 2)%nat then (e, c, Ok (error (wrong_arity (B "watch"))))
  else if in_transaction (transaction_state c) then (e, c, Ok (error (B "ERR WATCH inside MULTI is not allowed")))
  else
    let '(e', watched, r) := watch_loop (conn_db c) e (drop 1 parts) (watched_keys (transaction_state c)) in
    (e', set_watched watched c, r).

(** [let _ = storage.unregister_watch(..)] for every key, in the current database. *)
Definition handle_unwatch (e : engine) (c : Connection) : engine * Connection * RespFrame :=
  (foldl (fun e k => (unregister_watch e (conn_db c) k).1) e (map_iter (watched_keys (transaction_state c))).*1,
   set_watched ∅ c, ok).

Definition should_queue_command (command : bytes) : bool :=
  negb (bool_decide (command ∈ [B "MULTI"; B "EXEC"; B "DISCARD"; B "WATCH"; B "UNWATCH"])).

Definition queue_command (c : Connection) (parts : list RespFrame) : Connection * RespFrame :=
  let t := transaction_state c in
  (set_tx (mkTx (in_transaction t) (queued_commands t ++ [parts]) (watched_keys t) (aborted t)) c,
   SimpleString (B "QUEUED")).

(** The handlers above on the server. *)
Definition conn_command (conn_id : Z) (h : Connection -> Connection * RespFrame) : cmd Server RespFrame :=
  with_connection conn_id (fun c =>
    let '(c', f) := h c in
    let* _ := modify (on_conn conn_id (fun _ => c')) in ret f).

Definition watch_command (conn_id : Z) (parts : list RespFrame) : cmd Server RespFrame :=
  with_connection conn_id (fun c =>
    try_op (fun s =>
      let '(e', c', r) := handle_watch (storage s) c parts in
      (on_conn conn_id (fun _ => c') (set_storage e' s), r))).

Definition unwatch_command (conn_id : Z) : cmd Server RespFrame :=
  with_connection conn_id (fun c =>
    try_op (fun s =>
      let '(e', c', f) := handle_unwatch (storage s) c in
      (on_conn conn_id (fun _ => c') (set_storage e' s), Ok f))).

(** ** AUTH, SELECT and the blocking pops *)

Definition handle_auth (conn_id : Z) (parts : list RespFrame) : cmd Server RespFrame :=
  let bad_password := B "ERR invalid password format" in
  let* _ := guard (negb (length parts =? 2)%nat) (wrong_arity (B "auth")) in
  let* provided := bulk_arg parts 1 bad_password in
  let* _ := guard (negb (utf8_valid provided)) bad_password in
  let* s := get_server in
  match password s with
  | Some server_password =>
      if bool_decide (provided = server_password) then
        let* _ := modify (fun s => on_conn conn_id (set_state Authenticated) (on_stats count_success s)) in ret ok
      else let* _ := modify (on_stats count_failure) in reply_error (B "ERR invalid password")
  | None => reply_error (B "ERR Client sent AUTH, but no password is set")
  end.

Definition set_db (db : Z) (c : Connection) : Connection :=
  mkConn (conn_state c) (conn_parser c) (write_buffer c) (write_offset c) (last_activity c) db (transaction_state c)
    (is_monitoring c) (client_name c) (conn_addr c) (created c).

Definition set_monitoring (c : Connection) : Connection :=
  mkConn (conn_state c) (conn_parser c) (write_buffer c) (write_offset c) (last_activity c) (db_index c)
    (transaction_state c) true (client_name c) (conn_addr c) (created c).

Definition set_name (name : bytes) (c : Connection) : Connection :=
  mkConn (conn_state c) (conn_parser c) (write_buffer c) (write_offset c) (last_activity c) (db_index c)
    (transaction_state c) (is_monitoring c) (Some name) (conn_addr c) (created c).

Definition handle_select (conn_id : Z) (parts : list RespFrame) : cmd Server RespFrame :=
  let* _ := guard (negb (length parts =? 2)%nat) (wrong_arity (B "select")) in
  let* n := usize_arg parts 1 (B "ERR invalid database index format") in
  let* s := get_server in
  let* _ := guard (Z.of_nat (database_count (storage s)) <=? n) (B "ERR DB index is out of range") in
  let* _ := modify (on_conn conn_id (set_db n)) in ret ok.

(** [m * 10^9 * 2^e] nanoseconds, rounded to nearest, ties to even. *)
Definition scaled_nanos (m : Z) (e : Z) : Z :=
  let n := m * 1000000000 in
  if 0 <=? e then n * 2 ^ e
  else
    let d := 2 ^ (- e) in
    let q := n / d in
    let r := 2 * (n mod d) in
    if (r <? d) || ((r =? d) && Z.even q) then q else q + 1.

(** [Duration::from_secs_f64], which panics on a value that is not finite or
    out of range. *)
Definition duration_from_secs (t : f64) : outcome Z :=
  match t with
  | S754_finite false m e =>
      let nanos := scaled_nanos (Z.pos m) e in
      if nanos <=? u64_max * 1000000000 + 999999999 then Ok nanos else Panic
  | S754_zero _ => Ok 0
  | _ => Panic
  end.

Definition zero_f64 : f64 := S754_zero false.

Definition bad_timeout : bytes := B "ERR timeout is not a float or out of range".

(** The last argument of BLPOP and BRPOP; 0 blocks for ever. *)
Definition timeout_arg (parts : list RespFrame) : cmd Server (option Z) :=
  let* t := parsed_arg f64_parse parts (length parts - 1) bad_timeout bad_timeout in
  if f_lt t zero_f64 then reply_error bad_timeout
  else if f_eq t zero_f64 then ret None
  else match duration_from_secs t with
       | Ok d => ret (Some d)
       | Err e => fail_with e
       | Panic => crash
       end.

Definition blocking_pop (name : bytes) (op : BlockingOp) (conn_id : Z) (db : nat) (parts : list RespFrame)
    : cmd Server RespFrame :=
  let* _ := guard (length parts <? 3)%nat (wrong_arity name) in
  let* timeout := timeout_arg parts in
  let* keys := bulk_list (take (length parts - 2) (drop 1 parts)) bad_key in
  let* t := now in
  try_op (fun s => let '(c, r) := block_on t op (core s) db conn_id keys timeout in (set_core c s, r)).

Definition handle_blpop := blocking_pop (B "blpop") BLPop.
Definition handle_brpop := blocking_pop (B "brpop") BRPop.

(** ** Publish and subscribe *)

Definition send_to (conn_id : Z) (f : RespFrame) : Server -> Server := on_conn conn_id (fun c => (send_frame c f).1).

Definition handle_publish (parts : list RespFrame) : cmd Server RespFrame :=
  let* _ := guard (negb (length parts =? 3)%nat) (wrong_arity (B "publish")) in
  let* channel := bulk_arg parts 1 (B "ERR invalid channel format") in
  let* message := bulk_arg parts 2 (B "ERR invalid message format") in
  let* s := get_server in
  let receivers := publish (pubsub s) channel in
  let* _ := modify (fun s => foldl (fun s r =>
    send_to r.1 (match r.2 with
                 | Some pat => format_pmessage pat channel message
                 | None => format_message channel message
                 end) s) s receivers) in
  ret (int_reply (Z.of_nat (length receivers))).

Definition subscription_name (s : Subscription) : bytes := match s with Channel c => c | Pattern p => p end.

(** The confirmations, sent one by one. *)
Definition send_results (conn_id : Z) (format : bytes -> nat -> RespFrame) (results : list SubResult) : Server -> Server :=
  fun s => foldl (fun s r => send_to conn_id (format (subscription_name (subscription r)) (num_subscriptions r)) s) s results.

Definition subscribe_command (name bad : bytes) (op : PubSubManager -> Z -> list bytes -> PubSubManager * list SubResult)
    (format : bytes -> nat -> RespFrame) (conn_id : Z) (parts : list RespFrame) : cmd Server RespFrame :=
  let* _ := guard (length parts <? 2)%nat (wrong_arity name) in
  let* names := bulk_list (drop 1 parts) bad in
  try_op (fun s =>
    let '(p, results) := op (pubsub s) conn_id names in
    (send_results conn_id format results (set_pubsub p s), Ok NoResponse)).

Definition unsubscribe_command (bad : bytes)
    (op : PubSubManager -> Z -> option (list bytes) -> PubSubManager * list SubResult)
    (format : bytes -> nat -> RespFrame) (conn_id : Z) (parts : list RespFrame) : cmd Server RespFrame :=
  let* names :=
    if (1 <? length parts)%nat then let* l := bulk_list (drop 1 parts) bad in ret (Some l) else ret None in
  try_op (fun s =>
    let '(p, results) := op (pubsub s) conn_id names in
    (send_results conn_id format results (set_pubsub p s), Ok NoResponse)).

Definition bad_channel : bytes := B "ERR invalid channel format".
Definition bad_pattern : bytes := B "ERR invalid pattern format".

Definition handle_subscribe := subscribe_command (B "subscribe") bad_channel subscribe format_subscribe_response.
Definition handle_psubscribe := subscribe_command (B "psubscribe") bad_pattern psubscribe format_psubscribe_response.
Definition handle_unsubscribe := unsubscribe_command bad_channel unsubscribe format_unsubscribe_response.
Definition handle_punsubscribe := unsubscribe_command bad_pattern punsubscribe format_punsubscribe_response.

(** ** Scripts *)

(** EVALSHA runs the cached script through [handle_eval], which works on database 0. *)
Definition handle_evalsha_command (parts : list RespFrame) : cmd Server RespFrame :=
  let bad_sha1 := B "ERR invalid SHA1 hash" in
  let* _ := guard (length parts <? 3)%nat (wrong_arity (B "evalsha")) in
  let* sha1 := text_arg parts 1 bad_sha1 bad_sha1 in
  let* s := get_server in
  match script_cache s !! sha1 with
  | None => reply_error (B "NOSCRIPT No matching script. Please use EVAL.")
  | Some script => on_engine (handle_eval (bulk_string (B "EVAL") :: bulk_string script :: drop 2 parts))
  end.

Definition handle_script_load_command (parts : list RespFrame) : cmd Server RespFrame :=
  let* _ := guard (negb (length parts =? 3)%nat) (wrong_arity (B "script load")) in
  let* f := arg parts 2 in
  match handle_script_load [bulk_string (B "load"); f] with
  | Ok (sha1, script) =>
      let* _ := modify (fun s => set_scripts (<[sha1 := script]> (script_cache s)) s) in ret (bulk_string sha1)
  | Err e => reply_error (B "ERR " ++ show_error e)
  | Panic => crash
  end.

(** Whether the frame is the hash of a cached script. *)
Definition script_exists (cache : gmap bytes bytes) (f : RespFrame) : RespFrame :=
  match f with
  | BulkString (Some sha1) => flag_reply (utf8_valid sha1 && bool_decide (is_Some (cache !! sha1)))
  | _ => Integer 0
  end.

Definition handle_script_command (parts : list RespFrame) : cmd Server RespFrame :=
  let bad_subcommand := B "ERR invalid subcommand" in
  let* _ := guard (length parts <? 2)%nat (wrong_arity (B "script")) in
  let* b := text_arg parts 1 bad_subcommand bad_subcommand in
  let subcommand := to_lowercase b in
  if bool_decide (subcommand = B "load") then handle_script_load_command parts
  else if bool_decide (subcommand = B "exists") then
    let* _ := guard (length parts <? 3)%nat (wrong_arity (B "script exists")) in
    let* s := get_server in
    ret (Array (Some (map (script_exists (script_cache s)) (drop 2 parts))))
  else if bool_decide (subcommand = B "flush") then
    let* _ := guard (negb (length parts =? 2)%nat) (wrong_arity (B "script flush")) in
    let* _ := modify (set_scripts ∅) in ret ok
  else if bool_decide (subcommand = B "kill") then
    let* _ := guard (negb (length parts =? 2)%nat) (wrong_arity (B "script kill")) in ret ok
  else reply_error (quoted (B "ERR Unknown subcommand '") subcommand (B "'")).

(** ** CLIENT (src/storage/commands/client.rs) *)

Definition get_client_flags (c : Connection) : bytes :=
  match (if is_monitoring c then B "M" else []) ++ (if in_transaction (transaction_state c) then B "x" else []) with
  | [] => B "N"
  | flags => flags
  end.

(** [elapsed().as_secs()] *)
Definition elapsed_secs (now since : Z) : Z := Z.max 0 (now - since) / 1000000000.

Definition client_line (id age idle : Z) (c : Connection) : bytes :=
  B "id=" ++ show_u64 id ++ B " addr=" ++ conn_addr c ++ B " fd=" ++ show_u64 id ++ B " name=" ++ default [] (client_name c)
  ++ B " age=" ++ show_u64 age ++ B " idle=" ++ show_u64 idle ++ B " flags=" ++ get_client_flags c
  ++ B " db=" ++ show_u64 (db_index c) ++ B " cmd=unknown" ++ newline.

Definition handle_client_list (parts : list RespFrame) : cmd Server RespFrame :=
  let* _ := guard (negb (length parts =? 2)%nat) (wrong_arity (B "client list")) in
  let* s := get_server in
  let* text := for_each (all_connection_ids s) (fun id text =>
    match connections s !! id with
    | None => ret text
    | Some c =>
        let* t := now in
        let* t' := now in
        ret (text ++ client_line id (elapsed_secs t (created c)) (elapsed_secs t' (last_activity c)) c)
    end) [] in
  ret (from_string text).

(** [close_connection]: whether there was one to mark. *)
Definition close_connection (id : Z) : cmd Server bool :=
  let* s := get_server in
  let* _ := modify (on_conn id (set_state Closing)) in
  ret (bool_decide (is_Some (connections s !! id))).

Definition handle_client_kill (parts : list RespFrame) (this_conn_id : Z) : cmd Server RespFrame :=
  let* _ := guard (length parts <? 3)%nat (wrong_arity (B "client kill")) in
  let* b := bulk_arg parts 2 syntax_error in
  let arg_type := to_uppercase b in
  if bool_decide (arg_type = B "ID") then
    let* _ := guard (negb (length parts =? 4)%nat) syntax_error in
    let* id := parsed_arg parse_u64 parts 3 not_an_integer syntax_error in
    let* _ := guard (id =? this_conn_id) (B "ERR cannot kill self") in
    let* killed := close_connection id in ret (flag_reply killed)
  else if bool_decide (arg_type = B "ADDR") then
    let* _ := guard (negb (length parts =? 4)%nat) syntax_error in
    let* a := bulk_arg parts 3 syntax_error in
    let addr := utf8_lossy a in
    let* s := get_server in
    let* killed := for_each (all_connection_ids s) (fun id killed =>
      let* s := get_server in
      match connections s !! id with
      | Some c =>
          if negb (id =? this_conn_id) && bool_decide (conn_addr c = addr) then
            let* b := close_connection id in ret (if b then killed + 1 else killed)
          else ret killed
      | None => ret killed
      end) 0 in
    ret (Integer killed)
  else reply_error syntax_error.

Definition handle_client_setname (parts : list RespFrame) (conn_id : Z) : cmd Server RespFrame :=
  let* _ := guard (negb (length parts =? 3)%nat) (wrong_arity (B "client setname")) in
  let* name := bulk_arg parts 2 syntax_error in
  with_connection conn_id (fun _ => let* _ := modify (on_conn conn_id (set_name (utf8_lossy name))) in ret ok).

Definition handle_client_getname (parts : list RespFrame) (conn_id : Z) : cmd Server RespFrame :=
  let* _ := guard (negb (length parts =? 2)%nat) (wrong_arity (B "client getname")) in
  with_connection conn_id (fun c => ret (bulk_reply (client_name c))).

Definition handle_client_id (parts : list RespFrame) (conn_id : Z) : cmd Server RespFrame :=
  let* _ := guard (negb (length parts =? 2)%nat) (wrong_arity (B "client id")) in
  ret (Integer (i64_wrap conn_id)).

Definition handle_client_pause (parts : list RespFrame) : cmd Server RespFrame :=
  let* _ := guard (negb (length parts =? 3)%nat) (wrong_arity (B "client pause")) in
  let* timeout_ms := parsed_arg parse_u64 parts 2 (B "ERR timeout is not an integer or out of range") syntax_error in
  let* _ := guard (2147483647 <? timeout_ms) (B "ERR timeout is out of range") in
  let* t := system_time in
  let* _ := modify (set_paused (t + timeout_ms * 1000000)) in ret ok.

Definition handle_client_unpause (parts : list RespFrame) : cmd Server RespFrame :=
  let* _ := guard (negb (length parts =? 2)%nat) (wrong_arity (B "client unpause")) in
  let* _ := modify (set_paused 0) in ret ok.

Definition handle_client (parts : list RespFrame) (this_conn_id : Z) : cmd Server RespFrame :=
  let* _ := guard (length parts <? 2)%nat (wrong_arity (B "client")) in
  let* b := bulk_arg parts 1 syntax_error in
  let subcommand := to_uppercase b in
  if bool_decide (subcommand = B "LIST") then handle_client_list parts
  else if bool_decide (subcommand = B "KILL") then handle_client_kill parts this_conn_id
  else if bool_decide (subcommand = B "SETNAME") then handle_client_setname parts this_conn_id
  else if bool_decide (subcommand = B "GETNAME") then handle_client_getname parts this_conn_id
  else if bool_decide (subcommand = B "ID") then handle_client_id parts this_conn_id
  else if bool_decide (subcommand = B "PAUSE") then handle_client_pause parts
  else if bool_decide (subcommand = B "UNPAUSE") then handle_client_unpause parts
  else reply_error (quoted (B "ERR Unknown subcommand or wrong number of arguments for '") subcommand (B "'")).

(** ** Persistence *)

(** An operation on the store whose error the handler matches on. *)
Definition engine_result {A} (h : cmd engine A) : cmd Server (A + ferrous_error) := fun w s =>
  match h w (storage s) with
  | (w', e, Go a) => (w', set_storage e s, Go (inl a))
  | (w', e, Fail err) => (w', set_storage e s, Go (inr err))
  | (w', e, Reply f) => (w', set_storage e s, Reply f)
  | (w', e, Crash) => (w', set_storage e s, Crash)
  end.

Definition rdb_save : cmd Server (unit + ferrous_error) :=
  let* s := get_server in
  let* r := engine_result (save (rdb_engine s)) in
  match r with
  | inl rdb => let* _ := modify (set_rdb rdb) in ret (inl tt)
  | inr e => ret (inr e)
  end.

Definition handle_save (parts : list RespFrame) : cmd Server RespFrame :=
  let* _ := guard (negb (length parts =? 1)%nat) (wrong_arity (B "save")) in
  let* r := rdb_save in
  match r with
  | inl _ => let* _ := modify (set_changes 0) in ret ok
  | inr e => reply_error (B "ERR " ++ show_error e)
  end.

Definition handle_bgsave (parts : list RespFrame) : cmd Server RespFrame :=
  let* _ := guard (negb (length parts =? 1)%nat) (wrong_arity (B "bgsave")) in
  let* s := get_server in
  match bgsave (rdb_engine s) with
  | Ok rdb => let* _ := modify (set_rdb rdb) in ret (simple_string (B "Background saving started"))
  | Err e => reply_error (B "ERR " ++ show_error e)
  | Panic => crash
  end.

Definition handle_lastsave (parts : list RespFrame) : cmd Server RespFrame :=
  let* _ := guard (negb (length parts =? 1)%nat) (wrong_arity (B "lastsave")) in
  let* s := get_server in
  ret (Integer (match last_save_time (rdb_engine s) with Some t => i64_wrap (t / 1000000000) | None => 0 end)).

(** The thread that rewrites the file is not part of the state. *)
Definition handle_bgrewriteaof : cmd Server RespFrame :=
  let* s := get_server in
  match aof_file s with
  | None => reply_error (B "ERR AOF is disabled")
  | Some _ =>
      if aof_rewriting s then
        reply_error (B "ERR " ++ show_error (EInternal (B "Background AOF rewrite already in progress")))
      else
        let* _ := modify (set_rewriting true) in
        ret (simple_string (B "Background append only file rewriting started"))
  end.

(** The thread that ends the process is not part of the state. *)
Definition handle_shutdown (parts : list RespFrame) : cmd Server RespFrame :=
  let* save_first :=
    match parts with
    | [_] => ret true
    | [_; f] =>
        match f with
        | BulkString (Some b) =>
            let option := to_uppercase (if utf8_valid b then b else []) in
            if bool_decide (option = B "SAVE") then ret true
            else if bool_decide (option = B "NOSAVE") then ret false
            else reply_error (B "ERR Invalid option. Valid values: SAVE, NOSAVE")
        | _ => reply_error (B "ERR Invalid option format")
        end
    | _ => reply_error (wrong_arity (B "shutdown"))
    end in
  if save_first then let* _ := rdb_save in ret NoResponse else ret NoResponse.

(** ** The replicas *)

(** [perform_full_sync]: the image is made to see that it can be made. *)
Definition perform_full_sync : cmd Server RespFrame :=
  let* s := get_server in
  match role (replication s) with
  | Replica _ _ _ _ => reply_error (B "ERR wrong role")
  | Master repl_id _ offset _ =>
      let* r := engine_result generate_rdb_bytes in
      match r with
      | inl _ => ret (full_resync_line repl_id offset)
      | inr e => reply_error (B "ERR RDB generation failed: " ++ show_error e)
      end
  end.

(** The id of a new master, of the draws of the random generator. *)
Definition id_byte (n : Z) : byte :=
  byte_of (if n <=? 9 then 48 + n else if n <=? 35 then 97 + n - 10 else 65 + n - 36).
Definition generate_repl_id (r : Z) : bytes := map (fun i => id_byte (Z.of_nat (choose r i) mod 62)) (seq 0 40).

Definition replicaof_command (parts : list RespFrame) : cmd Server RespFrame :=
  let* r := draw in
  try_op (fun s =>
    let '(m, x) := handle_replicaof (generate_repl_id r) parts (replication s) in (set_replication m s, x)).

(** ** Dispatch of a command *)

Definition is_write_command (command : bytes) : bool :=
  bool_decide (command ∈
    [B "SET"; B "DEL"; B "EXPIRE"; B "INCR"; B "DECR"; B "INCRBY"; B "DECRBY";
     B "SETNX"; B "SETEX"; B "PSETEX"; B "FLUSHDB"; B "FLUSHALL";
     B "LPUSH"; B "RPUSH"; B "LPOP"; B "RPOP"; B "LSET"; B "LREM"; B "LTRIM";
     B "SADD"; B "SREM"; B "SPOP";
     B "HSET"; B "HDEL"; B "HINCRBY";
     B "ZADD"; B "ZREM"; B "ZINCRBY"; B "ZPOPMIN"; B "ZPOPMAX";
     B "XADD"; B "XTRIM"; B "XDEL";
     B "XGROUP"; B "XACK"; B "XCLAIM";
     B "MSET"; B "APPEND"; B "SETRANGE"; B "RENAME"; B "RENAMENX"; B "PERSIST"; B "EVAL"; B "EVALSHA"]).

(** The commands that only need the storage engine. *)
Definition storage_commands : list (bytes * (nat -> list RespFrame -> cmd engine RespFrame)) :=
  [(B "PING", handle_ping); (B "ECHO", handle_echo); (B "SET", handle_set); (B "GET", handle_get);
   (B "INCR", handle_incr); (B "DECR", handle_decr); (B "INCRBY", handle_incrby); (B "DECRBY", handle_decrby);
   (B "DEL", handle_del); (B "EXISTS", handle_exists); (B "EXPIRE", handle_expire); (B "TTL", handle_ttl);
   (B "FLUSHDB", handle_flushdb); (B "FLUSHALL", handle_flushall); (B "DBSIZE", handle_dbsize);
   (B "SETNX", handle_setnx); (B "SETEX", handle_setex); (B "PSETEX", handle_psetex); (B "SLEEP", handle_sleep);
   (B "MGET", handle_mget); (B "MSET", handle_mset); (B "GETSET", handle_getset); (B "APPEND", handle_append);
   (B "STRLEN", handle_strlen); (B "GETRANGE", handle_getrange); (B "SETRANGE", handle_setrange);
   (B "TYPE", handle_type); (B "RENAME", handle_rename); (B "RENAMENX", handle_renamenx);
   (B "RANDOMKEY", handle_randomkey); (B "KEYS", handle_keys); (B "PEXPIRE", handle_pexpire);
   (B "PTTL", handle_pttl); (B "PERSIST", handle_persist);
   (B "LPUSH", handle_lpush); (B "RPUSH", handle_rpush); (B "LPOP", handle_lpop); (B "RPOP", handle_rpop);
   (B "LLEN", handle_llen); (B "LRANGE", handle_lrange); (B "LINDEX", handle_lindex); (B "LSET", handle_lset);
   (B "LTRIM", handle_ltrim); (B "LREM", handle_lrem);
   (B "SADD", handle_sadd); (B "SREM", handle_srem); (B "SMEMBERS", handle_smembers);
   (B "SISMEMBER", handle_sismember); (B "SCARD", handle_scard); (B "SUNION", handle_sunion);
   (B "SINTER", handle_sinter); (B "SDIFF", handle_sdiff); (B "SRANDMEMBER", handle_srandmember);
   (B "SPOP", handle_spop);
   (B "HSET", handle_hset); (B "HGET", handle_hget); (B "HMSET", handle_hmset); (B "HMGET", handle_hmget);
   (B "HGETALL", handle_hgetall); (B "HDEL", handle_hdel); (B "HLEN", handle_hlen); (B "HEXISTS", handle_hexists);
   (B "HKEYS", handle_hkeys); (B "HVALS", handle_hvals); (B "HINCRBY", handle_hincrby);
   (B "ZADD", handle_zadd); (B "ZREM", handle_zrem); (B "ZSCORE", handle_zscore); (B "ZCARD", handle_zcard);
   (B "ZRANK", handle_zrank); (B "ZREVRANK", handle_zrevrank); (B "ZRANGE", handle_zrange);
   (B "ZREVRANGE", handle_zrevrange); (B "ZRANGEBYSCORE", handle_zrangebyscore);
   (B "ZREVRANGEBYSCORE", handle_zrevrangebyscore); (B "ZCOUNT", handle_zcount); (B "ZINCRBY", handle_zincrby);
   (B "ZPOPMIN", handle_zpopmin); (B "ZPOPMAX", handle_zpopmax);
   (B "XADD", handle_xadd); (B "XRANGE", handle_xrange); (B "XREVRANGE", handle_xrevrange); (B "XLEN", handle_xlen);
   (B "XREAD", handle_xread); (B "XTRIM", handle_xtrim); (B "XDEL", handle_xdel);
   (B "XGROUP", handle_xgroup); (B "XREADGROUP", handle_xreadgroup); (B "XACK", handle_xack);
   (B "XCLAIM", handle_xclaim); (B "XPENDING", handle_xpending); (B "XINFO", handle_xinfo);
   (B "SCAN", handle_scan); (B "HSCAN", handle_hscan); (B "SSCAN", handle_sscan); (B "ZSCAN", handle_zscan);
   (B "MEMORY", handle_memory); (B "EVAL", eval_command)].

Fixpoint find_command {A} (name : bytes) (l : list (bytes * A)) : option A :=
  match l with
  | [] => None
  | (n, a) :: l' => if bool_decide (n = name) then Some a else find_command name l'
  end.

(** After a push that answered a positive length, one client waiting on the key
    is woken. *)
Definition notify_after_push (db : nat) (parts : list RespFrame) (f : RespFrame) : Server -> Server := fun s =>
  match f, parts !! 1%nat with
  | Integer count, Some (BulkString (Some key)) =>
      if (0 <? count) && (3 <=? length parts)%nat then set_core (notify_push (core s) db key) s else s
  | _, _ => s
  end.

Definition info_command (parts : list RespFrame) : cmd Server RespFrame := fun w s =>
  let connected := Z.of_nat (size (connections s)) in
  let '(w', (e, st), r) := handle_info (start_time s) connected (config_max_clients s) (replication s) parts w (storage s, stats s) in
  (w', set_stats st (set_storage e s), r).

Definition handle_slowlog_command (parts : list RespFrame) : cmd Server RespFrame := fun w s =>
  let '(w', l, r) := handle_slowlog parts w (slow_log s) in (w', set_slow_log l s, r).

(** CONFIG SET of a value of the slow log. *)
Definition config_slowlog (value : option Z) (setting : Z -> Slowlog -> Slowlog) : cmd Server RespFrame :=
  match value with
  | Some n => let* _ := modify (fun s => set_slow_log (setting n (slow_log s)) s) in reply ok
  | None => reply_error (B "ERR value is not an integer or out of range")
  end.

(** [handler(..)?], whatever reply the handler ends with. *)
Definition answer_of (h : cmd Server RespFrame) : cmd Server RespFrame := fun w s =>
  match h w s with
  | (w', s', Reply f) => (w', s', Go f)
  | r => r
  end.

(** Only the two settings of the slow log can be set.  A reply of the dispatch
    itself ends it early; the answer of [handle_config] does not. *)
Definition handle_config_command (parts : list RespFrame) : cmd Server RespFrame :=
  let* _ := guard (length parts <? 2)%nat (wrong_arity (B "config")) in
  let* subcommand := bulk_arg parts 1 (B "ERR invalid subcommand format") in
  if bool_decide (to_uppercase subcommand = B "SET") && (4 <=? length parts)%nat then
    let* name := bulk_arg parts 2 (B "ERR invalid parameter name format") in
    let* value := bulk_arg parts 3 (B "ERR invalid parameter value format") in
    let param_name := to_lowercase (utf8_lossy name) in
    if bool_decide (param_name = B "slowlog-log-slower-than") then config_slowlog (parse_i64 value) set_threshold_micros
    else if bool_decide (param_name = B "slowlog-max-len") then config_slowlog (parse_u64 value) set_max_len
    else answer_of (handle_config parts)
  else answer_of (handle_config parts).

(** The commands that need more of the server. *)
Definition server_commands (db : nat) (conn_id : Z) (parts : list RespFrame) : list (bytes * cmd Server RespFrame) :=
  [(B "SELECT", handle_select conn_id parts); (B "BLPOP", handle_blpop conn_id db parts);
   (B "BRPOP", handle_brpop conn_id db parts); (B "CONFIG", handle_config_command parts);
   (B "SAVE", handle_save parts); (B "BGSAVE", handle_bgsave parts); (B "LASTSAVE", handle_lastsave parts);
   (B "BGREWRITEAOF", handle_bgrewriteaof); (B "INFO", info_command parts);
   (B "SLOWLOG", handle_slowlog_command parts); (B "CLIENT", handle_client parts conn_id);
   (B "AUTH", handle_auth 0 parts); (B "REPLICAOF", replicaof_command parts); (B "SLAVEOF", replicaof_command parts);
   (B "SYNC", perform_full_sync); (B "PSYNC", try_op (fun s => (s, handle_psync parts (replication s))));
   (B "QUIT", ret ok); (B "EVALSHA", handle_evalsha_command parts);
   (B "COMMAND", try_op (fun s => (s, handle_command parts))); (B "SHUTDOWN", handle_shutdown parts);
   (B "SCRIPT", handle_script_command parts)].

(** ** Monitoring (src/network/monitoring.rs) *)

(** [record_cache_hit] of GET and EXISTS, by what they answered. *)
Definition record_cache_hits (name : bytes) (parts : list RespFrame) (f : RespFrame) : Server -> Server := fun s =>
  if monitoring s then
    match f with
    | BulkString (Some _) => if bool_decide (name = B "GET") then on_stats (count_lookups 1 0) s else s
    | BulkString None => if bool_decide (name = B "GET") then on_stats (count_lookups 0 1) s else s
    | Integer n =>
        if bool_decide (name = B "EXISTS") then on_stats (count_lookups n (Z.of_nat (length (bulks_only (drop 1 parts))) - n)) s else s
    | _ => s
    end
  else s.

Definition start_timing : cmd Server (option Z) :=
  let* s := get_server in
  if monitoring s then let* t := now in ret (Some t) else ret None.

Definition record_command_timing (duration : Z) (parts : list RespFrame) (client_addr : bytes) : cmd Server unit :=
  let* s := get_server in
  let duration_micros := u64_wrap (duration / 1000) in
  let threshold := get_threshold_micros (slow_log s) in
  if (0 <=? threshold) && (threshold <=? duration_micros) then
    let* t := system_time in
    modify (fun s => set_slow_log (add_if_slow (t / 1000000000) duration parts client_addr None (slow_log s)) s)
  else ret tt.

(** The line is made and printed on the server's own output: nothing is sent. *)
Definition broadcast_to_monitors (parts : list RespFrame) (conn_id : Z) (db : nat) (timestamp : Z) (s : Server) : outcome unit :=
  if bool_decide (monitor_subscribers s = ∅) then Ok tt
  else
    match parts with
    | [] => Panic
    | BulkString (Some b) :: _ =>
        if bool_decide (to_uppercase b = B "AUTH") then Ok tt
        else let? _ := format_monitor_output timestamp db (B "127.0.0.1:" ++ show_u64 conn_id) parts in Ok tt
    | _ :: _ => Ok tt
    end.

(** What is recorded when a command is done, if its start was. *)
Definition record_completion (start : option Z) (parts : list RespFrame) (conn_id : Z) (db : nat) : cmd Server unit :=
  match start with
  | None => ret tt
  | Some t0 =>
      let* s := get_server in
      let client_addr := match connections s !! conn_id with Some c => conn_addr c | None => B "127.0.0.1:unknown" end in
      let* _ := modify (on_stats count_command) in
      let* t1 := now in
      let* _ := record_command_timing (Z.max 0 (t1 - t0)) parts client_addr in
      let* t := system_time in
      try_op (reads (broadcast_to_monitors parts conn_id db t))
  end.

(** What the dispatch does after a handler of the store that answered. *)
Definition after_storage (name : bytes) (db : nat) (parts : list RespFrame) (f : RespFrame) : Server -> Server := fun s =>
  if bool_decide (name = B "LPUSH" \/ name = B "RPUSH") then notify_after_push db parts f s
  else record_cache_hits name parts f s.

(** [match command_name.as_str()] *)
Definition route (name : bytes) (db : nat) (conn_id : Z) (parts : list RespFrame) : cmd Server RespFrame :=
  match find_command name storage_commands with
  | Some h =>
      let handler := on_engine (h db parts) in
      if bool_decide (name ∈ [B "LPUSH"; B "RPUSH"; B "GET"; B "EXISTS"]) then
        let* f := answer_of handler in
        let* _ := modify (after_storage name db parts f) in ret f
      else handler
  | None =>
      match find_command name (server_commands db conn_id parts) with
      | Some h => h
      | None => reply_error (quoted (B "ERR unknown command '") name (B "'"))
      end
  end.

(** [aof.append_command], whose errors are only logged: a command that cannot
    be serialized leaves a part of itself in the file. *)
Definition append_aof (parts : list RespFrame) : Server -> Server := fun s =>
  match aof_file s with
  | Some content => set_aof (Some (serialize_resp_frame (Array (Some parts)) content).1) s
  | None => s
  end.

Definition record_change : Server -> Server := fun s => set_changes (u64_wrap (changes_since_save s + 1)) s.

(** [replication.propagate_command] and the copies to the replicas; an error of
    the backlog stops the propagation. *)
Definition propagate (parts : list RespFrame) : Server -> Server := fun s =>
  match propagate_command (replication s) (Array (Some parts)) with
  | (r, Ok ids) => foldl (fun s i => send_to i (Array (Some parts)) s) (set_replication r s) ids
  | (r, _) => set_replication r s
  end.

(** The commands that the dispatch answers itself, without what comes after. *)
Definition answers_early (name : bytes) : bool := bool_decide (name ∈ [B "SLEEP"; B "CONFIG"]).

(** After the handler: the count of changes, the monitoring, the replicas. *)
Definition complete_command (db : nat) (conn_id : Z) (parts : list RespFrame) (writes : bool) (start : option Z)
    (result : outcome RespFrame) : cmd Server RespFrame :=
  let changed := writes && match result with Ok f => negb (is_error f) | _ => false end in
  let* _ := modify (fun s => if changed then record_change s else s) in
  let* _ := record_completion start parts conn_id db in
  let* _ := modify (fun s => if changed then propagate parts s else s) in
  match result with Ok f => ret f | Err e => fail_with e | Panic => crash end.

(** The command's name is not trimmed here. *)
Definition process_normal_command (db : nat) (conn_id : Z) (parts : list RespFrame) : cmd Server RespFrame :=
  match parts with
  | [] => crash
  | BulkString (Some b) :: _ =>
      let name := to_uppercase b in
      let writes := is_write_command name in
      let* start := start_timing in
      let* _ := modify (fun s => if writes then append_aof parts s else s) in
      fun w s =>
        match route name db conn_id parts w s with
        | (w', s', Crash) => (w', s', Crash)
        | (w', s', Fail e) => complete_command db conn_id parts writes start (Err e) w' s'
        | (w', s', Go f) => complete_command db conn_id parts writes start (Ok f) w' s'
        | (w', s', Reply f) =>
            if answers_early name then (w', s', Go f) else complete_command db conn_id parts writes start (Ok f) w' s'
        end
  | _ :: _ => ret (error (B "ERR invalid command format"))
  end.

(** ** EXEC *)

(** The watched keys in the order of the map: is one of them modified, or does
    the check fail. *)
Fixpoint check_watched (db : nat) (keys : list (bytes * Z)) : cmd Server bool :=
  match keys with
  | [] => ret false
  | (key, baseline) :: keys' =>
      let* t := now in
      let* r := on_engine (catch_op (fun e => was_modified_since t e db key baseline)) in
      match r with
      | inl true | inr _ => ret true
      | inl false => check_watched db keys'
      end
  end.

(** The queued commands, one after the other, with connection 0; an error
    becomes an error frame. *)
Fixpoint run_queue (db : nat) (commands : list (list RespFrame)) (results : list RespFrame)
    : cmd Server (list RespFrame) :=
  match commands with
  | [] => ret results
  | parts :: commands' => fun w s =>
      match run_handler (process_normal_command db 0 parts) w s with
      | (w', s', Ok f) => run_queue db commands' (results ++ [f]) w' s'
      | (w', s', Err e) => run_queue db commands' (results ++ [error (show_error e)]) w' s'
      | (w', s', Panic) => (w', s', Crash)
      end
  end.

Definition handle_exec (conn_id : Z) : cmd Server RespFrame :=
  let* s := get_server in
  match connections s !! conn_id with
  | None => reply_error (B "ERR EXEC without MULTI")
  | Some c =>
      let t := transaction_state c in
      if negb (in_transaction t) then reply_error (B "ERR EXEC without MULTI")
      else
        let* dirty := check_watched (conn_db c) (map_iter (watched_keys t)) in
        let* _ := modify (on_conn conn_id (set_tx tx_clear)) in
        if dirty || aborted t then ret null_array
        else
          let* results := run_queue (conn_db c) (queued_commands t) [] in
          ret (Array (Some results))
  end.

(** ** process_frame *)

Definition no_auth : RespFrame := error (B "NOAUTH Authentication required").
Definition paused : RespFrame := error (B "ERR CLIENT PAUSE active, please retry later").

Definition handle_monitor (conn_id : Z) (parts : list RespFrame) : cmd Server RespFrame :=
  let* _ := guard (negb (length parts =? 1)%nat) (wrong_arity (B "monitor")) in
  let* _ := modify (fun s => on_conn conn_id set_monitoring (set_monitors ({[conn_id]} ∪ monitor_subscribers s) s)) in
  ret ok.

Definition replconf_command (conn_id : Z) (parts : list RespFrame) : cmd Server RespFrame :=
  with_connection conn_id (fun _ =>
    let* t := now in
    try_op (fun s => let '(r, f) := Replication.handle_replconf t parts conn_id (replication s) in (set_replication r s, f))).

(** The commands that are answered before the queue of a transaction. *)
Definition control_command (command : bytes) (conn_id : Z) (parts : list RespFrame) : option (cmd Server RespFrame) :=
  find_command command
    [(B "MONITOR", handle_monitor conn_id parts);
     (B "MULTI", conn_command conn_id handle_multi);
     (B "EXEC", handle_exec conn_id);
     (B "DISCARD", conn_command conn_id handle_discard);
     (B "WATCH", watch_command conn_id parts);
     (B "UNWATCH", unwatch_command conn_id);
     (B "PUBLISH", handle_publish parts);
     (B "SUBSCRIBE", handle_subscribe conn_id parts);
     (B "UNSUBSCRIBE", handle_unsubscribe conn_id parts);
     (B "PSUBSCRIBE", handle_psubscribe conn_id parts);
     (B "PUNSUBSCRIBE", handle_punsubscribe conn_id parts);
     (B "AUTH", handle_auth conn_id parts);
     (B "REPLCONF", replconf_command conn_id parts)].

Definition is_authenticated (c : Connection) : bool :=
  match conn_state c with Authenticated => true | _ => false end.

(** What a connection that has not authenticated may do. *)
Definition before_auth (command : bytes) (conn_id : Z) (parts : list RespFrame) : cmd Server RespFrame :=
  if bool_decide (command = B "AUTH") then handle_auth conn_id parts
  else if bool_decide (command = B "PING") then on_engine (handle_ping 0 parts)
  else if bool_decide (command = B "QUIT") then ret ok
  else ret no_auth.

Definition exempt_from_pause : list bytes := [B "AUTH"; B "CLIENT"; B "QUIT"].

Definition unpaused (command : bytes) (k : cmd Server RespFrame) : cmd Server RespFrame :=
  if bool_decide (command ∈ exempt_from_pause) then k
  else
    let* t := system_time in
    let* s := get_server in
    if t <? paused_until s then ret paused else k.

Definition process_frame (frame : RespFrame) (conn_id : Z) : cmd Server RespFrame :=
  match frame with
  | Array (Some (BulkString (Some b) :: args)) =>
      let parts := BulkString (Some b) :: args in
      let command := trim_uppercase b in
      with_connection conn_id (fun c =>
        let* s := get_server in
        if bool_decide (is_Some (password s)) && negb (is_authenticated c) then before_auth command conn_id parts
        else
          match control_command command conn_id parts with
          | Some h => h
          | None =>
              if in_transaction (transaction_state c) && should_queue_command command then
                conn_command conn_id (fun c => queue_command c parts)
              else unpaused command (process_normal_command (conn_db c) conn_id parts)
          end)
  | Array (Some (_ :: _)) => reply_error (B "ERR invalid command format")
  | _ => reply_error (B "ERR invalid request format")
  end.
End server.

(** ** Finding a handler *)

Fixpoint position (name : bytes) (l : list bytes) : option nat :=
  match l with
  | [] => None
  | n :: l' => if bool_decide (n = name) then Some 0%nat else option_map S (position name l')
  end.

Lemma find_command_at {A} name (l : list (bytes * A)) i n a :
  position name (map fst l) = Some i -> l !! i = Some (n, a) -> find_command name l = Some a.
Proof.
  revert i. induction l as [|[m x] l IH]; intros i; [done|]. simpl. case_bool_decide; [by intros [= <-] [= _ ->]|].
  destruct (position name (map fst l)) as [j|]; [|done]. intros [= <-]. simpl. by apply IH.
Qed.
