(* ===== verification/ServerLoop.v ===== *)
(** * The server's loop (the rest of src/network/server.rs)

    One turn of [run]: waking blocked clients, accepting, reading and answering
    every connection, timing blocked clients out, retrying writes and removing
    closed connections.  What the sockets do in the turn is an argument: what a
    read answers, and what the calls to [write] of each flush answer. *)

From S2P Require Import Prelude Text Resp SortedSet Value PubSub Rdb RespParser Connection Blocking Keyspace ListOps Command StringCommands Replication LuaEngine Info Server.

Open Scope Z_scope.

(** ** Sockets *)

Record Socket := mkSocket {
  sk_read : io_result bytes;
  sk_write : nat -> nat -> io_result nat;  (** flush, call *)
  sk_time : Z;
}.

(** The answers a flush can need: every call makes progress or is an attempt. *)
Definition write_answers (k : Socket) (i : nat) (c : Connection) : list (io_result nat) :=
  map (sk_write k i) (seq 0 (length (write_buffer c) + MAX_ATTEMPTS)).

Definition flush_on (k : Socket) (i : nat) (c : Connection) : Connection * bytes * outcome unit :=
  match flush (sk_time k) (write_answers k i c) c with
  | Some r => r
  | None => (c, [], Panic)
  end.

(** The errors the loop takes for a lost peer. *)
Definition is_broken (e : ferrous_error) : bool :=
  match e with
  | EConnection msg => contains (B "Broken pipe") msg || contains (B "Connection reset") msg
  | _ => false
  end.

Definition no_data_yet (e : ferrous_error) : bool :=
  match e with
  | EConnection msg => contains (B "would block") msg || contains (B "Resource temporarily unavailable") msg
  | _ => false
  end.

Record ServerLoop {ZS : Type} := mkLoop {
  srv : Server ZS;
  pending_writes : list Z;
  next_id : Z;
}.
Arguments ServerLoop : clear implicits.
Arguments mkLoop {ZS}.
Arguments srv {ZS}.
Arguments pending_writes {ZS}.
Arguments next_id {ZS}.

Section server_loop.
Context {ZS : Type} `{SortedSet ZS} `{Layout} `{HashIter} `{F64Text} `{Random} `{CaseMap} `{Mlua} `{Resolver} `{Process}.
Context (frame_size pair_size : Z) (idle_timeout : Z).

Abbreviation Server := (Server ZS).
Abbreviation ServerLoop := (ServerLoop ZS).
Abbreviation drain := (drain frame_size pair_size).

(** ** Reading: the first phase of [process_connection] *)

Inductive read_phase :=
  | ReadDone (frames : list RespFrame) (timed_out : bool)
  | ReadFailed (e : ferrous_error)
  | ReadPanic.

Definition idle_too_long (k : Socket) (c : Connection) : bool :=
  (0 <? idle_timeout) && (idle_timeout * 1000000000 <? sk_time k - last_activity c).

(** What is left unread is read in the next turn; an error of the parser is
    logged and leaves what was not consumed in its buffer. *)
Definition read_frames (k : Socket) (c : Connection) : Connection * read_phase :=
  match conn_read (sk_time k) (sk_read k) c with
  | (c', Ok true) =>
      match drain (S (length (buffer (conn_parser c')))) (conn_parser c') [] with
      | (p, frames, NeedMore) | (p, frames, ParseWarning _) =>
          let c2 := set_parser p (last_activity c') c' in (c2, ReadDone frames (idle_too_long k c2))
      | (p, _, DrainPanic) | (p, _, DrainFuel) => (set_parser p (last_activity c') c', ReadPanic)
      end
  | (c', Ok false) => (c', ReadDone [] (idle_too_long k c'))
  | (c', Err e) =>
      if no_data_yet e then (c', ReadDone [] false)
      else if is_broken e then (set_state Closing c', ReadFailed e)
      else (c', ReadDone [] false)
  | (c', Panic) => (c', ReadPanic)
  end.

(** Pending writes are flushed first; a soft error of that skips the read. *)
Definition first_phase (k : Socket) (c : Connection) : Connection * bytes * read_phase :=
  if has_pending_writes c then
    match flush_on k 0 c with
    | (c', sent, Ok _) => let '(c2, r) := read_frames k c' in (c2, sent, r)
    | (c', sent, Err e) =>
        if is_broken e then (c', sent, ReadFailed e)
        else match e with
             | EConnection _ => (c', sent, ReadDone [] false)
             | _ => (c', sent, ReadFailed e)
             end
    | (c', sent, Panic) => (c', sent, ReadPanic)
    end
  else let '(c2, r) := read_frames k c in (c2, [], r).

(** ** Processing: the second phase *)

(** SYNC and PSYNC register the connection as a replica and put the database
    image in its write buffer, before the answer of the command. *)
Definition start_replica (conn_id now : Z) : cmd Server unit :=
  let* s := get_server in
  let missing := EConnection (B "Connection not found") in
  match connections s !! conn_id with
  | None => fail_with missing
  | Some c =>
      let* _ := try_op (fun s =>
        let '(r, x) := add_replica (replication s) (mkReplica conn_id (conn_addr c) 0 now) in (set_replication r s, x)) in
      let* rdb := on_engine generate_rdb_bytes in
      modify (on_conn conn_id (fun c => send_rdb_to_replica c rdb))
  end.

Definition handle_sync_command (command : bytes) (parts : list RespFrame) (conn_id : Z) : cmd Server RespFrame :=
  if bool_decide (command = B "SYNC") then
    let* response := answer_of perform_full_sync in
    let* t := now in
    let* _ := start_replica conn_id t in ret response
  else
    let* response := try_op (fun s => (s, handle_psync parts (replication s))) in
    match response with
    | SimpleString data =>
        if bool_decide (take 10 data = B "FULLRESYNC") then
          let* t := now in
          let* _ := start_replica conn_id t in ret response
        else ret response
    | _ => ret response
    end.

(** The name the loop goes by, without trimming. *)
Definition frame_command (frame : RespFrame) : option bytes :=
  match frame with
  | Array (Some (BulkString (Some b) :: _)) => Some (to_uppercase b)
  | _ => None
  end.

Definition frame_parts (frame : RespFrame) : list RespFrame :=
  match frame with Array (Some parts) => parts | _ => [] end.

Definition immediate_commands : list bytes :=
  [B "EXEC"; B "MULTI"; B "DISCARD"; B "WATCH"; B "UNWATCH"; B "AUTH"; B "SELECT"; B "QUIT";
   B "MONITOR"; B "SAVE"; B "BGSAVE"; B "SHUTDOWN"; B "SUBSCRIBE"; B "UNSUBSCRIBE"; B "PSUBSCRIBE"; B "PUNSUBSCRIBE"].

Definition needs_immediate_flush (frame : RespFrame) : bool :=
  match frame_command frame with Some c => bool_decide (c ∈ immediate_commands) | None => false end.

Definition is_quit (frame : RespFrame) : bool :=
  match frame_command frame with Some c => bool_decide (c = B "QUIT") | None => false end.

Definition process_request (frame : RespFrame) (conn_id : Z) : cmd Server RespFrame :=
  match frame_command frame with
  | Some command =>
      if bool_decide (command = B "SYNC") || bool_decide (command = B "PSYNC")
      then handle_sync_command command (frame_parts frame) conn_id
      else process_frame frame conn_id
  | None => process_frame frame conn_id
  end.

(** The answers of a batch; an error stops it. *)
Fixpoint process_frames (conn_id : Z) (frames : list RespFrame) : World -> Server -> World * Server * outcome (list RespFrame) :=
  fun w s =>
  match frames with
  | [] => (w, s, Ok [])
  | f :: frames' =>
      match run_handler (process_request f conn_id) w (on_stats count_command s) with
      | (w1, s1, Ok response) =>
          let '(w2, s2, r) := process_frames conn_id frames' w1 s1 in
          (w2, s2, let? responses := r in Ok (response :: responses))
      | (w1, s1, Err e) => (w1, s1, Err e)
      | (w1, s1, Panic) => (w1, s1, Panic)
      end
  end.

(** ** Answering: the third phase *)

Definition wants_sending (f : RespFrame) : bool := match f with NoResponse => false | _ => true end.

(** A response that cannot be serialized is dropped (a part of it may stay in
    the buffer). *)
Definition send_responses (c : Connection) (responses : list RespFrame) : Connection :=
  foldl (fun c f => (send_frame c f).1) c (filter wants_sending responses).

(** A flush after the answers: only a lost peer ends the connection. *)
Definition flush_answers (k : Socket) (i : nat) (c : Connection) : Connection * bytes * outcome unit :=
  match flush_on k i c with
  | (c', sent, Err e) => if is_broken e then (set_state Closing c', sent, Err e) else (c', sent, Ok tt)
  | r => r
  end.

Fixpoint send_each (k : Socket) (i : nat) (c : Connection) (sent : bytes) (responses : list RespFrame)
    : Connection * bytes * outcome unit :=
  match responses with
  | [] => (c, sent, Ok tt)
  | f :: responses' =>
      match send_frame c f with
      | (c1, Ok _) =>
          match flush_answers k i c1 with
          | (c2, sent', Ok _) => send_each k (S i) c2 (sent ++ sent') responses'
          | (c2, sent', r) => (c2, sent ++ sent', r)
          end
      | (c1, _) => send_each k i c1 sent responses'
      end
  end.

Definition send_answers (k : Socket) (immediate : bool) (c : Connection) (responses : list RespFrame)
    : Connection * bytes * outcome unit :=
  if immediate then send_each k 1 c [] (filter wants_sending responses)
  else flush_answers k 1 (send_responses c responses).

(** [close], whose error and whose caller's error both remove the connection. *)
Definition close (k : Socket) (i : nat) (c : Connection) : Connection * bytes :=
  let '(c', sent, _) := flush_on k i (set_state Closing c) in (c', sent).

Definition timed_out_error : ferrous_error := EConnection (B "Connection timed out").

Definition third_phase (k : Socket) (subscribed immediate quit timed_out : bool) (responses : list RespFrame)
    (c : Connection) : Connection * bytes * outcome bool :=
  match send_answers k immediate c responses with
  | (c1, sent, Ok _) =>
      let c2 := if quit then set_state Closing c1 else c1 in
      if timed_out && negb (has_pending_writes c2) && (length responses =? 0)%nat && negb subscribed then
        let '(c3, sent') := close k 2 c2 in (c3, sent ++ sent', Err timed_out_error)
      else (c2, sent, Ok (has_pending_writes c2))
  | (c1, sent, Err e) => (c1, sent, Err e)
  | (c1, sent, Panic) => (c1, sent, Panic)
  end.

(** [process_connection]: the state, what was sent, and whether writes are
    pending. *)
Definition process_connection (k : Socket) (id : Z) : World -> Server -> World * Server * (bytes * outcome bool) :=
  fun w s =>
  match connections s !! id with
  | None => (w, s, ([], Ok false))
  | Some c =>
      let '(c1, sent1, r) := first_phase k c in
      let s1 := on_conn id (fun _ => c1) s in
      match r with
      | ReadPanic => (w, s1, (sent1, Panic))
      | ReadFailed e => (w, s1, (sent1, Err e))
      | ReadDone frames timed_out =>
          match process_frames id frames w s1 with
          | (w2, s2, Err e) => (w2, s2, (sent1, Err e))
          | (w2, s2, Panic) => (w2, s2, (sent1, Panic))
          | (w2, s2, Ok responses) =>
              match connections s2 !! id with
              | None => (w2, s2, (sent1, Ok false))
              | Some c2 =>
                  let '(c3, sent2, r) :=
                    third_phase k (is_subscribed (pubsub s2) id) (existsb needs_immediate_flush frames)
                      (existsb is_quit frames) timed_out responses c2 in
                  (w2, on_conn id (fun _ => c3) s2, (sent1 ++ sent2, r))
              end
          end
      end
  end.

(** ** All connections *)

Definition remove_connection (id : Z) (s : Server) : Server :=
  set_connections (delete id (connections s)) s.

(** A connection whose processing failed: its subscriptions go with it. *)
Definition drop_failed (s : Server) (id : Z) : Server :=
  match connections s !! id with
  | Some _ => let s' := remove_connection id s in set_pubsub (unsubscribe_all (pubsub s') id) s'
  | None => s
  end.

(** The ids with pending writes and the failed ones, in order. *)
Fixpoint visit_connections (k : Z -> Socket) (ids : list Z) (w : World) (s : Server)
    : World * Server * outcome (list Z * list Z) :=
  match ids with
  | [] => (w, s, Ok ([], []))
  | id :: ids' =>
      match process_connection (k id) id w s with
      | (w1, s1, (_, Panic)) => (w1, s1, Panic)
      | (w1, s1, (_, r)) =>
          let '(w2, s2, rest) := visit_connections k ids' w1 s1 in
          (w2, s2,
           let? (pending, failed) := rest in
           Ok (match r with
               | Ok true => (id :: pending, failed)
               | Ok false => (pending, failed)
               | _ => (pending, id :: failed)
               end))
      end
  end.

Definition process_connections (k : Z -> Socket) (w : World) (l : ServerLoop) : World * ServerLoop * outcome unit :=
  let s := srv l in
  match visit_connections k (filter (fun id => is_connection_blocked (core s) id = false) (all_connection_ids s)) w s with
  | (w', s', Ok (pending, failed)) =>
      (w', mkLoop (foldl drop_failed s' failed) (pending_writes l ++ pending) (next_id l), Ok tt)
  | (w', s', Err e) => (w', mkLoop s' (pending_writes l) (next_id l), Err e)
  | (w', s', Panic) => (w', mkLoop s' (pending_writes l) (next_id l), Panic)
  end.

(** ** Accepting, retrying writes, cleaning up *)

(** A client that connects; beyond the limit it is turned away. *)
Definition accept_connection (addr : bytes) (now : Z) (l : ServerLoop) : ServerLoop :=
  let s := on_stats count_connection (srv l) in
  let id := next_id l in
  if config_max_clients s <=? Z.of_nat (size (connections s)) then mkLoop s (pending_writes l) (u64_wrap (id + 1))
  else
    let c := conn_new addr now in
    let c' := if bool_decide (is_Some (password s)) then set_state Connected c else set_state Authenticated c in
    mkLoop (set_connections (<[id := c']> (connections s)) s) (pending_writes l) (u64_wrap (id + 1)).

(** At most ten in a turn. *)
Definition accept_connections (arrivals : list (bytes * Z)) (l : ServerLoop) : ServerLoop :=
  foldl (fun l a => accept_connection a.1 a.2 l) l (take 10 arrivals).

Definition retry_write (k : Z -> Socket) (st : Server * list Z) (id : Z) : Server * list Z :=
  let '(s, still) := st in
  match connections s !! id with
  | None => (s, still)
  | Some c =>
      match flush_on (k id) 3 c with
      | (c', _, Ok _) => (on_conn id (fun _ => c') s, if has_pending_writes c' then still ++ [id] else still)
      | (c', _, Err (EConnection _)) => (on_conn id (fun _ => set_state Closing c') s, still)
      | (c', _, _) => (on_conn id (fun _ => c') s, still)
      end
  end.

Definition process_pending_writes (k : Z -> Socket) (l : ServerLoop) : ServerLoop :=
  let '(s, still) := foldl (retry_write k) (srv l, []) (pending_writes l) in mkLoop s still (next_id l).

(** A closed connection leaves the queues of every database, its subscriptions
    and the monitors. *)
Definition clean_connection (s : Server) (id : Z) : Server :=
  match connections s !! id with
  | None => s
  | Some _ =>
      let s1 := remove_connection id s in
      let s2 := set_blocking (foldl (fun m db => unregister_client m db id) (blocking (core s1))
                  (seq 0 (database_count (storage s1)))) s1 in
      set_monitors (monitor_subscribers s2 ∖ {[id]}) (set_pubsub (unsubscribe_all (pubsub s2) id) s2)
  end.

(** A closing connection that still has subscriptions stays. *)
Definition to_clean (s : Server) (id : Z) : bool :=
  match connections s !! id with
  | Some c => is_closing c && negb (is_subscribed (pubsub s) id)
  | None => false
  end.

Definition cleanup_connections (s : Server) : Server :=
  foldl clean_connection s (filter (to_clean s) (all_connection_ids s)).

(** ** One turn of [run] *)

Record Turn := mkTurn {
  turn_arrivals : list (bytes * Z);  (** the address and the time of each *)
  turn_sockets : Z -> Socket;
  turn_time : Z;
}.

Definition on_srv (f : Server -> Server) (l : ServerLoop) : ServerLoop := mkLoop (f (srv l)) (pending_writes l) (next_id l).

(** An error of a wake-up, and a panic anywhere, ends the loop. *)
Definition run_turn (t : Turn) (w : World) (l : ServerLoop) : World * ServerLoop * outcome unit :=
  match server_process_wakeups (core (srv l)) with
  | (c, Ok _) =>
      let l1 := accept_connections (turn_arrivals t) (on_srv (set_core c) l) in
      match process_connections (turn_sockets t) w l1 with
      | (w', l2, Ok _) =>
          let l3 := on_srv (fun s => set_core (process_blocked_timeouts (turn_time t) (core s)).1 s) l2 in
          let l4 := process_pending_writes (turn_sockets t) l3 in
          (w', on_srv cleanup_connections l4, Ok tt)
      | r => r
      end
  | (c, Err e) => (w, on_srv (set_core c) l, Err e)
  | (c, Panic) => (w, on_srv (set_core c) l, Panic)
  end.

(** The loop, on the turns to come. *)
Fixpoint run (turns : list Turn) (w : World) (l : ServerLoop) : World * ServerLoop * outcome unit :=
  match turns with
  | [] => (w, l, Ok tt)
  | t :: turns' =>
      match run_turn t w l with
      | (w', l', Ok _) => run turns' w' l'
      | r => r
      end
  end.
End server_loop.
