(* ===== verification/Sample.v ===== *)
(** * A concrete server

    The interfaces with concrete implementations, a server with two connected
    clients and a way to write requests: what the examples of the server's
    theorems are evaluated on. *)

From S2P Require Import Prelude Text Resp SortedSet Value PubSub StreamId RespParser Connection Blocking Keyspace SkipList SortedSetImpl.
From S2P Require Import Rdb Command Replication LuaEngine Slowlog Blocking Info Server ServerLoop.

Open Scope Z_scope.

Definition example_process : Process := {| process_id := 4711 |}.

(** Every name is its own address. *)
Definition example_resolver : Resolver := {| to_socket_addrs name := Some [name] |}.

#[export] Existing Instance example_layout.
#[export] Existing Instance default_iter.
#[export] Existing Instance example_random.
#[export] Existing Instance example_process.
#[export] Existing Instance example_resolver.
#[export] Existing Instance ToyLua.toy_lua.
#[export] Existing Instance ascii_case.
#[export] Existing Instance BitText.bit_text.

(** Clocks that advance by a second with every reading. *)
Definition sample_world : World :=
  mkWorld (fun n => 1000000000 * (Z.of_nat n + 1)) (fun n => 1700000000000000000 + 1000000000 * Z.of_nat n) (fun _ => 0)
    (fun _ => false) clock_cache_new.

Definition request (words : list bytes) : RespFrame := Array (Some (map from_bytes words)).

(** Connections 1 and 2, on two databases. *)
Definition sample_server (password : option bytes) : Server SkipList :=
  let c := conn_new (B "127.0.0.1:6000") 0 in
  let c := if bool_decide (is_Some password) then c else set_state Authenticated c in
  mkSrv (mkServer (with_config 2 unlimited) (manager_new 2) (<[1 := c]> (<[2 := c]> ∅))) pubsub_new password 0 None 0
    (replication_new (B "8371b4fb1155b71f4a04d3e1bc3e18c4a990aeeb") 1048576) ∅
    ∅ slowlog_new (rdb_new None) false stats_new 0 100 false.

(** What a client gets for a batch of requests, and the server after it. *)
Definition answers (conn_id : Z) (s : Server SkipList) (requests : list RespFrame) : outcome (list RespFrame) :=
  (process_frames conn_id requests sample_world s).2.
Definition after (conn_id : Z) (s : Server SkipList) (requests : list RespFrame) : Server SkipList :=
  (process_frames conn_id requests sample_world s).1.2.

Example sample_get :
  answers 1 (sample_server None) [request [B "SET"; B "k"; B "v"]; request [B "get"; B "k"]; request [B "LPUSH"; B "k"; B "x"]]
  = Ok [ok; from_bytes (B "v"); error (B "WRONGTYPE Operation against a key holding the wrong kind of value")].
Proof. vm_compute. reflexivity. Qed.

(** The same server with the active monitoring: the slow log has the commands,
    and GET counts a lookup. *)
Definition monitored_server : Server SkipList :=
  let s := sample_server None in
  mkSrv (core s) (pubsub s) (password s) (paused_until s) (aof_file s) (changes_since_save s) (replication s) (monitor_subscribers s)
    (script_cache s) (slow_log s) (rdb_engine s) (aof_rewriting s) (stats s) (start_time s) (config_max_clients s) true.

Example sample_monitoring :
  let s := after 1 monitored_server [request [B "SET"; B "k"; B "v"]; request [B "GET"; B "k"]; request [B "EXISTS"; B "k"; B "z"]] in
  slow_len (slow_log s) = 3 /\ keyspace_hits (stats s) = 2 /\ keyspace_misses (stats s) = 1 /\ total_commands_processed (stats s) = 6.
Proof. vm_compute. repeat split. Qed.

(** A turn in which the clients send what [data] says and read one byte at a time. *)
Definition sample_turn (data : Z -> bytes) : Turn :=
  mkTurn [] (fun id => mkSocket (match data id with [] => IoErr IoWouldBlock | d => IoOk d end) (fun _ _ => IoOk 1%nat) 5) 6.

Definition sample_loop (password : option bytes) : ServerLoop SkipList := mkLoop (sample_server password) [] 3.

Definition run_sample (data : Z -> bytes) (l : ServerLoop SkipList) : World * ServerLoop SkipList * outcome unit :=
  run 32 64 0 [sample_turn data] sample_world l.

Definition wire (requests : list RespFrame) : bytes := concat (map encode requests).
