(* ===== verification/ServerSteps.v ===== *)
(** * The server takes the store through its steps

    MEMORY reads the store, SAVE and SYNC make an image of it, a script calls
    its commands.  From a command to a turn of the loop: whatever clients send,
    whatever their sockets do, the store only moves by the steps of
    EngineSteps.v.  So the invariants of those steps are invariants of the
    running server. *)

From S2P Require Import Prelude Text Resp SortedSet Value PubSub Rdb RespParser Connection Blocking Keyspace ListOps SetOps ZSetOps StringOps KeyspaceProofs EngineSteps EngineWatch.
From S2P Require Import Command CommandLogic CollectionCommands StringCommands ZSetCommands StreamCommands GroupCommands CommandSteps CommandParser Executor LuaEngine LuaProofs Slowlog AdminCommands Replication Info Server ServerLoop SkipList SortedSetImpl Sample.
From stdpp Require Import relations.

Open Scope Z_scope.

Section admin_proofs.
Context {ZS : Type} `{SortedSet ZS} `{Layout} `{HashIter} `{F64Text} `{Random} `{CaseMap}.

Abbreviation engine := (StorageEngine ZS).

Lemma list_usage_steps db key : keeps (S := engine) steps (list_usage db key).
Proof. unfold list_usage. cmd_steps; engine_step. Qed.
Lemma set_usage_steps db key : keeps (S := engine) steps (set_usage db key).
Proof. unfold set_usage. cmd_steps; engine_step. Qed.
Lemma hash_usage_steps db key : keeps (S := engine) steps (hash_usage db key).
Proof. unfold hash_usage. cmd_steps; engine_step. Qed.
Lemma zset_usage_steps db key : keeps (S := engine) steps (zset_usage db key).
Proof. unfold zset_usage. cmd_steps; engine_step. Qed.
Lemma string_usage_steps db key : keeps (S := engine) steps (string_usage db key).
Proof. unfold string_usage. cmd_steps; engine_step. Qed.

#[local] Hint Resolve list_usage_steps set_usage_steps hash_usage_steps zset_usage_steps string_usage_steps : keeps.

Lemma usage_steps db key : keeps (S := engine) steps (calculate_key_memory_usage db key).
Proof. unfold calculate_key_memory_usage, value_usage. cmd_steps; engine_step. Qed.

Lemma usage_of_steps db key : keeps (S := engine) steps (usage_of db key).
Proof.
  intros w e. split; [|done]. unfold usage_of. pose proof (keeps_state steps _ w e (usage_steps db key)) as Hu.
  by destruct (calculate_key_memory_usage db key w e) as [[w' e'] []].
Qed.

Lemma keeps_for_databases {A} (body : nat -> list bytes -> A -> cmd engine A) acc :
  (forall db keys a, keeps steps (body db keys a)) -> keeps steps (for_databases body acc).
Proof. intros Hb. unfold for_databases. cmd_steps; apply Hb. Qed.

Lemma key_line_steps x : keeps (S := engine) steps (key_line x).
Proof. destruct x as [[db key] size]. unfold key_line. cmd_steps; engine_step. Qed.

#[local] Hint Resolve usage_steps usage_of_steps key_line_steps : keeps.

Lemma memory_steps : takes_steps (ZS := ZS) handle_memory.
Proof.
  intros db parts. unfold handle_memory, handle_memory_usage, handle_memory_stats, handle_memory_doctor, largest_keys, memory_usage_of.
  cmd_steps; try engine_step; apply keeps_for_databases; intros; cmd_steps.
Qed.

(** ** The image of the store *)

Lemma write_snapshot_steps : keeps (S := engine) steps write_snapshot.
Proof. unfold write_snapshot, database_count_of. cmd_steps; engine_step. Qed.

Lemma generate_rdb_steps : keeps (S := engine) steps generate_rdb_bytes.
Proof. unfold generate_rdb_bytes, database_count_of. cmd_steps; engine_step. Qed.

Lemma save_steps r : keeps (S := engine) steps (save r).
Proof. unfold save. pose proof write_snapshot_steps. cmd_steps. Qed.
End admin_proofs.

#[export] Hint Resolve memory_steps : handlers.
#[export] Hint Resolve generate_rdb_steps save_steps : keeps.

(** ** The commands of the server *)

Section storage_commands.
Context {ZS : Type} `{SortedSet ZS} `{Layout} `{HashIter} `{F64Text} `{Random} `{CaseMap} `{Mlua}.

Lemma find_command_in {A} name (l : list (bytes * A)) a : find_command name l = Some a -> (name, a) ∈ l.
Proof.
  induction l as [|[n b] l IH]; [done|]. simpl. case_bool_decide as E.
  - intros [= ->]. subst. by left.
  - intros. right. auto.
Qed.

Lemma all_commands_step : Forall (fun nh => takes_steps nh.2) (storage_commands (ZS := ZS)).
Proof. unfold storage_commands. repeat (apply List.Forall_cons; [cbn [snd]; solve [auto with handlers]|]). apply List.Forall_nil. Qed.

Lemma command_steps name h : find_command name (storage_commands (ZS := ZS)) = Some h -> takes_steps h.
Proof.
  intros Hh%find_command_in. pose proof all_commands_step as Hall. rewrite Forall_forall in Hall.
  exact (Hall _ Hh).
Qed.
End storage_commands.

(** ** INFO *)

Section info_steps.
Context {ZS : Type} `{SortedSet ZS} `{Layout} `{HashIter} `{F64Text} `{Random} `{CaseMap} `{Process}.
Abbreviation engine := (StorageEngine ZS).

Definition stored_steps (a b : engine * ServerStats) : Prop := steps a.1 b.1.

#[local] Instance stored_refl : Reflexive stored_steps.
Proof. intros a. unfold stored_steps. reflexivity. Qed.
#[local] Instance stored_trans : Transitive stored_steps.
Proof. intros a b c Hab Hbc. unfold stored_steps in *. by etrans. Qed.

Lemma count_expiring_steps db keys : keeps (S := engine) steps (count_expiring db keys).
Proof. unfold count_expiring. cmd_steps; engine_step. Qed.
#[local] Hint Resolve count_expiring_steps : keeps.

Lemma keyspace_info_steps : keeps (S := engine) steps append_keyspace_info.
Proof. unfold append_keyspace_info. cmd_steps; engine_step. Qed.

Lemma on_stored_steps {A} (h : cmd engine A) : keeps steps h -> keeps stored_steps (on_stored h).
Proof.
  intros Hh w [e st]. unfold on_stored, stored_steps. cbn [fst]. pose proof (keeps_state steps h w e Hh) as Hs.
  destruct (h w e) as [[w' e'] r]. by split.
Qed.

Lemma in_section_steps asked name text output : keeps stored_steps text -> keeps stored_steps (in_section (ZS := ZS) asked name text output).
Proof.
  intros Ht. unfold in_section. destruct (match asked with None => _ | Some s => _ end); [|by apply (runs_ret stored_steps)].
  eapply runs_bind; [exact _|exact Ht|]. intros t _. by apply (runs_ret stored_steps).
Qed.

Lemma uptime_steps t : keeps stored_steps (uptime_secs (ZS := ZS) t).
Proof. unfold uptime_secs. cmd_steps. Qed.

Lemma handle_info_steps t n limit m parts : keeps stored_steps (handle_info (ZS := ZS) t n limit m parts).
Proof.
  assert (Hm : keeps stored_steps (append_memory_info (ZS := ZS))) by (intros w [e st]; split; [unfold stored_steps; reflexivity|done]).
  assert (Hs : keeps stored_steps (append_stats_info (ZS := ZS) t)).
  { eapply runs_bind; [exact _|apply uptime_steps|]. intros u _ w es. split; [reflexivity|done]. }
  assert (Hv : keeps stored_steps (append_server_info (ZS := ZS) t)).
  { eapply runs_bind; [exact _|apply uptime_steps|]. intros u _. by apply (runs_ret stored_steps). }
  unfold handle_info.
  repeat (eapply runs_bind; [exact _|apply in_section_steps|intros ? _]);
    first [exact Hm|exact Hs|exact Hv|apply on_stored_steps, keyspace_info_steps|by apply (runs_ret stored_steps)|intros w es; split; [reflexivity|done]].
Qed.
End info_steps.

Section server_steps.
Context {ZS : Type} `{SortedSet ZS} `{Layout} `{HashIter} `{F64Text} `{Random} `{CaseMap} `{Mlua} `{Resolver} `{Process}.
Abbreviation engine := (StorageEngine ZS).
Abbreviation Server := (Server ZS).

(** The store between two states of the server. *)
Definition moves (s s' : Server) : Prop := rtc (store_step true) (storage s) (storage s').

#[local] Instance moves_refl : Reflexive moves.
Proof. intros s. apply rtc_refl. Qed.
#[local] Instance moves_trans : Transitive moves.
Proof. intros a b c Hab Hbc. unfold moves in *. by etrans. Qed.

Lemma steps_true (e e' : engine) : steps e e' -> rtc (store_step true) e e'.
Proof.
  apply rtc_subrel. intros a b Hs. destruct Hs as [? ? ? Hk| | | | |]; [by eapply ss_key|constructor..]. done.
Qed.

Lemma moves_same (s s' : Server) : storage s' = storage s -> moves s s'.
Proof. intros E. unfold moves. rewrite E. apply rtc_refl. Qed.

Lemma on_engine_moves {A} (h : cmd engine A) : keeps steps h -> keeps moves (on_engine h).
Proof.
  intros Hh w s. unfold on_engine. pose proof (keeps_state steps h w (storage s) Hh) as Hs.
  destruct (h w (storage s)) as [[w' e] r]. split; [|done]. by apply steps_true.
Qed.

(** What leaves the store alone. *)
Lemma on_conn_storage id f (s : Server) : storage (on_conn id f s) = storage s.
Proof. done. Qed.
Lemma send_to_storage id f (s : Server) : storage (send_to id f s) = storage s.
Proof. done. Qed.
Lemma set_pubsub_storage p (s : Server) : storage (set_pubsub p s) = storage s.
Proof. done. Qed.

Lemma foldl_storage {X} (f : Server -> X -> Server) (l : list X) (s : Server) :
  (forall s x, storage (f s x) = storage s) -> storage (foldl f s l) = storage s.
Proof. intros Hf. revert s. induction l as [|x l IH]; intros s; simpl; [done|]. by rewrite IH. Qed.

Lemma propagate_storage parts (s : Server) : storage (propagate parts s) = storage s.
Proof. unfold propagate. destruct (propagate_command _ _) as [r [ids|e|]]; [|done..]. by rewrite foldl_storage. Qed.

Lemma append_aof_storage parts (s : Server) : storage (append_aof parts s) = storage s.
Proof. unfold append_aof. by destruct (aof_file s). Qed.

Lemma notify_storage db parts f (s : Server) : storage (notify_after_push db parts f s) = storage s.
Proof.
  unfold notify_after_push. destruct f; try done. destruct (parts !! 1%nat) as [[| | |[b|]| | | | | | |]|]; try done.
  destruct (_ && _); [|done]. unfold notify_push, storage. simpl. by destruct (has_blocked_clients _ _ _).
Qed.

Lemma after_storage_storage name db parts f (s : Server) : storage (after_storage name db parts f s) = storage s.
Proof.
  unfold after_storage. destruct (bool_decide _); [apply notify_storage|]. unfold record_cache_hits. destruct (monitoring s); [|done].
  destruct f as [| | |[]| | | | | | |]; try done; by destruct (bool_decide _).
Qed.

Lemma pure_get_server : pure_cmd (get_server (ZS := ZS)).
Proof. done. Qed.

Lemma modify_moves f : (forall s : Server, storage (f s) = storage s) -> runs moves (modify f) (fun _ => True).
Proof. intros Hf w s. split; [|done]. apply moves_same, Hf. Qed.

Lemma with_connection_moves {A} id (f : Connection -> cmd Server A) :
  (forall c, keeps moves (f c)) -> runs moves (with_connection id f) (fun _ => True).
Proof.
  intros Hf. eapply runs_bind; [exact _|apply runs_pure; [exact _|exact pure_get_server|exact (fun _ => I)]|].
  intros s _. destruct (connections s !! id); [apply Hf|apply runs_reply_error; exact _].
Qed.

Lemma on_engine_runs {A} (h : cmd engine A) : keeps steps h -> runs moves (on_engine h) (fun _ => True).
Proof. apply on_engine_moves. Qed.

#[local] Hint Resolve pure_get_server : cmd.
#[local] Hint Extern 2 (runs _ (on_engine _) _) =>
  apply on_engine_runs; first [solve [auto with handlers] | solve [cmd_steps; engine_step]] : cmd.
#[local] Hint Extern 2 (runs _ (modify _) _) => apply modify_moves : cmd.

Ltac server_steps := cmd_steps; try solve [apply moves_same; done].

(** ** The blocking pops *)

Lemma pop_steps pop : (forall (e : engine) db key, steps e (pop e db key).1) -> forall keys (e : engine) db,
  steps e (pop_first_ready pop e db keys).1.
Proof.
  intros Hpop keys. induction keys as [|k keys IH]; intros e db; simpl; [reflexivity|].
  specialize (Hpop e db k). destruct (pop e db k) as [e' [[v|]|err|]]; simpl in *; try done. etrans; [done|apply IH].
Qed.

Lemma store_pop_steps op (e : engine) db key :
  steps e ((match op with BRPop => store_rpop | _ => store_lpop end) e db key).1.
Proof. eapply one_key_step. destruct op; [apply (ks_lpop db key e)|apply (ks_rpop db key e)|apply (ks_lpop db key e)]. Qed.

Lemma block_on_moves t op (c : server (S := engine)) db id keys timeout :
  rtc (store_step true) (store c) (store (block_on t op c db id keys timeout).1).
Proof.
  apply steps_true. unfold block_on.
  pose proof (pop_steps _ (store_pop_steps op) keys (store c) db) as Hp.
  destruct (pop_first_ready _ _ _ _) as [st [[[k v]|]|err|]]; simpl in *; try done.
  destruct (match timeout with Some _ => _ | None => _ end) as [d| |]; [|done..].
  by destruct (register_blocked _ _ _ _ _ _ _) as [m [[]| |]].
Qed.

Lemma blocking_pop_moves name op id db parts : keeps moves (blocking_pop (ZS := ZS) name op id db parts).
Proof.
  unfold blocking_pop. server_steps.
  pose proof (block_on_moves a2 op (core s) db id a1 a0) as Hb. unfold moves.
  by destruct (block_on _ _ _ _ _ _ _) as [c r].
Qed.

(** ** A command *)

Lemma auth_moves id parts : keeps moves (handle_auth (ZS := ZS) id parts).
Proof. unfold handle_auth. server_steps. Qed.

Lemma select_moves id parts : keeps moves (handle_select (ZS := ZS) id parts).
Proof. unfold handle_select. server_steps. Qed.

Lemma info_moves parts : keeps moves (info_command (ZS := ZS) parts).
Proof.
  intros w s. split; [|done]. unfold info_command.
  match goal with |- context [handle_info ?t ?n ?l ?m ?p w ?es] => pose proof (keeps_state stored_steps _ w es (handle_info_steps t n l m p)) as Hs;
    destruct (handle_info t n l m p w es) as [[w' [e st]] r] end.
  by apply steps_true.
Qed.

Lemma engine_result_moves {A} (h : cmd engine A) : keeps steps h -> runs moves (engine_result h) (fun _ => True).
Proof.
  intros Hh w s. split; [|done]. unfold engine_result. pose proof (keeps_state steps h w (storage s) Hh) as Hs.
  destruct (h w (storage s)) as [[w' e] []]; by apply steps_true.
Qed.

#[local] Hint Extern 2 (runs _ (engine_result _) _) => apply engine_result_moves; solve [auto with keeps] : cmd.

Lemma evalsha_moves parts : keeps moves (handle_evalsha_command (ZS := ZS) parts).
Proof. unfold handle_evalsha_command. server_steps. Qed.

Lemma script_moves parts : keeps moves (handle_script_command (ZS := ZS) parts).
Proof. unfold handle_script_command. server_steps. Qed.

Lemma close_moves id : keeps moves (close_connection (ZS := ZS) id).
Proof. unfold close_connection. server_steps. Qed.

#[local] Hint Resolve close_moves : keeps.

Lemma client_moves parts id : keeps moves (handle_client (ZS := ZS) parts id).
Proof. unfold handle_client. server_steps. Qed.

Lemma rdb_save_moves : keeps moves (rdb_save (ZS := ZS)).
Proof. unfold rdb_save. server_steps. Qed.

#[local] Hint Resolve rdb_save_moves : keeps.

Lemma shutdown_moves parts : keeps moves (handle_shutdown (ZS := ZS) parts).
Proof. unfold handle_shutdown. server_steps. Qed.

Lemma full_sync_moves : keeps moves (perform_full_sync (ZS := ZS)).
Proof. unfold perform_full_sync. server_steps. Qed.

Lemma replicaof_moves parts : keeps moves (replicaof_command (ZS := ZS) parts).
Proof. unfold replicaof_command. server_steps. destruct (handle_replicaof _ _ _) as [m x]. by apply moves_same. Qed.

Lemma slowlog_moves parts : keeps moves (handle_slowlog_command (ZS := ZS) parts).
Proof.
  intros w s. split; [|done]. unfold handle_slowlog_command. destruct (handle_slowlog parts w (slow_log s)) as [[w' l] r].
  by apply moves_same.
Qed.

Lemma answer_of_moves h : keeps moves h -> keeps moves (answer_of (ZS := ZS) h).
Proof.
  intros Hh w s. split; [|done]. unfold answer_of. pose proof (keeps_state moves h w s Hh) as Hs.
  by destruct (h w s) as [[w' s'] []].
Qed.

#[local] Hint Extern 1 (keeps moves (answer_of (handle_config _))) => apply answer_of_moves; unfold handle_config; server_steps : keeps.

Lemma config_moves parts : keeps moves (handle_config_command (ZS := ZS) parts).
Proof. unfold handle_config_command, config_slowlog. server_steps. Qed.

Lemma server_command_moves db id parts name h :
  find_command name (server_commands (ZS := ZS) db id parts) = Some h -> keeps moves h.
Proof.
  intros Hh%find_command_in. unfold server_commands in Hh.
  repeat (apply elem_of_cons in Hh as [[= _ ->]|Hh];
    [first [apply select_moves|apply blocking_pop_moves|apply auth_moves|apply info_moves|apply evalsha_moves|apply script_moves
           |apply client_moves|apply shutdown_moves|apply full_sync_moves|apply replicaof_moves|apply slowlog_moves|apply config_moves
           |cbv beta; server_steps]|]).
  by apply elem_of_nil in Hh.
Qed.

Lemma route_moves name db id parts : keeps moves (route (ZS := ZS) name db id parts).
Proof.
  unfold route. destruct (find_command name storage_commands) as [h|] eqn:Hf.
  - apply command_steps in Hf. pose proof (on_engine_moves _ (Hf db parts)) as Hh. destruct (bool_decide _); [|exact Hh].
    eapply runs_bind; [exact _|by apply answer_of_moves|]. intros f _.
    eapply runs_bind; [exact _|apply modify_moves, after_storage_storage|]. intros _ _. by apply (runs_ret moves).
  - destruct (find_command name (server_commands _ _ _)) as [h|] eqn:Hs; [by eapply server_command_moves|server_steps].
Qed.

Lemma timing_moves : keeps moves (start_timing (ZS := ZS)).
Proof. unfold start_timing. server_steps. Qed.

Lemma completion_moves start parts id db : keeps moves (record_completion (ZS := ZS) start parts id db).
Proof. unfold record_completion, record_command_timing. server_steps. Qed.
#[local] Hint Resolve completion_moves : keeps.

Lemma complete_moves db id parts writes start r : keeps moves (complete_command (ZS := ZS) db id parts writes start r).
Proof.
  unfold complete_command. server_steps; apply modify_moves; intros s; destruct (_ && _); [done|done|apply propagate_storage|done].
Qed.

Lemma normal_moves db id parts : keeps moves (process_normal_command (ZS := ZS) db id parts).
Proof.
  unfold process_normal_command. destruct parts as [|f parts]; [by apply (runs_crash moves)|].
  destruct f as [| | |[b|]| | | | | | |]; try by apply (runs_ret moves). cbv zeta.
  eapply runs_bind; [exact _|apply timing_moves|]. intros start _.
  eapply runs_bind; [exact _|apply modify_moves; intros s; destruct (is_write_command _); [apply append_aof_storage|done]|]. intros _ _ w s.
  split; [|done]. pose proof (keeps_state moves _ w s (route_moves (to_uppercase b) db id (BulkString (Some b) :: parts))) as Hr.
  destruct (route _ db id _ w s) as [[w' s'] [f|f|e|]]; simpl in Hr |- *; [| |  |exact Hr].
  2: destruct (answers_early _); [exact Hr|].
  all: etrans; [exact Hr|apply (keeps_state moves), complete_moves].
Qed.

Lemma run_queue_moves db commands results : keeps moves (run_queue (ZS := ZS) db commands results).
Proof.
  revert results. induction commands as [|parts commands IH]; intros results; cbn [run_queue]; [server_steps|].
  intros w s. split; [|done]. pose proof (run_handler_state moves _ w s (normal_moves db 0 parts)) as Hr.
  destruct (run_handler _ w s) as [[w' s'] [f|e|]]; simpl in *; [| |done];
    (etrans; [exact Hr|]); apply (keeps_state moves), IH.
Qed.

Lemma check_watched_moves db keys : keeps moves (check_watched (ZS := ZS) db keys).
Proof.
  induction keys as [|[key baseline] keys IH]; cbn [check_watched]; server_steps.
Qed.

#[local] Hint Resolve check_watched_moves run_queue_moves normal_moves : keeps.

Lemma exec_moves id : keeps moves (handle_exec (ZS := ZS) id).
Proof. unfold handle_exec. server_steps. Qed.

(** ** A request *)

Lemma watch_loop_steps db frames : forall (e : engine) watched, rtc (store_step true) e (watch_loop db e frames watched).1.1.
Proof.
  induction frames as [|[| | |[k|]| | | | | | |] frames IH]; intros e watched; simpl; try reflexivity.
  assert (Hk : rtc (store_step true) e (watch_key db e k).1).
  { unfold watch_key. pose proof (ss_watch true e db k) as Hw. destruct (register_watch e db k) as [e1 [b|err|]]; simpl in *;
      [by apply rtc_once| |by apply rtc_once].
    pose proof (get_modification_counter_same e1 db k) as Hc. destruct (get_modification_counter e1 db k) as [e2 []]; simpl in *;
      subst; by apply rtc_once. }
  destruct (watch_key db e k) as [e' [b|err|]]; simpl in *; try done. etrans; [exact Hk|apply IH].
Qed.

Lemma watch_steps c (e : engine) parts : rtc (store_step true) e (handle_watch e c parts).1.1.
Proof.
  unfold handle_watch. destruct (_ <? _)%nat; [reflexivity|]. destruct (in_transaction _); [reflexivity|].
  pose proof (watch_loop_steps (conn_db c) (drop 1 parts) e (watched_keys (transaction_state c))) as Hw.
  by destruct (watch_loop _ _ _ _) as [[e' watched] r].
Qed.

Lemma unwatch_steps c (e : engine) : rtc (store_step true) e (handle_unwatch e c).1.1.
Proof.
  unfold handle_unwatch. simpl. generalize (map_iter (watched_keys (transaction_state c))).*1. intros l. revert e.
  induction l as [|k l IH]; intros e; simpl; [reflexivity|]. eapply rtc_l; [by apply (ss_unwatch true e (conn_db c) k)|apply IH].
Qed.

Lemma conn_command_moves id h : keeps moves (conn_command (ZS := ZS) id h).
Proof. apply with_connection_moves. intros c. destruct (h c) as [c' f]. server_steps. Qed.

Lemma watch_command_moves id parts : keeps moves (watch_command (ZS := ZS) id parts).
Proof.
  apply with_connection_moves. intros c. server_steps. pose proof (watch_steps c (storage s) parts) as Hw.
  by destruct (handle_watch _ _ _) as [[e' c'] r].
Qed.

Lemma unwatch_command_moves id : keeps moves (unwatch_command (ZS := ZS) id).
Proof.
  apply with_connection_moves. intros c. server_steps. pose proof (unwatch_steps c (storage s)) as Hw.
  by destruct (handle_unwatch _ _) as [[e' c'] r].
Qed.

Lemma publish_moves parts : keeps moves (handle_publish (ZS := ZS) parts).
Proof. unfold handle_publish. server_steps. apply modify_moves. intros s. by rewrite foldl_storage. Qed.

Lemma send_results_storage id format results (s : Server) : storage (send_results id format results s) = storage s.
Proof. unfold send_results. by rewrite foldl_storage. Qed.

Lemma subscribe_moves name bad op format id parts : keeps moves (subscribe_command (ZS := ZS) name bad op format id parts).
Proof.
  unfold subscribe_command. server_steps. destruct (op _ _ _) as [p results]. apply moves_same. simpl.
  by rewrite send_results_storage.
Qed.

Lemma unsubscribe_moves bad op format id parts : keeps moves (unsubscribe_command (ZS := ZS) bad op format id parts).
Proof.
  unfold unsubscribe_command. server_steps. destruct (op _ _ _) as [p results]. apply moves_same. simpl.
  by rewrite send_results_storage.
Qed.

Lemma replconf_moves id parts : keeps moves (replconf_command (ZS := ZS) id parts).
Proof.
  apply with_connection_moves. intros c. server_steps. destruct (handle_replconf _ _ _ _) as [r x]. by apply moves_same.
Qed.

Lemma control_moves command id parts h : control_command (ZS := ZS) command id parts = Some h -> keeps moves h.
Proof.
  intros Hh%find_command_in. unfold control_command in Hh.
  repeat (apply elem_of_cons in Hh as [[= _ ->]|Hh];
    [first [apply conn_command_moves|apply exec_moves|apply watch_command_moves|apply unwatch_command_moves|apply publish_moves
           |apply subscribe_moves|apply unsubscribe_moves|apply auth_moves|apply replconf_moves
           |unfold handle_monitor; server_steps]|]).
  by apply elem_of_nil in Hh.
Qed.

Lemma process_frame_moves frame id : keeps moves (process_frame (ZS := ZS) frame id).
Proof.
  unfold process_frame. destruct frame as [| | | |[[|[| | |[b|]| | | | | | |] args]|]| | | | | |];
    try (apply runs_reply_error; exact _).
  apply with_connection_moves. intros c. eapply runs_bind; [exact _|apply runs_pure; [exact _|exact pure_get_server|exact (fun _ => I)]|].
  intros s0 _. destruct (_ && _).
  - unfold before_auth. repeat case_bool_decide; [apply auth_moves|apply on_engine_moves, ping_steps|server_steps..].
  - destruct (control_command _ _ _) as [h|] eqn:Hh; [by eapply control_moves|].
    destruct (_ && _); [apply conn_command_moves|]. unfold unpaused. case_bool_decide; [apply normal_moves|].
    server_steps.
Qed.

(** ** The loop *)

Context (frame_size pair_size idle_timeout : Z).

Lemma start_replica_moves id t : keeps moves (start_replica (ZS := ZS) id t).
Proof. unfold start_replica. server_steps. destruct (add_replica _ _) as [r x]. by apply moves_same. Qed.

#[local] Hint Resolve start_replica_moves process_frame_moves : keeps.

#[local] Hint Extern 1 (keeps moves (answer_of _)) => apply answer_of_moves, full_sync_moves : keeps.

Lemma sync_command_moves command parts id : keeps moves (handle_sync_command (ZS := ZS) command parts id).
Proof. unfold handle_sync_command. server_steps. Qed.

#[local] Hint Resolve sync_command_moves : keeps.

Lemma process_request_moves f id : keeps moves (process_request (ZS := ZS) f id).
Proof. unfold process_request. server_steps. Qed.

Lemma process_frames_moves id frames : forall w (s : Server), moves s (process_frames id frames w s).1.2.
Proof.
  induction frames as [|f frames IH]; intros w s; cbn [process_frames]; [reflexivity|].
  pose proof (run_handler_state moves _ w (on_stats count_command s) (process_request_moves f id)) as Hr.
  change (moves s (run_handler (process_request f id) w (on_stats count_command s)).1.2) in Hr.
  destruct (run_handler _ w (on_stats count_command s)) as [[w1 s1] [x|e|]]; simpl in *; [|done..].
  specialize (IH w1 s1). destruct (process_frames id frames w1 s1) as [[w2 s2] r]. etrans; [exact Hr|exact IH].
Qed.

Lemma process_connection_moves k id w (s : Server) :
  moves s (process_connection frame_size pair_size idle_timeout k id w s).1.2.
Proof.
  unfold process_connection. destruct (connections s !! id) as [c|]; [|reflexivity].
  destruct (first_phase _ _ _ k c) as [[c1 sent1] [frames b|e|]]; try by apply moves_same.
  assert (Hs : moves s (on_conn id (fun _ => c1) s)) by by apply moves_same.
  pose proof (process_frames_moves id frames w (on_conn id (fun _ => c1) s)) as Hf.
  destruct (process_frames _ _ _ _) as [[w2 s2] [l|e|]]; simpl in *; [|by etrans..].
  etrans; [exact Hs|]. etrans; [exact Hf|]. destruct (connections s2 !! id) as [c2|]; [|reflexivity].
  destruct (third_phase _ _ _ _ _ _ _) as [[c3 sent2] r]. by apply moves_same.
Qed.

Lemma visit_moves k ids : forall w (s : Server),
  moves s (visit_connections frame_size pair_size idle_timeout k ids w s).1.2.
Proof.
  induction ids as [|id ids IH]; intros w s; cbn [visit_connections]; [reflexivity|].
  pose proof (process_connection_moves (k id) id w s) as Hp.
  destruct (process_connection _ _ _ _ _ _ _) as [[w1 s1] [sent r]]. simpl in Hp. specialize (IH w1 s1).
  destruct (visit_connections _ _ _ _ _ _ _) as [[w2 s2] rest]. destruct r; simpl in *; [|by etrans..|done].
  by etrans.
Qed.

Lemma drop_failed_storage (s : Server) ids : storage (foldl drop_failed s ids) = storage s.
Proof. apply foldl_storage. intros s' id. unfold drop_failed. by destruct (connections s' !! id). Qed.

Lemma cleanup_storage (s : Server) : storage (cleanup_connections s) = storage s.
Proof. apply foldl_storage. intros s' id. unfold clean_connection. by destruct (connections s' !! id). Qed.

Lemma wake_moves (c : server (S := engine)) : rtc (store_step true) (store c) (store (server_process_wakeups c).1).
Proof.
  unfold server_process_wakeups. destruct (process_wakeups (blocking c)) as [m ws].
  assert (Hw : forall ws c, rtc (store_step true) (store c) (store (wake_all (S := engine) c ws).1)).
  { clear. intros ws. induction ws as [|w ws IH]; intros c; simpl; [reflexivity|].
    assert (Hc : rtc (store_step true) (store c) (store (wake_client c w).1)).
    { unfold wake_client. destruct (wr_op w); [| |reflexivity].
      - pose proof (steps_true _ _ (store_pop_steps BLPop (store c) (wr_db w) (wr_key w))) as Hp.
        cbv beta iota in Hp. by destruct (store_lpop _ _ _) as [st [[v|]| |]].
      - pose proof (steps_true _ _ (store_pop_steps BRPop (store c) (wr_db w) (wr_key w))) as Hp.
        cbv beta iota in Hp. by destruct (store_rpop _ _ _) as [st [[v|]| |]]. }
    destruct (wake_client c w) as [c' [[]|e|]]; simpl in *; [|done..]. etrans; [exact Hc|apply IH]. }
  destruct ws as [|w ws]; [reflexivity|]. specialize (Hw (w :: ws) (mkServer (store c) m (conns c))).
  by destruct (wake_all _ _) as [c2 [| |]].
Qed.

Lemma timeouts_store now (c : server (S := engine)) : store (process_blocked_timeouts now c).1 = store c.
Proof.
  unfold process_blocked_timeouts. destruct (process_timeouts now (blocking c)) as [m [|i l]]; [done|]. simpl.
  set (c0 := update_conn i expire_conn (mkServer (store c) m (conns c))). change (store c) with (store c0). generalize c0.
  induction l as [|j l IH]; intros c1; simpl; [done|]. by rewrite IH.
Qed.

Lemma pending_storage k (l : ServerLoop ZS) : storage (srv (process_pending_writes k l)) = storage (srv l).
Proof.
  unfold process_pending_writes.
  assert (Hp : forall ids (s : Server) still, storage (foldl (retry_write k) (s, still) ids).1 = storage s).
  { induction ids as [|id ids IH]; intros s still; [done|]. cbn [foldl]. unfold retry_write at 2.
    destruct (connections s !! id) as [c|]; [|apply IH].
    destruct (flush_on (k id) 3 c) as [[c' sent] [[]|[]|]]; by rewrite IH. }
  specialize (Hp (pending_writes l) (srv l) []). by destruct (foldl _ _ _).
Qed.

Lemma accept_storage arrivals (l : ServerLoop ZS) : storage (srv (accept_connections arrivals l)) = storage (srv l).
Proof.
  unfold accept_connections. generalize (take 10 arrivals). intros ts. revert l.
  induction ts as [|t ts IH]; intros l; [done|]. simpl. rewrite IH. unfold accept_connection. by destruct (_ <=? _).
Qed.

Lemma run_turn_moves t w (l : ServerLoop ZS) :
  rtc (store_step true) (storage (srv l))
    (storage (srv (run_turn frame_size pair_size idle_timeout t w l).1.2)).
Proof.
  unfold run_turn. pose proof (wake_moves (core (srv l))) as Hw.
  destruct (server_process_wakeups (core (srv l))) as [c [b|e|]]; simpl in Hw; [|done..].
  etrans; [exact Hw|]. set (l1 := accept_connections _ _).
  assert (E1 : storage (srv l1) = store c) by (subst l1; by rewrite accept_storage). rewrite <- E1. clearbody l1.
  unfold process_connections.
  match goal with |- context [visit_connections _ _ _ _ ?ids _ _] => pose proof (visit_moves (turn_sockets t) ids w (srv l1)) as Hv end.
  destruct (visit_connections _ _ _ _ _ _ _) as [[w' s'] [[pending failed]|e|]]; simpl in Hv |- *; [|exact Hv..].
  rewrite cleanup_storage, pending_storage. simpl. unfold storage. simpl. rewrite timeouts_store.
  unfold moves in Hv. rewrite <- (drop_failed_storage s' failed) in Hv. exact Hv.
Qed.

Lemma run_moves turns : forall w (l : ServerLoop ZS),
  rtc (store_step true) (storage (srv l))
    (storage (srv (run frame_size pair_size idle_timeout turns w l).1.2)).
Proof.
  induction turns as [|t turns IH]; intros w l; cbn [run]; [reflexivity|].
  pose proof (run_turn_moves t w l) as Ht. destruct (run_turn _ _ _ t w l) as [[w' l'] [[]|e|]]; simpl in *; [|done..].
  etrans; [exact Ht|apply IH].
Qed.

Context `{!SortedSetSpec ZS}.

(** C7. The server runs the store.  Whatever clients send, in whatever pieces
    and order, whatever their sockets do and whenever they connect, leave, block
    or time out: any number of turns of the loop takes the store from its state
    to a state it reaches by steps of the engine alone.  So the databases and
    shards stay in place, and a store without an empty list, set or hash never
    gets one. *)
Theorem server_runs_store (turns : list Turn) (w : World) (l : ServerLoop ZS) :
  let e := storage (srv l) in
  let e' := storage (srv (run frame_size pair_size idle_timeout turns w l).1.2) in
  rtc (store_step true) e e' /\ shape e' = shape e
  /\ (no_empty e -> forall db key,
        value_of e' db key <> Some (VList []) /\ value_of e' db key <> Some (VSet ∅) /\ value_of e' db key <> Some (VHash ∅)).
Proof.
  intros e e'. pose proof (run_moves turns w l) as Hrun. fold e e' in Hrun. split; [exact Hrun|]. clearbody e e'. split.
  - clear - Hrun SortedSetSpec0. induction Hrun as [|e1 e2 e3 Hs Hrun IH]; [done|]. rewrite IH. by eapply store_step_shape.
  - intros He db key. assert (He' : no_empty e').
    { clear - He Hrun SortedSetSpec0. induction Hrun as [|e1 e2 e3 Hs Hrun IH]; [done|]. eauto using store_step_no_empty. }
    unfold value_of. destruct (shard_at e' db key) as [sh|] eqn:E; [|done]. simpl. specialize (He' _ _ _ E).
    unfold nonempty_at in He'. split_and!; intros Hv; rewrite Hv in He'; done.
Qed.
End server_steps.

(** A client pushes an element and takes it back. *)
Lemma server_runs_store_witness :
  let data id := if id =? 1 then wire [request [B "LPUSH"; B "k"; B "a"]; request [B "LPOP"; B "k"]] else [] in
  let r := run_sample data (sample_loop None) in
  r.2 = Ok tt
  /\ rtc (store_step true) (with_config 2 unlimited) (storage (srv r.1.2))
  /\ value_of (storage (srv r.1.2)) 0 (B "k") <> Some (VList []).
Proof.
  intros data r.
  pose proof (server_runs_store 32 64 0 [sample_turn data] sample_world (sample_loop None)) as (Hrun & _ & Hv).
  split; [vm_compute; reflexivity|]. split; [exact Hrun|].
  exact (proj1 (Hv (no_empty_start 2 unlimited) 0%nat (B "k"))).
Defined.
