(* ===== verification/Startup.v ===== *)
(** * From a configuration to a running server, and back from its files
    (Server::from_config of src/network/server.rs, src/storage/aof.rs,
    src/storage/monitor.rs)

    What a server has when it starts: the store with what its files gave, and
    the settings it looks at.  The append-only file is read but nothing of it is
    replayed; the data of the last SAVE comes back.  Files are what a read of
    their path gives. *)

From S2P Require Import Prelude Text Resp SortedSet Value PubSub Rdb RespParser Connection Blocking Keyspace ListOps SetOps ZSetOps StringOps KeyspaceProofs CollectionProofs EngineSteps EngineWatch ScanSpec RdbCodec RdbRecords RdbRoundtrip RespProofs.
From S2P Require Import Command CommandLogic CommandSteps LuaEngine Slowlog Replication Info Server ServerLoop SkipList SortedSetImpl Sample ServerSteps Config.
From stdpp Require Import relations.

Open Scope Z_scope.

(** [PathBuf::from(dir).push(file)] *)
Definition path_push (dir file : bytes) : bytes :=
  if starts_with [slash] file then file
  else match rev dir with
       | [] => file
       | b :: _ => if b =b slash then dir ++ file else dir ++ slash :: file
       end.

(** ** The append-only file (src/storage/aof.rs) *)

Section aof.
Context `{CaseMap} (frame_size pair_size : Z).

Definition replayed_commands : list bytes :=
  [B "SET"; B "DEL"; B "EXPIRE"; B "LPUSH"; B "RPUSH"; B "SADD"; B "ZADD"; B "HSET"].

(** Both arms do nothing to the store. *)
Definition replay_command (parts : list RespFrame) : outcome unit :=
  match parts with
  | BulkString (Some b) :: _ => if bool_decide (to_uppercase b ∈ replayed_commands) then Ok tt else Ok tt
  | _ => Ok tt
  end.

(** [while let Some(frame) = parser.parse()? { .. }]; a frame takes a byte. *)
Fixpoint replay_frames (fuel : nat) (p : RespParser) : outcome RespParser :=
  match fuel with
  | O => Panic
  | S fuel' =>
      match parse frame_size pair_size p with
      | (p', Ok (Some frame)) =>
          let? _ := match frame with Array (Some ((_ :: _) as parts)) => replay_command parts | _ => Ok tt end in
          replay_frames fuel' p'
      | (p', Ok None) => Ok p'
      | (_, Err e) => Err e
      | (_, Panic) => Panic
      end
  end.

Fixpoint replay_lines (ls : list bytes) (p : RespParser) : outcome unit :=
  match ls with
  | [] => Ok tt
  | line :: ls' =>
      if negb (utf8_valid line) then Err (EIo not_utf8)
      else
        let p1 := feed (feed p line) [line_feed] in
        let? p2 := replay_frames (S (length (buffer p1))) p1 in
        replay_lines ls' p2
  end.

(** [AofEngine::load], of the content of the file. *)
Definition aof_load (content : bytes) : outcome unit := replay_lines (lines content) parser_new.
End aof.

(** ** Saving by itself (src/storage/monitor.rs) *)

Section auto_save.
Context {ZS : Type} `{SortedSet ZS} `{Layout} `{HashIter} `{Random}.

Abbreviation Server := (Server ZS).

(** The thread's rules and the time of its last save. *)
Record StorageMonitor := mkMonitor {
  monitor_rules : list (Z * Z);
  last_check_time : Z;
}.

(** A rule of [seconds] and a number of changes that asks for a save. *)
Definition rule_due (changes elapsed : Z) (rule : Z * Z) : bool :=
  (rule.2 <=? changes) && (rule.1 * 1000000000 <=? elapsed).

(** One turn of [monitor_loop]. *)
Definition monitor_turn (m : StorageMonitor) : cmd Server StorageMonitor :=
  let* t := system_time in
  let* s := get_server in
  if existsb (rule_due (changes_since_save s) (Z.max 0 (t - last_check_time m))) (monitor_rules m) then
    match bgsave (rdb_engine s) with
    | Ok rdb => let* _ := modify (fun s => set_changes 0 (set_rdb rdb s)) in ret (mkMonitor (monitor_rules m) t)
    | Err _ => ret m
    | Panic => crash
    end
  else ret m.

(** The thread that a background save starts. *)
Definition saving_thread : cmd Server unit :=
  let* s := get_server in
  let* r := engine_result (bgsave_thread (rdb_engine s)) in
  match r with
  | inl rdb => modify (set_rdb rdb)
  | inr _ => ret tt
  end.
End auto_save.

(** ** Starting *)

Section startup.
Context {ZS : Type} `{SortedSet ZS} `{Layout} `{HashIter} `{F64Text} `{Random} `{CaseMap} `{Mlua} `{Resolver} `{Process}.
Context (frame_size pair_size : Z).

Abbreviation engine := (StorageEngine ZS).
Abbreviation Server := (Server ZS).

(** What a server finds: whether it can listen, the files, and how an address is
    read ([str::parse::<SocketAddr>]). *)
Record Environment := mkEnvironment {
  listening : outcome unit;
  read_file : bytes -> option bytes;
  parse_address : bytes -> option bytes;
}.

Definition rdb_path (c : Config) : bytes := path_push (rdb_dir (rdb c)) (rdb_filename (rdb c)).
Definition aof_path (c : Config) : bytes := path_push (aof_dir (aof c)) (aof_filename (aof c)).

(** The content of the append-only file, which is made when it is not there. *)
Definition start_aof (c : Config) (env : Environment) : outcome (option bytes) :=
  if aof_enabled (aof c) then
    let content := default [] (read_file env (aof_path c)) in
    let? _ := aof_load frame_size pair_size content in
    Ok (Some content)
  else Ok None.

(** [if let Err(e) = op { eprintln!(..) }] *)
Definition only_report (m : cmd engine unit) : cmd engine unit := fun w e =>
  match m w e with
  | (w', e', Crash) => (w', e', Crash)
  | (w', e', _) => (w', e', Go tt)
  end.

Definition start_replication (c : Config) (env : Environment) (m : ReplicationManager) : ReplicationManager :=
  match master_host (replication_config c), master_port (replication_config c) with
  | Some host, Some p =>
      match parse_address env (host ++ B ":" ++ show_u64 p) with
      | Some addr => set_master [] m (Some addr)
      | None => m
      end
  | _, _ => m
  end.

(** [Server::from_config] on a new store, with the thread that saves by itself.
    The backlog is allocated at once. *)
Definition start_server (c : Config) (env : Environment) : cmd engine (Server * option StorageMonitor) :=
  let* _ := try_op (reads (fun _ => listening env)) in
  let* aof_content := try_op (reads (fun _ => start_aof c env)) in
  let* checked := system_time in
  let* r := draw in
  let* _ := try_op (reads (fun _ => with_capacity (backlog_size (replication_config c)) 1)) in
  let rdb_engine := rdb_new (read_file env (rdb_path c)) in
  let* _ := only_report (rdb_load rdb_engine) in
  let* started := system_time in
  fun w e =>
    let slowlog := set_max_len (slowlog_max_len (monitoring c)) (set_threshold_micros (slowlog_threshold_micros (monitoring c)) slowlog_new) in
    let m := monitoring c in
    let monitored := slowlog_enabled m || monitor_enabled m || stats_enabled m in
    let replication := start_replication c env (replication_new (generate_repl_id r) (backlog_size (replication_config c))) in
    let s := mkSrv (mkServer e (manager_new 16) ∅) pubsub_new (net_password (network c)) 0 aof_content 0 replication ∅ ∅ slowlog rdb_engine false
      stats_new started (max_clients (network c)) monitored in
    (w, e, Go (s, if auto_save (rdb c) then Some (mkMonitor (save_rules (rdb c)) checked) else None)).

Definition from_config (c : Config) (env : Environment) (w : World) : World * outcome (Server * option StorageMonitor) :=
  match start_server c env w engine_new with
  | (w', _, Go r) => (w', Ok r)
  | (w', _, Fail e) => (w', Err e)
  | (w', _, _) => (w', Panic)
  end.

(** [main] after the configuration: the server runs for some turns. *)
Definition serve (c : Config) (turns : list Turn) (w : World) (s : Server) : World * ServerLoop ZS * outcome unit :=
  run frame_size pair_size (net_timeout (network c)) turns w (mkLoop s [] 1).
End startup.

(** ** Loading keeps every key in its shard *)

Section loading.
Context {ZS : Type} `{SortedSet ZS} `{Layout} `{HashIter} `{Random} `{!SortedSetSpec ZS}.

Abbreviation engine := (StorageEngine ZS).

(** Keys stay in the shards of their hash, and no shard comes or goes. *)
Definition in_place (e e' : engine) : Prop := (placed (databases e) -> placed (databases e')) /\ shape e' = shape e.

#[export] Instance in_place_refl : Reflexive in_place.
Proof. by split. Qed.
#[export] Instance in_place_trans : Transitive in_place.
Proof. intros a b c [Ha1 Ha2] [Hb1 Hb2]. split; [auto|congruence]. Qed.

Lemma in_place_steps u (e e' : engine) : rtc (store_step u) e e' -> in_place e e'.
Proof.
  induction 1 as [e|e1 e2 e3 Hs _ IH]; [reflexivity|]. etrans; [|exact IH].
  split; [by eapply placed_step|by eapply store_step_shape].
Qed.

Lemma in_place_shard {A} (e : engine) db key (f : shard_op ZS A) :
  (forall mm sh k, k <> key -> is_Some (data (f mm sh).1.2 !! k) -> is_Some (data sh !! k)) -> in_place e (with_shard e db key f).1.
Proof. intros Hf. split; [intros Hp; by apply placed_with_shard|apply with_shard_shape]. Qed.

(** Also without any elements. *)
Lemma in_place_sadd now (e : engine) db key l : in_place e (sadd now e db key l).1.
Proof.
  apply in_place_shard. intros mm sh k Hk. unfold typed_op. destruct (data sh !! key) as [sv|].
  - destruct (as_set (value sv)); [|done]. destruct (insert_members _ l) as [s' n]. simpl. case_match; simpl; by rewrite lookup_insert_ne.
  - destruct (insert_members ∅ l). simpl. by rewrite lookup_insert_ne.
Qed.

Lemma in_place_hset now (e : engine) db key l : in_place e (hset now e db key l).1.
Proof.
  apply in_place_shard. intros mm sh k Hk. unfold typed_op. destruct (data sh !! key) as [sv|].
  - destruct (as_hash (value sv)); [|done]. destruct (insert_fields _ l) as [h' n]. simpl. by rewrite lookup_insert_ne.
  - simpl. by rewrite lookup_insert_ne.
Qed.

Lemma in_place_key db key (e e' : engine) : key_step db key e e' -> in_place e e'.
Proof. intros Hk. eapply (in_place_steps false), rtc_once, ss_key, Hk. Qed.

Definition loading_place (s s' : Loading ZS) : Prop := in_place (Rdb.store s) (Rdb.store s').

#[local] Instance loading_place_refl : Reflexive loading_place.
Proof. intros s. unfold loading_place. reflexivity. Qed.
#[local] Instance loading_place_trans : Transitive loading_place.
Proof. intros a b c Hab Hbc. unfold loading_place in *. by etrans. Qed.

Lemma on_store_place {A} (f : engine -> engine * outcome A) s :
  in_place (Rdb.store s) (f (Rdb.store s)).1 -> loading_place s (on_store f s).1.
Proof. unfold loading_place, on_store. by destruct (f (Rdb.store s)) as [e r]. Qed.

Lemma read_exact_keeps n : keeps loading_place (read_exact (ZS := ZS) n).
Proof. apply runs_try_op; [|done]. intros s. by case_match. Qed.

Ltac loading_steps := cmd_steps; try (apply on_store_place; first
  [ apply in_place_sadd | apply in_place_hset | eapply in_place_key; econstructor; nonempty_args || done ]).
#[local] Hint Resolve read_exact_keeps : keeps.

Lemma read_string_keeps : keeps loading_place (read_string (ZS := ZS)).
Proof. loading_steps. Qed.
#[local] Hint Resolve read_string_keeps : keeps.

Lemma repeat_read_keeps n body : keeps loading_place body -> keeps loading_place (repeat_read (ZS := ZS) n body).
Proof. intros Hb. induction n; cbn [repeat_read]; [by apply (runs_ret loading_place)|]. eapply runs_bind; [exact _|exact Hb|by intros]. Qed.

Lemma read_many_keeps {A} n (body : cmd (Loading ZS) A) : keeps loading_place body -> keeps loading_place (read_many n body).
Proof.
  intros Hb. induction n; cbn [read_many]; [by apply (runs_ret loading_place)|].
  eapply runs_bind; [exact _|exact Hb|]. intros x _. eapply runs_bind; [exact _|exact IHn|]. intros l _. by apply (runs_ret loading_place).
Qed.
#[local] Hint Extern 1 (keeps loading_place (repeat_read _ _)) => apply repeat_read_keeps; loading_steps : keeps.
#[local] Hint Extern 1 (keeps loading_place (read_many _ _)) => apply read_many_keeps; loading_steps : keeps.

Lemma set_ttl_keeps db key ttl : keeps loading_place (set_ttl (ZS := ZS) db key ttl).
Proof. loading_steps. Qed.
#[local] Hint Resolve set_ttl_keeps : keeps.

Lemma read_entries_keeps fuel : forall db key idx remaining, keeps loading_place (read_entries (ZS := ZS) fuel db key idx remaining).
Proof.
  induction fuel as [|fuel IH]; intros db key idx remaining; cbn [read_entries]; [by apply (runs_crash loading_place)|].
  loading_steps. all: apply IH.
Qed.
#[local] Hint Resolve read_entries_keeps : keeps.

Lemma read_value_keeps db ty ttl : keeps loading_place (read_key_value_with_type (ZS := ZS) db ty ttl).
Proof. loading_steps. Qed.
#[local] Hint Resolve read_value_keeps : keeps.

Lemma load_loop_keeps fuel : forall db, keeps loading_place (load_loop (ZS := ZS) fuel db).
Proof.
  induction fuel as [|fuel IH]; intros db; cbn [load_loop]; [by apply (runs_crash loading_place)|].
  loading_steps. all: apply IH.
Qed.

Lemma load_into_keeps : keeps loading_place (load_into (ZS := ZS)).
Proof.
  assert (Hh : keeps loading_place (read_header (ZS := ZS))) by loading_steps.
  apply (runs_bind loading_place _ _ _ _ Hh). intros _ _ w s. apply load_loop_keeps.
Qed.

Lemma rdb_load_in_place r w (e : engine) : in_place e (rdb_load r w e).1.2.
Proof.
  unfold rdb_load. destruct (rdb_file r) as [file|]; [|reflexivity].
  pose proof (keeps_state loading_place load_into w (mkLoading file e) load_into_keeps) as Hl. unfold loading_place in Hl. simpl in Hl.
  by destruct (load_into w (mkLoading file e)) as [[w' s'] r'].
Qed.
End loading.

(** ** The data of the last SAVE comes back *)

Section restart.
Context {ZS : Type} `{SortedSet ZS} `{Layout} `{HashIter} `{F64Text} `{Random} `{CaseMap} `{Mlua} `{Resolver} `{Process} `{!SortedSetSpec ZS}.
Context (frame_size pair_size : Z).

Abbreviation engine := (StorageEngine ZS).
Abbreviation Server := (Server ZS).
Abbreviation from_config := (from_config (ZS := ZS) frame_size pair_size).
Abbreviation serve := (serve (ZS := ZS) frame_size pair_size).

(** The store of a server that starts is what loading the file makes of a new one. *)
Lemma started_store c env w w' s mon : from_config c env w = (w', Ok (s, mon)) ->
  exists w1, storage s = (rdb_load (rdb_new (read_file env (rdb_path c))) w1 engine_new).1.2 /\ rdb_engine s = rdb_new (read_file env (rdb_path c))
    /\ with_capacity (backlog_size (replication_config c)) 1 = Ok tt.
Proof.
  unfold Startup.from_config, start_server, bind, try_op, reads, system_time, draw, only_report. cbn [fst snd].
  destruct (listening env); [|done..]. destruct (start_aof frame_size pair_size c env); [|done..]. cbn [fst snd].
  destruct (with_capacity _ 1) as [[]| |]; [|done..]. cbn [fst snd].
  match goal with |- context [rdb_load ?r ?w0 engine_new] => intros Hs; exists w0; revert Hs; destruct (rdb_load r w0 engine_new) as [[w1 e1] []] end;
    by intros [= <- <- _].
Qed.

Lemma starts_with_file c env w file a (P : engine -> Prop) : listening env = Ok tt -> start_aof frame_size pair_size c env = Ok a ->
  with_capacity (backlog_size (replication_config c)) 1 = Ok tt -> read_file env (rdb_path c) = Some file ->
  (forall w1, exists w2 e, rdb_load (rdb_new (Some file)) w1 engine_new = (w2, e, Go tt) /\ P e) ->
  exists w' s mon, from_config c env w = (w', Ok (s, mon)) /\ P (storage s) /\ connections s = ∅ /\ aof_file s = a.
Proof.
  intros Hl Ha Hcap Hf Hload. unfold Startup.from_config, start_server, bind, try_op, reads, system_time, draw, only_report. cbn [fst snd].
  rewrite Hl, Ha, Hcap, Hf. cbn [fst snd].
  match goal with |- context [rdb_load _ ?w0 engine_new] => destruct (Hload w0) as (w2 & e & -> & HP) end.
  eexists _, _, _. split; [reflexivity|]. by split_and!.
Qed.

Lemma in_place_new (e : engine) : in_place engine_new e -> placed (databases e) /\ shape e = replicate 16 SHARDS_PER_DATABASE.
Proof.
  intros [Hp Hs]. split; [apply Hp, placed_start|]. rewrite Hs. exact (run_shape false 0 16 unlimited _ (nsteps_O _ _)).
Qed.

(** Whatever the server does after it started, its keys are in their shards. *)
Lemma running_in_place c env w0 w1 s0 mon turns w : from_config c env w0 = (w1, Ok (s0, mon)) ->
  in_place engine_new (storage (srv (serve c turns w s0).1.2)).
Proof.
  intros (w2 & Hs & _ & _)%started_store. etrans; [|eapply in_place_steps, run_moves]. cbn [srv]. rewrite Hs. apply rdb_load_in_place.
Qed.

Lemma rdb_load_file r file w (e : engine) : rdb_file r = Some file -> rdb_load r w e = rdb_load (rdb_new (Some file)) w e.
Proof. unfold rdb_load. by intros ->. Qed.

Lemma save_has_file r w e w' e' r' : save (ZS := ZS) r w e = (w', e', Go r') -> exists file, rdb_file r' = Some file.
Proof.
  unfold save, bind. destruct (write_snapshot w e) as [[w1 e1] [file| | |]]; try done. unfold system_time, ret. intros [= _ _ <-]. by exists file.
Qed.

Lemma handle_save_exact w w' s r : save (rdb_engine s) w (storage s) = (w', storage s, Go r) ->
  run_handler (handle_save [bulk_string (B "SAVE")]) w s = (w', set_changes 0 (set_rdb r s), Ok ok).
Proof.
  intros Hs. unfold run_handler, handle_save. rewrite bind_guard by done. unfold rdb_save, engine_result, get_server, modify, bind, ret.
  rewrite Hs. destruct s as [c ? ? ? ? ? ? ? ? ? ? ? ? ? ? ?]. by destruct c.
Qed.

(** C21. What SAVE wrote is there after a restart.  A server starts from any
    configuration and any files and runs for any turns, whatever clients send
    and sockets do.  When SAVE is then called on a store whose values fit the
    file and whose keys have no time to live, it answers OK; and a server that is
    started later with the same configuration, and finds that file, starts
    without connections and with every key and value that the store had, and no
    key that it had not -- provided its append-only file, if it has one, does
    not keep it from starting. *)
Theorem restart_exact (c : Config) (env : Environment) (turns : list Turn) (w0 w1 w2 : World) (s0 : Server) (mon : option StorageMonitor)
    (Hdata : in_u64 size_stream_data) (Hstream : in_u64 size_stream)
    (Hstart : from_config c env w0 = (w1, Ok (s0, mon))) (s := srv (serve c turns w1 s0).1.2) (Hsave : all_saveable (storage s)) :
  exists w2' s' file, run_handler (handle_save [bulk_string (B "SAVE")]) w2 s = (w2', s', Ok ok)
    /\ storage s' = storage s /\ rdb_file (rdb_engine s') = Some file
    /\ forall env' w3 a, listening env' = Ok tt -> start_aof frame_size pair_size c env' = Ok a -> read_file env' (rdb_path c) = Some file ->
         exists w3' s1 mon1, from_config c env' w3 = (w3', Ok (s1, mon1)) /\ connections s1 = ∅ /\ aof_file s1 = a
           /\ forall (db : nat) (key : bytes), (db < 16)%nat ->
                (forall content, RdbRoundtrip.keeps (storage s) db key content -> RdbRoundtrip.keeps (storage s1) db key content)
                /\ (absent (storage s) db key -> absent (storage s1) db key).
Proof.
  destruct (started_store c env w0 w1 s0 mon Hstart) as (_ & _ & _ & Hcap).
  pose proof (running_in_place c env w0 w1 s0 mon turns w1 Hstart) as Hplace. fold s in Hplace.
  apply in_place_new in Hplace as [Hplaced Hshape].
  destruct (save_then_load 16 (storage s) (rdb_engine s) w2 Hdata Hstream Hplaced Hshape ltac:(done) Hsave) as (w2' & r & Hr & Hload).
  destruct (save_has_file _ _ _ _ _ _ Hr) as [file Hfile].
  exists w2', (set_changes 0 (set_rdb r s)), file. split; [by apply handle_save_exact|]. split; [done|]. split; [done|].
  intros env' w3 a Hl Ha Hf.
  destruct (starts_with_file c env' w3 file a (fun e1 => forall db key, (db < 16)%nat ->
    (forall content, RdbRoundtrip.keeps (storage s) db key content -> RdbRoundtrip.keeps e1 db key content) /\ (absent (storage s) db key -> absent e1 db key)) Hl Ha Hcap Hf)
    as (w3' & s1 & mon1 & Hs1 & Hdb & Hc & Haof).
  - intros w4. destruct (Hload w4) as (w5 & e' & He & Hk). exists w5, e'. by rewrite <- (rdb_load_file r).
  - by exists w3', s1, mon1.
Qed.
End restart.

Lemma first_store {ZS : Type} (e : StorageEngine ZS) n : tl (databases e) = replicate n database_new -> databases e <> [] ->
  exists d, databases e = d :: replicate n database_new.
Proof. destruct (databases e) as [|d l]; simpl; [done|]. intros -> _. by exists d. Qed.

(** A store with one key. *)
Lemma saveable_one {ZS : Type} `{SortedSet ZS} `{Layout} `{HashIter} `{!SortedSetSpec ZS} (e : StorageEngine ZS) d n key c :
  databases e = d :: replicate n database_new -> get_all_keys e 0 = Ok [key] -> short_string key ->
  RdbRoundtrip.keeps e 0 key c -> storable c -> all_saveable e.
Proof.
  intros Hd Hkeys Hkey Hk Hc.
  assert (Hrest : forall db d', databases e !! S db = Some d' -> d' = database_new).
  { intros db d'. rewrite Hd. simpl. intros Hl%lookup_replicate_1. by destruct Hl. }
  split.
  - intros [|db] keys Hall; [rewrite Hkeys in Hall; by injection Hall as <-|].
    destruct (databases e !! S db) as [d'|] eqn:Hd'; [|unfold get_all_keys in Hall; by rewrite Hd' in Hall].
    destruct keys as [|k keys]; [done|]. destruct (proj1 (elem_of_all_keys e (S db) d' (k :: keys) k Hd' Hall)) as (i & sh & Hsh & Hx); [by left|].
    rewrite (Hrest db d' Hd') in Hsh. unfold database_new in Hsh. apply lookup_replicate_1 in Hsh as [-> _]. by destruct Hx.
  - intros [|db] k sh Hsh Hsome.
    + unfold shard_at in Hsh. rewrite Hd in Hsh. simpl in Hsh.
      assert (Hin : k ∈ [key]) by (apply (elem_of_all_keys e 0 d [key] k); [by rewrite Hd|done|by exists (get_shard_index k), sh]).
      apply list_elem_of_singleton in Hin as ->. split; [done|]. by exists c.
    + unfold shard_at in Hsh. destruct (databases e !! S db) as [d'|] eqn:Hd'; [|done]. rewrite (Hrest db d' Hd') in Hsh. simpl in Hsh.
      unfold database_new in Hsh. apply lookup_replicate_1 in Hsh as [-> _]. by destruct Hsome.
Qed.

(** The value under a key, with its expiry, as the store holds it. *)
Lemma keeps_held {ZS : Type} `{SortedSet ZS} `{Layout} `{HashIter} `{!SortedSetSpec ZS} (e : StorageEngine ZS) db key v c :
  (sh ← shard_at e db key; sv ← data sh !! key; Some (expires_at (metadata sv), value sv)) = Some (None, v) ->
  has_content v c -> RdbRoundtrip.keeps e db key c.
Proof.
  destruct (shard_at e db key) as [sh|] eqn:Hsh; simpl; [|done]. destruct (data sh !! key) as [sv|] eqn:Hsv; simpl; [|done].
  intros [= Hx <-] Hc. by exists sh, sv.
Qed.

(** A server without files; a client sets a key, SAVE, and a server that finds the file. *)
Lemma restart_exact_witness :
  let env := mkEnvironment (Ok tt) (fun _ => None) (fun _ => None) in
  let data id := if id =? 1 then wire [request [B "SET"; B "a"; B "1"]] else [] in
  let turn := mkTurn [(B "127.0.0.1:6000", 0)] (turn_sockets (sample_turn data)) 6 in
  exists w1 s0 mon, from_config (ZS := SkipList) 32 64 config_default env sample_world = (w1, Ok (s0, mon))
    /\ let s := srv (serve 32 64 config_default [turn] w1 s0).1.2 in
       exists w2 s' file, run_handler (handle_save [bulk_string (B "SAVE")]) w1 s = (w2, s', Ok ok) /\ rdb_file (rdb_engine s') = Some file
         /\ exists w3 s1 mon1, from_config 32 64 config_default (mkEnvironment (Ok tt) (fun _ => Some file) (fun _ => None)) w2 = (w3, Ok (s1, mon1))
              /\ RdbRoundtrip.keeps (storage s1) 0 (B "a") (CString (B "1")).
Proof.
  intros env data turn. destruct (from_config 32 64 config_default env sample_world) as [w1 r] eqn:Hstart.
  assert (Hr : exists s0 mon, r = Ok (s0, mon)) by (apply (f_equal snd) in Hstart; simpl in Hstart; rewrite <- Hstart; eexists _, _; vm_compute; reflexivity).
  destruct Hr as (s0 & mon & ->). exists w1, s0, mon. split; [done|]. intros s.
  assert (Hs : s = srv (serve 32 64 config_default [turn] (from_config 32 64 config_default env sample_world).1
    match (from_config 32 64 config_default env sample_world).2 with Ok (s0, _) => s0 | _ => sample_server None end).1.2) by by rewrite Hstart.
  assert (Ha : RdbRoundtrip.keeps (storage s) 0 (B "a") (CString (B "1"))).
  { apply (keeps_held _ _ _ (VString (B "1"))); [rewrite Hs; vm_compute; reflexivity|done]. }
  assert (Hdbs : exists d, databases (storage s) = d :: replicate 15 database_new) by (rewrite Hs; apply first_store; [vm_compute; reflexivity|vm_compute; discriminate]).
  assert (Hkeys : get_all_keys (storage s) 0 = Ok [B "a"]) by (rewrite Hs; vm_compute; reflexivity).
  destruct Hdbs as [d Hdbs].
  assert (Hsave : all_saveable (storage s)).
  { eapply saveable_one; [exact Hdbs|exact Hkeys|vm_compute; split; congruence|exact Ha|vm_compute; split; congruence]. }
  assert (Hd : in_u64 size_stream_data /\ in_u64 size_stream) by (vm_compute; repeat split; congruence).
  pose proof (restart_exact 32 64 config_default env [turn] sample_world w1 w1 s0 mon (proj1 Hd) (proj2 Hd) Hstart) as Hr.
  specialize (Hr Hsave). destruct Hr as (w2 & s' & file & Hok & _ & Hfile & Hback).
  exists w2, s', file. split; [exact Hok|]. split; [exact Hfile|].
  destruct (Hback (mkEnvironment (Ok tt) (fun _ => Some file) (fun _ => None)) w2 None eq_refl eq_refl eq_refl) as (w3 & s1 & mon1 & Hs1 & _ & _ & Hdb).
  exists w3, s1, mon1. split; [exact Hs1|]. apply (proj1 (Hdb 0%nat (B "a") ltac:(lia))), Ha.
Defined.

(** ** What a server wrote to the append-only file *)

Section aof_file.
Context {ZS : Type} `{SortedSet ZS} `{Layout} `{HashIter} `{F64Text} `{Random} `{CaseMap} `{Mlua} `{Resolver} `{Process}.
Context (frame_size pair_size : Z).

Abbreviation Server := (Server ZS).

Definition no_cr (s : bytes) : Prop := Forall (fun b => b <> carriage_return) s.

(** An argument that is text on one line. *)
Definition plain (arg : bytes) : Prop :=
  Forall (fun b => b <> carriage_return /\ b <> line_feed) arg /\ utf8_valid arg = true.

(** A line of the file as [lines] gives it. *)
Definition plain_line (line : bytes) : Prop := no_cr line /\ utf8_valid line = true.

Lemma plain_is_line arg : plain arg -> plain_line arg.
Proof. intros [Hf Hu]. split; [|done]. eapply Forall_impl; [exact Hf|]. by intros b []. Qed.

(** A buffer that starts an array and holds no carriage return never has a frame. *)
Lemma replay_waits rest fuel p : no_cr rest -> p = Build_RespParser (B "*" ++ rest) 0 ->
  replay_frames frame_size pair_size (S fuel) p = Ok p.
Proof.
  intros Hr ->. assert (Hs : scan_crlf 1 rest = None) by by apply scan_crlf_no_cr.
  assert (Hl : parse_line (B "*" ++ rest) 1 = None).
  { unfold parse_line. change (drop 1 (B "*" ++ rest)) with rest. rewrite Hs. by case_match. }
  cbn [replay_frames]. unfold parse, skip. cbn [buffer RespParser.position].
  change (skip_count is_lead (drop 0 (B "*" ++ rest))) with 0%nat. cbn -[take parse_frame Nat.leb].
  change (Nat.leb (S (length rest)) 0) with false. cbv iota. rewrite bool_decide_eq_false_2, andb_false_r by done. unfold parse_frame. cbn -[parse_line parse_array]. unfold parse_array. change ("*"%byte :: rest) with (B "*" ++ rest).
  rewrite Hl. reflexivity.
Qed.

Definition all_utf8 (ls : list bytes) : bool := forallb utf8_valid ls.

Lemma replay_rest ls : forall rest, no_cr rest -> Forall no_cr ls ->
  replay_lines frame_size pair_size ls (Build_RespParser (B "*" ++ rest) 0) = if all_utf8 ls then Ok tt else Err (EIo not_utf8).
Proof.
  induction ls as [|l ls IH]; intros rest Hr Hls; [done|]. apply Forall_cons in Hls as [Hl Hls]. cbn [replay_lines all_utf8 forallb].
  destruct (utf8_valid l); [|done]. simpl negb. cbn [andb].
  assert (Hn : no_cr (rest ++ l ++ [line_feed])).
  { repeat apply Forall_app_2; [done..|]. by repeat constructor. }
  unfold feed. cbn [buffer RespParser.position]. rewrite <- !app_assoc.
  rewrite (replay_waits (rest ++ l ++ [line_feed])) by done. by apply IH.
Qed.

(** A file of lines without carriage returns, of which the first starts an array:
    nothing is replayed. *)
Lemma aof_load_lines content line ls : lines content = (B "*" ++ line) :: ls -> no_cr line -> Forall no_cr ls ->
  aof_load frame_size pair_size content = if all_utf8 ((B "*" ++ line) :: ls) then Ok tt else Err (EIo not_utf8).
Proof.
  intros Hc Hl Hls. unfold aof_load. rewrite Hc. cbn [replay_lines all_utf8 forallb]. destruct (utf8_valid _); [|done]. simpl negb. cbn [andb].
  assert (Hn : no_cr (line ++ [line_feed])) by (apply Forall_app_2; [done|by repeat constructor]).
  unfold feed. cbn [buffer RespParser.position parser_new]. rewrite app_nil_l, <- app_assoc.
  rewrite (replay_waits (line ++ [line_feed])) by done. by apply replay_rest.
Qed.

(** ** The lines of commands *)

Lemma lines_crlf s : forall rest acc, Forall (fun b => b <> carriage_return /\ b <> line_feed) s ->
  lines_from (s ++ CRLF ++ rest) acc = (acc ++ s) :: lines rest.
Proof.
  induction s as [|b s IH]; intros rest acc Hs.
  - simpl. rewrite rev_app_distr. simpl. by rewrite rev_involutive, app_nil_r.
  - apply Forall_cons in Hs as [[_ Hb] Hs]. cbn [app lines_from]. rewrite (proj2 (beq_false _ _) Hb), (IH rest (acc ++ [b])) by done. by rewrite <- app_assoc.
Qed.

Definition command_lines (args : list bytes) : list bytes :=
  (B "*" ++ show_len args) :: concat (map (fun a => [B "$" ++ show_len a; a]) args).

Lemma show_len_plain {A} (l : list A) : Forall (fun b => b <> carriage_return /\ b <> line_feed) (show_len l).
Proof. apply show_u64_Forall; [|lia]. by intros [] Hd. Qed.

Lemma lines_args args rest : Forall plain args ->
  lines (concat (map encode (map bulk_string args)) ++ rest) = concat (map (fun a => [B "$" ++ show_len a; a]) args) ++ lines rest.
Proof.
  induction 1 as [|a args [Ha _] _ IH]; [done|]. cbn [map concat bulk_string encode]. rewrite <- !app_assoc. unfold lines at 1.
  rewrite app_assoc, lines_crlf by (apply Forall_app_2; [by repeat constructor|apply show_len_plain]).
  unfold lines at 1. rewrite lines_crlf by done. by rewrite IH.
Qed.

Lemma lines_command args rest : Forall plain args ->
  lines (encode (Array (Some (map bulk_string args))) ++ rest) = command_lines args ++ lines rest.
Proof.
  intros Ha. cbn [encode]. unfold show_len at 1. rewrite length_map. fold (show_len args). rewrite <- !app_assoc. unfold lines at 1.
  rewrite app_assoc, lines_crlf by (apply Forall_app_2; [by repeat constructor|apply show_len_plain]).
  rewrite lines_args by done. reflexivity.
Qed.

Lemma lines_commands commands : Forall (Forall plain) commands ->
  lines (concat (map (fun args => encode (Array (Some (map bulk_string args)))) commands)) = concat (map command_lines commands).
Proof.
  induction 1 as [|args commands Ha _ IH]; [done|]. cbn [map concat]. by rewrite lines_command, IH.
Qed.

Lemma length_line_plain {A} c (a : list A) : is_ascii c -> c <> carriage_return -> plain_line (c :: show_len a).
Proof.
  intros Hc Hr. split.
  - constructor; [done|]. eapply Forall_impl; [apply show_len_plain|]. by intros b [].
  - apply utf8_valid_ascii. constructor; [done|]. apply show_u64_Forall; [apply is_digit_ascii|lia].
Qed.

Lemma command_lines_plain args : Forall plain args -> Forall plain_line (command_lines args).
Proof.
  intros Ha. constructor; [by apply (length_line_plain "*"%byte args)|]. induction Ha as [|a args Ha _ IH]; [constructor|]. simpl.
  constructor; [by apply (length_line_plain "$"%byte a)|]. constructor; [by apply plain_is_line|exact IH].
Qed.

Lemma all_utf8_plain ls : Forall plain_line ls -> all_utf8 ls = true.
Proof. induction 1 as [|l ls [_ Hu] _ IH]; [done|]. simpl. by rewrite Hu. Qed.

(** A file of plain commands loads, and nothing of it is replayed. *)
Lemma aof_load_commands commands : Forall (Forall plain) commands ->
  aof_load frame_size pair_size (concat (map (fun args => encode (Array (Some (map bulk_string args)))) commands)) = Ok tt.
Proof.
  intros Hp. pose proof (lines_commands commands Hp) as Hl. destruct commands as [|args commands]; [done|].
  assert (Hall : Forall plain_line (concat (map command_lines (args :: commands)))).
  { clear Hl. induction Hp as [|a l Ha _ IH]; [constructor|]. cbn [map concat]. apply Forall_app_2; [by apply command_lines_plain|exact IH]. }
  cbn [map concat command_lines app] in Hall, Hl. cbn [map concat]. rewrite (aof_load_lines _ _ _ Hl).
  - by rewrite (all_utf8_plain _ Hall).
  - apply Forall_cons in Hall as [[Hc _] _]. by inversion Hc.
  - apply Forall_cons in Hall as [_ Hall]. eapply Forall_impl; [exact Hall|]. by intros ? [].
Qed.

Definition log_commands (commands : list (list bytes)) (s : Server) : Server :=
  foldl (fun s args => append_aof (map bulk_string args) s) s commands.

Lemma logged commands : forall (s : Server) content, aof_file s = Some content ->
  aof_file (log_commands commands s) = Some (content ++ concat (map (fun args => encode (Array (Some (map bulk_string args)))) commands)).
Proof.
  induction commands as [|args commands IH]; intros s content Hs; [simpl; by rewrite app_nil_r|].
  cbn [map concat]. rewrite app_assoc. apply IH. unfold append_aof. rewrite Hs. cbn [aof_file set_aof]. f_equal.
  pose proof (serialize_spec (Array (Some (map bulk_string args)))) as Hf.
  assert (Hs' : forallb sendable (map bulk_string args) = true) by (clear; by induction args).
  cbn [sendable] in Hf. rewrite Hs' in Hf. by rewrite (Hf content).
Qed.

Lemma start_with_aof c env w a : start_aof frame_size pair_size c env = Ok a ->
  from_config (ZS := ZS) frame_size pair_size c env w
  = match from_config frame_size pair_size (set_aof_enabled false c) env w with
    | (w', Ok (s, mon)) => (w', Ok (set_aof a s, mon))
    | r => r
    end.
Proof.
  intros Ha. unfold from_config, start_server, bind, try_op, reads, system_time, draw, only_report. cbn [fst snd].
  destruct (listening env); [|done..]. rewrite Ha. cbn [fst snd start_aof set_aof_enabled on_aof aof aof_enabled rdb rdb_path replication_config network monitoring].
  change (rdb_path (set_aof_enabled false c)) with (rdb_path c).
  destruct (with_capacity _ 1) as [[]| |]; [|done..]. cbn [fst snd].
  match goal with |- context [rdb_load ?r ?w0 engine_new] => by destruct (rdb_load r w0 engine_new) as [[w1 e1] []] end.
Qed.

(** C33. A restart replays nothing of the append-only file.  When a server appended
    to its new file any commands whose arguments are UTF-8 without line ends, a
    server that is started later with that file is the one that would start
    without it: the same store, from the RDB file alone, and everything else, and
    it goes on appending to the file. *)
Theorem aof_not_replayed (c : Config) (env : Environment) (commands : list (list bytes)) (s : Server) (w : World)
    (Hon : aof_enabled (aof c) = true) (Hnew : aof_file s = Some []) (Hplain : Forall (Forall plain) commands)
    (Hfile : read_file env (aof_path c) = aof_file (log_commands commands s)) :
  from_config (ZS := ZS) frame_size pair_size c env w
  = match from_config frame_size pair_size (set_aof_enabled false c) env w with
    | (w', Ok (s', mon)) => (w', Ok (set_aof (aof_file (log_commands commands s)) s', mon))
    | r => r
    end.
Proof.
  apply start_with_aof. unfold start_aof. rewrite Hon, Hfile, (logged commands s [] Hnew), app_nil_l. cbn [default from_option].
  unfold id. by rewrite aof_load_commands.
Qed.
End aof_file.

(** Two commands were logged; a server starts with the file. *)
Lemma aof_not_replayed_witness :
  let c := set_aof_enabled true config_default in
  let commands := [[B "SET"; B "a"; B "1"]; [B "RPUSH"; B "l"; B "x"]] in
  let s := sample_server None in
  let content := aof_file (log_commands commands (set_aof (Some []) s)) in
  let env := mkEnvironment (Ok tt) (fun path => if bool_decide (path = aof_path c) then content else None) (fun _ => None) in
  from_config (ZS := SkipList) 32 64 c env sample_world
  = match from_config 32 64 config_default env sample_world with
    | (w', Ok (s', mon)) => (w', Ok (set_aof content s', mon))
    | r => r
    end.
Proof.
  intros c commands s content env.
  apply (aof_not_replayed 32 64 c env commands (set_aof (Some []) s) sample_world); [reflexivity|reflexivity| |reflexivity].
  repeat constructor; by vm_compute.
Defined.

(** A value with a carriage return at its end is read back without it, and the
    server no longer starts. *)
Example aof_keeps_from_starting :
  let c := set_aof_enabled true config_default in
  let content := aof_file (log_commands [[B "SET"; B "a"; [byte_of 13]]] (set_aof (Some []) (sample_server None))) in
  exists e, (from_config (ZS := SkipList) 32 64 c (mkEnvironment (Ok tt) (fun _ => content) (fun _ => None)) sample_world).2 = Err e.
Proof. eexists. vm_compute. reflexivity. Qed.
