(* ===== verification/ServerProofs.v ===== *)
(** * Authentication, replication requests and failing commands

    What the dispatch of src/network/server.rs lets through: the gate of
    authentication, the way around it, and what becomes of a batch of requests
    in which one fails. *)

From S2P Require Import Prelude Text Resp SortedSet Value PubSub Rdb RespParser Connection Blocking Keyspace StringOps EngineWatch.
From S2P Require Import Command CommandLogic StringCommands Replication LuaEngine Info Server ServerLoop SkipList SortedSetImpl Sample.

Open Scope Z_scope.

Section server_proofs.
Context {ZS : Type} `{SortedSet ZS} `{Layout} `{HashIter} `{F64Text} `{Random} `{CaseMap} `{Mlua} `{Resolver} `{Process}.
Abbreviation Server := (Server ZS).

Lemma triple_eta {A B C} (x : A * B * C) (r : C) : x.2 = r -> x = (x.1.1, x.1.2, r).
Proof. destruct x as [[a b] c]. by intros <-. Qed.

Lemma set_storage_same (s : Server) : set_storage (storage s) s = s.
Proof. by destruct s as [[] ? ? ? ? ? ? ? ? ? ? ? ? ? ? ?]. Qed.

(** A request: the name of the command and its arguments. *)
Definition command_frame (b : bytes) (args : list RespFrame) : RespFrame := Array (Some (BulkString (Some b) :: args)).

Lemma with_connection_some {A} (s : Server) id c (f : Connection -> cmd Server A) w :
  connections s !! id = Some c -> with_connection id f w s = f c w s.
Proof. intros Hc. unfold with_connection, bind, get_server. by rewrite Hc. Qed.

(** A password that AUTH compares, and the right one. *)
Definition auth_attempt (args : list RespFrame) : bool :=
  match args with
  | [f] => match f with BulkString (Some b) => utf8_valid b | _ => false end
  | _ => false
  end.
Definition right_password (args : list RespFrame) (p : bytes) : bool :=
  match args with
  | [f] => match f with BulkString (Some b) => utf8_valid b && bool_decide (b = p) | _ => false end
  | _ => false
  end.

(** What AUTH does to the server: the state of the connection, and the counts. *)
Definition after_auth (id : Z) (args : list RespFrame) (p : bytes) (s : Server) : Server :=
  if auth_attempt args then
    if right_password args p then on_conn id (set_state Authenticated) (on_stats count_success s) else on_stats count_failure s
  else s.

Lemma auth_exact (s : Server) id b args p w :
  password s = Some p ->
  exists f, run_handler (handle_auth id (BulkString (Some b) :: args)) w s
            = (w, after_auth id args p s, Ok f)
            /\ is_error f = negb (right_password args p).
Proof.
  intros Hp. unfold run_handler, handle_auth, after_auth.
  destruct args as [|f [|g args]]; [by eexists; split; reflexivity| |by eexists; split; reflexivity].
  destruct f as [| | |[pw|]| | | | | | |]; try by eexists; split; reflexivity.
  cbn [bind guard ret arg bulk_arg length Nat.eqb negb lookup list_lookup right_password].
  cbn [auth_attempt].
  destruct (utf8_valid pw); [|by eexists; split; reflexivity]. cbn [bind guard ret negb andb get_server]. rewrite Hp.
  case_bool_decide; by eexists; split; reflexivity.
Qed.

Lemma lookup_on_conn id f (s : Server) j :
  connections (on_conn id f s) !! j = if decide (j = id) then f <$> connections s !! j else connections s !! j.
Proof. unfold on_conn, connections. simpl. case_decide as E; [subst; apply lookup_alter_eq|by apply lookup_alter_ne]. Qed.

Lemma on_conn_twice id c1 c2 (s : Server) st :
  on_conn id (fun _ => c2) (set_stats st (on_conn id (fun _ => c1) s)) = set_stats st (on_conn id (fun _ => c2) s).
Proof.
  unfold on_conn, set_connections, set_core, set_stats, connections. simpl. do 2 f_equal.
  apply map_eq. intros j. destruct (decide (j = id)) as [->|]; [|by rewrite !lookup_alter_ne].
  rewrite !lookup_alter_eq. by destruct (conns (core s) !! id).
Qed.

(** ** The gate *)

(** The name the dispatch compares, and the arguments. *)
Definition frame_name (f : RespFrame) : option bytes :=
  match f with
  | Array (Some (BulkString (Some b) :: _)) => Some (trim_uppercase b)
  | _ => None
  end.
Definition frame_args (f : RespFrame) : list RespFrame := match f with Array (Some (_ :: args)) => args | _ => [] end.

Definition names (n : bytes) (f : RespFrame) : bool := bool_decide (frame_name f = Some n).

(** The requests that the gate does not stop: AUTH with the right password, and
    the two that are answered before it. *)
Definition opens_gate (p : bytes) (f : RespFrame) : bool := names (B "AUTH") f && right_password (frame_args f) p.
Definition replica_request (f : RespFrame) : bool :=
  bool_decide (frame_command f = Some (B "SYNC") \/ frame_command f = Some (B "PSYNC")).
Definition stopped (p : bytes) (f : RespFrame) : bool := negb (opens_gate p f) && negb (replica_request f).

(** The answer of the gate to a request that it stops, and what it counts. *)
Definition gate_answer (f response : RespFrame) : Prop :=
  match frame_name f with
  | None => is_error response = true
  | Some _ =>
      if names (B "AUTH") f then is_error response = true
      else if names (B "PING") f then response = default (SimpleString (B "PONG")) (head (frame_args f))
      else if names (B "QUIT") f then response = ok
      else response = no_auth
  end.
Definition gate_count (st : ServerStats) (f : RespFrame) : ServerStats :=
  if names (B "AUTH") f && auth_attempt (frame_args f) then count_failure (count_command st) else count_command st.

Lemma not_replica_request f id : replica_request f = false -> process_request (ZS := ZS) f id = process_frame f id.
Proof.
  unfold replica_request, process_request. intros Hr%bool_decide_eq_false. destruct (frame_command f) as [n|]; [|done].
  rewrite !bool_decide_eq_false_2; [done|intros ->; naive_solver..].
Qed.

Lemma stopped_frame (s : Server) id c p f w :
  connections s !! id = Some c -> password s = Some p -> is_authenticated c = false -> opens_gate p f = false ->
  exists r, run_handler (process_frame f id) w s
            = (w, if names (B "AUTH") f && auth_attempt (frame_args f) then on_stats count_failure s else s, Ok r)
            /\ gate_answer f r.
Proof.
  intros Hc Hp Ha. unfold opens_gate, gate_answer, names. destruct f as [| | | |[[|[| | |[b|]| | | | | | |] args]|]| | | | | |]; cbn [frame_name frame_args];
    rewrite ?(bool_decide_eq_false_2 (None = Some _)) by done; try (intros _; by eexists).
  assert (En : forall n, bool_decide (Some (trim_uppercase b) = Some n) = bool_decide (trim_uppercase b = n))
    by (intros n; apply bool_decide_ext; split; congruence).
  rewrite !En. intros Hopen. unfold process_frame, run_handler. cbv zeta.
  rewrite (with_connection_some _ _ _ _ _ Hc). unfold bind at 1, get_server. rewrite Hp, Ha. simpl andb. cbv iota.
  rewrite bool_decide_eq_true_2 by done. simpl. unfold before_auth.
  destruct (bool_decide (trim_uppercase b = B "AUTH")).
  { destruct (auth_exact s id b args p w Hp) as (f & E & Hf). unfold run_handler in E.
    destruct (handle_auth _ _ w s) as [[w' s'] r]. injection E as -> -> ->. exists f. simpl in Hopen. unfold after_auth.
    rewrite Hopen in *. split; [by destruct (auth_attempt args)|done]. }
  destruct (bool_decide (trim_uppercase b = B "PING")).
  { unfold on_engine, handle_ping. assert (Hs := set_storage_same s). simpl.
    destruct args as [|g args]; simpl; unfold arg, ret; simpl; rewrite ?Hs; by eexists. }
  destruct (bool_decide (trim_uppercase b = B "QUIT")); by eexists.
Qed.

Lemma set_stats_same (s : Server) : set_stats (stats s) s = s.
Proof. by destruct s. Qed.

Lemma stopped_frames (s : Server) id c p frames w :
  connections s !! id = Some c -> password s = Some p -> is_authenticated c = false -> Forall (fun f => stopped p f) frames ->
  exists responses, process_frames id frames w s = (w, set_stats (foldl gate_count (stats s) frames) s, Ok responses)
                    /\ Forall2 gate_answer frames responses.
Proof.
  intros Hc Hp Ha. revert s Hc Hp. induction frames as [|f frames IH]; intros s Hc Hp Hf.
  { exists []. simpl. by rewrite set_stats_same. }
  apply Forall_cons in Hf as [[Ho Hr]%andb_prop_elim Hf]. apply negb_prop_elim in Ho, Hr. apply Is_true_false in Ho, Hr.
  cbn [process_frames]. rewrite (not_replica_request f id Hr).
  destruct (stopped_frame (on_stats count_command s) id c p f w Hc Hp Ha Ho) as (r & E & Hg). rewrite E.
  assert (Es : (if names (B "AUTH") f && auth_attempt (frame_args f) then on_stats count_failure (on_stats count_command s) else on_stats count_command s)
               = set_stats (gate_count (stats s) f) s) by (unfold gate_count; by destruct (names _ _ && _)).
  rewrite Es. destruct (IH (set_stats (gate_count (stats s) f) s) Hc Hp Hf) as (rs & E2 & Hrs). rewrite E2.
  exists (r :: rs). split; [done|by constructor].
Qed.

(** What reading, sending and closing do to a connection leaves it outside. *)
Lemma flush_loop_state now ws : forall n c sent r,
  flush_loop now ws n c sent = Some r -> conn_state r.1.1 = conn_state c.
Proof.
  induction ws as [|x ws IH]; intros n c sent r; cbn [flush_loop];
    (destruct (_ && _); [|intros [= <-]; simpl; unfold clear_written; by destruct (_ <=? _)%nat]); [done|].
  destruct x as [[|m]|[]]; try (by intros [= <-]); try (by apply IH); [by intros ->%IH| |];
    (destruct (S n <? MAX_ATTEMPTS)%nat; [by apply IH|by intros [= <-]]).
Qed.

Lemma flush_state k i c : conn_state (flush_on k i c).1.1 = conn_state c.
Proof.
  unfold flush_on, flush. destruct (_ <=? _)%nat; [done|].
  destruct (flush_loop _ _ _ _ _) as [r|] eqn:E; [|done]. by apply flush_loop_state in E.
Qed.

Lemma flush_outside k i c : is_authenticated c = false -> is_authenticated (flush_on k i c).1.1 = false.
Proof. unfold is_authenticated. by rewrite flush_state. Qed.

Lemma read_outside frame_size pair_size idle_timeout k c :
  is_authenticated c = false -> is_authenticated (read_frames frame_size pair_size idle_timeout k c).1 = false.
Proof.
  intros Hc. unfold read_frames, conn_read.
  destruct (sk_read k) as [[|x data]|[]]; cbv beta iota zeta; try done.
  by destruct (drain frame_size pair_size _ _ []) as [[q fs] []].
Qed.

Lemma first_phase_outside frame_size pair_size idle_timeout k c :
  is_authenticated c = false -> is_authenticated (first_phase frame_size pair_size idle_timeout k c).1.1 = false.
Proof.
  intros Hc. unfold first_phase. destruct (has_pending_writes c).
  - pose proof (flush_outside k 0 c Hc) as Hf. destruct (flush_on k 0 c) as [[c' sent] [u|e|]]; simpl in Hf.
    + pose proof (read_outside frame_size pair_size idle_timeout k c' Hf). by destruct (read_frames _ _ _ k c').
    + destruct (is_broken e); [done|]. by destruct e.
    + done.
  - pose proof (read_outside frame_size pair_size idle_timeout k c Hc). by destruct (read_frames _ _ _ k c).
Qed.

Lemma flush_answers_outside k i c : is_authenticated c = false -> is_authenticated (flush_answers k i c).1.1 = false.
Proof.
  intros Hc. unfold flush_answers. pose proof (flush_outside k i c Hc) as Hf.
  destruct (flush_on k i c) as [[c' sent] [u|e|]]; [done| |done]. by destruct (is_broken e).
Qed.

Lemma send_frame_outside c f : is_authenticated (send_frame c f).1 = is_authenticated c.
Proof. unfold send_frame. by destruct (serialize_resp_frame f (write_buffer c)). Qed.

Lemma send_each_outside k responses : forall i c sent,
  is_authenticated c = false -> is_authenticated (send_each k i c sent responses).1.1 = false.
Proof.
  induction responses as [|f rs IH]; intros i c sent Hc; [done|]. cbn [send_each].
  pose proof (send_frame_outside c f) as Hs. destruct (send_frame c f) as [c1 r]. simpl in Hs.
  assert (Hc1 : is_authenticated c1 = false) by congruence. destruct r as [u|e|]; [|by apply IH..].
  pose proof (flush_answers_outside k i c1 Hc1) as Hf. destruct (flush_answers k i c1) as [[c2 sent'] [v|e|]]; [by apply IH|done..].
Qed.

Lemma third_phase_outside k subscribed immediate quit timed_out responses c :
  is_authenticated c = false -> is_authenticated (third_phase k subscribed immediate quit timed_out responses c).1.1 = false.
Proof.
  intros Hc. unfold third_phase.
  assert (Hs : is_authenticated (send_answers k immediate c responses).1.1 = false).
  { unfold send_answers. destruct immediate; [by apply send_each_outside|]. apply flush_answers_outside. unfold send_responses.
    revert c Hc. induction (filter wants_sending responses) as [|f fs IH]; intros c Hc; [done|]. simpl. apply IH. by rewrite send_frame_outside. }
  destruct (send_answers k immediate c responses) as [[c1 sent] [u|e|]]; [|done..]. simpl in Hs.
  assert (Hq : is_authenticated (if quit then set_state Closing c1 else c1) = false) by by destruct quit.
  destruct (_ && _); [|done]. unfold close.
  pose proof (flush_outside k 2 (set_state Closing (if quit then set_state Closing c1 else c1)) eq_refl) as Hf.
  by destruct (flush_on k 2 _) as [[c3 sent'] r].
Qed.

(** C8. The gate of authentication, for a turn of a connection.  When the server
    has a password and a connection has not authenticated, then whatever it
    sends in one read, as long as no request of it is SYNC or PSYNC (which are
    answered before the gate, see [sync_without_password]) or AUTH with the
    right password: the store, the other connections and everything else of
    the server stay as they are, apart from the counts of commands and of
    failed attempts; the connection stays outside; and what is sent to it are
    the gate's own answers, one for each request: an error for AUTH and for
    what is no command, PONG or its argument for PING, OK for QUIT, and NOAUTH
    for any other command. *)
Theorem auth_gate (frame_size pair_size idle_timeout : Z) (k : Socket) (s : Server) (id : Z) (c c1 : Connection) (p sent : bytes)
    (frames : list RespFrame) (timed_out : bool) (w : World)
    (Hconn : connections s !! id = Some c) (Hpass : password s = Some p) (Hstate : is_authenticated c = false)
    (Hread : first_phase frame_size pair_size idle_timeout k c = (c1, sent, ReadDone frames timed_out))
    (Hframes : Forall (fun f => stopped p f) frames) :
  exists c' responses sent' r,
    process_connection frame_size pair_size idle_timeout k id w s
      = (w, set_stats (foldl gate_count (stats s) frames) (on_conn id (fun _ => c') s), (sent ++ sent', r))
    /\ third_phase k (is_subscribed (pubsub s) id) (existsb needs_immediate_flush frames) (existsb is_quit frames)
         timed_out responses c1 = (c', sent', r)
    /\ is_authenticated c' = false
    /\ Forall2 gate_answer frames responses.
Proof.
  assert (Hout : is_authenticated c1 = false).
  { pose proof (first_phase_outside frame_size pair_size idle_timeout k c Hstate) as Hout. by rewrite Hread in Hout. }
  assert (Hc1 : connections (on_conn id (fun _ => c1) s) !! id = Some c1) by by rewrite lookup_on_conn, decide_True, Hconn.
  destruct (stopped_frames (on_conn id (fun _ => c1) s) id c1 p frames w Hc1 Hpass Hout Hframes) as (rs & E & Hrs).
  pose proof (third_phase_outside k (is_subscribed (pubsub s) id) (existsb needs_immediate_flush frames) (existsb is_quit frames)
    timed_out rs c1 Hout) as Hafter.
  destruct (third_phase k _ _ _ timed_out rs c1) as [[c' sent'] r] eqn:E3. exists c', rs, sent', r. split_and!; [|done..].
  unfold process_connection. rewrite Hconn, Hread, E.
  change (connections (set_stats _ (on_conn id (fun _ => c1) s)) !! id) with (connections (on_conn id (fun _ => c1) s) !! id).
  rewrite Hc1. change (pubsub (set_stats _ _)) with (pubsub s). rewrite E3. by rewrite on_conn_twice.
Qed.

(** ** SYNC *)

(** SYNC asks for no password.  On a master that can make an image of its
    database (it makes one to see that it can, and a second one to send), any
    connection that sends SYNC, authenticated or not, becomes a replica and has
    the whole image put in its write buffer. *)
Theorem sync_without_password (s : Server) (id : Z) (c : Connection) (b seen rdb i1 i2 : bytes) (o1 o2 : Z)
    (args : list RespFrame) (w w1 w2 : World) (e1 e2 : StorageEngine ZS)
    (Hconn : connections s !! id = Some c) (Hrole : role (replication s) = Master i1 i2 o1 o2)
    (Hseen : generate_rdb_bytes w (storage s) = (w1, e1, Go seen))
    (Hrdb : generate_rdb_bytes (now w1 tt).1.1 e1 = (w2, e2, Go rdb)) (Hname : to_uppercase b = B "SYNC") :
  let '(_, s', r) := run_handler (process_request (command_frame b args) id) w s in
  r = Ok (full_resync_line i1 o1)
  /\ connections s' !! id = Some (send_rdb_to_replica c rdb)
  /\ is_Some (replicas (replication s') !! id).
Proof.
  unfold process_request, command_frame. cbn [frame_command frame_parts]. rewrite Hname. rewrite bool_decide_eq_true_2 by done.
  cbn [orb]. unfold run_handler, handle_sync_command. rewrite bool_decide_eq_true_2 by done.
  assert (Hsync : answer_of perform_full_sync w s = (w1, set_storage e1 s, Go (full_resync_line i1 o1))).
  { unfold answer_of, perform_full_sync, bind, get_server. rewrite Hrole. unfold engine_result. by rewrite Hseen. }
  unfold bind at 1. rewrite Hsync. cbn [bind now] in *.
  unfold start_replica, bind, get_server. change (connections (set_storage e1 s)) with (connections s). rewrite Hconn.
  cbv beta iota delta [try_op]. unfold add_replica, is_master. change (replication (set_storage e1 s)) with (replication s). rewrite Hrole.
  cbv beta iota. unfold on_engine. change (storage (set_replication _ (set_storage e1 s))) with e1. simpl in Hrdb. rewrite Hrdb.
  cbv beta iota delta [modify ret].
  rewrite lookup_on_conn, decide_True by done. unfold connections in *. simpl. rewrite Hconn. split_and!; [done|done|].
  rewrite lookup_insert_eq. by eexists.
Qed.

(** ** A batch with a failing command *)

Lemma process_frames_fails id before after f w w1 w2 (s s1 s2 : Server) responses e :
  process_frames id before w s = (w1, s1, Ok responses) ->
  run_handler (process_request f id) w1 (on_stats count_command s1) = (w2, s2, Err e) ->
  process_frames id (before ++ f :: after) w s = (w2, s2, Err e).
Proof.
  revert w s responses. induction before as [|g before IH]; intros w s responses; cbn [process_frames app].
  - intros [= -> -> _] E. by rewrite E.
  - destruct (run_handler (process_request g id) w (on_stats count_command s)) as [[w3 s3] [x|e'|]]; [|done..].
    destruct (process_frames id before w3 s3) as [[w4 s4] r] eqn:Eb. destruct r as [l| |]; [|done..].
    intros [= -> -> _] E. by rewrite (IH w3 s3 l Eb E).
Qed.

Lemma visit_connections_app frame_size pair_size idle_timeout k ids1 ids2 : forall w w1 w2 (s s1 s2 : Server) p1 f1 p2 f2,
  visit_connections frame_size pair_size idle_timeout k ids1 w s = (w1, s1, Ok (p1, f1)) ->
  visit_connections frame_size pair_size idle_timeout k ids2 w1 s1 = (w2, s2, Ok (p2, f2)) ->
  visit_connections frame_size pair_size idle_timeout k (ids1 ++ ids2) w s = (w2, s2, Ok (p1 ++ p2, f1 ++ f2)).
Proof.
  induction ids1 as [|i ids1 IH]; intros w w1 w2 s s1 s2 p1 f1 p2 f2; cbn [visit_connections app].
  - by intros [= -> -> <- <-].
  - destruct (process_connection _ _ _ (k i) i w s) as [[w3 s3] [sent r]].
    destruct (visit_connections _ _ _ k ids1 w3 s3) as [[w4 s4] rest] eqn:E.
    destruct r as [b|e|]; [| |done]; (destruct rest as [[p f]| |]; [|done..]);
      (destruct b || idtac); intros [= -> -> <- <-] E2; by rewrite (IH _ _ _ _ _ _ _ _ _ _ E E2).
Qed.

Lemma drop_failed_keeps (s : Server) i j : j <> i -> connections (drop_failed s i) !! j = connections s !! j.
Proof. intros Hj. unfold drop_failed. destruct (connections s !! i); [|done]. unfold connections. simpl. by apply lookup_delete_ne. Qed.

Lemma drop_all ids (s : Server) :
  storage (foldl drop_failed s ids) = storage s
  /\ (forall j, j ∈ ids -> connections (foldl drop_failed s ids) !! j = None)
  /\ (forall j, j ∉ ids -> connections (foldl drop_failed s ids) !! j = connections s !! j).
Proof.
  induction ids as [|i ids IH] using rev_ind; [by split_and!; [|intros j Hj%elem_of_nil|]|].
  rewrite foldl_snoc. destruct IH as (Es & Hin & Hout). split_and!.
  - rewrite <- Es. unfold drop_failed at 1. by destruct (connections _ !! i).
  - intros j Hj. destruct (decide (j = i)) as [->|Hne].
    + unfold drop_failed at 1. destruct (connections (foldl drop_failed s ids) !! i) eqn:E; [|done].
      unfold connections. simpl. apply lookup_delete_eq.
    + rewrite drop_failed_keeps by done. apply Hin. set_solver.
  - intros j Hj. rewrite drop_failed_keeps by set_solver. apply Hout. set_solver.
Qed.

(** C38. An error that a handler passes on (a command on a value of another type,
    RENAME of a missing key) costs the client everything it asked for in the
    same read: in the turn of the loop in which connection [id] is visited, no
    answer of its batch is sent, not even those of the commands before the
    failing one, whose effects stay; the rest of the batch is not run; the
    other connections are visited as ever, and at the end of the turn the
    connection is gone from the table while those that did not fail are in it. *)
Theorem failed_command_drops_batch (frame_size pair_size idle_timeout : Z) (k : Z -> Socket) (l : ServerLoop ZS)
    (id : Z) (ids1 ids2 p1 f1 p2 f2 : list Z) (w w1 wb wf w2 : World) (s1 sb sf s2 : Server) (c c1 : Connection) (sent : bytes)
    (before after : list RespFrame) (f : RespFrame) (timed_out : bool) (responses : list RespFrame) (e : ferrous_error)
    (Hids : filter (fun i => is_connection_blocked (core (srv l)) i = false) (all_connection_ids (srv l)) = ids1 ++ id :: ids2)
    (Hvisited : visit_connections frame_size pair_size idle_timeout k ids1 w (srv l) = (w1, s1, Ok (p1, f1)))
    (Hconn : connections s1 !! id = Some c)
    (Hread : first_phase frame_size pair_size idle_timeout (k id) c = (c1, sent, ReadDone (before ++ f :: after) timed_out))
    (Hbefore : process_frames id before w1 (on_conn id (fun _ => c1) s1) = (wb, sb, Ok responses))
    (Hfails : run_handler (process_request f id) wb (on_stats count_command sb) = (wf, sf, Err e))
    (Hothers : visit_connections frame_size pair_size idle_timeout k ids2 wf sf = (w2, s2, Ok (p2, f2))) :
  process_connection frame_size pair_size idle_timeout (k id) id w1 s1 = (wf, sf, (sent, Err e))
  /\ (has_pending_writes c = false -> sent = [])
  /\ exists l', process_connections frame_size pair_size idle_timeout k w l = (w2, l', Ok tt)
       /\ connections (srv l') !! id = None
       /\ storage (srv l') = storage s2
       /\ pending_writes l' = pending_writes l ++ p1 ++ p2
       /\ (forall j, j <> id -> j ∉ f1 ++ f2 -> connections (srv l') !! j = connections s2 !! j).
Proof.
  assert (Hp : process_connection frame_size pair_size idle_timeout (k id) id w1 s1 = (wf, sf, (sent, Err e))).
  { unfold process_connection. rewrite Hconn, Hread. by rewrite (process_frames_fails _ _ _ _ _ _ _ _ _ _ _ _ Hbefore Hfails). }
  split; [done|]. split.
  { intros Hno. unfold first_phase in Hread. rewrite Hno in Hread. destruct (read_frames _ _ _ (k id) c). congruence. }
  assert (Hv : visit_connections frame_size pair_size idle_timeout k (id :: ids2) w1 s1 = (w2, s2, Ok (p2, id :: f2)))
    by (cbn [visit_connections]; by rewrite Hp, Hothers).
  exists (mkLoop (foldl drop_failed s2 (f1 ++ id :: f2)) (pending_writes l ++ p1 ++ p2) (next_id l)).
  destruct (drop_all (f1 ++ id :: f2) s2) as (Es & Hin & Hout). split_and!; [|apply Hin; set_solver|done..|].
  - unfold process_connections. rewrite Hids. by rewrite (visit_connections_app _ _ _ _ _ _ _ _ _ _ _ _ _ _ _ _ Hvisited Hv).
  - intros j Hj Hj2. apply Hout. set_solver.
Qed.
End server_proofs.

(** GET, PING and FLUSHALL of a client that guesses the password wrong: it gets
    the gate's answers; with the right password GET is answered. *)
Lemma auth_gate_witness :
  let s := sample_server (Some (B "sesame")) in
  let frames := [request [B "GET"; B "k"]; request [B "ping"]; request [B "AUTH"; B "guess"]; request [B "FLUSHALL"]] in
  let k := turn_sockets (sample_turn (fun _ => wire frames)) 1 in
  let r := process_connection 32 64 0 k 1 sample_world s in
  (storage r.1.2 = storage s /\ auth_failures (stats r.1.2) = 1)
  /\ r.2 = (wire [no_auth; SimpleString (B "PONG"); error (B "ERR invalid password"); no_auth], Ok false)
  /\ answers 1 s [request [B "AUTH"; B "sesame"]; request [B "GET"; B "k"]] = Ok [ok; null_bulk].
Proof.
  intros s frames k r. split; [|split; vm_compute; reflexivity].
  set (c := default (conn_new (B "127.0.0.1:6000") 0) (connections s !! 1)).
  set (c1 := (first_phase 32 64 0 k c).1.1).
  destruct (auth_gate 32 64 0 k s 1 c c1 (B "sesame") [] frames false sample_world) as (c' & rs & sent' & x & E & _);
    [vm_compute; reflexivity..|repeat (constructor; [vm_compute; exact I|]); constructor|].
  unfold r. rewrite E. split; vm_compute; reflexivity.
Defined.

Lemma sync_without_password_witness :
  let s := sample_server (Some (B "sesame")) in
  let r := run_handler (process_request (command_frame (B "sync") []) 1) sample_world s in
  r.2 = Ok (full_resync_line (B "8371b4fb1155b71f4a04d3e1bc3e18c4a990aeeb") 0) /\ is_Some (replicas (replication r.1.2) !! 1).
Proof.
  intros s r.
  set (m1 := generate_rdb_bytes sample_world (storage s)). set (m2 := generate_rdb_bytes (now m1.1.1 tt).1.1 m1.1.2).
  set (image (m : World * StorageEngine SkipList * flow bytes) := match m.2 with Go b => b | _ => [] end).
  assert (Hc : connections s !! 1 = Some (conn_new (B "127.0.0.1:6000") 0)) by (vm_compute; reflexivity).
  assert (Hm1 : m1.2 = Go (image m1)) by (vm_compute; reflexivity).
  assert (Hm2 : m2.2 = Go (image m2)) by (vm_compute; reflexivity).
  pose proof (sync_without_password s 1 (conn_new (B "127.0.0.1:6000") 0) (B "sync") (image m1) (image m2)
    (B "8371b4fb1155b71f4a04d3e1bc3e18c4a990aeeb") zero_id 0 0 [] sample_world m1.1.1 m2.1.1 m1.1.2 m2.1.2 Hc eq_refl
    (triple_eta m1 _ Hm1) (triple_eta m2 _ Hm2) eq_refl) as Hg.
  unfold r. destruct (run_handler _ sample_world s) as [[w' s'] x]. split; [exact (proj1 Hg)|exact (proj2 (proj2 Hg))].
Defined.

(** SET k v, then GET of a list: k is set, the client learns nothing and is
    gone; the other client is answered. *)
Lemma failed_command_drops_batch_witness :
  let before := [request [B "SET"; B "k"; B "v"]; request [B "LPUSH"; B "l"; B "x"]] in
  let f := request [B "GET"; B "l"] in
  let k := turn_sockets (sample_turn (fun i => if decide (i = 1) then wire (before ++ [f]) else wire [request [B "PING"]])) in
  let r := process_connections 32 64 0 k sample_world (sample_loop None) in
  (process_connection 32 64 0 (k 1) 1 sample_world (sample_server None)).2 = ([], Err (EStorage WrongType))
  /\ connections (srv r.1.2) !! 1 = None /\ is_Some (connections (srv r.1.2) !! 2)
  /\ value_of (storage (srv r.1.2)) 0 (B "k") = Some (VString (B "v")).
Proof.
  intros before f k r.
  set (s := sample_server None).
  set (c := default (conn_new (B "127.0.0.1:6000") 0) (connections s !! 1)).
  set (c1 := (first_phase 32 64 0 (k 1) c).1.1).
  set (m := process_frames 1 before sample_world (on_conn 1 (fun _ => c1) s)).
  set (h := run_handler (process_request f 1) m.1.1 (on_stats count_command m.1.2)).
  set (v := visit_connections 32 64 0 k [2] h.1.1 h.1.2).
  assert (Hm : m.2 = Ok [ok; Integer 1]) by (vm_compute; reflexivity).
  assert (Hh : h.2 = Err (EStorage WrongType)) by (vm_compute; reflexivity).
  assert (Hv : v.2 = Ok ([], [])) by (vm_compute; reflexivity).
  assert (Hids : filter (fun i => is_connection_blocked (core (srv (sample_loop None))) i = false)
                   (all_connection_ids (srv (sample_loop None))) = [] ++ 1 :: [2]) by (vm_compute; reflexivity).
  assert (Hc : connections s !! 1 = Some c) by (vm_compute; reflexivity).
  assert (Hr : first_phase 32 64 0 (k 1) c = (c1, [], ReadDone (before ++ [f]) false)) by (vm_compute; reflexivity).
  pose proof (failed_command_drops_batch 32 64 0 k (sample_loop None) 1 [] [2] [] [] [] [] sample_world sample_world m.1.1 h.1.1 v.1.1
    s m.1.2 h.1.2 v.1.2 c c1 [] before [] f false [ok; Integer 1] (EStorage WrongType) Hids eq_refl) as Hd.
  specialize (Hd Hc). specialize (Hd Hr). specialize (Hd (triple_eta m _ Hm)). specialize (Hd (triple_eta h _ Hh)).
  specialize (Hd (triple_eta v _ Hv)). destruct Hd as (E & _ & l' & El & Hn & Es & _ & Ho).
  assert (Hk : value_of (storage v.1.2) 0 (B "k") = Some (VString (B "v"))) by (vm_compute; reflexivity).
  assert (H2 : bool_decide (is_Some (connections v.1.2 !! 2)) = true) by (vm_compute; reflexivity).
  unfold r. rewrite El. split; [by rewrite E|]. split; [exact Hn|]. split; [|by rewrite <- Es in Hk].
  rewrite <- (Ho 2) in H2; [by apply bool_decide_eq_true in H2|done|by apply not_elem_of_nil].
Defined.
