(* ===== verification/ScriptAgrees.v ===== *)
(** * Scripts and clients agree

    A script reaches the store through CommandParser.v and Executor.v, a client
    through the dispatch of Server.v and the handlers of
    CollectionCommands.v.  The two readings of a call are written independently; on
    lists, sets and hashes they do the same, up to the form of an error. *)

From S2P Require Import Prelude Text Resp SortedSet Value PubSub StreamId Keyspace ListOps SetOps Command CommandLogic CollectionCommands.
From S2P Require Import StringOps StringCommands ZSetCommands StreamCommands GroupCommands CommandParser Executor ExecutorProofs Blocking Connection Replication LuaEngine Info Server SkipList SortedSetImpl Sample.

Open Scope Z_scope.

(** What a client is answered where a script gets an error. *)
Definition error_reply (e : ferrous_error) : RespFrame :=
  match e with
  | EStorage WrongType => error wrong_type_message
  | e => error (B "ERR " ++ show_error e)
  end.

Definition caught {S} (m : cmd S RespFrame) : cmd S RespFrame := fun w s =>
  match m w s with
  | (w', s', Fail e) => (w', s', Go (error_reply e))
  | r => r
  end.

(** The commands of the three families; SRANDMEMBER and SPOP answer a single
    member in another form. *)
Definition collection_command (c : Command) : bool :=
  match c with
  | CmdList _ | CmdHash _ => true
  | CmdSet (SRandMember _ _) | CmdSet (SPop _ _) => false
  | CmdSet _ => true
  | _ => false
  end.

(** ** Reading the arguments *)

Section reading.
Context {S : Type} `{F64Text} `{CaseMap}.

Lemma frame_at_ok frames i f : frame_at frames i = Ok f -> frames !! i = Some f.
Proof. unfold frame_at. destruct (frames !! i); [by intros [= ->]|done]. Qed.

Lemma extract_bytes_ok f b : extract_bytes f = Ok b -> f = BulkString (Some b).
Proof. destruct f as [| | |[]| | | | | | |]; try done. by intros [= ->]. Qed.

Lemma extract_string_ok f b : extract_string f = Ok b -> f = BulkString (Some b) /\ utf8_valid b = true.
Proof. destruct f as [| | |[s|]| | | | | | |]; try done. simpl. destruct (utf8_valid s) eqn:E; [by intros [= <-]|done]. Qed.

Lemma bytes_at_ok frames i b : bytes_at frames i = Ok b -> frames !! i = Some (BulkString (Some b)).
Proof. unfold bytes_at. by intros (f & Hf%frame_at_ok & ->%extract_bytes_ok)%obind_ok. Qed.

Lemma bind_bulk_arg {C} frames i b msg (k : bytes -> cmd S C) : bytes_at frames i = Ok b -> bind (bulk_arg frames i msg) k = k b.
Proof. intros E%bytes_at_ok. unfold bulk_arg, arg. by rewrite E. Qed.

Lemma bind_isize_arg {C} frames i n msg (k : Z -> cmd S C) : i64_at frames i = Ok n -> bind (isize_arg frames i msg) k = k n.
Proof.
  unfold i64_at, string_at. intros (s & (f & Hf%frame_at_ok & [-> Hs]%extract_string_ok)%obind_ok & Hp)%obind_ok.
  unfold parsed in Hp. unfold isize_arg, parsed_arg, bulk_arg, arg. rewrite Hf.
  unfold bind, ret. rewrite utf8_lossy_valid by done. destruct (parse_i64 s); [by injection Hp as ->|done].
Qed.

Lemma bulk_list_each frames l msg : each extract_bytes frames = Ok l -> bulk_list (S := S) frames msg = ret l.
Proof.
  revert l. induction frames as [|f frames IH]; intros l; [by intros [= <-]|]. simpl.
  intros (b & ->%extract_bytes_ok & (l' & Hl' & [= <-])%obind_ok)%obind_ok. by rewrite (IH l').
Qed.

Lemma bind_bulk_list {C} n frames l msg (k : list bytes -> cmd S C) :
  bytes_from n frames = Ok l -> bind (bulk_list (drop n frames) msg) k = k l.
Proof. intros E. by rewrite (bulk_list_each _ l). Qed.

Lemma bulks_only_each n frames l : bytes_from n frames = Ok l -> bulks_only (drop n frames) = l.
Proof.
  unfold bytes_from. generalize (drop n frames). clear frames. intros frames. revert l.
  induction frames as [|f frames IH]; intros l; [by intros [= <-]|]. simpl.
  intros (b & ->%extract_bytes_ok & (l' & Hl' & [= <-])%obind_ok)%obind_ok. simpl. by rewrite <- (IH l' Hl').
Qed.

Lemma bulk_pairs_pairs l : forall frames msg1 msg2,
  pairs extract_bytes frames = Ok l -> bulk_pairs (S := S) frames msg1 msg2 = ret l.
Proof.
  induction l as [|x l IH]; intros [|f [|g frames]] msg1 msg2 E; try done; simpl in E; apply obind_ok in E as (a & Ha & E); try done;
    apply obind_ok in E as (b & Hb & E); apply obind_ok in E as (l' & Hl' & E); [done|].
  simplify_eq. apply extract_bytes_ok in Ha as ->. apply extract_bytes_ok in Hb as ->. simpl. by rewrite IH.
Qed.

Lemma bind_bulk_pairs {C} frames l msg1 msg2 (k : list (bytes * bytes) -> cmd S C) :
  pairs extract_bytes frames = Ok l -> bind (bulk_pairs frames msg1 msg2) k = k l.
Proof. intros E. by rewrite (bulk_pairs_pairs l). Qed.

(** The arity of field-value pairs, from either end. *)
Lemma odd_pairs_even frames : (4 <= length frames)%nat -> (length frames mod 2 = 0)%nat -> odd_pairs frames = false.
Proof. intros Hl He. unfold odd_pairs. apply negb_false_iff, Nat.eqb_eq. apply (even_rest _ 2); [lia|done]. Qed.
End reading.

(** ** Answers *)

Section answers.
Context {ZS : Type} `{SortedSet ZS}.

Lemma answer_caught {A} (op : StorageEngine ZS -> StorageEngine ZS * outcome A) k w e :
  answer_or_error op k w e = caught (answered op k) w e.
Proof.
  unfold answer_or_error, caught, answered, catch_op, try_op, bind. destruct (op e) as [e' [a|err|]]; [done| |done].
  destruct err as [|[]|[]| | | |[]| |]; done.
Qed.

Lemma answer_now_caught {A} (op : Z -> StorageEngine ZS -> StorageEngine ZS * outcome A) k w e :
  (let* t := now in answer_or_error (op t) k) w e = caught (answered_now op k) w e.
Proof. apply answer_caught. Qed.
End answers.

(** The arity that the parser accepted is one that the handler accepts. *)
Ltac arity_refused :=
  lazymatch goal with
  | |- negb _ = false => apply negb_false_iff, Nat.eqb_eq; lia
  | |- (_ <? _)%nat = false => apply Nat.ltb_ge; lia
  | |- odd_pairs _ = false => apply odd_pairs_even; lia
  | |- (_ || _)%bool = false => apply orb_false_iff; split; arity_refused
  end.

(** Rewrite a handler with what its parser read. *)
Ltac same_reading :=
  repeat first
    [ rewrite bind_guard; [|arity; arity_refused]
    | erewrite bind_bulk_arg by eassumption
    | erewrite bind_isize_arg by eassumption
    | erewrite bind_bulk_list by eassumption
    | erewrite bind_bulk_pairs by eassumption
    | erewrite bulks_only_each by eassumption ];
  first [apply answer_caught | apply answer_now_caught].

(** ** The handlers *)

Section agreement.
Context {ZS : Type} `{SortedSet ZS} `{Layout} `{HashIter} `{Random} `{F64Text} `{CaseMap} `{Mlua} `{Resolver} `{Process}.

Abbreviation run c db := (execute (ZS := ZS) executor_new (mkParsedCommand c (Some db))).

(** The dispatch has a handler under the name, and it does on the frames what
    the executor does on the parsed command. *)
Definition answers_as (name : bytes) (frames : list RespFrame) (c : Command) : Prop :=
  exists h, find_command name (storage_commands (ZS := ZS)) = Some h
    /\ forall db w e, h db frames w e = caught (run c db) w e.

Definition agrees (p : bytes * (list RespFrame -> outcome Command)) : Prop :=
  forall frames c, p.2 frames = Ok c -> collection_command c = true -> answers_as p.1 frames c.

Lemma parsers_agree : Forall agrees parsers.
Proof.
  unfold parsers. repeat apply Forall_cons_2; [..|apply Forall_nil_2]; intros frames c E Hc; cbn [fst snd] in *; unfold via, fixed in E;
    parsed_ok E; subst c; try discriminate Hc; match goal with Ha : _ = Ok _ |- _ => parsed_ok Ha end; subst; try discriminate Hc;
    eexists; (split; [eapply find_command_at; [vm_compute; reflexivity|reflexivity]|]); intros db w e;
    unfold execute; cbn [db_override command execute_list execute_set execute_hash].
  all: lazymatch goal with |- ?t = _ => let h := head_of t in unfold h end; same_reading.
Qed.

(** C3. A script and a client that send the same call on a list, a set or a hash
    get the same: when the parser of scripts accepts the arguments (and the
    command is not SRANDMEMBER or SPOP), the dispatch of the server has a handler
    under the command's name, and on every store, every database and every world
    that handler leaves the same store and world and gives the reply of the
    executor, with an error of the executor in the form of a reply. *)
Theorem script_agrees (name : bytes) (args : list bytes) p :
  parse (map bulk_string (name :: args)) = Ok p -> collection_command (command p) = true ->
  answers_as (to_uppercase name) (map bulk_string (name :: args)) (command p).
Proof.
  intros E Hp. unfold parse in E. cbn [map] in E. apply obind_ok in E as (s & Hs & E). cbv zeta in E.
  apply extract_string_ok in Hs as [[= <-] _]. unfold find_parser in E.
  destruct (List.find _ _) as [[n q]|] eqn:Ef; [|done]. cbn [option_map snd] in E. apply obind_ok in E as (c & Hc & [= <-]).
  apply find_some in Ef as [Hin Hn%bool_decide_eq_true_1]. cbn [fst] in Hn. subst n.
  pose proof parsers_agree as Ha. rewrite Forall_forall in Ha.
  apply (Ha (to_uppercase name, q) ltac:(by apply list_elem_of_In) _ _ Hc Hp).
Qed.
End agreement.

(** LPUSH in small letters, and a call on a key of another type: a reply for the
    client, an error for the script. *)
Lemma script_agrees_witness :
  answers_as (ZS := SkipList) (B "HSET") (map bulk_string [B "hset"; B "k"; B "f"; B "v"]) (CmdHash (HSet (B "k") [(B "f", B "v")]))
  /\ let e := storage (after 1 (sample_server None) [request [B "SET"; B "k"; B "v"]]) in
     (execute_lua_command [B "hset"; B "k"; B "f"; B "v"] 0 sample_world e).2 = Fail (EStorage WrongType)
     /\ (caught (execute_lua_command [B "hset"; B "k"; B "f"; B "v"] 0) sample_world e).2 = Go (error wrong_type_message)
     /\ (handle_hset (ZS := SkipList) 0 (map bulk_string [B "hset"; B "k"; B "f"; B "v"]) sample_world e).2 = Go (error wrong_type_message).
Proof.
  split; [|vm_compute; repeat split].
  apply (script_agrees (ZS := SkipList) (B "hset") [B "k"; B "f"; B "v"]
           (mkParsedCommand (CmdHash (HSet (B "k") [(B "f", B "v")])) None)); [vm_compute; reflexivity|reflexivity].
Defined.
