(* ===== verification/ScriptServer.v ===== *)
(** * Scripts on the server: EVAL, EVALSHA and the script cache

    EVAL of a script that calls one command and returns what it got answers that
    command's reply in the form a script gives it; EVALSHA of a cached script is
    EVAL of its text on database 0. *)

From S2P Require Import Prelude Text Resp SortedSet Value PubSub Keyspace StringOps Command CommandLogic CommandParser Executor LuaEngine LuaRelay.
From S2P Require Import RespParser Connection Blocking Replication Info Server ServerLoop SkipList SortedSetImpl Sample.

Open Scope Z_scope.

(** A text that is there is read. *)
Lemma bind_text_arg {S C} parts i b m1 m2 (k : bytes -> cmd S C) :
  parts !! i = Some (bulk_string b) -> utf8_valid b = true -> bind (text_arg parts i m1 m2) k = k b.
Proof. intros Hp Hb. unfold text_arg, bulk_arg, arg. rewrite Hp. unfold bind, ret. simpl. by rewrite Hb. Qed.

(** ** EVAL of a single call *)

Section eval_relay.
Context {ZS : Type} `{SortedSet ZS} `{Layout} `{HashIter} `{F64Text} `{Random} `{CaseMap} `{MluaSpec}.

(** A thread that calls redis.call with [words] and returns what it gets. *)
Definition returns_call (words : list bytes) (t : thread) : Prop :=
  exists args v k, resume t = Calls false args v k /\ command_arguments args = inl words
    /\ forall v' x, resume (k v' (inl x)) = Finished v' (inl x).

Lemma eval_one_call script keys args db name rest f (w w' : World) (e e' : StorageEngine ZS) :
  (forall v, globals_hold v keys args -> returns_call (name :: rest) (start script v)) ->
  refused_in_scripts (to_uppercase name) = None ->
  run_handler (execute_lua_command (name :: rest) db) w e = (w', e', Ok f) ->
  has_error f = false -> (cost f <= script_fuel)%nat -> (2 <= script_fuel)%nat ->
  eval script keys args db w e = (w', e', Go (relay f)).
Proof.
  intros Hstart Hopen Hcall Hplain Hcost Hfuel. unfold eval.
  destruct context_succeeds as ([] & v & -> & Hlive & _).
  destruct (setup_succeeds keys args v (Hlive _ spec_globals)) as ([] & v1 & -> & _ & Hglobals).
  cbn [or_lua_error try_op reads bind]. unfold bind.
  destruct (Hstart v1 Hglobals) as (cargs & v2 & k & Hr & Ha & Hk).
  destruct (relayed_all false f Hplain v2) as (x & v3 & Hx & _ & _ & Hconv).
  destruct script_fuel as [|[|fuel]] eqn:Ef; [lia..|]. rewrite <- Ef in *.
  assert (Hthread : run_thread script_fuel db (start script v1) w e = (w', e', Go (Some (v3, inl x)))).
  { rewrite Ef. cbn [run_thread]. rewrite Hr. unfold bind, execute_unified_redis_command. rewrite Ha, Hopen, Hcall.
    unfold answer_with, ret. rewrite Hx. cbn [fst snd]. by rewrite Hk. }
  rewrite Hthread. rewrite (Hconv v3); [done| |done]. by intros t _ _.
Qed.

Lemma strings_of_bulks l : strings_of (map bulk_string l) = Some l.
Proof. induction l as [|b l IH]; [done|]. simpl. by rewrite IH. Qed.

(** EVAL as a client sends it. *)
Definition eval_request (script : bytes) (keys args : list bytes) : list RespFrame :=
  map bulk_string (B "EVAL" :: script :: show_u64 (Z.of_nat (length keys)) :: keys ++ args).

Lemma bind_num_keys {C} parts n (k : Z -> cmd (StorageEngine ZS) C) :
  parts !! 2%nat = Some (bulk_string (show_u64 n)) -> in_u64 n -> bind (num_keys_arg parts) k = k n.
Proof.
  intros Hp Hn. unfold num_keys_arg, arg. rewrite Hp. unfold bind, ret, bulk_string.
  by rewrite show_u64_valid, parse_show_u64 by (unfold in_u64 in Hn; lia || done).
Qed.

Lemma keys_and_args_read script keys args : 3 + Z.of_nat (length keys) <= u64_max ->
  process_keys_and_args (eval_request script keys args) 3 (Z.of_nat (length keys)) = Ok (inl (keys, args)).
Proof.
  intros Hk. unfold process_keys_and_args, eval_request. cbn [map length]. rewrite length_map, length_app.
  destruct (Z.ltb_spec u64_max (3 + Z.of_nat (length keys))); [lia|].
  destruct (Z.ltb_spec (Z.of_nat (S (S (S (length keys + length args))))) (3 + Z.of_nat (length keys))); [lia|].
  replace (Z.to_nat 3) with 3%nat by done. cbn [drop].
  rewrite drop_0, Nat2Z.id, map_app, take_app_length', strings_of_bulks by by rewrite length_map.
  replace (Z.to_nat (3 + Z.of_nat (length keys))) with (3 + length keys)%nat by lia. cbn [drop Nat.add].
  by rewrite drop_app_length', strings_of_bulks by by rewrite length_map.
Qed.

Lemma eval_request_read script keys args db (w : World) (e : StorageEngine ZS) :
  utf8_valid script = true -> 3 + Z.of_nat (length keys) <= u64_max ->
  handle_eval_with_db db (eval_request script keys args) w e
  = match eval script keys args db w e with
    | (w', e', Fail err) => (w', e', Go (error (eval_error_text err)))
    | r => r
    end.
Proof.
  intros Hs Hk. unfold handle_eval_with_db.
  change (length (eval_request script keys args) <? 3)%nat with false. cbn [guard]. unfold bind at 1, ret.
  rewrite (bind_text_arg _ 1 script), (bind_num_keys _ (Z.of_nat (length keys))) by (done || unfold in_u64; lia || done).
  unfold keys_and_args. rewrite keys_and_args_read by done. done.
Qed.

(** C26. What a script passes on.  Take any script that, with the keys and
    arguments of the call in KEYS and ARGV, calls redis.call with some words and
    returns what it gets.  When that call is open to scripts and gives a reply
    without an error in it, EVAL leaves the store and the world as the command
    leaves them, and answers the command's reply as a script can say it: texts
    are made UTF-8, a status becomes a bulk string, an array stops before its
    first nil, and an empty array is nil. *)
Theorem eval_relays (script : bytes) (keys args : list bytes) (db : nat) (name : bytes) (rest : list bytes) (f : RespFrame)
    (w w' : World) (e e' : StorageEngine ZS)
    (Hscript : utf8_valid script = true) (Hkeys : 3 + Z.of_nat (length keys) <= u64_max)
    (Hstart : forall v, globals_hold v keys args -> returns_call (name :: rest) (start script v))
    (Hopen : refused_in_scripts (to_uppercase name) = None)
    (Hcall : run_handler (execute_lua_command (name :: rest) db) w e = (w', e', Ok f))
    (Hplain : has_error f = false) (Hcost : (cost f <= script_fuel)%nat) (Hfuel : (2 <= script_fuel)%nat) :
  run_handler (eval_command db (eval_request script keys args)) w e = (w', e', Ok (relay f)).
Proof.
  unfold run_handler, eval_command. rewrite eval_request_read by done.
  by rewrite (eval_one_call _ _ _ _ _ _ _ _ _ _ _ Hstart Hopen Hcall Hplain Hcost Hfuel).
Qed.
End eval_relay.

(** ** The interpreter of the examples keeps the rules *)

Lemma toy_next (h : gmap nat (gmap (bytes + Z) (LuaValue nat HostFunction))) t : is_Some (h !! t) -> t <> ToyLua.next h.
Proof.
  intros [m Hm%elem_of_map_to_list]. unfold ToyLua.next.
  assert (Hle : (t <= foldr (fun p n => Nat.max p.1 n) 0 (map_to_list h))%nat); [|lia].
  induction (map_to_list h) as [|[t' m'] l IH]; [by apply elem_of_nil in Hm|]. simpl.
  apply elem_of_cons in Hm as [[= <- <-]|Hm]; [lia|]. specialize (IH Hm). lia.
Qed.

Lemma key_code_inj k k' : ToyLua.key_code k = ToyLua.key_code k' -> k = k'.
Proof. destruct k, k'; by intros [= ->]. Qed.

(** A new table, and a field that is set, in the heap. *)
Lemma toy_fresh (h : gmap nat (gmap (bytes + Z) (LuaValue nat HostFunction))) (h' := <[ToyLua.next h := ∅]> h) :
  is_Some (h' !! ToyLua.next h) /\ (forall k, ToyLua.look h' (ToyLua.next h) k = LNil)
  /\ forall t, is_Some (h !! t) -> is_Some (h' !! t) /\ forall k, ToyLua.look h' t k = ToyLua.look h t k.
Proof.
  unfold h', ToyLua.look. rewrite lookup_insert_eq. split; [by eexists|]. split; [done|].
  intros t Ht. rewrite lookup_insert_ne by (intros Heq; by apply (toy_next h t Ht)). done.
Qed.

Lemma toy_stored h t k x (h' := ToyLua.store h t k x) :
  ToyLua.look h' t k = x /\ (forall k', k' <> k -> ToyLua.look h' t k' = ToyLua.look h t k')
  /\ (forall t', is_Some (h !! t') -> is_Some (h' !! t'))
  /\ forall t' k', t' <> t -> ToyLua.look h' t' k' = ToyLua.look h t' k'.
Proof.
  unfold h', ToyLua.look, ToyLua.store. rewrite lookup_insert_eq. simpl. split_and!.
  - by rewrite lookup_insert_eq.
  - intros k' Hk. rewrite lookup_insert_ne by (intros Hc%key_code_inj; by destruct Hk).
    destruct (h !! t) eqn:Ht; simpl; by rewrite ?lookup_empty.
  - intros t' Ht'. destruct (decide (t' = t)) as [->|Hne]; [by rewrite lookup_insert_eq; eexists|by rewrite lookup_insert_ne].
  - intros t' k' Hne. by rewrite lookup_insert_ne.
Qed.

#[export, refine] Instance toy_spec : MluaSpec :=
  {| live h t := is_Some (h !! t); peek := ToyLua.look |}.
Proof.
  - by eexists.
  - done.
  - intros f v. by exists f.
  - done.
  - intros h. exists (ToyLua.next h), (<[ToyLua.next h := ∅]> h). split; [done|].
    split; [by intros Hn%toy_next|exact (toy_fresh h)].
  - intros t k x h _. exists (ToyLua.store h t k x). destruct (toy_stored h t k x) as (H1 & H2 & H3 & H4).
    split; [done|]. split; [exact H1|]. split; [exact H2|]. split; [exact H3|]. intros t' k' Hne _. by apply H4.
Defined.

Lemma toy_items t l : forall n i h, (length l < n)%nat ->
  (forall j s, l !! j = Some s -> ToyLua.look h t (KIndex (i + Z.of_nat j)) = LString (utf8_lossy s)) ->
  ToyLua.look h t (KIndex (i + Z.of_nat (length l))) = LNil ->
  ToyLua.items n h t i = map (fun s => LString (utf8_lossy s)) l.
Proof.
  induction l as [|s l IH]; intros [|n] i h Hl Hs Hend; simpl in Hl; try lia; cbn [ToyLua.items map].
  - rewrite Z.add_0_r in Hend. by rewrite Hend.
  - pose proof (Hs 0%nat s eq_refl) as H0. rewrite Z.add_0_r in H0. rewrite H0. f_equal. apply IH; [lia| |].
    + intros j s' Hj. rewrite <- (Hs (S j) s' Hj). do 2 f_equal. lia.
    + rewrite <- Hend. cbn [length]. do 2 f_equal. lia.
Qed.

(** A script of the toy language other than the two special ones calls ARGV. *)
Lemma toy_returns_call `{F64Text} script keys args words v :
  script <> B "loop" -> script <> B "pcall" -> (length args < 64)%nat ->
  command_arguments (map (fun s => LString (utf8_lossy s)) args) = inl words ->
  globals_hold v keys args -> returns_call words (start script v).
Proof.
  intros Hloop Hpcall Hlen Hargs (_ & (t & _ & _ & Hname & Hs & Hend)).
  exists (ToyLua.argv v), v, ToyLua.Done. split_and!; [|unfold ToyLua.argv|done].
  - cbn. by rewrite !bool_decide_eq_false_2 by done.
  - change (ToyLua.look v 0 (KName (B "ARGV")) = LTable t) in Hname. rewrite Hname. by rewrite (toy_items t args).
Qed.

Lemma pairs_eta {A1 A2 A3} (p : A1 * A2 * A3) : p = (p.1.1, p.1.2, p.2).
Proof. by destruct p as [[]]. Qed.

(** HGETALL of a hash with one field, through a script. *)
Lemma eval_relays_witness :
  let e := storage (after 1 (sample_server None) [request [B "HSET"; B "h"; B "f"; B "v"]]) in
  let call := execute_lua_command [B "HGETALL"; B "h"] 0 in
  run_handler (eval_command 0 (eval_request (B "return redis.call(unpack(ARGV))") [] [B "HGETALL"; B "h"])) sample_world e
  = ((run_handler call sample_world e).1.1, (run_handler call sample_world e).1.2,
     Ok (Array (Some [bulk_string (B "f"); bulk_string (B "v")]))).
Proof.
  intros e call.
  assert (Hr : (run_handler call sample_world e).2 = Ok (Array (Some [bulk_string (B "f"); bulk_string (B "v")])))
    by (vm_compute; reflexivity).
  refine (eval_relays (B "return redis.call(unpack(ARGV))") [] [B "HGETALL"; B "h"] 0 (B "HGETALL") [B "h"]
    (Array (Some [bulk_string (B "f"); bulk_string (B "v")])) sample_world _ e _ _ _ _ _ _ _ _ _).
  - vm_compute. reflexivity.
  - vm_compute. discriminate.
  - intros v Hv. apply (toy_returns_call _ [] [B "HGETALL"; B "h"]); [discriminate..|vm_compute; lia|vm_compute; reflexivity|exact Hv].
  - vm_compute. reflexivity.
  - rewrite <- Hr. apply pairs_eta.
  - reflexivity.
  - vm_compute. lia.
  - vm_compute. lia.
Defined.

(** ** EVALSHA *)

Section evalsha.
Context {ZS : Type} `{SortedSet ZS} `{Layout} `{HashIter} `{F64Text} `{Random} `{CaseMap} `{Mlua} `{Resolver} `{Process}.

(** The handler of EVAL answers or panics. *)
Definition never_fails {A} (m : cmd (StorageEngine ZS) A) : Prop := forall w e err, (m w e).2 <> Fail err.

Lemma never_fails_bind {A C} (m : cmd (StorageEngine ZS) A) (k : A -> cmd _ C) :
  never_fails m -> (forall a, never_fails (k a)) -> never_fails (bind m k).
Proof.
  intros Hm Hk w e err. unfold bind. specialize (Hm w e). destruct (m w e) as [[w' e'] [a|f|err'|]]; cbn [snd] in *; try done.
  - apply Hk.
  - intros [= ->]. by apply (Hm err).
Qed.

Lemma never_fails_bulk_arg parts i msg : never_fails (bulk_arg parts i msg).
Proof.
  unfold bulk_arg. apply never_fails_bind; [unfold arg; by destruct (parts !! i)|].
  by intros [| | |[]| | | | | | |].
Qed.

Lemma eval_never_fails db parts : never_fails (handle_eval_with_db db parts).
Proof.
  unfold handle_eval_with_db. apply never_fails_bind; [by destruct (_ <? _)%nat|]. intros _.
  apply never_fails_bind; [apply never_fails_bind; [apply never_fails_bulk_arg|intros b; by destruct (utf8_valid b)]|]. intros script.
  apply never_fails_bind.
  { apply never_fails_bind; [unfold arg; by destruct (parts !! 2%nat)|].
    intros [| |n|[b|]| | | | | | |]; try done; [by destruct (n <? 0)|]. destruct (utf8_valid b); [|done]. by destruct (parse_u64 b). }
  intros n. apply never_fails_bind.
  { apply never_fails_bind; [|by intros []]. unfold process_keys_and_args, try_op, reads. intros w e err.
    destruct (_ <? _); [done|]. destruct (_ <? _); [done|]. destruct (strings_of _); [|done]. by destruct (strings_of _). }
  intros [keys args] w e err. by destruct (eval script keys args db w e) as [[w' e'] []].
Qed.

Lemma eval_command_handler db parts w (e : StorageEngine ZS) : eval_command db parts w e = handle_eval_with_db db parts w e.
Proof.
  unfold eval_command. pose proof (eval_never_fails db parts w e) as Hf.
  destruct (handle_eval_with_db db parts w e) as [[w' e'] [a|f|err|]]; try done. by destruct (Hf err).
Qed.

(** The three commands on the cache. *)
Lemma script_load_exact script sha (s : Server ZS) w : utf8_valid script = true -> script_load script = Ok sha ->
  run_handler (handle_script_command (map bulk_string [B "SCRIPT"; B "LOAD"; script])) w s
  = (w, set_scripts (<[sha := script]> (script_cache s)) s, Ok (bulk_string sha)).
Proof.
  intros Ht Hl. unfold run_handler, handle_script_command. rewrite bind_guard by done.
  rewrite (bind_text_arg _ 1 (B "LOAD")) by done. change (to_lowercase (B "LOAD")) with (B "load").
  rewrite bool_decide_eq_true_2 by done. unfold handle_script_load_command. rewrite bind_guard by done.
  unfold handle_script_load. cbn. rewrite Ht, Hl. done.
Qed.

Lemma script_flush_exact (s : Server ZS) w :
  run_handler (handle_script_command (map bulk_string [B "SCRIPT"; B "FLUSH"])) w s = (w, set_scripts ∅ s, Ok ok).
Proof. reflexivity. Qed.

Definition evalsha_call (sha : bytes) (num_keys : RespFrame) (rest : list RespFrame) : list RespFrame :=
  bulk_string (B "EVALSHA") :: bulk_string sha :: num_keys :: rest.

Lemma evalsha_found script sha num_keys rest (s : Server ZS) w :
  script_cache s !! sha = Some script -> utf8_valid sha = true ->
  handle_evalsha_command (evalsha_call sha num_keys rest) w s
  = on_engine (eval_command 0 (bulk_string (B "EVAL") :: bulk_string script :: num_keys :: rest)) w s.
Proof.
  intros Hc Hs. unfold handle_evalsha_command. rewrite bind_guard by done. rewrite (bind_text_arg _ 1 sha) by done.
  unfold bind, get_server. rewrite Hc. unfold on_engine. by rewrite eval_command_handler.
Qed.

Lemma evalsha_missing sha num_keys rest (s : Server ZS) w :
  script_cache s !! sha = None -> utf8_valid sha = true ->
  handle_evalsha_command (evalsha_call sha num_keys rest) w s
  = (w, s, Reply (error (B "NOSCRIPT No matching script. Please use EVAL."))).
Proof.
  intros Hc Hs. unfold handle_evalsha_command. rewrite bind_guard by done. rewrite (bind_text_arg _ 1 sha) by done.
  unfold bind, get_server. by rewrite Hc.
Qed.

(** C27. EVALSHA runs in database 0.  After SCRIPT LOAD of a script that compiles,
    the script is in the cache under its hash and nothing else changed; EVALSHA
    of the hash, from a connection in any database, does and answers what EVAL
    of the script with the same arguments does in database 0; after SCRIPT FLUSH
    it answers NOSCRIPT. *)
Theorem evalsha_exact (script sha : bytes) (num_keys : RespFrame) (rest : list RespFrame) (db : nat) (id : Z)
    (s : Server ZS) (w : World)
    (Htext : utf8_valid script = true) (Hhash : utf8_valid sha = true) (Hload : script_load script = Ok sha) :
  let call := evalsha_call sha num_keys rest in
  let s1 := set_scripts (<[sha := script]> (script_cache s)) s in
  run_handler (route (B "SCRIPT") db id (map bulk_string [B "SCRIPT"; B "LOAD"; script])) w s = (w, s1, Ok (bulk_string sha))
  /\ run_handler (route (B "EVALSHA") db id call) w s1
     = run_handler (route (B "EVAL") 0 id (bulk_string (B "EVAL") :: bulk_string script :: num_keys :: rest)) w s1
  /\ (let s2 := (run_handler (route (B "SCRIPT") db id (map bulk_string [B "SCRIPT"; B "FLUSH"])) w s1).1.2 in
     run_handler (route (B "EVALSHA") db id call) w s2
     = (w, s2, Ok (error (B "NOSCRIPT No matching script. Please use EVAL.")))).
Proof.
  assert (Hscript : forall parts, route (B "SCRIPT") db id parts = handle_script_command parts) by reflexivity.
  assert (Hsha : forall parts, route (B "EVALSHA") db id parts = handle_evalsha_command parts) by reflexivity.
  assert (Heval : forall parts, route (B "EVAL") 0 id parts = on_engine (eval_command 0 parts)) by reflexivity.
  intros call s1. rewrite !Hscript, !Hsha, Heval. split_and!.
  - by rewrite (script_load_exact script sha).
  - unfold run_handler, call. rewrite (evalsha_found script) by (done || apply lookup_insert_eq). done.
  - rewrite script_flush_exact. unfold run_handler, call. cbn [fst snd].
    rewrite evalsha_missing by (done || apply lookup_empty). done.
Qed.
End evalsha.

(** A client in database 1 loads a script and calls it: the list is pushed in database 0. *)
Lemma evalsha_exact_witness :
  let script := B "return redis.call(unpack(ARGV))" in
  let words := map bulk_string [B "RPUSH"; B "l"; B "x"] in
  let s1 := set_scripts (<[script := script]> ∅) (sample_server None) in
  let p := run_handler (route (B "EVALSHA") 1 1 (evalsha_call script (Integer 0) words)) sample_world s1 in
  p = run_handler (route (B "EVAL") 0 1 (bulk_string (B "EVAL") :: bulk_string script :: Integer 0 :: words)) sample_world s1
  /\ p.2 = Ok (Integer 1)
  /\ (run_handler (route (B "LLEN") 0 1 (map bulk_string [B "LLEN"; B "l"])) p.1.1 p.1.2).2 = Ok (Integer 1).
Proof.
  intros script words s1 p. split_and!; [|vm_compute; reflexivity..].
  exact (proj1 (proj2 (evalsha_exact script script (Integer 0) words 1 1 (sample_server None) sample_world
    ltac:(vm_compute; reflexivity) ltac:(vm_compute; reflexivity) ltac:(vm_compute; reflexivity)))).
Defined.
