(* ===== verification/ReplicaProofs.v ===== *)
(** * A replica follows its master

    The handlers of src/replication/client.rs do what the handlers of the same
    commands did on the master; run on another clock and with other draws they
    leave the same data with later deadlines; and the loop over the reads applies
    every command it is sent, however the bytes are cut into reads.  The retries
    of the thread are counted and delayed as configured. *)

From S2P Require Import Prelude Text Resp SortedSet SkipList SortedSetImpl Value PubSub RespParser RespProofs ReadLoop Connection Keyspace.
From S2P Require Import StringOps ListOps SetOps ZSetOps Scan Command CommandLogic CollectionCommands StringCommands ZSetCommands.
From S2P Require Import StreamCommands GroupCommands Blocking Replication LuaEngine Info Server ReplicaClient Sample.

Open Scope Z_scope.

(** ** Numbers *)

Lemma parse_digits_mono lo lo' hi hi' acc s n :
  lo' <= 0 -> 0 <= acc -> hi <= hi' -> parse_digits lo hi 1 acc s = Some n -> parse_digits lo' hi' 1 acc s = Some n.
Proof.
  intros Hlo. revert acc. induction s as [|c s IH]; intros acc Ha Hhi; [done|]. simpl.
  destruct (is_digit c) eqn:Ed; [|done]. unfold is_digit in Ed. apply andb_prop in Ed as [? ?].
  intros E. destruct ((lo <=? _) && _) eqn:Eb; [|done]. apply andb_prop in Eb as [? ?].
  rewrite (proj2 (andb_true_iff _ _)); [apply IH; [lia|lia|done]|lia].
Qed.

Lemma parse_digits_neg lo hi acc s n : acc <= 0 -> parse_digits lo hi (-1) acc s = Some n -> n <= 0.
Proof.
  revert acc. induction s as [|c s IH]; intros acc Ha; simpl; [intros [= <-]; lia|].
  destruct (is_digit c) eqn:Ed; [|done]. unfold is_digit in Ed. apply andb_prop in Ed as [? ?].
  destruct ((lo <=? _) && _); [|done]. apply IH. lia.
Qed.

(** A positive signed number is read as the same unsigned one. *)
Lemma parse_positive s n : parse_i64 s = Some n -> 0 < n -> parse_u64 s = Some n.
Proof.
  unfold parse_i64, parse_u64. intros E Hn. destruct s as [|c s]; [done|]. destruct (c =b "+"%byte).
  - destruct s; [done|]. eapply parse_digits_mono; [..|exact E]; unfold i64_max, u64_max; lia.
  - destruct (c =b "-"%byte).
    + destruct s; [done|]. apply parse_digits_neg in E; lia.
    + eapply parse_digits_mono; [..|exact E]; unfold i64_max, u64_max; lia.
Qed.

(** ** Handlers that answered *)

Section answered.
Context {S : Type}.

(** The handler answered with a reply that is not an error. *)
Definition answered (m : cmd S RespFrame) (w : World) (s : S) (w' : World) (s' : S) : Prop :=
  exists f, run_handler m w s = (w', s', Ok f) /\ is_error f = false.

Variables (w : World) (s : S) (w' : World) (s' : S).

Lemma answered_ret f : answered (ret f) w s w' s' -> w' = w /\ s' = s.
Proof. by intros (g & [= <- <- <-] & _). Qed.

Lemma answered_reply_error msg : answered (reply_error msg) w s w' s' -> False.
Proof. by intros (g & [= <- <- <-] & ?). Qed.

Lemma answered_crash : answered crash w s w' s' -> False.
Proof. by intros (g & ? & _). Qed.

Lemma answered_guard b msg (k : unit -> cmd S RespFrame) :
  answered (bind (guard b msg) k) w s w' s' -> b = false /\ answered (k tt) w s w' s'.
Proof. destruct b; [|done]. by intros (g & [= <- <- <-] & ?). Qed.

Lemma answered_bulk_arg parts i msg (k : bytes -> cmd S RespFrame) :
  answered (bind (bulk_arg parts i msg) k) w s w' s' ->
  exists b, parts !! i = Some (BulkString (Some b)) /\ answered (k b) w s w' s'.
Proof.
  unfold bulk_arg, arg. intros (f & E & Hf). unfold run_handler, bind in E.
  destruct (parts !! i) as [[| | |[b|]| | | | | | |]|]; simpl in E; try (by injection E as <- <- <-); try discriminate E.
  exists b. split; [done|]. by exists f.
Qed.

Lemma answered_parsed {A} (p : bytes -> option A) parts i invalid msg (k : A -> cmd S RespFrame) :
  answered (bind (parsed_arg p parts i invalid msg) k) w s w' s' ->
  exists b a, parts !! i = Some (BulkString (Some b)) /\ p (utf8_lossy b) = Some a /\ answered (k a) w s w' s'.
Proof.
  unfold parsed_arg, bulk_arg, arg. intros (f & E & Hf). unfold run_handler, bind in E.
  destruct (parts !! i) as [[| | |[b|]| | | | | | |]|]; simpl in E; try (by injection E as <- <- <-); try discriminate E.
  destruct (p (utf8_lossy b)) as [a|] eqn:Ep; simpl in E; [|by injection E as <- <- <-].
  exists b, a. split_and!; [done|done|]. by exists f.
Qed.

Lemma bulk_list_result frames msg :
  (exists l, bulk_list frames msg = (ret l : cmd S _) /\ bulks_only frames = l /\ length l = length frames)
  \/ bulk_list frames msg = (reply_error msg : cmd S _).
Proof.
  induction frames as [|[| | |[b|]| | | | | | |] frames IH]; try (by right); [by left; exists []|].
  destruct IH as [(l & E & Ho & Hl)|E]; [left; exists (b :: l)|right]; simpl; rewrite E; [|done].
  split_and!; [done| |by simpl; f_equal]. unfold bulks_only in *. simpl. by rewrite Ho.
Qed.

Lemma answered_bulk_list frames msg (k : list bytes -> cmd S RespFrame) :
  answered (bind (bulk_list frames msg) k) w s w' s' ->
  length (bulks_only frames) = length frames /\ answered (k (bulks_only frames)) w s w' s'.
Proof.
  destruct (bulk_list_result frames msg) as [(l & -> & <- & Hl)| ->]; [done|]. by intros (g & [= <- <- <-] & ?).
Qed.

Lemma bulk_pairs_result frames msg1 msg2 :
  (bulk_pairs frames msg1 msg2 = (ret (pairs_only frames) : cmd S _) /\ length frames = (2 * length (pairs_only frames))%nat)
  \/ (exists msg, bulk_pairs frames msg1 msg2 = (reply_error msg : cmd S _)) \/ bulk_pairs frames msg1 msg2 = (crash : cmd S _).
Proof.
  revert frames. fix IH 1. intros [|[| | |[a|]| | | | | | |] frames]; try (by right; left; eexists); [by left|].
  destruct frames as [|[| | |[b|]| | | | | | |] frames]; try (by right; left; eexists); [by right; right|].
  destruct (IH frames) as [[E Hl]|[[msg E]|E]]; simpl; rewrite E; [left|right; left; by eexists|by right; right].
  split; [done|]. simpl. lia.
Qed.

Lemma answered_bulk_pairs frames msg1 msg2 (k : list (bytes * bytes) -> cmd S RespFrame) :
  answered (bind (bulk_pairs frames msg1 msg2) k) w s w' s' ->
  length frames = (2 * length (pairs_only frames))%nat /\ answered (k (pairs_only frames)) w s w' s'.
Proof.
  destruct (bulk_pairs_result frames msg1 msg2) as [[-> Hl]|[[msg ->]| ->]]; [done|by intros (g & [= <- <- <-] & ?)|].
  by intros (g & ? & ?).
Qed.

Lemma answered_try_op {A} (op : S -> S * outcome A) (k : A -> cmd S RespFrame) :
  answered (bind (try_op op) k) w s w' s' -> exists a s1, op s = (s1, Ok a) /\ answered (k a) w s1 w' s'.
Proof.
  intros (f & E & Hf). unfold run_handler, bind, try_op in E. destruct (op s) as [s1 [a|e|]]; [|done..].
  exists a, s1. split; [done|]. by exists f.
Qed.

Lemma answered_or_error {A} (op : S -> S * outcome A) k :
  answered (answer_or_error op k) w s w' s' -> exists a, op s = (s', Ok a) /\ w' = w.
Proof.
  intros (f & E & Hf). unfold run_handler, answer_or_error, bind, catch_op in E. destruct (op s) as [s1 [a|e|]]; [| |done].
  - injection E as <- <- <-. by exists a.
  - exfalso. destruct e as [|[]|[]| | | |[]| |]; by injection E as <- <- <-.
Qed.
End answered.

Lemma answered_now {S} (k : Z -> cmd S RespFrame) w s w' s' :
  answered (bind now k) w s w' s' -> exists t w1, now w s = (w1, s, Go t) /\ answered (k t) w1 s w' s'.
Proof. intros (f & E & Hf). eexists _, _. split; [reflexivity|]. by exists f. Qed.

Lemma answered_draw {S} (k : Z -> cmd S RespFrame) w s w' s' :
  answered (bind draw k) w s w' s' -> exists t w1, draw w s = (w1, s, Go t) /\ answered (k t) w1 s w' s'.
Proof. intros (f & E & Hf). eexists _, _. split; [reflexivity|]. by exists f. Qed.

Lemma bind_goes {S A C} (m : cmd S A) (k : A -> cmd S C) w s w1 s1 a :
  m w s = (w1, s1, Go a) -> bind m k w s = k a w1 s1.
Proof. intros E. unfold bind. by rewrite E. Qed.

Lemma answered_assoc {S A C} (m : cmd S A) (k1 : A -> cmd S C) (k2 : C -> cmd S RespFrame) w s w' s' :
  answered (bind (bind m k1) k2) w s w' s' -> answered (bind m (fun a => bind (k1 a) k2)) w s w' s'.
Proof.
  intros (f & E & Hf). exists f. split; [|done]. rewrite <- E. unfold run_handler, bind. by destruct (m w s) as [[? ?] []].
Qed.

Lemma answered_ret_bind {S A} (a : A) (k : A -> cmd S RespFrame) w s w' s' :
  answered (bind (ret a) k) w s w' s' -> answered (k a) w s w' s'.
Proof. done. Qed.

(** Take apart what a handler did. *)
Ltac answers :=
  repeat lazymatch goal with
  | Ha : answered (bind (bind _ _) _) _ _ _ _ |- _ => apply answered_assoc in Ha
  | Ha : answered (bind (ret _) _) _ _ _ _ |- _ => apply answered_ret_bind in Ha; cbv beta in Ha
  | Ha : answered (bind draw _) _ _ _ _ |- _ =>
      let r := fresh "r" in let w1 := fresh "w1" in let Hr := fresh "Hr" in
      apply answered_draw in Ha as (r & w1 & Hr & Ha); cbv beta in Ha
  | Ha : answered (bind (guard _ _) _) _ _ _ _ |- _ => let Hg := fresh "Hg" in apply answered_guard in Ha as [Hg Ha]; cbv beta in Ha
  | Ha : answered (bind (bulk_arg _ _ _) _) _ _ _ _ |- _ =>
      let b := fresh "b" in let Hb := fresh "Hb" in apply answered_bulk_arg in Ha as (b & Hb & Ha); cbv beta in Ha
  | Ha : answered (bind (isize_arg _ _ _) _) _ _ _ _ |- _ =>
      let b := fresh "b" in let n := fresh "n" in let Hb := fresh "Hb" in let Hn := fresh "Hn" in
      apply answered_parsed in Ha as (b & n & Hb & Hn & Ha); cbv beta in Ha
  | Ha : answered (bind (bulk_list _ _) _) _ _ _ _ |- _ =>
      let Hl := fresh "Hl" in apply answered_bulk_list in Ha as [Hl Ha]; cbv beta in Ha
  | Ha : answered (bind (bulk_pairs _ _ _) _) _ _ _ _ |- _ =>
      let Hl := fresh "Hl" in apply answered_bulk_pairs in Ha as [Hl Ha]; cbv beta in Ha
  | Ha : answered (bind now _) _ _ _ _ |- _ =>
      let t := fresh "t" in let w1 := fresh "w1" in let Ht := fresh "Ht" in
      apply answered_now in Ha as (t & w1 & Ht & Ha); cbv beta in Ha
  | Ha : answered (bind (try_op _) _) _ _ _ _ |- _ =>
      let a := fresh "a" in let s1 := fresh "s1" in let Hop := fresh "Hop" in
      apply answered_try_op in Ha as (a & s1 & Hop & Ha); cbv beta in Ha
  | Ha : answered (answer_or_error _ _) _ _ _ _ |- _ =>
      let a := fresh "a" in let Hop := fresh "Hop" in apply answered_or_error in Ha as (a & Hop & ->)
  | Ha : answered (ret _) _ _ _ _ |- _ => apply answered_ret in Ha as [-> ->]
  end.

Section follows.
Context {ZS : Type} `{SortedSet ZS} `{Layout} `{HashIter} `{Random} `{F64Text} `{CaseMap} `{Mlua} `{Resolver} `{Process}.
Abbreviation engine := (StorageEngine ZS).

(** What the handler did on the master, the replica does. *)
Definition follows (h : nat -> list RespFrame -> cmd engine RespFrame) (r : list RespFrame -> cmd engine unit)
    (parts : list RespFrame) : Prop :=
  forall w e w' e', answered (h 0%nat parts) w e w' e' -> r parts w e = (w', e', Go tt).

Lemma with_bulk_at parts i b (k : bytes -> cmd engine unit) : parts !! i = Some (BulkString (Some b)) -> with_bulk parts i k = k b.
Proof. intros E. unfold with_bulk, arg. by rewrite E. Qed.

Lemma ignored_ok {A} (op : engine -> engine * outcome A) w e e' a : op e = (e', Ok a) -> ignored op w e = (w, e', Go tt).
Proof. intros E. unfold ignored, bind, catch_op. by rewrite E. Qed.

Lemma try_then_unit {A} (op : engine -> engine * outcome A) w e e' a :
  op e = (e', Ok a) -> (let* _ := try_op op in ret tt) w e = (w, e', Go tt).
Proof. intros E. unfold bind, try_op. by rewrite E. Qed.

(** LPUSH, RPUSH and SADD. *)
Lemma elements_follow op name msg reply parts :
  follows (fun db parts =>
      let* _ := guard (length parts <? 3)%nat name in
      let* key := bulk_arg parts 1 bad_key in
      let* elements := bulk_list (drop 2 parts) msg in
      let* t := now in
      answer_or_error (fun e : engine => op t e db key elements) reply)
    (replicated_elements op) parts.
Proof.
  intros w e w' e' Ha. answers. unfold replicated_elements. rewrite Hg, (with_bulk_at _ _ _ _ Hb).
  apply Nat.ltb_ge in Hg. rewrite length_drop in Hl. destruct (bulks_only (drop 2 parts)) as [|x l] eqn:El; [simpl in Hl; lia|].
  rewrite (bind_goes _ _ _ _ _ _ _ Ht). by eapply try_then_unit.
Qed.

Lemma lpush_follows parts : follows handle_lpush handle_replicated_lpush parts.
Proof. apply elements_follow. Qed.
Lemma rpush_follows parts : follows handle_rpush handle_replicated_rpush parts.
Proof. apply elements_follow. Qed.
Lemma sadd_follows parts : follows handle_sadd handle_replicated_sadd parts.
Proof. apply elements_follow. Qed.

Lemma even_length n : (2 <= n)%nat -> ((n - 2) mod 2 = 0)%nat -> (n mod 2 = 0)%nat.
Proof.
  intros Hn He. pose proof (Nat.div_mod_eq (n - 2) 2). replace n with (((n - 2) / 2 + 1) * 2)%nat by lia. apply Nat.Div0.mod_mul.
Qed.

Lemma hset_follows parts : follows handle_hset handle_replicated_hset parts.
Proof.
  intros w e w' e' Ha. unfold handle_hset in Ha. answers. apply orb_false_iff in Hg as [Hg Hodd].
  unfold odd_pairs in Hodd. apply negb_false_iff, Nat.eqb_eq in Hodd. pose proof Hg as Hlen. apply Nat.ltb_ge in Hlen.
  apply even_length in Hodd; [|lia]. unfold handle_replicated_hset, odd_or_short.
  rewrite Hg, Hodd, (with_bulk_at _ _ _ _ Hb). cbn [orb negb Nat.eqb].
  rewrite length_drop in Hl. destruct (pairs_only (drop 2 parts)) as [|x l] eqn:El; [simpl in Hl; lia|].
  rewrite (bind_goes _ _ _ _ _ _ _ Ht). by eapply try_then_unit.
Qed.

Lemma number_follows (op : engine -> engine * outcome Z) w e w' e' :
  answered (number_or_error op) w e w' e' -> ignored op w e = (w', e', Go tt).
Proof.
  intros (f & E & Hf). unfold run_handler, number_or_error, bind, catch_op in E.
  destruct (op e) as [e1 [n|err|]] eqn:Eo; [|by injection E as <- <- <-|done]. injection E as <- <- <-. by eapply ignored_ok.
Qed.

Lemma answered_nonempty_key parts (k : bytes -> cmd engine RespFrame) w e w' e' :
  answered (bind (nonempty_key parts) k) w e w' e' ->
  exists b, parts !! 1%nat = Some (BulkString (Some b)) /\ answered (k b) w e w' e'.
Proof.
  unfold nonempty_key, bulk_arg, arg. intros (f & E & Hf). unfold run_handler, bind in E.
  destruct (parts !! 1%nat) as [[| | |[b|]| | | | | | |]|]; simpl in E; try (by injection E as <- <- <-); try discriminate E.
  destruct b as [|c b]; [by injection E as <- <- <-|]. exists (c :: b). split; [done|]. by exists f.
Qed.

(** INCR, DECR and INCRBY: the frames with the command's name. *)
Definition named (name : bytes) (parts : list RespFrame) : Prop :=
  exists cmd, parts !! 0%nat = Some (BulkString (Some cmd)) /\ to_uppercase cmd = name.

Lemma incr_follows parts : named (B "INCR") parts -> follows handle_incr handle_replicated_incr parts.
Proof.
  intros (cmd & Hc & Hn) w e w' e' Ha. unfold handle_incr in Ha. answers. apply answered_nonempty_key in Ha as (b & Hb & Ha). answers.
  apply number_follows in Ha. apply negb_false_iff, Nat.eqb_eq in Hg. unfold handle_replicated_incr. rewrite Hg.
  cbn [Nat.ltb Nat.leb]. rewrite (with_bulk_at _ _ _ _ Hc), (with_bulk_at _ _ _ _ Hb), Hn. cbv zeta.
  rewrite bool_decide_eq_true_2 by done. by rewrite (bind_goes _ _ _ _ _ _ _ Ht).
Qed.

Lemma decr_follows parts : named (B "DECR") parts -> follows handle_decr handle_replicated_incr parts.
Proof.
  intros (cmd & Hc & Hn) w e w' e' Ha. unfold handle_decr in Ha. answers.
  apply number_follows in Ha. apply negb_false_iff, Nat.eqb_eq in Hg. unfold handle_replicated_incr. rewrite Hg.
  cbn [Nat.ltb Nat.leb]. rewrite (with_bulk_at _ _ _ _ Hc), (with_bulk_at _ _ _ _ Hb), Hn. cbv zeta.
  rewrite bool_decide_eq_false_2, bool_decide_eq_true_2 by done. by rewrite (bind_goes _ _ _ _ _ _ _ Ht).
Qed.

Lemma incrby_follows parts : named (B "INCRBY") parts -> follows handle_incrby handle_replicated_incr parts.
Proof.
  intros (cmd & Hc & Hn) w e w' e' Ha. unfold handle_incrby in Ha. answers. apply answered_nonempty_key in Ha as (b & Hb & Ha). answers.
  apply number_follows in Ha. apply negb_false_iff in Hg. unfold handle_replicated_incr. pose proof Hg as Hl.
  apply Nat.eqb_eq in Hl. rewrite Hg, Hl. cbn [Nat.ltb Nat.leb]. rewrite (with_bulk_at _ _ _ _ Hc), (with_bulk_at _ _ _ _ Hb), Hn.
  cbv zeta. do 2 rewrite bool_decide_eq_false_2 by done. rewrite bool_decide_eq_true_2 by done. cbn [andb].
  rewrite (with_bulk_at _ _ _ _ Hb0), Hn0. by rewrite (bind_goes _ _ _ _ _ _ _ Ht).
Qed.

Lemma del_follows parts : follows handle_del handle_replicated_del parts.
Proof.
  intros w e w' e' Ha. unfold handle_del in Ha. answers. unfold handle_replicated_del. revert Ha.
  generalize (bulks_only (drop 1 parts)) as l. generalize 0 as n. intros n l. revert n w e.
  induction l as [|key l IH]; intros n w e Ha.
  - destruct Ha as (f & [= <- <- <-] & _). done.
  - cbn [for_each] in *. answers. rewrite (bind_goes _ _ _ _ _ _ _ (ignored_ok _ _ _ _ _ Hop)). by eapply IH.
Qed.

(** A positive EXPIRE. *)
Lemma expire_follows parts b n :
  parts !! 2%nat = Some (BulkString (Some b)) -> parse_i64 (utf8_lossy b) = Some n -> 0 < n ->
  follows handle_expire handle_replicated_expire parts.
Proof.
  intros Hp Hn Hpos w e w' e' Ha. unfold handle_expire in Ha. answers. rewrite Hp in Hb0. injection Hb0 as <-.
  rewrite Hn in Hn0. injection Hn0 as <-. destruct (Z.leb_spec n 0); [lia|]. answers.
  unfold handle_replicated_expire. rewrite Hg, (with_bulk_at _ _ _ _ Hb), (with_bulk_at _ _ _ _ Hp), (parse_positive _ _ Hn Hpos).
  rewrite (bind_goes _ _ _ _ _ _ _ Ht), (bind_goes _ _ _ _ _ _ _ Ht0). by eapply ignored_ok.
Qed.

(** ZADD: the loop over the positions of the scores, and the one over the pairs. *)
Lemma zadd_loop_follows key n : forall prefix frames count w e w' e', length frames = (2 * n)%nat ->
  answered (let* total := for_each (map (fun i => 2 * i + length prefix)%nat (seq 0 n)) (fun i count =>
      let* score := f64_arg not_a_float (prefix ++ frames) i (B "ERR invalid score format") in
      let* member := bulk_arg (prefix ++ frames) (i + 1) bad_member in
      let* r := draw in
      let* t := now in
      let* b := try_op (fun e : engine => zadd (random_level r) t e 0 key member score) in
      ret (if b then count + 1 else count)) count in ret (Integer total)) w e w' e' ->
  for_each (pairs_only frames) (fun p _ =>
      match f64_parse (utf8_lossy p.1) with
      | Some score => let* r := draw in let* t := now in ignored (fun e => zadd (random_level r) t e 0 key p.2 score)
      | None => ret tt
      end) tt w e = (w', e', Go tt).
Proof.
  induction n as [|n IH]; intros prefix frames count w e w' e' Hl Ha.
  - destruct frames; [|done]. simpl in Ha. by destruct Ha as (f & [= <- <- <-] & _).
  - destruct frames as [|f [|g frames]]; [done|simpl in Hl; lia|]. cbn [seq map for_each] in Ha. unfold f64_arg in Ha at 1.
    apply answered_assoc, answered_assoc, answered_parsed in Ha as (b & score & Hb & Hs & Ha). answers.
    rewrite lookup_app_r, (proj2 (Nat.sub_0_le _ _)) in Hb by lia. injection Hb as ->.
    rewrite lookup_app_r in Hb0 by lia. replace (_ - _)%nat with 1%nat in Hb0 by lia. injection Hb0 as ->.
    cbn [pairs_only bulk_of for_each fst snd]. rewrite Hs.
    erewrite bind_goes; [|erewrite bind_goes by exact Hr; erewrite bind_goes by exact Ht; eapply ignored_ok; exact Hop].
    rewrite <- seq_shift, map_map in Ha.
    apply (IH (prefix ++ [BulkString (Some b); BulkString (Some b0)]) frames (if a then count + 1 else count)); [simpl in Hl; lia|].
    rewrite length_app, <- app_assoc. simpl. erewrite map_ext; [exact Ha|]. intros i. simpl. lia.
Qed.

Lemma zadd_follows parts : follows handle_zadd handle_replicated_zadd parts.
Proof.
  intros w e w' e' Ha. unfold handle_zadd in Ha. apply answered_guard in Ha as [Hg Ha]. apply answered_bulk_arg in Ha as (b & Hb & Ha).
  unfold handle_replicated_zadd, odd_or_short. rewrite Hg, (with_bulk_at _ _ _ _ Hb).
  apply orb_false_iff in Hg as [Hg Hodd]. apply Nat.ltb_ge in Hg. apply negb_false_iff, Nat.eqb_eq in Hodd.
  pose proof (Nat.div_mod_eq (length parts) 2). apply (zadd_loop_follows b (length parts / 2 - 1) (take 2 parts) (drop 2 parts) 0).
  { rewrite length_drop. lia. }
  rewrite take_drop, length_take. replace (2 `min` length parts)%nat with 2%nat by lia. exact Ha.
Qed.

(** SET without NX and XX. *)
Definition plain_option (f : RespFrame) : bool :=
  match bulk_of f with Some b => negb (bool_decide (to_uppercase b ∈ [B "NX"; B "XX"])) | None => true end.

(** The options are refused by an error only. *)
Lemma set_options_replies fuel : forall frames o w (e : engine) w1 e1 f,
  set_options fuel frames o w e = (w1, e1, Reply f) -> is_error f = true.
Proof.
  induction fuel as [|fuel IH]; intros [|g rest] o w e w1 e1 f E; try done.
  destruct g as [| | |[option|]| | | | | | |]; try by injection E as <- <- <-.
  cbn [set_options] in E. cbv zeta in E.
  assert (Hnum : forall unit_ns exp,
      (let* t := expire_option unit_ns (head rest) in set_options fuel (tail rest) (exp t)) w e = (w1, e1, Reply f) -> is_error f = true).
  { intros unit_ns exp E'. destruct rest as [|[| | |[b|]| | | | | | |] rest']; try by injection E' as <- <- <-.
    unfold bind in E'. cbn [head expire_option tail] in E'. destruct (utf8_valid b); [|by injection E' as <- <- <-].
    destruct (parse_u64 b); [by apply IH in E'|by injection E' as <- <- <-]. }
  destruct (bool_decide (to_uppercase option = B "EX"));
    [exact (Hnum _ (fun t => mkSetOptions (Some t) (opt_nx o) (opt_xx o)) E)|].
  destruct (bool_decide (to_uppercase option = B "PX"));
    [exact (Hnum _ (fun t => mkSetOptions (Some t) (opt_nx o) (opt_xx o)) E)|].
  destruct (bool_decide (to_uppercase option = B "NX")); [by apply IH in E|].
  destruct (bool_decide (to_uppercase option = B "XX")); [by apply IH in E|]. by injection E as <- <- <-.
Qed.

Lemma set_options_follow fuel : forall frames o w (e : engine) w1 e1 o1,
  forallb plain_option frames = true -> set_options fuel frames o w e = (w1, e1, Go o1) ->
  w1 = w /\ e1 = e /\ opt_nx o1 = opt_nx o /\ opt_xx o1 = opt_xx o
  /\ replicated_expiration frames (opt_expiration o) = opt_expiration o1.
Proof.
  induction fuel as [|fuel IH]; intros [|f rest] o w e w1 e1 o1 Hp E; try done; [by injection E as <- <- <-..|].
  cbn [forallb] in Hp. apply andb_prop in Hp as [Hf Hp]. destruct f as [| | |[option|]| | | | | | |]; try discriminate E.
  unfold plain_option in Hf. cbn [bulk_of] in Hf. apply negb_true_iff, bool_decide_eq_false_1 in Hf.
  cbn [set_options] in E. cbv zeta in E. cbn [replicated_expiration bulk_of].
  assert (Hnum : forall unit_ns exp, (forall n, exp n = mkSetOptions (Some n) (opt_nx o) (opt_xx o)) ->
      (let* t := expire_option unit_ns (head rest) in set_options fuel (tail rest) (exp t)) w e = (w1, e1, Go o1) ->
      exists v rest', rest = v :: rest' /\ w1 = w /\ e1 = e /\ opt_nx o1 = opt_nx o /\ opt_xx o1 = opt_xx o
        /\ replicated_expiration rest' (duration_frame unit_ns v (opt_expiration o)) = opt_expiration o1).
  { intros unit_ns exp Hexp E'. destruct rest as [|v rest']; [discriminate E'|]. exists v, rest'. split; [done|].
    destruct v as [| | |[b|]| | | | | | |]; try discriminate E'. unfold bind in E'. cbn [head expire_option tail] in E'.
    destruct (utf8_valid b) eqn:Hu; [|discriminate E']. destruct (parse_u64 b) as [n|] eqn:En; [|discriminate E'].
    cbn [forallb] in Hp. apply andb_prop in Hp as [_ Hp']. apply (IH rest' (exp (n * unit_ns)) w e w1 e1 o1 Hp') in E' as (? & ? & Hnx & Hxx & Hr). rewrite Hexp in Hnx, Hxx, Hr.
    unfold duration_frame. cbn [bulk_of]. rewrite utf8_lossy_valid, En by done. by split_and!. }
  destruct (bool_decide (to_uppercase option = B "EX")); [|destruct (bool_decide (to_uppercase option = B "PX"))].
  - apply Hnum in E as (v & rest' & -> & ?); [done|done].
  - apply Hnum in E as (v & rest' & -> & ?); [done|done].
  - rewrite !bool_decide_eq_false_2 in E by (intros Heq; apply Hf; rewrite Heq; set_solver). discriminate E.
Qed.

Lemma set_follows parts : forallb plain_option (drop 3 parts) = true -> follows handle_set handle_replicated_set parts.
Proof.
  intros Hp w e w' e' Ha. unfold handle_set in Ha. answers. apply answered_nonempty_key in Ha as (key & Hk & Ha). answers.
  destruct Ha as (f & E & Hf). unfold run_handler in E. unfold bind at 1 in E.
  destruct (set_options _ _ _ w e) as [[w1 e1] [o|g|err|]] eqn:Eo; [|..].
  2: { exfalso. injection E as <- <- <-. by rewrite (set_options_replies _ _ _ _ _ _ _ _ Eo) in Hf. }
  2,3: discriminate E.
  apply set_options_follow in Eo as (-> & -> & Hnx & Hxx & Hr); [|done]. simpl in Hnx, Hxx. rewrite Hnx, Hxx in E.
  unfold handle_replicated_set. rewrite Hg, (with_bulk_at _ _ _ _ Hk), (with_bulk_at _ _ _ _ Hb).
  simpl opt_expiration in Hr. rewrite Hr. unfold bind at 1 in E.
  destruct (set_plain 0 key b (opt_expiration o) w e) as [[w2 e2] [[]|g|err|]] eqn:Es; [by injection E as <- <- _| |done..].
  exfalso. unfold set_plain, bind, now, try_op in Es.
  destruct (opt_expiration o); [destruct (set_string_ex _ _ _ _ _ _) as [? []]|destruct (set_string _ _ _ _ _) as [? []]]; discriminate Es.
Qed.
End follows.

(** ** Names *)

Section names.
Context `{CaseMap}.

Definition shown (u : uchunk) : bytes := match u with UChar _ raw => raw | UBad _ => replacement end.
Abbreviation upper := (map (fun b => ascii_upper (u8 b))).

Lemma upper_chunk_ascii b t u rest :
  utf8_step b t = (u, rest) -> Forall (fun b => u8 b < 128) (shown u) -> upper_chunk u = upper (shown u).
Proof.
  intros E Hu. unfold utf8_step in E. destruct (Z.ltb_spec (u8 b) 128) as [Hb|Hb].
  - injection E as <- <-. simpl. by rewrite (proj2 (Z.ltb_lt _ _) Hb).
  - exfalso. assert (Hbad : Forall (fun b => u8 b < 128) replacement -> False) by (intros Hr; inversion Hr; by vm_compute in * ).
    repeat (case_match; simplify_eq); simpl in Hu; try (by apply Hbad); inversion Hu; lia.
Qed.

Lemma upper_ascii s : Forall (fun b => u8 b < 128) (utf8_lossy s) -> to_uppercase s = upper (utf8_lossy s).
Proof.
  unfold to_uppercase, utf8_lossy, utf8_chunks. fold shown. generalize (length s) as fuel. intros fuel. revert s.
  induction fuel as [|fuel IH]; intros [|b s] Ha; try done. cbn [utf8_chunks_fuel] in *.
  destruct (utf8_step b s) as [u rest] eqn:E. simpl in *. apply Forall_app in Ha as [Hu Ha].
  rewrite map_app, (upper_chunk_ascii _ _ _ _ E Hu). f_equal. by apply IH.
Qed.

Lemma upper_keeps_ascii l : Forall (fun b => u8 b < 128) (upper l) -> Forall (fun b => u8 b < 128) l.
Proof.
  rewrite Forall_map. intros Hl. eapply Forall_impl; [exact Hl|]. intros b. unfold ascii_upper. pose proof (u8_range b).
  destruct (Z.leb_spec 97 (u8 b)), (Z.leb_spec (u8 b) 122); simpl; try lia; rewrite u8_byte_of; lia.
Qed.

(** A command that is PING in ASCII is PING. *)
Lemma ping_name cmd : upper (utf8_lossy cmd) = B "PING" -> to_uppercase cmd = B "PING".
Proof. intros E. rewrite upper_ascii; [done|]. apply upper_keeps_ascii. rewrite E. by repeat constructor. Qed.
End names.

(** ** The same data on two clocks

    A replica runs on a clock and a generator of its own: it reads the clock
    later than its master did for the same command, and it draws other levels
    for the nodes of a skip list.  Two stores hold the same data when they have
    the same keys with the same values (sorted sets with the same members, scores
    and order), and the deadlines of the one are those of the other plus a lag.
    The counters of WATCH, the memory counts and the times of creation and access
    are not compared. *)

Section lag.
Context {ZS : Type} `{SortedSet ZS} `{!SortedSetSpec ZS} `{Layout} `{Random} `{F64Text} `{CaseMap}.
Context (least most longest : Z).
Abbreviation engine := (StorageEngine ZS).

(** A time on the master's clock and the one on the replica's. *)
Definition apart (t1 t2 : Z) : Prop := least <= t2 - t1 <= most.

(** [n] bounds the number of members of a sorted set. *)
Inductive same_value (n : Z) : Value ZS -> Value ZS -> Prop :=
  | same_plain v : as_sorted_set v = None -> same_value n v v
  | same_sorted z1 z2 items : zs_rep z1 items -> zs_rep z2 items -> Z.of_nat (length items) <= n ->
      same_value n (VSortedSet z1) (VSortedSet z2).

Record same_stored (n : Z) (sv1 sv2 : StoredValue ZS) : Prop := {
  st_value : same_value n (value sv1) (value sv2);
  st_deadline : option_Forall2 apart (expires_at (metadata sv1)) (expires_at (metadata sv2));
}.

Record same_shard (n : Z) (a b : DatabaseShard ZS) : Prop := {
  sh_data key : option_Forall2 (same_stored n) (data a !! key) (data b !! key);
  sh_index key : option_Forall2 apart (expiring_keys a !! key) (expiring_keys b !! key);
}.

Definition no_limit (mm : MemoryManager) : Prop := max_memory mm = 0.

Record same_store (n : Z) (e1 e2 : engine) : Prop := {
  se_size : 0 <= n;
  se_databases : Forall2 (Forall2 (same_shard n)) (databases e1) (databases e2);
  se_master : no_limit (memory_manager e1);
  se_replica : no_limit (memory_manager e2);
}.

(** The readings of the two clocks, for the same commands; a lifetime of
    [longest] ends before the clocks do. *)
Definition behind (w1 w2 : World) : Prop :=
  forall i, apart (clock w1 i) (clock w2 i) /\ clock w1 i + longest <= instant_max /\ clock w2 i + longest <= instant_max.

Lemma same_value_mono n m v1 v2 : n <= m -> same_value n v1 v2 -> same_value m v1 v2.
Proof. intros Hn [v Hv|z1 z2 l L1 L2 Hl]; [by constructor|]. econstructor; [done..|lia]. Qed.

Lemma same_shard_mono n m a b : n <= m -> same_shard n a b -> same_shard m a b.
Proof.
  intros Hn [Hd Hi]. split; [|done]. intros key. destruct (Hd key) as [x y [Hv He]|]; constructor.
  split; [by eapply same_value_mono|done].
Qed.

Lemma same_store_mono n m e1 e2 : n <= m -> same_store n e1 e2 -> same_store m e1 e2.
Proof.
  intros Hn [Hp Hd L1 L2]. split; [lia| |done..]. eapply Forall2_impl; [exact Hd|]. intros d1 d2 Hs.
  eapply Forall2_impl; [exact Hs|]. intros a b. by apply same_shard_mono.
Qed.

(** The steps of an operation. *)
Lemma same_insert n key sv1 sv2 a b :
  same_stored n sv1 sv2 -> same_shard n a b -> same_shard n (data_insert key sv1 a) (data_insert key sv2 b).
Proof.
  intros Hsv [Hd Hi]. split; [|done]. intros k. simpl. destruct (decide (k = key)) as [->|].
  - rewrite !lookup_insert_eq. by constructor.
  - by rewrite !lookup_insert_ne.
Qed.

Lemma same_remove n key a b : same_shard n a b -> same_shard n (data_remove key a) (data_remove key b).
Proof.
  intros [Hd Hi]. split; [|done]. intros k. simpl. destruct (decide (k = key)) as [->|].
  - rewrite !lookup_delete_eq. constructor.
  - by rewrite !lookup_delete_ne.
Qed.

Lemma same_index n key t1 t2 a b :
  apart t1 t2 -> same_shard n a b -> same_shard n (expiring_insert key t1 a) (expiring_insert key t2 b).
Proof.
  intros Ht [Hd Hi]. split; [done|]. intros k. simpl. destruct (decide (k = key)) as [->|].
  - rewrite !lookup_insert_eq. by constructor.
  - by rewrite !lookup_insert_ne.
Qed.

Lemma same_unindex n key a b : same_shard n a b -> same_shard n (expiring_remove key a) (expiring_remove key b).
Proof.
  intros [Hd Hi]. split; [done|]. intros k. simpl. destruct (decide (k = key)) as [->|].
  - rewrite !lookup_delete_eq. constructor.
  - by rewrite !lookup_delete_ne.
Qed.

Lemma same_mark n key a b : same_shard n a b -> same_shard n (mark_modified key a) (mark_modified key b).
Proof. by intros [Hd Hi]. Qed.

Lemma same_back n key sv1 sv2 v1 v2 a b :
  same_stored n sv1 sv2 -> same_value n v1 v2 -> same_shard n a b ->
  same_shard n (store_back key sv1 v1 a) (store_back key sv2 v2 b).
Proof. intros [_ Hd] Hv. by apply same_insert. Qed.

(** Bodies on a shard, which may add [k] members, and operations on the store. *)
Definition same_body {A} (k : Z) (f1 f2 : shard_op ZS A) : Prop := forall n mm1 mm2 a b,
  0 <= n -> n + k < u64_max -> no_limit mm1 -> no_limit mm2 -> same_shard n a b ->
  no_limit (f1 mm1 a).1.1 /\ no_limit (f2 mm2 b).1.1 /\ same_shard (n + k) (f1 mm1 a).1.2 (f2 mm2 b).1.2
  /\ (f1 mm1 a).2 = (f2 mm2 b).2.

Definition same_op {A} (k : Z) (op1 op2 : engine -> engine * outcome A) : Prop := forall n e1 e2,
  n + k < u64_max -> same_store n e1 e2 -> same_store (n + k) (op1 e1).1 (op2 e2).1 /\ (op1 e1).2 = (op2 e2).2.

Lemma lag_with_shard {A} k db key (f1 f2 : shard_op ZS A) : 0 <= k -> same_body k f1 f2 ->
  same_op k (fun e => with_shard e db key f1) (fun e => with_shard e db key f2).
Proof.
  intros Hk Hf n e1 e2 Hn He. pose proof (same_store_mono n (n + k) e1 e2 ltac:(lia) He) as Hm.
  destruct He as [Hp Hd L1 L2]. unfold with_shard.
  pose proof (proj1 (Forall2_lookup _ _ _) Hd db) as Ho.
  destruct Ho as [d1 d2 Hs|]; [|by split].
  pose proof (proj1 (Forall2_lookup _ _ _) Hs (get_shard_index key)) as Hsh.
  destruct Hsh as [a b Hab|]; [|by split].
  destruct (Hf n _ _ a b Hp Hn L1 L2 Hab) as (Hm1 & Hm2 & Hab' & Hr).
  destruct (f1 (memory_manager e1) a) as [[mm1 a'] r1], (f2 (memory_manager e2) b) as [[mm2 b'] r2]. simpl in *.
  split; [|done]. split; simpl; [lia| |done..]. apply Forall2_insert; [apply Hm|].
  apply Forall2_insert; [|done]. eapply Forall2_impl; [exact Hs|]. intros x y. apply same_shard_mono. lia.
Qed.

Lemma fits_unlimited mm n : no_limit mm -> (add_memory mm n).2 = true /\ no_limit (add_memory mm n).1.
Proof. unfold no_limit, add_memory. simpl. by intros ->. Qed.

Lemma same_new n now1 now2 v : as_sorted_set v = None -> same_stored n (stored_new now1 v) (stored_new now2 v).
Proof. intros Hv. split; simpl; by constructor. Qed.

Lemma same_stay {A} k (err : outcome A) : 0 <= k -> same_body k (fun mm sh => (mm, sh, err)) (fun mm sh => (mm, sh, err)).
Proof. intros Hk n mm1 mm2 a b _ _ L1 L2 Hs. split_and!; [done..| |done]. eapply same_shard_mono; [|done]. lia. Qed.

Lemma insert_new_same {A} key now1 now2 v (r : A) :
  as_sorted_set v = None -> same_body 0 (insert_new_value key now1 v r) (insert_new_value key now2 v r).
Proof.
  intros Hv n mm1 mm2 a b _ _ L1 L2 Hs. unfold insert_new_value. simpl. rewrite Z.add_0_r.
  split_and!; [done..| |done]. by apply same_mark, same_insert; [apply same_new|].
Qed.

Lemma accounted_same {A} k key now1 now2 size1 size2 v1 v2 (r : A) : 0 <= k ->
  (forall n, 0 <= n -> n + k < u64_max -> same_value (n + k) v1 v2) ->
  same_body k (insert_accounted key now1 size1 v1 r) (insert_accounted key now2 size2 v2 r).
Proof.
  intros Hk Hv n mm1 mm2 a b Hp Hn L1 L2 Hs. unfold insert_accounted, insert_new_value.
  destruct (fits_unlimited mm1 size1 L1) as [F1 N1], (fits_unlimited mm2 size2 L2) as [F2 N2].
  destruct (add_memory mm1 size1) as [m1 b1], (add_memory mm2 size2) as [m2 b2]. simpl in *. subst b1 b2. simpl.
  split_and!; [done..| |done]. apply same_mark, same_insert; [|apply (same_shard_mono n); [lia|done]].
  split; simpl; [by apply Hv|constructor].
Qed.

Lemma back_same {A} key sv1 sv2 v (r : A) :
  option_Forall2 apart (expires_at (metadata sv1)) (expires_at (metadata sv2)) -> as_sorted_set v = None ->
  same_body 0 (fun mm sh => (mm, mark_modified key (store_back key sv1 v sh), Ok r))
              (fun mm sh => (mm, mark_modified key (store_back key sv2 v sh), Ok r)).
Proof.
  intros He Hv n mm1 mm2 a b _ _ L1 L2 Hs. simpl. rewrite Z.add_0_r. split_and!; [done..| |done].
  apply same_mark, same_insert; [|done]. split; [by constructor|done].
Qed.

(** A type other than the sorted sets: the values are equal. *)
Lemma lag_typed {X A} (view : Value ZS -> option X) key (some1 some2 : StoredValue ZS -> X -> shard_op ZS A) none1 none2 :
  (forall z, view (VSortedSet z) = None) ->
  (forall sv1 sv2 x, option_Forall2 apart (expires_at (metadata sv1)) (expires_at (metadata sv2)) ->
     same_body 0 (some1 sv1 x) (some2 sv2 x)) ->
  same_body 0 none1 none2 -> same_body 0 (typed_op view key some1 none1) (typed_op view key some2 none2).
Proof.
  intros Hview Hsome Hnone n mm1 mm2 a b Hp Hn L1 L2 Hs. unfold typed_op.
  destruct (sh_data n a b Hs key) as [sv1 sv2 [Hv He]|]; [|by apply Hnone].
  destruct Hv as [v Hv|z1 z2 items _ _ _].
  - destruct (view v) as [x|]; [by apply Hsome|by apply same_stay].
  - rewrite !Hview. by apply same_stay.
Qed.

Lemma push_same add t1 t2 key elements :
  same_op 0 (fun e : engine => push add t1 e 0 key elements) (fun e => push add t2 e 0 key elements).
Proof.
  apply lag_with_shard; [done|]. apply lag_typed; [done| |by apply insert_new_same].
  intros sv1 sv2 x He. by apply back_same.
Qed.

Lemma hset_same t1 t2 key fvs : same_op 0 (fun e : engine => hset t1 e 0 key fvs) (fun e => hset t2 e 0 key fvs).
Proof.
  apply lag_with_shard; [done|]. apply lag_typed; [done| |by apply insert_new_same].
  intros sv1 sv2 x He. destruct (insert_fields x fvs). by apply back_same.
Qed.

Lemma sadd_same t1 t2 key members : same_op 0 (fun e : engine => sadd t1 e 0 key members) (fun e => sadd t2 e 0 key members).
Proof.
  apply lag_with_shard; [done|]. apply lag_typed; [done| |destruct (insert_members ∅ members); by apply insert_new_same].
  intros sv1 sv2 x He n mm1 mm2 a b _ _ L1 L2 Hs. destruct (insert_members x members) as [s' added]. simpl. rewrite Z.add_0_r.
  assert (Hb : same_shard n (store_back key sv1 (VSet s') a) (store_back key sv2 (VSet s') b))
    by (apply same_insert; [split; [by constructor|done]|done]).
  split_and!; [done..| |done]. destruct (0 <? added); [by apply same_mark|done].
Qed.

Lemma incr_by_same t1 t2 key amount : same_op 0 (fun e : engine => incr_by t1 e 0 key amount) (fun e => incr_by t2 e 0 key amount).
Proof.
  apply lag_with_shard; [done|]. intros n mm1 mm2 a b Hp Hn L1 L2 Hs.
  destruct (sh_data n a b Hs key) as [sv1 sv2 [Hv He]|]; [|apply accounted_same; [done|intros; by constructor|done..]].
  destruct Hv as [v Hv|z1 z2 items _ _ _]; [|by apply same_stay].
  destruct (as_integer v) as [current|]; [|by apply same_stay]. case_decide; [by apply back_same|by apply same_stay].
Qed.

Lemma delete_same key : same_op 0 (fun e : engine => delete_key e 0 key) (fun e => delete_key e 0 key).
Proof.
  apply lag_with_shard; [done|]. intros n mm1 mm2 a b Hp Hn L1 L2 Hs.
  destruct (sh_data n a b Hs key) as [sv1 sv2 _|]; [|by apply same_stay]. simpl. rewrite Z.add_0_r.
  split_and!; [done..| |done]. by apply same_unindex, same_mark, same_remove.
Qed.

(** Lifetimes. *)
Lemma lives t d : d <= longest -> t + longest <= instant_max -> instant_add t d = Ok (t + d).
Proof. intros Hd Ht. unfold instant_add. by rewrite (proj2 (Z.leb_le _ _)) by lia. Qed.

Lemma apart_add t1 t2 d : apart t1 t2 -> apart (t1 + d) (t2 + d).
Proof. unfold apart. lia. Qed.

Definition reading (t1 t2 : Z) : Prop := apart t1 t2 /\ t1 + longest <= instant_max /\ t2 + longest <= instant_max.

Lemma expire_same t1 t2 u1 u2 key d : d <= longest -> reading t1 t2 -> reading u1 u2 ->
  same_op 0 (fun e : engine => expire t1 u1 e 0 key d) (fun e => expire t2 u2 e 0 key d).
Proof.
  intros Hd (Ht & Ht1 & Ht2) (Hu & Hu1 & Hu2). apply lag_with_shard; [done|]. intros n mm1 mm2 a b Hp Hn L1 L2 Hs.
  destruct (sh_data n a b Hs key) as [sv1 sv2 [Hv He]|]; [|by apply same_stay]. unfold set_expiration.
  rewrite !(lives _ _ Hd) by done. simpl. rewrite Z.add_0_r. split_and!; [done..| |done].
  apply same_index; [by apply apart_add|]. apply same_insert; [|done]. split; simpl; [done|]. constructor. by apply apart_add.
Qed.

Lemma set_value_same t1 t2 key v expiration : default 0 expiration <= longest -> reading t1 t2 ->
  same_op 0 (fun e : engine => set_value t1 e 0 key (VString v) expiration) (fun e => set_value t2 e 0 key (VString v) expiration).
Proof.
  intros Hd (Ht & Ht1 & Ht2). apply lag_with_shard; [done|]. intros n mm1 mm2 a b Hp Hn L1 L2 Hs. unfold set_value_shard.
  set (size := calculate_value_size key (VString v)).
  destruct (fits_unlimited mm1 size L1) as [F1 N1], (fits_unlimited mm2 size L2) as [F2 N2].
  destruct (add_memory mm1 size) as [m1 b1], (add_memory mm2 size) as [m2 b2]. simpl in N1, N2, F1, F2. subst b1 b2.
  destruct expiration as [d|]; simpl in Hd.
  - unfold stored_with_expiration, meta_with_expiration. rewrite !(lives _ _ Hd) by done. simpl. rewrite Z.add_0_r.
    split_and!; [done..| |done]. apply same_insert; [|by apply same_mark, same_index; [apply apart_add|]].
    split; simpl; constructor; [done|by apply apart_add].
  - simpl. rewrite Z.add_0_r. split_and!; [done..| |done]. by apply same_insert; [apply same_new|apply same_mark].
Qed.

Lemma added_length m v (l : list (bytes * f64)) : (length (insert_item (m, v) (without_member m l)) <= S (length l))%nat.
Proof. rewrite length_insert_item. unfold without_member. pose proof (length_filter (fun x : bytes * f64 => x.1 <> m) l). lia. Qed.

Lemma zadd_same lvl1 lvl2 t1 t2 key m v : (lvl1 < 32)%nat -> (lvl2 < 32)%nat -> is_nan v = false ->
  same_op 1 (fun e : engine => zadd lvl1 t1 e 0 key m v) (fun e => zadd lvl2 t2 e 0 key m v).
Proof.
  intros Hl1 Hl2 Hv. apply lag_with_shard; [done|]. intros n mm1 mm2 a b Hp Hn L1 L2 Hs. unfold typed_op.
  destruct (sh_data n a b Hs key) as [sv1 sv2 [Hsv He]|].
  - destruct Hsv as [w Hw|z1 z2 items R1 R2 Hlen]; [rewrite Hw; by apply same_stay|]. cbn [as_sorted_set]. unfold insert_member.
    destruct (zs_insert_rep z1 items lvl1 m v R1 Hl1 Hv ltac:(lia)) as (z1' & -> & R1').
    destruct (zs_insert_rep z2 items lvl2 m v R2 Hl2 Hv ltac:(lia)) as (z2' & -> & R2'). simpl.
    split_and!; [done..| |done]. apply same_mark, same_insert; [|apply (same_shard_mono n); [lia|done]]. split; simpl; [|done].
    econstructor; [done..|]. pose proof (added_length m v items). lia.
  - unfold create_sorted_set. assert (Hnil : Z.of_nat (length (@nil (bytes * f64))) < u64_max) by (simpl; lia).
    destruct (zs_insert_rep zs_new [] lvl1 m v zs_new_rep Hl1 Hv Hnil) as (z1' & -> & R1').
    destruct (zs_insert_rep zs_new [] lvl2 m v zs_new_rep Hl2 Hv Hnil) as (z2' & -> & R2').
    apply accounted_same; [done| |done..]. intros n' Hn' _. econstructor; [done..|]. pose proof (added_length m v []). simpl in *. lia.
Qed.
(** ** Handlers on two clocks *)

(** A handler run with the master's world and one run with the replica's. *)
Definition alike {A} (k : Z) (m1 m2 : cmd engine A) : Prop := forall n w1 w2 e1 e2,
  n + k < u64_max -> behind w1 w2 -> same_store n e1 e2 ->
  behind (m1 w1 e1).1.1 (m2 w2 e2).1.1 /\ same_store (n + k) (m1 w1 e1).1.2 (m2 w2 e2).1.2 /\ (m1 w1 e1).2 = (m2 w2 e2).2.

Lemma alike_ret {A} k (x : A) : 0 <= k -> alike k (ret x) (ret x).
Proof. intros Hk n w1 w2 e1 e2 Hn Hw He. split_and!; [done| |done]. apply (same_store_mono n); [lia|done]. Qed.

Lemma alike_mono {A} k k' (m1 m2 : cmd engine A) : k <= k' -> alike k m1 m2 -> alike k' m1 m2.
Proof.
  intros Hk Hm n w1 w2 e1 e2 Hn Hw He. destruct (Hm n w1 w2 e1 e2) as (Hw' & He' & Hr); [lia|done..|].
  split_and!; [done| |done]. apply (same_store_mono (n + k)); [lia|done].
Qed.

Lemma alike_bind {A C} k1 k2 (m1 m2 : cmd engine A) (c1 c2 : A -> cmd engine C) : 0 <= k2 ->
  alike k1 m1 m2 -> (forall x, alike k2 (c1 x) (c2 x)) -> alike (k1 + k2) (bind m1 c1) (bind m2 c2).
Proof.
  intros Hk Hm Hc n w1 w2 e1 e2 Hn Hw He. destruct (Hm n w1 w2 e1 e2) as (Hw' & He' & Hr); [lia|done..|].
  unfold bind. destruct (m1 w1 e1) as [[w1' e1'] r1], (m2 w2 e2) as [[w2' e2'] r2]. simpl in *. subst r2. rewrite Z.add_assoc.
  destruct r1 as [x|f|err|]; [apply Hc; [lia|done..]|split_and!; [done| |done]; apply (same_store_mono (n + k1)); [lia|done]..].
Qed.

Lemma alike_now {A} k (c1 c2 : Z -> cmd engine A) :
  (forall t1 t2, reading t1 t2 -> alike k (c1 t1) (c2 t2)) -> alike k (bind now c1) (bind now c2).
Proof. intros Hc n w1 w2 e1 e2 Hn Hw He. apply (Hc _ _ (Hw 0%nat) n); [done| |done]. intros i. apply (Hw (S i)). Qed.

Lemma alike_draw {A} k (c1 c2 : Z -> cmd engine A) :
  (forall r1 r2, alike k (c1 r1) (c2 r2)) -> alike k (bind draw c1) (bind draw c2).
Proof. intros Hc n w1 w2 e1 e2 Hn Hw He. by apply (Hc _ _ n). Qed.

Lemma alike_try {A} k (op1 op2 : engine -> engine * outcome A) : same_op k op1 op2 -> alike k (try_op op1) (try_op op2).
Proof.
  intros Hop n w1 w2 e1 e2 Hn Hw He. destruct (Hop n e1 e2 Hn He) as [He' Hr]. unfold try_op.
  destruct (op1 e1) as [e1' r1], (op2 e2) as [e2' r2]. simpl in *. by subst r2.
Qed.

Lemma alike_ignored {A} k (op1 op2 : engine -> engine * outcome A) : same_op k op1 op2 -> alike k (ignored op1) (ignored op2).
Proof.
  intros Hop n w1 w2 e1 e2 Hn Hw He. destruct (Hop n e1 e2 Hn He) as [He' Hr]. unfold ignored, bind, catch_op.
  destruct (op1 e1) as [e1' r1], (op2 e2) as [e2' r2]. simpl in *. subst r2. by destruct r1.
Qed.

Lemma alike_with_bulk k parts i (c : bytes -> cmd engine unit) :
  0 <= k -> (forall b, parts !! i = Some (BulkString (Some b)) -> alike k (c b) (c b)) -> alike k (with_bulk parts i c) (with_bulk parts i c).
Proof.
  intros Hk Hc. unfold with_bulk, arg. destruct (parts !! i) as [f|] eqn:E.
  - assert (Hm : alike k (match bulk_of f with Some b => c b | None => ret tt end) (match bulk_of f with Some b => c b | None => ret tt end));
      [|exact Hm]. destruct f as [| | |[b|]| | | | | | |]; try (by apply alike_ret). by apply Hc.
  - intros n w1 w2 e1 e2 Hn Hw He. split_and!; [done| |done]. apply (same_store_mono n); [lia|done].
Qed.

Lemma alike_for_each {X} k (l : list X) (body1 body2 : X -> unit -> cmd engine unit) acc : 0 <= k ->
  Forall (fun x => forall u, alike k (body1 x u) (body2 x u)) l ->
  alike (k * Z.of_nat (length l)) (for_each l body1 acc) (for_each l body2 acc).
Proof.
  intros Hk Hl. revert acc. induction Hl as [|x l Hx Hl IH]; intros acc; [apply alike_ret; simpl; lia|]. cbn [for_each].
  replace (k * Z.of_nat (length (x :: l))) with (k + k * Z.of_nat (length l)) by (simpl; lia).
  apply alike_bind; [lia|apply Hx|apply IH].
Qed.

(** The lifetime that a command gives its key. *)
Definition lifetime (parts : list RespFrame) : Z :=
  match parts with
  | BulkString (Some b) :: _ =>
      if bool_decide (to_uppercase b = B "SET") then default 0 (replicated_expiration (drop 3 parts) None)
      else if bool_decide (to_uppercase b = B "EXPIRE") then default 0 (duration_frame 1000000000 (default NoResponse (parts !! 2%nat)) None)
      else 0
  | _ => 0
  end.

(** The scores of ZADD are numbers. *)
Definition number_scores (parts : list RespFrame) : bool :=
  forallb (fun p => match f64_parse (utf8_lossy p.1) with Some v => negb (is_nan v) | None => true end) (pairs_only (drop 2 parts)).

Lemma set_alike parts : default 0 (replicated_expiration (drop 3 parts) None) <= longest ->
  alike 0 (handle_replicated_set parts) (handle_replicated_set parts).
Proof.
  intros Hd. unfold handle_replicated_set. destruct (_ <? _)%nat; [by apply alike_ret|].
  apply alike_with_bulk; [done|]. intros key _. apply alike_with_bulk; [done|]. intros v _. unfold set_plain. apply alike_now.
  intros t1 t2 Ht. destruct (replicated_expiration _ _) as [d|]; apply alike_try.
  - by apply (set_value_same t1 t2 key v (Some d)).
  - by apply (set_value_same t1 t2 key v None).
Qed.

Lemma del_alike parts : alike 0 (handle_replicated_del parts) (handle_replicated_del parts).
Proof.
  apply (alike_for_each 0); [done|]. apply Forall_true. intros key _. apply alike_ignored, delete_same.
Qed.

Lemma expire_alike parts : default 0 (duration_frame 1000000000 (default NoResponse (parts !! 2%nat)) None) <= longest ->
  alike 0 (handle_replicated_expire parts) (handle_replicated_expire parts).
Proof.
  intros Hd. unfold handle_replicated_expire. destruct (negb _); [by apply alike_ret|].
  apply alike_with_bulk; [done|]. intros key _. apply alike_with_bulk; [done|]. intros v Hv. rewrite Hv in Hd.
  unfold duration_frame in Hd. simpl in Hd. destruct (parse_u64 _) as [n|]; [|by apply alike_ret].
  apply alike_now. intros t1 t2 Ht. apply alike_now. intros u1 u2 Hu. by apply alike_ignored, expire_same.
Qed.

Lemma incr_alike parts : alike 0 (handle_replicated_incr parts) (handle_replicated_incr parts).
Proof.
  assert (Hincr : forall key amount, alike 0 (let* t := now in ignored (fun e : engine => incr_by t e 0 key amount))
                                             (let* t := now in ignored (fun e : engine => incr_by t e 0 key amount)))
    by (intros key amount; apply alike_now; intros t1 t2 _; apply alike_ignored, incr_by_same).
  unfold handle_replicated_incr. destruct (_ <? _)%nat; [by apply alike_ret|].
  apply alike_with_bulk; [done|]. intros name _. apply alike_with_bulk; [done|]. intros key _. cbv zeta.
  case_bool_decide; [apply (Hincr key 1)|]. case_bool_decide; [apply (Hincr key (-1))|].
  destruct (_ && _); [|by apply alike_ret]. apply alike_with_bulk; [done|]. intros amount _.
  destruct (parse_i64 _) as [n|]; [apply (Hincr key n)|by apply alike_ret].
Qed.

Lemma elements_alike op parts :
  (forall t1 t2 key elements, same_op 0 (fun e : engine => op t1 e 0%nat key elements) (fun e => op t2 e 0%nat key elements)) ->
  alike 0 (replicated_elements op parts) (replicated_elements op parts).
Proof.
  intros Hop. unfold replicated_elements. destruct (_ <? _)%nat; [by apply alike_ret|].
  apply alike_with_bulk; [done|]. intros key _. destruct (bulks_only _) as [|x l]; [by apply alike_ret|].
  apply alike_now. intros t1 t2 _. apply (alike_bind 0 0); [done|by apply alike_try|]. intros. by apply alike_ret.
Qed.

Lemma hset_alike parts : alike 0 (handle_replicated_hset parts) (handle_replicated_hset parts).
Proof.
  unfold handle_replicated_hset. destruct (odd_or_short _); [by apply alike_ret|].
  apply alike_with_bulk; [done|]. intros key _. destruct (pairs_only _) as [|x l]; [by apply alike_ret|].
  apply alike_now. intros t1 t2 _. apply (alike_bind 0 0); [done|apply alike_try, hset_same|]. intros. by apply alike_ret.
Qed.

Lemma pairs_only_length frames : (length (pairs_only frames) <= length frames)%nat.
Proof.
  revert frames. fix IH 1. intros [|f [|g frames]]; simpl; [lia|lia|]. pose proof (IH frames).
  destruct (bulk_of f), (bulk_of g); simpl; lia.
Qed.

Lemma zadd_alike parts : number_scores parts = true ->
  alike (Z.of_nat (length parts)) (handle_replicated_zadd parts) (handle_replicated_zadd parts).
Proof.
  intros Hnum. unfold handle_replicated_zadd. destruct (odd_or_short _); [apply alike_ret; lia|].
  apply alike_with_bulk; [lia|]. intros key _. pose proof (pairs_only_length (drop 2 parts)) as Hl. rewrite length_drop in Hl.
  apply (alike_mono (1 * Z.of_nat (length (pairs_only (drop 2 parts))))); [lia|]. apply alike_for_each; [done|].
  unfold number_scores in Hnum. rewrite forallb_forall in Hnum. apply Forall_forall. intros p Hp%list_elem_of_In _.
  pose proof (Hnum p Hp) as Hv. destruct (f64_parse _) as [v|]; [|by apply alike_ret].
  apply negb_true_iff in Hv. apply alike_draw. intros r1 r2. apply alike_now. intros t1 t2 _.
  apply alike_ignored, zadd_same; [apply random_level_max..|done].
Qed.

Lemma replicated_alike b rest : let parts := BulkString (Some b) :: rest in
  lifetime parts <= longest -> (to_uppercase b = B "ZADD" -> number_scores parts = true) ->
  alike (Z.of_nat (length parts)) (replicated_command (to_uppercase b) parts) (replicated_command (to_uppercase b) parts).
Proof.
  intros parts Hd Hz. unfold lifetime, parts in Hd. fold parts in Hd.
  assert (Hset : to_uppercase b = B "SET" -> default 0 (replicated_expiration (drop 3 parts) None) <= longest)
    by (intros E; rewrite E in Hd; exact Hd).
  assert (Hexp : to_uppercase b = B "EXPIRE" -> default 0 (duration_frame 1000000000 (default NoResponse (parts !! 2%nat)) None) <= longest)
    by (intros E; rewrite E in Hd; exact Hd).
  clear Hd. unfold replicated_command.
  assert (H0k : 0 <= Z.of_nat (length parts)) by lia.
  case_bool_decide; [by eapply alike_mono, set_alike, Hset|].
  case_bool_decide; [by eapply alike_mono, del_alike|].
  case_bool_decide; [by eapply alike_mono, expire_alike, Hexp|].
  case_bool_decide; [by eapply alike_mono, incr_alike|].
  case_bool_decide; [by eapply alike_mono, elements_alike; [|intros; apply push_same]|].
  case_bool_decide; [by eapply alike_mono, elements_alike; [|intros; apply push_same]|].
  case_bool_decide; [by eapply alike_mono, elements_alike; [|intros; apply sadd_same]|].
  case_bool_decide; [by eapply alike_mono, hset_alike|].
  case_bool_decide; [by apply zadd_alike, Hz|by apply alike_ret].
Qed.
End lag.

(** ** What the master did *)

Section converges.
Context {ZS : Type} `{SortedSet ZS} `{!SortedSetSpec ZS} `{Layout} `{HashIter} `{Random} `{F64Text} `{CaseMap} `{Mlua} `{Resolver} `{Process} `{DebugText}.
Context (frame_size pair_size : Z) (least most longest : Z).
Abbreviation engine := (StorageEngine ZS).
Abbreviation state := (ReplicationClient ZS).

(** The commands that a replica applies as the master does: SET without NX and
    XX, EXPIRE with a positive time, ZADD of scores that are numbers, and the
    other commands it knows. *)
Definition followed (parts : list RespFrame) : bool :=
  match parts with
  | BulkString (Some b) :: _ =>
      let name := to_uppercase b in
      if bool_decide (name = B "SET") then forallb plain_option (drop 3 parts)
      else if bool_decide (name = B "EXPIRE") then
        match parts !! 2%nat with
        | Some (BulkString (Some t)) => match parse_i64 (utf8_lossy t) with Some n => 0 <? n | None => false end
        | _ => false
        end
      else if bool_decide (name = B "ZADD") then number_scores parts
      else bool_decide (name ∈ [B "DEL"; B "INCR"; B "DECR"; B "INCRBY"; B "LPUSH"; B "RPUSH"; B "SADD"; B "HSET"])
  | _ => false
  end.

(** The handler of the dispatch, on the first database, when it answers with a
    reply that is not an error: what the master sends to its replicas. *)
Definition master_command (parts : list RespFrame) (w : World) (e : engine) : option (World * engine) :=
  match parts with
  | BulkString (Some b) :: _ =>
      match find_command (to_uppercase b) storage_commands with
      | Some h =>
          match run_handler (h 0%nat parts) w e with
          | (w', e', Ok f) => if is_error f then None else Some (w', e')
          | _ => None
          end
      | None => None
      end
  | _ => None
  end.

Fixpoint master_history (cmds : list (list RespFrame)) (w : World) (e : engine) : option (World * engine) :=
  match cmds with
  | [] => Some (w, e)
  | parts :: rest => match master_command parts w e with Some (w', e') => master_history rest w' e' | None => None end
  end.

Lemma replicated_follows b rest h :
  let parts := BulkString (Some b) :: rest in
  followed parts = true -> find_command (to_uppercase b) storage_commands = Some h ->
  follows h (replicated_command (to_uppercase b)) parts.
Proof.
  intros parts Hf Hh. unfold followed, parts in Hf. fold parts in Hf. cbv zeta in Hf.
  assert (Hfind : forall name i g, to_uppercase b = name -> position name (map fst (storage_commands (ZS := ZS))) = Some i ->
    storage_commands !! i = Some (name, g) -> h = g).
  { intros name i g Hn Hi Hg. rewrite Hn, (find_command_at _ _ _ _ _ Hi Hg) in Hh. by injection Hh. }
  assert (Hname : forall name, to_uppercase b = name -> named name parts) by (intros name Hn; by exists b).
  case_bool_decide as Hset; [|case_bool_decide as Hexp; [|case_bool_decide as Hz]].
  - rewrite Hset. rewrite (Hfind _ _ _ Hset ltac:(vm_compute; reflexivity) eq_refl). by apply set_follows.
  - rewrite Hexp. rewrite (Hfind _ _ _ Hexp ltac:(vm_compute; reflexivity) eq_refl).
    destruct (parts !! 2%nat) as [[| | |[t|]| | | | | | |]|] eqn:Et; try discriminate Hf.
    destruct (parse_i64 _) as [n|] eqn:En; [|discriminate Hf]. eapply expire_follows; [done|done|lia].
  - rewrite Hz, (Hfind _ _ _ Hz ltac:(vm_compute; reflexivity) eq_refl). apply zadd_follows.
  - apply bool_decide_eq_true_1 in Hf. rewrite !elem_of_cons in Hf.
    destruct Hf as [E|[E|[E|[E|[E|[E|[E|[E|[]%elem_of_nil]]]]]]]]; rewrite E;
      rewrite (Hfind _ _ _ E ltac:(vm_compute; reflexivity) eq_refl);
      first [apply del_follows | apply incr_follows, Hname, E | apply decr_follows, Hname, E | apply incrby_follows, Hname, E
        | apply lpush_follows | apply rpush_follows | apply sadd_follows | apply hset_follows].
Qed.

(** A state of the thread after [n] commands. *)
Definition applied (s : state) (n : Z) (s' : state) : Prop :=
  is_replica (repl_manager s') = true /\ should_stop s' = should_stop s /\ link s' = link s
  /\ get_repl_offset (repl_manager s') = u64_wrap (get_repl_offset (repl_manager s) + n).

(** The replica's world and store follow those of the master. *)
Definition in_step (n : Z) (w1 : World) (e1 : engine) (w2 : World) (s : state) : Prop :=
  behind least most longest w1 w2 /\ same_store least most n e1 (replica_store s).

Lemma master_command_follows parts w e w' e' :
  followed parts = true -> master_command parts w e = Some (w', e') ->
  exists b rest, parts = BulkString (Some b) :: rest /\ to_uppercase b <> B "PING"
    /\ replicated_command (to_uppercase b) parts w e = (w', e', Go tt).
Proof.
  intros Hf Hm. destruct parts as [|[| | |[b|]| | | | | | |] rest]; try discriminate Hf. exists b, rest. split; [done|].
  unfold master_command in Hm. destruct (find_command _ _) as [h|] eqn:Eh; [|discriminate Hm].
  destruct (run_handler _ w e) as [[w1 e1] [f|err|]] eqn:Er; try discriminate Hm.
  destruct (is_error f) eqn:Ef; [discriminate Hm|]. injection Hm as <- <-. split.
  - intros Hn. unfold followed in Hf. by rewrite Hn in Hf.
  - eapply (replicated_follows b rest h Hf Eh). by exists f.
Qed.

(** The commands that the replica is sent, and the arguments in them. *)
Definition sent_well (parts : list RespFrame) : Prop := followed parts = true /\ lifetime parts <= longest.
Definition arguments (cmds : list (list RespFrame)) : Z := Z.of_nat (length (concat cmds)).

Lemma process_applies parts n w1 e1 w2 (s : state) w' e' :
  sent_well parts -> master_command parts w1 e1 = Some (w', e') -> in_step n w1 e1 w2 s -> n + Z.of_nat (length parts) < u64_max ->
  is_replica (repl_manager s) = true ->
  exists w2' s', process_replication_command (Array (Some parts)) w2 s = (w2', s', Done tt) /\ applied s 1 s'
    /\ in_step (n + Z.of_nat (length parts)) w' e' w2' s'.
Proof.
  intros [Hf Hd] Hm [Hw He] Hn Hr. destruct (master_command_follows _ _ _ _ _ Hf Hm) as (b & rest & -> & Hping & E).
  assert (Hz : to_uppercase b = B "ZADD" -> number_scores (BulkString (Some b) :: rest) = true)
    by (intros Ez; unfold followed in Hf; rewrite Ez in Hf; exact Hf).
  destruct (replicated_alike least most longest b rest Hd Hz n w1 w2 e1 (replica_store s) Hn Hw He) as (Hw' & He' & Hres).
  rewrite E in Hw', He', Hres. simpl in Hw', He', Hres.
  destruct (replicated_command (to_uppercase b) (BulkString (Some b) :: rest) w2 (replica_store s)) as [[w2' e2'] r] eqn:E2.
  simpl in Hw', He', Hres. subst r.
  unfold process_replication_command. rewrite bool_decide_eq_false_2 by (by intros ?%ping_name). rewrite E2.
  unfold andThen, on_manager, update_replica_offset, is_replica, is_master in *. simpl repl_manager.
  destruct (role (repl_manager s)) as [|a st i o] eqn:Ero; [discriminate Hr|]. eexists _, _. split; [reflexivity|].
  unfold applied, get_repl_offset, is_replica, is_master. simpl. by rewrite Ero.
Qed.

Lemma applied_trans (s1 s2 s3 : state) n m : applied s1 n s2 -> applied s2 m s3 -> applied s1 (n + m) s3.
Proof.
  intros (_ & Hs & Hl & Ho) (Hr & Hs' & Hl' & Ho'). unfold applied. split_and!; [done|congruence|congruence|].
  rewrite Ho', Ho. unfold u64_wrap. rewrite Zplus_mod_idemp_l. f_equal. lia.
Qed.

Lemma arguments_cons (parts : list RespFrame) cmds : arguments (parts :: cmds) = Z.of_nat (length parts) + arguments cmds.
Proof. unfold arguments. simpl. rewrite length_app. lia. Qed.

Lemma arguments_app c1 c2 : arguments (c1 ++ c2) = arguments c1 + arguments c2.
Proof. unfold arguments. rewrite concat_app, length_app. lia. Qed.

Lemma arguments_positive cmds : 0 <= arguments cmds.
Proof. unfold arguments. lia. Qed.

Lemma each_frame_applies cmds : forall n w1 e1 w2 (s : state) w' e',
  Forall sent_well cmds -> master_history cmds w1 e1 = Some (w', e') -> in_step n w1 e1 w2 s -> n + arguments cmds < u64_max ->
  is_replica (repl_manager s) = true -> 0 <= get_repl_offset (repl_manager s) <= u64_max ->
  exists w2' s', each_frame (map (fun parts => Array (Some parts)) cmds) w2 s = (w2', s', Done tt)
    /\ applied s (Z.of_nat (length cmds)) s' /\ in_step (n + arguments cmds) w' e' w2' s'.
Proof.
  induction cmds as [|parts cmds IH]; intros n w1 e1 w2 s w' e' Hf Hm He Hn Hr Ho.
  - injection Hm as <- <-. exists w2, s. split; [done|]. split; [|by rewrite Z.add_0_r]. unfold applied. split_and!; [done..|].
    rewrite Z.add_0_r, u64_wrap_small; [done|]. by unfold in_u64.
  - rewrite arguments_cons in Hn. pose proof (arguments_positive cmds). apply Forall_cons_1 in Hf as [Hp Hf]. cbn [master_history] in Hm.
    destruct (master_command parts w1 e1) as [[w3 e3]|] eqn:Em; [|done].
    destruct (process_applies parts n w1 e1 w2 s w3 e3 Hp Em He ltac:(lia) Hr) as (w4 & s4 & E1 & Ha & He3).
    pose proof Ha as (Hr1 & _ & _ & Ho1).
    destruct (IH (n + Z.of_nat (length parts)) w3 e3 w4 s4 w' e' Hf Hm He3 ltac:(lia) Hr1) as (w2' & s' & E' & Ha' & He').
    { rewrite Ho1. unfold u64_wrap, u64_max. pose proof (Z.mod_pos_bound (get_repl_offset (repl_manager s) + 1) 18446744073709551616). lia. }
    exists w2', s'. rewrite arguments_cons, Z.add_assoc. split; [|split; [|done]].
    + cbn [map each_frame]. unfold andThen at 1. by rewrite E1.
    + rewrite length_cons, Nat2Z.inj_succ, <- Z.add_1_l. by eapply applied_trans.
Qed.

(** ** The loop over the reads *)

(** A read of a working socket: at most a buffer of bytes, a time-out or an
    interruption. *)
Definition quiet (ev : LinkEvent) : bool :=
  match ev with
  | Read (IoOk data) => (0 <? length data)%nat && (length data <=? 4096)%nat
  | Read (IoErr IoWouldBlock) | Read (IoErr IoInterrupted) => true
  | _ => false
  end.

Definition bytes_of (events : list LinkEvent) : bytes :=
  concat (map (fun ev => match ev with Read (IoOk data) => data | _ => [] end) events).

Lemma heed_quiet w (s : state) : forallb quiet (reads_to_come (link s)) = true -> should_stop s = false ->
  heed_stop w s = (w, s, Done tt).
Proof.
  intros Hq Hs. unfold heed_stop.
  assert (heed (reads_to_come (link s)) (should_stop s) = (reads_to_come (link s), false)) as ->.
  { rewrite Hs. destruct (reads_to_come (link s)) as [|[r|] l]; [done|done|discriminate Hq]. }
  unfold set_reads, set_link. by destruct s as [? ? ? ? ? ? []].
Qed.

Lemma stopped_quiet w (s : state) : forallb quiet (reads_to_come (link s)) = true -> should_stop s = false ->
  stopped w s = (w, s, Done false).
Proof. intros Hq Hs. unfold stopped, andThen. by rewrite heed_quiet, Hs. Qed.

Lemma read_quiet w (s : state) ev events : reads_to_come (link s) = ev :: events -> forallb quiet (ev :: events) = true ->
  should_stop s = false ->
  stream_read 4096 w s = (w, set_reads events s, Done (match ev with Read r => r | StopAsked => IoErr IoOther end)).
Proof.
  intros Hr Hq Hs. unfold stream_read, andThen. rewrite heed_quiet by (by rewrite ?Hr). rewrite Hr. cbn [forallb] in Hq.
  apply andb_prop in Hq as [Hq _]. destruct ev as [[data|err]|]; [|done|discriminate Hq].
  unfold quiet in Hq. apply andb_prop in Hq as [_ Hl]. apply Nat.leb_le in Hl.
  by rewrite take_ge, drop_ge by lia.
Qed.

Lemma master_history_app c1 c2 w e w' e' : master_history (c1 ++ c2) w e = Some (w', e') ->
  exists w1 e1, master_history c1 w e = Some (w1, e1) /\ master_history c2 w1 e1 = Some (w', e').
Proof.
  revert w e. induction c1 as [|c c1 IH]; intros w e Hm; [by exists w, e|]. cbn [app master_history] in *.
  destruct (master_command c w e) as [[w1 e1]|]; [|done]. by apply IH.
Qed.

Lemma acknowledge_keeps w (s : state) : exists s', acknowledge w s = (w, s', Done tt)
  /\ repl_manager s' = repl_manager s /\ replica_store s' = replica_store s /\ should_stop s' = should_stop s
  /\ reads_to_come (link s') = reads_to_come (link s).
Proof.
  unfold acknowledge, send_ack, send_command.
  set (f := command_of _). assert (serialize_to_vec f = Ok (encode f)) as ->.
  { unfold serialize_to_vec. pose proof (serialize_spec f) as Hs. simpl sendable in Hs. unfold appends in Hs. by rewrite Hs. }
  unfold write_all_bytes. destruct (writes_to_come (link s)) as [|[e|] rest] eqn:Ew; eexists; (split; [reflexivity|]); simpl; by rewrite ?Ew.
Qed.

Abbreviation frame_of := (fun parts : list RespFrame => Array (Some parts)).
Abbreviation wf := (wf_frame frame_size pair_size).

(** The bytes that wait in the parser begin the next command. *)
Definition waiting (p : RespParser) (cmds : list (list RespFrame)) : Prop :=
  pending p = [] \/ exists f fs, map frame_of cmds = f :: fs /\ strict_prefix (pending p) (encode f).

Lemma waiting_none p cmds : Forall wf (map frame_of cmds) -> pending p = ReadLoop.wire (map frame_of cmds) -> waiting p cmds -> cmds = [].
Proof.
  intros Hwf Hp [He|(f & fs & E & _ & Hl)].
  - rewrite He in Hp. pose proof (wire_length frame_size pair_size _ Hwf). rewrite <- Hp in *. destruct cmds; [done|]. simpl in *. lia.
  - exfalso. rewrite Hp, E in Hl. unfold ReadLoop.wire in Hl. simpl in Hl. rewrite length_app in Hl. lia.
Qed.

Lemma replicate_loop_applies events : forall fuel p cmds n w1 e1 w2 (s : state) w' e',
  forallb quiet events = true -> reads_to_come (link s) = events -> should_stop s = false -> (length events < fuel)%nat ->
  Forall wf (map frame_of cmds) -> Forall sent_well cmds ->
  pending p ++ bytes_of events = ReadLoop.wire (map frame_of cmds) -> parser_ok p -> waiting p cmds ->
  master_history cmds w1 e1 = Some (w', e') -> in_step n w1 e1 w2 s -> n + arguments cmds < u64_max ->
  is_replica (repl_manager s) = true -> 0 <= get_repl_offset (repl_manager s) <= u64_max ->
  exists w2' s', replicate_loop frame_size pair_size fuel p w2 s = (w2', s', Running) /\ in_step (n + arguments cmds) w' e' w2' s'
    /\ get_repl_offset (repl_manager s') = u64_wrap (get_repl_offset (repl_manager s) + Z.of_nat (length cmds)).
Proof.
  induction events as [|ev events IH]; intros [|fuel] p cmds n w1 e1 w2 s w' e' Hq Hr Hs Hfuel Hwf Hf Hp Hok Hwait Hm He Hn Hrep Ho; simpl in Hfuel; try lia.
  - unfold bytes_of in Hp. simpl in Hp. rewrite app_nil_r in Hp. rewrite (waiting_none _ _ Hwf Hp Hwait) in *. injection Hm as <- <-.
    exists w2, s. cbn [replicate_loop]. unfold andThen at 1. rewrite stopped_quiet by (by rewrite ?Hr). cbn iota.
    unfold andThen at 1, stream_read, andThen. rewrite heed_quiet by (by rewrite ?Hr). rewrite Hr. split_and!; [done|by rewrite Z.add_0_r|].
    rewrite Z.add_0_r, u64_wrap_small; [done|]. by unfold in_u64.
  - cbn [replicate_loop]. unfold andThen at 1. rewrite stopped_quiet by (by rewrite ?Hr). cbn iota.
    unfold andThen at 1. rewrite (read_quiet w2 s ev events Hr Hq Hs). cbn [forallb] in Hq. apply andb_prop in Hq as [Hev Hq].
    destruct ev as [[data|err]|]; [| |discriminate Hev].
    + destruct data as [|x data]; [discriminate Hev|]. set (c := x :: data) in *. clearbody c.
      destruct (read_chunk_frames frame_size pair_size _ p c (bytes_of events) Hwf Hp Hok) as (fs1 & fs2 & p' & Hsplit & -> & Hp' & Hok' & Hw').
      apply map_eq_app in Hsplit as (c1 & c2 & -> & <- & <-). rewrite map_app in Hwf. apply Forall_app in Hwf as [_ Hwf2].
      apply Forall_app in Hf as [Hf1 Hf2]. apply master_history_app in Hm as (w3 & e3 & Hm1 & Hm2). rewrite arguments_app in Hn. pose proof (arguments_positive c2).
      destruct (each_frame_applies c1 n w1 e1 w2 (set_reads events s) w3 e3 Hf1 Hm1 He ltac:(lia) Hrep Ho)
        as (w4 & s4 & E1 & (Hr1 & Hs1 & Hl1 & Ho1) & He3).
      unfold andThen at 1. rewrite E1. destruct (IH fuel p' c2 (n + arguments c1) w3 e3 w4 s4 w' e') as (w2' & s' & E' & He' & Ho');
        [done|by rewrite Hl1|by rewrite Hs1|lia|done|done|done|done|done|done|done|lia|done| |].
      { rewrite Ho1. unfold u64_wrap, u64_max. pose proof (Z.mod_pos_bound (get_repl_offset (repl_manager (set_reads events s)) + Z.of_nat (length c1)) 18446744073709551616). lia. }
      exists w2', s'. rewrite arguments_app, Z.add_assoc. split_and!; [done|done|].
      rewrite Ho', Ho1. unfold u64_wrap. rewrite Zplus_mod_idemp_l, length_app, Nat2Z.inj_add. f_equal. simpl. lia.
    + assert (Hgo : forall s1, repl_manager s1 = repl_manager s -> replica_store s1 = replica_store s -> should_stop s1 = should_stop s ->
        reads_to_come (link s1) = events ->
        exists w2' s', replicate_loop frame_size pair_size fuel p w2 s1 = (w2', s', Running) /\ in_step (n + arguments cmds) w' e' w2' s'
          /\ get_repl_offset (repl_manager s') = u64_wrap (get_repl_offset (repl_manager s) + Z.of_nat (length cmds))).
      { intros s1 Em Ee Es El. rewrite <- Em. apply (IH fuel p cmds n w1 e1 w2 s1); try done; try congruence; try lia.
        unfold in_step in *. by rewrite Ee. }
      destruct err; try discriminate Hev; [|by apply Hgo].
      unfold andThen at 1. destruct (acknowledge_keeps w2 (set_reads events s)) as (s1 & -> & ? & ? & ? & ?). by apply Hgo.
Qed.

Lemma event_sizes events : (length events <= list_sum (map event_size events))%nat.
Proof. induction events as [|[[data|]|] events IH]; simpl; lia. Qed.

(** C2. A replica ends where its master is, on a clock of its own.  The master
    executed and propagated a number of commands, each answered without an
    error, and nothing else changed its store meanwhile (an expired key that it
    removes is not propagated); each of the commands is on the first database
    and one of: SET without NX and XX, DEL, EXPIRE with a positive time, INCR,
    DECR, INCRBY, LPUSH, RPUSH, SADD, HSET and ZADD with scores that are numbers.
    The replica had the master's data, neither has a memory limit, and for
    the same command the replica reads its clock from [least] to [most] later
    than the master did and makes draws of its own.  Then, in any cutting of
    the bytes into reads and with time-outs and interruptions anywhere between,
    the replication loop applies each command once and in order: it goes on
    waiting with the master's data, that is the same keys with the same values,
    sorted sets in the same order, and each deadline from [least] to [most]
    later than the master's; and its offset has counted the commands. *)
Theorem replica_converges events cmds n w1 e1 w' e' w2 (s : state) :
  forallb quiet events = true -> reads_to_come (link s) = events -> should_stop s = false ->
  Forall wf (map frame_of cmds) -> Forall (fun parts => followed parts = true /\ lifetime parts <= longest) cmds ->
  bytes_of events = concat (map encode (map frame_of cmds)) ->
  master_history cmds w1 e1 = Some (w', e') ->
  behind least most longest w1 w2 -> same_store least most n e1 (replica_store s) -> n + arguments cmds < u64_max ->
  is_replica (repl_manager s) = true -> 0 <= get_repl_offset (repl_manager s) <= u64_max ->
  exists w2' s', continuous_replication frame_size pair_size w2 s = (w2', s', Running)
    /\ same_store least most (n + arguments cmds) e' (replica_store s')
    /\ get_repl_offset (repl_manager s') = u64_wrap (get_repl_offset (repl_manager s) + Z.of_nat (length cmds)).
Proof.
  intros Hq Hr Hs Hwf Hf Hb Hm Hw He Hn Hrep Ho. unfold continuous_replication.
  assert (length events < S (reads_left s))%nat as Hfuel by (unfold reads_left; rewrite Hr; pose proof (event_sizes events); lia).
  destruct (replicate_loop_applies events (S (reads_left s)) parser_new cmds n w1 e1 w2 s w' e') as (w2' & s' & E & [_ He'] & Ho');
    try done; [by unfold parser_ok|by left|]. by exists w2', s'.
Qed.
End converges.

(** ** The retries *)

Section retries.
Context {ZS : Type} `{SortedSet ZS} `{Layout} `{Random} `{F64Text} `{CaseMap} `{DebugText}.
Context (frame_size pair_size : Z).

(** The delay after [n] failures in a row. *)
Definition delay_after (c : ReplicationClientConfig) (n : nat) : Z := Z.min (min_retry_delay c * 2 ^ Z.of_nat n) (max_retry_delay c).

Lemma refused_fails e w (s : ReplicationClient ZS) : exists s' err,
  connect_and_replicate frame_size pair_size (Refused e) w s = (w, s', Failed err) /\ config s' = config s
  /\ should_stop s' = should_stop s /\ current_retry_delay s' = current_retry_delay s /\ connection_attempts s' = connection_attempts s
  /\ replica_store s' = replica_store s.
Proof.
  unfold connect_and_replicate, link_status, try_manager, update_master_link_status, andThen.
  destruct (role (repl_manager s)); simpl; eexists _, _; (split; [reflexivity|]); done.
Qed.

Lemma delay_step c n : 0 <= min_retry_delay c -> 0 <= max_retry_delay c ->
  Z.min (delay_after c n * 2) (max_retry_delay c) = delay_after c (S n).
Proof. intros Hmin Hmax. unfold delay_after. rewrite Nat2Z.inj_succ, Z.pow_succ_r by lia. lia. Qed.

(** The thread after [n] refusals in a row. *)
Definition refused_times (c : ReplicationClientConfig) (store : StorageEngine ZS) (n : nat) (s : ReplicationClient ZS) : Prop :=
  config s = c /\ replica_store s = store /\ should_stop s = false /\ connection_attempts s = Z.of_nat n
  /\ current_retry_delay s = delay_after c n.

Context (c : ReplicationClientConfig).
Hypothesis delays : 0 <= min_retry_delay c <= max_retry_delay c.
Hypothesis no_overflow : max_retry_delay c * 2 <= duration_max.

Lemma refused_again store n e w s rest : refused_times c store n s -> Z.of_nat (S n) < 4294967296 ->
  max_retries c = 0 \/ Z.of_nat (S n) < max_retries c ->
  exists s', refused_times c store (S n) s'
    /\ run_client frame_size pair_size (Some (Refused e) :: rest) w s = run_client frame_size pair_size rest w s'.
Proof.
  intros (Hc & He & Hs & Ha & Hd) Hn Hmax. cbn [run_client]. rewrite Hs.
  destruct (refused_fails e w s) as (s1 & err & -> & Hc1 & Hs1 & Hd1 & Ha1 & He1).
  unfold andThen, after_failure. simpl config. simpl connection_attempts. simpl current_retry_delay.
  rewrite Hc1, Ha1, Hd1, Hc, Ha, Hd, Z.mod_small by lia.
  replace ((0 <? max_retries c) && (max_retries c <=? Z.of_nat n + 1)) with false by lia.
  replace (duration_max <? delay_after c n * 2) with false by (unfold delay_after; lia).
  eexists. split; [|reflexivity]. unfold refused_times. simpl. rewrite Hc1, Hs1, He1, delay_step by lia. split_and!; try done. lia.
Qed.

Lemma refused_often store n : forall k e w s rest, refused_times c store k s -> Z.of_nat (k + n) < 4294967296 ->
  max_retries c = 0 \/ Z.of_nat (k + n) < max_retries c ->
  exists s', refused_times c store (k + n) s'
    /\ run_client frame_size pair_size (replicate n (Some (Refused e)) ++ rest) w s = run_client frame_size pair_size rest w s'.
Proof.
  induction n as [|n IH]; intros k e w s rest Hs Hn Hmax; [exists s; by rewrite Nat.add_0_r|].
  destruct (refused_again store k e w s (replicate n (Some (Refused e)) ++ rest) Hs) as (s1 & Hs1 & E); [lia|lia|].
  destruct (IH (S k) e w s1 rest Hs1) as (s' & Hs' & E'); [lia|lia|]. exists s'. split; [by rewrite Nat.add_succ_comm in Hs'|].
  cbn [replicate app]. by rewrite E.
Qed.

Lemma refused_new m (store : StorageEngine ZS) : refused_times c store 0 (client_new c m store).
Proof. unfold refused_times, delay_after. simpl. split_and!; [done..|]. lia. Qed.

(** C40. The retries of the replica's thread.  With delays as configured (the
    least not above the greatest) and a master that refuses every connection,
    after [n] refusals the store is as it was and the next delay is the least
    one doubled [n] times, but not above the greatest; the thread tries again as
    long as the configured number of retries is not reached (zero: for ever),
    and ends at exactly that number. *)
Theorem retries_exact m (store : StorageEngine ZS) e n rest w : Z.of_nat n < 4294967296 ->
  (max_retries c = 0 \/ Z.of_nat n < max_retries c ->
     exists s', refused_times c store n s'
       /\ run_client frame_size pair_size (replicate n (Some (Refused e)) ++ rest) w (client_new c m store)
          = run_client frame_size pair_size rest w s')
  /\ (0 < max_retries c /\ Z.of_nat n = max_retries c ->
     exists s', replica_store s' = store
       /\ run_client frame_size pair_size (replicate n (Some (Refused e)) ++ rest) w (client_new c m store) = (w, s', Done tt)).
Proof.
  intros Hn. split; [intros Hmax; by apply (refused_often store n 0 e w _ rest (refused_new m store))|].
  intros [Hpos Hmax]. destruct n as [|n]; [lia|].
  destruct (refused_often store n 0 e w _ (Some (Refused e) :: rest) (refused_new m store)) as (s & Hs & E); [lia|lia|].
  rewrite replicate_S_end, <- app_assoc. cbn [app]. rewrite E. destruct Hs as (Hc & He & Hst & Ha & Hd). cbn [run_client]. rewrite Hst.
  destruct (refused_fails e w s) as (s1 & err & -> & Hc1 & Hs1 & Hd1 & Ha1 & He1).
  unfold andThen, after_failure. simpl config. simpl connection_attempts. rewrite Hc1, Ha1, Hc, Ha, Z.mod_small by lia.
  assert ((0 <? max_retries c) && (max_retries c <=? Z.of_nat (0 + n) + 1) = true) as ->.
  { apply andb_true_iff. rewrite Z.ltb_lt, Z.leb_le. rewrite <- Hmax, Nat2Z.inj_succ, Nat.add_0_l. lia. }
  eexists. split; [|reflexivity]. simpl. by rewrite He1.
Qed.
End retries.

(** ** Examples *)

(** Texts for the examples. *)
#[local] Instance example_texts : DebugText := {| debug_frame _ := B "frame"; number_error _ := B "invalid digit found in string" |}.

Definition words (l : list bytes) : list RespFrame := map bulk_string l.

Definition sample_commands : list (list RespFrame) :=
  [words [B "set"; B "k"; B "5"; B "EX"; B "100"]; words [B "INCRBY"; B "k"; B "3"]; words [B "RPUSH"; B "l"; B "a"; B "b"];
   words [B "ZADD"; B "z"; f64_display zero_f64; B "m"; f64_display zero_f64; B "n"]; words [B "HSET"; B "h"; B "f"; B "v"]; words [B "EXPIRE"; B "l"; B "7"]].

(** A replica with an empty store whose master's bytes come in five reads, with
    a time-out and an interruption between them. *)
Definition sample_events : list LinkEvent :=
  let b := concat (map encode (map (fun parts => Array (Some parts)) sample_commands)) in
  [Read (IoOk (take 7 b)); Read (IoErr IoWouldBlock); Read (IoOk (take 60 (drop 7 b))); Read (IoErr IoInterrupted);
   Read (IoOk (drop 67 b))].

Definition sample_replica : ReplicationClient SkipList :=
  mkClient client_config_default (mkRepl (Replica (B "127.0.0.1:6379") LinkUp (B "id") 41) ∅ (backlog_new 1000))
    (with_config 2 unlimited) false 0 0 (mkLink sample_events [] []).

(** A clock that is [lag] behind at each reading, and draws. *)
Definition lagging_world (lag : nat -> Z) (r : Z) : World :=
  mkWorld (fun i => 1000000000 * Z.min 1000 (Z.of_nat i + 1) + lag i) (wall sample_world) (fun _ => r) (cas_fails sample_world) (time_cache sample_world).

Definition master_world : World := lagging_world (fun _ => 0) 0.
Definition replica_world : World := lagging_world (fun i => 250000000 + 50000000 * Z.of_nat (i mod 2)) 7.

Lemma empty_same n least most k : 0 <= n -> same_store (ZS := SkipList) least most n (with_config k unlimited) (with_config k unlimited).
Proof.
  intros Hn. split; [done| |done..]. apply Forall2_replicate, Forall2_replicate. split; intros key; simpl; rewrite lookup_empty; constructor.
Qed.

Lemma replica_lags : behind 250000000 300000000 100000000000 master_world replica_world.
Proof.
  intros i. unfold apart, instant_max, i64_max. simpl. pose proof (Nat.mod_upper_bound i 2 ltac:(lia)). lia.
Qed.

(** The replica's clock is between 250 and 300 milliseconds behind. *)
Lemma replica_converges_witness :
  exists w' e' w2' s', master_history sample_commands master_world (replica_store sample_replica) = Some (w', e')
    /\ continuous_replication 32 64 replica_world sample_replica = (w2', s', Running)
    /\ same_store 250000000 300000000 25 e' (replica_store s')
    /\ get_repl_offset (repl_manager s') = 47.
Proof.
  destruct (master_history sample_commands master_world (replica_store sample_replica)) as [[w' e']|] eqn:E.
  - destruct (replica_converges 32 64 250000000 300000000 100000000000 sample_events sample_commands 0 master_world
      (replica_store sample_replica) w' e' replica_world sample_replica) as (w2' & s' & Hrun & He & Ho).
    + vm_compute. reflexivity.
    + reflexivity.
    + reflexivity.
    + unfold sample_commands. cbn [map]. repeat apply Forall_cons_2; [..|apply Forall_nil_2]; vm_compute; intuition discriminate.
    + unfold sample_commands. repeat apply Forall_cons_2; [..|apply Forall_nil_2]; vm_compute; intuition discriminate.
    + vm_compute. reflexivity.
    + exact E.
    + exact replica_lags.
    + by apply empty_same.
    + vm_compute. reflexivity.
    + reflexivity.
    + vm_compute. split; discriminate.
    + exists w', e', w2', s'. split; [exact eq_refl|]. split; [exact Hrun|]. split; [exact He|]. rewrite Ho. vm_compute. reflexivity.
  - exfalso. assert (Hs : match master_history sample_commands master_world (replica_store sample_replica) with Some _ => true | None => false end = true)
      by (vm_compute; reflexivity). by rewrite E in Hs.
Defined.

Lemma retries_exact_witness :
  delay_after client_config_default 3 = 8000000000 /\ delay_after client_config_default 9 = 30000000000
  /\ exists s', refused_times client_config_default (with_config 2 unlimited : StorageEngine SkipList) 9 s'
    /\ run_client 32 64 (replicate 9 (Some (Refused IoOther)) ++ []) sample_world
         (client_new client_config_default (repl_manager sample_replica) (with_config 2 unlimited))
       = run_client 32 64 [] sample_world s'.
Proof.
  split; [reflexivity|]. split; [reflexivity|].
  apply (retries_exact 32 64 client_config_default); [done|done|lia|by left].
Defined.
