(* ===== verification/Transactions.v ===== *)
(** * Transactions: MULTI, the queue and EXEC

    The commands between MULTI and EXEC are queued and run by EXEC one after the
    other, with nothing in between, unless the check of the watched keys says
    that one was modified. *)

From S2P Require Import Prelude Text Resp SortedSet Value PubSub RespParser Connection Blocking Keyspace EngineSteps EngineWatch.
From S2P Require Import Command CommandLogic Replication LuaEngine Info Server ServerLoop ServerSteps ServerProofs SkipList SortedSetImpl Sample.

Open Scope Z_scope.

Section transactions.
Context {ZS : Type} `{SortedSet ZS} `{Layout} `{HashIter} `{F64Text} `{Random} `{CaseMap} `{Mlua} `{Resolver} `{Process}.
Abbreviation Server := (Server ZS).

(** ** One connection *)

Definition put_conn (id : Z) (c : Connection) : Server -> Server := on_conn id (fun _ => c).

Lemma lookup_put_conn id c c0 (s : Server) : connections s !! id = Some c0 -> connections (put_conn id c s) !! id = Some c.
Proof. intros Hc. unfold put_conn. rewrite lookup_on_conn, decide_True by done. by rewrite Hc. Qed.

Lemma put_put_conn id c1 c2 (s : Server) : put_conn id c2 (put_conn id c1 s) = put_conn id c2 s.
Proof.
  unfold put_conn, on_conn, set_connections, set_core, connections. simpl. f_equal. f_equal.
  apply map_eq. intros j. destruct (decide (j = id)) as [->|Hne].
  - rewrite !lookup_alter_eq. by destruct (_ !! id).
  - by rewrite !lookup_alter_ne.
Qed.

Lemma on_conn_put id f c (s : Server) : connections s !! id = Some c -> on_conn id f s = put_conn id (f c) s.
Proof.
  intros Hc. unfold put_conn, on_conn, set_connections. f_equal. f_equal. apply map_eq. intros j.
  destruct (decide (j = id)) as [->|Hne]; [by rewrite !lookup_alter_eq, Hc|by rewrite !lookup_alter_ne].
Qed.

(** The gate is open for the connection. *)
Definition admitted (s : Server) (c : Connection) : Prop := password s = None \/ is_authenticated c = true.

Lemma admitted_gate s c : admitted s c -> bool_decide (is_Some (password s)) && negb (is_authenticated c) = false.
Proof. intros [Hp|Ha]; [rewrite Hp; by case_bool_decide as Hs; [destruct Hs|]|by rewrite Ha, andb_false_r]. Qed.

(** The count of [n] more commands, which INFO reports. *)
Fixpoint counted (n : nat) (s : Server) : Server :=
  match n with O => s | S n' => counted n' (on_stats count_command s) end.

Lemma counted_put n id c : forall s : Server, counted n (put_conn id c s) = put_conn id c (counted n s).
Proof. induction n as [|n IH]; intros s; [done|]. cbn [counted]. by rewrite <- IH. Qed.

Lemma counted_one n : forall s : Server, on_stats count_command (counted n s) = counted (S n) s.
Proof. induction n as [|n IH]; intros s; [done|]. cbn [counted]. by rewrite IH. Qed.

Lemma counted_storage n : forall s : Server, storage (counted n s) = storage s.
Proof. induction n as [|n IH]; intros s; [done|]. cbn [counted]. by rewrite IH. Qed.

Lemma counted_connections n : forall s : Server, connections (counted n s) = connections s.
Proof. induction n as [|n IH]; intros s; [done|]. cbn [counted]. by rewrite IH. Qed.

Lemma counted_admitted n c : forall s : Server, admitted s c -> admitted (counted n s) c.
Proof. induction n as [|n IH]; intros s Hs; [done|]. by apply IH. Qed.

Lemma run_bind_go {A} (m : cmd Server A) k w s w' s' a :
  m w s = (w', s', Go a) -> run_handler (bind m k) w s = run_handler (k a) w' s'.
Proof. intros E. unfold run_handler, bind. by rewrite E. Qed.

Lemma run_with_connection (s : Server) id c f w :
  connections s !! id = Some c -> run_handler (with_connection id f) w s = run_handler (f c) w s.
Proof. intros Hc. unfold run_handler. by rewrite (with_connection_some _ _ _ _ _ Hc). Qed.

(** What [process_frame] does once the gate is open. *)
Lemma process_frame_admitted (s : Server) id c b args w :
  connections s !! id = Some c -> admitted s c ->
  run_handler (process_frame (command_frame b args) id) w s
  = run_handler
      (let parts := BulkString (Some b) :: args in
       let command := trim_uppercase b in
       match control_command command id parts with
       | Some h => h
       | None =>
           if in_transaction (transaction_state c) && should_queue_command command then
             conn_command id (fun c => queue_command c parts)
           else unpaused command (process_normal_command (conn_db c) id parts)
       end) w s.
Proof.
  intros Hc Ha. unfold process_frame, command_frame. cbv zeta. rewrite (run_with_connection _ _ _ _ _ Hc).
  erewrite run_bind_go by reflexivity. by rewrite (admitted_gate _ _ Ha).
Qed.

(** A frame that is not handled before [process_frame]. *)
Definition not_sync (b : bytes) : bool :=
  negb (bool_decide (to_uppercase b = B "SYNC")) && negb (bool_decide (to_uppercase b = B "PSYNC")).

Lemma process_request_frame b args id :
  not_sync b = true -> process_request (ZS := ZS) (command_frame b args) id = process_frame (command_frame b args) id.
Proof.
  unfold not_sync, process_request, command_frame. cbn [frame_command]. intros [Hs Hp]%andb_true_iff.
  apply negb_true_iff in Hs, Hp. by rewrite Hs, Hp.
Qed.

(** ** Queueing *)

(** A command that a transaction queues. *)
Definition queueable (parts : list RespFrame) : bool :=
  match parts with
  | BulkString (Some b) :: _ =>
      not_sync b
      && negb (bool_decide (trim_uppercase b ∈
           [B "MONITOR"; B "MULTI"; B "EXEC"; B "DISCARD"; B "WATCH"; B "UNWATCH"; B "PUBLISH"; B "SUBSCRIBE";
            B "UNSUBSCRIBE"; B "PSUBSCRIBE"; B "PUNSUBSCRIBE"; B "AUTH"; B "REPLCONF"]))
  | _ => false
  end.

Lemma find_command_none {A} name (l : list (bytes * A)) : name ∉ l.*1 -> find_command name l = None.
Proof.
  induction l as [|[n a] l IH]; [done|]. intros [Hn Hl]%not_elem_of_cons. cbn [find_command]. simpl in Hn.
  rewrite bool_decide_eq_false_2 by congruence. by apply IH.
Qed.

Lemma queueable_inv parts :
  queueable parts = true ->
  exists b args, parts = BulkString (Some b) :: args /\ not_sync b = true
    /\ (forall id, control_command (ZS := ZS) (trim_uppercase b) id parts = None)
    /\ should_queue_command (trim_uppercase b) = true.
Proof.
  unfold queueable. destruct parts as [|[| | |[b|]| | | | | | |] args]; try done.
  intros [Hs Hn]%andb_true_iff. apply negb_true_iff, bool_decide_eq_false in Hn. exists b, args. split_and!; [done|done| |].
  - intros id. by apply find_command_none.
  - unfold should_queue_command. rewrite bool_decide_eq_false_2; [done|]. intros Hin. apply Hn. set_solver.
Qed.

Definition queued : RespFrame := SimpleString (B "QUEUED").

(** The connection with more commands in its queue. *)
Definition enqueue (commands : list (list RespFrame)) (c : Connection) : Connection :=
  let t := transaction_state c in
  set_tx (mkTx (in_transaction t) (queued_commands t ++ commands) (watched_keys t) (aborted t)) c.

Lemma enqueue_nil c : enqueue [] c = c.
Proof. unfold enqueue. rewrite app_nil_r. by destruct c as [? ? ? ? ? ? [] ? ?]. Qed.

Lemma enqueue_enqueue l1 l2 c : enqueue l2 (enqueue l1 c) = enqueue (l1 ++ l2) c.
Proof. unfold enqueue, set_tx. simpl. by rewrite app_assoc. Qed.

Lemma put_same_conn id c (s : Server) : connections s !! id = Some c -> put_conn id c s = s.
Proof.
  intros Hc. unfold put_conn, on_conn, set_connections, set_core, connections in *. destruct s as [[e m cs] ? ? ? ? ? ? ? ? ? ? ? ? ? ? ?]. simpl in *.
  f_equal. f_equal. apply map_eq. intros j. destruct (decide (j = id)) as [->|Hne];
    [by rewrite lookup_alter_eq, Hc|by rewrite lookup_alter_ne].
Qed.

Lemma queue_one (s : Server) id c parts w :
  connections s !! id = Some c -> admitted s c -> in_transaction (transaction_state c) = true -> queueable parts = true ->
  run_handler (process_request (Array (Some parts)) id) w s = (w, put_conn id (enqueue [parts] c) s, Ok queued).
Proof.
  intros Hc Ha Ht (b & args & -> & Hs & Hk & Hq)%queueable_inv.
  change (Array (Some (BulkString (Some b) :: args))) with (command_frame b args). rewrite (process_request_frame b args id Hs).
  rewrite (process_frame_admitted _ _ _ _ _ _ Hc Ha). cbv zeta. rewrite Hk, Ht, Hq. cbn [andb].
  unfold conn_command. by rewrite (run_with_connection _ _ _ _ _ Hc).
Qed.

Lemma queue_all id commands : forall (s : Server) c rest w,
  connections s !! id = Some c -> admitted s c -> in_transaction (transaction_state c) = true ->
  Forall (fun parts => queueable parts = true) commands ->
  process_frames id (map (fun parts => Array (Some parts)) commands ++ rest) w s
  = (let '(w', s', r) := process_frames id rest w (put_conn id (enqueue commands c) (counted (length commands) s)) in
     (w', s', let? l := r in Ok (replicate (length commands) queued ++ l))).
Proof.
  induction commands as [|parts commands IH]; intros s c rest w Hc Ha Ht Hq; cbn [map app length replicate].
  - cbn [counted]. rewrite enqueue_nil, (put_same_conn _ _ _ Hc). destruct (process_frames id rest w s) as [[w' s'] [l|e|]]; done.
  - apply Forall_cons in Hq as [Hp Hq]. cbn [process_frames]. rewrite (queue_one (on_stats count_command s) _ _ _ _ Hc Ha Ht Hp).
    rewrite (IH _ (enqueue [parts] c)); [|by eapply lookup_put_conn|by destruct Ha; [left|right]|done|done].
    rewrite counted_put, put_put_conn, enqueue_enqueue. cbn [app counted].
    destruct (process_frames id rest w _) as [[w' s'] [l|e|]]; done.
Qed.

(** ** EXEC *)

(** Commands one after the other on a database: their answers, an error as an
    error frame. *)
Fixpoint in_order (db : nat) (conn_id : Z) (commands : list (list RespFrame)) (w : World) (s : Server)
    : World * Server * outcome (list RespFrame) :=
  match commands with
  | [] => (w, s, Ok [])
  | parts :: commands' =>
      let '(w1, s1, r) := run_handler (process_normal_command db conn_id parts) w s in
      match r with
      | Panic => (w1, s1, Panic)
      | Ok _ | Err _ =>
          let f := match r with Ok f => f | Err e => error (show_error e) | Panic => NoResponse end in
          let '(w2, s2, r2) := in_order db conn_id commands' w1 s1 in
          (w2, s2, let? l := r2 in Ok (f :: l))
      end
  end.

Lemma run_queue_in_order db commands : forall results w (s : Server),
  run_queue db commands results w s
  = (let '(w', s', r) := in_order db 0 commands w s in
     (w', s', match r with Ok l => Go (results ++ l) | _ => Crash end)).
Proof.
  induction commands as [|parts commands IH]; intros results w s; cbn [run_queue in_order]; [by rewrite app_nil_r|].
  destruct (run_handler _ w s) as [[w1 s1] [f|e|]]; [| |done];
    rewrite IH; destruct (in_order db 0 commands w1 s1) as [[w2 s2] [l|e'|]]; simpl; by rewrite <- ?app_assoc.
Qed.

Lemma in_order_no_error db id commands : forall w (s : Server) w' s' e, in_order db id commands w s <> (w', s', Err e).
Proof.
  induction commands as [|parts commands IH]; intros w s w' s' e; cbn [in_order]; [done|].
  destruct (run_handler _ w s) as [[w1 s1] [f|e1|]]; [| |done];
    pose proof (IH w1 s1) as IH1; destruct (in_order db id commands w1 s1) as [[w2 s2] [l|e2|]]; simpl; congruence.
Qed.

(** The check of the watched keys depends on the store, and leaves it. *)
Lemma check_watched_store db keys : forall w (s : Server), exists w' r, forall s' : Server,
  storage s' = storage s -> check_watched db keys w s' = (w', s', r).
Proof.
  induction keys as [|[key baseline] keys IH]; intros w s; cbn [check_watched]; [by eexists _, _|].
  unfold bind, now, on_engine, catch_op.
  pose proof (was_modified_same (clock w 0%nat) (storage s) db key baseline) as Hsame.
  destruct (was_modified_since (clock w 0%nat) (storage s) db key baseline) as [e r] eqn:E. simpl in Hsame. subst e.
  destruct r as [[]|err|].
  1, 3, 4: eexists _, _; intros s' Hs'; rewrite Hs', E; cbn [ret]; by rewrite <- Hs', set_storage_same.
  match goal with |- context [mkWorld ?a ?b ?c ?d ?e] => destruct (IH (mkWorld a b c d e) s) as (w' & r & Hr) end.
  exists w', r. intros s' Hs'. rewrite Hs', E. rewrite <- Hs', set_storage_same. by apply Hr.
Qed.

Lemma multi_frame (s : Server) id c w :
  connections s !! id = Some c -> admitted s c -> in_transaction (transaction_state c) = false ->
  run_handler (process_request (command_frame (B "MULTI") []) id) w s
  = (w, put_conn id (set_tx (mkTx true [] (watched_keys (transaction_state c)) false) c) s, Ok ok).
Proof.
  intros Hc Ha Ht. rewrite process_request_frame by done. rewrite (process_frame_admitted _ _ _ _ _ _ Hc Ha). cbv zeta.
  change (trim_uppercase (B "MULTI")) with (B "MULTI").
  change (control_command (B "MULTI") id _) with (Some (conn_command (ZS := ZS) id handle_multi)). cbv iota.
  unfold conn_command. rewrite (run_with_connection _ _ _ _ _ Hc). unfold handle_multi. by rewrite Ht.
Qed.

(** EXEC on a connection whose queue is [commands]. *)
Lemma exec_frame (s : Server) id c commands w w1 dirty :
  connections s !! id = Some c -> admitted s c -> transaction_state c = mkTx true commands (watched_keys (transaction_state c)) false ->
  check_watched (conn_db c) (map_iter (watched_keys (transaction_state c))) w s = (w1, s, Go dirty) ->
  run_handler (process_request (command_frame (B "EXEC") []) id) w s
  = (let idle := put_conn id (set_tx tx_clear c) s in
     if dirty : bool then (w1, idle, Ok null_array)
     else let '(w2, s2, r) := in_order (conn_db c) 0 commands w1 idle in
          (w2, s2, match r with Ok l => Ok (Array (Some l)) | _ => Panic end)).
Proof.
  intros Hc Ha Ht Hcheck. rewrite process_request_frame by done. rewrite (process_frame_admitted _ _ _ _ _ _ Hc Ha). cbv zeta.
  change (trim_uppercase (B "EXEC")) with (B "EXEC").
  change (control_command (B "EXEC") id _) with (Some (handle_exec (ZS := ZS) id)). cbv iota.
  unfold handle_exec. erewrite run_bind_go by reflexivity. rewrite Hc, Ht. cbn [in_transaction negb aborted queued_commands watched_keys].
  erewrite run_bind_go by exact Hcheck. erewrite run_bind_go by reflexivity. rewrite (on_conn_put _ _ _ _ Hc), orb_false_r.
  destruct dirty; [done|]. unfold run_handler, bind. rewrite run_queue_in_order.
  destruct (in_order _ _ _ _ _) as [[w2 s2] [l|e|]]; done.
Qed.

(** C1. A transaction.  A connection that sends MULTI, commands and EXEC is
    answered OK, QUEUED for every command, and by EXEC: null when a watched key
    was modified, and then no command has run; or the answers of the commands,
    run one after the other on the database selected, with nothing in between
    and an error as one of the answers.  Either way the transaction is over, the
    watched keys are forgotten, and the requests are counted. *)
Theorem transaction_exact (s : Server) (id : Z) (c : Connection) (commands : list (list RespFrame)) (w w1 : World) (dirty : bool)
    (Hconn : connections s !! id = Some c) (Hadmitted : admitted s c) (Hidle : in_transaction (transaction_state c) = false)
    (Hqueue : Forall (fun parts => queueable parts = true) commands)
    (Hcheck : check_watched (conn_db c) (map_iter (watched_keys (transaction_state c))) w s = (w1, s, Go dirty)) :
  process_frames id
    (command_frame (B "MULTI") [] :: map (fun parts => Array (Some parts)) commands ++ [command_frame (B "EXEC") []]) w s
  = (let idle := put_conn id (set_tx tx_clear c) (counted (length commands + 2) s) in
     let answers a := Ok (ok :: replicate (length commands) queued ++ [a]) in
     if dirty then (w1, idle, answers null_array)
     else let '(w2, s2, r) := in_order (conn_db c) 0 commands w1 idle in
          (w2, s2, match r with Ok l => answers (Array (Some l)) | _ => Panic end)).
Proof.
  cbn [process_frames]. rewrite (multi_frame (on_stats count_command s) _ _ _ Hconn Hadmitted Hidle).
  set (t := transaction_state c) in *. set (c1 := set_tx (mkTx true [] (watched_keys t) false) c).
  rewrite (queue_all id commands _ c1); [|by eapply lookup_put_conn|by destruct Hadmitted; [left|right]|done|done].
  rewrite counted_put, put_put_conn. set (c2 := enqueue commands c1). cbn [process_frames].
  change (on_stats count_command (put_conn id c2 ?x)) with (put_conn id c2 (on_stats count_command x)).
  rewrite counted_one. change (counted (S (length commands)) (on_stats count_command s)) with (counted (S (S (length commands))) s).
  set (n := S (S (length commands))).
  rewrite (exec_frame _ id c2 commands w w1 dirty).
  - cbv zeta. rewrite put_put_conn. change (set_tx tx_clear c2) with (set_tx tx_clear c). change (conn_db c2) with (conn_db c).
    replace (length commands + 2)%nat with n by (subst n; lia).
    destruct dirty; [done|]. destruct (in_order _ _ _ _ _) as [[w2 s2] [l|e|]]; done.
  - eapply lookup_put_conn. by rewrite counted_connections.
  - apply counted_admitted. by destruct Hadmitted; [left|right].
  - done.
  - destruct (check_watched_store (conn_db c) (map_iter (watched_keys t)) w s) as (w' & r & Hr).
    change (conn_db c2) with (conn_db c). change (watched_keys (transaction_state c2)) with (watched_keys t).
    pose proof (Hr s eq_refl) as Hs. rewrite Hcheck in Hs. injection Hs as -> <-. apply Hr.
    change (storage (put_conn id c2 (counted n s))) with (storage (counted n s)). apply counted_storage.
Qed.
End transactions.

(** MULTI, INCR n, LPUSH n x (an error), GET n, EXEC: the error is one of the
    answers and the commands around it ran; and a transaction that finds its
    watched key modified. *)
Lemma transaction_exact_witness :
  let s := after 1 (sample_server None) [request [B "WATCH"; B "n"]] in
  let c := default (conn_new (B "127.0.0.1:6000") 0) (connections s !! 1) in
  let commands := [map from_bytes [B "INCR"; B "n"]; map from_bytes [B "LPUSH"; B "n"; B "x"]; map from_bytes [B "GET"; B "n"]] in
  let requests := command_frame (B "MULTI") [] :: map (fun parts => Array (Some parts)) commands ++ [command_frame (B "EXEC") []] in
  (process_frames 1 requests sample_world s).2
  = Ok (ok :: replicate 3 queued ++ [Array (Some [Integer 1; error wrong_type_message; from_bytes (B "1")])])
  /\ answers 1 (after 2 s [request [B "SET"; B "n"; B "5"]]) requests = Ok (ok :: replicate 3 queued ++ [null_array]).
Proof.
  intros s c commands requests. split; [|vm_compute; reflexivity].
  set (check := check_watched (conn_db c) (map_iter (watched_keys (transaction_state c))) sample_world s).
  pose proof (transaction_exact s 1 c commands sample_world check.1.1 false) as Ht. unfold requests. rewrite Ht.
  - vm_compute. reflexivity.
  - vm_compute. reflexivity.
  - by left.
  - vm_compute. reflexivity.
  - repeat constructor.
  - destruct (check_watched_store (conn_db c) (map_iter (watched_keys (transaction_state c))) sample_world s) as (w' & r & Hr).
    pose proof (Hr s eq_refl) as Hs. unfold check. rewrite Hs. cbn [fst snd]. f_equal.
    assert (Hd : (check_watched (conn_db c) (map_iter (watched_keys (transaction_state c))) sample_world s).2 = Go false)
      by (vm_compute; reflexivity).
    by rewrite Hs in Hd.
Defined.
